(* ===== verification/_CoqProject ===== *)
-Q . S2P
Prelude.v
Exceptions.v
Name.v
Merkle.v
BlockHeader.v
HeaderState.v
ForkDatabase.v
Chainbase.v
EosLib.v
ChainAsset.v
ResourceLimits.v
Authority.v
AuthorizationManager.v
NativeContract.v
ContractTables.v
Admission.v
TransactionContext.v
Execution.v
Controller.v
Blocks.v
ChainState.v
ForkSwitch.v
Msig.v
Token.v
SystemContract.v
Voting.v
Bandwidth.v
Election.v
