(* ===== verification/Prelude.v ===== *)
(** * BACC chain: verification library

    BACC is an EOSIO chain with its own system, token and multi-signature
    contracts.  This library models the parts of the node and of the contracts
    that decide which blocks are accepted, what the state is after undoing a
    session, who owns which tokens and who produces blocks, and proves them
    correct, or shows where they are not.

    ** Parts of the program and files of the library

    The node keeps the chain state in indices with an undo stack (chainbase),
    follows the headers of all forks (block_header_state, fork_database) and
    executes contracts; the contracts keep tables and send inline actions to
    each other.

    - [Prelude]: results, the state and error monad, machine words, sums over
      maps, tactics and hints.
    - [Exceptions]: [chain/include/eosio/chain/exceptions.hpp].
    - [Name]: names as 64-bit words ([name.hpp], [name.cpp]).
    - [Merkle]: [merkle.cpp] and [incremental_merkle.hpp].
    - [BlockHeader]: [block_timestamp.hpp], [producer_schedule.hpp],
      [block_header.hpp] and [.cpp]; hashing and signatures are the class
      [ChainCrypto].
    - [HeaderState]: [block_header_state.cpp], the DPOS rules.
    - [ForkDatabase]: [fork_database.cpp] and [block_state.cpp] over a heap of
      shared block states with the three orders of the multi-index container.
    - [Chainbase]: [generic_index] of [chainbase.hpp].
    - [ResourceLimits]: [resource_limits.cpp] and the usage accumulator.
    - [Authority]: [authority.hpp] and [authority_checker.hpp], whether keys,
      levels and a delay satisfy an authority.
    - [AuthorizationManager]: [authorization_manager.cpp], permissions, links and
      the check of the actions of a transaction.
    - [NativeContract]: [eosio_contract.cpp] and [config_on_chain.cpp], with what
      they use of the controller and of the contexts.
    - [ContractTables]: the tables of contracts, as the database intrinsics of
      [apply_context.hpp] and [.cpp] keep them: the primary index, an index with
      integer keys, the iterator caches and the memory charged for rows.
    - [Admission]: what an input transaction must pass before it runs:
      [chain_config.cpp], [transaction.cpp], and of [controller.cpp] the block
      summaries, the index of known transactions, the lists of a node and the
      authority of the producers.
    - [TransactionContext]: [transaction_context.cpp] except [exec]: limits, timers,
      the start and the end of a transaction and its billing.
    - [Execution]: [apply_context.cpp] and [transaction_context::exec]: contracts
      as programs of host calls ([wasm_interface.cpp]), notifications, inline and
      deferred actions, sequence numbers and receipts.
    - [Controller]: [controller.cpp], input and scheduled transactions, the start,
      the end and the check of blocks; [Blocks] has the theorems about what stays of
      them, [ChainState] the invariant of the chain state through all of them.
    - [ForkSwitch]: [pop_block], [maybe_switch_forks] and [push_block] of
      [controller.cpp], which join [Controller] and [ForkDatabase].
    - [ChainAsset]: [symbol.hpp], [asset.hpp] and [asset.cpp] of the node, with
      the texts they parse and print.
    - [EosLib]: symbols and assets of [contracts/eosiolib] and the environment
      of an action.
    - [Msig]: [contracts/noc.msig] and the intrinsic that connects it to the
      authorization manager.
    - [Token]: [contracts/noc.token].
    - [SystemContract]: [contracts/noc.system]; [Voting], [Bandwidth] and
      [Election] hold the theorems about its three groups of actions.

    ** How the code is modelled

    A C++ function that can throw is a computation of [ST]: it returns or throws
    and keeps the writes made before the throw.  A failed assertion of a contract
    aborts the transaction, so theorems about contract actions speak of [run],
    which gives the state of a successful action only.  Integers keep their
    width: [u32], [u64], [i64], [i128] wrap as the C++ types do.  Ordered
    containers are [gmap]s that are walked in key order ([ascending]); the
    multi-index container of the fork database keeps an explicit list per order,
    because the position of equal keys matters there.  What a contract asks of
    the chain is the list [requests] in the order of the calls.  Undefined
    behaviour, such as following a null pointer, is the error
    [undefined_behavior]; unspecified behaviour (the order [std::sort] leaves
    equal elements in, the memory behind a vector) is an argument.

    ** What is shown

    - Headers: only headers by the scheduled producer with a valid signature are
      accepted, the state stays well formed, the irreversible block has two
      thirds of the producers behind it and does not go back while the schedule
      stands.
    - Fork database: its indices agree in every reachable state, the head is the
      best block, removing and pruning terminate and erase what they should,
      branches meet at a common ancestor.
    - Chainbase: the undo stack refines a stack of snapshots; undo restores.
    - Merkle, names, timestamps, block ids: the incremental tree equals the batch
      one; printing and parsing round trip.
    - Resource limits: usage stays within the shares of the accounts and the
      limits of the block; weights and totals agree.
    - Authorization: the checker with its cache grants only what a plain
      recursion over authorities allows, and exactly that on hierarchies within
      its depth; accepted actions are authorized; the native actions keep the
      tree of permissions; the multi-signature contract executes only what was
      proposed and approved, down to the authorities of the node.
    - Contract tables: sequences of database calls refine a map from keys to rows,
      the memory charged to accounts is that of the rows they pay for, iteration
      follows the order of the keys, and the iterator cache never refers to a
      removed row.
    - Transactions: none is admitted twice; a reference to a block is accepted
      exactly for recent blocks; the check of actors is a check of sets; billing at
      the end succeeds once the checks have passed; running actions terminates,
      keeps the chain state sound whatever contracts do, lets contracts use only
      authorities given to their code, and numbers the receipts in order.
    - Blocks: a transaction is in the block with its receipt and actions or leaves no
      trace, a scheduled one ends in exactly one way; a block that fails is undone as
      a whole, and one that is accepted is the block the node builds itself; the
      actions of a block are numbered without gaps; whatever a node does with blocks,
      the chain state stays sound; the database is always that of the head, also
      when a switch to another fork fails.
    - Assets of the node: printing and parsing round trip, arithmetic stays within
      the range of amounts or throws.
    - Contracts: token supply and balances agree; locked amounts stay in range
      and cover the votes, which discharges what the token contract assumes;
      delegated bandwidth, refunds and transfers balance; the election takes the
      producers with most stake.  Theorems that state a defect of the code say so
      in their comment.

    ** Bounds and fuel

    Loops of the code that are not structural run on fuel: pruning and fetching
    branches in the fork database take the number of indexed blocks as fuel, and
    [prune_terminates] and [fetch_branch_from_sound] show that it is enough;
    [remove_takes_descendants] does so for removal.  The merkle loop is bounded by
    the length of the list.  The authority checker recurses on the depth that is
    left to it, as the code counts it; the walk up a permission's ancestors takes
    the id of the permission as fuel, and [satisfies_is_ancestor] shows that it is
    enough.  The loop that forgets expired transactions runs at most once per
    entry ([clear_keeps_unexpired]).  An action is delivered to at most as many
    receivers as there are accounts and one more, and inline actions nest at most
    65535 deep; [execution_terminates] shows that the fuel chosen from these bounds
    gives the result of the rules without a bound.

    ** Not modelled

    Plugins and programs (network, HTTP, wallets, command lines), the WASM
    runtimes and intrinsic bindings, files (block log, snapshots, the saved fork
    database, the memory-mapped database file) and vendored code.  A contract is
    a finite program of host calls, since the runtime stops it at the deadline; host
    functions that only compute or read the block and the transaction are left
    out, as are traces and the console.  Of the controller, the startup with genesis
    and replay, the commit of a produced block to the fork database, the reversible
    blocks and the signals to plugins are left out: they read and write files or call
    observers.  The database of the node is a record of its tables in [Controller],
    each session a copy; that an index with its undo stack restores a copy is shown in
    [Chainbase], but the database of many indices is not modelled.  The ABI serializer
    is reached from plugins only.  The fee model is another build of the program. *)

From Stdlib Require Export ZArith Lia.
From stdpp Require Export base tactics option gmap sorting strings numbers list.

(** Notations of the development live in their own scope. *)
Declare Scope chain_scope.
Delimit Scope chain_scope with chain.

#[export] Set Default Goal Selector "!".
#[global] Open Scope Z_scope.

(** ** Results: a C++ call either returns or throws *)

Inductive result (E A : Type) : Type :=
| Ok (a : A)
| Err (e : E).
Arguments Ok {E A} a.
Arguments Err {E A} e.

#[export] Instance result_eq_dec {E A} `{EqDecision E, EqDecision A} : EqDecision (result E A).
Proof. solve_decision. Defined.

#[export] Instance result_ret {E} : MRet (result E) := fun A a => Ok a.
#[export] Instance result_bind {E} : MBind (result E) :=
  fun A B f m => match m with Ok a => f a | Err e => Err e end.

Definition is_ok {E A} (r : result E A) : bool :=
  match r with Ok _ => true | Err _ => false end.

(** [EOS_ASSERT( b, e, ... )] and [eosio_assert( b, msg )]. *)
Definition eos_assert {E} (b : bool) (e : E) : result E () :=
  if b then Ok () else Err e.

(** A pointer or iterator that must not be null. *)
Definition of_option {E A} (o : option A) (e : E) : result E A :=
  match o with Some a => Ok a | None => Err e end.

(** ** State and exceptions

    A C++ exception does not undo the writes made before it is thrown, so the
    state survives an [Err]. *)

Definition ST (S E A : Type) : Type := S → result E A * S.

#[export] Instance st_ret {S E} : MRet (ST S E) := fun A a s => (Ok a, s).
#[export] Instance st_bind {S E} : MBind (ST S E) :=
  fun A B f m s => match m s with
                   | (Ok a, s') => f a s'
                   | (Err e, s') => (Err e, s')
                   end.

Section ST.
Context {S E : Type}.
Definition get_st : ST S E S := fun s => (Ok s, s).
Definition gets {A} (f : S → A) : ST S E A := fun s => (Ok (f s), s).
Definition put_st (s : S) : ST S E () := fun _ => (Ok (), s).
Definition modify_st (f : S → S) : ST S E () := fun s => (Ok (), f s).
Definition throw {A} (e : E) : ST S E A := fun s => (Err e, s).
Definition lift {A} (r : result E A) : ST S E A := fun s => (r, s).
Definition st_assert (b : bool) (e : E) : ST S E () := lift (eos_assert b e).
Definition run {A} (m : ST S E A) (s : S) : result E S :=
  match m s with (Ok _, s') => Ok s' | (Err e, _) => Err e end.

(** A range-for over a container with a body that may throw. *)
Fixpoint for_each {A} (f : A → ST S E ()) (l : list A) : ST S E () :=
  match l with
  | [] => mret ()
  | a :: l => f a ;; for_each f l
  end.
End ST.

(** A range-for that only folds a local, and may throw. *)
Fixpoint fold_result {E A B} (f : B → A → result E B) (b : B) (l : list A) : result E B :=
  match l with
  | [] => Ok b
  | a :: l => f b a ≫= fun b' => fold_result f b' l
  end.

(** *** Inverting monadic computations *)

Section Inversion.
Context {E A B : Type}.

Lemma bind_ok (m : result E A) (f : A → result E B) b :
  (m ≫= f) = Ok b ↔ ∃ a, m = Ok a ∧ f a = Ok b.
Proof. destruct m; split; naive_solver. Qed.

Lemma fold_result_each (f : A → result E ()) l : fold_result (fun _ a => f a) () l = Ok () → Forall (fun a => f a = Ok ()) l.
Proof.
  induction l as [|a l IH]; cbn; intros H; constructor; destruct (f a) as [[]|]; cbn in H; try done. by apply IH.
Qed.

Lemma assert_ok (b : bool) (e : E) u : eos_assert b e = Ok u ↔ b = true.
Proof. destruct b, u; split; naive_solver. Qed.

Lemma of_option_ok (o : option A) (e : E) a : of_option o e = Ok a ↔ o = Some a.
Proof. destruct o; split; naive_solver. Qed.

Context {S : Type}.

Lemma st_bind_ok (m : ST S E A) (f : A → ST S E B) s b s' :
  (m ≫= f) s = (Ok b, s') ↔ ∃ a s1, m s = (Ok a, s1) ∧ f a s1 = (Ok b, s').
Proof.
  unfold mbind, st_bind. destruct (m s) as [[a|e] s1]; split; naive_solver.
Qed.

Lemma st_bind_inv (m : ST S E A) (f : A → ST S E B) s r s' : (m ≫= f) s = (r, s') →
  (∃ a s1, m s = (Ok a, s1) ∧ f a s1 = (r, s')) ∨ (∃ e, m s = (Err e, s') ∧ r = Err e).
Proof. unfold mbind, st_bind. destruct (m s) as [[a|e] s1]; [eauto|]. intros [= <- <-]. eauto. Qed.

Lemma lift_ok (r : result E A) (s s' : S) a :
  lift r s = (Ok a, s') ↔ r = Ok a ∧ s = s'.
Proof. unfold lift. split; naive_solver. Qed.
End Inversion.

Lemma st_assert_ok {S E} (b : bool) (e : E) (s s' : S) u :
  st_assert b e s = (Ok u, s') ↔ b = true ∧ s = s'.
Proof. unfold st_assert. rewrite lift_ok, assert_ok. done. Qed.

Lemma for_each_app {S E A} (f : A → ST S E ()) l1 l2 s :
  for_each f (l1 ++ l2) s = (for_each f l1 ;; for_each f l2) s.
Proof.
  revert s. induction l1 as [|a l1 IH]; intros s; cbn; [done|].
  unfold mbind, st_bind in *. destruct (f a s) as [[]?]; [|done]. apply IH.
Qed.

(** A loop preserves what each turn of its body preserves, also when it throws. *)
Lemma for_each_inv {S E A} (P : S → Prop) (f : A → ST S E ()) l :
  (∀ a s, a ∈ l → P s → P (f a s).2) → ∀ s, P s → P (for_each f l s).2.
Proof.
  induction l as [|a l IH]; intros Hf s Hs; cbn; [done|].
  unfold mbind, st_bind.
  pose proof (Hf a s ltac:(left) Hs) as H1.
  destruct (f a s) as [[]s1]; cbn in *; [|done].
  apply IH; [|done]. intros; apply Hf; [by right|done].
Qed.

(** [keeps P m]: [m] keeps [P], whether it returns or throws. *)
Definition keeps {S E A} (P : S → Prop) (m : ST S E A) : Prop := ∀ s, P s → P (m s).2.

Section Keeps.
Context {S E : Type} (P : S → Prop).

Lemma keeps_ret {A} (a : A) : keeps P (mret a : ST S E A).
Proof. by intros s Hs. Qed.
Lemma keeps_throw {A} (e : E) : keeps P (throw e : ST S E A).
Proof. by intros s Hs. Qed.
Lemma keeps_lift {A} (r : result E A) : keeps P (lift r : ST S E A).
Proof. by intros s Hs. Qed.
Lemma keeps_assert b (e : E) : keeps P (st_assert b e : ST S E ()).
Proof. by intros s Hs. Qed.
Lemma keeps_gets {A} (f : S → A) : keeps P (gets f : ST S E A).
Proof. by intros s Hs. Qed.
Lemma keeps_modify f : (∀ s, P s → P (f s)) → keeps P (modify_st f : ST S E ()).
Proof. intros Hf s Hs. by apply Hf. Qed.
Lemma keeps_bind {A B} (m : ST S E A) (f : A → ST S E B) :
  keeps P m → (∀ a, keeps P (f a)) → keeps P (m ≫= f).
Proof.
  intros Hm Hf s Hs. unfold mbind, st_bind. specialize (Hm s Hs).
  destruct (m s) as [[a|e] s1]; cbn in *; [by apply Hf|done].
Qed.
Lemma keeps_bind_at {A B} (m : ST S E A) (f : A → ST S E B) s :
  P (m s).2 → (∀ a, keeps P (f a)) → P ((m ≫= f) s).2.
Proof.
  intros Hm Hf. unfold mbind, st_bind.
  destruct (m s) as [[a|e] s1]; cbn in *; [by apply Hf|done].
Qed.
(** After [get_st] the rest runs on the state read. *)
Lemma keeps_get {B} (f : S → ST S E B) : (∀ s, P s → P (f s s).2) → keeps P (get_st ≫= f).
Proof. done. Qed.
Lemma keeps_read {B} (f : S → ST S E B) : (∀ s, P s → keeps P (f s)) → keeps P (get_st ≫= f).
Proof. intros Hf s Hs. by apply (Hf s). Qed.
Lemma keeps_put s : P s → keeps P (put_st s : ST S E ()).
Proof. by intros Hs s' _. Qed.
Lemma keeps_for_each {A} (f : A → ST S E ()) l : (∀ a, keeps P (f a)) → keeps P (for_each f l).
Proof. intros Hf s. apply for_each_inv. intros a s' _. apply Hf. Qed.
End Keeps.

(** [simpl_ok] opens every successful monadic step in the context. *)
Ltac simpl_ok :=
  repeat match goal with
  | H : (_ ≫= _) = Ok _ |- _ => apply bind_ok in H as (? & ? & H)
  | H : (_ ≫= _) _ = (Ok _, _) |- _ => apply st_bind_ok in H as (? & ? & ? & H)
  | H : eos_assert _ _ = Ok _ |- _ => apply assert_ok in H
  | H : of_option _ _ = Ok _ |- _ => apply of_option_ok in H
  | H : st_assert _ _ _ = (Ok _, _) |- _ => apply st_assert_ok in H as [H <-]
  | H : lift _ _ = (Ok _, _) |- _ => apply lift_ok in H as [H <-]
  | H : mret _ _ = (Ok _, _) |- _ => first [injection H as <- <-|injection H as <-]
  | H : mret _ = Ok _ |- _ => injection H as <-
  | H : gets _ _ = (Ok _, _) |- _ => first [injection H as <- <-|injection H as <-]
  | H : get_st _ = (Ok _, _) |- _ => first [injection H as <- <-|injection H as <-]
  | H : put_st _ _ = (Ok _, _) |- _ => first [injection H as <- <-|injection H as <-]
  | H : modify_st _ _ = (Ok _, _) |- _ => first [injection H as <- <-|injection H as <-]
  | H : throw _ _ = (Ok _, _) |- _ => discriminate H
  | H : Err _ = Ok _ |- _ => discriminate H
  end.

(** [preserves P m]: [m] keeps [P] when it succeeds. *)

Definition preserves {S E A} (P : S → Prop) (m : ST S E A) : Prop := ∀ s a s', m s = (Ok a, s') → P s → P s'.

Section Preserves.
Context {S E : Type} (P : S → Prop).

Lemma pres_ret {A} (a : A) : preserves P (mret a : ST S E A).
Proof. intros s b s' [= <- <-]. done. Qed.
Lemma pres_throw {A} (x : E) : preserves P (throw x : ST S E A).
Proof. done. Qed.
Lemma pres_lift {A} (r : result E A) : preserves P (lift r : ST S E A).
Proof. intros s b s' [_ <-]%lift_ok. done. Qed.
Lemma pres_assert b (x : E) : preserves P (st_assert b x : ST S E ()).
Proof. apply pres_lift. Qed.
Lemma pres_gets {A} (f : S → A) : preserves P (gets f : ST S E A).
Proof. intros s b s' [= <- <-]. done. Qed.
Lemma pres_modify f : (∀ s, P s → P (f s)) → preserves P (modify_st f : ST S E ()).
Proof. intros Hf s b s' [= <- <-]. apply Hf. Qed.
Lemma pres_put s : P s → preserves P (put_st s : ST S E ()).
Proof. by intros Hs s0 b s' [= <- <-]. Qed.
Lemma pres_bind {A B} (m : ST S E A) (f : A → ST S E B) :
  preserves P m → (∀ a, preserves P (f a)) → preserves P (m ≫= f).
Proof. intros Hm Hf s b s' (a & s1 & H1 & H2)%st_bind_ok Hs. eapply Hf; [exact H2|]. by eapply Hm. Qed.
Lemma pres_read {B} (f : S → ST S E B) : (∀ s, P s → preserves P (f s)) → preserves P (get_st ≫= f).
Proof. intros Hf s b s' H Hs. apply st_bind_ok in H as (s0 & s1 & [= <- <-] & H). by eapply Hf. Qed.
Lemma pres_for_each {A} (f : A → ST S E ()) l : (∀ a, preserves P (f a)) → preserves P (for_each f l).
Proof.
  intros Hf. induction l as [|a l IH]; cbn [for_each]; [apply pres_ret|]. apply pres_bind; [apply Hf|done].
Qed.
End Preserves.

(** [pres tac] walks through a computation and leaves the writes to [tac]. *)
Ltac pres tac :=
  repeat lazymatch goal with
  | |- preserves _ (get_st ≫= _) => apply pres_read; intros ? ?
  | |- preserves _ (_ ≫= _) => apply pres_bind; [|intros ?]
  | |- preserves _ (mret _) => apply pres_ret
  | |- preserves _ (throw _) => apply pres_throw
  | |- preserves _ (lift _) => apply pres_lift
  | |- preserves _ (st_assert _ _) => apply pres_assert
  | |- preserves _ (gets _) => apply pres_gets
  | |- preserves _ (modify_st _) => apply pres_modify; intros ? ?; solve [tac]
  | |- preserves _ (put_st _) => apply pres_put; solve [tac]
  | |- preserves _ (for_each _ _) => apply pres_for_each; intros ?
  | |- preserves _ (match ?x with _ => _ end) => destruct x eqn:?
  end.

(** [keep tac] walks through a computation and leaves to [tac] that each write
    keeps the property. *)
Ltac keep tac :=
  repeat lazymatch goal with
  | |- keeps _ (get_st ≫= _) => apply keeps_read; intros ? ?
  | |- keeps _ (_ ≫= _) => apply keeps_bind; [|intros ?]
  | |- keeps _ (mret _) => apply keeps_ret
  | |- keeps _ (throw _) => apply keeps_throw
  | |- keeps _ (lift _) => apply keeps_lift
  | |- keeps _ (st_assert _ _) => apply keeps_assert
  | |- keeps _ (gets _) => apply keeps_gets
  | |- keeps _ (put_st _) => apply keeps_put; solve [tac]
  | |- keeps _ (modify_st _) => apply keeps_modify; intros ? ?; solve [tac]
  | |- keeps _ (for_each _ _) => apply keeps_for_each; intros ?
  | |- keeps _ (match ?x with _ => _ end) => destruct x
  end.

(** Boolean tests of the code as propositions. *)
Ltac to_prop :=
  repeat match goal with
  | H : (_ && _)%bool = true |- _ => apply andb_prop in H as [? H]
  | H : (_ || _)%bool = false |- _ => apply orb_false_elim in H as [? H]
  | H : negb _ = true |- _ => apply negb_true_iff in H
  | H : negb _ = false |- _ => apply negb_false_iff in H
  | H : (_ <=? _) = true |- _ => apply Z.leb_le in H
  | H : (_ <=? _) = false |- _ => apply Z.leb_gt in H
  | H : (_ <? _) = true |- _ => apply Z.ltb_lt in H
  | H : (_ <? _) = false |- _ => apply Z.ltb_ge in H
  | H : (_ =? _) = true |- _ => apply Z.eqb_eq in H
  | H : (_ =? _) = false |- _ => apply Z.eqb_neq in H
  | H : bool_decide _ = true |- _ => apply bool_decide_eq_true in H
  | H : bool_decide _ = false |- _ => apply bool_decide_eq_false in H
  end.

(** ** Machine integers *)

Section Words.
(** Unsigned arithmetic of width [w] wraps; signed values are read back in
    two's complement. *)
Definition wrapu (w z : Z) : Z := z mod 2 ^ w.
Definition wraps (w z : Z) : Z := (z + 2 ^ (w - 1)) mod 2 ^ w - 2 ^ (w - 1).

Definition in_u (w z : Z) : Prop := 0 ≤ z < 2 ^ w.
Definition in_s (w z : Z) : Prop := - 2 ^ (w - 1) ≤ z < 2 ^ (w - 1).

Lemma wrapu_range w z : 0 ≤ w → in_u w (wrapu w z).
Proof. intros. apply Z.mod_pos_bound. apply Z.pow_pos_nonneg; lia. Qed.

Lemma wrapu_small w z : in_u w z → wrapu w z = z.
Proof. apply Z.mod_small. Qed.

Lemma wraps_range w z : 0 < w → in_s w (wraps w z).
Proof.
  intros. unfold in_s, wraps.
  assert (2 ^ w = 2 * 2 ^ (w - 1)) as Hw.
  { rewrite <- Z.pow_succ_r by lia. f_equal; lia. }
  pose proof (Z.mod_pos_bound (z + 2 ^ (w - 1)) (2 ^ w)).
  pose proof (Z.pow_pos_nonneg 2 (w - 1)). lia.
Qed.

Lemma wraps_small w z : 0 < w → in_s w z → wraps w z = z.
Proof.
  unfold in_s, wraps. intros.
  assert (2 ^ w = 2 * 2 ^ (w - 1)) as Hw.
  { rewrite <- Z.pow_succ_r by lia. f_equal; lia. }
  rewrite Z.mod_small by lia. lia.
Qed.
End Words.

Definition u8 (z : Z) : Z := wrapu 8 z.
Definition u16 (z : Z) : Z := wrapu 16 z.
Definition u32 (z : Z) : Z := wrapu 32 z.
Definition u64 (z : Z) : Z := wrapu 64 z.
Definition u128 (z : Z) : Z := wrapu 128 z.
Definition i64 (z : Z) : Z := wraps 64 z.
Definition i128 (z : Z) : Z := wraps 128 z.

Definition u8_max : Z := 255.
Definition u16_max : Z := 65535.
Definition u32_max : Z := 4294967295.
Definition u64_max : Z := 18446744073709551615.
Definition i64_max : Z := 9223372036854775807.
Definition i64_min : Z := -9223372036854775808.

Lemma u32_small z : 0 ≤ z ≤ u32_max → u32 z = z.
Proof. intros. apply wrapu_small. unfold in_u, u32_max in *. lia. Qed.
Lemma u64_small z : 0 ≤ z ≤ u64_max → u64 z = z.
Proof. intros. apply wrapu_small. unfold in_u, u64_max in *. lia. Qed.
Lemma u128_small z : 0 ≤ z < 2 ^ 128 → u128 z = z.
Proof. intros. apply wrapu_small. done. Qed.
Lemma i64_small z : i64_min ≤ z ≤ i64_max → i64 z = z.
Proof. intros. apply wraps_small; [lia|]. unfold in_s, i64_min, i64_max in *. lia. Qed.
Lemma u32_range z : 0 ≤ u32 z ≤ u32_max.
Proof. pose proof (wrapu_range 32 z). unfold in_u, u32, u32_max in *. lia. Qed.
Lemma u64_range z : 0 ≤ u64 z ≤ u64_max.
Proof. pose proof (wrapu_range 64 z). unfold in_u, u64, u64_max in *. lia. Qed.
Lemma i64_range z : i64_min ≤ i64 z ≤ i64_max.
Proof. pose proof (wraps_range 64 z). unfold in_s, i64, i64_min, i64_max in *. lia. Qed.

Create HintDb chain.
Create Rewrite HintDb chain.
#[export] Hint Resolve u32_range u64_range i64_range : chain.
#[export] Hint Rewrite @for_each_app : chain.
#[export] Hint Resolve keeps_ret keeps_throw keeps_lift keeps_assert keeps_gets : chain.

(** ** Ordered containers

    A [std::map], [flat_map] or ordered index is a [gmap]; where the code walks
    it, the walk is in ascending key order. *)

Section Ordered.
Context {A : Type}.
Definition key_le (x y : Z * A) : Prop := x.1 ≤ y.1.
#[export] Instance key_le_dec x y : Decision (key_le x y).
Proof. unfold key_le. apply _. Defined.
#[export] Instance key_le_total : Total key_le.
Proof. intros x y. unfold key_le. lia. Qed.
#[export] Instance key_le_trans : Transitive key_le.
Proof. intros x y z. unfold key_le. lia. Qed.

Definition ascending (m : gmap Z A) : list (Z * A) :=
  merge_sort key_le (map_to_list m).

Lemma ascending_perm m : ascending m ≡ₚ map_to_list m.
Proof. apply merge_sort_Permutation. Qed.

Lemma elem_of_ascending m k a : (k, a) ∈ ascending m ↔ m !! k = Some a.
Proof. rewrite ascending_perm. apply elem_of_map_to_list. Qed.

Lemma ascending_sorted m : StronglySorted key_le (ascending m).
Proof. apply StronglySorted_merge_sort; apply _. Qed.
End Ordered.

(** ** Sums over maps *)

Definition map_sum {K A} `{Countable K} (f : A → Z) (m : gmap K A) : Z :=
  map_fold (fun _ a z => f a + z) 0 m.

Section MapSum.
Context {K A : Type} `{Countable K} (f : A → Z).
Implicit Types m : gmap K A.

Lemma map_sum_empty : map_sum f (∅ : gmap K A) = 0.
Proof. apply map_fold_empty. Qed.

Lemma map_sum_insert m k a :
  m !! k = None → map_sum f (<[k := a]> m) = f a + map_sum f m.
Proof. intros. unfold map_sum. rewrite map_fold_insert_L; [done| |done]. intros; lia. Qed.

Lemma map_sum_delete m k a :
  m !! k = Some a → map_sum f m = f a + map_sum f (delete k m).
Proof.
  intros Hk. rewrite <- (map_sum_insert (delete k m) k a) by apply lookup_delete_eq.
  by rewrite insert_delete_id.
Qed.

Lemma map_sum_update m k a a' :
  m !! k = Some a → map_sum f (<[k := a']> m) = map_sum f m - f a + f a'.
Proof.
  intros Hk. rewrite (map_sum_delete m k a Hk), <- insert_delete_eq.
  rewrite map_sum_insert by apply lookup_delete_eq. lia.
Qed.

Lemma map_sum_nonneg m : (∀ k a, m !! k = Some a → 0 ≤ f a) → 0 ≤ map_sum f m.
Proof.
  induction m as [|k a m Hk IH] using map_ind; intros Hp.
  - by rewrite map_sum_empty.
  - rewrite map_sum_insert by done.
    pose proof (Hp k a (lookup_insert_eq _ _ _)).
    assert (0 ≤ map_sum f m); [|lia].
    apply IH. intros k' a' Hk'. apply (Hp k' a'). rewrite lookup_insert_ne; [done|].
    intros ->. congruence.
Qed.

Lemma map_sum_ge_elem m k a :
  (∀ k a, m !! k = Some a → 0 ≤ f a) → m !! k = Some a → f a ≤ map_sum f m.
Proof.
  intros Hp Hk. rewrite (map_sum_delete m k a Hk).
  enough (0 ≤ map_sum f (delete k m)) by lia.
  apply map_sum_nonneg. intros k' a' [_ ?]%lookup_delete_Some. by eapply Hp.
Qed.
End MapSum.

(** Writing a row, or deleting it when it is zero. *)
Definition put_row {K A} `{Countable K} (zero : bool) (k : K) (a : A) (m : gmap K A) : gmap K A :=
  if zero then delete k m else <[k := a]> m.

Definition at_row {K A} `{Countable K} (f : A → Z) (m : gmap K A) (k : K) : Z :=
  match m !! k with Some a => f a | None => 0 end.

Section PutRow.
Context {K A : Type} `{Countable K} (f : A → Z).
Implicit Types m : gmap K A.

Lemma map_sum_put zero m k a : (zero = true → f a = 0) →
  map_sum f (put_row zero k a m) = map_sum f m + f a - at_row f m k.
Proof.
  intros Hz. unfold put_row, at_row. destruct zero, (m !! k) as [o|] eqn:E.
  - rewrite (map_sum_delete f m k o E), Hz by done. lia.
  - rewrite delete_id, Hz by done. lia.
  - rewrite (map_sum_update f m k o) by done. lia.
  - rewrite map_sum_insert by done. lia.
Qed.

Lemma filter_put (P : K → Prop) `{∀ k, Decision (P k)} zero m k a :
  filter (fun kv => P kv.1) (put_row zero k a m) =
  if decide (P k) then put_row zero k a (filter (fun kv => P kv.1) m) else filter (fun kv => P kv.1) m.
Proof.
  assert (¬ P k → delete k (filter (fun kv => P kv.1) m) = filter (fun kv => P kv.1) m) as Hd.
  { intros Hn. apply delete_id, map_lookup_filter_None. by right. }
  unfold put_row. destruct zero; [rewrite map_filter_delete; case_decide; auto|].
  case_decide; [by rewrite map_filter_insert_True|]. rewrite map_filter_insert_False, map_filter_delete by done. auto.
Qed.

Lemma at_row_filter (P : K → Prop) `{∀ k, Decision (P k)} m k :
  P k → at_row f (filter (fun kv => P kv.1) m) k = at_row f m k.
Proof.
  intros Hk. unfold at_row. rewrite map_lookup_filter. destruct (m !! k); cbn; [|done].
  by rewrite option_guard_True.
Qed.

Lemma at_row_put zero m k a j : (zero = true → f a = 0) →
  at_row f (put_row zero k a m) j = if decide (j = k) then f a else at_row f m j.
Proof.
  intros Hz. unfold at_row, put_row. case_decide as Hj.
  - subst j. destruct zero; [by rewrite lookup_delete_eq, Hz|by rewrite lookup_insert_eq].
  - destruct zero; [by rewrite lookup_delete_ne|by rewrite lookup_insert_ne].
Qed.

Lemma put_row_forall (Q : A → Prop) zero m k a :
  (∀ j b, m !! j = Some b → Q b) → Q a → ∀ j b, put_row zero k a m !! j = Some b → Q b.
Proof.
  intros Hm Ha j b. unfold put_row. destruct zero.
  - intros [_ ?]%lookup_delete_Some. eauto.
  - intros [[_ <-]|[_ ?]]%lookup_insert_Some; eauto.
Qed.
End PutRow.

(** ** Lists *)

(** Induction two elements at a time. *)
Lemma list_ind2 {A} (P : list A → Prop) :
  P [] → (∀ a, P [a]) → (∀ a b l, P l → P (a :: b :: l)) → ∀ l, P l.
Proof.
  intros H0 H1 H2 l. enough (P l ∧ ∀ a, P (a :: l)) by tauto.
  induction l as [|a l [IH1 IH2]]; split; auto.
Qed.

Lemma sorted_impl {A} (R R' : relation A) l :
  (∀ a b, R a b → R' a b) → StronglySorted R l → StronglySorted R' l.
Proof. intros HR. induction 1; constructor; [done|]. eapply Forall_impl; eauto. Qed.

(** A fold whose step for the key [k] reads and writes only the view at [k]. *)
Lemma foldl_pointwise {S A X} (f : S → Z * A → S) (view : S → Z → X) (g : X → A → X) (l : list (Z * A)) :
  (∀ s k a, view (f s (k, a)) k = g (view s k) a) →
  (∀ s k a j, j ≠ k → view (f s (k, a)) j = view s j) →
  NoDup l.*1 → ∀ s j, view (foldl f s l) j =
    match (list_to_map l : gmap Z A) !! j with Some a => g (view s j) a | None => view s j end.
Proof.
  intros Heq Hne. induction l as [|[k a] l IH]; intros Hnd s j; cbn; [by rewrite lookup_empty|].
  apply NoDup_cons in Hnd as [Hk Hnd]. rewrite IH by done.
  destruct (decide (j = k)) as [->|Hj].
  - rewrite lookup_insert_eq. by rewrite not_elem_of_list_to_map_1, Heq.
  - rewrite lookup_insert_ne, Hne by done. done.
Qed.

Lemma ascending_to_map {A} (m : gmap Z A) : (list_to_map (ascending m) : gmap Z A) = m.
Proof.
  transitivity (list_to_map (map_to_list m) : gmap Z A); [|apply list_to_map_to_list].
  apply list_to_map_proper; [|apply ascending_perm].
  rewrite ascending_perm. apply NoDup_fst_map_to_list.
Qed.

Lemma ascending_nodup {A} (m : gmap Z A) : NoDup (ascending m).*1.
Proof. rewrite ascending_perm. apply NoDup_fst_map_to_list. Qed.

Lemma foldl_ascending {S A X} (f : S → Z * A → S) (view : S → Z → X) (g : X → A → X) (m : gmap Z A) :
  (∀ s k a, view (f s (k, a)) k = g (view s k) a) →
  (∀ s k a j, j ≠ k → view (f s (k, a)) j = view s j) →
  ∀ s j, view (foldl f s (ascending m)) j =
    match m !! j with Some a => g (view s j) a | None => view s j end.
Proof.
  intros Heq Hne s j. rewrite (foldl_pointwise f view g _ Heq Hne (ascending_nodup m)).
  by rewrite ascending_to_map.
Qed.
