(* ===== verification/Exceptions.v ===== *)
(** * Exceptions

    The exception classes of [libraries/chain/include/eosio/chain/exceptions.hpp]
    with their numeric codes and their place in the class hierarchy, and the
    rethrow macro the managers wrap their queries in.  The exceptions of the C++
    library and of [fc] that the modelled code can meet are the last
    constructors; [undefined_behavior] is not an exception of the program but
    the outcome of an access the language gives no meaning to (a null pointer,
    an index past the end of a vector): nothing catches it.  [loop_bound] is not
    an outcome of the program either: a loop of the model that has no structural
    measure takes a bound on its turns and reports this when the bound is spent;
    the theorems on such loops show that the bounds used are enough. *)

From S2P Require Import Prelude.

Inductive exn : Type :=
| chain_exception
| chain_type_exception
| name_type_exception
| public_key_type_exception
| private_key_type_exception
| authority_type_exception
| action_type_exception
| transaction_type_exception
| abi_type_exception
| block_id_type_exception
| transaction_id_type_exception
| packed_transaction_type_exception
| asset_type_exception
| chain_id_type_exception
| fixed_key_type_exception
| symbol_type_exception
| fork_database_exception
| fork_db_block_not_found
| block_validate_exception
| unlinkable_block_exception
| block_tx_output_exception
| block_concurrency_exception
| block_lock_exception
| block_resource_exhausted
| block_too_old_exception
| block_from_the_future
| wrong_signing_key
| wrong_producer
| transaction_exception
| tx_decompression_error
| tx_no_action
| tx_no_auths
| cfa_irrelevant_auth
| expired_tx_exception
| tx_exp_too_far_exception
| invalid_ref_block_exception
| tx_duplicate
| deferred_tx_duplicate
| cfa_inside_generated_tx
| tx_not_found
| too_many_tx_at_once
| tx_too_big
| unknown_transaction_compression
| action_validate_exception
| account_name_exists_exception
| invalid_action_args_exception
| eosio_assert_message_exception
| eosio_assert_code_exception
| action_not_found_exception
| action_data_and_struct_mismatch
| unaccessible_api
| abort_called
| inline_action_too_big
| database_exception
| permission_query_exception
| account_query_exception
| contract_table_query_exception
| contract_query_exception
| guard_exception
| database_guard_exception
| reversible_guard_exception
| wasm_exception
| page_memory_error
| wasm_execution_error
| wasm_serialization_error
| overlapping_memory_error
| binaryen_exception
| resource_exhausted_exception
| ram_usage_exceeded
| tx_net_usage_exceeded
| block_net_usage_exceeded
| tx_cpu_usage_exceeded
| block_cpu_usage_exceeded
| deadline_exception
| greylist_net_usage_exceeded
| greylist_cpu_usage_exceeded
| leeway_deadline_exception
| authorization_exception
| tx_duplicate_sig
| tx_irrelevant_sig
| unsatisfied_authorization
| missing_auth_exception
| irrelevant_auth_exception
| insufficient_delay_exception
| invalid_permission
| unlinkable_min_permission_action
| invalid_parent_permission
| misc_exception
| rate_limiting_state_inconsistent
| unknown_block_exception
| unknown_transaction_exception
| fixed_reversible_db_exception
| extract_genesis_state_exception
| subjective_block_production_exception
| multiple_voter_info
| unsupported_feature
| node_management_success
| plugin_exception
| missing_chain_api_plugin_exception
| missing_wallet_api_plugin_exception
| missing_history_api_plugin_exception
| missing_net_api_plugin_exception
| missing_chain_plugin_exception
| plugin_config_exception
| wallet_exception
| wallet_exist_exception
| wallet_nonexistent_exception
| wallet_locked_exception
| wallet_missing_pub_key_exception
| wallet_invalid_password_exception
| wallet_not_available_exception
| wallet_unlocked_exception
| key_exist_exception
| key_nonexistent_exception
| unsupported_key_type_exception
| invalid_lock_timeout_exception
| secure_enclave_exception
| whitelist_blacklist_exception
| actor_whitelist_exception
| actor_blacklist_exception
| contract_whitelist_exception
| contract_blacklist_exception
| action_blacklist_exception
| key_blacklist_exception
| controller_emit_signal_exception
| checkpoint_exception
| abi_exception
| abi_not_found_exception
| invalid_ricardian_clause_exception
| invalid_ricardian_action_exception
| invalid_type_inside_abi
| duplicate_abi_type_def_exception
| duplicate_abi_struct_def_exception
| duplicate_abi_action_def_exception
| duplicate_abi_table_def_exception
| duplicate_abi_err_msg_def_exception
| abi_serialization_deadline_exception
| abi_recursion_depth_exception
| abi_circular_def_exception
| unpack_exception
| pack_exception
| duplicate_abi_variant_def_exception
| unsupported_abi_version_exception
| contract_exception
| invalid_table_payer
| table_access_violation
| invalid_table_iterator
| table_not_in_cache
| table_operation_not_permitted
| invalid_contract_vm_type
| invalid_contract_vm_version
| set_exact_code
| wasm_file_not_found
| abi_file_not_found
| producer_exception
| producer_priv_key_not_found
| missing_pending_block_state
| producer_double_confirm
| producer_schedule_exception
| producer_not_in_schedule
| snapshot_directory_not_found_exception
| snapshot_exists_exception
| reversible_blocks_exception
| invalid_reversible_blocks_dir
| reversible_blocks_backup_dir_exist
| gap_in_reversible_blocks_db
| block_log_exception
| block_log_unsupported_version
| block_log_append_fail
| block_log_not_found
| block_log_backup_dir_exist
| http_exception
| invalid_http_client_root_cert
| invalid_http_response
| resolved_to_multiple_ports
| fail_to_resolve_host
| http_request_fail
| invalid_http_request
| resource_limit_exception
| mongo_db_exception
| mongo_db_insert_fail
| mongo_db_update_fail
| contract_api_exception
| crypto_api_exception
| db_api_exception
| arithmetic_exception
| snapshot_exception
| snapshot_validation_exception
| std_out_of_range
| std_logic_error
| fc_overflow_exception
| fc_underflow_exception
| fc_parse_error_exception
| fc_assert_exception
| fc_std_exception
| undefined_behavior
| loop_bound.

(** The numeric code of each class: the [CODE] argument of its declaration. *)
Definition exn_code (e : exn) : option Z :=
  match e with
  | chain_exception => Some 3000000
  | chain_type_exception => Some 3010000
  | name_type_exception => Some 3010001
  | public_key_type_exception => Some 3010002
  | private_key_type_exception => Some 3010003
  | authority_type_exception => Some 3010004
  | action_type_exception => Some 3010005
  | transaction_type_exception => Some 3010006
  | abi_type_exception => Some 3010007
  | block_id_type_exception => Some 3010008
  | transaction_id_type_exception => Some 3010009
  | packed_transaction_type_exception => Some 3010010
  | asset_type_exception => Some 3010011
  | chain_id_type_exception => Some 3010012
  | fixed_key_type_exception => Some 3010013
  | symbol_type_exception => Some 3010014
  | fork_database_exception => Some 3020000
  | fork_db_block_not_found => Some 3020001
  | block_validate_exception => Some 3030000
  | unlinkable_block_exception => Some 3030001
  | block_tx_output_exception => Some 3030002
  | block_concurrency_exception => Some 3030003
  | block_lock_exception => Some 3030004
  | block_resource_exhausted => Some 3030005
  | block_too_old_exception => Some 3030006
  | block_from_the_future => Some 3030007
  | wrong_signing_key => Some 3030008
  | wrong_producer => Some 3030009
  | transaction_exception => Some 3040000
  | tx_decompression_error => Some 3040001
  | tx_no_action => Some 3040002
  | tx_no_auths => Some 3040003
  | cfa_irrelevant_auth => Some 3040004
  | expired_tx_exception => Some 3040005
  | tx_exp_too_far_exception => Some 3040006
  | invalid_ref_block_exception => Some 3040007
  | tx_duplicate => Some 3040008
  | deferred_tx_duplicate => Some 3040009
  | cfa_inside_generated_tx => Some 3040010
  | tx_not_found => Some 3040011
  | too_many_tx_at_once => Some 3040012
  | tx_too_big => Some 3040013
  | unknown_transaction_compression => Some 3040014
  | action_validate_exception => Some 3050000
  | account_name_exists_exception => Some 3050001
  | invalid_action_args_exception => Some 3050002
  | eosio_assert_message_exception => Some 3050003
  | eosio_assert_code_exception => Some 3050004
  | action_not_found_exception => Some 3050005
  | action_data_and_struct_mismatch => Some 3050006
  | unaccessible_api => Some 3050007
  | abort_called => Some 3050008
  | inline_action_too_big => Some 3050009
  | database_exception => Some 3060000
  | permission_query_exception => Some 3060001
  | account_query_exception => Some 3060002
  | contract_table_query_exception => Some 3060003
  | contract_query_exception => Some 3060004
  | guard_exception => Some 3060100
  | database_guard_exception => Some 3060101
  | reversible_guard_exception => Some 3060102
  | wasm_exception => Some 3070000
  | page_memory_error => Some 3070001
  | wasm_execution_error => Some 3070002
  | wasm_serialization_error => Some 3070003
  | overlapping_memory_error => Some 3070004
  | binaryen_exception => Some 3070005
  | resource_exhausted_exception => Some 3080000
  | ram_usage_exceeded => Some 3080001
  | tx_net_usage_exceeded => Some 3080002
  | block_net_usage_exceeded => Some 3080003
  | tx_cpu_usage_exceeded => Some 3080004
  | block_cpu_usage_exceeded => Some 3080005
  | deadline_exception => Some 3080006
  | greylist_net_usage_exceeded => Some 3080007
  | greylist_cpu_usage_exceeded => Some 3080008
  | leeway_deadline_exception => Some 3081001
  | authorization_exception => Some 3090000
  | tx_duplicate_sig => Some 3090001
  | tx_irrelevant_sig => Some 3090002
  | unsatisfied_authorization => Some 3090003
  | missing_auth_exception => Some 3090004
  | irrelevant_auth_exception => Some 3090005
  | insufficient_delay_exception => Some 3090006
  | invalid_permission => Some 3090007
  | unlinkable_min_permission_action => Some 3090008
  | invalid_parent_permission => Some 3090009
  | misc_exception => Some 3100000
  | rate_limiting_state_inconsistent => Some 3100001
  | unknown_block_exception => Some 3100002
  | unknown_transaction_exception => Some 3100003
  | fixed_reversible_db_exception => Some 3100004
  | extract_genesis_state_exception => Some 3100005
  | subjective_block_production_exception => Some 3100006
  | multiple_voter_info => Some 3100007
  | unsupported_feature => Some 3100008
  | node_management_success => Some 3100009
  | plugin_exception => Some 3110000
  | missing_chain_api_plugin_exception => Some 3110001
  | missing_wallet_api_plugin_exception => Some 3110002
  | missing_history_api_plugin_exception => Some 3110003
  | missing_net_api_plugin_exception => Some 3110004
  | missing_chain_plugin_exception => Some 3110005
  | plugin_config_exception => Some 3110006
  | wallet_exception => Some 3120000
  | wallet_exist_exception => Some 3120001
  | wallet_nonexistent_exception => Some 3120002
  | wallet_locked_exception => Some 3120003
  | wallet_missing_pub_key_exception => Some 3120004
  | wallet_invalid_password_exception => Some 3120005
  | wallet_not_available_exception => Some 3120006
  | wallet_unlocked_exception => Some 3120007
  | key_exist_exception => Some 3120008
  | key_nonexistent_exception => Some 3120009
  | unsupported_key_type_exception => Some 3120010
  | invalid_lock_timeout_exception => Some 3120011
  | secure_enclave_exception => Some 3120012
  | whitelist_blacklist_exception => Some 3130000
  | actor_whitelist_exception => Some 3130001
  | actor_blacklist_exception => Some 3130002
  | contract_whitelist_exception => Some 3130003
  | contract_blacklist_exception => Some 3130004
  | action_blacklist_exception => Some 3130005
  | key_blacklist_exception => Some 3130006
  | controller_emit_signal_exception => Some 3140000
  | checkpoint_exception => Some 3140001
  | abi_exception => Some 3015000
  | abi_not_found_exception => Some 3015001
  | invalid_ricardian_clause_exception => Some 3015002
  | invalid_ricardian_action_exception => Some 3015003
  | invalid_type_inside_abi => Some 3015004
  | duplicate_abi_type_def_exception => Some 3015005
  | duplicate_abi_struct_def_exception => Some 3015006
  | duplicate_abi_action_def_exception => Some 3015007
  | duplicate_abi_table_def_exception => Some 3015008
  | duplicate_abi_err_msg_def_exception => Some 3015009
  | abi_serialization_deadline_exception => Some 3015010
  | abi_recursion_depth_exception => Some 3015011
  | abi_circular_def_exception => Some 3015012
  | unpack_exception => Some 3015013
  | pack_exception => Some 3015014
  | duplicate_abi_variant_def_exception => Some 3015015
  | unsupported_abi_version_exception => Some 3015016
  | contract_exception => Some 3160000
  | invalid_table_payer => Some 3160001
  | table_access_violation => Some 3160002
  | invalid_table_iterator => Some 3160003
  | table_not_in_cache => Some 3160004
  | table_operation_not_permitted => Some 3160005
  | invalid_contract_vm_type => Some 3160006
  | invalid_contract_vm_version => Some 3160007
  | set_exact_code => Some 3160008
  | wasm_file_not_found => Some 3160009
  | abi_file_not_found => Some 3160010
  | producer_exception => Some 3170000
  | producer_priv_key_not_found => Some 3170001
  | missing_pending_block_state => Some 3170002
  | producer_double_confirm => Some 3170003
  | producer_schedule_exception => Some 3170004
  | producer_not_in_schedule => Some 3170006
  | snapshot_directory_not_found_exception => Some 3170007
  | snapshot_exists_exception => Some 3170008
  | reversible_blocks_exception => Some 3180000
  | invalid_reversible_blocks_dir => Some 3180001
  | reversible_blocks_backup_dir_exist => Some 3180002
  | gap_in_reversible_blocks_db => Some 3180003
  | block_log_exception => Some 3190000
  | block_log_unsupported_version => Some 3190001
  | block_log_append_fail => Some 3190002
  | block_log_not_found => Some 3190003
  | block_log_backup_dir_exist => Some 3190004
  | http_exception => Some 3200000
  | invalid_http_client_root_cert => Some 3200001
  | invalid_http_response => Some 3200002
  | resolved_to_multiple_ports => Some 3200003
  | fail_to_resolve_host => Some 3200004
  | http_request_fail => Some 3200005
  | invalid_http_request => Some 3200006
  | resource_limit_exception => Some 3210000
  | mongo_db_exception => Some 3220000
  | mongo_db_insert_fail => Some 3220001
  | mongo_db_update_fail => Some 3220002
  | contract_api_exception => Some 3230000
  | crypto_api_exception => Some 3230001
  | db_api_exception => Some 3230002
  | arithmetic_exception => Some 3230003
  | snapshot_exception => Some 3240000
  | snapshot_validation_exception => Some 3240001
  | std_out_of_range | std_logic_error | fc_overflow_exception | fc_underflow_exception
  | fc_parse_error_exception | fc_assert_exception | fc_std_exception | undefined_behavior
  | loop_bound => None
  end.

(** The declared classes, in file order. *)
Definition all_exns : list exn :=
  [chain_exception; chain_type_exception; name_type_exception; public_key_type_exception;
   private_key_type_exception; authority_type_exception; action_type_exception;
   transaction_type_exception; abi_type_exception; block_id_type_exception;
   transaction_id_type_exception; packed_transaction_type_exception; asset_type_exception;
   chain_id_type_exception; fixed_key_type_exception; symbol_type_exception;
   fork_database_exception; fork_db_block_not_found; block_validate_exception;
   unlinkable_block_exception; block_tx_output_exception; block_concurrency_exception;
   block_lock_exception; block_resource_exhausted; block_too_old_exception;
   block_from_the_future; wrong_signing_key; wrong_producer; transaction_exception;
   tx_decompression_error; tx_no_action; tx_no_auths; cfa_irrelevant_auth;
   expired_tx_exception; tx_exp_too_far_exception; invalid_ref_block_exception; tx_duplicate;
   deferred_tx_duplicate; cfa_inside_generated_tx; tx_not_found; too_many_tx_at_once;
   tx_too_big; unknown_transaction_compression; action_validate_exception;
   account_name_exists_exception; invalid_action_args_exception;
   eosio_assert_message_exception; eosio_assert_code_exception; action_not_found_exception;
   action_data_and_struct_mismatch; unaccessible_api; abort_called; inline_action_too_big;
   database_exception; permission_query_exception; account_query_exception;
   contract_table_query_exception; contract_query_exception; guard_exception;
   database_guard_exception; reversible_guard_exception; wasm_exception; page_memory_error;
   wasm_execution_error; wasm_serialization_error; overlapping_memory_error;
   binaryen_exception; resource_exhausted_exception; ram_usage_exceeded; tx_net_usage_exceeded;
   block_net_usage_exceeded; tx_cpu_usage_exceeded; block_cpu_usage_exceeded;
   deadline_exception; greylist_net_usage_exceeded; greylist_cpu_usage_exceeded;
   leeway_deadline_exception; authorization_exception; tx_duplicate_sig; tx_irrelevant_sig;
   unsatisfied_authorization; missing_auth_exception; irrelevant_auth_exception;
   insufficient_delay_exception; invalid_permission; unlinkable_min_permission_action;
   invalid_parent_permission; misc_exception; rate_limiting_state_inconsistent;
   unknown_block_exception; unknown_transaction_exception; fixed_reversible_db_exception;
   extract_genesis_state_exception; subjective_block_production_exception; multiple_voter_info;
   unsupported_feature; node_management_success; plugin_exception;
   missing_chain_api_plugin_exception; missing_wallet_api_plugin_exception;
   missing_history_api_plugin_exception; missing_net_api_plugin_exception;
   missing_chain_plugin_exception; plugin_config_exception; wallet_exception;
   wallet_exist_exception; wallet_nonexistent_exception; wallet_locked_exception;
   wallet_missing_pub_key_exception; wallet_invalid_password_exception;
   wallet_not_available_exception; wallet_unlocked_exception; key_exist_exception;
   key_nonexistent_exception; unsupported_key_type_exception; invalid_lock_timeout_exception;
   secure_enclave_exception; whitelist_blacklist_exception; actor_whitelist_exception;
   actor_blacklist_exception; contract_whitelist_exception; contract_blacklist_exception;
   action_blacklist_exception; key_blacklist_exception; controller_emit_signal_exception;
   checkpoint_exception; abi_exception; abi_not_found_exception;
   invalid_ricardian_clause_exception; invalid_ricardian_action_exception;
   invalid_type_inside_abi; duplicate_abi_type_def_exception;
   duplicate_abi_struct_def_exception; duplicate_abi_action_def_exception;
   duplicate_abi_table_def_exception; duplicate_abi_err_msg_def_exception;
   abi_serialization_deadline_exception; abi_recursion_depth_exception;
   abi_circular_def_exception; unpack_exception; pack_exception;
   duplicate_abi_variant_def_exception; unsupported_abi_version_exception; contract_exception;
   invalid_table_payer; table_access_violation; invalid_table_iterator; table_not_in_cache;
   table_operation_not_permitted; invalid_contract_vm_type; invalid_contract_vm_version;
   set_exact_code; wasm_file_not_found; abi_file_not_found; producer_exception;
   producer_priv_key_not_found; missing_pending_block_state; producer_double_confirm;
   producer_schedule_exception; producer_not_in_schedule;
   snapshot_directory_not_found_exception; snapshot_exists_exception;
   reversible_blocks_exception; invalid_reversible_blocks_dir;
   reversible_blocks_backup_dir_exist; gap_in_reversible_blocks_db; block_log_exception;
   block_log_unsupported_version; block_log_append_fail; block_log_not_found;
   block_log_backup_dir_exist; http_exception; invalid_http_client_root_cert;
   invalid_http_response; resolved_to_multiple_ports; fail_to_resolve_host; http_request_fail;
   invalid_http_request; resource_limit_exception; mongo_db_exception; mongo_db_insert_fail;
   mongo_db_update_fail; contract_api_exception; crypto_api_exception; db_api_exception;
   arithmetic_exception; snapshot_exception; snapshot_validation_exception].

(** Classes are told apart by their code; the classes of other libraries get
    negative tags. *)
Definition exn_tag (e : exn) : Z :=
  match exn_code e with
  | Some c => c
  | None =>
      match e with
      | std_out_of_range => -1 | std_logic_error => -2 | fc_overflow_exception => -3
      | fc_underflow_exception => -4 | fc_parse_error_exception => -5
      | fc_assert_exception => -6 | loop_bound => -8 | fc_std_exception => -9 | _ => -7
      end
  end.

Definition exn_of_tag (z : Z) : option exn :=
  find (fun e => exn_tag e =? z)
    (all_exns ++ [std_out_of_range; std_logic_error; fc_overflow_exception;
                  fc_underflow_exception; fc_parse_error_exception; fc_assert_exception;
                  fc_std_exception; undefined_behavior; loop_bound]).

Lemma exn_of_tag_tag e : exn_of_tag (exn_tag e) = Some e.
Proof. destruct e; vm_compute; reflexivity. Qed.

#[export] Instance exn_tag_inj : Inj (=) (=) exn_tag.
Proof. intros e1 e2 H. apply (inj Some). rewrite <- !exn_of_tag_tag. by rewrite H. Qed.

#[export] Instance exn_eq_dec : EqDecision exn.
Proof.
  refine (fun e1 e2 => match decide (exn_tag e1 = exn_tag e2) with
                       | left H => left (inj exn_tag e1 e2 H)
                       | right H => right _
                       end).
  intros ->. by apply H.
Defined.

(** The base class of each exception; [chain_exception] derives from
    [fc::exception], which has no code in this file. *)
Definition exn_base (e : exn) : option exn :=
  match e with
  | chain_type_exception | fork_database_exception | block_validate_exception
  | transaction_exception | action_validate_exception | database_exception | wasm_exception
  | resource_exhausted_exception | authorization_exception | misc_exception | plugin_exception
  | wallet_exception | whitelist_blacklist_exception | controller_emit_signal_exception
  | abi_exception | contract_exception | producer_exception | reversible_blocks_exception
  | block_log_exception | http_exception | resource_limit_exception | mongo_db_exception
  | contract_api_exception | snapshot_exception => Some chain_exception
  | name_type_exception | public_key_type_exception | private_key_type_exception
  | authority_type_exception | action_type_exception | transaction_type_exception
  | abi_type_exception | block_id_type_exception | transaction_id_type_exception
  | packed_transaction_type_exception | asset_type_exception | chain_id_type_exception
  | fixed_key_type_exception | symbol_type_exception => Some chain_type_exception
  | fork_db_block_not_found => Some fork_database_exception
  | unlinkable_block_exception | block_tx_output_exception | block_concurrency_exception
  | block_lock_exception | block_resource_exhausted | block_too_old_exception
  | block_from_the_future | wrong_signing_key | wrong_producer => Some block_validate_exception
  | tx_decompression_error | tx_no_action | tx_no_auths | cfa_irrelevant_auth
  | expired_tx_exception | tx_exp_too_far_exception | invalid_ref_block_exception
  | tx_duplicate | deferred_tx_duplicate | cfa_inside_generated_tx | tx_not_found
  | too_many_tx_at_once | tx_too_big | unknown_transaction_compression => Some transaction_exception
  | account_name_exists_exception | invalid_action_args_exception
  | eosio_assert_message_exception | eosio_assert_code_exception | action_not_found_exception
  | action_data_and_struct_mismatch | unaccessible_api | abort_called | inline_action_too_big => Some action_validate_exception
  | permission_query_exception | account_query_exception | contract_table_query_exception
  | contract_query_exception | guard_exception => Some database_exception
  | database_guard_exception | reversible_guard_exception => Some guard_exception
  | page_memory_error | wasm_execution_error | wasm_serialization_error
  | overlapping_memory_error | binaryen_exception => Some wasm_exception
  | ram_usage_exceeded | tx_net_usage_exceeded | block_net_usage_exceeded
  | tx_cpu_usage_exceeded | block_cpu_usage_exceeded | deadline_exception
  | greylist_net_usage_exceeded | greylist_cpu_usage_exceeded => Some resource_exhausted_exception
  | leeway_deadline_exception => Some deadline_exception
  | tx_duplicate_sig | tx_irrelevant_sig | unsatisfied_authorization | missing_auth_exception
  | irrelevant_auth_exception | insufficient_delay_exception | invalid_permission
  | unlinkable_min_permission_action | invalid_parent_permission => Some authorization_exception
  | rate_limiting_state_inconsistent | unknown_block_exception | unknown_transaction_exception
  | fixed_reversible_db_exception | extract_genesis_state_exception
  | subjective_block_production_exception | multiple_voter_info | unsupported_feature
  | node_management_success => Some misc_exception
  | missing_chain_api_plugin_exception | missing_wallet_api_plugin_exception
  | missing_history_api_plugin_exception | missing_net_api_plugin_exception
  | missing_chain_plugin_exception | plugin_config_exception => Some plugin_exception
  | wallet_exist_exception | wallet_nonexistent_exception | wallet_locked_exception
  | wallet_missing_pub_key_exception | wallet_invalid_password_exception
  | wallet_not_available_exception | wallet_unlocked_exception | key_exist_exception
  | key_nonexistent_exception | unsupported_key_type_exception | invalid_lock_timeout_exception
  | secure_enclave_exception => Some wallet_exception
  | actor_whitelist_exception | actor_blacklist_exception | contract_whitelist_exception
  | contract_blacklist_exception | action_blacklist_exception | key_blacklist_exception => Some whitelist_blacklist_exception
  | checkpoint_exception => Some controller_emit_signal_exception
  | abi_not_found_exception | invalid_ricardian_clause_exception
  | invalid_ricardian_action_exception | invalid_type_inside_abi
  | duplicate_abi_type_def_exception | duplicate_abi_struct_def_exception
  | duplicate_abi_action_def_exception | duplicate_abi_table_def_exception
  | duplicate_abi_err_msg_def_exception | abi_serialization_deadline_exception
  | abi_recursion_depth_exception | abi_circular_def_exception | unpack_exception
  | pack_exception | duplicate_abi_variant_def_exception | unsupported_abi_version_exception => Some abi_exception
  | invalid_table_payer | table_access_violation | invalid_table_iterator | table_not_in_cache
  | table_operation_not_permitted | invalid_contract_vm_type | invalid_contract_vm_version
  | set_exact_code | wasm_file_not_found | abi_file_not_found => Some contract_exception
  | producer_priv_key_not_found | missing_pending_block_state | producer_double_confirm
  | producer_schedule_exception | producer_not_in_schedule
  | snapshot_directory_not_found_exception | snapshot_exists_exception => Some producer_exception
  | invalid_reversible_blocks_dir | reversible_blocks_backup_dir_exist
  | gap_in_reversible_blocks_db => Some reversible_blocks_exception
  | block_log_unsupported_version | block_log_append_fail | block_log_not_found
  | block_log_backup_dir_exist => Some block_log_exception
  | invalid_http_client_root_cert | invalid_http_response | resolved_to_multiple_ports
  | fail_to_resolve_host | http_request_fail | invalid_http_request => Some http_exception
  | mongo_db_insert_fail | mongo_db_update_fail => Some mongo_db_exception
  | crypto_api_exception | db_api_exception | arithmetic_exception => Some contract_api_exception
  | snapshot_validation_exception => Some snapshot_exception
  | chain_exception
  | std_out_of_range | std_logic_error | fc_overflow_exception | fc_underflow_exception
  | fc_parse_error_exception | fc_assert_exception | fc_std_exception | undefined_behavior
  | loop_bound => None
  end.

(** [catch( const b& )] catches an exception of class [e]. The hierarchy is at
    most four classes deep. *)
Fixpoint derives_upto (fuel : nat) (e b : exn) : bool :=
  bool_decide (e = b) ||
  match fuel, exn_base e with
  | S fuel, Some e' => derives_upto fuel e' b
  | _, _ => false
  end.
Definition derives_from (e b : exn) : bool := derives_upto 4 e b.
#[global] Arguments derives_from : simpl never.

Definition is_chain_exception (e : exn) : bool := derives_from e chain_exception.

(** [EOS_RETHROW_EXCEPTIONS( t, ... )]: chain exceptions keep their class, every
    other [fc::exception] or [std::exception] becomes a [t]. *)
Definition eos_rethrow_exceptions {A} (t : exn) (r : result exn A) : result exn A :=
  match r with
  | Ok a => Ok a
  | Err undefined_behavior => Err undefined_behavior
  | Err loop_bound => Err loop_bound
  | Err e => if is_chain_exception e then Err e else Err t
  end.

(** [FC_CAPTURE_AND_RETHROW]: exceptions of [fc] keep their class, those of the
    standard library become a plain [fc::exception]. *)
Definition fc_capture_and_rethrow (e : exn) : exn :=
  match e with
  | std_out_of_range | std_logic_error => fc_std_exception
  | e => e
  end.

Definition exn_of_code (c : Z) : option exn :=
  find (fun e => exn_tag e =? c) all_exns.

Lemma exn_of_code_code e c : exn_code e = Some c → exn_of_code c = Some e.
Proof. destruct e; intros H; try discriminate H; injection H as <-; vm_compute; reflexivity. Qed.

(** Every declared class descends from [chain_exception]. *)
Lemma declared_is_chain e c : exn_code e = Some c → is_chain_exception e = true.
Proof. destruct e; intros H; try discriminate H; vm_compute; reflexivity. Qed.

Lemma base_has_code e b : exn_base e = Some b → is_Some (exn_code b).
Proof. destruct e; intros H; try discriminate H; injection H as <-; cbn; eauto. Qed.

(** The walk up the hierarchy ends: four steps from any class reach a root, so
    the bound of [derives_from] loses nothing. *)
Lemma hierarchy_depth e :
  (((exn_base e ≫= exn_base) ≫= exn_base) ≫= exn_base) = None.
Proof. destruct e; reflexivity. Qed.
