(* ===== verification/Name.v ===== *)
(** * Account names

    [libraries/chain/include/eosio/chain/name.hpp] and
    [libraries/chain/name.cpp]: the base-32 encoding of up to thirteen
    characters in a 64-bit word.  A [char*] or [std::string] is the list of its
    characters; [c_str] cuts it at the first NUL. *)

From Stdlib Require Import Ascii.
From S2P Require Import Prelude Exceptions.

Abbreviation cstring := (list ascii).

(** A string literal of the source. *)
Definition lit (s : string) : cstring := String.list_ascii_of_string s.

Definition code (c : ascii) : Z := Z.of_N (N_of_ascii c).
Definition NUL : ascii := "000"%char.

Fixpoint c_str (s : cstring) : cstring :=
  match s with
  | [] => []
  | c :: s => if decide (c = NUL) then [] else c :: c_str s
  end.

(** [str[i]] of a NUL-terminated string. *)
Definition char_at (s : cstring) (i : nat) : ascii := default NUL (s !! i).

Module Name.

Definition char_to_symbol (c : ascii) : Z :=
  if (97 <=? code c) && (code c <=? 122) then (code c - 97) + 6
  else if (49 <=? code c) && (code c <=? 53) then (code c - 49) + 1
  else 0.

(** The [for] loop of [string_to_name]: the index and the word when it stops. *)
Fixpoint string_to_name_loop (str : cstring) (i : nat) (name : Z) : nat * Z :=
  match str with
  | [] => (i, name)
  | c :: rest =>
      if bool_decide (c ≠ NUL) && bool_decide (i < 12)%nat then
        string_to_name_loop rest (S i)
          (Z.lor name (u64 (Z.shiftl (Z.land (char_to_symbol c) 0x1f) (64 - 5 * (Z.of_nat i + 1)))))
      else (i, name)
  end.

Definition string_to_name (str : cstring) : Z :=
  let '(i, name) := string_to_name_loop str 0 0 in
  if bool_decide (i = 12%nat)
  then Z.lor name (Z.land (char_to_symbol (char_at str 12)) 0x0F)
  else name.

(** The constant [N(x)] of the source. *)
Definition N (s : string) : Z := string_to_name (lit s).

Definition charmap : cstring := lit ".12345abcdefghijklmnopqrstuvwxyz".

Fixpoint to_string_loop (n i : nat) (tmp : Z) (str : cstring) : cstring :=
  match n with
  | O => str
  | S n =>
      let first := bool_decide (i = 0%nat) in
      let c := char_at charmap (Z.to_nat (Z.land tmp (if first then 0x0f else 0x1f))) in
      to_string_loop n (S i) (Z.shiftr tmp (if first then 4 else 5)) (c :: str)
  end.

(** [boost::algorithm::trim_right_if( str, c == '.' )]. *)
Fixpoint trim_right_dots (s : cstring) : cstring :=
  match s with
  | [] => []
  | c :: s =>
      match trim_right_dots s with
      | [] => if decide (c = "."%char) then [] else [c]
      | s' => c :: s'
      end
  end.

Definition to_string (value : Z) : cstring :=
  trim_right_dots (to_string_loop 13 0 value []).

(** [name::set]: [strnlen( str, 14 )] counts at most fourteen characters. *)
Definition set (str : cstring) : result exn Z :=
  let str := c_str str in
  let len := Nat.min (length str) 14 in
  eos_assert (bool_decide (len ≤ 13)%nat) name_type_exception ;;
  let value := string_to_name str in
  eos_assert (bool_decide (to_string value = str)) name_type_exception ;;
  mret value.

(** ** What the encoding is: base 32, most significant symbol first *)

Definition horner (h : Z) (l : list Z) : Z := foldl (fun h d => 32 * h + d) h l.

Definition symbol32 (d : Z) : Prop := 0 ≤ d < 32.

Lemma horner_app h l1 l2 : horner h (l1 ++ l2) = horner (horner h l1) l2.
Proof. apply foldl_app. Qed.

Lemma horner_snoc h l d : horner h (l ++ [d]) = 32 * horner h l + d.
Proof. by rewrite horner_app. Qed.

Lemma horner_zeros h n : horner h (replicate n 0) = h * 32 ^ Z.of_nat n.
Proof.
  revert h. induction n as [|n IH]; intros h; cbn [replicate horner foldl].
  - cbn. lia.
  - unfold horner in IH. rewrite IH, Nat2Z.inj_succ, Z.pow_succ_r by lia. lia.
Qed.

Lemma horner_bound l : Forall symbol32 l → 0 ≤ horner 0 l < 32 ^ Z.of_nat (length l).
Proof.
  induction l as [|d l IH] using rev_ind; intros Hl; [cbn; lia|].
  apply Forall_app in Hl as [Hl [Hd _]%Forall_cons_1]. specialize (IH Hl).
  rewrite horner_snoc, length_app. cbn [length].
  rewrite Nat.add_1_r, Nat2Z.inj_succ, Z.pow_succ_r by lia. unfold symbol32 in *. lia.
Qed.

(** Every word below [32 ^ n] has exactly one expansion of length [n]. *)
Lemma horner_surj n h :
  0 ≤ h < 32 ^ Z.of_nat n → ∃ l, length l = n ∧ Forall symbol32 l ∧ horner 0 l = h.
Proof.
  revert h. induction n as [|n IH]; intros h Hh.
  - exists []. cbn in *. split_and!; [done|constructor|lia].
  - rewrite Nat2Z.inj_succ, Z.pow_succ_r in Hh by lia.
    destruct (IH (h / 32)) as (l & Hlen & Hl & Hh').
    { split; [apply Z.div_pos; lia|apply Z.div_lt_upper_bound; lia]. }
    exists (l ++ [h mod 32]). rewrite length_app, horner_snoc, Hh'. split_and!.
    + cbn. lia.
    + apply Forall_app_2; [done|]. constructor; [|done].
      apply Z.mod_pos_bound. lia.
    + symmetry. apply Z.div_mod. lia.
Qed.

Lemma symbol_range c : symbol32 (char_to_symbol c).
Proof. unfold char_to_symbol, symbol32. repeat case_match; to_prop; lia. Qed.

Lemma land_31 d : symbol32 d → Z.land d 0x1f = d.
Proof.
  intros Hd. change 0x1f with (Z.ones 5). rewrite Z.land_ones by lia. by apply Z.mod_small.
Qed.

Lemma lor_5 h d : symbol32 d → Z.lor (h * 2 ^ 5) d = 32 * h + d.
Proof.
  intros Hd. replace (32 * h + d) with (h * 2 ^ 5 + d) by lia.
  unfold symbol32 in Hd. apply Z.bits_inj'. intros k Hk.
  rewrite Z.lor_spec. destruct (Z.ltb_spec k 5).
  - rewrite Z.mul_pow2_bits_low by lia. cbn.
    rewrite <- (Z.mod_pow2_bits_low (h * 2 ^ 5 + d) 5 k) by lia.
    rewrite Z.add_comm, Z_mod_plus_full, Z.mod_small by lia. done.
  - rewrite Z.mul_pow2_bits by lia.
    replace (Z.testbit d k) with false; [rewrite orb_false_r|].
    + replace k with ((k - 5) + 5) at 2 by lia. rewrite <- Z.div_pow2_bits by lia.
      rewrite Z.div_add_l, Z.div_small by lia. by rewrite Z.add_0_r.
    + rewrite <- (Z.mod_small d (2 ^ 5)) by lia. symmetry. apply Z.mod_pow2_bits_high. lia.
Qed.

Lemma lor_4 h d : 0 ≤ d < 16 → Z.lor (h * 16) d = h * 16 + d.
Proof.
  intros Hd. pose proof (lor_5 h (2 * d)) as H5. unfold symbol32 in H5.
  enough (Z.lor (h * 2 ^ 5) (2 * d) = 2 * Z.lor (h * 16) d) by lia.
  rewrite (Z.mul_comm 2 (Z.lor _ _)), <- (Z.shiftl_mul_pow2 _ 1), Z.shiftl_lor by lia.
  by rewrite !Z.shiftl_mul_pow2, (Z.mul_comm 2 d), <- Z.mul_assoc by lia.
Qed.

Lemma lor_low h d s : 0 ≤ s → symbol32 d →
  Z.lor (h * 2 ^ (s + 5)) (Z.shiftl d s) = (32 * h + d) * 2 ^ s.
Proof.
  intros Hs Hd. rewrite <- lor_5, <- (Z.shiftl_mul_pow2 (Z.lor _ _)), Z.shiftl_lor by done.
  f_equal. rewrite Z.shiftl_mul_pow2, Z.pow_add_r by lia. lia.
Qed.

(** ** The encoder computes the expansion *)

Definition no_nul (s : cstring) : Prop := NUL ∉ s.

Lemma c_str_no_nul s : no_nul (c_str s).
Proof.
  unfold no_nul. induction s as [|c s IH]; cbn; [apply not_elem_of_nil|].
  case_decide; [apply not_elem_of_nil|]. rewrite elem_of_cons. naive_solver.
Qed.

Lemma c_str_id s : no_nul s → c_str s = s.
Proof.
  unfold no_nul. induction s as [|c s IH]; cbn; [done|].
  rewrite elem_of_cons. intros H. case_decide; [naive_solver|]. f_equal. apply IH. naive_solver.
Qed.

(** The symbols the loop reads, and the zeros of the missing characters. *)
Definition symbols (s : cstring) : list Z := char_to_symbol <$> take 12 s.
Definition padded (s : cstring) : list Z := symbols s ++ replicate (12 - length s) 0.

Lemma loop_horner str i h : no_nul str → (i ≤ 12)%nat →
  string_to_name_loop str i (h * 2 ^ (64 - 5 * Z.of_nat i)) =
  let l := char_to_symbol <$> take (12 - i) str in
  let j := (i + length l)%nat in
  (j, horner h l * 2 ^ (64 - 5 * Z.of_nat j)).
Proof.
  unfold no_nul. revert i h. induction str as [|c str IH]; intros i h Hn Hi.
  - rewrite take_nil. cbn. by rewrite Nat.add_0_r.
  - apply not_elem_of_cons in Hn as [Hc Hn]. cbn [string_to_name_loop].
    rewrite bool_decide_eq_true_2 by done. destruct (decide (i < 12)%nat) as [Hlt|Hge].
    + rewrite bool_decide_eq_true_2 by done. cbn [andb].
      rewrite land_31 by apply symbol_range.
      rewrite (wrapu_small 64).
      2:{ rewrite Z.shiftl_mul_pow2 by lia. pose proof (symbol_range c) as Hr.
          unfold in_u, symbol32 in *. split; [lia|].
          apply Z.lt_le_trans with (2 ^ 5 * 2 ^ (64 - 5 * (Z.of_nat i + 1))).
          - apply Z.mul_lt_mono_pos_r; [apply Z.pow_pos_nonneg; lia|lia].
          - rewrite <- Z.pow_add_r by lia. apply Z.pow_le_mono_r; lia. }
      replace (64 - 5 * Z.of_nat i) with (64 - 5 * (Z.of_nat i + 1) + 5) by lia.
      rewrite lor_low by (lia || apply symbol_range).
      replace (Z.of_nat i + 1) with (Z.of_nat (S i)) by lia.
      rewrite IH by (done || lia).
      replace (12 - i)%nat with (S (12 - S i)) by lia. cbn.
      by rewrite Nat.add_succ_r.
    + assert (i = 12%nat) as -> by lia. rewrite bool_decide_eq_false_2 by lia. done.
Qed.

Lemma string_to_name_horner str : no_nul str →
  string_to_name str = horner 0 (padded str) * 16 + char_to_symbol (char_at str 12) mod 16.
Proof.
  intros Hn. unfold string_to_name.
  pose proof (loop_horner str 0 0 Hn ltac:(lia)) as Hl.
  rewrite Z.mul_0_l in Hl. rewrite Hl. clear Hl. cbn zeta. cbn [Nat.sub Nat.add].
  set (l := char_to_symbol <$> take 12 str).
  assert (length l = Nat.min 12 (length str)) as Hlen.
  { unfold l. by rewrite length_fmap, length_take. }
  unfold padded, symbols. fold l. rewrite horner_app, horner_zeros. case_bool_decide as Hj.
  - rewrite Hj. replace (12 - length str)%nat with 0%nat by lia.
    change 0x0F with (Z.ones 4). rewrite Z.land_ones by lia.
    change (2 ^ (64 - 5 * Z.of_nat 12)) with 16. change (2 ^ 4) with 16.
    pose proof (Z.mod_pos_bound (char_to_symbol (char_at str 12)) 16 ltac:(lia)).
    set (d := char_to_symbol (char_at str 12) mod 16) in *.
    rewrite lor_4 by done. change (32 ^ Z.of_nat 0) with 1. lia.
  - rewrite Hlen. assert (length str < 12)%nat by lia.
    rewrite Nat.min_r by lia. unfold char_at.
    rewrite lookup_ge_None_2 by lia. cbn [default]. 
    change (char_to_symbol NUL mod 16) with 0. rewrite Z.add_0_r.
    replace (64 - 5 * Z.of_nat (length str)) with (5 * Z.of_nat (12 - length str) + 4) by lia.
    rewrite Z.pow_add_r, Z.pow_mul_r by lia. change (2 ^ 5) with 32. lia.
Qed.

(** ** The decoder reads the expansion back *)

Definition charmap_at (d : Z) : ascii := char_at charmap (Z.to_nat d).

Lemma symbol_of_charmap d : symbol32 d → char_to_symbol (charmap_at d) = d.
Proof.
  intros Hd. assert (Z.to_nat d < 32)%nat as Hn by (unfold symbol32 in Hd; lia).
  rewrite <- (Z2Nat.id d) at 2 by (unfold symbol32 in Hd; lia).
  unfold charmap_at. revert Hn. generalize (Z.to_nat d). intros n Hn.
  do 32 (destruct n as [|n]; [vm_compute; reflexivity|]). lia.
Qed.

Lemma to_string_loop_horner l i acc : Forall symbol32 l → (0 < i)%nat →
  to_string_loop (length l) i (horner 0 l) acc = (charmap_at <$> l) ++ acc.
Proof.
  revert i acc. induction l as [|d l IH] using rev_ind; intros i acc Hl Hi; [done|].
  apply Forall_app in Hl as [Hl [Hd _]%Forall_cons_1].
  rewrite length_app. cbn [length]. rewrite Nat.add_1_r. cbn [to_string_loop].
  rewrite bool_decide_eq_false_2 by lia. rewrite horner_snoc.
  change 0x1f with (Z.ones 5). rewrite Z.land_ones, Z.shiftr_div_pow2 by lia.
  change (2 ^ 5) with 32. unfold symbol32 in Hd.
  rewrite (Z.mul_comm 32), Z.div_add_l, Z.div_small, Z.add_0_r by lia.
  rewrite (Z.add_comm _ d), Z_mod_plus_full, Z.mod_small by lia.
  rewrite IH by (done || lia). rewrite fmap_app, <- app_assoc. done.
Qed.

(** The thirteen characters of a word, before trailing dots are dropped. *)
Lemma to_string_loop_word l d : length l = 12%nat → Forall symbol32 l → 0 ≤ d < 16 →
  to_string_loop 13 0 (horner 0 l * 16 + d) [] = (charmap_at <$> l) ++ [charmap_at d].
Proof.
  intros Hlen Hl Hd. replace 13%nat with (S (length l)) by lia. cbn [to_string_loop].
  rewrite bool_decide_eq_true_2 by done.
  change 0x0f with (Z.ones 4). rewrite Z.land_ones, Z.shiftr_div_pow2 by lia.
  change (2 ^ 4) with 16. rewrite Z.div_add_l, Z.div_small, Z.add_0_r by lia.
  rewrite (Z.add_comm _ d), Z_mod_plus_full, Z.mod_small by lia.
  by rewrite to_string_loop_horner by (done || lia).
Qed.

Lemma trim_right_dots_app s : ∃ n, s = trim_right_dots s ++ replicate n "."%char.
Proof.
  induction s as [|c s [n IH]]; [by exists 0%nat|]. cbn.
  destruct (trim_right_dots s) as [|c' s'].
  - cbn in IH. rewrite IH. case_decide as Hc; [rewrite Hc; by exists (S n)|by exists n].
  - exists n. rewrite IH at 1. done.
Qed.

Lemma charmap_not_nul d : charmap_at d ≠ NUL ∨ 32 ≤ d.
Proof.
  destruct (Z.leb_spec 32 d); [by right|]. left. unfold charmap_at.
  assert (Z.to_nat d < 32)%nat as Hn by lia. revert Hn.
  generalize (Z.to_nat d). intros n Hn.
  do 32 (destruct n as [|n]; [vm_compute; discriminate|]). lia.
Qed.

(** A dot and a missing character encode alike. *)
Lemma padded_dots s n : padded (s ++ replicate n "."%char) = padded s.
Proof.
  unfold padded, symbols. rewrite take_app, fmap_app, <- app_assoc. f_equal.
  rewrite take_replicate, fmap_replicate, length_app, length_replicate.
  change (char_to_symbol "."%char) with 0. rewrite <- replicate_add. f_equal. lia.
Qed.

Lemma symbol_at_dots s n k :
  char_to_symbol (char_at (s ++ replicate n "."%char) k) = char_to_symbol (char_at s k).
Proof.
  unfold char_at. destruct (decide (k < length s)%nat).
  - by rewrite lookup_app_l.
  - rewrite lookup_app_r, (lookup_ge_None_2 s) by lia.
    destruct (replicate n "."%char !! _) as [c|] eqn:E; [|done].
    by apply lookup_replicate in E as [-> _].
Qed.

Lemma string_to_name_dots s n : no_nul s →
  string_to_name (s ++ replicate n "."%char) = string_to_name s.
Proof.
  intros Hs. rewrite !string_to_name_horner, padded_dots, symbol_at_dots; [done|done|].
  unfold no_nul in *. rewrite elem_of_app, elem_of_replicate. naive_solver.
Qed.

Lemma padded_length s : length (padded s) = 12%nat.
Proof.
  unfold padded, symbols. rewrite length_app, length_fmap, length_take, length_replicate. lia.
Qed.

Lemma padded_symbols s : Forall symbol32 (padded s).
Proof.
  apply Forall_app_2.
  - apply Forall_fmap, Forall_true. intros. apply symbol_range.
  - apply Forall_replicate. unfold symbol32. lia.
Qed.

Lemma word_digits v : in_u 64 v → ∃ l d,
  v = horner 0 l * 16 + d ∧ length l = 12%nat ∧ Forall symbol32 l ∧ 0 ≤ d < 16.
Proof.
  intros Hv. destruct (horner_surj 12 (v / 16)) as (l & Hlen & Hl & E).
  { unfold in_u in Hv. split; [apply Z.div_pos; lia|apply Z.div_lt_upper_bound; lia]. }
  exists l, (v mod 16). split_and!; [|done|done|apply Z.mod_pos_bound; lia..].
  rewrite E, Z.mul_comm. apply Z.div_mod. lia.
Qed.

Lemma digits_chars_no_nul l d : Forall symbol32 l → 0 ≤ d < 16 →
  no_nul ((charmap_at <$> l) ++ [charmap_at d]).
Proof.
  unfold no_nul. intros Hl Hd. rewrite elem_of_app, list_elem_of_singleton, list_elem_of_fmap.
  intros [(x & E & Hx)|E].
  - rewrite Forall_forall in Hl. destruct (charmap_not_nul x); [congruence|].
    specialize (Hl x Hx). unfold symbol32 in Hl. lia.
  - destruct (charmap_not_nul d); [congruence|lia].
Qed.

Lemma string_to_name_digits l d : length l = 12%nat → Forall symbol32 l → 0 ≤ d < 16 →
  string_to_name ((charmap_at <$> l) ++ [charmap_at d]) = horner 0 l * 16 + d.
Proof.
  intros Hlen Hl Hd. rewrite string_to_name_horner by by apply digits_chars_no_nul.
  f_equal.
  - do 2 f_equal. unfold padded, symbols.
    rewrite length_app, length_fmap, Hlen. cbn. rewrite app_nil_r.
    rewrite take_app_length' by by rewrite length_fmap.
    rewrite <- list_fmap_compose. rewrite <- (list_fmap_id l) at 2.
    apply list_fmap_ext. intros i x Hx. cbn. apply symbol_of_charmap.
    eapply Forall_lookup_1; [apply Hl|apply Hx].
  - unfold char_at. rewrite lookup_app_r; rewrite length_fmap, Hlen; [|lia]. cbn.
    rewrite symbol_of_charmap by (unfold symbol32; lia). by apply Z.mod_small.
Qed.

Lemma to_string_to_name v : in_u 64 v → string_to_name (to_string v) = v ∧ no_nul (to_string v)
  ∧ (length (to_string v) ≤ 13)%nat.
Proof.
  intros (l & d & -> & Hlen & Hl & Hd)%word_digits. unfold to_string.
  rewrite to_string_loop_word by done. set (s := (charmap_at <$> l) ++ [charmap_at d]).
  destruct (trim_right_dots_app s) as [n Hn].
  assert (no_nul (trim_right_dots s)) as Hs.
  { pose proof (digits_chars_no_nul l d Hl Hd) as H. fold s in H. rewrite Hn in H.
    unfold no_nul in *. rewrite elem_of_app in H. naive_solver. }
  split_and!; [|done|].
  - rewrite <- (string_to_name_dots _ n Hs), <- Hn. by apply string_to_name_digits.
  - apply (f_equal length) in Hn. unfold s in Hn at 1.
    rewrite !length_app, length_fmap, Hlen in Hn. cbn in Hn. lia.
Qed.

(** ** What [name::set] accepts *)

(** The names of the system: at most thirteen characters of the alphabet, the
    thirteenth among its first sixteen, and no trailing dot. *)
Definition valid_name (s : cstring) : bool :=
  bool_decide (length s ≤ 13)%nat && forallb (fun c => bool_decide (c ∈ charmap)) s
  && (char_to_symbol (char_at s 12) <? 16) && bool_decide (last s ≠ Some "."%char).

Lemma valid_name_spec s : valid_name s = true ↔
  (length s ≤ 13)%nat ∧ forallb (fun c => bool_decide (c ∈ charmap)) s = true
  ∧ char_to_symbol (char_at s 12) < 16 ∧ last s ≠ Some "."%char.
Proof.
  unfold valid_name. rewrite !andb_true_iff, !bool_decide_eq_true, Z.ltb_lt. tauto.
Qed.

Lemma charmap_of_symbol c : c ∈ charmap → charmap_at (char_to_symbol c) = c.
Proof.
  intros (i & Hi)%list_elem_of_lookup_1.
  pose proof (lookup_lt_Some _ _ _ Hi) as Hlt. change (length charmap) with 32%nat in Hlt.
  do 32 (destruct i as [|i]; [injection Hi as <-; vm_compute; reflexivity|]). lia.
Qed.

Lemma charmap_at_elem d : symbol32 d → charmap_at d ∈ charmap.
Proof.
  intros Hd. unfold charmap_at, char_at.
  destruct (lookup_lt_is_Some_2 charmap (Z.to_nat d)) as [c Hc].
  { change (length charmap) with 32%nat. unfold symbol32 in Hd. lia. }
  rewrite Hc. by eapply list_elem_of_lookup_2.
Qed.

Lemma trim_right_dots_last s : last (trim_right_dots s) ≠ Some "."%char.
Proof.
  induction s as [|c s IH]; cbn; [done|].
  destruct (trim_right_dots s) as [|c' s']; [|done].
  case_decide; cbn; [done|congruence].
Qed.

Lemma trim_right_dots_id s : last s ≠ Some "."%char → trim_right_dots s = s.
Proof.
  induction s as [|c s IH]; intros H; cbn; [done|].
  destruct s as [|c' s]; cbn in *.
  - case_decide; [subst; done|done].
  - rewrite IH by done. done.
Qed.

Lemma trim_right_dots_replicate s n :
  trim_right_dots (s ++ replicate n "."%char) = trim_right_dots s.
Proof.
  induction s as [|c s IH]; cbn; [|by rewrite IH].
  induction n as [|n IH]; cbn; [done|]. by rewrite IH.
Qed.

Lemma to_string_charmap v : in_u 64 v → forallb (λ c, bool_decide (c ∈ charmap)) (to_string v) = true.
Proof.
  intros (l & d & -> & Hlen & Hl & Hd)%word_digits. unfold to_string.
  rewrite to_string_loop_word by done. set (s := (charmap_at <$> l) ++ [charmap_at d]).
  assert (forallb (λ c, bool_decide (c ∈ charmap)) s = true) as Hs.
  { unfold s. rewrite forallb_app. apply andb_true_intro. split.
    - clear -Hl. induction Hl as [|x l Hx Hl IH]; cbn; [done|].
      rewrite bool_decide_eq_true_2 by by apply charmap_at_elem. done.
    - cbn. rewrite bool_decide_eq_true_2; [done|]. apply charmap_at_elem. unfold symbol32. lia. }
  destruct (trim_right_dots_app s) as [n Hn]. rewrite Hn, forallb_app in Hs. by to_prop.
Qed.

Lemma string_to_name_range s : no_nul s → in_u 64 (string_to_name s).
Proof.
  intros Hs. rewrite string_to_name_horner by done.
  pose proof (horner_bound (padded s) (padded_symbols s)) as Hb. rewrite padded_length in Hb.
  pose proof (Z.mod_pos_bound (char_to_symbol (char_at s 12)) 16).
  change (32 ^ Z.of_nat 12) with (2 ^ 60) in Hb. unfold in_u. lia.
Qed.

(** A valid name is spelled by its own symbols. *)
Lemma valid_name_chars s : valid_name s = true →
  ∃ n, (charmap_at <$> padded s) ++ [charmap_at (char_to_symbol (char_at s 12) mod 16)]
       = s ++ replicate n "."%char.
Proof.
  intros (Hlen & Hall & H13 & _)%valid_name_spec.
  rewrite Z.mod_small.
  2:{ pose proof (symbol_range (char_at s 12)). unfold symbol32 in *. lia. }
  assert (∀ s, forallb (λ c, bool_decide (c ∈ charmap)) s = true →
             charmap_at <$> (char_to_symbol <$> s) = s) as Hid.
  { clear. induction s as [|c s IH]; cbn; [done|]. intros [Hc%bool_decide_eq_true Hs]%andb_prop.
    by rewrite charmap_of_symbol, IH by done. }
  assert (charmap_at <$> (char_to_symbol <$> take 12 s) = take 12 s) as Htake.
  { apply Hid. rewrite <- (take_drop 12 s), forallb_app in Hall. by to_prop. }
  unfold padded, symbols. rewrite fmap_app, Htake, fmap_replicate.
  change (charmap_at 0) with "."%char.
  destruct (decide (length s = 13%nat)) as [E|E].
  - exists 0%nat. replace (12 - length s)%nat with 0%nat by lia. cbn. rewrite !app_nil_r.
    destruct (lookup_lt_is_Some_2 s 12) as [c Hc]; [lia|].
    rewrite <- (take_drop_middle s 12 c Hc) at 3. rewrite drop_ge by lia.
    unfold char_at. rewrite Hc. cbn. do 2 f_equal. apply charmap_of_symbol.
    eapply forallb_forall in Hall; [|apply list_elem_of_In; by eapply list_elem_of_lookup_2].
    by apply bool_decide_eq_true in Hall.
  - exists (S (12 - length s)). rewrite take_ge by lia.
    unfold char_at. rewrite lookup_ge_None_2 by lia. cbn [default].
    change (charmap_at (char_to_symbol NUL)) with "."%char.
    by rewrite <- app_assoc, <- replicate_S_end.
Qed.

Lemma normalized_valid s : no_nul s → to_string (string_to_name s) = s → valid_name s = true.
Proof.
  intros Hn Es. set (v := string_to_name s) in *.
  assert (in_u 64 v) as Hv by by apply string_to_name_range.
  pose proof (to_string_charmap v Hv) as Hc. destruct (to_string_to_name v Hv) as (_ & _ & Hl).
  pose proof Es as Es'. unfold to_string in Es'.
  pose proof (trim_right_dots_last (to_string_loop 13 0 v [])) as Hlast.
  rewrite Es in *. rewrite Es' in Hlast.
  apply valid_name_spec. split_and!; [done|done| |done].
  destruct (word_digits v Hv) as (l & d & Ed & Hlen & Hsl & Hd).
  rewrite Ed, to_string_loop_word in Es' by done.
  destruct (trim_right_dots_app ((charmap_at <$> l) ++ [charmap_at d])) as [n Hd'].
  rewrite Es' in Hd'. rewrite <- (symbol_at_dots s n 12), <- Hd'. unfold char_at.
  rewrite lookup_app_r; rewrite length_fmap, Hlen; [|lia]. cbn.
  rewrite symbol_of_charmap by (unfold symbol32; lia). lia.
Qed.

Lemma valid_normalized s : no_nul s → valid_name s = true → to_string (string_to_name s) = s.
Proof.
  intros Hn Ev. destruct (valid_name_chars s Ev) as [n Hch].
  unfold to_string. rewrite string_to_name_horner by done.
  rewrite to_string_loop_word
    by (apply padded_length || apply padded_symbols || (apply Z.mod_pos_bound; lia)).
  rewrite Hch, trim_right_dots_replicate. apply trim_right_dots_id.
  by apply valid_name_spec in Ev as (_ & _ & _ & ?).
Qed.

(** C39: every 64-bit word prints as a string that [name::set] reads back as the
    same word: the printed form is a faithful spelling of the value. *)
Theorem name_roundtrip (v : Z) : in_u 64 v → set (to_string v) = Ok v.
Proof.
  intros Hv. destruct (to_string_to_name v Hv) as (E & Hn & Hlen).
  unfold set. rewrite c_str_id, E by done.
  rewrite !bool_decide_eq_true_2 by (done || lia). done.
Qed.

(** [name::set] accepts exactly the strings of the naming grammar, and the
    word it stores prints as the string it was given. *)
Theorem name_set_accepts (s : cstring) :
  is_ok (set s) = valid_name (c_str s) ∧
  (∀ v, set s = Ok v → in_u 64 v ∧ to_string v = c_str s).
Proof.
  pose proof (c_str_no_nul s) as Hn. unfold set. revert Hn. generalize (c_str s).
  clear s. intros s Hn. split.
  - destruct (decide (to_string (string_to_name s) = s)) as [Es|Es].
    + rewrite (normalized_valid s Hn Es). pose proof (normalized_valid s Hn Es) as Ev.
      apply valid_name_spec in Ev as (? & _).
      rewrite Es. rewrite !bool_decide_eq_true_2 by (done || lia). done.
    + rewrite (bool_decide_eq_false_2 _ Es). destruct (valid_name s) eqn:Ev.
      * by destruct Es; apply valid_normalized.
      * by destruct (bool_decide _).
  - intros v H. simpl_ok. to_prop. simplify_eq. split; [|done]. by apply string_to_name_range.
Qed.

Lemma name_roundtrip_witness : set (to_string (N "bacc.token")) = Ok (N "bacc.token").
Proof. apply (name_roundtrip (N "bacc.token")). vm_compute. split; [discriminate|reflexivity]. Defined.

Example name_N_bacc : N "bacc" = 4147955994296582144 ∧ to_string 4147955994296582144 = lit "bacc".
Proof. vm_compute. split; reflexivity. Qed.

Example name_not_normalized : set (lit "Bad") = Err name_type_exception.
Proof. vm_compute. reflexivity. Qed.

End Name.
