(* ===== verification/Merkle.v ===== *)
(** * Merkle roots

    [libraries/chain/merkle.cpp] (the root of a whole vector of digests) and
    [libraries/chain/include/eosio/chain/incremental_merkle.hpp] (the tree block
    headers carry, which only appends).  The digest function is a parameter:
    nothing below depends on which function it is.  Reading [*active_iter] past
    the end of [_active_nodes] is [undefined_behavior]. *)

From S2P Require Import Prelude Exceptions.

(** [fc::sha256]: four 64-bit words. *)
Record digest_type : Type := mk_digest
  { hash0 : Z; hash1 : Z; hash2 : Z; hash3 : Z }.

#[export] Instance digest_eq_dec : EqDecision digest_type.
Proof. solve_decision. Defined.

#[export] Instance digest_countable : Countable digest_type.
Proof.
  apply (inj_countable' (fun d => (hash0 d, hash1 d, hash2 d, hash3 d))
           (fun '(a, b, c, d) => mk_digest a b c d)).
  by intros [].
Defined.

(** [digest_type()]. *)
Definition digest0 : digest_type := mk_digest 0 0 0 0.

Module Merkle.

(** ** Canonical sides *)

Definition make_canonical_left (val : digest_type) : digest_type :=
  mk_digest (Z.land (hash0 val) 0xFFFFFFFFFFFFFF7F) (hash1 val) (hash2 val) (hash3 val).
Definition make_canonical_right (val : digest_type) : digest_type :=
  mk_digest (Z.lor (hash0 val) 0x80) (hash1 val) (hash2 val) (hash3 val).
Definition is_canonical_left (val : digest_type) : bool := Z.land (hash0 val) 0x80 =? 0.
Definition is_canonical_right (val : digest_type) : bool := negb (Z.land (hash0 val) 0x80 =? 0).
Definition make_canonical_pair (l r : digest_type) : digest_type * digest_type :=
  (make_canonical_left l, make_canonical_right r).

(** ** Depth of the implied tree *)

Definition next_power_of_2 (value : Z) : Z :=
  let value := u64 (value - 1) in
  let value := Z.lor value (Z.shiftr value 1) in
  let value := Z.lor value (Z.shiftr value 2) in
  let value := Z.lor value (Z.shiftr value 4) in
  let value := Z.lor value (Z.shiftr value 8) in
  let value := Z.lor value (Z.shiftr value 16) in
  let value := Z.lor value (Z.shiftr value 32) in
  u64 (value + 1).

Definition clz_power_2 (value : Z) : Z :=
  let nz m := negb (Z.land value m =? 0) in
  let lz := 64 in
  let lz := if negb (value =? 0) then lz - 1 else lz in
  let lz := if nz 0x00000000FFFFFFFF then lz - 32 else lz in
  let lz := if nz 0x0000FFFF0000FFFF then lz - 16 else lz in
  let lz := if nz 0x00FF00FF00FF00FF then lz - 8 else lz in
  let lz := if nz 0x0F0F0F0F0F0F0F0F then lz - 4 else lz in
  let lz := if nz 0x3333333333333333 then lz - 2 else lz in
  let lz := if nz 0x5555555555555555 then lz - 1 else lz in
  lz.

Definition calcluate_max_depth (node_count : Z) : Z :=
  if node_count =? 0 then 0
  else clz_power_2 (next_power_of_2 node_count) + 1.

(** [incremental_merkle_impl]. *)
Record incremental_merkle : Type := mk_im
  { node_count : Z; active_nodes : list digest_type }.

Definition incremental_merkle0 : incremental_merkle := mk_im 0 [].

Section WithHash.
(** [digest_type::hash] of a pair of digests. *)
Variable hash : digest_type * digest_type → digest_type.

Definition node (l r : digest_type) : digest_type := hash (make_canonical_pair l r).

(** The [while (current_depth > 0)] loop of [append]; [active] is what
    [active_iter] has left to read. *)
Fixpoint append_loop (current_depth : nat) (index : Z) (top : digest_type) (partial : bool)
    (active updated : list digest_type) : result exn (digest_type * list digest_type) :=
  match current_depth with
  | O => Ok (top, updated)
  | S current_depth =>
      if Z.land index 1 =? 0 then
        append_loop current_depth (Z.shiftr index 1) (node top top) true active
          (if partial then updated else updated ++ [top])
      else
        match active with
        | [] => Err undefined_behavior
        | left_value :: active =>
            append_loop current_depth (Z.shiftr index 1) (node left_value top) partial active
              (if partial then updated ++ [left_value] else updated)
        end
  end.

Definition append (m : incremental_merkle) (digest : digest_type)
    : result exn incremental_merkle :=
  let max_depth := calcluate_max_depth (u64 (node_count m + 1)) in
  let current_depth := max_depth - 1 in
  '(top, updated) ←
    append_loop (Z.to_nat current_depth) (node_count m) digest false (active_nodes m) [];
  mret (mk_im (u64 (node_count m + 1)) (updated ++ [top])).

Definition get_root (m : incremental_merkle) : digest_type :=
  if 0 <? node_count m then default digest0 (last (active_nodes m)) else digest0.

(** *** The root of a vector: [merkle.cpp] *)

(** The [for] loop: overwrite the first half of [ids] in place. *)
Fixpoint merkle_pass (n i : nat) (ids : list digest_type) : list digest_type :=
  match n with
  | O => ids
  | S n =>
      merkle_pass n (S i)
        (<[i := node (default digest0 (ids !! (2 * i)%nat))
                     (default digest0 (ids !! (2 * i + 1)%nat))]> ids)
  end.

Definition merkle_level (ids : list digest_type) : list digest_type :=
  let ids := if Nat.odd (length ids) then ids ++ [default digest0 (last ids)] else ids in
  let n := (length ids / 2)%nat in
  take n (merkle_pass n 0 ids).

(** The [while( ids.size() > 1 )] loop, [None] if [fuel] runs out. *)
Fixpoint merkle_loop (fuel : nat) (ids : list digest_type) : option digest_type :=
  match fuel with
  | O => None
  | S fuel =>
      if bool_decide (1 < length ids)%nat then merkle_loop fuel (merkle_level ids)
      else Some (default digest0 (head ids))
  end.

Definition merkle (ids : list digest_type) : option digest_type :=
  if bool_decide (length ids = 0%nat) then Some digest0
  else merkle_loop (length ids) ids.
End WithHash.

(** ** The depth computation is a binary logarithm *)

(** Bit [i] of the smeared word: some bit of [v] in the window above [i]. *)
Definition window (v : Z) (w : nat) (i : Z) : bool :=
  existsb (fun d => Z.testbit v (i + Z.of_nat d)) (seq 0 w).

Lemma window_spec v w i : window v w i = true ↔ ∃ d, (d < w)%nat ∧ Z.testbit v (i + Z.of_nat d) = true.
Proof.
  unfold window. rewrite existsb_exists. split.
  - intros (d & Hd%in_seq & H). exists d. split; [lia|done].
  - intros (d & Hd & H). exists d. split; [apply in_seq; lia|done].
Qed.

Definition smeared (v : Z) (w : nat) (x : Z) : Prop := ∀ i, 0 ≤ i → Z.testbit x i = window v w i.

Lemma smear_double v w x : smeared v w x → smeared v (w + w) (Z.lor x (Z.shiftr x (Z.of_nat w))).
Proof.
  intros Hx i Hi. rewrite Z.lor_spec, Z.shiftr_spec, !Hx by lia.
  apply eq_true_iff_eq. rewrite orb_true_iff, !window_spec. split.
  - intros [(d & Hd & H)|(d & Hd & H)]; [exists d; split; [lia|done]|].
    exists (w + d)%nat. split; [lia|]. rewrite Nat2Z.inj_add, Z.add_assoc. done.
  - intros (d & Hd & H). destruct (decide (d < w)%nat).
    + left. eauto.
    + right. exists (d - w)%nat. split; [lia|]. rewrite <- H. f_equal. lia.
Qed.

Lemma smeared_ones v x : 0 < v < 2 ^ 64 → smeared v 64 x → 0 ≤ x → x + 1 = 2 ^ (Z.log2 v + 1).
Proof.
  intros Hv Hx Hx0. enough (x = Z.ones (Z.log2 v + 1)) as -> by (rewrite Z.ones_equiv; lia).
  pose proof (Z.log2_nonneg v). apply Z.bits_inj'. intros i Hi. rewrite Hx by done.
  destruct (Z.ltb_spec i (Z.log2 v + 1)) as [Hl|Hl].
  - rewrite Z.ones_spec_low by lia. apply window_spec. exists (Z.to_nat (Z.log2 v - i)).
    assert (Z.log2 v < 64) by (apply Z.log2_lt_pow2; lia).
    split; [lia|]. rewrite Z2Nat.id by lia. replace (i + _) with (Z.log2 v) by lia.
    apply Z.bit_log2. lia.
  - rewrite Z.ones_spec_high by lia. apply not_true_iff_false. rewrite window_spec.
    intros (d & _ & Hd). rewrite Z.bits_above_log2 in Hd by lia. done.
Qed.

Lemma lor_shiftr_nonneg x k : 0 ≤ x → 0 ≤ Z.lor x (Z.shiftr x k).
Proof. intros. apply Z.lor_nonneg. split; [done|]. by apply Z.shiftr_nonneg. Qed.

Lemma next_power_of_2_spec n : 0 < n ≤ 2 ^ 63 → next_power_of_2 n = 2 ^ Z.log2_up n.
Proof.
  intros Hn. destruct (decide (n = 1)) as [->|Hn1]; [reflexivity|].
  unfold next_power_of_2. rewrite (u64_small (n - 1)) by (unfold u64_max; lia).
  set (v := n - 1).
  assert (smeared v 1 v) as H0.
  { intros i Hi. unfold window. cbn. by rewrite orb_false_r, Z.add_0_r. }
  cbn zeta. set (v1 := Z.lor v (Z.shiftr v 1)).
  set (v2 := Z.lor v1 (Z.shiftr v1 2)). set (v3 := Z.lor v2 (Z.shiftr v2 4)).
  set (v4 := Z.lor v3 (Z.shiftr v3 8)). set (v5 := Z.lor v4 (Z.shiftr v4 16)).
  set (v6 := Z.lor v5 (Z.shiftr v5 32)).
  pose proof (smear_double v 1 v H0 : smeared v 2 v1) as H1.
  pose proof (smear_double v 2 v1 H1 : smeared v 4 v2) as H2.
  pose proof (smear_double v 4 v2 H2 : smeared v 8 v3) as H3.
  pose proof (smear_double v 8 v3 H3 : smeared v 16 v4) as H4.
  pose proof (smear_double v 16 v4 H4 : smeared v 32 v5) as H5.
  pose proof (smear_double v 32 v5 H5 : smeared v 64 v6) as H6.
  apply smeared_ones in H6.
  2:{ unfold v; lia. }
  2:{ do 6 apply lor_shiftr_nonneg. unfold v. lia. }
  rewrite H6. rewrite Z.log2_up_eqn by lia. replace (Z.pred n) with v by (unfold v; lia).
  apply u64_small. unfold u64_max. change 18446744073709551615 with (2 ^ 64 - 1).
  assert (Z.log2 v < 63) by (apply Z.log2_lt_pow2; unfold v; lia).
  pose proof (Z.log2_nonneg v).
  assert (2 ^ (Z.log2 v + 1) ≤ 2 ^ 63) by (apply Z.pow_le_mono_r; lia).
  pose proof (Z.pow_nonneg 2 (Z.log2 v + 1)). lia.
Qed.

(** On powers of two the function returns the exponent, that is, the number of
    trailing zeros. *)
Lemma clz_power_2_spec k : 0 ≤ k < 64 → clz_power_2 (2 ^ k) = k.
Proof.
  intros Hk. rewrite <- (Z2Nat.id k) by lia. assert (Z.to_nat k < 64)%nat as Hn by lia.
  revert Hn. generalize (Z.to_nat k). clear. intros n Hn.
  do 64 (destruct n as [|n]; [vm_compute; reflexivity|]). lia.
Qed.

Lemma max_depth_spec n : 0 < n ≤ 2 ^ 63 → calcluate_max_depth n = Z.log2_up n + 1.
Proof.
  intros Hn. unfold calcluate_max_depth. destruct (Z.eqb_spec n 0); [lia|].
  rewrite next_power_of_2_spec by done. rewrite clz_power_2_spec; [done|].
  split; [apply Z.log2_up_nonneg|].
  apply Z.le_lt_trans with (Z.log2_up (2 ^ 63)); [apply Z.log2_up_le_mono; lia|].
  rewrite Z.log2_up_pow2; lia.
Qed.

(** ** Levels of the tree *)

Section Levels.
Variable hash : digest_type * digest_type → digest_type.
#[local] Abbreviation nd := (node hash).
Implicit Types l : list digest_type.

(** The fully realized nodes of the next level: pairs of neighbours. *)
Fixpoint pairs l : list digest_type :=
  match l with
  | a :: b :: l => nd a b :: pairs l
  | _ => []
  end.

(** The nodes of the next level when an odd last node is paired with itself. *)
Fixpoint level l : list digest_type :=
  match l with
  | a :: b :: l => nd a b :: level l
  | [a] => [nd a a]
  | [] => []
  end.

Lemma length_pairs l : length (pairs l) = (length l / 2)%nat.
Proof.
  induction l as [|a|a b l IH] using list_ind2; [done|done|].
  cbn [pairs length]. rewrite IH.
  replace (S (S (length l))) with (length l + 1 * 2)%nat by lia.
  rewrite Nat.div_add by lia. lia.
Qed.

Lemma length_level l : length (level l) = ((length l + 1) / 2)%nat.
Proof.
  induction l as [|a|a b l IH] using list_ind2; [done|done|].
  cbn [level length]. rewrite IH.
  replace (S (S (length l)) + 1)%nat with (length l + 1 + 1 * 2)%nat by lia.
  rewrite Nat.div_add by lia. lia.
Qed.

(** Appending a leaf: the last node of the level is the only one that moves. *)
Lemma level_snoc_even l x : Nat.even (length l) = true →
  level (l ++ [x]) = pairs l ++ [nd x x] ∧ pairs (l ++ [x]) = pairs l.
Proof.
  induction l as [|a|a b l IH] using list_ind2; cbn; [done|done|].
  intros [-> ->]%IH. done.
Qed.

Lemma level_snoc_odd l y x : Nat.even (length l) = true →
  level ((l ++ [y]) ++ [x]) = pairs (l ++ [y]) ++ [nd y x] ∧
  pairs ((l ++ [y]) ++ [x]) = pairs (l ++ [y]) ++ [nd y x].
Proof.
  induction l as [|a|a b l IH] using list_ind2; cbn; [done|done|].
  intros [-> ->]%IH. done.
Qed.

(** The active nodes of the lowest [d] levels: where a level has an odd number
    of realized nodes, its last one. *)
Fixpoint actives (d : nat) l : list digest_type :=
  match d with
  | O => []
  | S d => (if Nat.odd (length l) then [default digest0 (last l)] else []) ++ actives d (pairs l)
  end.

Fixpoint levels (d : nat) l : list digest_type :=
  match d with O => l | S d => levels d (level l) end.

Lemma index_step n : Z.shiftr (Z.of_nat n) 1 = Z.of_nat (n / 2).
Proof. rewrite Z.shiftr_div_pow2, Nat2Z.inj_div by lia. done. Qed.

Lemma index_even n : (Z.land (Z.of_nat n) 1 =? 0) = Nat.even n.
Proof.
  change 1 with (Z.ones 1). rewrite Z.land_ones by lia. rewrite Zmod_even.
  destruct (Nat.even n) eqn:E.
  - apply Nat.even_spec in E as [k ->]. rewrite Nat2Z.inj_mul. 
    replace (Z.even (Z.of_nat 2 * Z.of_nat k)) with true; [done|].
    symmetry. apply Z.even_spec. by exists (Z.of_nat k).
  - rewrite <- Nat.negb_odd in E. apply negb_false_iff, Nat.odd_spec in E as [k ->].
    replace (Z.even (Z.of_nat (2 * k + 1))) with false; [done|].
    symmetry. rewrite <- Z.negb_odd. apply negb_false_iff, Z.odd_spec. exists (Z.of_nat k). lia.
Qed.

(** The loop of [append], from a level whose realized nodes are [l] and whose
    last node is [top]: it never reads past the active nodes, ends with the
    last node [d] levels up, and collects the new active nodes. *)
Lemma append_loop_spec d l top partial extra updated :
  ∃ top', append_loop hash d (Z.of_nat (length l)) top partial (actives d l ++ extra) updated
    = Ok (top', updated ++ actives d (if partial then l else l ++ [top])) ∧
    last (levels d (l ++ [top])) = Some top'.
Proof.
  revert l top partial updated. induction d as [|d IH]; intros l top partial updated.
  { exists top. cbn. by rewrite app_nil_r, last_snoc. }
  cbn [append_loop actives levels]. rewrite index_even, index_step.
  destruct (Nat.even (length l)) eqn:E.
  - rewrite <- Nat.negb_even, E. cbn [negb app].
    destruct (level_snoc_even l top E) as [-> Hp]. rewrite <- length_pairs.
    destruct (IH (pairs l) (nd top top) true
                (if partial then updated else updated ++ [top])) as (t & -> & Ht).
    exists t. split; [|done]. do 2 f_equal. destruct partial; rewrite <- Nat.negb_even.
    + by rewrite E.
    + rewrite length_app. cbn [length]. rewrite Nat.add_1_r, Nat.even_succ, <- Nat.negb_even, E.
      cbn. by rewrite last_snoc, Hp, <- app_assoc.
  - rewrite <- Nat.negb_even, E. cbn [negb].
    destruct l as [|y l _] using rev_ind; [done|].
    rewrite last_snoc. cbn [default id app].
    assert (Nat.even (length l) = true) as El.
    { rewrite length_app, Nat.add_1_r, Nat.even_succ, <- Nat.negb_even in E. cbn [length] in E.
      by apply negb_false_iff in E. }
    destruct (level_snoc_odd l y top El) as [-> Hp]. rewrite <- length_pairs.
    destruct (IH (pairs (l ++ [y])) (nd y top) partial
                (if partial then updated ++ [y] else updated)) as (t & -> & Ht).
    exists t. split; [|done]. do 2 f_equal. destruct partial; rewrite <- Nat.negb_even.
    + rewrite E, last_snoc. cbn. by rewrite <- app_assoc.
    + rewrite length_app. cbn [length]. rewrite Nat.add_1_r, Nat.even_succ, <- Nat.negb_even, E.
      cbn. by rewrite Hp.
Qed.

(** *** The in-place pass computes the level *)

Lemma pairs_lookup l i : (2 * i + 1 < length l)%nat →
  pairs l !! i = Some (nd (default digest0 (l !! (2 * i)%nat))
                          (default digest0 (l !! (2 * i + 1)%nat))).
Proof.
  revert i. induction l as [|a|a b l IH] using list_ind2; intros i Hi; cbn in Hi; [lia|lia|].
  destruct i as [|i]; [done|]. cbn [pairs lookup list_lookup].
  rewrite IH by lia. replace (2 * S i)%nat with (S (S (2 * i))) by lia. done.
Qed.

Lemma merkle_pass_spec n i ids : (i + n = length (pairs ids))%nat →
  merkle_pass hash n i (take i (pairs ids) ++ drop i ids)
  = pairs ids ++ drop (length (pairs ids)) ids.
Proof.
  revert i. induction n as [|n IH]; intros i Hi.
  { rewrite Nat.add_0_r in Hi. cbn. by rewrite Hi, take_ge by lia. }
  assert (2 * i + 1 < length ids)%nat as Hlt.
  { rewrite length_pairs in Hi. pose proof (Nat.Div0.mul_div_le (length ids) 2). lia. }
  assert (length (take i (pairs ids)) = i) as Hti by (rewrite length_take; lia).
  cbn [merkle_pass]. rewrite !lookup_app_r, Hti, !lookup_drop by lia.
  replace (i + (2 * i - i))%nat with (2 * i)%nat by lia.
  replace (i + (2 * i + 1 - i))%nat with (2 * i + 1)%nat by lia.
  pose proof (pairs_lookup ids i Hlt) as Hp.
  rewrite <- (IH (S i)) by lia. f_equal.
  rewrite (take_S_r _ _ _ Hp), <- app_assoc.
  rewrite insert_app_r_alt, Hti, Nat.sub_diag by lia. f_equal.
  destruct (lookup_lt_is_Some_2 ids i ltac:(lia)) as [x Hx].
  by rewrite (drop_S ids x i Hx).
Qed.

Lemma level_even l : Nat.even (length l) = true → level l = pairs l.
Proof. induction l as [|a|a b l IH] using list_ind2; cbn; [done|done|]. by intros ->%IH. Qed.

Lemma merkle_level_spec ids : merkle_level hash ids = level ids.
Proof.
  unfold merkle_level.
  assert (∀ ids, take (length ids / 2) (merkle_pass hash (length ids / 2) 0 ids) = pairs ids) as Hp.
  { clear ids. intros ids. rewrite <- length_pairs.
    pose proof (merkle_pass_spec (length (pairs ids)) 0 ids eq_refl) as H.
    rewrite take_0, drop_0 in H. cbn [app] in H. rewrite H. by rewrite take_app_length. }
  rewrite <- Nat.negb_even. destruct (Nat.even (length ids)) eqn:E; cbn [negb].
  - by rewrite Hp, level_even.
  - rewrite Hp. destruct ids as [|x ids _] using rev_ind; [done|]. rewrite last_snoc. cbn [default id].
    assert (Nat.even (length ids) = true) as El.
    { rewrite length_app, Nat.add_1_r, Nat.even_succ, <- Nat.negb_even in E. cbn [length] in E.
      by apply negb_false_iff in E. }
    destruct (level_snoc_odd ids x x El) as [_ ->].
    by destruct (level_snoc_even ids x El) as [-> ->].
Qed.

(** *** The loop of [merkle] reaches the single node [d] levels up *)

Definition fits (d n : nat) : Prop := (0 < n ≤ 2 ^ d)%nat ∧ (d = 0%nat ∨ 2 ^ (d - 1) < n)%nat.

Lemma fits_S d n : fits (S d) n → (1 < n)%nat ∧ fits d ((n + 1) / 2).
Proof.
  unfold fits. cbn [Nat.sub]. rewrite Nat.sub_0_r. intros [[Hn Hle] Hor].
  assert (2 ^ d < n)%nat as Hlt by (destruct Hor; [done|lia]).
  pose proof (Nat.pow_nonzero 2 d). rewrite Nat.pow_succ_r' in Hle.
  split; [lia|]. pose proof (Nat.div_mod_eq (n + 1) 2). pose proof (Nat.mod_upper_bound (n + 1) 2).
  split; [lia|]. destruct d as [|d]; [by left|right].
  cbn [Nat.sub]. rewrite Nat.sub_0_r. rewrite Nat.pow_succ_r' in *. lia.
Qed.

Lemma merkle_loop_levels d fuel ids : fits d (length ids) → (length ids ≤ fuel)%nat →
  ∃ r, levels d ids = [r] ∧ merkle_loop hash fuel ids = Some r.
Proof.
  revert fuel ids. induction d as [|d IH]; intros fuel ids Hf Hle.
  - destruct Hf as [[H0 H1] _]. destruct ids as [|r [|]]; cbn in *; [lia| |lia].
    destruct fuel; [lia|]. by exists r.
  - apply fits_S in Hf as [Hlt Hf]. destruct fuel as [|fuel]; [lia|].
    cbn [levels merkle_loop]. rewrite bool_decide_eq_true_2 by lia.
    rewrite merkle_level_spec. rewrite <- length_level in Hf. apply IH; [done|].
    rewrite length_level. pose proof (Nat.div_mod_eq (length ids + 1) 2). lia.
Qed.

(** *** The active nodes between two appends *)

Lemma actives_full d l r : length l = (2 ^ d)%nat → levels d l = [r] →
  actives (S d) l = actives d l ++ [r].
Proof.
  revert l. induction d as [|d IH]; intros l Hlen Hl.
  - cbn in *. destruct l as [|x [|]]; [done| |done]. by injection Hl as ->.
  - cbn [levels] in Hl. rewrite Nat.pow_succ_r' in Hlen.
    assert (Nat.even (length l) = true) as E by (rewrite Hlen; apply Nat.even_spec; by eexists).
    rewrite level_even in Hl by done. cbn [actives]. rewrite <- Nat.negb_even, E. cbn [negb app].
    apply IH; [|done]. rewrite length_pairs, Hlen, Nat.mul_comm. apply Nat.div_mul. lia.
Qed.

(** Depth of the tree over [n] leaves, as the code computes it. *)
Definition depth (n : nat) : nat := Z.to_nat (Z.log2_up (Z.of_nat n)).

Lemma depth_fits n : (0 < n)%nat → fits (depth n) n.
Proof.
  intros Hn. unfold fits, depth. destruct (decide (n = 1%nat)) as [->|H1].
  { change (Z.to_nat (Z.log2_up (Z.of_nat 1))) with 0%nat. cbn. split; [lia|by left]. }
  pose proof (Z.log2_up_spec (Z.of_nat n) ltac:(lia)) as [Hlo Hhi].
  pose proof (Z.log2_up_pos (Z.of_nat n) ltac:(lia)) as Hpos.
  set (k := Z.log2_up (Z.of_nat n)) in *.
  assert (Z.of_nat (2 ^ Z.to_nat k) = 2 ^ k) as E1.
  { rewrite Nat2Z.inj_pow. f_equal. lia. }
  assert (Z.of_nat (2 ^ (Z.to_nat k - 1)) = 2 ^ Z.pred k) as E2.
  { rewrite Nat2Z.inj_pow. f_equal. lia. }
  split; [split; [done|]; apply Nat2Z.inj_le; by rewrite E1|].
  right. apply Nat2Z.inj_lt. by rewrite E2.
Qed.

Lemma fits_unique d n : fits d n → depth n = d.
Proof.
  intros [[Hn Hle] Hor]. unfold depth.
  destruct Hor as [->|Hlt]; [assert (n = 1%nat) as -> by (cbn in *; lia); done|].
  destruct d as [|d]; [cbn in *; lia|]. cbn [Nat.sub] in Hlt. rewrite Nat.sub_0_r in Hlt.
  rewrite (Z.log2_up_unique (Z.of_nat n) (Z.of_nat (S d))); [lia|lia|].
  rewrite Nat2Z.inj_succ, Z.pred_succ.
  apply inj_lt in Hlt. apply inj_le in Hle. rewrite Nat2Z.inj_pow in Hlt, Hle.
  rewrite (Nat2Z.inj_succ d) in Hle. change (Z.of_nat 2) with 2 in *. done.
Qed.

(** What [_active_nodes] and [_node_count] hold after the leaves [l]. *)
Definition represents l (m : incremental_merkle) : Prop :=
  node_count m = Z.of_nat (length l) ∧
  match l with
  | [] => active_nodes m = []
  | _ => ∃ r, levels (depth (length l)) l = [r] ∧
              active_nodes m = actives (depth (length l)) l ++ [r]
  end.

Lemma represents_actives l m : represents l m →
  ∃ extra, active_nodes m = actives (depth (S (length l))) l ++ extra.
Proof.
  intros [_ H]. destruct l as [|x l']; [by exists []|]. remember (x :: l') as l eqn:El.
  destruct H as (r & Hl & ->).
  assert (0 < length l)%nat as Hpos by (subst; cbn; lia).
  pose proof (depth_fits _ Hpos) as Hf. destruct (decide (length l = 2 ^ depth (length l))%nat) as [E|E].
  - replace (depth (S (length l))) with (S (depth (length l))).
    + exists []. rewrite app_nil_r. symmetry. by apply actives_full.
    + symmetry. apply fits_unique. unfold fits. cbn [Nat.sub]. rewrite Nat.sub_0_r.
      rewrite Nat.pow_succ_r', <- E. split; [lia|]. right. lia.
  - replace (depth (S (length l))) with (depth (length l)); [by eexists|].
    symmetry. apply fits_unique. destruct Hf as [Hle [H0|Hlt]].
    + rewrite H0 in *. cbn in *. lia.
    + split; [lia|]. right. lia.
Qed.

Lemma append_represents l m x : represents l m → Z.of_nat (length l) < 2 ^ 63 →
  ∃ m', append hash m x = Ok m' ∧ represents (l ++ [x]) m'.
Proof.
  intros Hr Hlen. destruct (represents_actives l m Hr) as [extra Ha]. destruct Hr as [Hc _].
  assert (u64 (node_count m + 1) = Z.of_nat (S (length l))) as Hu.
  { rewrite Hc. rewrite u64_small; [lia|]. unfold u64_max. lia. }
  unfold append. rewrite Hu, max_depth_spec by lia. rewrite Z.add_simpl_r.
  fold (depth (S (length l))). rewrite Ha, Hc.
  destruct (append_loop_spec (depth (S (length l))) l x false extra []) as (t & -> & Ht).
  eexists. split; [reflexivity|]. split; cbn [node_count active_nodes].
  { rewrite length_app. cbn [length]. f_equal. lia. }
  assert (length (l ++ [x]) = S (length l)) as El by (rewrite length_app; cbn; lia).
  assert (∃ r, levels (depth (length (l ++ [x]))) (l ++ [x]) = [r] ∧
     actives (depth (S (length l))) (l ++ [x]) ++ [t]
     = actives (depth (length (l ++ [x]))) (l ++ [x]) ++ [r]) as Hgoal; [|by destruct l].
  pose proof (depth_fits (length (l ++ [x])) ltac:(lia)) as Hf.
  destruct (merkle_loop_levels _ (length (l ++ [x])) _ Hf ltac:(lia)) as (r & Hr & _).
  exists r. split; [done|]. rewrite El in *. rewrite Hr in Ht. by injection Ht as ->.
Qed.

Lemma append_all_represents l2 l1 m : represents l1 m →
  Z.of_nat (length l1 + length l2) ≤ 2 ^ 63 →
  ∃ m', fold_result (append hash) m l2 = Ok m' ∧ represents (l1 ++ l2) m'.
Proof.
  revert l1 m. induction l2 as [|x l2 IH]; intros l1 m Hr Hlen; cbn [fold_result length] in *.
  { exists m. by rewrite app_nil_r. }
  destruct (append_represents l1 m x Hr) as (m1 & E & Hr1); [lia|]. rewrite E.
  destruct (IH (l1 ++ [x]) m1 Hr1) as (m' & E' & Hr').
  { rewrite length_app. cbn. lia. }
  exists m'. split; [done|]. by rewrite <- app_assoc in Hr'.
Qed.

Lemma represents_root l m : represents l m → merkle hash l = Some (get_root m).
Proof.
  intros [Hc H]. unfold merkle, get_root. destruct l as [|x l']; cbn in Hc.
  { by rewrite Hc. }
  remember (x :: l') as l eqn:El. destruct H as (r & Hl & ->).
  assert (0 < length l)%nat as Hpos by (subst; cbn; lia).
  rewrite bool_decide_eq_false_2 by lia.
  destruct (Z.ltb_spec 0 (node_count m)); [|lia]. rewrite last_snoc. cbn.
  destruct (merkle_loop_levels _ (length l) _ (depth_fits _ Hpos) ltac:(lia)) as (r' & Hr' & ->).
  congruence.
Qed.
End Levels.

(** C27: appending digests one at a time keeps the root that the batch function
    computes over the whole vector, and never reads past the stored nodes. *)
Theorem incremental_root_is_merkle hash (ids : list digest_type) :
  Z.of_nat (length ids) ≤ 2 ^ 63 →
  ∃ m, fold_result (append hash) incremental_merkle0 ids = Ok m
       ∧ node_count m = Z.of_nat (length ids)
       ∧ merkle hash ids = Some (get_root m).
Proof.
  intros Hlen. destruct (append_all_represents hash ids [] incremental_merkle0) as (m & E & Hr).
  { done. }
  { done. }
  exists m. split; [done|]. split; [by apply Hr|]. by apply represents_root.
Qed.

(** The depth of the implied tree is one more than the rounded-up binary
    logarithm of the number of leaves, for every count up to [2 ^ 63]. *)
Theorem max_depth_is_log2 (n : Z) :
  0 < n ≤ 2 ^ 63 → calcluate_max_depth n = Z.log2_up n + 1
                   ∧ next_power_of_2 n = 2 ^ Z.log2_up n.
Proof. intros Hn. split; [by apply max_depth_spec|by apply next_power_of_2_spec]. Qed.

(** A toy digest to evaluate the model with. *)
Definition toy_hash (p : digest_type * digest_type) : digest_type :=
  let '(l, r) := p in
  mk_digest (u64 (3 * hash0 l + 5 * hash0 r + 7)) (u64 (hash1 l + 11 * hash1 r + 1)) 0 0.

Definition leaf (z : Z) : digest_type := mk_digest z z 0 0.

Lemma incremental_root_is_merkle_witness :
  ∃ m, fold_result (append toy_hash) incremental_merkle0 (leaf <$> [1; 2; 3; 4; 5]) = Ok m
       ∧ node_count m = Z.of_nat (length (leaf <$> [1; 2; 3; 4; 5]))
       ∧ merkle toy_hash (leaf <$> [1; 2; 3; 4; 5]) = Some (get_root m).
Proof.
  apply (incremental_root_is_merkle toy_hash (leaf <$> [1; 2; 3; 4; 5])).
  vm_compute. discriminate.
Defined.

Lemma max_depth_is_log2_witness :
  calcluate_max_depth 5 = Z.log2_up 5 + 1 ∧ next_power_of_2 5 = 2 ^ Z.log2_up 5.
Proof. apply (max_depth_is_log2 5). lia. Defined.

(** The canonical halves of a pair are told apart by one bit. *)
Lemma canonical_pair_sides l r :
  is_canonical_left (make_canonical_pair l r).1 = true ∧
  is_canonical_right (make_canonical_pair l r).2 = true.
Proof.
  unfold is_canonical_left, is_canonical_right. cbn.
  rewrite <- Z.land_assoc, Z.land_0_r. split; [done|].
  rewrite Z.land_lor_distr_l. apply negb_true_iff, Z.eqb_neq. intros H.
  apply Z.lor_eq_0_iff in H as [_ H]. discriminate H.
Qed.

(** The comment above [clz_power_2] promises leading zeros; [2 ^ 4] has
    fifty-nine of them. *)
Example clz_counts_trailing : clz_power_2 16 = 4.
Proof. reflexivity. Qed.

End Merkle.
