(* ===== verification/BlockHeader.v ===== *)
(** * Block headers

    - [Timestamp]: [include/eosio/chain/block_timestamp.hpp];
    - [Schedule]: [include/eosio/chain/producer_schedule.hpp];
    - [Header]: [include/eosio/chain/block_header.hpp] and [block_header.cpp].

    What the code takes from the crypto layer (digests of a serialized header,
    schedule or pair, and the key recovered from a signature) is the class
    [ChainCrypto]. *)

From S2P Require Import Prelude Exceptions Name Merkle.

Module config.
(** Values of the default build ([build.sh]) substituted in [config.hpp.in]. *)
Definition block_interval_ms : Z := 500.
Definition block_timestamp_epoch : Z := 946684800000.
Definition producer_repetitions : Z := 6.
Definition max_producers : Z := 17.
Definition maximum_tracked_dpos_confirmations : nat := 1024.
Definition system_account_name : Z := Name.N "bacc".
Definition token_account_name : Z := Name.N "bacc.token".
Definition msig_account_name : Z := Name.N "bacc.msig".
Definition bios_account_name : Z := Name.N "bacc.bios".
Definition eosio_any_name : Z := Name.N "bacc.any".
Definition active_name : Z := Name.N "active".
Definition owner_name : Z := Name.N "owner".
Definition rate_limiting_precision : Z := 1000 * 1000.
End config.

Abbreviation account_name := Z (only parsing).
(** Keys and signatures are opaque to this code: a number stands for each, and
    [public_key_type()] is zero. *)
Abbreviation public_key_type := Z (only parsing).
Abbreviation signature_type := Z (only parsing).
Definition public_key0 : public_key_type := 0.

Module Timestamp.

(** A [block_timestamp] is its slot. *)
Definition maximum : Z := 0xffff.

Definition next (slot : Z) : result exn Z :=
  eos_assert (1 <=? u32_max - slot) fc_overflow_exception ;;
  mret (slot + 1).

(** [operator fc::time_point]: microseconds since the Unix epoch. *)
Definition to_time_point (slot : Z) : Z :=
  let msec := i64 (slot * config.block_interval_ms) in
  let msec := i64 (u64 (msec + config.block_timestamp_epoch)) in
  i64 (msec * 1000).

(** [set_time_point( const fc::time_point& )]. *)
Definition of_time_point (micro_since_epoch : Z) : Z :=
  let msec_since_epoch := Z.quot micro_since_epoch 1000 in
  u32 (u64 (msec_since_epoch - config.block_timestamp_epoch) / config.block_interval_ms).

(** [set_time_point( const fc::time_point_sec& )]. *)
Definition of_time_point_sec (sec_since_epoch : Z) : Z :=
  u32 (u64 (sec_since_epoch * 1000 - config.block_timestamp_epoch) / config.block_interval_ms).

Lemma to_time_point_val slot : 0 ≤ slot ≤ u32_max →
  to_time_point slot = (slot * 500 + 946684800000) * 1000.
Proof.
  intros Hs. unfold to_time_point, config.block_interval_ms, config.block_timestamp_epoch.
  unfold u32_max in *. rewrite (i64_small (slot * 500)) by (unfold i64_min, i64_max; lia).
  rewrite u64_small by (unfold u64_max; lia).
  rewrite (i64_small (slot * 500 + 946684800000)) by (unfold i64_min, i64_max; lia).
  apply i64_small. unfold i64_min, i64_max; lia.
Qed.

(** A slot survives the trip through a time point. *)
Theorem timestamp_roundtrip (slot : Z) :
  0 ≤ slot ≤ u32_max → of_time_point (to_time_point slot) = slot.
Proof.
  intros Hs. rewrite to_time_point_val by done. unfold of_time_point.
  rewrite Z.quot_mul by lia. unfold config.block_timestamp_epoch, config.block_interval_ms.
  rewrite Z.add_simpl_r. unfold u32_max in *. rewrite u64_small by (unfold u64_max; lia).
  rewrite Z.div_mul by lia. by apply u32_small.
Qed.

Lemma timestamp_roundtrip_witness : of_time_point (to_time_point 1000000000) = 1000000000.
Proof. apply (timestamp_roundtrip 1000000000). unfold u32_max; lia. Defined.

(** [maximum()] is below slots that are in use: it is the largest 16-bit slot,
    nine hours after the epoch. *)
Example maximum_is_not_maximal : maximum < of_time_point 1546300800000000.
Proof. vm_compute. reflexivity. Qed.

End Timestamp.

Module Schedule.

Record producer_key : Type := mk_producer_key
  { producer_name : account_name; block_signing_key : public_key_type }.

#[export] Instance producer_key_eq_dec : EqDecision producer_key.
Proof. solve_decision. Defined.

Record producer_schedule_type : Type := mk_schedule
  { version : Z; producers : list producer_key }.

#[export] Instance schedule_eq_dec : EqDecision producer_schedule_type.
Proof. solve_decision. Defined.

Definition producer_schedule0 : producer_schedule_type := mk_schedule 0 [].

Fixpoint find_key (l : list producer_key) (p : account_name) : public_key_type :=
  match l with
  | [] => public_key0
  | i :: l => if producer_name i =? p then block_signing_key i else find_key l p
  end.

Definition get_producer_key (s : producer_schedule_type) (p : account_name) : public_key_type :=
  find_key (producers s) p.

(** [shared_producer_schedule_type::operator=] and its conversion back copy the
    version and push the producers one by one. *)
Definition copy_schedule (a : producer_schedule_type) : producer_schedule_type :=
  mk_schedule (version a) (foldl (fun l p => l ++ [p]) [] (producers a)).

(** [operator==] of schedules: version, size, then element by element. *)
Fixpoint same_producers (a b : list producer_key) : bool :=
  match a, b with
  | x :: a, y :: b =>
      (producer_name x =? producer_name y) && (block_signing_key x =? block_signing_key y)
      && same_producers a b
  | _, _ => true
  end.

Definition schedule_eqb (a b : producer_schedule_type) : bool :=
  if negb (version a =? version b) then false
  else if negb (bool_decide (length (producers a) = length (producers b))) then false
  else same_producers (producers a) (producers b).

Lemma copy_schedule_id a : copy_schedule a = a.
Proof.
  destruct a as [v l]. unfold copy_schedule. cbn. f_equal.
  enough (∀ acc, foldl (fun l p => l ++ [p]) acc l = acc ++ l) as E by apply E.
  induction l as [|p l IH]; intros acc; cbn; [by rewrite app_nil_r|].
  by rewrite IH, <- app_assoc.
Qed.

Lemma same_producers_eq a b : length a = length b → same_producers a b = true → a = b.
Proof.
  revert b. induction a as [|x a IH]; intros [|y b] Hl H; cbn in *; try done.
  to_prop. rewrite (IH b) by (lia || done). destruct x, y; cbn in *. by subst.
Qed.

Lemma same_producers_refl a : same_producers a a = true.
Proof. induction a as [|x a IH]; cbn; [done|]. by rewrite !Z.eqb_refl, IH. Qed.

(** The loop-based comparison of schedules decides equality. *)
Theorem schedule_eqb_correct (a b : producer_schedule_type) : schedule_eqb a b = true ↔ a = b.
Proof.
  unfold schedule_eqb. split.
  - destruct a as [va la], b as [vb lb]; cbn.
    destruct (Z.eqb_spec va vb); cbn; [|done].
    destruct (bool_decide_reflect (length la = length lb)); cbn; [|done].
    intros. f_equal; [done|]. by apply same_producers_eq.
  - intros ->. rewrite Z.eqb_refl, bool_decide_eq_true_2 by done. apply same_producers_refl.
Qed.

End Schedule.
Import Schedule.

Module Header.

Definition endian_reverse_u32 (x : Z) : Z :=
  Z.lor (Z.lor (Z.lor (Z.land (Z.shiftr x 0x18) 0xFF)
                      (Z.shiftl (Z.land (Z.shiftr x 0x10) 0xFF) 0x08))
               (Z.shiftl (Z.land (Z.shiftr x 0x08) 0xFF) 0x10))
        (Z.shiftl (Z.land x 0xFF) 0x18).

Abbreviation block_id_type := digest_type (only parsing).

Record block_header : Type := mk_header
  { timestamp : Z;
    producer : account_name;
    confirmed : Z;
    previous : block_id_type;
    transaction_mroot : digest_type;
    action_mroot : digest_type;
    schedule_version : Z;
    new_producers : option producer_schedule_type;
    header_extensions : list (Z * list Z) }.

(** A default-constructed header. *)
Definition block_header0 : block_header :=
  mk_header 0 0 1 digest0 digest0 digest0 0 None [].

Record signed_block_header : Type := mk_signed
  { header_of : block_header; producer_signature : signature_type }.

Record header_confirmation : Type := mk_confirmation
  { block_id : block_id_type; conf_producer : account_name; conf_signature : signature_type }.

Definition num_from_id (id : block_id_type) : Z := endian_reverse_u32 (u32 (hash0 id)).

Definition block_num (h : block_header) : Z := u32 (num_from_id (previous h) + 1).

(** The digests and signatures the code relies on. *)
Class ChainCrypto : Type :=
  { (** [digest_type::hash] of a pair of digests *)
    hash_pair : digest_type * digest_type → digest_type;
    (** [digest_type::hash] of a serialized header: [block_header::digest] *)
    header_digest : block_header → digest_type;
    (** [digest_type::hash] of a serialized producer schedule *)
    schedule_digest : producer_schedule_type → digest_type;
    (** [fc::crypto::public_key( sig, digest, true )]; a malformed signature throws *)
    recover_key : signature_type → digest_type → result exn public_key_type }.

Section Id.
Context {C : ChainCrypto}.

Definition id (h : block_header) : block_id_type :=
  let result := header_digest h in
  mk_digest
    (u64 (Z.land (hash0 result) 0xffffffff00000000 + endian_reverse_u32 (block_num h)))
    (hash1 result) (hash2 result) (hash3 result).
End Id.

(** Four bytes, least significant first. *)
Definition bytes4 (a b c d : Z) : Z := a + b * 2 ^ 8 + c * 2 ^ 16 + d * 2 ^ 24.

Lemma bytes4_of x : in_u 32 x → ∃ a b c d, x = bytes4 a b c d ∧
  0 ≤ a < 256 ∧ 0 ≤ b < 256 ∧ 0 ≤ c < 256 ∧ 0 ≤ d < 256.
Proof.
  unfold in_u, bytes4. intros Hx.
  exists (x mod 256), (x / 2 ^ 8 mod 256), (x / 2 ^ 16 mod 256), (x / 2 ^ 24).
  Z.div_mod_to_equations. lia.
Qed.

Lemma lor_add_disjoint h l n : 0 ≤ n → 0 ≤ l < 2 ^ n → Z.lor l (Z.shiftl h n) = l + h * 2 ^ n.
Proof.
  intros Hn Hl. rewrite Z.shiftl_mul_pow2 by done.
  rewrite <- (Z.lxor_lor l (h * 2 ^ n)), Z.add_nocarry_lxor; [done| |].
  all: apply Z.bits_inj'; intros k Hk; rewrite Z.land_spec, Z.bits_0.
  all: destruct (Z.ltb_spec k n);
    [rewrite Z.mul_pow2_bits_low by lia; apply andb_false_r|].
  all: rewrite <- (Z.mod_small l (2 ^ n)), Z.mod_pow2_bits_high by lia; done.
Qed.

Lemma byte_of_shift x k : 0 ≤ k → Z.land (Z.shiftr x k) 0xFF = x / 2 ^ k mod 256.
Proof.
  intros. change 0xFF with (Z.ones 8). by rewrite Z.land_ones, Z.shiftr_div_pow2 by lia.
Qed.

Lemma endian_reverse_bytes a b c d :
  0 ≤ a < 256 → 0 ≤ b < 256 → 0 ≤ c < 256 → 0 ≤ d < 256 →
  endian_reverse_u32 (bytes4 a b c d) = bytes4 d c b a.
Proof.
  intros Ha Hb Hc Hd. unfold endian_reverse_u32.
  rewrite !byte_of_shift by lia. change (Z.land (bytes4 a b c d) 0xFF) with
    (Z.land (Z.shiftr (bytes4 a b c d) 0) 0xFF). rewrite byte_of_shift by lia.
  assert (bytes4 a b c d / 2 ^ 24 mod 256 = d) as ->.
  { unfold bytes4. Z.div_mod_to_equations. lia. }
  assert (bytes4 a b c d / 2 ^ 16 mod 256 = c) as ->.
  { unfold bytes4. Z.div_mod_to_equations. lia. }
  assert (bytes4 a b c d / 2 ^ 8 mod 256 = b) as ->.
  { unfold bytes4. Z.div_mod_to_equations. lia. }
  assert (bytes4 a b c d / 2 ^ 0 mod 256 = a) as ->.
  { unfold bytes4. Z.div_mod_to_equations. lia. }
  rewrite (lor_add_disjoint c d 8), (lor_add_disjoint b _ 16), (lor_add_disjoint a _ 24) by lia.
  unfold bytes4. lia.
Qed.

Lemma endian_reverse_involutive x : in_u 32 x →
  endian_reverse_u32 (endian_reverse_u32 x) = x ∧ in_u 32 (endian_reverse_u32 x).
Proof.
  intros (a & b & c & d & -> & Ha & Hb & Hc & Hd)%bytes4_of.
  rewrite !endian_reverse_bytes by done. split; [done|]. unfold in_u, bytes4. lia.
Qed.

(** A block id carries its block number: reading the number back from the
    id of a header gives the number after its predecessor's. *)
Theorem num_from_id_id {C : ChainCrypto} (h : block_header) :
  num_from_id (id h) = block_num h.
Proof.
  unfold num_from_id, id. cbn [hash0].
  assert (in_u 32 (block_num h)) as Hn by (apply wrapu_range; lia).
  destruct (endian_reverse_involutive _ Hn) as [Hinv Hr].
  set (r := endian_reverse_u32 (block_num h)) in *.
  enough (u32 (u64 (Z.land (hash0 (header_digest h)) 0xffffffff00000000 + r)) = r) as -> by done.
  unfold u32, u64, wrapu.
  change 0xffffffff00000000 with (Z.shiftl (Z.ones 32) 32).
  set (x := hash0 (header_digest h)).
  assert (Z.land x (Z.shiftl (Z.ones 32) 32) = (x / 2 ^ 32 mod 2 ^ 32) * 2 ^ 32) as ->.
  { rewrite <- Z.land_ones, <- Z.shiftl_mul_pow2, <- Z.shiftr_div_pow2, Z.shiftl_land by lia.
    apply Z.bits_inj'. intros k Hk. rewrite !Z.land_spec.
    destruct (Z.ltb_spec k 32).
    - rewrite !(Z.shiftl_spec_low _ 32 k) by lia. by rewrite !andb_false_r.
    - rewrite !(Z.shiftl_spec_high _ 32 k) by lia. rewrite Z.shiftr_spec by lia.
      by replace (k - 32 + 32) with k by lia. }
  unfold in_u in Hr. pose proof (Z.mod_pos_bound (x / 2 ^ 32) (2 ^ 32) ltac:(lia)).
  rewrite (Z.mod_small (_ + r)) by lia.
  rewrite Z.add_comm, Z.mod_add by lia. by apply Z.mod_small.
Qed.

End Header.
