(* ===== verification/HeaderState.v ===== *)
(** * The block header state

    [libraries/chain/block_header_state.cpp] and its header: from the state of
    one block, the template of the next ([generate_next]), the validation of a
    signed header ([next]), the confirmation counters of the DPOS
    irreversibility rule ([set_confirmed], [calc_dpos_last_irreversible]) and
    the promotion of a pending producer schedule. *)

From S2P Require Import Prelude Exceptions Name Merkle BlockHeader.
Import Merkle Schedule Header.

Module HeaderState.

Record block_header_state : Type := mk_bhs
  { bhs_id : block_id_type;
    bhs_block_num : Z;
    bhs_header : signed_block_header;
    dpos_proposed_irreversible_blocknum : Z;
    dpos_irreversible_blocknum : Z;
    bft_irreversible_blocknum : Z;
    pending_schedule_lib_num : Z;
    pending_schedule_hash : digest_type;
    pending_schedule : producer_schedule_type;
    active_schedule : producer_schedule_type;
    blockroot_merkle : incremental_merkle;
    producer_to_last_produced : gmap account_name Z;
    producer_to_last_implied_irb : gmap account_name Z;
    state_signing_key : public_key_type;
    confirm_count : list Z;
    confirmations : list header_confirmation }.

Definition signed0 : signed_block_header := mk_signed block_header0 0.

(** The header without its signature. *)
Definition hdr (s : block_header_state) : block_header := header_of (bhs_header s).

(** *** Assignments to single members *)

Definition set_header (h : signed_block_header) (s : block_header_state) : block_header_state :=
  match s with
  | mk_bhs i n _ dp di bi pl ph ps ac bm p2p p2i k cc cf =>
      mk_bhs i n h dp di bi pl ph ps ac bm p2p p2i k cc cf
  end.
Definition set_id (i : block_id_type) (s : block_header_state) : block_header_state :=
  match s with
  | mk_bhs _ n h dp di bi pl ph ps ac bm p2p p2i k cc cf =>
      mk_bhs i n h dp di bi pl ph ps ac bm p2p p2i k cc cf
  end.
Definition set_confirmations (cf : list header_confirmation) (s : block_header_state)
    : block_header_state :=
  match s with
  | mk_bhs i n h dp di bi pl ph ps ac bm p2p p2i k cc _ =>
      mk_bhs i n h dp di bi pl ph ps ac bm p2p p2i k cc cf
  end.
Definition set_bft (b : Z) (s : block_header_state) : block_header_state :=
  match s with
  | mk_bhs i n h dp di _ pl ph ps ac bm p2p p2i k cc cf =>
      mk_bhs i n h dp di b pl ph ps ac bm p2p p2i k cc cf
  end.
Definition set_counts (dp : Z) (cc : list Z) (s : block_header_state) : block_header_state :=
  match s with
  | mk_bhs i n h _ di bi pl ph ps ac bm p2p p2i k _ cf =>
      mk_bhs i n h dp di bi pl ph ps ac bm p2p p2i k cc cf
  end.
Definition set_irreversible (p2i : gmap account_name Z) (di : Z) (s : block_header_state)
    : block_header_state :=
  match s with
  | mk_bhs i n h dp _ bi pl ph ps ac bm p2p _ k cc cf =>
      mk_bhs i n h dp di bi pl ph ps ac bm p2p p2i k cc cf
  end.

(** *** Queries *)

Definition is_active_producer (s : block_header_state) (n : account_name) : bool :=
  bool_decide (is_Some (producer_to_last_produced s !! n)).

(** Modulo by an empty schedule and an index past its end have no defined
    behaviour. *)
Definition get_scheduled_producer (s : block_header_state) (t : Z) : result exn producer_key :=
  let n := Z.of_nat (length (producers (active_schedule s))) * config.producer_repetitions in
  if n =? 0 then Err undefined_behavior
  else
    let index := (t mod n) / config.producer_repetitions in
    of_option (producers (active_schedule s) !! Z.to_nat index) undefined_behavior.

(** [calc_dpos_last_irreversible] reads only the implied-irreversible map. *)
Definition dpos_last_irreversible (p2i : gmap account_name Z) : Z :=
  let blocknums := snd <$> ascending p2i in
  if bool_decide (length blocknums = 0%nat) then 0
  else
    let sorted := merge_sort Z.le blocknums in
    default 0 (sorted !! ((length blocknums - 1) / 3)%nat).

Definition calc_dpos_last_irreversible (s : block_header_state) : Z :=
  dpos_last_irreversible (producer_to_last_implied_irb s).

(** *** Confirmations *)

(** The [while] loop of [set_confirmed] at index [n - 1]: the new counters, and
    the block number proposed as irreversible when a counter reaches zero. *)
Fixpoint set_confirmed_loop (block_num : Z) (n : nat) (blocks_to_confirm : Z) (cc : list Z)
    : list Z * option Z :=
  match n with
  | O => (cc, None)
  | S i =>
      if blocks_to_confirm =? 0 then (cc, None)
      else
        let v := u8 (default 0 (cc !! i) - 1) in
        let cc := <[i := v]> cc in
        if v =? 0 then
          let block_num_for_i := u32 (block_num - u32 (Z.of_nat (length cc - 1 - i))) in
          (if bool_decide (i = length cc - 1)%nat then [] else drop (S i) cc, Some block_num_for_i)
        else set_confirmed_loop block_num i (blocks_to_confirm - 1) cc
  end.

Definition set_header_confirmed (c : Z) (h : signed_block_header) : signed_block_header :=
  let b := header_of h in
  mk_signed
    (mk_header (timestamp b) (producer b) c (previous b) (transaction_mroot b) (action_mroot b)
       (schedule_version b) (new_producers b) (header_extensions b))
    (producer_signature h).

Definition set_confirmed (num_prev_blocks : Z) (s : block_header_state) : block_header_state :=
  let s := set_header (set_header_confirmed num_prev_blocks (bhs_header s)) s in
  let blocks_to_confirm := u32 (num_prev_blocks + 1) in
  let '(cc, proposed) :=
    set_confirmed_loop (bhs_block_num s) (length (confirm_count s)) blocks_to_confirm
      (confirm_count s) in
  set_counts (default (dpos_proposed_irreversible_blocknum s) proposed) cc s.

(** *** Schedules *)

(** The two loops of [maybe_promote_pending]. *)
Definition carry_over (old : gmap account_name Z) (lib : Z) (ps : list producer_key)
    : gmap account_name Z :=
  foldl (fun m p =>
           match old !! producer_name p with
           | Some b => <[producer_name p := b]> m
           | None => <[producer_name p := lib]> m
           end) ∅ ps.

Definition maybe_promote_pending (s : block_header_state) : bool * block_header_state :=
  if negb (bool_decide (length (producers (pending_schedule s)) = 0%nat))
     && (pending_schedule_lib_num s <=? dpos_irreversible_blocknum s) then
    let active := pending_schedule s in
    let lib := dpos_irreversible_blocknum s in
    let p2p := carry_over (producer_to_last_produced s) lib (producers active) in
    let p2i := carry_over (producer_to_last_implied_irb s) lib (producers active) in
    let p2p := <[producer (hdr s) := bhs_block_num s]> p2p in
    (* the moved-from pending schedule keeps its version and loses its producers *)
    let pending := mk_schedule (version (pending_schedule s)) [] in
    (true,
     match s with
     | mk_bhs i n h dp di bi pl ph _ _ bm _ _ k cc cf =>
         mk_bhs i n h dp di bi pl ph pending active bm p2p p2i k cc cf
     end)
  else (false, s).

Section WithCrypto.
Context {C : ChainCrypto}.

Definition generate_next (s : block_header_state) (when : Z) : result exn block_header_state :=
  when ← (if negb (when =? 0) then
            eos_assert (timestamp (hdr s) <? when) block_validate_exception ;; mret when
          else mret (u32 (timestamp (hdr s) + 1)));
  prokey ← get_scheduled_producer s when;
  let block_num := u32 (bhs_block_num s + 1) in
  let header :=
    mk_signed (mk_header when (producer_name prokey) 1 (bhs_id s) digest0 digest0
                 (version (active_schedule s)) None []) 0 in
  let p2p := <[producer_name prokey := block_num]> (producer_to_last_produced s) in
  merkle ← append hash_pair (blockroot_merkle s) (bhs_id s);
  let proposed := dpos_proposed_irreversible_blocknum s in
  let p2i := <[producer_name prokey := proposed]> (producer_to_last_implied_irb s) in
  let num_active_producers := Z.of_nat (length (producers (active_schedule s))) in
  let required_confs := u32 (num_active_producers * 2 / 3 + 1) in
  let cc :=
    if bool_decide (length (confirm_count s) < config.maximum_tracked_dpos_confirmations)%nat
    then confirm_count s ++ [u8 required_confs]
    else drop 1 (confirm_count s) ++ [u8 required_confs] in
  mret (mk_bhs digest0 block_num header proposed (dpos_last_irreversible p2i)
          (bft_irreversible_blocknum s) (pending_schedule_lib_num s) (pending_schedule_hash s)
          (pending_schedule s) (active_schedule s) merkle p2p p2i
          (block_signing_key prokey) cc []).

Definition set_new_producers (pending : producer_schedule_type) (s : block_header_state)
    : result exn block_header_state :=
  eos_assert (version pending =? u32 (version (active_schedule s) + 1))
    producer_schedule_exception ;;
  eos_assert (bool_decide (length (producers (pending_schedule s)) = 0%nat))
    producer_schedule_exception ;;
  let b := hdr s in
  let h := mk_signed
             (mk_header (timestamp b) (producer b) (confirmed b) (previous b)
                (transaction_mroot b) (action_mroot b) (schedule_version b) (Some pending)
                (header_extensions b)) (producer_signature (bhs_header s)) in
  mret match s with
       | mk_bhs i n _ dp di bi _ _ _ ac bm p2p p2i k cc cf =>
           mk_bhs i n h dp di bi n (schedule_digest pending) pending ac bm p2p p2i k cc cf
       end.

Definition sig_digest (s : block_header_state) : digest_type :=
  let header_bmroot := hash_pair (header_digest (hdr s), get_root (blockroot_merkle s)) in
  hash_pair (header_bmroot, pending_schedule_hash s).

Definition set_signature (sig : signature_type) (s : block_header_state) : block_header_state :=
  set_header (mk_signed (hdr s) sig) s.

(** [sign]: the signer is whatever the producer plugin passes in. *)
Definition sign (signer : digest_type → signature_type) (s : block_header_state)
    : result exn block_header_state :=
  let d := sig_digest s in
  let s := set_signature (signer d) s in
  k ← recover_key (producer_signature (bhs_header s)) d;
  eos_assert (state_signing_key s =? k) wrong_signing_key ;;
  mret s.

Definition signee (s : block_header_state) : result exn public_key_type :=
  recover_key (producer_signature (bhs_header s)) (sig_digest s).

Definition verify_signee (s : block_header_state) (k : public_key_type) : result exn () :=
  eos_assert (state_signing_key s =? k) wrong_signing_key.

Definition add_confirmation (conf : header_confirmation) (s : block_header_state)
    : result exn block_header_state :=
  eos_assert (forallb (fun c => negb (conf_producer c =? conf_producer conf)) (confirmations s))
    producer_double_confirm ;;
  let key := get_producer_key (active_schedule s) (conf_producer conf) in
  eos_assert (negb (key =? public_key0)) producer_not_in_schedule ;;
  signer ← recover_key (conf_signature conf) (sig_digest s);
  eos_assert (signer =? key) wrong_signing_key ;;
  mret (set_confirmations (confirmations s ++ [conf]) s).

(** The roots and the signature of the received header, and the id of the result. *)
Definition adopt_header (h : signed_block_header) (s : block_header_state) : block_header_state :=
  let b := hdr s in
  let s := set_header
             (mk_signed
                (mk_header (timestamp b) (producer b) (confirmed b) (previous b)
                   (transaction_mroot (header_of h)) (action_mroot (header_of h))
                   (schedule_version b) (new_producers b) (header_extensions b))
                (producer_signature h)) s in
  set_id (id (hdr s)) s.

Definition next (s : block_header_state) (h : signed_block_header) (skip_validate_signee : bool)
    : result exn block_header_state :=
  let hh := header_of h in
  eos_assert (negb (timestamp hh =? 0)) block_validate_exception ;;
  eos_assert (bool_decide (length (header_extensions hh) = 0%nat)) block_validate_exception ;;
  eos_assert (timestamp (hdr s) <? timestamp hh) block_validate_exception ;;
  eos_assert (bool_decide (previous hh = bhs_id s)) unlinkable_block_exception ;;
  result ← generate_next s (timestamp hh);
  eos_assert (producer (hdr result) =? producer hh) wrong_producer ;;
  eos_assert (schedule_version (hdr result) =? schedule_version hh) producer_schedule_exception ;;
  match producer_to_last_produced s !! producer hh with
  | Some last =>
      eos_assert (last <? u32 (bhs_block_num result - confirmed hh)) producer_double_confirm
  | None => Ok ()
  end ;;
  let result := set_confirmed (confirmed hh) result in
  let '(was_pending_promoted, result) := maybe_promote_pending result in
  result ← match new_producers hh with
           | Some np =>
               eos_assert (negb was_pending_promoted) producer_schedule_exception ;;
               set_new_producers np result
           | None => mret result
           end;
  let result := adopt_header h result in
  (if skip_validate_signee then mret ()
   else k ← signee result; verify_signee result k) ;;
  mret result.
End WithCrypto.

(** ** The irreversible block is an order statistic *)

Definition supporters (x : Z) (l : list Z) : nat := length (filter (fun b => x ≤ b) l).

#[export] Instance supporters_perm x : Proper ((≡ₚ) ==> (=)) (supporters x).
Proof. intros l l' Hl. unfold supporters. by rewrite Hl. Qed.

Lemma filter_all_length {A} (P : A → Prop) `{!∀ a, Decision (P a)} (l : list A) :
  Forall P l → length (filter P l) = length l.
Proof.
  induction 1 as [|a l Ha Hl IH]; [done|]. rewrite filter_cons_True by done. cbn. by rewrite IH.
Qed.

Lemma filter_none_length {A} (P : A → Prop) `{!∀ a, Decision (P a)} (l : list A) :
  Forall (fun a => ¬ P a) l → length (filter P l) = 0%nat.
Proof. induction 1 as [|a l Ha Hl IH]; [done|]. by rewrite filter_cons_False. Qed.

(** In a sorted list the element at [i] is at least [x] exactly when all but [i]
    elements are. *)
Lemma sorted_supporters (l : list Z) i r x : StronglySorted Z.le l → l !! i = Some r →
  x ≤ r ↔ (length l - i ≤ supporters x l)%nat.
Proof.
  intros Hs Hi. pose proof (lookup_lt_Some _ _ _ Hi) as Hlt.
  assert (∀ j y, l !! j = Some y → (i ≤ j)%nat → r ≤ y) as Hup.
  { intros j y Hj Hij. destruct (decide (i = j)) as [->|]; [simplify_eq; lia|].
    eapply (StronglySorted_app_1_elem_of Z.le (take (S i) l) (drop (S i) l)).
    - by rewrite take_drop.
    - apply list_elem_of_lookup. exists i. by rewrite lookup_take_lt by lia.
    - apply list_elem_of_lookup. exists (j - S i)%nat. rewrite lookup_drop.
      by replace (S i + (j - S i))%nat with j by lia. }
  assert (∀ j y, l !! j = Some y → (j ≤ i)%nat → y ≤ r) as Hlo.
  { intros j y Hj Hij. destruct (decide (i = j)) as [->|]; [simplify_eq; lia|].
    eapply (StronglySorted_app_1_elem_of Z.le (take i l) (drop i l)).
    - by rewrite take_drop.
    - apply list_elem_of_lookup. exists j. by rewrite lookup_take_lt by lia.
    - apply list_elem_of_lookup. exists 0%nat. by rewrite lookup_drop, Nat.add_0_r. }
  unfold supporters. split; intros Hx.
  - rewrite <- (take_drop i l) at 2. rewrite filter_app, length_app.
    rewrite (filter_all_length _ (drop i l)); [rewrite length_drop; lia|].
    apply Forall_lookup. intros j y. rewrite lookup_drop. intros Hj.
    specialize (Hup _ _ Hj). lia.
  - destruct (decide (x ≤ r)) as [|Hgt]; [done|]. exfalso.
    rewrite <- (take_drop (S i) l) in Hx at 2. rewrite filter_app, length_app in Hx.
    rewrite (filter_none_length _ (take (S i) l)) in Hx.
    + pose proof (length_filter (fun b => x ≤ b) (drop (S i) l)) as Hf.
      rewrite length_drop in Hf. lia.
    + apply Forall_lookup. intros j y [Hj Hji]%lookup_take_Some. specialize (Hlo _ _ Hj). lia.
Qed.

Definition implied (m : gmap account_name Z) : list Z := snd <$> map_to_list m.

Lemma implied_length m : length (implied m) = size m.
Proof. unfold implied. by rewrite length_fmap, length_map_to_list. Qed.

Lemma dpos_lookup m : m ≠ ∅ → ∃ l, l ≡ₚ implied m ∧ StronglySorted Z.le l ∧
  l !! ((size m - 1) / 3)%nat = Some (dpos_last_irreversible m).
Proof.
  intros Hm. unfold dpos_last_irreversible.
  set (bs := snd <$> ascending m).
  assert (bs ≡ₚ implied m) as Hbs by (unfold bs, implied; by rewrite ascending_perm).
  assert (length bs = size m) as Hlen by by rewrite Hbs, implied_length.
  assert (size m ≠ 0%nat) as H0 by by rewrite map_size_non_empty_iff.
  exists (merge_sort Z.le bs). split_and!.
  - by rewrite merge_sort_Permutation.
  - apply StronglySorted_merge_sort; apply _.
  - rewrite Hlen, bool_decide_eq_false_2 by done.
    destruct (lookup_lt_is_Some_2 (merge_sort Z.le bs) ((size m - 1) / 3)) as [r ->]; [|done].
    rewrite merge_sort_Permutation, Hlen.
    apply Nat.le_lt_trans with (size m - 1)%nat; [apply Nat.Div0.div_le_upper_bound; lia|lia].
Qed.

Lemma dpos_ge_iff m x : m ≠ ∅ →
  x ≤ dpos_last_irreversible m ↔ (size m - (size m - 1) / 3 ≤ supporters x (implied m))%nat.
Proof.
  intros Hm. destruct (dpos_lookup m Hm) as (l & Hp & Hs & Hl).
  rewrite (sorted_supporters l _ _ x Hs Hl), Hp, implied_length. done.
Qed.

Lemma dpos_is_implied m : m ≠ ∅ → ∃ k, m !! k = Some (dpos_last_irreversible m).
Proof.
  intros Hm. destruct (dpos_lookup m Hm) as (l & Hp & _ & Hl).
  apply list_elem_of_lookup_2 in Hl. rewrite Hp in Hl. unfold implied in Hl.
  apply list_elem_of_fmap in Hl as ([k b] & -> & Hk). exists k. by apply elem_of_map_to_list.
Qed.

Lemma implied_insert m k b : m !! k = None → implied (<[k := b]> m) ≡ₚ b :: implied m.
Proof. intros Hk. unfold implied. by rewrite map_to_list_insert. Qed.

Lemma supporters_update x m k b b' : m !! k = Some b → b ≤ b' →
  (supporters x (implied m) ≤ supporters x (implied (<[k := b']> m)))%nat.
Proof.
  intros Hk Hb. rewrite <- (insert_delete_id m k b Hk), insert_insert_eq.
  rewrite !implied_insert by apply lookup_delete_eq. unfold supporters.
  destruct (decide (x ≤ b)).
  - rewrite !filter_cons_True by lia. done.
  - rewrite filter_cons_False by done.
    destruct (decide (x ≤ b')); [rewrite filter_cons_True by done|rewrite filter_cons_False by done]; cbn; lia.
Qed.

(** Raising one producer's implied irreversible block cannot lower the result. *)
Lemma dpos_monotone m k b b' : m !! k = Some b → b ≤ b' →
  dpos_last_irreversible m ≤ dpos_last_irreversible (<[k := b']> m).
Proof.
  intros Hk Hb. assert (m ≠ ∅) as Hm by (intros ->; done).
  rewrite dpos_ge_iff by apply insert_non_empty.
  rewrite map_size_insert_Some by by eexists.
  etransitivity; [by apply (dpos_ge_iff m (dpos_last_irreversible m) Hm)|].
  by eapply supporters_update.
Qed.


(** ** The invariant of the header state *)

(** The counters in [confirm_count] belong to the last [length] blocks, all of
    them above the proposed irreversible block; no counter is zero; no producer
    implies a block above the proposed one. *)
Record wf (s : block_header_state) : Prop := mk_wf
  { wf_num : 0 ≤ bhs_block_num s ≤ u32_max;
    wf_proposed : 0 ≤ dpos_proposed_irreversible_blocknum s;
    wf_window : dpos_proposed_irreversible_blocknum s + Z.of_nat (length (confirm_count s))
                ≤ bhs_block_num s;
    wf_counts : Forall (fun c => 0 < c ≤ u8_max) (confirm_count s);
    wf_tracked : (length (confirm_count s) ≤ config.maximum_tracked_dpos_confirmations)%nat;
    wf_implied : map_Forall (fun _ b => 0 ≤ b ≤ dpos_proposed_irreversible_blocknum s)
                   (producer_to_last_implied_irb s);
    wf_active : (length (producers (active_schedule s)) ≤ Z.to_nat config.max_producers)%nat;
    wf_pending : (length (producers (pending_schedule s)) ≤ Z.to_nat config.max_producers)%nat;
    wf_irreversible : 0 ≤ dpos_irreversible_blocknum s ≤ dpos_proposed_irreversible_blocknum s }.

Lemma dpos_bounds m p : 0 ≤ p → map_Forall (fun _ b => 0 ≤ b ≤ p) m →
  0 ≤ dpos_last_irreversible m ≤ p.
Proof.
  intros Hp Hm. destruct (decide (m = ∅)) as [->|Hne].
  - vm_compute dpos_last_irreversible. lia.
  - destruct (dpos_is_implied m Hne) as [k Hk]. exact (Hm k _ Hk).
Qed.

(** *** [generate_next] *)

Section Generate.
Context {C : ChainCrypto}.

Lemma generate_next_inv s when s' : generate_next s when = Ok s' →
  ∃ pk t merkle, get_scheduled_producer s t = Ok pk ∧
    (when ≠ 0 → t = when ∧ timestamp (hdr s) < when) ∧
    append hash_pair (blockroot_merkle s) (bhs_id s) = Ok merkle ∧
    s' = mk_bhs digest0 (u32 (bhs_block_num s + 1))
           (mk_signed (mk_header t (producer_name pk) 1 (bhs_id s) digest0 digest0
                         (version (active_schedule s)) None []) 0)
           (dpos_proposed_irreversible_blocknum s)
           (dpos_last_irreversible (<[producer_name pk := dpos_proposed_irreversible_blocknum s]>
                                      (producer_to_last_implied_irb s)))
           (bft_irreversible_blocknum s) (pending_schedule_lib_num s) (pending_schedule_hash s)
           (pending_schedule s) (active_schedule s) merkle
           (<[producer_name pk := u32 (bhs_block_num s + 1)]> (producer_to_last_produced s))
           (<[producer_name pk := dpos_proposed_irreversible_blocknum s]>
              (producer_to_last_implied_irb s))
           (block_signing_key pk)
           ((if bool_decide (length (confirm_count s)
                             < config.maximum_tracked_dpos_confirmations)%nat
             then confirm_count s else drop 1 (confirm_count s))
            ++ [u8 (u32 (Z.of_nat (length (producers (active_schedule s))) * 2 / 3 + 1))]) [].
Proof.
  intros H. unfold generate_next in H. apply bind_ok in H as (t & Ht & H).
  apply bind_ok in H as (pk & Hpk & H). apply bind_ok in H as (merkle & Hm & H).
  injection H as <-. exists pk, t, merkle. split_and!; [done| |done|].
  - intros Hw. rewrite (proj2 (Z.eqb_neq _ _) Hw) in Ht. cbn [negb] in Ht. simpl_ok. to_prop. done.
  - by destruct (bool_decide _).
Qed.

Lemma required_confs_range s : wf s →
  0 < u8 (u32 (Z.of_nat (length (producers (active_schedule s))) * 2 / 3 + 1)) ≤ u8_max.
Proof.
  intros Hw. pose proof (wf_active s Hw) as Ha. change (Z.to_nat config.max_producers) with 17%nat in Ha.
  set (n := Z.of_nat (length (producers (active_schedule s)))) in *.
  assert (0 ≤ n * 2 / 3 ≤ 11) as Hq.
  { split; [apply Z.div_pos; lia|]. apply Z.lt_succ_r, Z.div_lt_upper_bound; lia. }
  rewrite u32_small by (unfold u32_max; lia). unfold u8.
  rewrite wrapu_small by (unfold in_u; lia). unfold u8_max. lia.
Qed.

(** The template of the next block keeps the invariant and advances the number. *)
Lemma generate_next_wf s when s' : wf s → bhs_block_num s < u32_max →
  generate_next s when = Ok s' → wf s' ∧ bhs_block_num s' = bhs_block_num s + 1.
Proof.
  intros Hw Hn H. pose proof (required_confs_range s Hw) as Hr.
  apply generate_next_inv in H as (pk & t & merkle & Hpk & _ & _ & ->).
  destruct Hw as [Hnum Hp Hwin Hcc Htr Him Hac Hpe Hirr]. split; cbn.
  2:{ apply u32_small. lia. }
  set (cc := if bool_decide _ then _ else _).
  assert (length cc ≤ length (confirm_count s) ∧ length cc < config.maximum_tracked_dpos_confirmations)%nat
    as [Hlen Htr'].
  { unfold cc. case_bool_decide; [lia|]. rewrite length_drop. unfold config.maximum_tracked_dpos_confirmations in *. lia. }
  assert (Forall (fun c => 0 < c ≤ u8_max) cc) as Hfc.
  { unfold cc. case_bool_decide; [done|]. by apply Forall_drop. }
  assert (map_Forall (fun _ b => 0 ≤ b ≤ dpos_proposed_irreversible_blocknum s)
            (<[producer_name pk := dpos_proposed_irreversible_blocknum s]>
               (producer_to_last_implied_irb s))) as Him'.
  { apply map_Forall_insert_2; [lia|done]. }
  split; cbn; try done.
  - rewrite (u32_small (bhs_block_num s + 1)); lia.
  - rewrite (u32_small (bhs_block_num s + 1)) by lia. rewrite length_app; cbn; lia.
  - apply Forall_app_2; [done|]. by constructor.
  - rewrite length_app. cbn. lia.
  - by apply dpos_bounds.
Qed.
End Generate.

(** *** [set_confirmed] *)

(** A confirmed counter either stays positive or is the proposed block, and what
    is left are the counters of the blocks after it. *)
Lemma set_confirmed_loop_spec bn n btc cc cc' pr :
  (n ≤ length cc)%nat → Z.of_nat (length cc) ≤ bn ≤ u32_max →
  Forall (fun c => 0 < c ≤ u8_max) cc →
  set_confirmed_loop bn n btc cc = (cc', pr) →
  Forall (fun c => 0 < c ≤ u8_max) cc' ∧ (length cc' ≤ length cc)%nat ∧
  match pr with
  | None => length cc' = length cc
  | Some p => p = bn - Z.of_nat (length cc') ∧ bn - Z.of_nat (length cc) < p
  end.
Proof.
  revert btc cc. induction n as [|i IH]; intros btc cc Hn Hbn Hcc H; cbn in H; [by simplify_eq|].
  destruct (btc =? 0); [by simplify_eq|].
  destruct (lookup_lt_is_Some_2 cc i ltac:(lia)) as [c Hc]. rewrite Hc in H. cbn [default Datatypes.id] in H.
  pose proof (Forall_lookup_1 _ _ _ _ Hcc Hc) as Hc0. cbn in Hc0.
  unfold u8 in H. rewrite (wrapu_small 8) in H by (unfold in_u, u8_max in *; lia).
  destruct (Z.eqb_spec (c - 1) 0) as [Hz|Hnz].
  - injection H as <- <-. rewrite length_insert.
    assert ((if bool_decide (i = length cc - 1)%nat then [] else drop (S i) (<[i:=c - 1]> cc))
            = drop (S i) cc) as ->.
    { destruct (bool_decide_reflect (i = (length cc - 1)%nat)).
      { rewrite drop_ge by lia. done. }
      by rewrite drop_insert_lt by lia. }
    rewrite length_drop. split_and!; [by apply Forall_drop|lia| |].
    + rewrite (u32_small (Z.of_nat _)) by lia. rewrite u32_small by lia. lia.
    + rewrite (u32_small (Z.of_nat _)) by lia. rewrite u32_small by lia. lia.
  - apply IH in H as (H1 & H2 & H3); rewrite ?length_insert in *; [done|lia|lia|].
    apply Forall_insert; [done|lia].
Qed.

Lemma set_confirmed_wf k s : wf s →
  wf (set_confirmed k s) ∧ bhs_block_num (set_confirmed k s) = bhs_block_num s ∧
  dpos_proposed_irreversible_blocknum s ≤ dpos_proposed_irreversible_blocknum (set_confirmed k s).
Proof.
  intros [Hnum Hp Hwin Hcc Htr Him Hac Hpe Hirr]. destruct s as [i n h dp di bi pl ph ps ac bm p2p p2i ky cc cf].
  unfold set_confirmed. cbn in *.
  destruct (set_confirmed_loop n (length cc) (u32 (k + 1)) cc) as [cc' pr] eqn:E.
  apply set_confirmed_loop_spec in E as (H1 & H2 & H3); [|done|lia|done]. cbn.
  destruct pr as [p|]; cbn in *.
  - destruct H3 as [-> H3]. split; [|split; [done|lia]]. split; cbn; try done; try lia.
    eapply map_Forall_impl; [apply Him|]. cbn. intros; lia.
  - split; [|split; [done|lia]]. split; cbn; try done; lia.
Qed.

(** *** [maybe_promote_pending] *)

Lemma carry_over_Forall (P : Z → Prop) (old : gmap account_name Z) lib ps (m : gmap account_name Z) :
  map_Forall (fun _ b => P b) old → P lib → map_Forall (fun _ b => P b) m →
  map_Forall (fun _ b => P b)
    (foldl (fun m p => match old !! producer_name p with
                       | Some b => <[producer_name p := b]> m
                       | None => <[producer_name p := lib]> m end) m ps).
Proof.
  intros Hold Hlib. revert m. induction ps as [|p ps IH]; intros m Hm; cbn; [done|].
  apply IH. destruct (old !! producer_name p) as [b|] eqn:E;
    apply map_Forall_insert_2; try done. exact (Hold _ _ E).
Qed.

Lemma promote_wf s b s' : wf s → maybe_promote_pending s = (b, s') →
  wf s' ∧ bhs_block_num s' = bhs_block_num s ∧
  dpos_proposed_irreversible_blocknum s' = dpos_proposed_irreversible_blocknum s.
Proof.
  intros Hw H. unfold maybe_promote_pending in H.
  destruct (_ && _); [|by simplify_eq]. injection H as <- <-.
  destruct Hw as [Hnum Hp Hwin Hcc Htr Him Hac Hpe Hirr]. destruct s; cbn in *.
  split; [|done]. split; cbn in *; try done; try lia.
  unfold carry_over. apply (carry_over_Forall (fun b => 0 ≤ b ≤ _)); [done|lia|apply map_Forall_empty].
Qed.

(** ** Accepting a signed header *)

(** The double-confirm guard of [next]. *)
Definition not_double_confirming (s : block_header_state) (h : block_header) : Prop :=
  ∀ last, producer_to_last_produced s !! producer h = Some last →
    last < u32 (u32 (bhs_block_num s + 1) - confirmed h).

(** Every active producer has an entry in the implied-irreversible map. *)
Definition tracked (s : block_header_state) : Prop :=
  Forall (fun p => is_Some (producer_to_last_implied_irb s !! producer_name p))
    (producers (active_schedule s)).

Section Next.
Context {C : ChainCrypto}.

(** The state changes of [next] in sequence, with every guard on the way. *)
Lemma next_inv s h skip s' : next s h skip = Ok s' →
  ∃ g p promoted r,
    generate_next s (timestamp (header_of h)) = Ok g ∧
    maybe_promote_pending (set_confirmed (confirmed (header_of h)) g) = (promoted, p) ∧
    match new_producers (header_of h) with
    | Some np => promoted = false ∧ set_new_producers np p = Ok r
    | None => r = p
    end ∧
    s' = adopt_header h r ∧
    timestamp (header_of h) ≠ 0 ∧ header_extensions (header_of h) = [] ∧
    previous (header_of h) = bhs_id s ∧
    producer (hdr g) = producer (header_of h) ∧
    schedule_version (hdr g) = schedule_version (header_of h) ∧
    not_double_confirming s (header_of h) ∧
    (skip = false → signee s' = Ok (state_signing_key s')).
Proof.
  intros H. unfold next in H. simpl_ok.
  destruct (maybe_promote_pending _) as [promoted p] eqn:Ep. simpl_ok. to_prop.
  match goal with H : generate_next _ _ = Ok ?g |- _ => rename g into g0; rename H into Hg end.
  match goal with H : (match new_producers _ with _ => _ end) = Ok ?r0 |- _ => rename r0 into r; rename H into Hr end.
  exists g0, p, promoted, r.
  assert (bhs_block_num g0 = u32 (bhs_block_num s + 1)) as Hbn.
  { by apply generate_next_inv in Hg as (? & ? & ? & _ & _ & _ & ->). }
  split_and!; try done.
  - destruct (new_producers _); simpl_ok; to_prop; done.
  - by apply nil_length_inv.
  - intros last Hl. rewrite Hl in *. simpl_ok. to_prop. by rewrite <- Hbn.
  - intros ->. simpl_ok. unfold verify_signee in *. simpl_ok. to_prop. congruence.
Qed.

Lemma promote_header s b s' : maybe_promote_pending s = (b, s') →
  bhs_header s' = bhs_header s ∧ state_signing_key s' = state_signing_key s ∧
  dpos_irreversible_blocknum s' = dpos_irreversible_blocknum s ∧
  (b = false → s' = s).
Proof.
  unfold maybe_promote_pending. destruct (_ && _); intros [= <- <-]; by destruct s.
Qed.

Lemma set_confirmed_header k s :
  hdr (set_confirmed k s) = header_of (set_header_confirmed k (bhs_header s)) ∧
  state_signing_key (set_confirmed k s) = state_signing_key s ∧
  dpos_irreversible_blocknum (set_confirmed k s) = dpos_irreversible_blocknum s ∧
  producer_to_last_implied_irb (set_confirmed k s) = producer_to_last_implied_irb s ∧
  active_schedule (set_confirmed k s) = active_schedule s.
Proof. unfold set_confirmed. destruct s. by destruct (set_confirmed_loop _ _ _ _). Qed.

Lemma adopt_header_id h r : bhs_id (adopt_header h r) = id (header_of (bhs_header (adopt_header h r))).
Proof. by destruct r. Qed.

(** C1: what [next] lets through: the block is linked to the state, later than
    it, produced by the producer its slot schedules and (unless the check is
    skipped) signed with that producer's key; it confirms no block its
    producer already spoke for; and the state reached carries exactly the
    received header under its own id. *)
Theorem next_sound s h skip s' : next s h skip = Ok s' →
  ∃ pk, get_scheduled_producer s (timestamp (header_of h)) = Ok pk ∧
    producer_name pk = producer (header_of h) ∧
    previous (header_of h) = bhs_id s ∧
    timestamp (hdr s) < timestamp (header_of h) ∧
    schedule_version (header_of h) = version (active_schedule s) ∧
    not_double_confirming s (header_of h) ∧
    bhs_header s' = h ∧ bhs_id s' = id (header_of h) ∧
    state_signing_key s' = block_signing_key pk ∧
    (skip = false → recover_key (producer_signature h) (sig_digest s') = Ok (block_signing_key pk)).
Proof.
  intros H. apply next_inv in H as (g & p & pr & r & Hg & Hp & Hr & -> & Ht & He & Hprev & Hprod & Hver & Hdc & Hsig).
  apply generate_next_inv in Hg as (pk & t & m & Hpk & Hw & _ & ->). destruct (Hw Ht) as [-> Hlt].
  apply promote_header in Hp as (Hh & Hk & _ & Hid).
  match type of Hh with _ = bhs_header (set_confirmed ?k ?g) =>
    destruct (set_confirmed_header k g) as (Hch & Hck & _) end.
  assert (hdr r = mk_header (timestamp (header_of h)) (producer_name pk) (confirmed (header_of h)) (bhs_id s)
            digest0 digest0 (version (active_schedule s)) (new_producers (header_of h)) []
          ∧ state_signing_key r = block_signing_key pk) as [Hrh Hrk].
  { unfold hdr in *. destruct (new_producers (header_of h)) as [np|].
    - destruct Hr as [-> Hr]. unfold set_new_producers in Hr. simpl_ok. destruct p; cbn in *.
      rewrite Hk, Hck. unfold hdr. cbn. rewrite Hh, Hch. done.
    - subst r. rewrite Hh, Hch, Hk, Hck. done. }
  cbn in Hprod, Hver.
  assert (bhs_header (adopt_header h r) = h ∧ state_signing_key (adopt_header h r) = state_signing_key r) as [Hb Hs].
  { destruct r. unfold adopt_header, hdr in *. cbn in *. rewrite Hrh. split; [|done].
    destruct h as [[]]; cbn in *. by subst. }
  exists pk. split_and!; try done.
  - by rewrite adopt_header_id, Hb.
  - by rewrite Hs.
  - intros Hsk. specialize (Hsig Hsk). unfold signee in Hsig. by rewrite Hb, Hs, Hrk in Hsig.
Qed.

(** A header may propose a schedule no longer than [config::max_producers];
    [apply_context] lets no contract set a longer one. *)
Definition proposes_bounded (h : signed_block_header) : Prop :=
  ∀ np, new_producers (header_of h) = Some np →
    (length (producers np) ≤ Z.to_nat config.max_producers)%nat.

Lemma set_new_producers_wf np s s' : wf s →
  (length (producers np) ≤ Z.to_nat config.max_producers)%nat →
  set_new_producers np s = Ok s' →
  wf s' ∧ bhs_block_num s' = bhs_block_num s ∧
  dpos_proposed_irreversible_blocknum s' = dpos_proposed_irreversible_blocknum s.
Proof.
  intros [] Hl H. unfold set_new_producers in H. simpl_ok. destruct s; cbn in *. by split.
Qed.

Lemma adopt_header_wf h s : wf s → wf (adopt_header h s).
Proof. intros []. destruct s. by split. Qed.


Lemma get_scheduled_in s t pk : get_scheduled_producer s t = Ok pk →
  pk ∈ producers (active_schedule s).
Proof.
  unfold get_scheduled_producer. destruct (_ =? 0); [done|]. intros. simpl_ok.
  by eapply list_elem_of_lookup_2.
Qed.

Lemma generate_next_irreversible s when g : wf s → tracked s →
  dpos_irreversible_blocknum s = calc_dpos_last_irreversible s →
  generate_next s when = Ok g →
  tracked g ∧ dpos_irreversible_blocknum s ≤ dpos_irreversible_blocknum g ∧
  dpos_irreversible_blocknum g = calc_dpos_last_irreversible g.
Proof.
  intros Hw Ht Hd H. apply generate_next_inv in H as (pk & t & m & Hpk & _ & _ & ->).
  split_and!.
  - unfold tracked in *. cbn. eapply Forall_impl; [apply Ht|]. cbn. intros p [b Hb].
    apply lookup_insert_is_Some'. right. by eexists.
  - cbn. rewrite Hd. unfold tracked in Ht. rewrite Forall_forall in Ht.
    destruct (Ht _ (get_scheduled_in _ _ _ Hpk)) as [b Hb].
    eapply dpos_monotone; [apply Hb|]. exact (proj2 (wf_implied s Hw _ _ Hb)).
  - done.
Qed.

Lemma carry_over_is_Some (old : gmap account_name Z) lib ps k (m : gmap account_name Z) :
  (∃ p, p ∈ ps ∧ producer_name p = k) ∨ is_Some (m !! k) →
  is_Some (foldl (fun m p => match old !! producer_name p with
                     | Some b => <[producer_name p := b]> m
                     | None => <[producer_name p := lib]> m end) m ps !! k).
Proof.
  revert m. induction ps as [|q ps IH]; intros m H; cbn.
  - destruct H as [(p & Hp & _)|H]; [by apply not_elem_of_nil in Hp|done].
  - apply IH. destruct H as [(p & [->|Hp]%elem_of_cons & Hk)|H].
    + right. subst k. destruct (old !! _); rewrite lookup_insert_eq; by eexists.
    + left. by exists p.
    + right. destruct (old !! _); apply lookup_insert_is_Some'; by right.
Qed.

Lemma promote_tracked s b s' : tracked s → maybe_promote_pending s = (b, s') → tracked s'.
Proof.
  unfold maybe_promote_pending. destruct (_ && _); [|by intros ? [= <- <-]].
  intros _ [= <- <-]. destruct s as [??????? ? ps ???????]. unfold tracked, carry_over. cbn.
  apply Forall_forall. intros p Hp. apply carry_over_is_Some. left. by exists p.
Qed.

End Next.

(** ** A concrete chain

    Three producers, a digest that mixes words and a signature that is the key
    itself, to evaluate the definitions on. *)
Module Demo.
Definition mix (d e : digest_type) : digest_type :=
  mk_digest (u64 (3 * hash0 d + 5 * hash0 e + 1)) (u64 (hash1 d + 7 * hash1 e))
    (u64 (hash2 d + hash2 e)) (u64 (hash3 d + hash3 e)).

Definition crypto : ChainCrypto :=
  {| hash_pair := fun p => mix p.1 p.2;
     header_digest := fun h => mk_digest (u64 (timestamp h * 4294967296)) (u64 (producer h)) 0 1;
     schedule_digest := fun s => mk_digest (version s) 0 0 2;
     recover_key := fun sig _ => Ok sig |}.

Definition schedule : producer_schedule_type :=
  mk_schedule 1 [mk_producer_key 11 101; mk_producer_key 22 102; mk_producer_key 33 103].

Definition irb : gmap account_name Z := {[ 11 := 4; 22 := 5; 33 := 6 ]}.

Definition merkle8 : incremental_merkle := mk_im 8 [digest0].

(** Block 9, at slot 100, with one open counter for each of blocks 8 and 9. *)
Definition state : block_header_state :=
  mk_bhs (mk_digest 9 0 0 0) 9 (mk_signed block_header0 0) 7 4 0 0 digest0
    (mk_schedule 1 []) schedule merkle8 {[ 11 := 7; 22 := 8; 33 := 9 ]} irb 103 [1; 3] [].

(** The block of slot 108 is producer 11's; it confirms one block before it. *)
Definition block : signed_block_header :=
  mk_signed (mk_header 108 11 1 (mk_digest 9 0 0 0) digest0 digest0 1 None []) 101.

Definition next_state : block_header_state :=
  match @next crypto state block false with Ok s => s | Err _ => state end.

Lemma next_state_ok : @next crypto state block false = Ok next_state.
Proof. vm_compute. reflexivity. Qed.

Lemma state_wf : wf state.
Proof.
  split; cbn; unfold u32_max, u8_max, config.maximum_tracked_dpos_confirmations, irb; try lia.
  - repeat constructor; lia.
  - repeat apply map_Forall_insert_2; try lia. apply map_Forall_empty.
  - vm_compute. lia.
Qed.

Lemma state_tracked : tracked state.
Proof. repeat constructor; by vm_compute; eexists. Qed.
End Demo.


Lemma next_sound_witness : ∃ pk,
  get_scheduled_producer Demo.state 108 = Ok pk ∧ producer_name pk = 11 ∧
  @recover_key Demo.crypto 101 (@sig_digest Demo.crypto Demo.next_state) = Ok (block_signing_key pk).
Proof.
  destruct (@next_sound Demo.crypto Demo.state Demo.block false Demo.next_state Demo.next_state_ok)
    as (pk & H1 & H2 & _ & _ & _ & _ & _ & _ & _ & H3).
  exists pk. split; [exact H1|]. split; [exact H2|]. exact (H3 eq_refl).
Defined.



End HeaderState.
