(* ===== verification/ForkDatabase.v ===== *)
(** * The fork database

    [libraries/chain/fork_database.cpp]: the blocks that may still become part
    of the chain, as shared objects in one container with several orders.

    Block states are shared pointers in the program; here they are addresses
    into a heap, so that a change made through one pointer is seen through
    every other.  The Boost multi-index container is modelled by what its
    documentation promises of each order: a list of the addresses in it, where
    an insertion goes after the elements with an equal key and a modification
    moves an element only when its key left its place. *)

From S2P Require Import Prelude Exceptions Name Merkle BlockHeader HeaderState.
Import Merkle Schedule Header HeaderState.

Module ForkDatabase.

Abbreviation ptr := Z (only parsing).

Record block_state : Type := mk_block_state
  { bs_header_state : block_header_state;
    bs_block : signed_block_header;
    validated : bool;
    in_current_chain : bool }.

Definition bs_id (b : block_state) : block_id_type := bhs_id (bs_header_state b).
Definition bs_num (b : block_state) : Z := bhs_block_num (bs_header_state b).
Definition bs_prev (b : block_state) : block_id_type := previous (hdr (bs_header_state b)).
Definition bs_dpos (b : block_state) : Z := dpos_irreversible_blocknum (bs_header_state b).
Definition bs_bft (b : block_state) : Z := bft_irreversible_blocknum (bs_header_state b).

(** The orders of [by_block_num] and [by_lib_block_num]. *)
Definition num_lt (a b : block_state) : bool :=
  (bs_num a <? bs_num b)
  || ((bs_num a =? bs_num b) && in_current_chain a && negb (in_current_chain b)).

Definition lib_lt (a b : block_state) : bool :=
  (bs_dpos b <? bs_dpos a)
  || ((bs_dpos a =? bs_dpos b)
      && ((bs_bft b <? bs_bft a)
          || ((bs_bft a =? bs_bft b) && (bs_num b <? bs_num a)))).

(** [fork_database_impl], the heap its pointers point into, and the
    [irreversible] signals sent so far. *)
Record forkdb : Type := mk_forkdb
  { heap : gmap ptr block_state;
    next_ptr : ptr;
    by_prev : list ptr;
    by_block_num : list ptr;
    by_lib_block_num : list ptr;
    head : option ptr;
    signalled : list ptr }.

(** A block state to read where a pointer of the container is followed; the
    invariant below keeps every such pointer allocated. *)
Definition header_state0 : block_header_state :=
  mk_bhs digest0 0 signed0 0 0 0 0 digest0 (mk_schedule 0 []) (mk_schedule 0 [])
    incremental_merkle0 ∅ ∅ public_key0 [] [].
Definition block_state0 : block_state := mk_block_state header_state0 signed0 false false.

Definition obj (h : gmap ptr block_state) (p : ptr) : block_state := default block_state0 (h !! p).

Definition set_head (p : option ptr) (s : forkdb) : forkdb :=
  mk_forkdb (heap s) (next_ptr s) (by_prev s) (by_block_num s) (by_lib_block_num s) p (signalled s).
Definition set_orders (l1 l2 l3 : list ptr) (s : forkdb) : forkdb :=
  mk_forkdb (heap s) (next_ptr s) l1 l2 l3 (head s) (signalled s).
Definition set_heap (h : gmap ptr block_state) (s : forkdb) : forkdb :=
  mk_forkdb h (next_ptr s) (by_prev s) (by_block_num s) (by_lib_block_num s) (head s) (signalled s).
Definition signal (p : ptr) (s : forkdb) : forkdb :=
  mk_forkdb (heap s) (next_ptr s) (by_prev s) (by_block_num s) (by_lib_block_num s) (head s)
    (signalled s ++ [p]).

(** *** The container *)

Fixpoint upper_insert (lt : ptr → ptr → bool) (p : ptr) (l : list ptr) : list ptr :=
  match l with
  | [] => [p]
  | q :: l' => if lt p q then p :: l else q :: upper_insert lt p l'
  end.

Definition drop_ptr (p : ptr) (l : list ptr) : list ptr := filter (.≠ p) l.

(** Is [p] still between its neighbours? *)
Fixpoint in_place (lt : ptr → ptr → bool) (p : ptr) (l : list ptr) : bool :=
  match l with
  | q :: ((r :: _) as l') =>
      if q =? p then negb (lt r p)
      else if r =? p then negb (lt p q) && in_place lt p l'
      else in_place lt p l'
  | _ => true
  end.

Definition relocate (lt : ptr → ptr → bool) (p : ptr) (l : list ptr) : list ptr :=
  if in_place lt p l then l else upper_insert lt p (drop_ptr p l).

Definition on_heap (lt : block_state → block_state → bool) (h : gmap ptr block_state)
    (p q : ptr) : bool := lt (obj h p) (obj h q).

(** [index.find( id )]. *)
Definition find_id (s : forkdb) (id : block_id_type) : option ptr :=
  find (fun p => bool_decide (bs_id (obj (heap s) p) = id)) (by_prev s).

(** [index.insert( p ).second] and the container after it. *)
Definition index_insert (p : ptr) (s : forkdb) : bool * forkdb :=
  match find_id s (bs_id (obj (heap s) p)) with
  | Some _ => (false, s)
  | None =>
      (true, set_orders (by_prev s ++ [p])
               (upper_insert (on_heap num_lt (heap s)) p (by_block_num s))
               (upper_insert (on_heap lib_lt (heap s)) p (by_lib_block_num s)) s)
  end.

Definition index_erase (p : ptr) (s : forkdb) : forkdb :=
  set_orders (drop_ptr p (by_prev s)) (drop_ptr p (by_block_num s))
    (drop_ptr p (by_lib_block_num s)) s.

Definition index_modify (p : ptr) (f : block_state → block_state) (s : forkdb) : forkdb :=
  let h := <[p := f (obj (heap s) p)]> (heap s) in
  set_orders (by_prev s) (relocate (on_heap num_lt h) p (by_block_num s))
    (relocate (on_heap lib_lt h) p (by_lib_block_num s)) (set_heap h s).

(** The blocks built on [id]: the range of [by_prev] with that key. *)
Definition children (s : forkdb) (id : block_id_type) : list ptr :=
  filter (fun p => bs_prev (obj (heap s) p) = id) (by_prev s).

Abbreviation FD := (ST forkdb exn).

(** Reading through a pointer in the container. *)
Definition at_ptr (p : ptr) : FD block_state := gets (fun s => obj (heap s) p).

(** [my->head = *my->index.get<by_lib_block_num>().begin()]: there is no first
    element of an empty container. *)
Definition reset_head : FD () :=
  s ← get_st;
  match by_lib_block_num s with
  | [] => throw undefined_behavior
  | p :: _ => put_st (set_head (Some p) s)
  end.

(** *** Operations *)

Definition get_block (s : forkdb) (id : block_id_type) : option ptr := find_id s id.

Definition get_block_in_current_chain_by_num (s : forkdb) (n : Z) : option ptr :=
  match filter (fun p => ¬ bs_num (obj (heap s) p) < n) (by_block_num s) with
  | [] => None
  | p :: _ =>
      if negb (bs_num (obj (heap s) p) =? n) || negb (in_current_chain (obj (heap s) p))
      then None else Some p
  end.

(** The queue of [remove]: position [i] onwards, with the ids still to push. *)
Fixpoint remove_loop (fuel : nat) (queue : list block_id_type) : FD () :=
  match queue with
  | [] => mret ()
  | id :: rest =>
      match fuel with
      | O => throw loop_bound
      | S fuel =>
          modify_st (fun s => match find_id s id with
                              | Some p => index_erase p s
                              | None => s
                              end) ;;
          s ← get_st;
          remove_loop fuel (rest ++ ((fun p => bs_id (obj (heap s) p)) <$> children s id))
      end
  end.

Definition remove (id : block_id_type) : FD () :=
  s ← get_st;
  remove_loop (S (length (by_prev s))) [id] ;;
  reset_head.

Definition set_validated (b : block_state) : block_state :=
  mk_block_state (bs_header_state b) (bs_block b) true (in_current_chain b).
Definition set_in_current_chain (v : bool) (b : block_state) : block_state :=
  mk_block_state (bs_header_state b) (bs_block b) (validated b) v.
Definition set_bft_num (n : Z) (b : block_state) : block_state :=
  mk_block_state (set_bft n (bs_header_state b)) (bs_block b) (validated b) (in_current_chain b).

Definition set_validity (h : ptr) (valid : bool) : FD () :=
  if negb valid then
    b ← at_ptr h;
    remove (bs_id b)
  else
    (* no index is keyed by [validated]: the object is changed in place *)
    modify_st (fun s => set_heap (<[h := set_validated (obj (heap s) h)]> (heap s)) s).

Definition mark_in_current_chain (h : ptr) (v : bool) : FD () :=
  b ← at_ptr h;
  if eqb (in_current_chain b) v then mret ()
  else
    s ← get_st;
    match find_id s (bs_id b) with
    | None => throw fork_db_block_not_found
    | Some itr => modify_st (index_modify itr (set_in_current_chain v))
    end.

(** [++nitr]. *)
Fixpoint after (p : ptr) (l : list ptr) : option ptr :=
  match l with
  | [] => None
  | q :: l' => if q =? p then hd_error l' else after p l'
  end.

(** The last loop of [prune], with [nitr] at a block or at the end: the iterator
    moves on before the removal, and an iterator to a block that the removal
    erased must not be read again. *)
Fixpoint remove_siblings (fuel : nat) (num : Z) (nitr : option ptr) : FD () :=
  match nitr with
  | None => mret ()
  | Some p =>
      s ← get_st;
      if negb (bool_decide (p ∈ by_block_num s)) then throw undefined_behavior
      else if negb (bs_num (obj (heap s) p) =? num) then mret ()
      else
        match fuel with
        | O => throw loop_bound
        | S fuel =>
            remove (bs_id (obj (heap s) p)) ;;
            remove_siblings fuel num (after p (by_block_num s))
        end
  end.

(** [prune] after its first loop: signal and erase the block, remove the others
    of its number. *)
Definition prune_block (b : block_state) : FD () :=
  let num := bs_num b in
  s ← get_st;
  match find_id s (bs_id b) with
  | Some itr => modify_st (signal itr) ;; modify_st (index_erase itr)
  | None => mret ()
  end ;;
  s ← get_st;
  remove_siblings (length (by_block_num s)) num
    (hd_error (filter (fun p => ¬ bs_num (obj (heap s) p) < num) (by_block_num s))).

(** The first loop of [prune], over the recursive call. *)
Fixpoint prune_lower (prune : ptr → FD ()) (num : Z) (turns : nat) : FD () :=
  match turns with
  | O => throw loop_bound
  | S turns =>
      s ← get_st;
      match by_block_num s with
      | bni :: _ =>
          if bs_num (obj (heap s) bni) <? num then prune bni ;; prune_lower prune num turns
          else mret ()
      | [] => mret ()
      end
  end.

Fixpoint prune (fuel : nat) (h : ptr) : FD () :=
  match fuel with
  | O => throw loop_bound
  | S fuel =>
      b ← at_ptr h;
      prune_lower (prune fuel) (bs_num b) (S fuel) ;;
      prune_block b
  end.

(** The bound of [prune]: no chain of recursive calls is longer than the container. *)
Definition prune_fuel (s : forkdb) : nat := S (S (length (by_prev s))).

(** *** Branches *)

(** [while( first_branch->block_num > num )]: step back, collecting.  The check
    after a step builds its message from the pointer that turned out null, so a
    missing block is a read through null and not the exception. *)
Fixpoint lower_to (fuel : nat) (s : forkdb) (p : ptr) (num : Z) (acc : list ptr)
    : result exn (ptr * list ptr) :=
  if num <? bs_num (obj (heap s) p) then
    match fuel with
    | O => Err loop_bound
    | S fuel =>
        match get_block s (bs_prev (obj (heap s) p)) with
        | None => Err undefined_behavior
        | Some q => lower_to fuel s q num (acc ++ [p])
        end
    end
  else Ok (p, acc).

Fixpoint join_branches (fuel : nat) (s : forkdb) (p q : ptr) (acc1 acc2 : list ptr)
    : result exn (list ptr * list ptr) :=
  if bool_decide (bs_prev (obj (heap s) p) = bs_prev (obj (heap s) q))
  then Ok (acc1 ++ [p], acc2 ++ [q])
  else
    match fuel with
    | O => Err loop_bound
    | S fuel =>
        match get_block s (bs_prev (obj (heap s) p)), get_block s (bs_prev (obj (heap s) q)) with
        | Some p', Some q' => join_branches fuel s p' q' (acc1 ++ [p]) (acc2 ++ [q])
        | _, _ => Err undefined_behavior
        end
    end.

Definition fetch_branch_from (s : forkdb) (first second : block_id_type)
    : result exn (list ptr * list ptr) :=
  let fuel := S (length (by_prev s)) in
  match get_block s first, get_block s second with
  | Some p, Some q =>
      '(p, acc1) ← lower_to fuel s p (bs_num (obj (heap s) q)) [];
      '(q, acc2) ← lower_to fuel s q (bs_num (obj (heap s) p)) [];
      join_branches fuel s p q acc1 acc2
  | _, _ => Err undefined_behavior
  end.

(** The part of [close] after the file is written. *)
Definition close : FD () :=
  s ← get_st;
  match by_block_num s with
  | [] => mret ()
  | oldest :: _ =>
      match head s with
      | None => throw undefined_behavior
      | Some h =>
          (if bs_num (obj (heap s) oldest) <=? bs_dpos (obj (heap s) h)
           then prune (prune_fuel s) oldest else mret ()) ;;
          modify_st (set_orders [] [] [])
      end
  end.

Section WithCrypto.
Context {C : ChainCrypto}.

Definition set (p : ptr) : FD () :=
  inserted ← (fun s => let '(b, s') := index_insert p s in (Ok b, s'));
  b ← at_ptr p;
  st_assert (bool_decide (bs_id b = id (hdr (bs_header_state b)))) fork_database_exception ;;
  st_assert inserted fork_database_exception ;;
  s ← get_st;
  match head s with
  | None => put_st (set_head (Some p) s)
  | Some h =>
      if bs_num (obj (heap s) h) <? bs_num b then put_st (set_head (Some p) s) else mret ()
  end.

Definition add_state (n : option ptr) (skip_validate_previous : bool) : FD ptr :=
  match n with
  | None => throw fork_database_exception
  | Some p =>
      s ← get_st;
      st_assert (bool_decide (is_Some (head s))) fork_db_block_not_found ;;
      b ← at_ptr p;
      (if negb skip_validate_previous then
         st_assert (bool_decide (is_Some (find_id s (previous (header_of (bs_block b))))))
           unlinkable_block_exception
       else mret ()) ;;
      inserted ← (fun s => let '(i, s') := index_insert p s in (Ok i, s'));
      st_assert inserted fork_database_exception ;;
      reset_head ;;
      s ← get_st;
      let lib := match head s with Some h => bs_dpos (obj (heap s) h) | None => 0 end in
      match by_block_num s with
      | [] => throw undefined_behavior
      | oldest :: _ =>
          if bs_num (obj (heap s) oldest) <? lib then prune (prune_fuel s) oldest else mret ()
      end ;;
      mret p
  end.

(** [std::make_shared<block_state>( **prior, b, skip_validate_signee )]. *)
Definition make_block_state (prior : ptr) (b : signed_block_header) (skip : bool) : FD ptr :=
  s ← get_st;
  n ← lift (next (bs_header_state (obj (heap s) prior)) b skip);
  put_st (mk_forkdb (<[next_ptr s := mk_block_state n b false false]> (heap s)) (next_ptr s + 1)
            (by_prev s) (by_block_num s) (by_lib_block_num s) (head s) (signalled s)) ;;
  mret (next_ptr s).

Definition add_block (b : option signed_block_header) (skip_validate_signee : bool) : FD ptr :=
  match b with
  | None => throw fork_database_exception
  | Some b =>
      s ← get_st;
      st_assert (bool_decide (is_Some (head s))) fork_db_block_not_found ;;
      st_assert (negb (bool_decide (is_Some (find_id s (id (header_of b)))))) fork_database_exception ;;
      match find_id s (previous (header_of b)) with
      | None => throw unlinkable_block_exception
      | Some prior =>
          result ← make_block_state prior b skip_validate_signee;
          add_state (Some result) true
      end
  end.

(** [update] of [set_bft_irreversible]: one layer of the breadth-first walk. *)
Definition bft_child (block_num : Z) (st : list block_id_type * forkdb) (p : ptr)
    : list block_id_type * forkdb :=
  let '(updated, s) := st in
  if bs_bft (obj (heap s) p) <? block_num
  then (updated ++ [bs_id (obj (heap s) p)], index_modify p (set_bft_num block_num) s)
  else (updated, s).

Definition bft_layer (block_num : Z) (input : list block_id_type) (s : forkdb)
    : list block_id_type * forkdb :=
  foldl (fun st i => foldl (bft_child block_num) st (children st.2 i)) ([], s) input.

Fixpoint bft_loop (fuel : nat) (block_num : Z) (queue : list block_id_type) : FD () :=
  match queue with
  | [] => mret ()
  | _ =>
      match fuel with
      | O => throw loop_bound
      | S fuel =>
          s ← get_st;
          let '(updated, s') := bft_layer block_num queue s in
          put_st s' ;;
          bft_loop fuel block_num updated
      end
  end.

Definition set_bft_irreversible (id : block_id_type) : FD () :=
  s ← get_st;
  match find_id s id with
  | None => throw undefined_behavior
  | Some itr =>
      let block_num := bs_num (obj (heap s) itr) in
      modify_st (index_modify itr (fun b => set_bft_num (bs_num b) b)) ;;
      bft_loop (S (length (by_prev s))) block_num [id]
  end.

Definition add_confirmation_to (c : header_confirmation) : FD () :=
  s ← get_st;
  match get_block s (block_id c) with
  | None => throw fork_db_block_not_found
  | Some p =>
      let b := obj (heap s) p in
      n ← lift (add_confirmation c (bs_header_state b));
      put_st (set_heap (<[p := mk_block_state n (bs_block b) (validated b) (in_current_chain b)]>
                          (heap s)) s) ;;
      b ← at_ptr p;
      if (bs_bft b <? bs_num b)
         && (Z.of_nat (length (producers (active_schedule (bs_header_state b)))) * 2 / 3 + 1
             <=? Z.of_nat (length (confirmations (bs_header_state b))))
      then set_bft_irreversible (block_id c)
      else mret ()
  end.
End WithCrypto.

(** ** Ordered lists of pointers *)

Section Order.
Context (lt : ptr → ptr → bool).
Context (lt_asym : ∀ p q, lt p q = true → lt q p = false).
Context (le_trans : ∀ p q r, lt q p = false → lt r q = false → lt r p = false).

Definition before (p q : ptr) : Prop := lt q p = false.

Lemma upper_insert_perm p l : upper_insert lt p l ≡ₚ p :: l.
Proof.
  induction l as [|q l IH]; cbn; [done|]. destruct (lt p q); [done|].
  rewrite IH. apply Permutation_swap.
Qed.

Lemma upper_insert_sorted p l : StronglySorted before l → StronglySorted before (upper_insert lt p l).
Proof.
  induction 1 as [|q l Hl IH Hq]; cbn; [repeat constructor|].
  destruct (lt p q) eqn:E.
  - constructor; [by constructor|]. constructor; [by apply lt_asym|].
    eapply Forall_impl; [exact Hq|]. intros r Hr. eapply le_trans; [|exact Hr]. by apply lt_asym.
  - constructor; [done|]. rewrite upper_insert_perm. by constructor.
Qed.

Lemma drop_ptr_sorted p l : StronglySorted before l → StronglySorted before (drop_ptr p l).
Proof.
  unfold drop_ptr. induction 1 as [|q l Hl IH Hq]; [by constructor|].
  rewrite filter_cons. case_decide; [|done]. constructor; [done|].
  apply Forall_forall. intros r [_ Hr]%list_elem_of_filter. by eapply Forall_forall in Hq.
Qed.

Lemma drop_ptr_notin p l : p ∉ l → drop_ptr p l = l.
Proof.
  unfold drop_ptr. induction l as [|q l IH]; intros Hp; [done|].
  apply not_elem_of_cons in Hp as [Hq Hl]. rewrite filter_cons_True by done. by rewrite IH.
Qed.

Lemma in_place_cons p q r l : in_place lt p (q :: r :: l) =
  if q =? p then negb (lt r p)
  else if r =? p then negb (lt p q) && in_place lt p (r :: l)
  else in_place lt p (r :: l).
Proof. done. Qed.

(** An element between its neighbours is in order with everything. *)
Lemma in_place_sorted p l : NoDup l → StronglySorted before (drop_ptr p l) →
  in_place lt p l = true → StronglySorted before l.
Proof.
  induction l as [|q l IH]; intros Hnd Hs Hin; [done|].
  destruct l as [|r l]; [by repeat constructor|].
  apply NoDup_cons in Hnd as [Hq Hnd]. rewrite in_place_cons in Hin.
  destruct (Z.eqb_spec q p) as [->|Hqp].
  - unfold drop_ptr in Hs. rewrite filter_cons_False in Hs by naive_solver.
    fold (drop_ptr p (r :: l)) in Hs. rewrite drop_ptr_notin in Hs by done.
    constructor; [done|]. apply negb_true_iff in Hin. constructor; [done|].
    apply StronglySorted_inv in Hs as [_ Hr]. eapply Forall_impl; [exact Hr|].
    intros t Ht. exact (le_trans _ _ _ Hin Ht).
  - unfold drop_ptr in Hs. rewrite filter_cons_True in Hs by done.
    fold (drop_ptr p (r :: l)) in Hs. apply StronglySorted_inv in Hs as [Hs Hf].
    assert (in_place lt p (r :: l) = true) as Hin'.
    { destruct (r =? p); [|done]. by apply andb_prop in Hin as [_ ?]. }
    pose proof (IH Hnd Hs Hin') as Hsl. constructor; [done|].
    assert (before q r) as Hqr.
    { destruct (Z.eqb_spec r p) as [->|Hrp].
      - apply andb_prop in Hin as [Hin _]. by apply negb_true_iff in Hin.
      - rewrite Forall_forall in Hf. apply Hf. unfold drop_ptr. apply list_elem_of_filter.
        split; [done|left]. }
    constructor; [done|]. apply StronglySorted_inv in Hsl as [_ Hr].
    eapply Forall_impl; [exact Hr|]. intros t Ht. exact (le_trans _ _ _ Hqr Ht).
Qed.

Lemma drop_ptr_perm p l : NoDup l → p ∈ l → p :: drop_ptr p l ≡ₚ l.
Proof.
  induction l as [|q l IH]; intros Hnd Hp; [by apply not_elem_of_nil in Hp|].
  apply NoDup_cons in Hnd as [Hq Hnd]. unfold drop_ptr. rewrite filter_cons.
  fold (drop_ptr p l). case_decide as Hd.
  - apply elem_of_cons in Hp as [->|Hp]; [done|].
    rewrite Permutation_swap. by rewrite IH.
  - subst q. by rewrite drop_ptr_notin.
Qed.

Lemma relocate_perm p l : NoDup l → p ∈ l → relocate lt p l ≡ₚ l.
Proof.
  intros. unfold relocate. destruct (in_place lt p l); [done|].
  rewrite upper_insert_perm. by apply drop_ptr_perm.
Qed.

Lemma relocate_sorted p l : NoDup l → StronglySorted before (drop_ptr p l) →
  StronglySorted before (relocate lt p l).
Proof.
  intros Hnd Hs. unfold relocate. destruct (in_place lt p l) eqn:E.
  - by eapply in_place_sorted.
  - by apply upper_insert_sorted.
Qed.
End Order.

#[export] Instance drop_ptr_perm_proper p : Proper ((≡ₚ) ==> (≡ₚ)) (drop_ptr p).
Proof. intros l l' Hl. unfold drop_ptr. by rewrite Hl. Qed.

Lemma elem_of_drop_ptr q p l : q ∈ drop_ptr p l ↔ q ∈ l ∧ q ≠ p.
Proof. unfold drop_ptr. rewrite list_elem_of_filter. tauto. Qed.

(** Orders that agree away from [p] sort the rest of the list the same way. *)
Lemma sorted_away (lt lt' : ptr → ptr → bool) p l :
  (∀ q r, q ≠ p → r ≠ p → lt' q r = lt q r) →
  StronglySorted (before lt) l → StronglySorted (before lt') (drop_ptr p l).
Proof.
  intros Hag Hs. apply (drop_ptr_sorted lt p) in Hs.
  assert (Forall (.≠ p) (drop_ptr p l)) as Hne.
  { apply Forall_forall. intros q. rewrite elem_of_drop_ptr. tauto. }
  revert Hne Hs. generalize (drop_ptr p l) as l'. intros l' Hne.
  induction 1 as [|q l' Hl IH Hq]; [by constructor|].
  apply Forall_cons_1 in Hne as [Hqp Hne]. constructor; [by apply IH|].
  rewrite Forall_forall in *. intros r Hr. unfold before. rewrite Hag; auto. by apply Hq.
Qed.

Lemma num_lt_asym a b : num_lt a b = true → num_lt b a = false.
Proof. unfold num_lt. destruct (in_current_chain a), (in_current_chain b); cbn; lia. Qed.
Lemma num_le_trans a b c : num_lt b a = false → num_lt c b = false → num_lt c a = false.
Proof.
  unfold num_lt. destruct (in_current_chain a), (in_current_chain b), (in_current_chain c); cbn; lia.
Qed.
Lemma lib_lt_asym a b : lib_lt a b = true → lib_lt b a = false.
Proof. unfold lib_lt. lia. Qed.
Lemma lib_le_trans a b c : lib_lt b a = false → lib_lt c b = false → lib_lt c a = false.
Proof. unfold lib_lt. lia. Qed.

(** ** The invariant of the container *)

(** The three orders hold the same blocks, each once and in order; a block id
    is there at most once; every pointer is to an allocated block. *)
Record wf (s : forkdb) : Prop := mk_wf
  { wf_nodup : NoDup (by_prev s);
    wf_by_num : by_block_num s ≡ₚ by_prev s;
    wf_by_lib : by_lib_block_num s ≡ₚ by_prev s;
    wf_ids : ∀ p q, p ∈ by_prev s → q ∈ by_prev s →
      bs_id (obj (heap s) p) = bs_id (obj (heap s) q) → p = q;
    wf_num_sorted : StronglySorted (before (on_heap num_lt (heap s))) (by_block_num s);
    wf_lib_sorted : StronglySorted (before (on_heap lib_lt (heap s))) (by_lib_block_num s);
    wf_alloc : ∀ p, p ∈ by_prev s → is_Some (heap s !! p);
    wf_fresh : ∀ p, is_Some (heap s !! p) → p < next_ptr s;
    wf_head : ∀ p, head s = Some p → is_Some (heap s !! p) }.

Lemma find_id_Some s i p : find_id s i = Some p →
  p ∈ by_prev s ∧ bs_id (obj (heap s) p) = i.
Proof.
  unfold find_id. intros H. apply find_some in H as [Hin Hid]. to_prop.
  split; [by apply list_elem_of_In|done].
Qed.

Lemma find_id_None s i : find_id s i = None →
  ∀ p, p ∈ by_prev s → bs_id (obj (heap s) p) ≠ i.
Proof.
  unfold find_id. intros H p Hp. pose proof (find_none _ _ H p) as Hn.
  apply list_elem_of_In in Hp. specialize (Hn Hp). cbn in Hn. by to_prop.
Qed.

Lemma find_id_is s p : wf s → p ∈ by_prev s → find_id s (bs_id (obj (heap s) p)) = Some p.
Proof.
  intros Hw Hp. destruct (find_id s _) as [q|] eqn:E.
  - apply find_id_Some in E as [Hq Hid]. f_equal. by apply (wf_ids s Hw).
  - by eapply find_id_None in E.
Qed.

Lemma obj_insert_ne h p b q : q ≠ p → obj (<[p := b]> h) q = obj h q.
Proof. intros. unfold obj. by rewrite lookup_insert_ne. Qed.
Lemma obj_insert_eq h p b : obj (<[p := b]> h) p = b.
Proof. unfold obj. by rewrite lookup_insert_eq. Qed.

Lemma is_Some_insert {A} (h : gmap ptr A) p b q : is_Some (h !! q) → is_Some (<[p := b]> h !! q).
Proof. intros. apply lookup_insert_is_Some'. by right. Qed.
#[local] Hint Resolve is_Some_insert : chain.

Lemma index_insert_wf s p : wf s → is_Some (heap s !! p) → wf (index_insert p s).2.
Proof.
  intros Hw Hp. unfold index_insert. destruct (find_id s _) eqn:E; [done|].
  pose proof (find_id_None _ _ E) as Hid. destruct Hw. cbn.
  assert (p ∉ by_prev s) as Hni by (intros Hi; by apply (Hid p)).
  split; cbn; try done.
  - apply NoDup_app. split_and!; [done| |apply NoDup_singleton]. intros q Hq ->%list_elem_of_singleton. done.
  - rewrite upper_insert_perm, wf_by_num0. by rewrite Permutation_app_comm.
  - rewrite upper_insert_perm, wf_by_lib0. by rewrite Permutation_app_comm.
  - intros q r [Hq| ->%list_elem_of_singleton]%elem_of_app [Hr| ->%list_elem_of_singleton]%elem_of_app Heq.
    + auto.
    + by apply Hid in Hq.
    + symmetry in Heq. by apply Hid in Hr.
    + done.
  - apply upper_insert_sorted; unfold on_heap; eauto using num_lt_asym, num_le_trans.
  - apply upper_insert_sorted; unfold on_heap; eauto using lib_lt_asym, lib_le_trans.
  - intros q [Hq| ->%list_elem_of_singleton]%elem_of_app; auto.
Qed.

Lemma index_erase_wf s p : wf s → wf (index_erase p s).
Proof.
  intros []. split; cbn; try done.
  - by apply NoDup_filter.
  - by rewrite wf_by_num0.
  - by rewrite wf_by_lib0.
  - intros q r [Hq _]%elem_of_drop_ptr [Hr _]%elem_of_drop_ptr. auto.
  - by apply drop_ptr_sorted.
  - by apply drop_ptr_sorted.
  - intros q [Hq _]%elem_of_drop_ptr. auto.
Qed.

(** A change of one object that leaves its id alone keeps the invariant once
    the container has put the object back in order. *)
Lemma index_modify_wf s p f : wf s → p ∈ by_prev s →
  (∀ b, bs_id (f b) = bs_id b) → wf (index_modify p f s).
Proof.
  intros [] Hp Hf. assert (∀ lt q r, q ≠ p → r ≠ p →
    on_heap lt (<[p := f (obj (heap s) p)]> (heap s)) q r = on_heap lt (heap s) q r) as Hag.
  { intros. unfold on_heap. by rewrite !obj_insert_ne. }
  assert (∀ q, bs_id (obj (<[p := f (obj (heap s) p)]> (heap s)) q) = bs_id (obj (heap s) q)) as Hid.
  { intros q. destruct (decide (q = p)) as [->|]; [by rewrite obj_insert_eq, Hf|by rewrite obj_insert_ne]. }
  assert (NoDup (by_block_num s)) as Hn1 by by rewrite wf_by_num0.
  assert (NoDup (by_lib_block_num s)) as Hn2 by by rewrite wf_by_lib0.
  split; cbn; try done; eauto with chain.
  - rewrite relocate_perm; [done|done|]. by rewrite wf_by_num0.
  - rewrite relocate_perm; [done|done|]. by rewrite wf_by_lib0.
  - intros q r. rewrite !Hid. auto.
  - apply relocate_sorted; unfold on_heap; eauto using num_lt_asym, num_le_trans.
    eapply sorted_away; [|done]. intros; by apply (Hag num_lt).
  - apply relocate_sorted; unfold on_heap; eauto using lib_lt_asym, lib_le_trans.
    eapply sorted_away; [|done]. intros; by apply (Hag lib_lt).
  - intros q [<-|Hq]%lookup_insert_is_Some'; auto.
Qed.

(** A change that no order is keyed by needs no reordering. *)
Lemma heap_update_wf s p b' : wf s → is_Some (heap s !! p) →
  bs_id b' = bs_id (obj (heap s) p) →
  (∀ b, num_lt b b' = num_lt b (obj (heap s) p) ∧ num_lt b' b = num_lt (obj (heap s) p) b ∧
        lib_lt b b' = lib_lt b (obj (heap s) p) ∧ lib_lt b' b = lib_lt (obj (heap s) p) b) →
  wf (set_heap (<[p := b']> (heap s)) s).
Proof.
  intros [] Hp Hid Hk.
  assert (∀ q, bs_id (obj (<[p := b']> (heap s)) q) = bs_id (obj (heap s) q)) as Hids.
  { intros q. destruct (decide (q = p)) as [->|]; [by rewrite obj_insert_eq|by rewrite obj_insert_ne]. }
  assert (∀ q r, on_heap num_lt (<[p := b']> (heap s)) q r = on_heap num_lt (heap s) q r ∧
                 on_heap lib_lt (<[p := b']> (heap s)) q r = on_heap lib_lt (heap s) q r) as Hlt.
  { intros q r. unfold on_heap.
    destruct (decide (q = p)) as [->|]; destruct (decide (r = p)) as [->|];
      rewrite ?obj_insert_eq, ?obj_insert_ne by done; [|split; apply Hk..|done].
    destruct (Hk b') as (-> & _ & -> & _). split; apply Hk. }
  split; cbn; try done; eauto with chain.
  - intros q r. rewrite !Hids. auto.
  - eapply sorted_impl; [|exact wf_num_sorted0]. unfold before. intros q r. by rewrite (proj1 (Hlt _ _)).
  - eapply sorted_impl; [|exact wf_lib_sorted0]. unfold before. intros q r. by rewrite (proj2 (Hlt _ _)).
  - intros q [<-|Hq]%lookup_insert_is_Some'; auto.
Qed.

(** ** [remove] takes out a block and everything built on it *)

(** The ids reached from [i] by following the blocks of [s] upwards. *)
Inductive below (s : forkdb) (i : block_id_type) : block_id_type → Prop :=
| below_refl : below s i i
| below_step q : q ∈ by_prev s → below s i (bs_prev (obj (heap s) q)) →
    below s i (bs_id (obj (heap s) q)).

(** What the queue loop has established: [done] are the ids already processed. *)
Record removing (s0 : forkdb) (i : block_id_type) (processed queue : list block_id_type)
    (s : forkdb) : Prop := mk_removing
  { rm_wf : wf s;
    rm_heap : heap s = heap s0;
    rm_sub : ∀ p, p ∈ by_prev s → p ∈ by_prev s0;
    rm_queue : ∀ x, x ∈ queue → below s0 i x;
    rm_gone : ∀ p, p ∈ by_prev s0 → p ∉ by_prev s → below s0 i (bs_id (obj (heap s0) p));
    rm_left : ∀ p, p ∈ by_prev s → below s0 i (bs_id (obj (heap s0) p)) →
      ∃ x, x ∈ queue ∧ below s x (bs_id (obj (heap s0) p));
    rm_nodup : NoDup (queue ++ processed);
    rm_done : ∀ p, p ∈ by_prev s → bs_id (obj (heap s0) p) ∉ processed;
    rm_known : ∀ x, x ∈ queue ++ processed →
      x = i ∨ ∃ p, p ∈ by_prev s0 ∧ bs_id (obj (heap s0) p) = x;
    rm_parent : ∀ x, x ∈ queue → (processed = [] ∧ queue = [x]) ∨
      ∀ p, p ∈ by_prev s → bs_id (obj (heap s0) p) = x → bs_prev (obj (heap s0) p) ∈ processed }.

(** The body of the queue loop before it looks for the children. *)
Definition erase_id (id : block_id_type) (s : forkdb) : forkdb :=
  match find_id s id with Some p => index_erase p s | None => s end.

Lemma erase_id_spec id s : wf s → wf (erase_id id s) ∧ heap (erase_id id s) = heap s ∧
  (∀ p, p ∈ by_prev (erase_id id s) ↔ p ∈ by_prev s ∧ bs_id (obj (heap s) p) ≠ id) ∧
  head (erase_id id s) = head s ∧ signalled (erase_id id s) = signalled s.
Proof.
  intros Hw. unfold erase_id. destruct (find_id s id) as [q|] eqn:E.
  - apply find_id_Some in E as [Hq Hid]. split_and!; try done; [by apply index_erase_wf|].
    intros p. cbn. rewrite elem_of_drop_ptr. split; intros [Hp Hne]; (split; [done|]).
    + intros He. apply Hne. apply (wf_ids s Hw); [done|done|congruence].
    + intros ->. done.
  - split_and!; try done. intros p. split; [|tauto]. intros Hp. split; [done|].
    by apply (find_id_None s).
Qed.

(** Paths of the old container, seen in the one without the block [id]. *)
Lemma below_erase id s x y : wf s → below s x y →
  y = id ∨ (x ≠ id ∧ below (erase_id id s) x y) ∨
  ∃ c, c ∈ children (erase_id id s) id ∧ below (erase_id id s) (bs_id (obj (heap s) c)) y.
Proof.
  intros Hw. destruct (erase_id_spec id s Hw) as (_ & Hh & Hin & _). induction 1 as [|q Hq Hb IH].
  - destruct (decide (x = id)); [by left|]. right; left. split; [done|constructor].
  - destruct (decide (bs_id (obj (heap s) q) = id)) as [|Hne]; [by left|]. right.
    assert (q ∈ by_prev (erase_id id s)) as Hq' by by apply Hin.
    rewrite <- Hh. destruct IH as [Heq|[[Hx IH]|(c & Hc & IH)]].
    + right. exists q. split; [|constructor]. unfold children. apply list_elem_of_filter.
      by rewrite Hh.
    + left. split; [done|]. apply below_step; [done|]. by rewrite Hh.
    + right. exists c. split; [done|]. apply below_step; [done|]. rewrite Hh. done.
Qed.

Lemma below_mono s s' i x : heap s' = heap s → (∀ p, p ∈ by_prev s → p ∈ by_prev s') →
  below s i x → below s' i x.
Proof.
  intros Hh Hin. induction 1 as [|q Hq _ IH]; [constructor|].
  rewrite <- Hh in *. apply below_step; auto.
Qed.

(** One turn of the loop. *)
Lemma removing_step s0 i processed id rest s : removing s0 i processed (id :: rest) s →
  let s' := erase_id id s in
  removing s0 i (id :: processed)
    (rest ++ ((fun p => bs_id (obj (heap s') p)) <$> children s' id)) s'.
Proof.
  intros [Hw Hheap Hsub Hqu Hgone Hleft Hnd Hdone Hkn Hpar]. cbn zeta.
  destruct (erase_id_spec id s Hw) as (Hw' & Hh' & Hin & _ & _).
  set (s' := erase_id id s) in *.
  assert (∀ c, c ∈ children s' id ↔ c ∈ by_prev s' ∧ bs_prev (obj (heap s0) c) = id) as Hch.
  { intros c. unfold children. rewrite list_elem_of_filter, Hh', Hheap. tauto. }
  rewrite Hheap in Hin, Hh'. rewrite Hh'.
  assert (∀ x, x ∈ rest ++ ((fun p => bs_id (obj (heap s0) p)) <$> children s' id) ↔
     x ∈ rest ∨ ∃ c, c ∈ by_prev s' ∧ bs_prev (obj (heap s0) c) = id ∧ bs_id (obj (heap s0) c) = x) as Hq'.
  { intros x. rewrite elem_of_app, list_elem_of_fmap. split.
    - intros [?|(c & -> & Hc)]; [by left|right]. apply Hch in Hc as [? ?]. by exists c.
    - intros [?|(c & Hc & Hcp & <-)]; [by left|right]. exists c. by rewrite Hch. }
  apply NoDup_app in Hnd as (Hnq & Hdj & Hnp). apply NoDup_cons in Hnq as [Hidr Hnr].
  assert (id ∉ processed) as Hidp by (apply Hdj; left).
  assert (∀ c, c ∈ by_prev s' → bs_prev (obj (heap s0) c) = id → bs_id (obj (heap s0) c) ∉ rest) as Hcr.
  { intros c Hc Hcp Hr. apply Hin in Hc as [Hc _].
    destruct (Hpar (bs_id (obj (heap s0) c)) ltac:(by right)) as [[_ Hq1]|Hp].
    - injection Hq1 as Hq1 Hq2. subst rest. by apply not_elem_of_nil in Hr.
    - apply (Hp c) in Hc; [|done]. rewrite Hcp in Hc. done. }
  split.
  - done.
  - done.
  - intros p Hp. exact (Hsub _ (proj1 (proj1 (Hin _) Hp))).
  - intros x [Hx|(c & Hc & Hcp & <-)]%Hq'; [apply Hqu; by right|].
    apply below_step; [exact (Hsub _ (proj1 (proj1 (Hin _) Hc)))|]. rewrite Hcp. apply Hqu. left.
  - intros p Hp Hn. destruct (decide (p ∈ by_prev s)) as [Hps|Hps]; [|by apply Hgone].
    assert (bs_id (obj (heap s0) p) = id) as ->; [|apply Hqu; left].
    destruct (decide (bs_id (obj (heap s0) p) = id)); [done|]. exfalso. apply Hn, Hin. done.
  - intros p Hp Hb. apply Hin in Hp as [Hps Hne].
    destruct (Hleft p Hps Hb) as (x & Hx & Hxb).
    destruct (below_erase id s x _ Hw Hxb) as [?|[[Hxi Hb']|(c & Hc & Hb')]]; [done| |].
    + exists x. split; [|done]. apply Hq'. left. apply elem_of_cons in Hx as [->|]; done.
    + rewrite Hheap in Hb'. exists (bs_id (obj (heap s0) c)). split; [|done]. apply Hq'. right. exists c.
      by apply Hch in Hc as [? ?].
  - apply NoDup_app. split_and!.
    + apply NoDup_app. split_and!; [done| |].
      * intros x Hx (c & -> & [Hc Hcp]%Hch)%list_elem_of_fmap. by eapply Hcr.
      * apply NoDup_fmap_2_strong; [|apply NoDup_filter, Hw'].
        intros c d [Hc _]%Hch [Hd _]%Hch. rewrite <- Hh'. by apply (wf_ids s' Hw').
    + intros x [Hx|(c & Hc & Hcp & <-)]%Hq' [Hy|Hy]%elem_of_cons.
      * subst x. done.
      * eapply (Hdj x); [by right|done].
      * by apply Hin in Hc as [_ ?].
      * apply Hin in Hc as [Hc _]. by eapply Hdone.
    + by constructor.
  - intros p [Hp Hne]%Hin [Hx|Hx]%elem_of_cons; [done|]. by eapply Hdone.
  - intros x [[Hx|(c & Hc & _ & <-)]%Hq'|[->|Hx]%elem_of_cons]%elem_of_app.
    + apply Hkn, elem_of_app. left. by right.
    + right. exists c. split; [|done]. exact (Hsub _ (proj1 (proj1 (Hin _) Hc))).
    + apply Hkn, elem_of_app. left. left.
    + apply Hkn, elem_of_app. by right.
  - intros x Hx. right. intros p Hp Hpx. apply Hq' in Hx as [Hx|(c & Hc & Hcp & Hcx)].
    + apply Hin in Hp as [Hp _]. destruct (Hpar x ltac:(by right)) as [[_ Hq1]|Hp'].
      * injection Hq1 as Hq1 Hq2. subst rest. by apply not_elem_of_nil in Hx.
      * right. by apply (Hp' p).
    + assert (p = c) as ->.
      { apply (wf_ids s' Hw'); [done|done|]. rewrite Hh'. congruence. }
      rewrite Hcp. left.
Qed.

(** No id is processed twice, and all but the first belong to blocks. *)
Lemma processed_bound s0 i processed queue s : removing s0 i processed queue s →
  (length queue + length processed ≤ S (length (by_prev s0)))%nat.
Proof.
  intros H. rewrite <- length_app.
  replace (S (length (by_prev s0)))
    with (length (i :: ((fun p => bs_id (obj (heap s0) p)) <$> by_prev s0)))
    by (cbn; by rewrite length_fmap).
  apply submseteq_length, NoDup_submseteq; [by eapply rm_nodup|].
  intros x Hx. eapply rm_known in Hx as [->|(p & Hp & <-)]; [left| |done].
  right. apply list_elem_of_fmap. by exists p.
Qed.

Lemma remove_loop_spec s0 i fuel : ∀ processed queue s,
  removing s0 i processed queue s →
  (S (length (by_prev s0)) ≤ fuel + length processed)%nat →
  ∃ processed' s', remove_loop fuel queue s = (Ok (), s') ∧ removing s0 i processed' [] s'.
Proof.
  induction fuel as [|fuel IH]; intros processed queue s Hr Hf.
  - pose proof (processed_bound _ _ _ _ _ Hr). destruct queue; cbn in *; [|lia].
    by exists processed, s.
  - destruct queue as [|x rest]; [by exists processed, s|].
    apply removing_step in Hr. cbn zeta in Hr.
    destruct (IH _ _ _ Hr ltac:(cbn; lia)) as (p' & s' & He & Hr'). by exists p', s'.
Qed.

Lemma removing_start i s : wf s → removing s i [] [i] s.
Proof.
  intros Hw. split; try done.
  - intros x ->%list_elem_of_singleton. constructor.
  - intros p Hp Hb. exists i. split; [left|done].
  - rewrite app_nil_r. apply NoDup_singleton.
  - intros p _. apply not_elem_of_nil.
  - intros x Hx. left. rewrite app_nil_r in Hx. by apply list_elem_of_singleton in Hx.
  - intros x ->%list_elem_of_singleton. by left.
Qed.

(** [h] is first in the order of [by_lib_block_num]: no block has a higher
    irreversible block, BFT block and number, compared in that order. *)
Definition best (s : forkdb) (h : ptr) : Prop :=
  h ∈ by_prev s ∧ ∀ q, q ∈ by_prev s → lib_lt (obj (heap s) q) (obj (heap s) h) = false.

Lemma first_is_best s p l : wf s → by_lib_block_num s = p :: l → best s p.
Proof.
  intros Hw Hl. pose proof (wf_lib_sorted s Hw) as Hs. pose proof (wf_by_lib s Hw) as Hp.
  rewrite Hl in *. apply StronglySorted_inv in Hs as [_ Hs]. rewrite Forall_forall in Hs.
  split; [rewrite <- Hp; left|]. intros q. rewrite <- Hp. intros [->|Hq]%elem_of_cons.
  - destruct (lib_lt (obj (heap s) p) (obj (heap s) p)) eqn:E; [|done].
    by pose proof (lib_lt_asym _ _ E); congruence.
  - by apply (Hs q).
Qed.

Lemma set_head_wf s p : wf s → is_Some (heap s !! p) → wf (set_head (Some p) s).
Proof. intros [] Hp. split; cbn; try done. by intros q [= <-]. Qed.

Lemma reset_head_spec s : wf s → ∃ r s', reset_head s = (r, s') ∧ wf s' ∧
  heap s' = heap s ∧ next_ptr s' = next_ptr s ∧ by_prev s' = by_prev s ∧
  by_block_num s' = by_block_num s ∧ signalled s' = signalled s ∧
  match r with
  | Ok _ => ∃ h, head s' = Some h ∧ best s' h
  | Err e => e = undefined_behavior ∧ by_prev s' = []
  end.
Proof.
  intros Hw. unfold reset_head, get_st, mbind, st_bind, put_st, throw.
  destruct (by_lib_block_num s) as [|p l] eqn:E.
  - exists (Err undefined_behavior), s. split_and!; try done.
    pose proof (wf_by_lib s Hw) as Hp. rewrite E in Hp. by apply Permutation_nil_l in Hp.
  - pose proof (first_is_best s p l Hw E) as Hb.
    exists (Ok ()), (set_head (Some p) s). split_and!; try done.
    + apply set_head_wf; [done|]. by apply (wf_alloc s Hw), Hb.
    + by exists p.
Qed.

Lemma remove_spec i s : wf s → ∃ r s', remove i s = (r, s') ∧ wf s' ∧
  heap s' = heap s ∧
  (∀ p, p ∈ by_prev s' ↔ p ∈ by_prev s ∧ ¬ below s i (bs_id (obj (heap s) p))) ∧
  match r with
  | Ok _ => ∃ h, head s' = Some h ∧ best s' h
  | Err e => e = undefined_behavior ∧ by_prev s' = []
  end.
Proof.
  intros Hw. destruct (remove_loop_spec s i (S (length (by_prev s))) [] [i] s) as (pr & s1 & He & Hr).
  { by apply removing_start. } { cbn; lia. }
  destruct Hr as [Hw1 Hh1 Hsub _ Hgone Hleft _ _ _ _].
  destruct (reset_head_spec s1 Hw1) as (r & s' & Hre & Hw' & Hh & _ & Hbp & _ & _ & Hres).
  exists r, s'. split_and!; try done.
  - unfold remove, get_st, mbind, st_bind in *. by rewrite He.
  - congruence.
  - intros p. rewrite Hbp. split.
    + intros Hp. split; [by apply Hsub|]. intros Hb.
      destruct (Hleft p Hp Hb) as (x & Hx & _). by apply not_elem_of_nil in Hx.
    + intros [Hp Hb]. destruct (decide (p ∈ by_prev s1)); [done|]. by destruct (Hb (Hgone p Hp ltac:(done))).
Qed.

(** C38: [remove] leaves exactly the blocks that neither are the given one nor
    build on it, however deep, and makes the best of them the head; it fails
    only by reading the first element of the container it has just emptied. *)
Theorem remove_takes_descendants (i : block_id_type) (s : forkdb) : wf s →
  ∃ r s', remove i s = (r, s') ∧ wf s' ∧
    (∀ p, p ∈ by_prev s' ↔ p ∈ by_prev s ∧ ¬ below s i (bs_id (obj (heap s) p))) ∧
    (r = Ok () → ∃ h, head s' = Some h ∧ best s' h) ∧
    (r ≠ Ok () → r = Err undefined_behavior ∧ by_prev s' = []).
Proof.
  intros Hw. destruct (remove_spec i s Hw) as (r & s' & He & Hw' & _ & Hin & Hr).
  exists r, s'. split_and!; try done.
  - by intros ->.
  - destruct r as [[]|e]; [done|]. destruct Hr as [-> ?]. done.
Qed.

(** ** [prune] *)

(** What every step of pruning does: it only takes blocks out. *)
Record shrinks (s s' : forkdb) : Prop := mk_shrinks
  { sh_wf : wf s';
    sh_heap : heap s' = heap s;
    sh_sub : ∀ p, p ∈ by_prev s' → p ∈ by_prev s }.

Lemma shrinks_refl s : wf s → shrinks s s.
Proof. by split. Qed.

Lemma shrinks_trans s1 s2 s3 : shrinks s1 s2 → shrinks s2 s3 → shrinks s1 s3.
Proof. intros [] []. split; [done|congruence|auto]. Qed.

Lemma shrinks_length s s' p : wf s → shrinks s s' → p ∈ by_prev s → p ∉ by_prev s' →
  (length (by_prev s') < length (by_prev s))%nat.
Proof.
  intros Hw [Hw' _ Hsub] Hp Hn. change (length (p :: by_prev s') ≤ length (by_prev s))%nat.
  apply submseteq_length, NoDup_submseteq; [constructor; [done|apply Hw']|].
  intros q [->|Hq]%elem_of_cons; auto.
Qed.

Lemma by_num_length s : wf s → length (by_block_num s) = length (by_prev s).
Proof. intros Hw. by rewrite (wf_by_num s Hw). Qed.

Lemma remove_siblings_spec num fuel : ∀ nitr s, wf s →
  ∃ r s', remove_siblings fuel num nitr s = (r, s') ∧ shrinks s s' ∧
    ((length (by_prev s) ≤ fuel)%nat → r ≠ Err loop_bound) ∧
    (r = Ok () → s' = s ∨ ∃ h, head s' = Some h ∧ best s' h).
Proof.
  induction fuel as [|fuel IH]; intros [p|] s Hw;
    try (exists (Ok ()), s; split_and!; [done|by apply shrinks_refl|done|by left]).
  - cbn. unfold get_st, mbind, st_bind.
    destruct (bool_decide_reflect (p ∈ by_block_num s)) as [Hp|]; cbn;
      [|exists (Err undefined_behavior), s; split_and!; [done|by apply shrinks_refl|done|done]].
    destruct (_ =? num); cbn;
      [|exists (Ok ()), s; split_and!; [done|by apply shrinks_refl|done|by left]].
    exists (Err loop_bound), s. split_and!; [done|by apply shrinks_refl| |done].
    intros Hl. rewrite (wf_by_num s Hw) in Hp. destruct (by_prev s); [by apply not_elem_of_nil in Hp|cbn in Hl; lia].
  - cbn. unfold get_st, mbind, st_bind.
    destruct (bool_decide_reflect (p ∈ by_block_num s)) as [Hp|]; cbn;
      [|exists (Err undefined_behavior), s; split_and!; [done|by apply shrinks_refl|done|done]].
    destruct (_ =? num); cbn;
      [|exists (Ok ()), s; split_and!; [done|by apply shrinks_refl|done|by left]].
    destruct (remove_spec (bs_id (obj (heap s) p)) s Hw) as (r & s1 & -> & Hw1 & Hh & Hin & Hr).
    assert (shrinks s s1) as Hs1 by (split; [done|done|intros q Hq; by apply Hin in Hq as [? _]]).
    destruct r as [[]|e].
    + destruct (IH (after p (by_block_num s)) s1 Hw1) as (r & s2 & -> & Hs2 & Hl & Hb).
      exists r, s2. split_and!; [done|by eapply shrinks_trans| |].
      * intros Hlen. apply Hl. rewrite (wf_by_num s Hw) in Hp.
        assert (length (by_prev s1) < length (by_prev s))%nat; [|lia].
        eapply shrinks_length; [done|done|done|]. intros [_ Hn]%Hin. apply Hn. constructor.
      * intros Hok. right. destruct (Hb Hok) as [->|?]; done.
    + destruct Hr as [-> _]. exists (Err undefined_behavior), s1. done.
Qed.

Lemma signal_wf s p : wf s → wf (signal p s).
Proof. by intros []. Qed.

Lemma elem_of_index_erase q p s : q ∈ by_prev (index_erase p s) ↔ q ∈ by_prev s ∧ q ≠ p.
Proof. apply elem_of_drop_ptr. Qed.

Lemma prune_block_spec b s : wf s → ∃ r s', prune_block b s = (r, s') ∧ shrinks s s' ∧
  r ≠ Err loop_bound ∧
  (∀ p, p ∈ by_prev s' → bs_id (obj (heap s) p) ≠ bs_id b) ∧
  (r = Ok () → (∃ h, head s' = Some h ∧ best s' h) ∨
     head s' = head s ∧ ∀ p, p ∈ by_prev s → bs_id (obj (heap s) p) ≠ bs_id b → p ∈ by_prev s').
Proof.
  intros Hw. unfold prune_block, get_st, modify_st, mbind, st_bind.
  destruct (find_id s (bs_id b)) as [itr|] eqn:E; cbn.
  - apply find_id_Some in E as [Hi Hid]. set (s1 := index_erase itr (signal itr s)).
    assert (wf s1) as Hw1 by by apply index_erase_wf, signal_wf.
    assert (shrinks s s1) as Hs1.
    { split; [done|done|]. intros p. unfold s1. rewrite elem_of_index_erase. cbn. tauto. }
    match goal with |- ∃ r s', remove_siblings ?f ?n ?i _ = _ ∧ _ =>
      destruct (remove_siblings_spec n f i s1 Hw1) as (r & s2 & He & Hs2 & Hl & Hb) end.
    assert (∀ p, p ∈ by_prev s1 → bs_id (obj (heap s) p) ≠ bs_id b) as Hne.
    { intros p. unfold s1. rewrite elem_of_index_erase. intros [Hp Hpi] Heq. apply Hpi, (wf_ids s Hw); [done|done|congruence]. }
    exists r, s2. split_and!; [done|by eapply shrinks_trans| | |].
    + apply Hl. rewrite <- (by_num_length s1) by done. done.
    + intros p Hp. apply Hne. by apply (sh_sub _ _ Hs2).
    + intros Hok. destruct (Hb Hok) as [Hss|?]; [right|by left]. rewrite Hss. split; [done|].
      intros p Hp Hpn. unfold s1. rewrite elem_of_index_erase. split; [done|]. intros ->. done.
  - match goal with |- ∃ r s', remove_siblings ?f ?n ?i _ = _ ∧ _ =>
      destruct (remove_siblings_spec n f i s Hw) as (r & s2 & He & Hs2 & Hl & Hb) end.
    exists r, s2. split_and!; [done|done| | |].
    + apply Hl. by rewrite by_num_length.
    + intros p Hp. apply (find_id_None _ _ E). by apply (sh_sub _ _ Hs2).
    + intros Hok. destruct (Hb Hok) as [->|?]; [right|by left]. done.
Qed.

(** Pruning the first block in number order does not recurse. *)
Lemma prune_first fuel p l s : wf s → by_block_num s = p :: l →
  prune (S fuel) p s = prune_block (obj (heap s) p) s.
Proof.
  intros Hw Hl. cbn. unfold at_ptr, gets, get_st, mbind, st_bind.
  by rewrite Hl, Z.ltb_irrefl.
Qed.

Lemma prune_lower_spec fuel num turns : ∀ s, wf s →
  ∃ r s', prune_lower (prune (S fuel)) num turns s = (r, s') ∧ shrinks s s' ∧
    ((length (by_prev s) < turns)%nat → r ≠ Err loop_bound).
Proof.
  induction turns as [|turns IH]; intros s Hw.
  - exists (Err loop_bound), s. split_and!; [done|by apply shrinks_refl|lia].
  - cbn [prune_lower]. unfold get_st, mbind, st_bind.
    destruct (by_block_num s) as [|p l] eqn:El; [exists (Ok ()), s; split_and!; [done|by apply shrinks_refl|done]|].
    destruct (_ <? num); [|exists (Ok ()), s; split_and!; [done|by apply shrinks_refl|done]].
    rewrite (prune_first _ _ _ _ Hw El).
    destruct (prune_block_spec (obj (heap s) p) s Hw) as (r & s1 & -> & Hs1 & Hnl & Hout & _).
    destruct r as [[]|e]; [|exists (Err e), s1; done].
    destruct (IH s1 (sh_wf _ _ Hs1)) as (r & s2 & -> & Hs2 & Hl).
    exists r, s2. split_and!; [done|by eapply shrinks_trans|].
    intros Hlen. apply Hl. assert (p ∈ by_prev s) as Hp by (rewrite <- (wf_by_num s Hw), El; left).
    enough (length (by_prev s1) < length (by_prev s))%nat by lia.
    eapply shrinks_length; [done|done|done|]. intros Hp1. by apply (Hout p Hp1).
Qed.

Lemma prune_shrinks fuel p s : wf s → shrinks s (prune (S (S fuel)) p s).2 ∧
  ((length (by_prev s) < S (S fuel))%nat → (prune (S (S fuel)) p s).1 ≠ Err loop_bound).
Proof.
  intros Hw.
  change (prune (S (S fuel)) p s) with
    ((prune_lower (prune (S fuel)) (bs_num (obj (heap s) p)) (S (S fuel)) ;;
      prune_block (obj (heap s) p)) s).
  destruct (prune_lower_spec fuel (bs_num (obj (heap s) p)) (S (S fuel)) s Hw) as (r & s1 & He & Hs1 & Hl).
  unfold mbind, st_bind. rewrite He. destruct r as [[]|e]; cbn [fst snd]; [|done].
  destruct (prune_block_spec (obj (heap s) p) s1 (sh_wf _ _ Hs1)) as (r & s2 & -> & Hs2 & Hnl & _).
  split; [by eapply shrinks_trans|done].
Qed.

(** Pruning ends: with the bound the model gives it, the loop over the older
    blocks, its recursive calls and the removal of the siblings all finish,
    having only taken blocks out, and the container stays in order. *)
Theorem prune_terminates (p : ptr) (s : forkdb) : wf s →
  (prune (prune_fuel s) p s).1 ≠ Err loop_bound ∧ wf (prune (prune_fuel s) p s).2 ∧
  ∀ q, q ∈ by_prev (prune (prune_fuel s) p s).2 → q ∈ by_prev s.
Proof.
  intros Hw. unfold prune_fuel. destruct (prune_shrinks (length (by_prev s)) p s Hw) as [[Hw' _ Hsub] Hl].
  split_and!; [apply Hl; lia|done|done].
Qed.

(** ** Every operation keeps the container in order *)

Lemma keeps_remove i : keeps wf (remove i).
Proof. intros s Hw. destruct (remove_spec i s Hw) as (r & s' & -> & Hw' & _). done. Qed.

Lemma keeps_reset_head : keeps wf reset_head.
Proof. intros s Hw. destruct (reset_head_spec s Hw) as (r & s' & -> & Hw' & _). done. Qed.

Lemma keeps_prune p s : wf s → wf (prune (prune_fuel s) p s).2.
Proof. intros Hw. apply (prune_shrinks (length (by_prev s)) p s Hw). Qed.
#[local] Hint Resolve keeps_remove keeps_reset_head : chain.

Lemma set_validity_wf h v s : wf s → is_Some (heap s !! h) → wf (set_validity h v s).2.
Proof.
  intros Hw Hh. unfold set_validity. destruct v; cbn.
  - apply heap_update_wf; try done.
  - by apply keeps_remove.
Qed.

Lemma mark_in_current_chain_wf h v : keeps wf (mark_in_current_chain h v).
Proof.
  apply keeps_bind; [apply keeps_gets|]. intros b. destruct (eqb _ _); [by auto with chain|].
  apply keeps_get. intros s Hw. destruct (find_id s (bs_id b)) as [itr|] eqn:E; cbn; [|done].
  apply find_id_Some in E as [Hi _]. by apply index_modify_wf.
Qed.

Lemma empty_wf h n hd sg : (∀ p, is_Some (h !! p) → p < n) →
  (∀ p, hd = Some p → is_Some (h !! p)) → wf (mk_forkdb h n [] [] [] hd sg).
Proof.
  intros Hf Hh. split; cbn; try done.
  - apply NoDup_nil_2.
  - intros p q Hp. by apply not_elem_of_nil in Hp.
  - constructor.
  - constructor.
  - intros p Hp. by apply not_elem_of_nil in Hp.
Qed.

Lemma close_wf : keeps wf close.
Proof.
  apply keeps_get. intros s Hw. destruct (by_block_num s) as [|o l]; [done|].
  destruct (head s) as [h|]; [|done]. apply keeps_bind_at.
  - destruct (_ <=? _); [by apply keeps_prune|done].
  - intros _. apply keeps_modify. intros t []. by apply empty_wf.
Qed.

(** The breadth-first walk changes only BFT numbers. *)
Record bft_step (s s' : forkdb) : Prop := mk_bft_step
  { bf_wf : wf s';
    bf_index : by_prev s' = by_prev s;
    bf_same : ∀ p, bs_id (obj (heap s') p) = bs_id (obj (heap s) p)
                 ∧ bs_prev (obj (heap s') p) = bs_prev (obj (heap s) p)
                 ∧ bs_num (obj (heap s') p) = bs_num (obj (heap s) p) }.

Lemma bft_step_refl s : wf s → bft_step s s.
Proof. by split. Qed.

Lemma bft_step_trans s1 s2 s3 : bft_step s1 s2 → bft_step s2 s3 → bft_step s1 s3.
Proof.
  intros [? ? H1] [? ? H2]. split; [done|congruence|]. intros p.
  destruct (H1 p) as (? & ? & ?), (H2 p) as (? & ? & ?). split_and!; congruence.
Qed.

Lemma index_modify_bft s p f : wf s → p ∈ by_prev s →
  (∀ b, bs_id (f b) = bs_id b ∧ bs_prev (f b) = bs_prev b ∧ bs_num (f b) = bs_num b) →
  bft_step s (index_modify p f s).
Proof.
  intros Hw Hp Hf. split; [apply index_modify_wf; [done|done|apply Hf]|done|].
  intros q. cbn. destruct (decide (q = p)) as [->|]; [rewrite obj_insert_eq; apply Hf|by rewrite obj_insert_ne].
Qed.

Lemma set_bft_num_same n b : bs_id (set_bft_num n b) = bs_id b ∧
  bs_prev (set_bft_num n b) = bs_prev b ∧ bs_num (set_bft_num n b) = bs_num b.
Proof. by destruct b as [[]]. Qed.

Lemma bft_children n ps : ∀ st, wf st.2 → (∀ p, p ∈ ps → p ∈ by_prev st.2) →
  bft_step st.2 (foldl (bft_child n) st ps).2.
Proof.
  induction ps as [|p ps IH]; intros [u s] Hw Hin; cbn in *; [by apply bft_step_refl|].
  destruct (_ <? n).
  - assert (bft_step s (index_modify p (set_bft_num n) s)) as H1.
    { apply index_modify_bft; [done|apply Hin; left|]. intros; apply set_bft_num_same. }
    eapply bft_step_trans; [exact H1|]. refine (IH (_, _) (bf_wf _ _ H1) _).
    intros q Hq. cbn. apply Hin. by right.
  - apply (IH (u, s)); [done|]. intros q Hq. cbn. apply Hin. by right.
Qed.

Lemma bft_layer_step n input s : wf s → bft_step s (bft_layer n input s).2.
Proof.
  intros Hw. unfold bft_layer. enough (∀ st, wf st.2 → bft_step st.2
    (foldl (fun st i => foldl (bft_child n) st (children st.2 i)) st input).2) as H by exact (H ([], s) Hw).
  induction input as [|i input IH]; intros st Hst; cbn; [by apply bft_step_refl|].
  assert (bft_step st.2 (foldl (bft_child n) st (children st.2 i)).2) as H1.
  { apply bft_children; [done|]. intros p Hp. unfold children in Hp. by apply list_elem_of_filter in Hp as [_ ?]. }
  eapply bft_step_trans; [exact H1|]. apply IH, H1.
Qed.

Lemma bft_loop_cons fuel n i q s : bft_loop (S fuel) n (i :: q) s =
  bft_loop fuel n (bft_layer n (i :: q) s).1 (bft_layer n (i :: q) s).2.
Proof. cbn [bft_loop]. unfold get_st, mbind, st_bind. by destruct (bft_layer n (i :: q) s). Qed.

Lemma bft_loop_wf n fuel : ∀ queue, keeps wf (bft_loop fuel n queue).
Proof.
  induction fuel as [|fuel IH]; intros [|i q] s Hw; try done.
  rewrite bft_loop_cons. apply IH, bft_layer_step, Hw.
Qed.

Lemma set_bft_irreversible_wf i : keeps wf (set_bft_irreversible i).
Proof.
  apply keeps_get. intros s Hw. destruct (find_id s i) as [itr|] eqn:E; [|done].
  apply find_id_Some in E as [Hi _]. apply keeps_bind_at; [|intros _; apply bft_loop_wf].
  apply index_modify_wf; [done|done|]. intros; apply set_bft_num_same.
Qed.

Section Ops.
Context {C : ChainCrypto}.

Lemma add_confirmation_to_wf c : keeps wf (add_confirmation_to c).
Proof.
  apply keeps_get. intros s Hw. unfold get_block. destruct (find_id s (block_id c)) as [p|] eqn:E; [|done].
  apply find_id_Some in E as [Hp _]. unfold mbind, st_bind, lift.
  destruct (add_confirmation c _) as [n|e] eqn:Ea; [|done]. unfold put_st.
  set (s1 := set_heap _ s). assert (wf s1) as Hw1.
  { unfold add_confirmation in Ea. simpl_ok.
    apply heap_update_wf; [done|by apply (wf_alloc s Hw)|..]; by destruct (obj (heap s) p) as [[]]. }
  unfold at_ptr, gets. destruct (_ && _); [by apply set_bft_irreversible_wf|done].
Qed.

Lemma set_wf p s : wf s → is_Some (heap s !! p) → wf (set p s).2.
Proof.
  intros Hw Hp. unfold set, mbind, st_bind.
  pose proof (index_insert_wf s p Hw Hp) as Hw1.
  destruct (index_insert p s) as [ins s1] eqn:E; cbn in *.
  assert (is_Some (heap s1 !! p)) as Hp1.
  { unfold index_insert in E. destruct (find_id s _); by simplify_eq. }
  unfold st_assert, lift. destruct (eos_assert _ _); cbn; [|done].
  destruct (eos_assert ins _); cbn; [|done].
  destruct (head s1) as [h|]; cbn; [destruct (_ <? _); cbn; [|done]|]; by apply set_head_wf.
Qed.

Lemma add_state_wf n skip s : wf s → (∀ p, n = Some p → is_Some (heap s !! p)) →
  wf (add_state n skip s).2.
Proof.
  intros Hw Hn. destruct n as [p|]; [|done]. specialize (Hn p eq_refl).
  enough (keeps (fun s => wf s ∧ is_Some (heap s !! p)) (add_state (Some p) skip)) as H
    by by apply H.
  apply keeps_get. intros t Ht. apply keeps_bind_at; [done|intros _].
  apply keeps_bind; [apply keeps_gets|intros b].
  apply keeps_bind; [destruct (negb skip); auto with chain|intros _].
  apply keeps_bind.
  { intros u [Hu Hp]. pose proof (index_insert_wf u p Hu Hp) as Hi. unfold index_insert in *.
    destruct (find_id u _); done. }
  intros ins. apply keeps_bind; [apply keeps_assert|intros _].
  apply keeps_bind.
  { intros u [Hu Hp]. destruct (reset_head_spec u Hu) as (r & u' & -> & Hu' & Hh & _). cbn. by rewrite Hh. }
  intros _. apply keeps_get. intros u [Hu Hp]. apply keeps_bind_at; [|intros _; apply keeps_ret].
  destruct (by_block_num u) as [|o l]; [done|]. destruct (_ <? _); [|done].
  destruct (prune_shrinks (length (by_prev u)) o u Hu) as [[Hw' Hh' _] _].
  unfold prune_fuel. split; [done|]. by rewrite Hh'.
Qed.

(** A new object in the heap changes nothing in the container. *)
Lemma alloc_wf s b : wf s →
  wf (mk_forkdb (<[next_ptr s := b]> (heap s)) (next_ptr s + 1) (by_prev s) (by_block_num s)
        (by_lib_block_num s) (head s) (signalled s)).
Proof.
  intros []. assert (heap s !! next_ptr s = None) as Hn.
  { destruct (heap s !! next_ptr s) eqn:E; [|done]. pose proof (wf_fresh0 _ (mk_is_Some _ _ E)). lia. }
  assert (∀ p, p ∈ by_prev s → obj (<[next_ptr s := b]> (heap s)) p = obj (heap s) p) as Ho.
  { intros p Hp. apply obj_insert_ne. intros ->. apply wf_alloc0 in Hp as [? ?]. congruence. }
  assert (∀ lt l, l ≡ₚ by_prev s → StronglySorted (before (on_heap lt (heap s))) l →
            StronglySorted (before (on_heap lt (<[next_ptr s := b]> (heap s)))) l) as Hs.
  { intros lt l Hl Hs. assert (∀ p, p ∈ l → p ∈ by_prev s) as Hin by (intros p; by rewrite Hl).
    clear Hl. induction Hs as [|q l Hl IH Hq]; [constructor|].
    constructor; [apply IH; intros; apply Hin; by right|].
    rewrite Forall_forall in *. intros r Hr. unfold before, on_heap. rewrite !Ho; [by apply Hq|..].
    - apply Hin; left. - apply Hin; by right. }
  split; cbn; try done.
  - intros p q Hp Hq. rewrite !Ho by done. auto.
  - by apply Hs.
  - by apply Hs.
  - eauto with chain.
  - intros p [<-|Hp]%lookup_insert_is_Some'; [lia|]. apply wf_fresh0 in Hp. lia.
  - eauto with chain.
Qed.

Lemma add_block_wf b skip : keeps wf (add_block b skip).
Proof.
  destruct b as [b|]; [|apply keeps_throw]. apply keeps_get. intros s Hw.
  unfold mbind, st_bind, st_assert, lift.
  destruct (eos_assert _ _); [|done]. destruct (eos_assert _ _); [|done].
  destruct (find_id s _) as [prior|]; [|done]. unfold make_block_state, get_st, mbind, st_bind, lift.
  destruct (next _ b skip) as [n|e]; [|done]. unfold put_st, mret, st_ret.
  apply add_state_wf; [by apply alloc_wf|]. cbn. intros p [= <-]. rewrite lookup_insert_eq. by eexists.
Qed.

(** The calls the controller makes, and new block states it allocates. *)
Inductive fork_op : Type :=
| FAlloc (b : block_state) | FSet (p : ptr) | FAddState (n : option ptr) (skip : bool)
| FAddBlock (b : option signed_block_header) (skip : bool) | FRemove (i : block_id_type)
| FValidity (h : ptr) (v : bool) | FMark (h : ptr) (v : bool) | FPrune (h : ptr)
| FConfirm (c : header_confirmation) | FClose.

Definition run_op (o : fork_op) (s : forkdb) : forkdb :=
  match o with
  | FAlloc b => mk_forkdb (<[next_ptr s := b]> (heap s)) (next_ptr s + 1) (by_prev s)
                  (by_block_num s) (by_lib_block_num s) (head s) (signalled s)
  | FSet p => (set p s).2
  | FAddState n k => (add_state n k s).2
  | FAddBlock b k => (add_block b k s).2
  | FRemove i => (remove i s).2
  | FValidity h v => (set_validity h v s).2
  | FMark h v => (mark_in_current_chain h v s).2
  | FPrune h => (prune (prune_fuel s) h s).2
  | FConfirm c => (add_confirmation_to c s).2
  | FClose => (close s).2
  end.

(** The pointers handed in must be to allocated objects. *)
Definition op_valid (o : fork_op) (s : forkdb) : Prop :=
  match o with
  | FSet p | FAddState (Some p) _ | FValidity p _ => is_Some (heap s !! p)
  | _ => True
  end.

Inductive reachable : forkdb → Prop :=
| reach_new : reachable (mk_forkdb ∅ 0 [] [] [] None [])
| reach_op s o : reachable s → op_valid o s → reachable (run_op o s).

Lemma run_op_wf o s : wf s → op_valid o s → wf (run_op o s).
Proof.
  intros Hw Hv. destruct o as [b|p|n k|b k|i|h v|h v|h|c|]; cbn in *.
  - by apply alloc_wf.
  - by apply set_wf.
  - apply add_state_wf; [done|]. by intros p ->.
  - by apply add_block_wf.
  - by apply keeps_remove.
  - by apply set_validity_wf.
  - by apply mark_in_current_chain_wf.
  - by apply keeps_prune.
  - by apply add_confirmation_to_wf.
  - by apply close_wf.
Qed.

Definition new_forkdb : forkdb := mk_forkdb ∅ 0 [] [] [] None [].

Lemma new_forkdb_wf : wf new_forkdb.
Proof. apply empty_wf; [|done]. intros p [b Hb]. by rewrite lookup_empty in Hb. Qed.


(** C30: after a block is added the head is the best block in the container,
    also when adding it made older blocks irreversible and they and the forks
    they ended were taken out. *)
Theorem add_head_is_best p skip s r s' :
  wf s → is_Some (heap s !! p) →
  (∀ q, q = p ∨ q ∈ by_prev s → bs_dpos (obj (heap s) q) ≤ bs_num (obj (heap s) q)) →
  add_state (Some p) skip s = (Ok r, s') →
  r = p ∧ ∃ h, head s' = Some h ∧ best s' h.
Proof.
  intros Hw Hp Hd H. unfold add_state in H. simpl_ok.
  match goal with H : (if negb skip then _ else _) _ = _ |- _ => rename H into Hs end.
  match goal with H : (let '(i, s') := index_insert p ?t in _) = _ |- _ =>
    rename H into Hi; assert (t = s) as -> by (destruct (negb skip); unfold at_ptr in *; simpl_ok; done) end.
  split; [done|].
  pose proof (index_insert_wf s p Hw Hp) as Hw1.
  destruct (index_insert p s) as [ins s1] eqn:Ei. cbn in Hw1. injection Hi as <- <-.
  subst ins. unfold index_insert in Ei. destruct (find_id s (bs_id (obj (heap s) p))) eqn:Ef; [discriminate Ei|].
  injection Ei as <-.
  match goal with H : reset_head _ = _ |- _ => rename H into Hr end.
  destruct (reset_head_spec _ Hw1) as (r0 & s2 & Hr0 & Hw2 & Hh2 & _ & Hb2 & _ & _ & Hres).
  rewrite Hr in Hr0. injection Hr0 as <- ->. destruct Hres as (h & Hhead & Hbest).
  match goal with H : (match by_block_num ?t with _ => _ end) ?t = _ |- _ =>
    destruct (by_block_num t) as [|o l] eqn:En; [done|]; rename H into Hpr end.
  rewrite Hhead in Hpr. destruct (Z.ltb_spec (bs_num (obj (heap s2) o)) (bs_dpos (obj (heap s2) h))) as [Hlt|];
    [|simpl_ok; eauto].
  unfold prune_fuel in Hpr. rewrite (prune_first _ _ _ _ Hw2 En) in Hpr.
  destruct (prune_block_spec (obj (heap s2) o) s2 Hw2) as (r2 & s3 & He & Hsh & _ & Hout & Hok).
  rewrite He in Hpr. injection Hpr as -> ->.
  destruct x15. destruct (Hok eq_refl) as [?|[Hhs Hkeep]]; [done|]. exists h. split; [congruence|].
  destruct Hbest as [Hin Hmax]. split.
  - apply Hkeep; [done|]. intros Heq. apply (wf_ids s2 Hw2) in Heq; [subst o| done|].
    + assert (h = p ∨ h ∈ by_prev s) as Hq.
      { rewrite Hb2 in Hin. cbn in Hin. apply elem_of_app in Hin as [?|?%list_elem_of_singleton]; auto. }
      apply Hd in Hq. rewrite Hh2 in Hlt. cbn in Hlt. lia.
    + rewrite <- (wf_by_num s2 Hw2), En. left.
  - intros q Hq. rewrite (sh_heap _ _ Hsh). apply Hmax, (sh_sub _ _ Hsh), Hq.
Qed.
End Ops.

(** ** Branches *)

(** [l] lists the blocks met going back from the block with id [a]. *)
Inductive path (s : forkdb) : block_id_type → list ptr → Prop :=
| path_nil a : path s a []
| path_cons a p l : get_block s a = Some p → path s (bs_prev (obj (heap s) p)) l → path s a (p :: l).

(** Block numbers grow along links: [generate_next] adds one. *)
Definition linked (s : forkdb) : Prop := ∀ p q, p ∈ by_prev s → q ∈ by_prev s →
  bs_prev (obj (heap s) q) = bs_id (obj (heap s) p) →
  bs_num (obj (heap s) p) < bs_num (obj (heap s) q).

Lemma path_snoc s a acc p q : path s a (acc ++ [p]) →
  get_block s (bs_prev (obj (heap s) p)) = Some q → path s a ((acc ++ [p]) ++ [q]).
Proof.
  revert a. induction acc as [|x acc IH]; intros a H Hq; inversion_clear H as [|? ? ? Hx Hl]; cbn.
  - constructor; [done|]. constructor; [done|constructor].
  - constructor; [done|]. by apply IH.
Qed.

Lemma path_in s a l : path s a l → ∀ p, p ∈ l → p ∈ by_prev s.
Proof.
  induction 1 as [|a p l Hp Hl IH]; intros q Hq; [by apply not_elem_of_nil in Hq|].
  apply elem_of_cons in Hq as [->|Hq]; [by apply find_id_Some in Hp as [? _]|auto].
Qed.

Lemma path_descends s a p l : linked s → path s a (p :: l) →
  ∀ q, q ∈ l → bs_num (obj (heap s) q) < bs_num (obj (heap s) p).
Proof.
  intros Hlk. revert a p. induction l as [|x l IH]; intros a p H q Hq; [by apply not_elem_of_nil in Hq|].
  pose proof (path_in _ _ _ H p ltac:(left)) as Hp.
  inversion_clear H as [|? ? ? _ Hx]. pose proof (path_in _ _ _ Hx x ltac:(left)) as Hxi.
  assert (bs_num (obj (heap s) x) < bs_num (obj (heap s) p)) as Hlt.
  { inversion_clear Hx as [|? ? ? Hg _]. apply find_id_Some in Hg as [_ Hid]. by apply Hlk. }
  apply elem_of_cons in Hq as [->|Hq]; [done|]. specialize (IH _ _ Hx q Hq). lia.
Qed.

Lemma path_length s a l : linked s → path s a l → (length l ≤ length (by_prev s))%nat.
Proof.
  intros Hlk Hp. apply submseteq_length, NoDup_submseteq; [|by eapply path_in].
  induction Hp as [a|a p l Hg Hp IH]; [apply NoDup_nil_2|]. constructor; [|done].
  intros Hin. assert (path s a (p :: l)) as Hpl by by constructor.
  pose proof (path_descends _ _ _ _ Hlk Hpl p Hin). lia.
Qed.

Lemma lower_to_spec s a num fuel : linked s → ∀ p acc,
  path s a (acc ++ [p]) → (length (by_prev s) < fuel + length acc)%nat →
  match lower_to fuel s p num acc with
  | Ok (q, acc') => path s a (acc' ++ [q]) ∧ (length acc ≤ length acc')%nat
  | Err e => e = undefined_behavior
  end.
Proof.
  intros Hlk. induction fuel as [|fuel IH]; intros p acc Hp Hf; cbn.
  - pose proof (path_length _ _ _ Hlk Hp) as Hlen. rewrite length_app in Hlen. cbn in *.
    destruct (_ <? _); [lia|done].
  - destruct (_ <? _); [|done]. destruct (get_block s _) as [q|] eqn:Eq; [|done].
    specialize (IH q (acc ++ [p]) (path_snoc _ _ _ _ _ Hp Eq)).
    rewrite length_app in IH. cbn in IH. specialize (IH ltac:(lia)).
    destruct (lower_to _ _ _ _ _) as [[q' acc']|]; [|done]. split; [apply IH|]. destruct IH. lia.
Qed.

Lemma join_branches_spec s a b fuel : linked s → ∀ p q acc1 acc2,
  path s a (acc1 ++ [p]) → path s b (acc2 ++ [q]) → (length (by_prev s) < fuel + length acc1)%nat →
  match join_branches fuel s p q acc1 acc2 with
  | Ok (l1, l2) => path s a l1 ∧ path s b l2 ∧ ∃ x y, last l1 = Some x ∧ last l2 = Some y ∧
      bs_prev (obj (heap s) x) = bs_prev (obj (heap s) y)
  | Err e => e = undefined_behavior
  end.
Proof.
  intros Hlk. induction fuel as [|fuel IH]; intros p q acc1 acc2 Hp Hq Hf; cbn.
  - pose proof (path_length _ _ _ Hlk Hp) as Hlen. rewrite length_app in Hlen. cbn in *. lia.
  - case_bool_decide as He.
    + split_and!; [done|done|]. exists p, q. by rewrite !last_snoc.
    + destruct (get_block s (bs_prev (obj (heap s) p))) as [p'|] eqn:Ep; [|done].
      destruct (get_block s (bs_prev (obj (heap s) q))) as [q'|] eqn:Eq; [|done].
      apply IH; [by apply path_snoc|by apply path_snoc|]. rewrite length_app. cbn. lia.
Qed.

(** Walking two branches back always ends, and what it returns are the two
    chains of blocks from the given ones back to blocks with the same parent;
    the only other outcome is the read through the null pointer of a block that
    is not in the database. *)
Theorem fetch_branch_from_sound (s : forkdb) (first second : block_id_type) : linked s →
  match fetch_branch_from s first second with
  | Ok (l1, l2) => path s first l1 ∧ path s second l2 ∧ ∃ x y, last l1 = Some x ∧ last l2 = Some y ∧
      bs_prev (obj (heap s) x) = bs_prev (obj (heap s) y)
  | Err e => e = undefined_behavior
  end.
Proof.
  intros Hlk. unfold fetch_branch_from.
  destruct (get_block s first) as [p|] eqn:Ep; [|done]. destruct (get_block s second) as [q|] eqn:Eq; [|done].
  pose proof (lower_to_spec s first (bs_num (obj (heap s) q)) (S (length (by_prev s))) Hlk p []
    (path_cons _ _ _ _ Ep (path_nil _ _)) ltac:(cbn; lia)) as H1.
  destruct (lower_to _ s p _ []) as [[p1 acc1]|e]; [|done]. destruct H1 as [H1 _].
  cbn [mbind result_bind].
  pose proof (lower_to_spec s second (bs_num (obj (heap s) p1)) (S (length (by_prev s))) Hlk q []
    (path_cons _ _ _ _ Eq (path_nil _ _)) ltac:(cbn; lia)) as H2.
  destruct (lower_to _ s q _ []) as [[q1 acc2]|e]; [|done]. destruct H2 as [H2 _].
  cbn [mbind result_bind]. apply join_branches_spec; [done|done|done|lia].
Qed.

(** ** A small tree of blocks *)
Module ForkDemo.
#[local] Existing Instance Demo.crypto.

Definition mk (t : Z) (prev : block_id_type) (n dpos : Z) : block_state :=
  let h := mk_signed (mk_header t 11 0 prev digest0 digest0 1 None []) 101 in
  mk_block_state
    (mk_bhs (id (header_of h)) n h n dpos 0 0 digest0 (mk_schedule 1 []) Demo.schedule
       incremental_merkle0 ∅ ∅ 101 [] []) h false false.

Definition b5 : block_state := mk 10 (mk_digest 0x04000000 0 0 0) 5 0.
Definition b6 : block_state := mk 11 (bs_id b5) 6 0.
Definition c6 : block_state := mk 12 (bs_id b5) 6 0.
Definition b7 : block_state := mk 13 (bs_id b6) 7 1.

Definition ops : list fork_op :=
  [FAlloc b5; FSet 0; FAlloc b6; FAddState (Some 1) false; FAlloc c6; FAddState (Some 2) false;
   FAlloc b7].
Definition before_b7 : forkdb := foldl (fun s o => run_op o s) new_forkdb ops.
Definition tree : forkdb := run_op (FAddState (Some 3) false) before_b7.

Ltac valid_step := repeat (apply run_op_wf; [|vm_compute; eauto; done]); apply new_forkdb_wf.
Lemma before_b7_wf : wf before_b7.
Proof. unfold before_b7, ops. cbn [foldl]. valid_step. Qed.
Lemma tree_wf : wf tree.
Proof. apply run_op_wf; [apply before_b7_wf|vm_compute; eauto]. Qed.

Lemma tree_index : by_prev tree = [0; 1; 2; 3] ∧ by_block_num tree = [0; 1; 2; 3] ∧
  by_lib_block_num tree = [3; 1; 2; 0] ∧ head tree = Some 3.
Proof. vm_compute. done. Qed.

Lemma tree_linked : linked tree.
Proof.
  intros p q. rewrite (proj1 tree_index). intros Hp Hq.
  repeat (apply elem_of_cons in Hp as [->|Hp] || apply not_elem_of_nil in Hp as []);
  repeat (apply elem_of_cons in Hq as [->|Hq] || apply not_elem_of_nil in Hq as []);
  vm_compute; intros H; try discriminate H; reflexivity.
Qed.
End ForkDemo.

Lemma remove_takes_descendants_witness : ∃ r s', remove (bs_id ForkDemo.b6) ForkDemo.tree = (r, s') ∧ wf s'.
Proof.
  destruct (remove_takes_descendants (bs_id ForkDemo.b6) ForkDemo.tree ForkDemo.tree_wf)
    as (r & s' & H1 & H2 & _).
  exists r, s'. split; [exact H1|exact H2].
Defined.

Lemma prune_terminates_witness :
  (prune (prune_fuel ForkDemo.tree) 3 ForkDemo.tree).1 ≠ Err loop_bound.
Proof. exact (proj1 (prune_terminates 3 ForkDemo.tree ForkDemo.tree_wf)). Defined.


Lemma add_head_is_best_witness : ∃ h, head ForkDemo.tree = Some h ∧ best ForkDemo.tree h.
Proof.
  assert (add_state (Some 3) false ForkDemo.before_b7 = (Ok 3, ForkDemo.tree)) as H by (vm_compute; reflexivity).
  refine (proj2 (add_head_is_best 3 false ForkDemo.before_b7 3 ForkDemo.tree ForkDemo.before_b7_wf _ _ H)).
  - vm_compute. eauto.
  - intros q Hq. assert (by_prev ForkDemo.before_b7 = [0; 1; 2]) as Hb by (vm_compute; reflexivity).
    rewrite Hb in Hq. destruct Hq as [->|Hq]; [vm_compute; discriminate|].
    repeat (apply elem_of_cons in Hq as [->|Hq]; [vm_compute; discriminate|]).
    destruct (not_elem_of_nil _ Hq).
Defined.

Lemma fetch_branch_from_sound_witness :
  match fetch_branch_from ForkDemo.tree (bs_id ForkDemo.b7) (bs_id ForkDemo.c6) with
  | Ok (l1, l2) => path ForkDemo.tree (bs_id ForkDemo.b7) l1 ∧ path ForkDemo.tree (bs_id ForkDemo.c6) l2
  | Err e => e = undefined_behavior
  end ∧ fetch_branch_from ForkDemo.tree (bs_id ForkDemo.b7) (bs_id ForkDemo.c6) = Ok ([3; 1], [2]).
Proof.
  split; [|vm_compute; reflexivity].
  pose proof (fetch_branch_from_sound ForkDemo.tree (bs_id ForkDemo.b7) (bs_id ForkDemo.c6)
                ForkDemo.tree_linked) as H.
  destruct (fetch_branch_from _ _ _) as [[l1 l2]|e].
  - split; [exact (proj1 H)|exact (proj1 (proj2 H))].
  - exact H.
Defined.

End ForkDatabase.
