(* ===== verification/Chainbase.v ===== *)
(** * The undo database

    [libraries/chainbase]: [generic_index], the table every chain object lives
    in, with its stack of undo states.  An object is a value of a type [A]
    under its id; [conflict] says which two values some unique secondary key of
    the table keeps apart.  The stack is listed from its back (the running
    session) to its front (the oldest revision not committed).

    The abstract specification is a table with a stack of whole snapshots; the
    refinement theorems show that the undo states, which record only the
    differences, implement it. *)

From S2P Require Import Prelude Exceptions.

Module Chainbase.

Section Index.
Context {A : Type} (conflict : A → A → bool).

Record undo_state : Type := mk_undo
  { old_values : gmap Z A;
    removed_values : gmap Z A;
    new_ids : gset Z;
    old_next_id : Z;
    undo_revision : Z }.

Record generic_index : Type := mk_index
  { stack : list undo_state;
    revision : Z;
    next_id : Z;
    indices : gmap Z A }.

Abbreviation GI := (ST generic_index exn).

Definition set_stack (l : list undo_state) (s : generic_index) : generic_index :=
  mk_index l (revision s) (next_id s) (indices s).
Definition set_indices (m : gmap Z A) (s : generic_index) : generic_index :=
  mk_index (stack s) (revision s) (next_id s) m.

(** May [v] be in the table under [id]? *)
Definition fits (m : gmap Z A) (id : Z) (v : A) : bool :=
  forallb (fun kv => (kv.1 =? id) || negb (conflict v kv.2)) (map_to_list m).

(** [std::map::emplace] leaves an existing entry alone. *)
Definition emplace_map (m : gmap Z A) (id : Z) (v : A) : gmap Z A :=
  match m !! id with Some _ => m | None => <[id := v]> m end.

Definition enabled (s : generic_index) : bool :=
  match stack s with [] => false | _ => true end.

(** *** Recording changes *)

(** A change to the running undo state, if there is one. *)
Definition on_head (f : undo_state → undo_state) (s : generic_index) : generic_index :=
  match stack s with
  | [] => s
  | head :: rest => set_stack (f head :: rest) s
  end.

Definition note_modify (id : Z) (v : A) (u : undo_state) : undo_state :=
  if bool_decide (id ∈ new_ids u) then u
  else match old_values u !! id with
       | Some _ => u
       | None => mk_undo (emplace_map (old_values u) id v) (removed_values u) (new_ids u)
                   (old_next_id u) (undo_revision u)
       end.

Definition on_modify (id : Z) (v : A) : generic_index → generic_index := on_head (note_modify id v).

Definition note_remove (id : Z) (v : A) (u : undo_state) : undo_state :=
  if bool_decide (id ∈ new_ids u) then
    mk_undo (old_values u) (removed_values u) (new_ids u ∖ {[id]}) (old_next_id u) (undo_revision u)
  else match old_values u !! id with
       | Some was =>
           mk_undo (delete id (old_values u)) (emplace_map (removed_values u) id was) (new_ids u)
             (old_next_id u) (undo_revision u)
       | None =>
           match removed_values u !! id with
           | Some _ => u
           | None => mk_undo (old_values u) (emplace_map (removed_values u) id v) (new_ids u)
                       (old_next_id u) (undo_revision u)
           end
       end.

Definition on_remove (id : Z) (v : A) : generic_index → generic_index := on_head (note_remove id v).

Definition note_create (id : Z) (u : undo_state) : undo_state :=
  mk_undo (old_values u) (removed_values u) ({[id]} ∪ new_ids u) (old_next_id u) (undo_revision u).

Definition on_create (id : Z) : generic_index → generic_index := on_head (note_create id).

(** *** Operations on objects *)

(** [emplace]: the constructor is given the fresh id. *)
Definition emplace (c : Z → A) : GI Z :=
  s ← get_st;
  let new_id := next_id s in
  if bool_decide (is_Some (indices s !! new_id)) || negb (fits (indices s) new_id (c new_id))
  then throw std_logic_error
  else
    put_st (mk_index (stack s) (revision s) (new_id + 1) (<[new_id := c new_id]> (indices s))) ;;
    modify_st (on_create new_id) ;;
    mret new_id.

(** [_indices.modify]: a modified element that no longer fits is erased. *)
Definition indices_modify (id : Z) (v : A) : GI bool :=
  s ← get_st;
  if fits (indices s) id v then put_st (set_indices (<[id := v]> (indices s)) s) ;; mret true
  else put_st (set_indices (delete id (indices s)) s) ;; mret false.

(** The reference [obj] must be to an object of the table. *)
Definition modify (id : Z) (m : A → A) : GI () :=
  s ← get_st;
  match indices s !! id with
  | None => throw undefined_behavior
  | Some v =>
      modify_st (on_modify id v) ;;
      ok ← indices_modify id (m v);
      st_assert ok std_logic_error
  end.

Definition remove (id : Z) : GI () :=
  s ← get_st;
  match indices s !! id with
  | None => throw undefined_behavior
  | Some v =>
      modify_st (on_remove id v) ;;
      modify_st (fun s => set_indices (delete id (indices s)) s)
  end.

Definition find (s : generic_index) (id : Z) : option A := indices s !! id.

Definition get (s : generic_index) (id : Z) : result exn A := of_option (find s id) std_out_of_range.

Definition remove_object (id : Z) : GI () :=
  s ← get_st;
  match find s id with
  | None => throw std_out_of_range
  | Some _ => remove id
  end.

(** *** Sessions *)

(** The revision of the session, or -1 for one that does nothing. *)
Definition start_undo_session (enabled : bool) : GI Z :=
  if enabled then
    s ← get_st;
    let r := i64 (revision s + 1) in
    put_st (mk_index (mk_undo ∅ ∅ ∅ (next_id s) r :: stack s) r (next_id s) (indices s)) ;;
    mret r
  else mret (-1).

(** The three loops of [undo]. *)
Definition restore_old (item : Z * A) : GI () :=
  let '(id, v) := item in
  s ← get_st;
  match indices s !! id with
  | None => throw undefined_behavior
  | Some _ =>
      ok ← indices_modify id v;
      st_assert ok std_logic_error
  end.

Definition erase_new (id : Z) : GI () :=
  s ← get_st;
  match indices s !! id with
  | None => throw undefined_behavior
  | Some _ => put_st (set_indices (delete id (indices s)) s)
  end.

Definition restore_removed (item : Z * A) : GI () :=
  let '(id, v) := item in
  s ← get_st;
  st_assert (negb (bool_decide (is_Some (indices s !! id))) && fits (indices s) id v)
    std_logic_error ;;
  put_st (set_indices (<[id := v]> (indices s)) s).

Definition undo : GI () :=
  s ← get_st;
  match stack s with
  | [] => mret ()
  | head :: rest =>
      for_each restore_old (ascending (old_values head)) ;;
      for_each erase_new (merge_sort Z.le (elements (new_ids head))) ;;
      modify_st (fun s => mk_index (stack s) (revision s) (old_next_id head) (indices s)) ;;
      for_each restore_removed (ascending (removed_values head)) ;;
      modify_st (fun s => mk_index rest (i64 (revision s - 1)) (next_id s) (indices s))
  end.

(** The bodies of the three loops of [squash], on [prev_state]. *)
Definition squash_old (prev : undo_state) (item : Z * A) : undo_state :=
  let '(id, v) := item in
  if bool_decide (id ∈ new_ids prev) then prev
  else match old_values prev !! id with
       | Some _ => prev
       | None => mk_undo (emplace_map (old_values prev) id v) (removed_values prev) (new_ids prev)
                   (old_next_id prev) (undo_revision prev)
       end.

Definition squash_new (prev : undo_state) (ids : gset Z) : undo_state :=
  mk_undo (old_values prev) (removed_values prev) (new_ids prev ∪ ids) (old_next_id prev)
    (undo_revision prev).

Definition squash_removed (prev : undo_state) (item : Z * A) : undo_state :=
  let '(id, v) := item in
  if bool_decide (id ∈ new_ids prev) then
    mk_undo (old_values prev) (removed_values prev) (new_ids prev ∖ {[id]}) (old_next_id prev)
      (undo_revision prev)
  else match old_values prev !! id with
       | Some was =>
           mk_undo (delete id (old_values prev)) (emplace_map (removed_values prev) id was)
             (new_ids prev) (old_next_id prev) (undo_revision prev)
       | None =>
           mk_undo (old_values prev) (emplace_map (removed_values prev) id v) (new_ids prev)
             (old_next_id prev) (undo_revision prev)
       end.

Definition merge_states (prev state : undo_state) : undo_state :=
  let prev := foldl squash_old prev (ascending (old_values state)) in
  let prev := squash_new prev (new_ids state) in
  foldl squash_removed prev (ascending (removed_values state)).

Definition squash (s : generic_index) : generic_index :=
  match stack s with
  | [] => s
  | [_] => mk_index [] (i64 (revision s - 1)) (next_id s) (indices s)
  | state :: prev :: rest =>
      mk_index (merge_states prev state :: rest) (i64 (revision s - 1)) (next_id s) (indices s)
  end.

(** [while( _stack.size() && _stack[0].revision <= revision ) _stack.pop_front()]. *)
Fixpoint drop_committed (r : Z) (front_first : list undo_state) : list undo_state :=
  match front_first with
  | u :: l => if undo_revision u <=? r then drop_committed r l else u :: l
  | [] => []
  end.

Definition commit (r : Z) (s : generic_index) : generic_index :=
  set_stack (reverse (drop_committed r (reverse (stack s)))) s.

(** [while( enabled() ) undo();], a turn for each undo state. *)
Fixpoint undo_all_loop (turns : nat) : GI () :=
  s ← get_st;
  if negb (enabled s) then mret ()
  else match turns with
       | O => throw loop_bound
       | S turns => undo ;; undo_all_loop turns
       end.

Definition undo_all : GI () :=
  s ← get_st;
  undo_all_loop (length (stack s)).

Definition set_revision (r : Z) : GI () :=
  s ← get_st;
  st_assert (negb (enabled s)) std_logic_error ;;
  st_assert (r <=? i64_max) std_logic_error ;;
  put_st (mk_index (stack s) r (next_id s) (indices s)).

Definition undo_stack_revision_range (s : generic_index) : Z * Z :=
  match stack s with
  | [] => (revision s, revision s)
  | back :: _ => (i64 (undo_revision (default back (last (stack s))) - 1), undo_revision back)
  end.


(** ** The specification: a stack of snapshots *)

Record table : Type := mk_table
  { now : gmap Z A;
    now_next : Z;
    now_revision : Z;
    saved : list (gmap Z A * Z) }.

(** The content before the changes that [u] records were made to [m]. *)
Definition rewind (u : undo_state) (m : gmap Z A) : gmap Z A :=
  removed_values u ∪ (old_values u ∪ filter (fun kv => kv.1 ∉ new_ids u) m).

(** What an undo state says of one id: the value it had before it was modified,
    the value it had before it was removed, and whether it is new. *)
Definition view (u : undo_state) (k : Z) : option A * option A * bool :=
  (old_values u !! k, removed_values u !! k, bool_decide (k ∈ new_ids u)).

Definition rewind1 (e : option A * option A * bool) (x : option A) : option A :=
  let '(o, r, n) := e in
  match r with
  | Some v => Some v
  | None => match o with Some v => Some v | None => if n then None else x end
  end.

(** The entry fits the present value [x] of the id. *)
Definition entry_ok (e : option A * option A * bool) (x : option A) (fresh : Prop) : Prop :=
  let '(o, r, n) := e in
  (is_Some o → is_Some x) ∧ (n = true → is_Some x ∧ o = None ∧ r = None ∧ fresh) ∧
  (is_Some r → x = None).

(** [u] is a consistent record of changes that led to [m]. *)
Definition level (u : undo_state) (m : gmap Z A) (nid : Z) : Prop :=
  (∀ k, entry_ok (view u k) (m !! k) (old_next_id u ≤ k)) ∧ old_next_id u ≤ nid.

Definition ids_below (m : gmap Z A) (nid : Z) : Prop := ∀ k, is_Some (m !! k) → k < nid.

(** Each undo state of the stack leads from one snapshot to the next. *)
Fixpoint stacked (l : list undo_state) (m : gmap Z A) (nid : Z) (sn : list (gmap Z A * Z)) : Prop :=
  ids_below m nid ∧
  match l, sn with
  | [], [] => True
  | u :: l, (m', n') :: sn => level u m nid ∧ rewind u m = m' ∧ old_next_id u = n' ∧ stacked l m' n' sn
  | _, _ => False
  end.

(** Revisions count down from the running session to the oldest. *)
Definition revisions (s : generic_index) : Prop :=
  ∀ i u, stack s !! i = Some u → undo_revision u = revision s - Z.of_nat i.

Record implements (s : generic_index) (t : table) : Prop := mk_implements
  { im_now : indices s = now t;
    im_next : next_id s = now_next t;
    im_revision : revision s = now_revision t;
    im_saved : stacked (stack s) (indices s) (next_id s) (saved t);
    im_revisions : revisions s;
    im_bounds : i64_min + Z.of_nat (length (stack s)) ≤ revision s ≤ i64_max }.

Lemma rewind_lookup u m k : rewind u m !! k = rewind1 (view u k) (m !! k).
Proof.
  unfold rewind, rewind1, view. destruct (removed_values u !! k) eqn:E1.
  { by apply lookup_union_Some_l. }
  rewrite lookup_union_r by done. destruct (old_values u !! k) eqn:E2.
  { by apply lookup_union_Some_l. }
  rewrite lookup_union_r by done. case_bool_decide as Hn.
  - apply map_lookup_filter_None. right. intros x _ Hx. by apply Hx.
  - destruct (m !! k) eqn:E; [by apply map_lookup_filter_Some|].
    apply map_lookup_filter_None. by left.
Qed.

(** *** Recording keeps what can be rewound to *)

Definition modify1 (e : option A * option A * bool) (v : A) : option A * option A * bool :=
  let '(o, r, n) := e in
  if n then e else match o with Some _ => e | None => (Some v, r, n) end.

Definition remove1 (e : option A * option A * bool) (v : A) : option A * option A * bool :=
  let '(o, r, n) := e in
  if n then (o, r, false)
  else match o with
       | Some was => (None, match r with Some x => Some x | None => Some was end, n)
       | None => (o, match r with Some x => Some x | None => Some v end, n)
       end.

Lemma emplace_map_eq m k v :
  emplace_map m k v !! k = match m !! k with Some x => Some x | None => Some v end.
Proof. unfold emplace_map. destruct (m !! k) eqn:E; [done|]. apply lookup_insert_eq. Qed.

Lemma emplace_map_ne m k v j : j ≠ k → emplace_map m k v !! j = m !! j.
Proof. intros. unfold emplace_map. destruct (m !! k); [done|]. by apply lookup_insert_ne. Qed.

Lemma view_modify_eq u k v : view (note_modify k v u) k = modify1 (view u k) v.
Proof.
  unfold note_modify, view, modify1. destruct (bool_decide (k ∈ new_ids u)) eqn:Hb; [by rewrite Hb|].
  destruct (old_values u !! k) eqn:E; [by rewrite E, Hb|]. cbn. by rewrite emplace_map_eq, E, Hb.
Qed.

Lemma view_modify_ne u k v j : j ≠ k → view (note_modify k v u) j = view u j.
Proof.
  intros. unfold note_modify, view. case_bool_decide; [done|].
  destruct (old_values u !! k); [done|]. cbn. by rewrite emplace_map_ne.
Qed.

Lemma squash_removed_is u k v : view (squash_removed u (k, v)) k = remove1 (view u k) v.
Proof.
  unfold squash_removed, view, remove1. destruct (bool_decide (k ∈ new_ids u)) eqn:Hb; cbn.
  - by rewrite bool_decide_eq_false_2 by set_solver.
  - destruct (old_values u !! k) eqn:E; cbn; by rewrite ?lookup_delete_eq, ?emplace_map_eq, ?E, ?Hb.
Qed.

Lemma squash_removed_ne u k v j : j ≠ k → view (squash_removed u (k, v)) j = view u j.
Proof.
  intros. unfold squash_removed, view. case_bool_decide; cbn.
  - f_equal. apply bool_decide_ext. set_solver.
  - destruct (old_values u !! k); cbn; by rewrite ?lookup_delete_ne, ?emplace_map_ne.
Qed.

(** [on_remove] and [squash] treat a removal alike. *)
Lemma note_remove_is u k v j : view (note_remove k v u) j = view (squash_removed u (k, v)) j.
Proof.
  unfold note_remove, squash_removed. case_bool_decide; [done|].
  destruct (old_values u !! k); [done|]. unfold emplace_map.
  destruct (removed_values u !! k); [|done]. by destruct u.
Qed.

Lemma view_create u k j : view (note_create k u) j =
  (old_values u !! j, removed_values u !! j, bool_decide (j = k ∨ j ∈ new_ids u)).
Proof. unfold view, note_create. cbn. f_equal. apply bool_decide_ext. set_solver. Qed.

(** Case analysis on an entry. *)
Ltac by_entry :=
  repeat match goal with e : (option A * option A * bool)%type |- _ => destruct e as [[[?|] [?|]] []] end;
  cbn; intros; destruct_and?; split_and?; intros;
  repeat match goal with
  | H : is_Some (Some _) → _ |- _ => specialize (H (mk_is_Some _ _ eq_refl))
  | H : ?b = ?b → _ |- _ => specialize (H eq_refl)
  end; destruct_and?; split_and?; eauto; try discriminate; try congruence;
  try (exfalso; match goal with H : is_Some None |- _ => by destruct H end).

Lemma modify1_ok e v w F : entry_ok e (Some v) F →
  entry_ok (modify1 e v) (Some w) F ∧ rewind1 (modify1 e v) (Some w) = rewind1 e (Some v).
Proof. by_entry. Qed.

Lemma remove1_ok e v F : entry_ok e (Some v) F →
  entry_ok (remove1 e v) None F ∧ rewind1 (remove1 e v) None = rewind1 e (Some v).
Proof. by_entry. Qed.

Lemma absent_entry e F : entry_ok e None F → ¬ is_Some (rewind1 e None) → e = (None, None, false).
Proof.
  destruct e as [[[?|] [?|]] []]; cbn; intros (H1 & H2 & _) Hn; try done; exfalso.
  all: try (apply Hn; by eexists). destruct (H2 eq_refl) as [[? H] _]. discriminate H.
Qed.

Lemma note_modify_level u m nid id v w : level u m nid → m !! id = Some v →
  level (note_modify id v u) (<[id := w]> m) nid ∧
  rewind (note_modify id v u) (<[id := w]> m) = rewind u m ∧
  old_next_id (note_modify id v u) = old_next_id u.
Proof.
  intros [Hl Hx] Hid. assert (old_next_id (note_modify id v u) = old_next_id u) as Hn.
  { unfold note_modify. case_bool_decide; [done|]. by destruct (old_values u !! id). }
  pose proof (Hl id) as Hli. rewrite Hid in Hli. apply (modify1_ok _ _ w) in Hli as [H1 H2].
  split; [split; [|by rewrite Hn]|split; [apply map_eq|done]]; intros k; rewrite ?rewind_lookup, ?Hn;
    (destruct (decide (k = id)) as [->|Hne];
      [rewrite view_modify_eq, lookup_insert_eq|rewrite view_modify_ne, lookup_insert_ne by done]); try done.
  by rewrite Hid.
Qed.

Lemma note_remove_level u m nid id v : level u m nid → m !! id = Some v →
  level (note_remove id v u) (delete id m) nid ∧
  rewind (note_remove id v u) (delete id m) = rewind u m ∧
  old_next_id (note_remove id v u) = old_next_id u.
Proof.
  intros [Hl Hx] Hid. assert (old_next_id (note_remove id v u) = old_next_id u) as Hn.
  { unfold note_remove. case_bool_decide; [done|]. destruct (old_values u !! id); [done|].
    by destruct (removed_values u !! id). }
  pose proof (Hl id) as Hli. rewrite Hid in Hli. apply remove1_ok in Hli as [H1 H2].
  split; [split; [|by rewrite Hn]|split; [apply map_eq|done]]; intros k; rewrite ?rewind_lookup, ?Hn, note_remove_is;
    (destruct (decide (k = id)) as [->|Hne];
      [rewrite squash_removed_is, lookup_delete_eq|rewrite squash_removed_ne, lookup_delete_ne by done]); try done.
  by rewrite Hid.
Qed.

Lemma note_create_level u m nid id v : level u m nid → ids_below (rewind u m) (old_next_id u) →
  m !! id = None → id = nid →
  level (note_create id u) (<[id := v]> m) (nid + 1) ∧ rewind (note_create id u) (<[id := v]> m) = rewind u m.
Proof.
  intros [Hl Hx] Hb Hid ->.
  assert (view u nid = (None, None, false)) as Hv.
  { specialize (Hl nid). rewrite Hid in Hl. eapply absent_entry; [exact Hl|].
    rewrite <- Hid, <- rewind_lookup. intros ?%Hb. lia. }
  split; [split; [|cbn; lia]|apply map_eq]; intros k; specialize (Hl k);
    rewrite ?rewind_lookup, view_create;
    (destruct (decide (k = nid)) as [->|Hne]; [rewrite lookup_insert_eq|rewrite lookup_insert_ne by done]).
  - injection Hv as H1 H2 H3. rewrite H1, H2, bool_decide_eq_true_2 by by left. cbn. naive_solver.
  - rewrite (bool_decide_ext _ (k ∈ new_ids u)) by naive_solver. done.
  - rewrite Hv. injection Hv as H1 H2 H3. rewrite H1, H2, bool_decide_eq_true_2 by by left. cbn. done.
  - rewrite (bool_decide_ext _ (k ∈ new_ids u)) by naive_solver. done.
Qed.

(** *** The commands and what they mean on snapshots *)

Inductive command : Type :=
| CEmplace (c : Z → A) | CModify (id : Z) (f : A → A) | CRemove (id : Z)
| CStart | CUndo | CSquash | CCommit (r : Z).

Definition run_command (c : command) (s : generic_index) : result exn generic_index :=
  match c with
  | CEmplace f => run (emplace f) s
  | CModify id f => run (modify id f) s
  | CRemove id => run (remove id) s
  | CStart => run (start_undo_session true) s
  | CUndo => run undo s
  | CSquash => Ok (squash s)
  | CCommit r => Ok (commit r s)
  end.

Definition spec_command (c : command) (t : table) : table :=
  let '(mk_table m n r sn) := t in
  match c with
  | CEmplace f => mk_table (<[n := f n]> m) (n + 1) r sn
  | CModify id f => mk_table (alter f id m) n r sn
  | CRemove id => mk_table (delete id m) n r sn
  | CStart => mk_table m n (r + 1) ((m, n) :: sn)
  | CUndo => match sn with [] => t | (m', n') :: sn => mk_table m' n' (r - 1) sn end
  | CSquash => match sn with [] => t | _ :: sn => mk_table m n (r - 1) sn end
  | CCommit c => mk_table m n r (take (Z.to_nat (r - c)) sn)
  end.

(** *** Object operations *)

Lemma stacked_below l m nid sn : stacked l m nid sn → ids_below m nid.
Proof. destruct l; by intros [? _]. Qed.

Lemma stacked_head f s sn m2 nid2 :
  stacked (stack s) (indices s) (next_id s) sn → ids_below m2 nid2 →
  (∀ u, level u (indices s) (next_id s) → ids_below (rewind u (indices s)) (old_next_id u) →
     level (f u) m2 nid2 ∧ rewind (f u) m2 = rewind u (indices s) ∧ old_next_id (f u) = old_next_id u) →
  stacked (stack (on_head f s)) m2 nid2 sn.
Proof.
  unfold on_head. destruct (stack s) as [|u l] eqn:E; intros Hs Hb Hf; rewrite ?E; cbn in *.
  - by destruct Hs.
  - destruct Hs as [_ Hs]. destruct sn as [|[m' n'] sn]; [done|]. destruct Hs as (Hl & <- & <- & Hs).
    destruct (Hf u Hl (stacked_below _ _ _ _ Hs)) as (H1 & H2 & H3). by split_and!.
Qed.

Lemma on_head_frame f s : (∀ u, undo_revision (f u) = undo_revision u) → revisions s →
  revisions (on_head f s) ∧ revision (on_head f s) = revision s ∧
  length (stack (on_head f s)) = length (stack s) ∧ next_id (on_head f s) = next_id s ∧
  indices (on_head f s) = indices s.
Proof.
  intros Hf Hr. unfold on_head. destruct (stack s) as [|u l] eqn:E; [by rewrite E|].
  split; [|done]. intros [|i] v Hv; cbn in *.
  - injection Hv as <-. rewrite Hf. apply (Hr 0%nat). by rewrite E.
  - apply (Hr (S i)). by rewrite E.
Qed.

Lemma note_modify_revision id v u : undo_revision (note_modify id v u) = undo_revision u.
Proof. unfold note_modify. case_bool_decide; [done|]. by destruct (old_values u !! id). Qed.
Lemma note_remove_revision id v u : undo_revision (note_remove id v u) = undo_revision u.
Proof.
  unfold note_remove. case_bool_decide; [done|]. destruct (old_values u !! id); [done|].
  by destruct (removed_values u !! id).
Qed.

Lemma ids_below_insert m nid k v : ids_below m nid → k < nid → ids_below (<[k := v]> m) nid.
Proof. intros Hm Hk j [<-|Hj]%lookup_insert_is_Some'; auto. Qed.

Lemma emplace_refines f s t s' : implements s t → run_command (CEmplace f) s = Ok s' →
  implements s' (spec_command (CEmplace f) t).
Proof.
  intros [Hn Hx Hrv Hs Hr Hb] H. destruct t as [m n r sn]. cbn in *. subst.
  unfold run in H. destruct (emplace f s) as [[id|e] s1] eqn:E; [|done]. injection H as ->.
  unfold emplace in E. apply st_bind_ok in E as (s0 & s1 & Hg & E). injection Hg as <- <-.
  destruct (_ || _) eqn:Ef; [done|]. simpl_ok. to_prop. subst.
  assert (indices s !! next_id s = None) as Hno.
  { destruct (indices s !! next_id s) eqn:E; [|done]. by destruct H. }
  set (s1 := mk_index (stack s) (revision s) (next_id s + 1) (<[next_id s := f (next_id s)]> (indices s))).
  assert (revisions s1) as Hr1 by exact Hr.
  destruct (on_head_frame (note_create (next_id s)) s1 ltac:(done) Hr1) as (H1 & H2 & H3 & H4 & H5).
  split; unfold on_create; rewrite ?H2, ?H3, ?H4, ?H5; try done.
  assert (stack (on_head (note_create (next_id s)) s1) = stack (on_head (note_create (next_id s)) s)) as ->.
  { unfold on_head. cbn. by destruct (stack s) eqn:E; rewrite ?E. }
  cbn [indices next_id s1]. apply stacked_head; [done| |].
  - intros k [<-|Hk]%lookup_insert_is_Some'; [lia|]. apply (stacked_below _ _ _ _ Hs) in Hk. lia.
  - intros u Hu Hbu. destruct (note_create_level u _ _ (next_id s) (f (next_id s)) Hu Hbu Hno eq_refl). done.
Qed.

Lemma modify_refines id f s t s' : implements s t → run_command (CModify id f) s = Ok s' →
  implements s' (spec_command (CModify id f) t).
Proof.
  intros [Hn Hx Hrv Hs Hr Hb] H. destruct t as [m n r sn]. cbn in *. subst.
  unfold run in H. destruct (modify id f s) as [[[]|e] s1] eqn:E; [|done]. injection H as ->.
  unfold modify in E. apply st_bind_ok in E as (s0 & s1 & Hg & E). injection Hg as <- <-.
  destruct (indices s !! id) as [v|] eqn:Ev; [|done]. simpl_ok. subst.
  destruct (on_head_frame (note_modify id v) s (note_modify_revision id v) Hr) as (H1 & H2 & H3 & H4 & H5).
  match goal with H : indices_modify _ _ _ = _ |- _ => rename H into Hm end.
  unfold indices_modify in Hm. simpl_ok. unfold on_modify in *. rewrite H5 in Hm.
  destruct (fits (indices s) id (f v)); simpl_ok; [|discriminate]. 
  assert (alter f id (indices s) = <[id := f v]> (indices s)) as Ha.
  { apply map_eq. intros k. destruct (decide (k = id)) as [->|].
    - by rewrite lookup_alter_eq, lookup_insert_eq, Ev.
    - by rewrite lookup_alter_ne, lookup_insert_ne by done. }
  split; cbn; rewrite ?H2, ?H3, ?H4, ?Ha; try done.
  apply stacked_head; [done| |].
  - apply ids_below_insert; [by eapply stacked_below|]. by eapply stacked_below.
  - intros u Hu _. by apply note_modify_level.
Qed.

Lemma remove_refines id s t s' : implements s t → run_command (CRemove id) s = Ok s' →
  implements s' (spec_command (CRemove id) t).
Proof.
  intros [Hn Hx Hrv Hs Hr Hb] H. destruct t as [m n r sn]. cbn in *. subst.
  unfold run in H. destruct (remove id s) as [[[]|e] s1] eqn:E; [|done]. injection H as ->.
  unfold remove in E. apply st_bind_ok in E as (s0 & s1 & Hg & E). injection Hg as <- <-.
  destruct (indices s !! id) as [v|] eqn:Ev; [|done]. simpl_ok.
  destruct (on_head_frame (note_remove id v) s (note_remove_revision id v) Hr) as (H1 & H2 & H3 & H4 & H5).
  unfold on_remove. split; cbn; rewrite ?H2, ?H3, ?H4, ?H5; try done.
  apply stacked_head; [done| |].
  - intros k [_ Hk]%lookup_delete_is_Some. by eapply stacked_below.
  - intros u Hu _. by apply note_remove_level.
Qed.

(** *** [undo] *)

(** What the loops of [undo] make of the table when they finish. *)
Definition put_all (m : gmap Z A) (l : list (Z * A)) : gmap Z A :=
  foldl (fun m kv => <[kv.1 := kv.2]> m) m l.
Definition erase_all (m : gmap Z A) (l : list Z) : gmap Z A := foldl (fun m k => delete k m) m l.

(** A loop whose every turn, when it does not throw, only changes the table. *)
Lemma for_each_indices {X} (f : X → GI ()) (g : gmap Z A → X → gmap Z A) :
  (∀ x s u s', f x s = (Ok u, s') → s' = set_indices (g (indices s) x) s) →
  ∀ l s u s', for_each f l s = (Ok u, s') → s' = set_indices (foldl g (indices s) l) s.
Proof.
  intros Hf. induction l as [|x l IH]; intros s u s' H; cbn [for_each] in H; [simpl_ok; by destruct s|].
  apply st_bind_ok in H as (y & s1 & Hx & H). apply Hf in Hx. apply IH in H. by subst.
Qed.

Lemma restore_old_loop l s u s' : for_each restore_old l s = (Ok u, s') →
  s' = set_indices (put_all (indices s) l) s.
Proof.
  apply for_each_indices. clear. intros [k v] s u s' H. unfold restore_old in H.
  apply st_bind_ok in H as (s0 & s1 & Hg & H). injection Hg as <- <-.
  destruct (indices s !! k) eqn:Ek; [|done].
  simpl_ok. unfold indices_modify in *. simpl_ok. destruct (fits _ k v); simpl_ok; done.
Qed.

Lemma erase_new_loop l s u s' : for_each erase_new l s = (Ok u, s') →
  s' = set_indices (erase_all (indices s) l) s.
Proof.
  apply (for_each_indices erase_new (fun m k => delete k m)). clear. intros k s u s' H. unfold erase_new in H.
  apply st_bind_ok in H as (s0 & s1 & Hg & H). injection Hg as <- <-.
  destruct (indices s !! k) eqn:Ek; [|done]. by simpl_ok.
Qed.

Lemma restore_removed_loop l s u s' : for_each restore_removed l s = (Ok u, s') →
  s' = set_indices (put_all (indices s) l) s.
Proof.
  apply for_each_indices. clear. intros [k v] s u s' H. unfold restore_removed in H. by simpl_ok.
Qed.

Lemma put_all_lookup m o k : put_all m (ascending o) !! k = match o !! k with Some v => Some v | None => m !! k end.
Proof.
  unfold put_all. rewrite (foldl_ascending _ (fun m k => m !! k) (fun _ v => Some v)); [done|..].
  - intros. apply lookup_insert_eq.
  - intros. by apply lookup_insert_ne.
Qed.

Lemma erase_all_lookup m l k : erase_all m l !! k = if bool_decide (k ∈ l) then None else m !! k.
Proof.
  unfold erase_all. revert m. induction l as [|x l IH]; intros m; cbn; [done|]. rewrite IH.
  destruct (decide (k = x)) as [->|Hne].
  - rewrite lookup_delete_eq. rewrite (bool_decide_eq_true_2 (x ∈ x :: l)) by left. by case_bool_decide.
  - rewrite lookup_delete_ne by done. rewrite (bool_decide_ext (k ∈ x :: l) (k ∈ l)); [done|].
    rewrite elem_of_cons. naive_solver.
Qed.

Definition undone (u : undo_state) (m : gmap Z A) : gmap Z A :=
  put_all (erase_all (put_all m (ascending (old_values u))) (merge_sort Z.le (elements (new_ids u))))
    (ascending (removed_values u)).

Lemma undone_rewinds u m nid : level u m nid → undone u m = rewind u m.
Proof.
  intros [Hl _]. apply map_eq. intros k. specialize (Hl k). rewrite rewind_lookup. unfold undone.
  rewrite put_all_lookup, erase_all_lookup, put_all_lookup.
  rewrite (bool_decide_ext (k ∈ merge_sort Z.le (elements (new_ids u))) (k ∈ new_ids u))
    by (rewrite merge_sort_Permutation; apply elem_of_elements).
  unfold view, entry_ok, rewind1 in *. destruct Hl as (_ & Hn & _).
  destruct (removed_values u !! k); [done|]. destruct (bool_decide (k ∈ new_ids u)); [|done].
  destruct (Hn eq_refl) as (_ & -> & _). done.
Qed.

Lemma undo_ok u rest s s' x : stack s = u :: rest → undo s = (Ok x, s') →
  s' = mk_index rest (i64 (revision s - 1)) (old_next_id u) (undone u (indices s)).
Proof.
  intros Hst H. unfold undo in H. apply st_bind_ok in H as (s0 & s1 & Hg & H). injection Hg as <- <-.
  rewrite Hst in H. simpl_ok.
  repeat match goal with
  | H : for_each restore_old _ _ = _ |- _ => apply restore_old_loop in H; subst
  | H : for_each erase_new _ _ = _ |- _ => apply erase_new_loop in H; subst
  | H : for_each restore_removed _ _ = _ |- _ => apply restore_removed_loop in H; subst
  end. done.
Qed.

Lemma revisions_tail s u rest x y : stack s = u :: rest → revisions s →
  revisions (mk_index rest (revision s - 1) x y).
Proof.
  intros Hst Hr i v Hi. cbn in *. rewrite (Hr (S i) v) by by rewrite Hst. lia.
Qed.

Lemma undo_refines s t s' : implements s t → run_command CUndo s = Ok s' →
  implements s' (spec_command CUndo t).
Proof.
  intros [Hn Hx Hrv Hs Hr Hb] H. destruct t as [m n r sn]. cbn in *. subst.
  unfold run in H. destruct (undo s) as [[[]|e] s1] eqn:E; [|done]. injection H as ->.
  destruct (stack s) as [|u rest] eqn:Es.
  - unfold undo in E. apply st_bind_ok in E as (s0 & s1 & Hg & E). injection Hg as <- <-.
    rewrite Es in E. simpl_ok. destruct Hs as [? ?]. destruct sn; [|done].
    by split; cbn; rewrite ?Es.
  - apply (undo_ok u rest) in E; [|done]. subst s'. cbn in Hs, Hb. destruct Hs as [_ Hs].
    destruct sn as [|[m' n'] sn]; [done|]. destruct Hs as (Hl & Hrw & Hnx & Hs).
    rewrite (undone_rewinds _ _ _ Hl). rewrite i64_small by lia. cbn.
    split; cbn; try done; [by rewrite Hrw, Hnx| |lia]. by eapply revisions_tail.
Qed.

(** *** [squash] *)

Lemma view_squash_old u k v : view (squash_old u (k, v)) k = modify1 (view u k) v.
Proof. apply view_modify_eq. Qed.
Lemma view_squash_old_ne u k v j : j ≠ k → view (squash_old u (k, v)) j = view u j.
Proof. apply view_modify_ne. Qed.

Definition merge1 (e2 e1 : option A * option A * bool) : option A * option A * bool :=
  let '(o1, r1, n1) := e1 in
  let e := match o1 with Some v => modify1 e2 v | None => e2 end in
  let '(o, r, n) := e in
  let e := (o, r, n || n1) in
  match r1 with Some v => remove1 e v | None => e end.

Lemma merge_view prev state k : view (merge_states prev state) k = merge1 (view prev k) (view state k).
Proof.
  unfold merge_states. rewrite (foldl_ascending squash_removed view remove1);
    [|apply squash_removed_is|apply squash_removed_ne].
  assert (∀ u, view (squash_new u (new_ids state)) k =
            let '(o, r, n) := view u k in (o, r, n || bool_decide (k ∈ new_ids state))) as Hn.
  { intros u. unfold view, squash_new. cbn. f_equal. rewrite <- bool_decide_or. apply bool_decide_ext. set_solver. }
  rewrite Hn, (foldl_ascending squash_old view modify1); [|apply view_squash_old|apply view_squash_old_ne].
  change (view state k) with (old_values state !! k, removed_values state !! k, bool_decide (k ∈ new_ids state)).
  unfold merge1. destruct (match old_values state !! k with Some v => _ | None => _ end) as [[o r] n]. done.
Qed.

Lemma merge1_ok e1 e2 x F1 F2 : entry_ok e1 x F1 → entry_ok e2 (rewind1 e1 x) F2 →
  (F1 → ¬ is_Some (e2.1.2)) → (F1 → F2) →
  entry_ok (merge1 e2 e1) x F2 ∧ rewind1 (merge1 e2 e1) x = rewind1 e2 (rewind1 e1 x).
Proof.
  destruct e1 as [[[?|] [?|]] []], e2 as [[[?|] [?|]] []]; cbn; intros (A1 & A2 & A3) (B1 & B2 & B3) HF HFF;
    repeat match goal with
    | H : is_Some (Some _) → _ |- _ => specialize (H (mk_is_Some _ _ eq_refl))
    | H : ?b = ?b → _ |- _ => specialize (H eq_refl)
    end; destruct_and?; try discriminate; try done;
    try (exfalso; match goal with H : is_Some None |- _ => by destruct H end);
    try (exfalso; apply HF; [done|by eexists]);
    split_and!; try done; intros; try discriminate; auto;
    try (subst; match goal with H : is_Some None |- _ => by destruct H end).
Qed.

Lemma merge_states_frame prev state :
  old_next_id (merge_states prev state) = old_next_id prev ∧
  undo_revision (merge_states prev state) = undo_revision prev.
Proof.
  unfold merge_states.
  assert (∀ l u, old_next_id (foldl squash_removed u l) = old_next_id u ∧
                 undo_revision (foldl squash_removed u l) = undo_revision u) as H1.
  { induction l as [|[k v] l IH]; intros u; cbn [foldl]; [done|]. destruct (IH (squash_removed u (k, v))) as [-> ->].
    unfold squash_removed. case_bool_decide; [done|]. by destruct (old_values u !! k). }
  assert (∀ l u, old_next_id (foldl squash_old u l) = old_next_id u ∧
                 undo_revision (foldl squash_old u l) = undo_revision u) as H2.
  { induction l as [|[k v] l IH]; intros u; cbn [foldl]; [done|]. destruct (IH (squash_old u (k, v))) as [-> ->].
    unfold squash_old. case_bool_decide; [done|]. by destruct (old_values u !! k). }
  rewrite !(proj1 (H1 _ _)), !(proj2 (H1 _ _)). cbn. apply H2.
Qed.

(** The merged undo state leads from the present straight to the older snapshot. *)
Lemma merge_level prev state m nid : level state m nid →
  level prev (rewind state m) (old_next_id state) →
  ids_below (rewind prev (rewind state m)) (old_next_id prev) →
  level (merge_states prev state) m nid ∧
  rewind (merge_states prev state) m = rewind prev (rewind state m).
Proof.
  intros [H1 Hx1] [H2 Hx2] Hb. destruct (merge_states_frame prev state) as [Hn _].
  assert (∀ k, entry_ok (merge1 (view prev k) (view state k)) (m !! k) (old_next_id prev ≤ k) ∧
    rewind1 (merge1 (view prev k) (view state k)) (m !! k) =
    rewind1 (view prev k) (rewind1 (view state k) (m !! k))) as Hm.
  { intros k. eapply merge1_ok; [apply H1| | |].
    - rewrite <- rewind_lookup. apply H2.
    - intros Hk [v Hv]. cbn in Hv. specialize (Hb k). rewrite rewind_lookup in Hb.
      unfold view, rewind1 in Hb. rewrite Hv in Hb. specialize (Hb (mk_is_Some _ _ eq_refl)). lia.
    - lia. }
  split; [split|].
  - intros k. rewrite merge_view, Hn. apply Hm.
  - rewrite Hn. lia.
  - apply map_eq. intros k. rewrite !rewind_lookup, merge_view. apply Hm.
Qed.

Lemma squash_refines s t : implements s t → implements (squash s) (spec_command CSquash t).
Proof.
  intros [Hn Hx Hrv Hs Hr Hb]. destruct t as [m n r sn]. cbn in *. subst. unfold squash.
  destruct (stack s) as [|u [|p rest]] eqn:Es; cbn in Hs, Hb; destruct Hs as [Hbl Hs].
  - destruct sn; [|done]. by split; rewrite ?Es.
  - destruct sn as [|[m' n'] sn]; [done|]. destruct Hs as (_ & _ & _ & _ & Hs). destruct sn; [|done].
    rewrite i64_small by lia. split; cbn; try done; lia.
  - destruct sn as [|[m' n'] sn]; [done|]. destruct Hs as (Hl & <- & <- & Hb' & Hs).
    destruct sn as [|[m2 n2] sn]; [done|]. destruct Hs as (Hl2 & <- & <- & Hs).
    destruct (merge_level p u _ _ Hl Hl2 (stacked_below _ _ _ _ Hs)) as [H1 H2].
    destruct (merge_states_frame p u) as [H3 H4].
    rewrite i64_small by lia. split; cbn; rewrite ?H2, ?H3; try done; [|lia].
    intros [|i] v Hv; cbn in *.
    + injection Hv as <-. rewrite H4. rewrite (Hr 1%nat p) by by rewrite Es. lia.
    + rewrite (Hr (S (S i)) v) by by rewrite Es. lia.
Qed.

(** *** [commit] *)

Lemma drop_committed_take r rev l :
  (∀ i u, l !! i = Some u → undo_revision u = rev - Z.of_nat i) →
  reverse (drop_committed r (reverse l)) = take (Z.to_nat (rev - r)) l.
Proof.
  induction l as [|u l IH] using rev_ind; intros Hr; [by rewrite take_nil|].
  rewrite reverse_snoc. cbn [drop_committed]. rewrite (Hr (length l) u) by by apply list_lookup_middle.
  destruct (Z.leb_spec (rev - Z.of_nat (length l)) r).
  - rewrite IH; [by rewrite take_app_le by lia|].
    intros i v Hi. apply Hr. by apply lookup_app_l_Some.
  - rewrite reverse_cons, reverse_involutive, take_ge; [done|]. rewrite length_app. cbn. lia.
Qed.

Lemma stacked_take k : ∀ l m nid sn, stacked l m nid sn → stacked (take k l) m nid (take k sn).
Proof.
  induction k as [|k IH]; intros l m nid sn Hs; cbn; [split; [by eapply stacked_below|done]|].
  destruct l as [|u l], sn as [|[m' n'] sn]; cbn in *; try done.
  destruct Hs as (? & ? & ? & ? & Hs). split_and!; try done. by apply IH.
Qed.

Lemma commit_refines r s t : implements s t → implements (commit r s) (spec_command (CCommit r) t).
Proof.
  intros [Hn Hx Hrv Hs Hr Hb]. destruct t as [m n rv sn]. cbn in *. subst. unfold commit.
  rewrite (drop_committed_take r _ _ Hr). split; cbn; try done.
  - by apply stacked_take.
  - intros i u Hi. cbn in *. apply lookup_take_Some in Hi as [Hi _]. by apply Hr.
  - rewrite length_take. lia.
Qed.

Lemma fresh_level m nid r : level (mk_undo ∅ ∅ ∅ nid r) m nid ∧ rewind (mk_undo ∅ ∅ ∅ nid r) m = m.
Proof.
  assert (∀ k, view (mk_undo ∅ ∅ ∅ nid r) k = (None, None, false)) as Hv.
  { intros k. unfold view. cbn. rewrite !lookup_empty, bool_decide_eq_false_2; [done|]. set_solver. }
  split; [split; [|cbn; lia]|].
  - intros k. rewrite Hv. cbn. split_and!; [by intros [? ?]|done|by intros [? ?]].
  - apply map_eq. intros k. by rewrite rewind_lookup, Hv.
Qed.

Lemma start_refines s t s' : implements s t → now_revision t < i64_max →
  run_command CStart s = Ok s' → implements s' (spec_command CStart t).
Proof.
  intros [Hn Hx Hrv Hs Hr Hb] Hlt H. destruct t as [m n r sn]. cbn in *. subst. cbn in *.
  injection H as <-. rewrite i64_small by lia. split; cbn [stack revision next_id indices saved now now_next now_revision length]; try done; [| |lia].
  - split; [by eapply stacked_below|]. destruct (fresh_level (indices s) (next_id s) (revision s + 1)) as [H1 H2].
    by split_and!.
  - intros [|i] v Hv; cbn in *; [injection Hv as <-; cbn; lia|].
    rewrite (Hr i v Hv). lia.
Qed.

(** C11: the undo stack implements snapshots: whatever command succeeds on the
    table, its content, its next id, its revision and what every saved revision
    would bring back are those of a table that keeps whole copies: [undo]
    returns to the last copy, [squash] forgets it, [commit] forgets the copies
    of old revisions. *)
Theorem commands_refine_snapshots (c : command) (s : generic_index) (t : table) (s' : generic_index) :
  implements s t → (c = CStart → now_revision t < i64_max) →
  run_command c s = Ok s' → implements s' (spec_command c t).
Proof.
  intros Hi Hs H. destruct c.
  - by eapply emplace_refines.
  - by eapply modify_refines.
  - by eapply remove_refines.
  - eapply start_refines; eauto.
  - by eapply undo_refines.
  - injection H as <-. by apply squash_refines.
  - injection H as <-. by apply commit_refines.
Qed.

(** *** Sessions *)

Definition is_object_command (c : command) : bool :=
  match c with CEmplace _ | CModify _ _ | CRemove _ => true | _ => false end.

Lemma object_commands_refine ops : ∀ s t s', forallb is_object_command ops = true →
  implements s t → fold_result (fun s c => run_command c s) s ops = Ok s' →
  ∃ m n, implements s' (mk_table m n (now_revision t) (saved t)).
Proof.
  induction ops as [|c ops IH]; intros s t s' Ho Hi H; cbn [fold_result] in H.
  - injection H as <-. destruct t as [m n r sn]. by exists m, n.
  - cbn in Ho. apply andb_prop in Ho as [Hc Ho]. apply bind_ok in H as (s1 & H1 & H).
    assert (∃ m n, implements s1 (mk_table m n (now_revision t) (saved t))) as (m & n & Hi1).
    { destruct t as [m n r sn]. destruct c; try done.
      - apply (emplace_refines _ _ _ _ Hi) in H1. eauto.
      - apply (modify_refines _ _ _ _ _ Hi) in H1. eauto.
      - apply (remove_refines _ _ _ _ Hi) in H1. eauto. }
    destruct (IH _ _ _ Ho Hi1 H) as (m' & n' & ?). eauto.
Qed.

(** Undoing a session discards it: after any objects are created, modified
    and removed in a session, [undo] leaves the table with exactly the objects,
    the next id and the revision it had when the session started. *)
Theorem undo_discards_session (ops : list command) (s : generic_index) (t : table) (s' : generic_index) :
  implements s t → now_revision t < i64_max → forallb is_object_command ops = true →
  fold_result (fun s c => run_command c s) s (CStart :: ops ++ [CUndo]) = Ok s' →
  indices s' = indices s ∧ next_id s' = next_id s ∧ revision s' = revision s ∧ implements s' t.
Proof.
  intros Hi Hr Ho H. cbn [fold_result] in H. apply bind_ok in H as (s1 & H1 & H).
  apply (start_refines _ _ _ Hi Hr) in H1. destruct t as [m n r sn].
  assert (∃ s2, fold_result (fun s c => run_command c s) s1 ops = Ok s2 ∧ run_command CUndo s2 = Ok s') as (s2 & H2 & H3).
  { clear -H. revert s1 H. induction ops as [|c ops IH]; intros s1 H.
    - apply bind_ok in H as (s2 & H & H'). injection H' as <-. by exists s1.
    - apply bind_ok in H as (s2 & Hc & H). destruct (IH _ H) as (s3 & H3 & H4). exists s3.
      cbn [fold_result]. by rewrite Hc. }
  destruct (object_commands_refine ops _ _ _ Ho H1 H2) as (m' & n' & Hi2). cbn in Hi2.
  apply (undo_refines _ _ _ Hi2) in H3. cbn in H3. replace (r + 1 - 1) with r in H3 by lia.
  destruct Hi, H3. cbn in *. split_and!; try congruence. done.
Qed.

(** *** When [undo] succeeds *)

Section NoSecondaryKeys.
Hypothesis no_conflict : ∀ v w, conflict v w = false.

Lemma fits_always m k v : fits m k v = true.
Proof. unfold fits. apply forallb_forall. intros [j w] _. rewrite no_conflict. apply orb_true_r. Qed.

Lemma restore_old_runs l : ∀ s, (∀ k v, (k, v) ∈ l → is_Some (indices s !! k)) →
  for_each restore_old l s = (Ok (), set_indices (put_all (indices s) l) s).
Proof.
  induction l as [|[k v] l IH]; intros s Hin; cbn [for_each]; [by destruct s|].
  destruct (Hin k v ltac:(left)) as [x Hx].
  assert (restore_old (k, v) s = (Ok (), set_indices (<[k := v]> (indices s)) s)) as Hstep.
  { unfold restore_old, indices_modify, get_st, mbind, st_bind. by rewrite Hx, fits_always. }
  unfold mbind, st_bind in *. rewrite Hstep. rewrite IH; [done|].
  intros j w Hj. cbn. apply lookup_insert_is_Some'. right. apply (Hin j w). by right.
Qed.

Lemma erase_new_runs l : NoDup l → ∀ s, (∀ k, k ∈ l → is_Some (indices s !! k)) →
  for_each erase_new l s = (Ok (), set_indices (erase_all (indices s) l) s).
Proof.
  induction 1 as [|k l Hk Hnd IH]; intros s Hin; cbn [for_each]; [by destruct s|].
  destruct (Hin k ltac:(left)) as [x Hx].
  assert (erase_new k s = (Ok (), set_indices (delete k (indices s)) s)) as Hstep.
  { unfold erase_new, get_st, mbind, st_bind. by rewrite Hx. }
  unfold mbind, st_bind in *. rewrite Hstep. rewrite IH; [done|].
  intros j Hj. cbn. rewrite lookup_delete_ne by (intros ->; done). apply Hin. by right.
Qed.

Lemma restore_removed_runs l : NoDup l.*1 → ∀ s, (∀ k v, (k, v) ∈ l → indices s !! k = None) →
  for_each restore_removed l s = (Ok (), set_indices (put_all (indices s) l) s).
Proof.
  induction l as [|[k v] l IH]; intros Hnd s Hin; cbn [for_each]; [by destruct s|].
  apply NoDup_cons in Hnd as [Hk Hnd].
  assert (restore_removed (k, v) s = (Ok (), set_indices (<[k := v]> (indices s)) s)) as Hstep.
  { unfold restore_removed, get_st, mbind, st_bind. rewrite (Hin k v ltac:(left)), fits_always. done. }
  unfold mbind, st_bind in *. rewrite Hstep. rewrite IH; [done|done|].
  intros j w Hj. cbn. rewrite lookup_insert_ne; [apply (Hin j w); by right|].
  intros ->. apply Hk. apply list_elem_of_fmap. by exists (j, w).
Qed.

(** A table without secondary unique keys can always be undone. *)
Theorem undo_never_throws (s : generic_index) (t : table) : implements s t → ∃ s', run_command CUndo s = Ok s'.
Proof.
  intros [_ _ _ Hs _ _]. cbn. unfold run. destruct (stack s) as [|u rest] eqn:Es.
  - exists s. unfold undo, get_st, mbind, st_bind. by rewrite Es.
  - cbn in Hs. destruct Hs as [_ Hs]. destruct (saved t) as [|[m' n'] sn]; [done|].
    destruct Hs as ([Hl _] & _).
    unfold undo, get_st, mbind, st_bind. rewrite Es.
    rewrite restore_old_runs.
    2:{ intros k v Hk%elem_of_ascending. destruct (Hl k) as (H1 & _). rewrite Hk in H1. apply H1. by eexists. }
    rewrite erase_new_runs.
    2:{ rewrite merge_sort_Permutation. apply NoDup_elements. }
    2:{ intros k Hk. rewrite merge_sort_Permutation in Hk. apply elem_of_elements in Hk. cbn.
        rewrite put_all_lookup. destruct (Hl k) as (_ & H2 & _). rewrite bool_decide_eq_true_2 in H2 by done.
        destruct (H2 eq_refl) as (? & -> & _). done. }
    cbn [modify_st]. unfold modify_st. rewrite restore_removed_runs; [by eexists|apply ascending_nodup|].
    intros k v Hk%elem_of_ascending. cbn. rewrite erase_all_lookup, put_all_lookup.
    destruct (Hl k) as (H1 & _ & H3). rewrite Hk in H3. specialize (H3 ltac:(by eexists)). rewrite H3 in *.
    destruct (old_values u !! k); [by destruct (H1 ltac:(by eexists))|]. by case_bool_decide.
Qed.
End NoSecondaryKeys.

End Index.
Arguments undo_state : clear implicits.
Arguments generic_index : clear implicits.
Arguments table : clear implicits.
Arguments command : clear implicits.

(** ** A table of numbers *)
Module TableDemo.
Definition never (v w : Z) : bool := false.
(** Equal values collide, as in a table with a unique key on the value. *)
Definition same (v w : Z) : bool := v =? w.

Definition empty : generic_index Z := mk_index [] 0 0 ∅.
Definition empty_table : table Z := mk_table ∅ 0 0 [].

Lemma empty_implements : implements empty empty_table.
Proof.
  split; try done.
  - split; [|done]. intros k [v Hv]. cbn in Hv. by rewrite lookup_empty in Hv.
Qed.

Definition changes : list (command Z) :=
  [CEmplace (fun id => 10 + id); CEmplace (fun id => 10 + id); CModify 0 (Z.add 5); CRemove 1].
End TableDemo.

Lemma commands_refine_snapshots_witness : ∃ s',
  run_command TableDemo.same CStart TableDemo.empty = Ok s' ∧
  implements s' (spec_command CStart TableDemo.empty_table).
Proof.
  eexists. split; [reflexivity|].
  apply (commands_refine_snapshots TableDemo.same CStart TableDemo.empty).
  - exact TableDemo.empty_implements.
  - intros _. reflexivity.
  - reflexivity.
Defined.

Lemma undo_discards_session_witness : ∃ s',
  fold_result (fun s c => run_command TableDemo.same c s) TableDemo.empty
    (CStart :: TableDemo.changes ++ [CUndo]) = Ok s' ∧ indices s' = ∅.
Proof.
  eexists. split; [vm_compute; reflexivity|].
  refine (proj1 (undo_discards_session TableDemo.same TableDemo.changes TableDemo.empty
                   TableDemo.empty_table _ TableDemo.empty_implements _ _ _)); vm_compute; reflexivity.
Defined.

Lemma undo_never_throws_witness : ∃ s', run_command TableDemo.never CUndo TableDemo.empty = Ok s'.
Proof.
  apply (undo_never_throws TableDemo.never ltac:(reflexivity) TableDemo.empty TableDemo.empty_table
           TableDemo.empty_implements).
Defined.

(** With a secondary unique key the same is not true: when an object gives up
    its key inside a session and a new object takes it, the first loop of
    [undo] puts the old key back while the new object still holds it, so the
    undo throws and the modified object is gone from the table. *)
Theorem undo_key_reuse_throws :
  ∃ s, fold_result (fun s c => run_command TableDemo.same c s) TableDemo.empty
         [CEmplace (fun _ => 5); CStart; CModify 0 (fun _ => 6); CEmplace (fun _ => 5)] = Ok s ∧
    (undo TableDemo.same s).1 = Err std_logic_error ∧
    indices (undo TableDemo.same s).2 !! 0 = None.
Proof. eexists. split; [vm_compute; reflexivity|]. vm_compute. done. Qed.

End Chainbase.
