(* ===== verification/EosLib.v ===== *)
(** * What the contracts take from [contracts/eosiolib]

    Symbols and assets ([symbol.hpp], [asset.hpp]), and the environment an
    action runs in.  A failed [eosio_assert] aborts the transaction, so the
    error of a contract action is its message and the state after it is of no
    consequence. *)

From S2P Require Import Prelude Exceptions Name.

Module Symbol.

(** [string_to_symbol] of a NUL-terminated string; characters other than upper
    case letters are skipped without an error. *)
Fixpoint string_to_symbol_loop (str : cstring) (i : Z) (result : Z) : Z :=
  match str with
  | [] => result
  | c :: rest =>
      if (code c <? 65) || (90 <? code c) then string_to_symbol_loop rest (i + 1) result
      else string_to_symbol_loop rest (i + 1) (Z.lor result (u64 (Z.shiftl (code c) (8 * (1 + i)))))
  end.

Definition string_to_symbol (precision : Z) (str : cstring) : Z :=
  Z.lor (string_to_symbol_loop (c_str str) 0 0) precision.

Definition is_letter (c : Z) : bool := (65 <=? c) && (c <=? 90).

(** The inner [do]-[while] of [is_valid_symbol]: the rest must be empty.  [n] is
    what is left of the count to seven. *)
Fixpoint only_zeros (n : nat) (sym : Z) : bool :=
  let sym := Z.shiftr sym 8 in
  if negb (Z.land sym 0xff =? 0) then false
  else match n with
       | O | S O => true
       | S n => only_zeros n sym
       end.

Fixpoint is_valid_symbol_loop (n : nat) (sym : Z) : bool :=
  match n with
  | O => true
  | S n' =>
      if negb (is_letter (Z.land sym 0xff)) then false
      else
        let sym := Z.shiftr sym 8 in
        if Z.land sym 0xff =? 0 then only_zeros n sym
        else is_valid_symbol_loop n' sym
  end.

Definition is_valid_symbol (sym : Z) : bool := is_valid_symbol_loop 7 (Z.shiftr sym 8).

Definition name (sym : Z) : Z := Z.shiftr sym 8.
Definition precision (sym : Z) : Z := Z.land sym 0xff.

Definition CORE_SYMBOL : Z := string_to_symbol 4 (lit "BACC").

Example core_symbol_valid : is_valid_symbol CORE_SYMBOL = true ∧ precision CORE_SYMBOL = 4.
Proof. vm_compute. done. Qed.

Example symbol_gap_rejected : is_valid_symbol 0x00430041_04 = false ∧ is_valid_symbol 0x4142_04 = true ∧
  is_valid_symbol 0x5A5A5A5A5A5A5A_00 = true.
Proof. vm_compute. done. Qed.

End Symbol.

Module Asset.

Record asset : Type := mk_asset { amount : Z; symbol : Z }.

#[export] Instance asset_eq_dec : EqDecision asset.
Proof. solve_decision. Defined.

Abbreviation R := (result string).

Definition max_amount : Z := 2 ^ 62 - 1.

Definition is_amount_within_range (a : asset) : bool :=
  (- max_amount <=? amount a) && (amount a <=? max_amount).
Definition is_valid (a : asset) : bool :=
  is_amount_within_range a && Symbol.is_valid_symbol (symbol a).

(** The constructor. *)
Definition asset_of (a s : Z) : R asset :=
  let r := mk_asset a s in
  eos_assert (is_amount_within_range r) "magnitude of asset amount must be less than 2^62"%string ;;
  eos_assert (Symbol.is_valid_symbol s) "invalid symbol name"%string ;;
  mret r.

(** [asset{ a }]. *)
Definition core_asset (a : Z) : R asset := asset_of a Symbol.CORE_SYMBOL.

(** [asset{}] and [asset{ 0 }], whose checks hold. *)
Definition asset0 : asset := mk_asset 0 Symbol.CORE_SYMBOL.

Definition opp (a : asset) : asset := mk_asset (i64 (- amount a)) (symbol a).

Definition sub_assign (a b : asset) : R asset :=
  eos_assert (symbol b =? symbol a) "attempt to subtract asset with different symbol"%string ;;
  let v := i64 (amount a - amount b) in
  eos_assert (- max_amount <=? v) "subtraction underflow"%string ;;
  eos_assert (v <=? max_amount) "subtraction overflow"%string ;;
  mret (mk_asset v (symbol a)).

Definition add_assign (a b : asset) : R asset :=
  eos_assert (symbol b =? symbol a) "attempt to add asset with different symbol"%string ;;
  let v := i64 (amount a + amount b) in
  eos_assert (- max_amount <=? v) "addition underflow"%string ;;
  eos_assert (v <=? max_amount) "addition overflow"%string ;;
  mret (mk_asset v (symbol a)).

Definition mul_assign (a : asset) (b : Z) : R asset :=
  let tmp := i128 (amount a * b) in
  eos_assert (tmp <=? max_amount) "multiplication overflow"%string ;;
  eos_assert (- max_amount <=? tmp) "multiplication underflow"%string ;;
  mret (mk_asset (i64 tmp) (symbol a)).

Definition div_assign (a : asset) (b : Z) : R asset :=
  eos_assert (negb (b =? 0)) "divide by zero"%string ;;
  eos_assert (negb ((amount a =? i64_min) && (b =? -1))) "signed division overflow"%string ;;
  mret (mk_asset (Z.quot (amount a) b) (symbol a)).

Definition compare (f : Z → Z → bool) (a b : asset) : R bool :=
  eos_assert (symbol a =? symbol b) "comparison of assets with different symbols is not allowed"%string ;;
  mret (f (amount a) (amount b)).

Definition eqb : asset → asset → R bool := compare Z.eqb.
Definition ltb : asset → asset → R bool := compare Z.ltb.
Definition leb : asset → asset → R bool := compare Z.leb.
Definition gtb : asset → asset → R bool := compare Z.gtb.
Definition geb : asset → asset → R bool := compare Z.geb.

(** *** Sums that do not wrap *)

Definition in_range (a : asset) : Prop := - max_amount ≤ amount a ≤ max_amount.

Lemma within_range_spec a : is_amount_within_range a = true ↔ in_range a.
Proof. unfold is_amount_within_range, in_range. rewrite andb_true_iff, !Z.leb_le. done. Qed.

(** The amount of an asset that came with the action is only known to fit a
    64-bit word; a sum that wraps is far outside the range and is refused. *)
Definition fits (a : asset) : Prop := i64_min ≤ amount a ≤ i64_max.

Lemma wrap_refused x : - max_amount - i64_max - 1 ≤ x ≤ max_amount + i64_max →
  - max_amount ≤ i64 x ≤ max_amount → i64 x = x.
Proof.
  intros Hx Hr. unfold i64, wraps in *. change (2 ^ (64 - 1)) with (2 ^ 63) in *.
  unfold max_amount, i64_max in *.
  pose proof (Z.div_mod (x + 2 ^ 63) (2 ^ 64) ltac:(lia)) as Hd.
  pose proof (Z.mod_pos_bound (x + 2 ^ 63) (2 ^ 64) ltac:(lia)) as Hb.
  enough ((x + 2 ^ 63) / 2 ^ 64 = 0) as Hq by (rewrite Hq in Hd; lia). nia.
Qed.

Lemma add_assign_exact a b c : fits a → in_range b → add_assign a b = Ok c →
  symbol b = symbol a ∧ c = mk_asset (amount a + amount b) (symbol a) ∧ in_range c.
Proof.
  unfold fits, in_range. intros Ha Hb H. unfold add_assign in H. simpl_ok. to_prop.
  assert (i64 (amount a + amount b) = amount a + amount b) as E
    by (apply wrap_refused; [unfold max_amount, i64_min, i64_max in *|]; lia).
  rewrite E in *. cbn. split_and!; done.
Qed.

Lemma sub_assign_exact a b c : fits a → in_range b → sub_assign a b = Ok c →
  symbol b = symbol a ∧ c = mk_asset (amount a - amount b) (symbol a) ∧ in_range c.
Proof.
  unfold fits, in_range. intros Ha Hb H. unfold sub_assign in H. simpl_ok. to_prop.
  assert (i64 (amount a - amount b) = amount a - amount b) as E
    by (apply wrap_refused; [unfold max_amount, i64_min, i64_max in *|]; lia).
  rewrite E in *. cbn. split_and!; done.
Qed.

Lemma compare_ok f a b r : compare f a b = Ok r ↔ symbol a = symbol b ∧ r = f (amount a) (amount b).
Proof.
  unfold compare. split.
  - intros H. simpl_ok. by to_prop.
  - intros [-> ->]. by rewrite Z.eqb_refl.
Qed.

Lemma mul_assign_ok a b c : mul_assign a b = Ok c → - 2 ^ 127 ≤ amount a * b < 2 ^ 127 →
  c = mk_asset (amount a * b) (symbol a) ∧ in_range c.
Proof.
  intros H Hb. unfold mul_assign in H. simpl_ok. to_prop.
  assert (i128 (amount a * b) = amount a * b) as E by (apply wraps_small; [lia|exact Hb]).
  rewrite E in *. unfold in_range. cbn.
  rewrite i64_small by (unfold max_amount, i64_min, i64_max in *; lia). done.
Qed.

(** Adding or subtracting two amounts in range cannot wrap a 64-bit word, so
    the result is exact or the operation fails. *)
Lemma add_assign_ok a b c : in_range a → in_range b →
  add_assign a b = Ok c ↔ symbol b = symbol a ∧ c = mk_asset (amount a + amount b) (symbol a) ∧ in_range c.
Proof.
  unfold in_range, add_assign, max_amount. intros Ha Hb. cbn zeta.
  rewrite i64_small by (unfold i64_min, i64_max; lia). split.
  - intros H. simpl_ok. to_prop. cbn. split_and!; done.
  - intros (Hs & -> & Hr). cbn in Hr. rewrite Hs, Z.eqb_refl.
    cbn. rewrite (proj2 (Z.leb_le _ _)), (proj2 (Z.leb_le _ _)) by lia. done.
Qed.

Lemma sub_assign_ok a b c : in_range a → in_range b →
  sub_assign a b = Ok c ↔ symbol b = symbol a ∧ c = mk_asset (amount a - amount b) (symbol a) ∧ in_range c.
Proof.
  unfold in_range, sub_assign, max_amount. intros Ha Hb. cbn zeta.
  rewrite i64_small by (unfold i64_min, i64_max; lia). split.
  - intros H. simpl_ok. to_prop. cbn. split_and!; done.
  - intros (Hs & -> & Hr). cbn in Hr. rewrite Hs, Z.eqb_refl.
    cbn. rewrite (proj2 (Z.leb_le _ _)), (proj2 (Z.leb_le _ _)) by lia. done.
Qed.

End Asset.

(** ** The environment of an action *)

(** Who authorized it, when and where it runs. *)
Record action_env : Type := mk_env
  { self : Z;
    authorized : gset Z;
    env_block_num : Z;
    env_now : Z;
    is_account : Z → bool;
    active_producers : list Z }.

Definition require_auth {S} (e : action_env) (a : Z) : ST S string () :=
  st_assert (bool_decide (a ∈ authorized e)) "missing authority"%string.

(** Lookups of a table: [get] with a message. *)
Definition table_get {S A} (m : gmap Z A) (k : Z) (msg : string) : ST S string A :=
  lift (of_option (m !! k) msg).
