(* ===== verification/ChainAsset.v ===== *)
(** * Assets and symbols of the chain library

    [symbol.hpp], [asset.hpp] and [asset.cpp] of [libraries/chain]: amounts with a
    symbol, printed and parsed.

    Trimming and the conversions between integers and text are Boost's: the class
    [BoostText] has the functions, [BoostTextLaws] what the code relies on.  An
    exception keeps its class through [FC_CAPTURE_LOG_AND_RETHROW].  A shift by
    64 bits or more is [undefined_behavior]. *)

From Stdlib Require Import Ascii.
From S2P Require Import Prelude Exceptions Name.

Module ChainAsset.

Abbreviation R := (result exn).

(** ** Text *)

Class BoostText : Type :=
  { (** [boost::algorithm::trim_copy] *)
    trim : cstring → cstring;
    (** [boost::lexical_cast<int64_t>]; [None] is [bad_lexical_cast] *)
    parse_int64 : cstring → option Z;
    (** [boost::lexical_cast<std::string>] of an integer *)
    print_int64 : Z → cstring }.

Definition digit (d : Z) : ascii := ascii_of_N (Z.to_N (48 + d)).
Definition is_digit (c : ascii) : Prop := 48 ≤ code c ≤ 57.
#[export] Instance is_digit_dec c : Decision (is_digit c).
Proof. unfold is_digit. apply _. Defined.

(** Decimal digits of a number that has at most [fuel] of them; [std::to_string]
    of a [size_t] is this with enough fuel. *)
Fixpoint digits (fuel : nat) (z : Z) : cstring :=
  match fuel with
  | O => []
  | S fuel => if z <? 10 then [digit z] else digits fuel (z / 10) ++ [digit (z mod 10)]
  end.

Definition to_string_size (z : Z) : cstring := digits 20 z.

(** The number that digits stand for. *)
Definition number (l : cstring) : Z := foldl (fun z c => 10 * z + (code c - 48)) 0 l.

Definition space : ascii := " "%char.
Definition is_space (c : ascii) : Prop := code c = 32 ∨ 9 ≤ code c ≤ 13.

(** Text that starts and ends with characters that are no spaces stays; digits
    with or without a minus sign are integers; a natural number prints as its
    digits. *)
Class BoostTextLaws `{BoostText} : Prop :=
  { trim_id : ∀ l, (∀ c, head l = Some c → ¬ is_space c) → (∀ c, last l = Some c → ¬ is_space c) → trim l = l;
    parse_digits : ∀ l, l ≠ [] → Forall is_digit l → number l ≤ i64_max → parse_int64 l = Some (number l);
    parse_negative : ∀ l, l ≠ [] → Forall is_digit l → number l ≤ i64_max →
      parse_int64 ("-"%char :: l) = Some (- number l);
    print_digits : ∀ z, 0 ≤ z ≤ i64_max → print_int64 z = digits 20 z }.

(** [std::string::find] of a character, and the two halves around it. *)
Fixpoint find_char (c : ascii) (s : cstring) : option nat :=
  match s with
  | [] => None
  | x :: s => if decide (x = c) then Some 0%nat else S <$> find_char c s
  end.

(** ** Symbols *)

Definition max_precision : Z := 18.
Definition decimals (v : Z) : Z := Z.land v 0xFF.

Definition is_upper (c : ascii) : bool := (65 <=? code c) && (code c <=? 90).
Definition valid_name (s : cstring) : bool := forallb is_upper s.

(** [while( v > 0 )] on seven bytes. *)
Fixpoint name_loop (fuel : nat) (v : Z) : cstring :=
  match fuel with
  | O => []
  | S fuel => if 0 <? v then ascii_of_N (Z.to_N (Z.land v 0xFF)) :: name_loop fuel (Z.shiftr v 8) else []
  end.
Definition symbol_name (v : Z) : cstring := name_loop 7 (Z.shiftr v 8).

Definition valid (v : Z) : bool := (decimals v <=? max_precision) && valid_name (symbol_name v).

(** [p10 *= 10], [decimals] times, on 64-bit words. *)
Fixpoint power10 (n : nat) (p10 : Z) : Z :=
  match n with O => p10 | S n => power10 n (u64 (p10 * 10)) end.
Definition precision (v : Z) : R Z :=
  eos_assert (decimals v <=? max_precision) symbol_type_exception ;;
  mret (power10 (Z.to_nat (decimals v)) 1).

Fixpoint string_to_symbol_loop (s : cstring) (i result : Z) : R Z :=
  match s with
  | [] => mret result
  | c :: s =>
      eos_assert (is_upper c) symbol_type_exception ;;
      if 64 <=? 8 * (i + 1) then Err undefined_behavior
      else string_to_symbol_loop s (i + 1) (Z.lor result (u64 (Z.shiftl (code c) (8 * (i + 1)))))
  end.

Definition string_to_symbol (prec : Z) (s : cstring) : R Z :=
  result ← string_to_symbol_loop (c_str s) 0 0;
  mret (Z.lor result prec).

(** The constructor from a value. *)
Definition make_symbol (v : Z) : R Z := eos_assert (valid v) symbol_type_exception ;; mret v.

Section Text.
Context `{BoostText}.

Definition to_int64 (s : cstring) : R Z := of_option (parse_int64 s) fc_parse_error_exception.

Definition symbol_to_string (v : Z) : cstring :=
  to_string_size (Z.land v 0xFF) ++ [","%char] ++ symbol_name v.

(** The precision is narrowed to a byte before it is compared. *)
Definition symbol_from_string (from : cstring) : R Z :=
  let s := trim from in
  eos_assert (match s with [] => false | _ => true end) symbol_type_exception ;;
  comma_pos ← of_option (find_char ","%char s) symbol_type_exception;
  p ← to_int64 (take comma_pos s);
  let p := u8 p in
  let name_part := drop (S comma_pos) s in
  eos_assert (p <=? max_precision) symbol_type_exception ;;
  v ← string_to_symbol p name_part;
  make_symbol v.

(** ** Assets *)

Record asset : Type := mk_asset { amount : Z; sym : Z }.

Definition max_amount : Z := 2 ^ 62 - 1.
Definition is_amount_within_range (a : Z) : bool := (- max_amount <=? a) && (a <=? max_amount).

Definition make_asset (a s : Z) : R asset :=
  eos_assert (is_amount_within_range a) asset_type_exception ;;
  eos_assert (valid s) asset_type_exception ;;
  mret (mk_asset a s).

Definition to_string (a : asset) : R cstring :=
  let sign := if amount a <? 0 then ["-"%char] else [] in
  eos_assert (negb (amount a =? i64_min)) undefined_behavior ;;
  let abs_amount := Z.abs (amount a) in
  p ← precision (sym a);
  let result := print_int64 (Z.quot abs_amount p) in
  result ← (if decimals (sym a) =? 0 then mret result
            else let fract := Z.rem abs_amount p in
                 mret (result ++ ["."%char] ++ drop 1 (print_int64 (p + fract))));
  mret (sign ++ result ++ [space] ++ symbol_name (sym a)).

(** [operator+] and [operator*] of [safe<int64_t>], with their tests. *)
Definition safe_add (a b : Z) : R Z :=
  if (0 <? b) && (i64_max - b <? a) then Err fc_overflow_exception
  else if (b <? 0) && (a <? i64_min - b) then Err fc_underflow_exception
  else mret (a + b).
Definition safe_mul (a b : Z) : R Z :=
  if 0 <? a then
    if 0 <? b then if Z.quot i64_max b <? a then Err fc_overflow_exception else mret (a * b)
    else if b <? Z.quot i64_min a then Err fc_underflow_exception else mret (a * b)
  else
    if 0 <? b then if a <? Z.quot i64_min b then Err fc_underflow_exception else mret (a * b)
    else if negb (a =? 0) && (b <? Z.quot i64_max a) then Err fc_overflow_exception else mret (a * b).

(** [operator +] and [operator -] on assets: signed overflow is undefined, the
    constructor checks the range. *)
Definition asset_add (a b : asset) : R asset :=
  eos_assert (sym a =? sym b) asset_type_exception ;;
  let z := amount a + amount b in
  eos_assert ((i64_min <=? z) && (z <=? i64_max)) undefined_behavior ;;
  make_asset z (sym a).
Definition asset_sub (a b : asset) : R asset :=
  eos_assert (sym a =? sym b) asset_type_exception ;;
  let z := amount a - amount b in
  eos_assert ((i64_min <=? z) && (z <=? i64_max)) undefined_behavior ;;
  make_asset z (sym a).
(** [operator +=] does not check the range. *)
Definition asset_add_assign (a b : asset) : R asset :=
  eos_assert (sym a =? sym b) asset_type_exception ;;
  let z := amount a + amount b in
  eos_assert ((i64_min <=? z) && (z <=? i64_max)) undefined_behavior ;;
  mret (mk_asset z (sym a)).
Definition asset_sub_assign (a b : asset) : R asset :=
  eos_assert (sym a =? sym b) asset_type_exception ;;
  let z := amount a - amount b in
  eos_assert ((i64_min <=? z) && (z <=? i64_max)) undefined_behavior ;;
  mret (mk_asset z (sym a)).
Definition asset_eqb (a b : asset) : bool := (sym a =? sym b) && (amount a =? amount b).
Definition asset_ltb (a b : asset) : R bool :=
  eos_assert (sym a =? sym b) asset_type_exception ;;
  mret ((amount a <? amount b) || ((amount a =? amount b) && (sym a <? sym b))).
Definition asset_leb (a b : asset) : R bool := if asset_eqb a b then mret true else asset_ltb a b.

(** The part of [from_string] after the text is split at the space. *)
Definition from_parts (amount_str symbol_str : cstring) : R asset :=
  let dot_pos := find_char "."%char amount_str in
  eos_assert (match dot_pos with
              | Some d => negb (Z.of_nat d =? Z.of_nat (length amount_str) - 1)
              | None => true
              end) asset_type_exception ;;
  let precision_digit_str := match dot_pos with
                             | Some d => to_string_size (Z.of_nat (length amount_str - d - 1))
                             | None => ["0"%char]
                             end in
  sy ← symbol_from_string (precision_digit_str ++ [","%char] ++ symbol_str);
  '(int_part, fract_part) ←
    (match dot_pos with
     | Some d =>
         i ← to_int64 (take d amount_str);
         f ← to_int64 (drop (S d) amount_str);
         f ← (if bool_decide (char_at amount_str 0 = "-"%char) then safe_mul f (-1) else mret f);
         mret (i, f)
     | None => i ← to_int64 amount_str; mret (i, 0)
     end);
  p ← precision sy;
  am ← safe_mul int_part p;
  am ← safe_add am fract_part;
  make_asset am sy.

Definition from_string (from : cstring) : R asset :=
  let s := trim from in
  space_pos ← of_option (find_char space s) asset_type_exception;
  let symbol_str := trim (drop (S space_pos) s) in
  let amount_str := take space_pos s in
  from_parts amount_str symbol_str.
End Text.

(** ** Decimal text *)

Definition decimal (z : Z) : Prop := 0 ≤ z < 10.

Lemma code_digit d : decimal d → code (digit d) = 48 + d.
Proof.
  unfold decimal, code, digit. intros Hd. rewrite N_ascii_embedding; lia.
Qed.

Lemma digit_is_digit d : decimal d → is_digit (digit d).
Proof. intros Hd. unfold is_digit. rewrite code_digit by done. unfold decimal in Hd. lia. Qed.

Lemma decimal_mod z : decimal (z mod 10).
Proof. apply Z.mod_pos_bound. lia. Qed.
Hint Resolve digit_is_digit decimal_mod : core.

Lemma number_snoc l d : decimal d → number (l ++ [digit d]) = 10 * number l + d.
Proof. intros Hd. unfold number. rewrite foldl_app. cbn. rewrite code_digit by done. lia. Qed.

Lemma digits_correct fuel z :
  0 ≤ z < 10 ^ Z.of_nat fuel → (0 < fuel)%nat →
  digits fuel z ≠ [] ∧ Forall is_digit (digits fuel z) ∧ number (digits fuel z) = z.
Proof.
  revert z. induction fuel as [|fuel IH]; intros z Hz Hf; [lia|]. cbn [digits].
  destruct (Z.ltb_spec z 10).
  - split; [done|]. split; [by constructor; [apply digit_is_digit; unfold decimal; lia|]|].
    cbn. rewrite code_digit by (unfold decimal; lia). lia.
  - rewrite Nat2Z.inj_succ, Z.pow_succ_r in Hz by lia.
    destruct fuel as [|fuel]; [cbn in Hz; lia|].
    destruct (IH (z / 10)) as (_ & Hd & Hn); [|lia|].
    { split; [apply Z.div_pos; lia|apply Z.div_lt_upper_bound; lia]. }
    split; [by intros [_ ?]%app_nil|]. split; [by apply Forall_app_2; [|constructor; auto]|].
    rewrite number_snoc, Hn by auto. symmetry. apply Z.div_mod. lia.
Qed.

(** The digits of [10 ^ n + f] are a one and then [f] on [n] places. *)
Lemma digits_padded n fuel f :
  0 ≤ f < 10 ^ Z.of_nat n → (n < fuel)%nat →
  ∃ w, digits fuel (10 ^ Z.of_nat n + f) = digit 1 :: w ∧ length w = n ∧ Forall is_digit w ∧ number w = f.
Proof.
  revert fuel f. induction n as [|n IH]; intros [|fuel] f Hf Hn; try lia.
  - exists []. assert (f = 0) as -> by (cbn in Hf; lia). done.
  - rewrite Nat2Z.inj_succ, Z.pow_succ_r in Hf |- * by lia.
    pose proof (Z.pow_pos_nonneg 10 (Z.of_nat n)).
    destruct (IH fuel (f / 10)) as (w & Hw & Hlen & Hd & Hv); [|lia|].
    { split; [apply Z.div_pos; lia|apply Z.div_lt_upper_bound; lia]. }
    exists (w ++ [digit (f mod 10)]). cbn [digits].
    rewrite (proj2 (Z.ltb_ge _ _)) by lia.
    replace (10 * 10 ^ Z.of_nat n + f) with (f + 10 ^ Z.of_nat n * 10) by lia.
    rewrite Z.div_add, Z_mod_plus_full, Z.add_comm, Hw by lia. rewrite length_app, Hlen. cbn.
    split; [done|]. split; [lia|]. split; [by apply Forall_app_2; [|constructor; auto]|].
    rewrite number_snoc, Hv by auto. symmetry. apply Z.div_mod. lia.
Qed.

Lemma find_char_app c l r : c ∉ l → find_char c (l ++ c :: r) = Some (length l).
Proof.
  induction l as [|x l IH]; cbn; intros Hc; [by rewrite decide_True|].
  apply not_elem_of_cons in Hc as [Hx Hc]. rewrite decide_False, IH by done. done.
Qed.

Lemma find_char_none c l : c ∉ l → find_char c l = None.
Proof.
  induction l as [|x l IH]; cbn; intros Hc; [done|].
  apply not_elem_of_cons in Hc as [Hx Hc]. rewrite decide_False, IH by done. done.
Qed.

Lemma digits_lack c l : Forall is_digit l → ¬ is_digit c → c ∉ l.
Proof. intros Hl Hc Hin. rewrite Forall_forall in Hl. by apply Hc, Hl. Qed.

(** ** Safe integers: a result out of range throws, any other is the sum or product *)

Definition int64 (z : Z) : Prop := i64_min ≤ z ≤ i64_max.

Lemma safe_add_ok a b : int64 a → int64 b → int64 (a + b) → safe_add a b = Ok (a + b).
Proof. unfold int64, safe_add. intros. repeat case_match; to_prop; try done; lia. Qed.

Lemma quot_pos_gt n p a : 0 < p → 0 ≤ n → a * p ≤ n → a ≤ Z.quot n p.
Proof. intros. rewrite Z.quot_div_nonneg by lia. apply Z.div_le_lower_bound; lia. Qed.

Lemma quot_neg_lt n p a : 0 < p → n ≤ 0 → n ≤ a * p → Z.quot n p ≤ a.
Proof.
  intros. replace n with (- - n) by lia. rewrite Z.quot_opp_l, Z.quot_div_nonneg by lia.
  pose proof (Z.div_le_lower_bound (- n) p (- a)). lia.
Qed.

(** A product by a positive number. *)
Lemma safe_mul_ok a b : int64 a → 0 < b ≤ i64_max → int64 (a * b) → safe_mul a b = Ok (a * b).
Proof.
  unfold int64, safe_mul. intros Ha Hb Hab. rewrite (proj2 (Z.ltb_lt 0 b)) by lia.
  pose proof (quot_pos_gt i64_max b a). pose proof (quot_neg_lt i64_min b a).
  unfold i64_min, i64_max in *. repeat case_match; to_prop; try done; lia.
Qed.

Lemma safe_mul_neg1 a : 0 ≤ a ≤ i64_max → safe_mul a (-1) = Ok (- a).
Proof.
  intros Ha. unfold safe_mul. rewrite (proj2 (Z.ltb_ge 0 (-1))) by lia.
  assert (a * -1 = - a) as -> by lia.
  destruct (Z.ltb_spec 0 a).
  - pose proof (quot_neg_lt i64_min a (-1)). unfold i64_min, i64_max in *.
    rewrite (proj2 (Z.ltb_ge _ _)) by lia. done.
  - assert (a = 0) as -> by lia. done.
Qed.

(** ** Symbols: encoding and decoding *)

Lemma decimals_mod v : decimals v = v mod 256.
Proof. unfold decimals. change 0xFF with (Z.ones 8). by rewrite Z.land_ones. Qed.

Lemma decimals_range v : 0 ≤ decimals v < 256.
Proof. rewrite decimals_mod. apply Z.mod_pos_bound. lia. Qed.

(** A word is its low byte and the rest. *)
Lemma low_byte v : Z.lor (Z.land v 0xFF) (Z.shiftl (Z.shiftr v 8) 8) = v.
Proof.
  change 0xFF with (Z.ones 8). rewrite <- Z.ldiff_ones_r by lia.
  apply Z.bits_inj'. intros n Hn. rewrite Z.lor_spec, Z.land_spec, Z.ldiff_spec.
  by destruct (Z.testbit v n), (Z.testbit (Z.ones 8) n).
Qed.

Lemma power10_spec n p : 1 ≤ p → p * 10 ^ Z.of_nat n ≤ u64_max → power10 n p = p * 10 ^ Z.of_nat n.
Proof.
  revert p. induction n as [|n IH]; intros p Hp Hb; cbn [power10]; [cbn; lia|].
  rewrite Nat2Z.inj_succ, Z.pow_succ_r in Hb |- * by lia.
  pose proof (Z.pow_pos_nonneg 10 (Z.of_nat n)).
  assert (p * 10 ≤ u64_max) by nia.
  rewrite u64_small, IH by lia. lia.
Qed.

Lemma precision_spec v : decimals v ≤ max_precision → precision v = Ok (10 ^ decimals v).
Proof.
  intros Hv. pose proof (decimals_range v). unfold precision.
  rewrite (proj2 (Z.leb_le _ _)) by done. cbn -[power10]. f_equal.
  pose proof (Z.pow_le_mono_r 10 (decimals v) 18). unfold max_precision in Hv.
  assert (10 ^ 18 ≤ u64_max) by done.
  rewrite power10_spec, Z2Nat.id by (rewrite ?Z2Nat.id; lia). lia.
Qed.

Lemma upper_code c : is_upper c = true → 65 ≤ code c ≤ 90.
Proof. unfold is_upper. intros ?. to_prop. lia. Qed.

Lemma valid_name_no_nul s : valid_name s = true → Name.no_nul s.
Proof.
  unfold valid_name, Name.no_nul. intros Hs Hin. rewrite forallb_forall in Hs.
  apply list_elem_of_In, Hs, upper_code in Hin. change (code NUL) with 0 in Hin. lia.
Qed.

Lemma name_char w : code (ascii_of_N (Z.to_N (Z.land w 0xFF))) = Z.land w 0xFF.
Proof.
  change (Z.land w 0xFF) with (decimals w). pose proof (decimals_range w).
  unfold code. rewrite N_ascii_embedding; lia.
Qed.

(** Reading the letters of a name rebuilds its word above the letters read before. *)
Lemma read_name fuel w i result :
  0 ≤ w < 2 ^ (8 * Z.of_nat fuel) → 0 ≤ i → i + Z.of_nat fuel ≤ 7 → valid_name (name_loop fuel w) = true →
  string_to_symbol_loop (name_loop fuel w) i result = Ok (Z.lor result (Z.shiftl w (8 * (i + 1)))).
Proof.
  revert w i result. induction fuel as [|fuel IH]; intros w i result Hw Hi Hf Hv.
  { assert (w = 0) as -> by (cbn in Hw; lia). cbn -[Z.mul]. by rewrite Z.shiftl_0_l, Z.lor_0_r. }
  cbn [name_loop] in *. destruct (Z.ltb_spec 0 w).
  2:{ assert (w = 0) as -> by lia. cbn -[Z.mul]. by rewrite Z.shiftl_0_l, Z.lor_0_r. }
  cbn [valid_name forallb] in Hv. apply andb_prop in Hv as [Hc Hv].
  cbn [string_to_symbol_loop]. rewrite Hc, name_char. apply upper_code in Hc. rewrite name_char in Hc.
  cbn -[Z.mul Z.leb Z.shiftl Z.lor]. rewrite (proj2 (Z.leb_gt _ _)) by lia.
  rewrite IH; [|split; [apply Z.shiftr_nonneg; lia|]|lia|lia|done].
  2:{ rewrite Z.shiftr_div_pow2 by lia. apply Z.div_lt_upper_bound; [lia|].
      rewrite <- Z.pow_add_r by lia. replace (8 + 8 * Z.of_nat fuel) with (8 * Z.of_nat (S fuel)) by lia. lia. }
  rewrite u64_small.
  2:{ rewrite Z.shiftl_mul_pow2 by lia.
      pose proof (Z.pow_le_mono_r 2 (8 * (i + 1)) 56). pose proof (Z.pow_pos_nonneg 2 (8 * (i + 1))).
      assert (90 * 2 ^ 56 ≤ u64_max) by done. nia. }
  rewrite <- (low_byte w) at 3. rewrite Z.shiftl_lor, <- Z.lor_assoc, Z.shiftl_shiftl by lia.
  do 4 f_equal. lia.
Qed.

Definition symbol_wf (v : Z) : Prop := 0 ≤ v ≤ u64_max ∧ valid v = true.

Lemma symbol_wf_parts v : symbol_wf v → decimals v ≤ max_precision ∧ valid_name (symbol_name v) = true.
Proof. intros [_ Hv]. unfold valid in Hv. to_prop. done. Qed.

Lemma encode_name v : symbol_wf v → string_to_symbol (decimals v) (symbol_name v) = Ok v.
Proof.
  intros Hv. destruct (symbol_wf_parts v Hv) as [_ Hn]. destruct Hv as [Hr _].
  unfold string_to_symbol. rewrite Name.c_str_id by by apply valid_name_no_nul.
  unfold symbol_name in *. rewrite read_name; [|split; [apply Z.shiftr_nonneg; lia|]|lia|lia|done].
  2:{ rewrite Z.shiftr_div_pow2 by lia. apply Z.div_lt_upper_bound; [lia|]. unfold u64_max in Hr. cbn. lia. }
  cbn -[Z.lor Z.shiftl Z.shiftr]. f_equal. rewrite Z.lor_0_l, Z.lor_comm. apply low_byte.
Qed.

Lemma make_symbol_ok v : symbol_wf v → make_symbol v = Ok v.
Proof. intros [_ Hv]. unfold make_symbol. by rewrite Hv. Qed.

(** ** Round trips *)

Section RoundTrip.
Context `{BoostTextLaws}.

Definition plain (c : ascii) : Prop := is_digit c ∨ is_upper c = true ∨ c = "-"%char ∨ c = ","%char.

Lemma plain_no_space c : plain c → ¬ is_space c.
Proof.
  unfold is_space. intros [Hc|[Hc|[->| ->]]] Hs; [unfold is_digit in Hc; lia|apply upper_code in Hc; lia|..].
  - change (code "-"%char) with 45 in Hs. lia.
  - change (code ","%char) with 44 in Hs. lia.
Qed.

(** Text without a space at its ends is left alone. *)
Lemma trim_plain l :
  (∀ c, head l = Some c → plain c) → (∀ c, last l = Some c → plain c) → trim l = l.
Proof. intros Hh Hl. apply trim_id; intros c Hc; apply plain_no_space; auto. Qed.

Lemma upper_plain s : valid_name s = true → Forall plain s.
Proof.
  unfold valid_name. rewrite forallb_forall, Forall_forall. intros Hs c Hc.
  right; left. by apply Hs, list_elem_of_In.
Qed.

Lemma digits_plain s : Forall is_digit s → Forall plain s.
Proof. intros Hs. eapply Forall_impl; [done|]. by left. Qed.

Lemma trim_all_plain l : Forall plain l → trim l = l.
Proof.
  intros Hl. apply trim_plain; intros c Hc; eapply Forall_forall; try done.
  - by apply head_Some_elem_of.
  - by apply last_Some_elem_of.
Qed.

Lemma to_int64_digits l : l ≠ [] → Forall is_digit l → number l ≤ i64_max → to_int64 l = Ok (number l).
Proof. intros. unfold to_int64. by rewrite parse_digits. Qed.

(** "p,NAME" is read as the low byte of [p] and the name. *)
Lemma read_symbol w v :
  symbol_wf v → w ≠ [] → Forall is_digit w → number w ≤ i64_max → u8 (number w) = decimals v →
  symbol_from_string (w ++ [","%char] ++ symbol_name v) = Ok v.
Proof.
  intros Hv Hne Hd Hb Hn. destruct (symbol_wf_parts v Hv) as [Hp Hname].
  pose proof (decimals_range v). unfold symbol_from_string. rewrite trim_all_plain.
  2:{ repeat apply Forall_app_2; auto using digits_plain, upper_plain.
      constructor; [|done]. by right; right; right. }
  destruct w as [|c w]; [done|]. set (w' := c :: w) in *. cbn [app].
  rewrite (find_char_app ","%char w' (symbol_name v)).
  2:{ apply digits_lack; [done|]. unfold is_digit. change (code ","%char) with 44. lia. }
  cbn [eos_assert of_option mbind result_bind]. rewrite take_app_length.
  rewrite to_int64_digits by done. cbn [mbind result_bind].
  rewrite Hn.
  rewrite (proj2 (Z.leb_le _ _)) by done.
  replace (drop (S (length w')) (w' ++ ","%char :: symbol_name v)) with (symbol_name v).
  2:{ change (w' ++ ","%char :: symbol_name v) with (w' ++ [","%char] ++ symbol_name v).
      rewrite app_assoc, drop_app_length'; [done|]. rewrite length_app. cbn. lia. }
  cbn -[string_to_symbol make_symbol]. rewrite encode_name by done. cbn. by apply make_symbol_ok.
Qed.

Lemma drop_split {A} (l r : list A) x : drop (S (length l)) (l ++ x :: r) = r.
Proof. induction l; [done|]. done. Qed.

Definition asset_wf (a : asset) : Prop :=
  is_amount_within_range (amount a) = true ∧ symbol_wf (sym a).

Definition minus (a : asset) : cstring := if amount a <? 0 then ["-"%char] else [].

(** What a well-formed asset prints: sign, integer part, fraction, symbol. *)
Definition fraction_of (a : asset) (fr : cstring) : Prop :=
  (decimals (sym a) = 0 ∧ fr = []) ∨
  (0 < decimals (sym a) ∧ ∃ w, fr = "."%char :: w ∧ Z.of_nat (length w) = decimals (sym a) ∧
     Forall is_digit w ∧ number w = Z.abs (amount a) mod 10 ^ decimals (sym a)).

Definition integer_of (a : asset) (ip : cstring) : Prop :=
  ip ≠ [] ∧ Forall is_digit ip ∧ number ip = Z.abs (amount a) / 10 ^ decimals (sym a).

Lemma asset_wf_bounds a :
  asset_wf a → Z.abs (amount a) ≤ max_amount ∧ 0 ≤ decimals (sym a) ≤ 18 ∧
  1 ≤ 10 ^ decimals (sym a) ≤ 10 ^ 18.
Proof.
  intros [Ha Hs]. unfold is_amount_within_range in Ha. to_prop.
  destruct (symbol_wf_parts _ Hs) as [Hd _]. pose proof (decimals_range (sym a)).
  unfold max_precision in Hd. split; [lia|]. split; [lia|].
  split; [|apply Z.pow_le_mono_r; lia]. pose proof (Z.pow_pos_nonneg 10 (decimals (sym a))). lia.
Qed.

Lemma print_shape a :
  asset_wf a → ∃ ip fr, to_string a = Ok ((minus a ++ ip ++ fr) ++ [space] ++ symbol_name (sym a))
                        ∧ integer_of a ip ∧ fraction_of a fr.
Proof.
  intros Hwf. pose proof (asset_wf_bounds a Hwf) as (Ha & Hd & Hp).
  destruct Hwf as [_ Hs]. destruct (symbol_wf_parts _ Hs) as [Hpr _].
  set (d := decimals (sym a)) in *. set (p := 10 ^ d) in *. set (m := Z.abs (amount a)) in *.
  unfold max_amount in Ha. assert (0 ≤ m) by (unfold m; lia).
  assert (0 ≤ m / p ≤ i64_max).
  { split; [apply Z.div_pos; lia|]. etrans; [apply Z.div_le_upper_bound with (q := m); nia|].
    unfold i64_max. lia. }
  unfold to_string. rewrite (proj2 (Z.eqb_neq (amount a) i64_min)) by (unfold m, i64_min in *; lia).
  rewrite precision_spec by done. fold d p m (minus a). cbn -[digits Z.quot Z.rem].
  rewrite Z.quot_div_nonneg, Z.rem_mod_nonneg by lia. rewrite print_digits by lia.
  destruct (digits_correct 20 (m / p)) as (Hne & Hdig & Hnum); [|lia|].
  { assert (i64_max < 10 ^ Z.of_nat 20) by done. lia. }
  exists (digits 20 (m / p)). destruct (Z.eqb_spec d 0) as [Hz|Hz].
  - exists []. rewrite app_nil_r, <- app_assoc. split; [done|]. split; [done|]. by left.
  - pose proof (Z.mod_pos_bound m p).
    assert (p = 10 ^ Z.of_nat (Z.to_nat d)) as Hpd by (by rewrite Z2Nat.id by lia).
    destruct (digits_padded (Z.to_nat d) 20 (m mod p)) as (w & Hw & Hlen & Hwd & Hwn); [lia|lia|].
    exists ("."%char :: w). rewrite print_digits by (unfold i64_max; lia).
    rewrite <- Hpd in Hw. rewrite Hw. split; [|split; [done|]].
    + cbn. rewrite <- !app_assoc. done.
    + right. split; [lia|]. exists w. split; [done|]. split; [lia|]. done.
Qed.

Lemma to_int64_signed (neg : bool) l :
  l ≠ [] → Forall is_digit l → number l ≤ i64_max →
  to_int64 ((if neg then ["-"%char] else []) ++ l) = Ok (if neg then - number l else number l).
Proof. intros. unfold to_int64. destruct neg; cbn [app]; by rewrite ?parse_negative, ?parse_digits. Qed.

Lemma not_digit_in c l (neg : bool) :
  Forall is_digit l → ¬ is_digit c → c ≠ "-"%char → c ∉ (if neg then ["-"%char] else []) ++ l.
Proof.
  intros Hl Hc Hm. rewrite elem_of_app. intros [Hin|Hin]; [|by eapply digits_lack].
  destruct neg; [by apply list_elem_of_singleton in Hin|by apply not_elem_of_nil in Hin].
Qed.

Lemma dot_not_digit : ¬ is_digit "."%char.
Proof. unfold is_digit. change (code "."%char) with 46. lia. Qed.
Lemma space_not_digit : ¬ is_digit space.
Proof. unfold is_digit. change (code space) with 32. lia. Qed.

Lemma starts_with_minus (neg : bool) l r :
  l ≠ [] → Forall is_digit l →
  bool_decide (char_at ((if neg then ["-"%char] else []) ++ l ++ r) 0 = "-"%char) = neg.
Proof.
  intros Hne Hl. destruct neg; [done|]. destruct l as [|c l]; [done|]. cbn.
  apply bool_decide_eq_false. intros ->. apply Forall_cons_1 in Hl as [Hc _].
  unfold is_digit in Hc. change (code "-"%char) with 45 in Hc. lia.
Qed.

Section Read.
Context (a : asset) (ip : cstring) (Hwf : asset_wf a) (Hip : integer_of a ip).
Let d := decimals (sym a).
Let m := Z.abs (amount a).

Lemma integer_bound : number ip ≤ i64_max ∧ 0 ≤ number ip * 10 ^ d ≤ max_amount ∧
  number ip * 10 ^ d + m mod 10 ^ d = m.
Proof.
  destruct (asset_wf_bounds a Hwf) as (Ha & Hd & Hp). destruct Hip as (_ & _ & Hn). fold d m in Ha, Hd, Hp, Hn.
  rewrite Hn. pose proof (Z.div_mod m (10 ^ d)). pose proof (Z.mod_pos_bound m (10 ^ d)).
  assert (0 ≤ m / 10 ^ d) by (apply Z.div_pos; unfold m; lia).
  unfold max_amount, i64_max in *. nia.
Qed.

(** From the signed parts to the asset. *)
Lemma assemble (neg : bool) (f : Z) :
  neg = (amount a <? 0) → f = m mod 10 ^ d →
  (am ← safe_mul (if neg then - number ip else number ip) (10 ^ d);
   am ← safe_add am (if neg then - f else f);
   make_asset am (sym a)) = Ok a.
Proof.
  intros -> ->. pose proof integer_bound as (Hi & Hb & Hm).
  destruct (asset_wf_bounds a Hwf) as (Ha & Hd & Hp). pose proof Hwf as [Hr [_ Hv]].
  fold d m in Ha, Hd, Hp. pose proof (Z.mod_pos_bound m (10 ^ d)).
  unfold max_amount, i64_max in *. set (n := number ip) in *. set (p := 10 ^ d) in *.
  assert ((if amount a <? 0 then - n else n) * p + (if amount a <? 0 then - (m mod p) else m mod p)
          = amount a) as Hsum by (unfold m in *; destruct (Z.ltb_spec (amount a) 0); lia).
  assert (- (2 ^ 62 - 1) ≤ (if amount a <? 0 then - n else n) * p ≤ 2 ^ 62 - 1)
    by (destruct (amount a <? 0); lia).
  assert (0 ≤ n) by nia.
  rewrite safe_mul_ok; [|unfold int64, i64_min, i64_max; destruct (amount a <? 0); lia
                        |unfold i64_max; lia|unfold int64, i64_min, i64_max; lia].
  cbn -[make_asset safe_add].
  rewrite safe_add_ok; [|unfold int64, i64_min, i64_max; lia
                        |unfold int64, i64_min, i64_max; destruct (amount a <? 0); lia
                        |unfold int64, i64_min, i64_max; unfold m in *; lia].
  cbn -[make_asset]. rewrite Hsum. unfold make_asset. rewrite Hr, Hv. by destruct a.
Qed.

Lemma read_integer :
  decimals (sym a) = 0 → from_parts (minus a ++ ip) (symbol_name (sym a)) = Ok a.
Proof.
  intros Hz. pose proof (integer_bound) as (Hi & _ & _). destruct Hip as (Hne & Hdig & _).
  unfold from_parts, minus. rewrite find_char_none by (apply not_digit_in; auto using dot_not_digit).
  cbn [eos_assert mbind result_bind].
  rewrite read_symbol; [|apply Hwf|done|by repeat constructor|done|by rewrite Hz]. cbn [mbind result_bind].
  rewrite to_int64_signed by done. cbn -[safe_mul safe_add precision make_asset].
  rewrite precision_spec by (rewrite Hz; done). cbn -[safe_mul safe_add make_asset Z.pow].
  rewrite <- (assemble (amount a <? 0) 0); [by destruct (amount a <? 0)|done|].
  unfold d. by rewrite Hz, Z.mod_1_r.
Qed.

Lemma read_fraction w :
  0 < decimals (sym a) → Z.of_nat (length w) = decimals (sym a) → Forall is_digit w →
  number w = Z.abs (amount a) mod 10 ^ decimals (sym a) →
  from_parts (minus a ++ ip ++ "."%char :: w) (symbol_name (sym a)) = Ok a.
Proof.
  intros Hpos Hlen Hw Hnum. pose proof (integer_bound) as (Hi & _ & _).
  destruct (asset_wf_bounds a Hwf) as (_ & Hd & Hp). pose proof Hip as (Hne & Hdig & _).
  destruct (symbol_wf_parts _ (proj2 Hwf)) as [Hpr _].
  pose proof (Z.mod_pos_bound (Z.abs (amount a)) (10 ^ decimals (sym a))).
  unfold from_parts, minus. rewrite app_assoc. set (l := _ ++ ip).
  rewrite find_char_app by (apply not_digit_in; auto using dot_not_digit).
  rewrite length_app. cbn [length].
  rewrite (proj2 (Z.eqb_neq _ _)) by lia. cbn [negb eos_assert mbind result_bind].
  replace (length l + S (length w) - length l - 1)%nat with (length w) by lia.
  destruct (digits_correct 20 (Z.of_nat (length w))) as (Hpn & Hpd & Hpv); [|lia|].
  { assert (18 < 10 ^ Z.of_nat 20) by done. lia. }
  rewrite read_symbol; [|apply Hwf|done|done|unfold to_string_size, i64_max; lia|].
  2:{ unfold to_string_size. rewrite Hpv, Hlen. apply wrapu_small. unfold in_u. lia. }
  cbn [mbind result_bind].
  rewrite take_app_length, drop_split. pose proof (to_int64_signed (amount a <? 0) ip Hne Hdig Hi) as Hl. fold l in Hl. rewrite Hl.
  rewrite to_int64_digits; [|intros ->; cbn in Hlen; lia|done|unfold i64_max; lia]. cbn [mbind result_bind].
  unfold l. rewrite <- app_assoc, starts_with_minus by done.
  rewrite <- (assemble (amount a <? 0) (number w)) by done.
  destruct (amount a <? 0); rewrite ?safe_mul_neg1 by (unfold i64_max; lia);
    cbn -[safe_mul safe_add make_asset precision Z.pow]; by rewrite precision_spec.
Qed.
End Read.

(** Splitting the text at its space. *)
Lemma split_text A v :
  (∀ c, head A = Some c → plain c) → A ≠ [] → space ∉ A → symbol_wf v → symbol_name v ≠ [] →
  from_string (A ++ [space] ++ symbol_name v) = from_parts A (symbol_name v).
Proof.
  intros HA Hne Hsp Hv Hn. destruct (symbol_wf_parts v Hv) as [_ Hval].
  pose proof (upper_plain _ Hval) as Hpl. unfold from_string. rewrite trim_plain.
  - cbn [app]. rewrite find_char_app by done. cbn [of_option mbind result_bind].
    by rewrite take_app_length, drop_split, trim_all_plain.
  - intros c Hc. apply HA. by destruct A.
  - intros c Hc. rewrite app_assoc, last_app in Hc.
    destruct (last (symbol_name v)) eqn:Hl; [|by apply last_None in Hl].
    injection Hc as <-. eapply Forall_forall; [exact Hpl|]. by apply last_Some_elem_of.
Qed.

Lemma symbol_roundtrip v : symbol_wf v → symbol_from_string (symbol_to_string v) = Ok v.
Proof.
  intros Hv. destruct (symbol_wf_parts v Hv) as [Hp _]. pose proof (decimals_range v).
  unfold max_precision in Hp.
  destruct (digits_correct 20 (decimals v)) as (Hne & Hd & Hn); [|lia|].
  { assert (18 < 10 ^ Z.of_nat 20) by done. lia. }
  unfold symbol_to_string, to_string_size. change (Z.land v 0xFF) with (decimals v).
  apply read_symbol; try done; rewrite Hn; [unfold i64_max; lia|]. apply wrapu_small. unfold in_u. lia.
Qed.

(** C23: Printing an asset and reading the text gives the asset back: any amount
    of the admitted range, negative ones and ones between zero and one included,
    with any precision up to 18 and any symbol that has a letter. *)
Theorem asset_roundtrip a :
  is_amount_within_range (amount a) = true → 0 ≤ sym a ≤ u64_max → valid (sym a) = true →
  symbol_name (sym a) ≠ [] →
  (to_string a ≫= from_string) = Ok a.
Proof.
  intros Hr Hs Hv Hn. assert (asset_wf a) as Hwf by done.
  destruct (print_shape a Hwf) as (ip & fr & -> & Hip & Hfr). cbn [mbind result_bind].
  pose proof Hip as (Hne & Hdig & _). rewrite split_text; [| | | |done|done].
  - destruct Hfr as [[Hz ->]|(Hpos & w & -> & Hlen & Hw & Hnum)].
    + rewrite app_nil_r. by apply read_integer.
    + by apply read_fraction.
  - intros c Hc. unfold minus in Hc. destruct (amount a <? 0).
    + injection Hc as <-. by right; right; left.
    + destruct ip as [|c' ip]; [done|]. injection Hc as ->. left. by apply Forall_cons_1 in Hdig as [? _].
  - intros [_ [? _]%app_nil]%app_nil. done.
  - rewrite app_assoc, elem_of_app. intros [Hin|Hin]; revert Hin.
    + apply not_digit_in; auto using space_not_digit.
    + destruct Hfr as [[_ ->]|(_ & w & -> & _ & Hw & _)]; [apply not_elem_of_nil|].
      apply not_elem_of_cons. split; [done|]. by apply digits_lack, space_not_digit.
Qed.

(** The text "1." with 255 zeros and a five, and the symbol "0,EOS". *)
Definition long_fraction : cstring := lit "1." ++ replicate 255 "0"%char ++ lit "5".
Definition eos0 : Z := 0x534F4500.

(** The number of fraction digits is narrowed to a byte before it is compared
    with [max_precision]: 256 of them count as none, and the fraction is added
    to the integer part. *)
Theorem long_fraction_accepted :
  from_string (long_fraction ++ lit " EOS") = Ok (mk_asset 6 eos0).
Proof.
  assert (symbol_wf eos0) as Hs by (split; [unfold eos0, u64_max; lia|by vm_compute]).
  change (lit " EOS") with ([space] ++ symbol_name eos0).
  rewrite split_text; [|intros c [= <-]; left; by vm_compute|done|by apply (bool_decide_unpack _); vm_compute|done|done].
  unfold from_parts. replace (find_char "."%char long_fraction) with (Some 1%nat) by by vm_compute.
  replace (length long_fraction) with 258%nat by by vm_compute.
  cbn [eos_assert mbind result_bind].
  rewrite read_symbol; [|done|by vm_compute|by apply (bool_decide_unpack _); vm_compute|by vm_compute|by vm_compute].
  cbn [mbind result_bind]. rewrite to_int64_digits; [|by vm_compute|by repeat constructor|by vm_compute].
  cbn [mbind result_bind]. 
  rewrite to_int64_digits; [|by vm_compute|by apply (bool_decide_unpack _); vm_compute|by vm_compute].
  by vm_compute.
Qed.
End RoundTrip.

(** ** Arithmetic on assets *)

(** Adding or subtracting two assets that passed the constructor never
    overflows: the result is the exact one, checked again. *)
Lemma asset_arith_total a b :
  asset_wf a → asset_wf b → sym a = sym b →
  asset_add a b = make_asset (amount a + amount b) (sym a) ∧
  asset_sub a b = make_asset (amount a - amount b) (sym a).
Proof.
  intros Ha Hb Heq. pose proof (asset_wf_bounds a Ha) as [Hba _]. pose proof (asset_wf_bounds b Hb) as [Hbb _].
  unfold asset_add, asset_sub. rewrite Heq, Z.eqb_refl. unfold max_amount, i64_min, i64_max in *.
  split; by rewrite (proj2 (Z.leb_le _ _)), (proj2 (Z.leb_le _ _)) by lia.
Qed.

(** ** An instance of the text functions *)

Module TextDemo.
Fixpoint drop_spaces (l : cstring) : cstring :=
  match l with
  | [] => []
  | c :: l => if (code c =? 32) || ((9 <=? code c) && (code c <=? 13)) then drop_spaces l else c :: l
  end.

Definition parse_nat (l : cstring) : option Z :=
  match l with
  | [] => None
  | _ => if forallb (fun c => bool_decide (is_digit c)) l then Some (number l) else None
  end.

Definition in_range (z : Z) : option Z := if (i64_min <=? z) && (z <=? i64_max) then Some z else None.

#[export] Instance text : BoostText :=
  { trim l := reverse (drop_spaces (reverse (drop_spaces l)));
    parse_int64 l :=
      match l with
      | c :: l' => if decide (c = "-"%char) then z ← parse_nat l'; in_range (- z)
                   else if decide (c = "+"%char) then z ← parse_nat l'; in_range z
                   else z ← parse_nat l; in_range z
      | [] => None
      end;
    print_int64 z := if z <? 0 then "-"%char :: digits 20 (- z) else digits 20 z }.

Lemma drop_spaces_id l : (∀ c, head l = Some c → ¬ is_space c) → drop_spaces l = l.
Proof.
  destruct l as [|c l]; cbn; [done|]. intros Hc. specialize (Hc c eq_refl). unfold is_space in Hc.
  case_match; [|done]. to_prop. destruct (Z.eqb_spec (code c) 32); [lia|]. cbn in *. to_prop. lia.
Qed.

Lemma parse_nat_digits l : l ≠ [] → Forall is_digit l → parse_nat l = Some (number l).
Proof.
  intros Hne Hl. destruct l as [|c l]; [done|]. unfold parse_nat.
  rewrite (proj2 (forallb_forall _ _)); [done|]. intros x Hx. apply bool_decide_eq_true.
  rewrite Forall_forall in Hl. by apply Hl, list_elem_of_In.
Qed.

Lemma number_nonneg l : Forall is_digit l → 0 ≤ number l.
Proof.
  induction l as [|c l IH] using rev_ind; intros Hl; [done|].
  apply Forall_app in Hl as [Hl [Hc _]%Forall_cons_1]. unfold number in *. rewrite foldl_app. cbn.
  unfold is_digit in Hc. specialize (IH Hl). lia.
Qed.

#[export] Instance text_laws : BoostTextLaws.
Proof.
  split; cbn [trim parse_int64 print_int64 text].
  - intros l Hh Hl. rewrite (drop_spaces_id l) by done. rewrite drop_spaces_id; [apply reverse_involutive|].
    intros c. rewrite head_reverse. apply Hl.
  - intros l Hne Hl Hb. pose proof (number_nonneg l Hl). rewrite parse_nat_digits by done.
    destruct l as [|c l]; [done|]. pose proof (Forall_cons_1 _ _ _ Hl) as [Hc _].
    unfold is_digit in Hc. rewrite !decide_False by (intros ->; vm_compute in Hc; by destruct Hc). cbn -[number].
    unfold in_range, i64_min. rewrite (proj2 (Z.leb_le _ _)), (proj2 (Z.leb_le _ _)) by lia. done.
  - intros l Hne Hl Hb. pose proof (number_nonneg l Hl). rewrite parse_nat_digits by done. cbn.
    unfold in_range, i64_min, i64_max in *. rewrite (proj2 (Z.leb_le _ _)), (proj2 (Z.leb_le _ _)) by lia. done.
  - intros z Hz. rewrite (proj2 (Z.ltb_ge _ _)) by lia. done.
Qed.

(** "-0.0031 EOS". *)
Definition small : asset := mk_asset (-31) 0x534F4504.

Example small_prints : to_string small = Ok (lit "-0.0031 EOS").
Proof. by vm_compute. Qed.

Lemma asset_roundtrip_witness : (to_string small ≫= from_string) = Ok small.
Proof.
  apply asset_roundtrip; [by vm_compute|unfold small, u64_max; cbn; lia|by vm_compute|by vm_compute].
Defined.
End TextDemo.
End ChainAsset.
