(* ===== verification/ResourceLimits.v ===== *)
(** * Resource limits

    [resource_limits.cpp] and [resource_limits_private.hpp]: the moving average
    of usage, the elastic limits of a block, the limits and the usage of
    accounts.  Weights that an account is given stay pending until
    [process_account_limit_updates].

    The objects of the database are one record.  What [get_account_ram_limit]
    reads elsewhere (the stake in the [vote4ramsum] table of the system contract
    and the rent set on chain) comes with [ram_view]. *)

From S2P Require Import Prelude Exceptions Name BlockHeader.

Module ResourceLimits.

Abbreviation R := (result exn).

(** ** Arithmetic *)

Record ratio : Type := mk_ratio { numerator : Z; denominator : Z }.

(** [operator*( value, ratio )] on 64-bit words. *)
Definition mul_ratio (value : Z) (r : ratio) : R Z :=
  eos_assert ((numerator r =? 0) || (value <=? u64_max / numerator r)) rate_limiting_state_inconsistent ;;
  mret (u64 (value * numerator r) / denominator r).

Definition integer_divide_ceil (num den : Z) : Z := num / den + (if 0 <? num mod den then 1 else 0).

(** [downgrade_cast] to a narrower type with the given maximum. *)
Definition downgrade_cast (max val : Z) : R Z :=
  eos_assert ((0 <=? val) && (val <=? max)) rate_limiting_state_inconsistent ;;
  mret val.

Definition Precision : Z := config.rate_limiting_precision.
Definition max_raw_value : Z := u64_max / Precision.

(** ** The moving average *)

Record usage_accumulator : Type := mk_usage { last_ordinal : Z; value_ex : Z; consumed : Z }.

Definition usage0 : usage_accumulator := mk_usage 0 0 0.

Definition average (u : usage_accumulator) : Z := integer_divide_ceil (value_ex u) Precision.

(** What is left of [value_ex] in a later period. *)
Definition decayed (u : usage_accumulator) (ordinal window_size : Z) : R Z :=
  if u64 (last_ordinal u + window_size) >? ordinal then
    let delta := u32 (ordinal - last_ordinal u) in
    mul_ratio (value_ex u) (mk_ratio (u64 (window_size - delta)) window_size)
  else mret 0.

Definition add (u : usage_accumulator) (units ordinal window_size : Z) : R usage_accumulator :=
  eos_assert (units <=? max_raw_value) rate_limiting_state_inconsistent ;;
  eos_assert (units <=? u64_max - consumed u) rate_limiting_state_inconsistent ;;
  value_ex_contrib ← downgrade_cast u64_max (integer_divide_ceil (u128 (units * Precision)) window_size);
  eos_assert (value_ex_contrib <=? u64_max - value_ex u) rate_limiting_state_inconsistent ;;
  u ← (if last_ordinal u =? ordinal then mret u
       else
         eos_assert (last_ordinal u <? ordinal) resource_limit_exception ;;
         v ← decayed u ordinal window_size;
         mret (mk_usage ordinal v (integer_divide_ceil v Precision)));
  mret (mk_usage (last_ordinal u) (u64 (value_ex u + value_ex_contrib)) (u64 (consumed u + units))).

(** ** Elastic limits *)

Record elastic_limit_parameters : Type := mk_elastic
  { target : Z; max : Z; periods : Z; max_multiplier : Z; contract_rate : ratio; expand_rate : ratio }.

Definition validate (p : elastic_limit_parameters) : R () :=
  eos_assert (0 <? periods p) resource_limit_exception ;;
  eos_assert (0 <? denominator (contract_rate p)) resource_limit_exception ;;
  eos_assert (0 <? denominator (expand_rate p)) resource_limit_exception.

Record gmr_parameters : Type := mk_gmr { ram_byte : Z; cpu_us : Z; net_byte : Z }.

Definition validate_gmr (p : gmr_parameters) : R () :=
  eos_assert (0 <? cpu_us p) resource_limit_exception ;;
  eos_assert (0 <? net_byte p) resource_limit_exception ;;
  eos_assert (0 <=? ram_byte p) resource_limit_exception.

Definition update_elastic_limit (current_limit average_usage : Z) (params : elastic_limit_parameters) : R Z :=
  result ← mul_ratio current_limit
             (if target params <? average_usage then contract_rate params else expand_rate params);
  mret (Z.min (Z.max result (max params)) (u64 (max params * max_multiplier params))).

(** ** The objects *)

Record resource_limits_object : Type := mk_limits { net_weight : Z; cpu_weight : Z; ram_bytes : Z }.
Record resource_usage_object : Type := mk_account_usage
  { net_usage : usage_accumulator; cpu_usage : usage_accumulator; ram_usage : Z }.
Record resource_limits_config_object : Type := mk_rl_config
  { cpu_limit_parameters : elastic_limit_parameters; net_limit_parameters : elastic_limit_parameters;
    account_cpu_usage_average_window : Z; account_net_usage_average_window : Z }.
Record resource_limits_state_object : Type := mk_rl_state
  { average_block_net_usage : usage_accumulator; average_block_cpu_usage : usage_accumulator;
    pending_net_usage : Z; pending_cpu_usage : Z;
    total_net_weight : Z; total_cpu_weight : Z; total_ram_bytes : Z;
    virtual_net_limit : Z; virtual_cpu_limit : Z }.

(** Limits are keyed by owner, the pending ones apart. *)
Record rl_db : Type := mk_rl_db
  { actual_limits : gmap account_name resource_limits_object;
    pending_limits : gmap account_name resource_limits_object;
    usages : gmap account_name resource_usage_object;
    rl_config : resource_limits_config_object;
    gmr : gmr_parameters;
    rl_state : resource_limits_state_object }.

Abbreviation RL := (ST rl_db exn).

Definition set_actual (m : gmap account_name resource_limits_object) (s : rl_db) : rl_db :=
  mk_rl_db m (pending_limits s) (usages s) (rl_config s) (gmr s) (rl_state s).
Definition set_pending (m : gmap account_name resource_limits_object) (s : rl_db) : rl_db :=
  mk_rl_db (actual_limits s) m (usages s) (rl_config s) (gmr s) (rl_state s).
Definition set_usages (m : gmap account_name resource_usage_object) (s : rl_db) : rl_db :=
  mk_rl_db (actual_limits s) (pending_limits s) m (rl_config s) (gmr s) (rl_state s).
Definition set_config (c : resource_limits_config_object) (s : rl_db) : rl_db :=
  mk_rl_db (actual_limits s) (pending_limits s) (usages s) c (gmr s) (rl_state s).
Definition set_gmr (g : gmr_parameters) (s : rl_db) : rl_db :=
  mk_rl_db (actual_limits s) (pending_limits s) (usages s) (rl_config s) g (rl_state s).
Definition set_state (t : resource_limits_state_object) (s : rl_db) : rl_db :=
  mk_rl_db (actual_limits s) (pending_limits s) (usages s) (rl_config s) (gmr s) t.

(** Defaults of [config.hpp.in]. *)
Definition percent_1 : Z := 100.
Definition EOS_PERCENT (value percentage : Z) : Z := u64 (value * percentage) / 10000.
Definition default_cpu_limit : elastic_limit_parameters :=
  mk_elastic (EOS_PERCENT 1000000 (10 * percent_1)) 1000000 (60 * 1000 / config.block_interval_ms) 1000
    (mk_ratio 99 100) (mk_ratio 1000 999).
Definition default_net_limit : elastic_limit_parameters :=
  mk_elastic (EOS_PERCENT (1024 * 1024) (10 * percent_1)) (1024 * 1024) (60 * 1000 / config.block_interval_ms) 1000
    (mk_ratio 99 100) (mk_ratio 1000 999).
Definition default_config : resource_limits_config_object :=
  mk_rl_config default_cpu_limit default_net_limit
    (24 * 60 * 60 * 1000 / config.block_interval_ms) (24 * 60 * 60 * 1000 / config.block_interval_ms).
Definition default_gmr : gmr_parameters := mk_gmr (64 * 1024) 800000 (32 * 1024).
Definition default_limits : resource_limits_object := mk_limits (-1) (-1) (-1).
Definition default_usage : resource_usage_object := mk_account_usage usage0 usage0 0.

(** The start is congested: the virtual limits are the real ones. *)
Definition initialize_database : rl_db :=
  mk_rl_db ∅ ∅ ∅ default_config default_gmr
    (mk_rl_state usage0 usage0 0 0 0 0 0 (max default_net_limit) (max default_cpu_limit)).

(** ** Operations of [resource_limits_manager] *)

(** A chainbase lookup that must succeed. *)
Definition get_row {A} (m : gmap account_name A) (a : account_name) : RL A := lift (of_option (m !! a) std_out_of_range).

Definition set_gmr_parameters (p : gmr_parameters) : RL () :=
  lift (validate_gmr p) ;; modify_st (set_gmr p).

Definition initialize_account (account : account_name) : RL () :=
  s ← get_st;
  st_assert (negb (bool_decide (is_Some (actual_limits s !! account)))) std_logic_error ;;
  put_st (set_actual (<[account := default_limits]> (actual_limits s)) s) ;;
  s ← get_st;
  st_assert (negb (bool_decide (is_Some (usages s !! account)))) std_logic_error ;;
  put_st (set_usages (<[account := default_usage]> (usages s)) s).

Definition set_block_parameters (cpu net : elastic_limit_parameters) : RL () :=
  lift (validate cpu) ;;
  lift (validate net) ;;
  modify_st (fun s => set_config (mk_rl_config cpu net (account_cpu_usage_average_window (rl_config s))
                                    (account_net_usage_average_window (rl_config s))) s).

(** [bu.net_usage.add( ... ); bu.cpu_usage.add( ... )] on one account. *)
Definition use (cpu net time_slot : Z) (account : account_name) : RL () :=
  s ← get_st;
  u ← get_row (usages s) account;
  n ← lift (add (net_usage u) net time_slot (account_net_usage_average_window (rl_config s)));
  c ← lift (add (cpu_usage u) cpu time_slot (account_cpu_usage_average_window (rl_config s)));
  put_st (set_usages (<[account := mk_account_usage n c (ram_usage u)]> (usages s)) s).

Definition update_account_usage (accounts : list account_name) (time_slot : Z) : RL () :=
  for_each (use 0 0 time_slot) accounts.

(** What is read elsewhere for the RAM limit of an account. *)
Record ram_view : Type := mk_ram_view { vote4ram_staked : account_name → option Z; ram_rent : Z }.

Definition starts_with (prefix : string) (a : account_name) : bool :=
  bool_decide (take (String.length prefix) (Name.to_string a) = lit prefix).

Definition get_account_ram_limit (v : ram_view) (g : gmr_parameters) (name : account_name) : Z :=
  let init_ram_size := i64 (ram_byte g) in
  if (name =? config.system_account_name) || (name =? config.token_account_name)
     || (name =? config.msig_account_name) || (name =? config.bios_account_name) then -1
  else if starts_with "bacc." name || starts_with "noc." name || starts_with "sys." name then -1
  else match vote4ram_staked v name with
       | None => init_ram_size
       | Some staked => i64 (Z.quot (i64 (staked * ram_rent v)) 1000000 + init_ram_size)
       end.

(** [(ram_bytes, net_weight, cpu_weight)] *)
Definition get_account_limits (v : ram_view) (account : account_name) : RL (Z * Z * Z) :=
  s ← get_st;
  l ← (match pending_limits s !! account with
       | Some l => mret l
       | None => get_row (actual_limits s) account
       end);
  mret (get_account_ram_limit v (gmr s) account, net_weight l, cpu_weight l).

(** The share of the window an account may use. *)
Definition max_user_use (virtual_limit window weight total extra : Z) : Z :=
  u128 (u128 (u128 (virtual_limit * window) * u128 weight) / total + extra).

Definition used_in_window (value window : Z) : Z := u128 (value * window) / Precision.

(** One account of [add_transaction_usage]. *)
Definition charge (v : ram_view) (cpu net time_slot : Z) (a : account_name) : RL () :=
  s ← get_st;
  _ ← get_row (usages s) a;
  '(_, net_w, cpu_w) ← get_account_limits v a;
  use cpu net time_slot a ;;
  s ← get_st;
  usage ← get_row (usages s) a;
  let st := rl_state s in
  let cfg := rl_config s in
  (if (0 <=? cpu_w) && (0 <? total_cpu_weight st) then
     let w := account_cpu_usage_average_window cfg in
     st_assert (used_in_window (value_ex (cpu_usage usage)) w
                <=? max_user_use (virtual_cpu_limit st) w cpu_w (total_cpu_weight st) (cpu_us (gmr s)))
       tx_cpu_usage_exceeded
   else mret ()) ;;
  (if (0 <=? net_w) && (0 <? total_net_weight st) then
     let w := account_net_usage_average_window cfg in
     st_assert (used_in_window (value_ex (net_usage usage)) w
                <=? max_user_use (virtual_net_limit st) w net_w (total_net_weight st) (cpu_us (gmr s)))
       tx_net_usage_exceeded
   else mret ()).

Definition add_pending (cpu net : Z) (t : resource_limits_state_object) : resource_limits_state_object :=
  mk_rl_state (average_block_net_usage t) (average_block_cpu_usage t)
    (u64 (pending_net_usage t + net)) (u64 (pending_cpu_usage t + cpu))
    (total_net_weight t) (total_cpu_weight t) (total_ram_bytes t) (virtual_net_limit t) (virtual_cpu_limit t).

(** [accounts] is a [flat_set]: its elements in ascending order. *)
Definition add_transaction_usage (v : ram_view) (accounts : list account_name) (cpu net time_slot : Z) : RL () :=
  for_each (charge v cpu net time_slot) accounts ;;
  modify_st (fun s => set_state (add_pending cpu net (rl_state s)) s) ;;
  s ← get_st;
  st_assert (pending_cpu_usage (rl_state s) <=? max (cpu_limit_parameters (rl_config s))) block_resource_exhausted ;;
  st_assert (pending_net_usage (rl_state s) <=? max (net_limit_parameters (rl_config s))) block_resource_exhausted.

Definition add_pending_ram_usage (account : account_name) (ram_delta : Z) : RL () :=
  if ram_delta =? 0 then mret ()
  else
    s ← get_st;
    u ← get_row (usages s) account;
    st_assert ((ram_delta <=? 0) || (u64 ram_delta <=? u64_max - ram_usage u)) transaction_exception ;;
    st_assert ((0 <=? ram_delta) || (u64 (- ram_delta) <=? ram_usage u)) transaction_exception ;;
    put_st (set_usages (<[account := mk_account_usage (net_usage u) (cpu_usage u)
                                       (u64 (ram_usage u + ram_delta))]> (usages s)) s).

Definition verify_account_ram_usage (v : ram_view) (account : account_name) : RL () :=
  '(ram, _, _) ← get_account_limits v account;
  s ← get_st;
  u ← get_row (usages s) account;
  if 0 <=? ram then st_assert (ram_usage u <=? ram) ram_usage_exceeded else mret ().

Definition get_account_ram_usage (account : account_name) : RL Z :=
  s ← get_st; u ← get_row (usages s) account; mret (i64 (ram_usage u)).

Definition set_account_limits (account : account_name) (ram net cpu : Z) : RL bool :=
  s ← get_st;
  limits ← (match pending_limits s !! account with
            | Some l => mret l
            | None => l ← get_row (actual_limits s) account;
                      put_st (set_pending (<[account := l]> (pending_limits s)) s) ;; mret l
            end);
  let decreased_limit := (0 <=? ram) && ((ram_bytes limits <? 0) || (ram <? ram_bytes limits)) in
  modify_st (fun s => set_pending (<[account := mk_limits net cpu ram]> (pending_limits s)) s) ;;
  mret decreased_limit.

(** The lambda of [process_account_limit_updates]: the new total. *)
Definition update_state_and_value (total value pending_value : Z) : R Z :=
  total ← (if 0 <? value then
             eos_assert (value <=? total) rate_limiting_state_inconsistent ;; mret (total - value)
           else mret total);
  if 0 <? pending_value then
    eos_assert (pending_value <=? u64_max - total) rate_limiting_state_inconsistent ;; mret (total + pending_value)
  else mret total.

Definition set_totals (ram cpu net : Z) (t : resource_limits_state_object) : resource_limits_state_object :=
  mk_rl_state (average_block_net_usage t) (average_block_cpu_usage t) (pending_net_usage t) (pending_cpu_usage t)
    net cpu ram (virtual_net_limit t) (virtual_cpu_limit t).

(** One entry; the three lambda calls and the removal.  A throw between them
    would leave the row half written in the program, which the callers undo with
    their session. *)
Definition apply_pending (row : account_name * resource_limits_object) : RL () :=
  let '(owner, l) := row in
  s ← get_st;
  a ← get_row (actual_limits s) owner;
  let t := rl_state s in
  ram ← lift (update_state_and_value (total_ram_bytes t) (ram_bytes a) (ram_bytes l));
  cpu ← lift (update_state_and_value (total_cpu_weight t) (cpu_weight a) (cpu_weight l));
  net ← lift (update_state_and_value (total_net_weight t) (net_weight a) (net_weight l));
  put_st (set_pending (delete owner (pending_limits s))
            (set_actual (<[owner := l]> (actual_limits s)) (set_state (set_totals ram cpu net t) s))).

(** The loop takes the first pending entry until none is left, that is all of
    them in the order of their owners. *)
Definition process_account_limit_updates : RL () :=
  s ← get_st; for_each apply_pending (ascending (pending_limits s)).

Definition process_block_usage (block_num : Z) : RL () :=
  s ← get_st;
  let t := rl_state s in
  let cpu := cpu_limit_parameters (rl_config s) in
  let net := net_limit_parameters (rl_config s) in
  ac ← lift (add (average_block_cpu_usage t) (pending_cpu_usage t) block_num (periods cpu));
  vc ← lift (update_elastic_limit (virtual_cpu_limit t) (average ac) cpu);
  an ← lift (add (average_block_net_usage t) (pending_net_usage t) block_num (periods net));
  vn ← lift (update_elastic_limit (virtual_net_limit t) (average an) net);
  put_st (set_state (mk_rl_state an ac 0 0 (total_net_weight t) (total_cpu_weight t) (total_ram_bytes t) vn vc) s).

Definition get_block_cpu_limit (s : rl_db) : Z :=
  u64 (max (cpu_limit_parameters (rl_config s)) - pending_cpu_usage (rl_state s)).
Definition get_block_net_limit (s : rl_db) : Z :=
  u64 (max (net_limit_parameters (rl_config s)) - pending_net_usage (rl_state s)).

Record account_resource_limit : Type := mk_arl { used : Z; available : Z; arl_max : Z }.

(** The common part of the two [_limit_ex] functions. *)
Definition limit_of (max_use used_now : Z) : R account_resource_limit :=
  available ← (if max_use <=? used_now then mret 0 else downgrade_cast i64_max (max_use - used_now));
  u ← downgrade_cast i64_max used_now;
  m ← downgrade_cast i64_max max_use;
  mret (mk_arl u available m).

Definition get_account_cpu_limit_ex (v : ram_view) (name : account_name) (elastic : bool) : RL account_resource_limit :=
  s ← get_st;
  usage ← get_row (usages s) name;
  '(_, _, w) ← get_account_limits v name;
  let t := rl_state s in
  if (w <? 0) || (total_cpu_weight t =? 0) then mret (mk_arl (-1) (-1) (-1))
  else
    let window := account_cpu_usage_average_window (rl_config s) in
    let capacity := if elastic then virtual_cpu_limit t else max (cpu_limit_parameters (rl_config s)) in
    lift (limit_of (max_user_use capacity window w (total_cpu_weight t) (cpu_us (gmr s)))
            (integer_divide_ceil (u128 (value_ex (cpu_usage usage) * window)) Precision)).

Definition get_account_net_limit_ex (v : ram_view) (name : account_name) (elastic : bool) : RL account_resource_limit :=
  s ← get_st;
  usage ← get_row (usages s) name;
  '(_, w, _) ← get_account_limits v name;
  let t := rl_state s in
  if (w <? 0) || (total_net_weight t =? 0) then mret (mk_arl (-1) (-1) (-1))
  else
    let window := account_net_usage_average_window (rl_config s) in
    let capacity := if elastic then virtual_net_limit t else max (net_limit_parameters (rl_config s)) in
    lift (limit_of (max_user_use capacity window w (total_net_weight t) (net_byte (gmr s)))
            (integer_divide_ceil (u128 (value_ex (net_usage usage) * window)) Precision)).

Definition get_account_cpu_limit (v : ram_view) (name : account_name) (elastic : bool) : RL Z :=
  l ← get_account_cpu_limit_ex v name elastic; mret (available l).
Definition get_account_net_limit (v : ram_view) (name : account_name) (elastic : bool) : RL Z :=
  l ← get_account_net_limit_ex v name elastic; mret (available l).

(** ** RAM usage is exact *)

Lemma add_pending_exact (a : account_name) (d : Z) (s : rl_db) (u : resource_usage_object) :
  usages s !! a = Some u → 0 ≤ ram_usage u ≤ u64_max → i64_min ≤ d ≤ i64_max →
  run (add_pending_ram_usage a d) s =
  if (0 <=? ram_usage u + d) && (ram_usage u + d <=? u64_max)
  then Ok (set_usages (<[a := mk_account_usage (net_usage u) (cpu_usage u) (ram_usage u + d)]> (usages s)) s)
  else Err transaction_exception.
Proof.
  intros Hu Hr Hd. unfold run, add_pending_ram_usage.
  destruct (Z.eqb_spec d 0) as [->|Hd0].
  - rewrite Z.add_0_r, (proj2 (Z.leb_le _ _)), (proj2 (Z.leb_le _ _)) by lia. cbn.
    rewrite insert_id by (rewrite Hu; f_equal; by destruct u). by destruct s.
  - unfold get_row, mbind, st_bind, get_st, lift, st_assert, eos_assert. rewrite Hu. cbn.
    assert (u64 d = if 0 <=? d then d else d + 2 ^ 64) as Hud.
    { unfold u64, wrapu. destruct (Z.leb_spec 0 d); [apply Z.mod_small; unfold i64_max in *; lia|].
      rewrite <- (Z.mod_add d 1) by lia. apply Z.mod_small. unfold i64_min in *. lia. }
    assert (d < 0 → u64 (- d) = - d) as Hun.
    { intros. apply u64_small. unfold u64_max, i64_min in *. lia. }
    destruct (Z.leb_spec 0 d), (Z.leb_spec d 0); try lia.
    + rewrite Hud. cbn. destruct (Z.leb_spec d (u64_max - ram_usage u)); cbn.
      * rewrite (proj2 (Z.leb_le _ _)), (proj2 (Z.leb_le _ _)) by lia. cbn. rewrite u64_small by lia. done.
      * destruct (_ <=? _) eqn:E1 at 1; [|done]. rewrite (proj2 (Z.leb_gt _ _)) by lia. done.
    + rewrite Hun by lia. cbn. destruct (Z.leb_spec (- d) (ram_usage u)); cbn.
      * rewrite (proj2 (Z.leb_le _ _)), (proj2 (Z.leb_le _ _)) by lia. cbn. rewrite u64_small by lia. done.
      * rewrite (proj2 (Z.leb_gt _ _)) by lia. done.
Qed.

(** Adding to the RAM usage of an account is exact: the new usage is the sum,
    and the operation throws exactly when the sum does not fit 64 bits or would
    be negative. *)
Theorem ram_usage_exact (a : account_name) (d : Z) (s : rl_db) (u : resource_usage_object) :
  usages s !! a = Some u → 0 ≤ ram_usage u ≤ u64_max → i64_min ≤ d ≤ i64_max →
  run (add_pending_ram_usage a d) s =
  if (0 <=? ram_usage u + d) && (ram_usage u + d <=? u64_max)
  then Ok (set_usages (<[a := mk_account_usage (net_usage u) (cpu_usage u) (ram_usage u + d)]> (usages s)) s)
  else Err transaction_exception.
Proof. apply add_pending_exact. Qed.

(** ** Pending limits and the totals *)

(** Only positive weights count. *)
Definition pos (z : Z) : Z := Z.max 0 z.
Definition weights (f : resource_limits_object → Z) (m : gmap account_name resource_limits_object) : Z :=
  map_sum (fun l => pos (f l)) m.

Definition totals_ok (s : rl_db) : Prop :=
  total_ram_bytes (rl_state s) = weights ram_bytes (actual_limits s) ∧
  total_cpu_weight (rl_state s) = weights cpu_weight (actual_limits s) ∧
  total_net_weight (rl_state s) = weights net_weight (actual_limits s).

(** The totals fit whatever the order in which the pending limits are applied. *)
Definition room (m pending : gmap account_name resource_limits_object) : Prop :=
  weights ram_bytes m + weights ram_bytes pending ≤ u64_max ∧
  weights cpu_weight m + weights cpu_weight pending ≤ u64_max ∧
  weights net_weight m + weights net_weight pending ≤ u64_max.

Lemma weights_nonneg f m : 0 ≤ weights f m.
Proof. apply map_sum_nonneg. intros k l _. unfold pos. lia. Qed.

Lemma weights_insert f m o a l : m !! o = Some a → weights f (<[o := l]> m) = weights f m - pos (f a) + pos (f l).
Proof. intros Ha. unfold weights. by rewrite (map_sum_update _ _ _ a). Qed.

Lemma update_total f m o a l : m !! o = Some a → weights f m + pos (f l) ≤ u64_max →
  update_state_and_value (weights f m) (f a) (f l) = Ok (weights f (<[o := l]> m)).
Proof.
  intros Ha Hb. rewrite (weights_insert _ _ _ a) by done.
  assert (pos (f a) ≤ weights f m) as Hle.
  { unfold weights. eapply (map_sum_ge_elem (fun l => pos (f l))); [|done]. intros; unfold pos; lia. }
  unfold update_state_and_value, eos_assert, mbind, result_bind, pos in *.
  destruct (Z.ltb_spec 0 (f a)); [rewrite (proj2 (Z.leb_le _ _)) by lia|]; cbn;
    (destruct (Z.ltb_spec 0 (f l)); [rewrite (proj2 (Z.leb_le _ _)) by lia|]; cbn; f_equal; lia).
Qed.

Lemma apply_pending_spec o a l s :
  actual_limits s !! o = Some a → totals_ok s →
  weights ram_bytes (actual_limits s) + pos (ram_bytes l) ≤ u64_max →
  weights cpu_weight (actual_limits s) + pos (cpu_weight l) ≤ u64_max →
  weights net_weight (actual_limits s) + pos (net_weight l) ≤ u64_max →
  ∃ s', apply_pending (o, l) s = (Ok tt, s') ∧ totals_ok s' ∧
    actual_limits s' = <[o := l]> (actual_limits s) ∧ pending_limits s' = delete o (pending_limits s) ∧
    usages s' = usages s.
Proof.
  intros Ha (T1 & T2 & T3) B1 B2 B3. eexists.
  unfold apply_pending, get_row, mbind, st_bind, get_st, lift, put_st. rewrite Ha. cbn.
  rewrite T1, T2, T3, (update_total ram_bytes _ o), (update_total cpu_weight _ o), (update_total net_weight _ o) by done.
  split; [reflexivity|]. by split_and!.
Qed.

Lemma weights_list_cons f o l rest :
  o ∉ rest.*1 → weights f (list_to_map ((o, l) :: rest)) = pos (f l) + weights f (list_to_map rest).
Proof. intros Ho. cbn. unfold weights. rewrite map_sum_insert; [done|]. by apply not_elem_of_list_to_map_1. Qed.

Lemma apply_all_spec rows s :
  NoDup rows.*1 → pending_limits s = list_to_map rows →
  (∀ o, o ∈ rows.*1 → is_Some (actual_limits s !! o)) → totals_ok s →
  room (actual_limits s) (list_to_map rows) →
  ∃ s', for_each apply_pending rows s = (Ok tt, s') ∧ totals_ok s' ∧ pending_limits s' = ∅ ∧
    actual_limits s' = list_to_map rows ∪ actual_limits s ∧ usages s' = usages s.
Proof.
  revert s. induction rows as [|[o l] rows IH]; intros s Hnd Hp Ha Ht Hroom.
  { exists s. split_and!; try done. cbn. by rewrite (left_id_L ∅ (∪)). }
  cbn in Hnd. apply NoDup_cons in Hnd as [Ho Hnd].
  destruct (Ha o) as [a Hoa]; [by left|].
  unfold room in Hroom. rewrite !(weights_list_cons _ o l rows Ho) in Hroom. destruct Hroom as (B1 & B2 & B3).
  pose proof (weights_nonneg ram_bytes (list_to_map rows)). pose proof (weights_nonneg cpu_weight (list_to_map rows)).
  pose proof (weights_nonneg net_weight (list_to_map rows)).
  destruct (apply_pending_spec o a l s) as (s1 & E1 & T1 & A1 & P1 & U1); [done|done|lia..|].
  destruct (IH s1) as (s2 & E2 & T2 & P2 & A2 & U2); [done| | |done| |].
  - rewrite P1, Hp. cbn. apply delete_insert_id. by apply not_elem_of_list_to_map_1.
  - intros o' Ho'. rewrite A1. apply lookup_insert_is_Some'. right. apply Ha. by right.
  - unfold room. rewrite A1, !(weights_insert _ _ _ a) by done. unfold pos in *. lia.
  - exists s2. cbn [for_each]. unfold mbind, st_bind. rewrite E1, E2. split_and!; try done; [|congruence].
    rewrite A2, A1. cbn. rewrite <- insert_union_l, insert_union_r; [done|].
    by apply not_elem_of_list_to_map_1.
Qed.

(** Processing the pending limits succeeds when the totals have room for
    them: every pending entry becomes the actual one, none is left pending, and
    the totals are again the sums of the positive weights of all accounts. *)
Theorem limit_updates_applied (s : rl_db) :
  totals_ok s → dom (pending_limits s) ⊆ dom (actual_limits s) → room (actual_limits s) (pending_limits s) →
  ∃ s', run process_account_limit_updates s = Ok s' ∧ totals_ok s' ∧ pending_limits s' = ∅ ∧
    actual_limits s' = pending_limits s ∪ actual_limits s ∧ usages s' = usages s.
Proof.
  intros Ht Hd Hr.
  destruct (apply_all_spec (ascending (pending_limits s)) s) as (s' & H & T & P & A & U).
  - apply ascending_nodup.
  - by rewrite ascending_to_map.
  - intros o [[o' l] [-> Hl]]%list_elem_of_fmap. apply elem_of_ascending in Hl.
    apply elem_of_dom, Hd, elem_of_dom. by exists l.
  - done.
  - by rewrite ascending_to_map.
  - rewrite ascending_to_map in A. exists s'. split_and!; try done.
    unfold run, process_account_limit_updates, mbind, st_bind, get_st. by rewrite H.
Qed.

(** ** Block usage *)

Lemma ceil_bounds n d : 0 < d → n ≤ d * integer_divide_ceil n d < n + d.
Proof.
  intros Hd. unfold integer_divide_ceil. pose proof (Z.div_mod n d ltac:(lia)). pose proof (Z.mod_pos_bound n d Hd).
  destruct (Z.ltb_spec 0 (n mod d)); nia.
Qed.

Lemma ceil_mono n m d : 0 < d → n ≤ m → integer_divide_ceil n d ≤ integer_divide_ceil m d.
Proof. intros Hd Hle. pose proof (ceil_bounds n d Hd). pose proof (ceil_bounds m d Hd). nia. Qed.

Lemma ceil_nonneg n d : 0 < d → 0 ≤ n → 0 ≤ integer_divide_ceil n d.
Proof. intros Hd Hn. pose proof (ceil_bounds n d Hd). nia. Qed.

(** Parameters for which no intermediate result overflows. *)
Record elastic_ok (p : elastic_limit_parameters) : Prop := mk_elastic_ok
  { ok_periods : 0 < periods p ≤ Precision;
    ok_max : 0 ≤ max p;
    ok_mult : 1 ≤ max_multiplier p;
    ok_contract : 0 ≤ numerator (contract_rate p) ∧ 0 < denominator (contract_rate p);
    ok_expand : 0 ≤ numerator (expand_rate p) ∧ 0 < denominator (expand_rate p);
    ok_contract_fits : max p * max_multiplier p * numerator (contract_rate p) ≤ u64_max;
    ok_expand_fits : max p * max_multiplier p * numerator (expand_rate p) ≤ u64_max;
    ok_limit_fits : max p * max_multiplier p ≤ u64_max;
    ok_decay_fits : (max p + 1) * Precision * periods p ≤ u64_max;
    ok_value_fits : 2 * ((max p + 1) * Precision) ≤ u64_max }.

(** The contribution of a full block. *)
Definition full (p : elastic_limit_parameters) : Z := integer_divide_ceil (max p * Precision) (periods p).

Definition usage_ok (p : elastic_limit_parameters) (u : usage_accumulator) : Prop :=
  0 ≤ last_ordinal u ∧ 0 ≤ value_ex u ≤ periods p * full p ∧ 0 ≤ consumed u ≤ 2 * max p + 1.

Lemma full_bounds p : elastic_ok p →
  0 ≤ full p ∧ periods p * full p ≤ (max p + 1) * Precision.
Proof.
  intros [Hp Hm _ _ _ _ _ _ _ _]. unfold full. pose proof (ceil_bounds (max p * Precision) (periods p)).
  split; [|lia]. apply ceil_nonneg; [lia|]. unfold Precision, config.rate_limiting_precision in *. lia.
Qed.

Lemma average_bound p v : elastic_ok p → 0 ≤ v ≤ periods p * full p → 0 ≤ integer_divide_ceil v Precision ≤ max p + 1.
Proof.
  intros Hok Hv. destruct (full_bounds p Hok) as [_ Hf].
  pose proof (ceil_bounds v Precision ltac:(done)). split; [apply ceil_nonneg; [done|lia]|].
  unfold Precision, config.rate_limiting_precision in *. lia.
Qed.

Lemma decayed_spec p u n : elastic_ok p → usage_ok p u → last_ordinal u < n ≤ u32_max →
  ∃ v, decayed u n (periods p) = Ok v ∧ 0 ≤ v ≤ (periods p - 1) * full p.
Proof.
  intros Hok (Hl & Hv & _) Hn. destruct (full_bounds p Hok) as [Hf0 Hf]. destruct Hok as [Hp Hm _ _ _ _ _ _ Hdf _].
  unfold decayed. rewrite u64_small by (unfold Precision, config.rate_limiting_precision, u32_max, u64_max in *; lia).
  destruct (_ >? n) eqn:E; rewrite Z.gtb_ltb in E.
  - apply Z.ltb_lt in E. rewrite u32_small by (unfold u32_max in *; lia).
    set (d := n - last_ordinal u). assert (0 < d < periods p) as Hd by (unfold d; lia).
    unfold mul_ratio. cbn [numerator denominator].
    rewrite (u64_small (periods p - d)) by (unfold Precision, config.rate_limiting_precision, u64_max in *; lia).
    assert (value_ex u * (periods p - d) ≤ u64_max) as Hfit by nia.
    assert (value_ex u ≤ u64_max / (periods p - d)) as Hdiv by (apply Z.div_le_lower_bound; lia).
    rewrite (proj2 (Z.leb_le _ _) Hdiv), orb_true_r. cbn. eexists. split; [reflexivity|].
    rewrite u64_small by nia. split; [apply Z.div_pos; nia|].
    apply Z.div_le_upper_bound; [lia|]. transitivity (periods p * full p * (periods p - 1)); [|nia].
    apply Z.mul_le_mono_nonneg; lia.
  - exists 0. split; [done|]. split; [done|]. nia.
Qed.

(** A block's usage enters the average without overflow. *)
Lemma add_block_spec p u units n :
  elastic_ok p → usage_ok p u → 0 ≤ units ≤ max p → last_ordinal u < n ≤ u32_max →
  ∃ u', add u units n (periods p) = Ok u' ∧ usage_ok p u' ∧ last_ordinal u' = n ∧
    0 ≤ average u' ≤ max p + 1.
Proof.
  intros Hok Hu Hun Hn. destruct (full_bounds p Hok) as [Hf0 Hf].
  destruct (decayed_spec p u n Hok Hu Hn) as (v & Hdec & Hv).
  pose proof (average_bound p v Hok ltac:(nia)) as Hav.
  destruct Hu as (Hl & Hval & Hcon). pose proof (ok_periods _ Hok) as Hp. pose proof (ok_value_fits _ Hok) as Hvf.
  pose proof (ok_max _ Hok) as Hm.
  assert (0 < Precision) as HP by done. assert (Precision * (2 * (max p + 1)) ≤ u64_max) as Hmm by nia.
  assert (units ≤ max_raw_value) as H1.
  { apply Z.div_le_lower_bound; [done|]. nia. }
  set (c := integer_divide_ceil (units * Precision) (periods p)).
  assert (0 ≤ c ≤ full p) as Hc.
  { split; [apply ceil_nonneg; nia|]. apply ceil_mono; [lia|]. nia. }
  assert (full p ≤ periods p * full p) as Hfp by nia.
  assert (u128 (units * Precision) = units * Precision) as E128.
  { assert (0 ≤ units * Precision ≤ u64_max) by nia. apply u128_small. unfold u64_max in *. lia. }
  unfold add, downgrade_cast. rewrite E128. fold c. rewrite Hdec.
  assert (4 * (max p + 1) ≤ u64_max) as Hmf.
  { unfold Precision, config.rate_limiting_precision in Hmm. lia. }
  rewrite (proj2 (Z.leb_le _ _) H1), (proj2 (Z.leb_le units _)) by lia. cbn.
  rewrite (proj2 (Z.leb_le 0 c)), (proj2 (Z.leb_le c u64_max)) by lia. cbn.
  rewrite (proj2 (Z.leb_le c _)) by lia. cbn.
  rewrite (proj2 (Z.eqb_neq _ _)), (proj2 (Z.ltb_lt _ _)) by lia. cbn. eexists. split; [reflexivity|].
  rewrite !u64_small by nia. unfold usage_ok, average. cbn.
  assert (v + c ≤ periods p * full p) as Hvc by nia.
  split_and!; try lia; apply (average_bound p); (done || lia).
Qed.

(** The elastic limit stays between the block limit and its multiple. *)
Definition limit_range (p : elastic_limit_parameters) (l : Z) : Prop := max p ≤ l ≤ max p * max_multiplier p.

Lemma update_elastic_spec p l avg : elastic_ok p → limit_range p l →
  ∃ l', update_elastic_limit l avg p = Ok l' ∧ limit_range p l'.
Proof.
  intros Hok [Hl1 Hl2]. pose proof (ok_max _ Hok) as Hm. pose proof (ok_mult _ Hok) as Hmu.
  pose proof (ok_limit_fits _ Hok) as Hlf. unfold update_elastic_limit, limit_range.
  set (r := if target p <? avg then contract_rate p else expand_rate p).
  assert (0 ≤ numerator r ∧ 0 < denominator r ∧ max p * max_multiplier p * numerator r ≤ u64_max) as (Hr & Hd & Hrf).
  { destruct Hok. unfold r. destruct (_ <? _); tauto. }
  assert (mul_ratio l r = Ok (u64 (l * numerator r) / denominator r)) as ->.
  { unfold mul_ratio. destruct (Z.eqb_spec (numerator r) 0) as [|Hn]; [done|].
    assert (l ≤ u64_max / numerator r) as Hdiv by (apply Z.div_le_lower_bound; nia).
    by rewrite (proj2 (Z.leb_le _ _) Hdiv). }
  assert (0 ≤ l * numerator r ≤ max p * max_multiplier p * numerator r) as Hlr.
  { split; [apply Z.mul_nonneg_nonneg; lia|apply Z.mul_le_mono_nonneg_r; lia]. }
  cbn. eexists. split; [reflexivity|]. rewrite (u64_small (l * numerator r)), u64_small by lia.
  assert (max p ≤ max p * max_multiplier p) by nia. lia.
Qed.

Record block_ok (s : rl_db) : Prop := mk_block_ok
  { bo_cpu : elastic_ok (cpu_limit_parameters (rl_config s));
    bo_net : elastic_ok (net_limit_parameters (rl_config s));
    bo_cpu_usage : usage_ok (cpu_limit_parameters (rl_config s)) (average_block_cpu_usage (rl_state s));
    bo_net_usage : usage_ok (net_limit_parameters (rl_config s)) (average_block_net_usage (rl_state s));
    bo_cpu_pending : 0 ≤ pending_cpu_usage (rl_state s) ≤ max (cpu_limit_parameters (rl_config s));
    bo_net_pending : 0 ≤ pending_net_usage (rl_state s) ≤ max (net_limit_parameters (rl_config s));
    bo_cpu_limit : limit_range (cpu_limit_parameters (rl_config s)) (virtual_cpu_limit (rl_state s));
    bo_net_limit : limit_range (net_limit_parameters (rl_config s)) (virtual_net_limit (rl_state s)) }.


(** ** Transactions *)

(** The weights in force: the pending ones if there are any. *)
Definition limits_in_force (s : rl_db) (a : account_name) : option resource_limits_object :=
  match pending_limits s !! a with Some l => Some l | None => actual_limits s !! a end.

(** The usage [u] of an account with limits [l] is within its share. *)
Definition within_share (s : rl_db) (u : resource_usage_object) (l : resource_limits_object) : Prop :=
  (0 ≤ cpu_weight l → 0 < total_cpu_weight (rl_state s) →
   used_in_window (value_ex (cpu_usage u)) (account_cpu_usage_average_window (rl_config s))
   ≤ max_user_use (virtual_cpu_limit (rl_state s)) (account_cpu_usage_average_window (rl_config s))
       (cpu_weight l) (total_cpu_weight (rl_state s)) (cpu_us (gmr s))) ∧
  (0 ≤ net_weight l → 0 < total_net_weight (rl_state s) →
   used_in_window (value_ex (net_usage u)) (account_net_usage_average_window (rl_config s))
   ≤ max_user_use (virtual_net_limit (rl_state s)) (account_net_usage_average_window (rl_config s))
       (net_weight l) (total_net_weight (rl_state s)) (cpu_us (gmr s))).

Lemma get_account_limits_spec v a s r s' : get_account_limits v a s = (Ok r, s') →
  s' = s ∧ ∃ l, limits_in_force s a = Some l ∧ r.1.2 = net_weight l ∧ r.2 = cpu_weight l.
Proof.
  intros H. unfold get_account_limits, get_row, limits_in_force in *.
  apply st_bind_ok in H as (s0 & s1 & Hg & H). simpl_ok.
  destruct (pending_limits s !! a) eqn:E; simpl_ok; (split; [done|]); eexists; by split_and!.
Qed.

Lemma use_spec cpu net t a s u s' : use cpu net t a s = (Ok u, s') →
  ∃ x, s' = set_usages (<[a := x]> (usages s)) s.
Proof. intros H. unfold use, get_row in H. simpl_ok. by eexists. Qed.

(** A check made only under a condition. *)
Lemma check_spec (b c : bool) (e : exn) (s s' : rl_db) u :
  (if b then st_assert c e else mret ()) s = (Ok u, s') → s' = s ∧ (b = true → c = true).
Proof. destruct b; intros H; simpl_ok; by split. Qed.

Lemma charge_spec v cpu net t a s u s' : charge v cpu net t a s = (Ok u, s') →
  ∃ x l, s' = set_usages (<[a := x]> (usages s)) s ∧ limits_in_force s a = Some l ∧ within_share s x l.
Proof.
  intros H. unfold charge in H. apply st_bind_ok in H as (s0 & s1 & Hg & H). simpl_ok.
  unfold get_row at 1 in H0. simpl_ok.
  match goal with H : get_account_limits _ _ _ = (Ok ?r, _) |- _ =>
    apply get_account_limits_spec in H as (-> & l & Hl & Hnw & Hcw); destruct r as [[ram nw] cw] end.
  simpl_ok. match goal with H : use _ _ _ _ _ = _ |- _ => apply use_spec in H as [y ->] end.
  match goal with H : get_row _ _ _ = _ |- _ => unfold get_row in H; simpl_ok; rename H into Hy end.
  cbn in *. rewrite lookup_insert_eq in Hy. injection Hy as <-. subst nw cw.
  exists y, l.
  apply check_spec in H as [-> Hnet].
  match goal with H : (if _ then _ else _) _ = _ |- _ => apply check_spec in H as [-> Hcpu] end.
  split_and!; [done|done|]. split; intros W1 W2.
  - apply Z.leb_le, Hcpu. by rewrite (proj2 (Z.leb_le _ _) W1), (proj2 (Z.ltb_lt _ _) W2).
  - apply Z.leb_le, Hnet. by rewrite (proj2 (Z.leb_le _ _) W1), (proj2 (Z.ltb_lt _ _) W2).
Qed.

(** The accounts are charged one after the other; only their usage changes. *)
Lemma charge_all_spec v cpu net t accounts s u s' :
  NoDup accounts → for_each (charge v cpu net t) accounts s = (Ok u, s') →
  s' = set_usages (usages s') s ∧
  (∀ a, a ∉ accounts → usages s' !! a = usages s !! a) ∧
  ∀ a, a ∈ accounts → ∃ x l, usages s' !! a = Some x ∧ limits_in_force s a = Some l ∧ within_share s x l.
Proof.
  intros Hnd. revert s. induction Hnd as [|a accounts Ha Hnd IH]; intros s H; cbn [for_each] in H.
  - simpl_ok. split_and!; [by destruct s|done|]. intros a Ha. by apply not_elem_of_nil in Ha.
  - apply st_bind_ok in H as (u1 & s1 & H1 & H).
    apply charge_spec in H1 as (x & l & -> & Hl & Hs). apply IH in H as (Heq & Hother & Hin).
    split_and!; [by rewrite Heq| |].
    + intros b [Hba Hb]%not_elem_of_cons. rewrite Hother by done. cbn. by rewrite lookup_insert_ne.
    + intros b [->|Hb]%elem_of_cons; [|by apply Hin]. exists x, l. rewrite Hother by done. cbn.
      by rewrite lookup_insert_eq.
Qed.


(** ** Accounts keep their rows *)

(** [a] has a usage object and limits. *)
Definition listed (a : account_name) (s : rl_db) : Prop := is_Some (usages s !! a) ∧ is_Some (actual_limits s !! a).

Section Listed.
Context (a : account_name).

Lemma listed_put {A} (m : gmap account_name A) k v : is_Some (m !! a) → is_Some (<[k := v]> m !! a).
Proof. intros Hm. destruct (decide (k = a)) as [->|]; [by rewrite lookup_insert_eq|by rewrite lookup_insert_ne]. Qed.

Ltac listed := keep ltac:(first [done | match goal with H : listed _ _ |- _ => destruct H; split; cbn; by auto using @listed_put end]).

Lemma use_listed c n t b : keeps (listed a) (use c n t b).
Proof. unfold use, get_row. listed. Qed.
Lemma update_account_usage_listed l t : keeps (listed a) (update_account_usage l t).
Proof. apply keeps_for_each. intros b. apply use_listed. Qed.
Lemma get_account_limits_listed v b : keeps (listed a) (get_account_limits v b).
Proof. unfold get_account_limits, get_row. listed. Qed.
Lemma charge_listed v c n t b : keeps (listed a) (charge v c n t b).
Proof. unfold charge, get_row. listed; [apply get_account_limits_listed|apply use_listed]. Qed.
Lemma add_transaction_usage_listed v l c n t : keeps (listed a) (add_transaction_usage v l c n t).
Proof. unfold add_transaction_usage. listed. apply charge_listed. Qed.
Lemma add_pending_ram_usage_listed b d : keeps (listed a) (add_pending_ram_usage b d).
Proof. unfold add_pending_ram_usage, get_row. listed. Qed.
Lemma verify_account_ram_usage_listed v b : keeps (listed a) (verify_account_ram_usage v b).
Proof. unfold verify_account_ram_usage, get_row. listed. apply get_account_limits_listed. Qed.
Lemma get_account_cpu_limit_listed v b e : keeps (listed a) (get_account_cpu_limit v b e).
Proof. unfold get_account_cpu_limit, get_account_cpu_limit_ex, get_row. listed. apply get_account_limits_listed. Qed.
Lemma get_account_net_limit_listed v b e : keeps (listed a) (get_account_net_limit v b e).
Proof. unfold get_account_net_limit, get_account_net_limit_ex, get_row. listed. apply get_account_limits_listed. Qed.
Lemma process_account_limit_updates_listed : keeps (listed a) process_account_limit_updates.
Proof. unfold process_account_limit_updates, apply_pending, get_row. listed. Qed.
Lemma process_block_usage_listed n : keeps (listed a) (process_block_usage n).
Proof. unfold process_block_usage. listed. Qed.
Lemma set_block_parameters_listed c n : keeps (listed a) (set_block_parameters c n).
Proof. unfold set_block_parameters. listed. Qed.
Lemma set_gmr_parameters_listed g : keeps (listed a) (set_gmr_parameters g).
Proof. unfold set_gmr_parameters. listed. Qed.
End Listed.

#[global] Hint Resolve update_account_usage_listed add_transaction_usage_listed add_pending_ram_usage_listed
  verify_account_ram_usage_listed get_account_cpu_limit_listed get_account_net_limit_listed
  process_account_limit_updates_listed process_block_usage_listed set_block_parameters_listed
  set_gmr_parameters_listed : chain.

(** ** Two accounts on a fresh database *)
Module LimitsDemo.
Definition view : ram_view := mk_ram_view (fun _ => None) 10240.
Definition setup : RL () :=
  initialize_account 7 ;; initialize_account 8 ;;
  _ ← set_account_limits 7 (-1) 0 5; _ ← set_account_limits 8 4096 10 5; mret ().
Definition result_of (m : RL ()) (s : rl_db) : rl_db :=
  match run m s with Ok s' => s' | Err _ => initialize_database end.
Definition waiting : rl_db := Eval vm_compute in result_of setup initialize_database.
Definition running : rl_db := Eval vm_compute in result_of process_account_limit_updates waiting.

Lemma init_block_ok : block_ok initialize_database.
Proof. split; cbn; first [split; vm_compute; first [done|split; done|lia]|vm_compute; split; done|split; vm_compute; done]. Qed.

Lemma waiting_totals : totals_ok waiting.
Proof. by vm_compute. Qed.

Lemma waiting_room : room (actual_limits waiting) (pending_limits waiting).
Proof. by vm_compute. Qed.

Lemma waiting_known : dom (pending_limits waiting) ⊆ dom (actual_limits waiting).
Proof. by vm_compute. Qed.
End LimitsDemo.

Lemma ram_usage_exact_witness :
  is_ok (run (add_pending_ram_usage 7 100) LimitsDemo.running) = true ∧
  run (add_pending_ram_usage 7 (-1)) LimitsDemo.running = Err transaction_exception.
Proof.
  split; [vm_compute; reflexivity|].
  rewrite (ram_usage_exact 7 (-1) LimitsDemo.running default_usage).
  - reflexivity.
  - vm_compute. reflexivity.
  - vm_compute. split; discriminate.
  - vm_compute. split; discriminate.
Defined.

Lemma limit_updates_applied_witness :
  ∃ s', run process_account_limit_updates LimitsDemo.waiting = Ok s' ∧ pending_limits s' = ∅.
Proof.
  destruct (limit_updates_applied LimitsDemo.waiting LimitsDemo.waiting_totals LimitsDemo.waiting_known
    LimitsDemo.waiting_room) as (s' & H & _ & Hp & _).
  exists s'. split; [exact H|exact Hp].
Defined.



(** The net limit of an account is not what is enforced: the account has
    32768 bytes available, and a transaction of 100000 bytes is accepted, because
    the check adds the guaranteed cpu time instead of the guaranteed bytes. *)
Theorem net_limit_not_enforced :
  (get_account_net_limit LimitsDemo.view 7 true LimitsDemo.running).1 = Ok 32768 ∧
  is_ok (run (add_transaction_usage LimitsDemo.view [7] 100 100000 5) LimitsDemo.running) = true.
Proof. vm_compute. done. Qed.
End ResourceLimits.
