(* ===== verification/Authority.v ===== *)
(** * Authorities

    [authority.hpp], the permission levels of [action.hpp] and
    [authority_checker.hpp]: whether a set of signing keys, permission levels and
    a delay satisfies an authority that may refer to further permissions.

    The checker keeps a cache per query and a mark per key.  Its recursion runs on
    the depth that is left.  The theorems compare it with [allowed], a plain
    recursion without cache, early exit or marks. *)

From S2P Require Import Prelude Exceptions Name BlockHeader.

Module Authority.

(** ** Permission levels ([action.hpp]) *)

Record permission_level : Type := mk_level { actor : account_name; permission : Z }.

#[export] Instance permission_level_eq_dec : EqDecision permission_level.
Proof. solve_decision. Defined.
#[export] Instance permission_level_countable : Countable permission_level.
Proof.
  refine (inj_countable' (fun l => (actor l, permission l)) (fun x => mk_level x.1 x.2) _).
  by intros [].
Defined.

(** [std::tie( actor, permission )] compared lexicographically. *)
Definition level_lt (l r : permission_level) : bool :=
  (actor l <? actor r) || ((actor l =? actor r) && (permission l <? permission r)).

(** ** Authorities ([authority.hpp]) *)

Record permission_level_weight : Type := mk_plw { plw_permission : permission_level; plw_weight : Z }.
Record key_weight : Type := mk_kw { kw_key : public_key_type; kw_weight : Z }.
Record wait_weight : Type := mk_ww { wait_sec : Z; ww_weight : Z }.

Record authority : Type := mk_authority
  { threshold : Z; keys : list key_weight; accounts : list permission_level_weight; waits : list wait_weight }.

(** [authority( public_key_type, uint32_t )] *)
Definition authority_of_key (k : public_key_type) (delay_sec : Z) : authority :=
  if 0 <? delay_sec then mk_authority 2 [mk_kw k 1] [] [mk_ww delay_sec 1]
  else mk_authority 1 [mk_kw k 1] [] [].

(** [billable_size_v]: sizes are rounded up to the alignment. *)
Definition billable_size_v (value : Z) : Z := (value + 16 - 1) / 16 * 16.

(** [get_billable_size]; the serialized size of a key is an argument. *)
Definition get_billable_size (pack_size : public_key_type → Z) (a : authority) : Z :=
  let accounts_size := u64 (Z.of_nat (length (accounts a)) * billable_size_v 24) in
  let waits_size := u64 (Z.of_nat (length (waits a)) * billable_size_v 16) in
  let keys_size := foldl (fun z k => u64 (u64 (z + billable_size_v 8) + pack_size (kw_key k))) 0 (keys a) in
  u64 (accounts_size + waits_size + keys_size).

(** One of the three loops of [validate]: the elements ascend strictly, and the
    weights are added to the total; [None] is [return false]. *)
Fixpoint scan {A} (ok : A → A → bool) (weight : A → Z) (prev : option A) (total : Z) (l : list A) : option Z :=
  match l with
  | [] => Some total
  | x :: l =>
      if (match prev with Some p => ok p x | None => true end)
      then scan ok weight (Some x) (u32 (total + weight x)) l
      else None
  end.

Definition key_ok (p x : key_weight) : bool := kw_key p <? kw_key x.
Definition account_ok (p x : permission_level_weight) : bool := level_lt (plw_permission p) (plw_permission x).
Definition wait_ok (p x : wait_weight) : bool := negb (wait_sec x <=? wait_sec p).

Definition validate (a : authority) : bool :=
  if 65536 <? Z.of_nat (length (keys a) + length (accounts a) + length (waits a)) then false
  else if threshold a =? 0 then false
  else match scan key_ok kw_weight None 0 (keys a) with
       | None => false
       | Some t =>
           match scan account_ok plw_weight None t (accounts a) with
           | None => false
           | Some t =>
               if (match waits a with w :: _ => wait_sec w =? 0 | [] => false end) then false
               else match scan wait_ok ww_weight None t (waits a) with
                    | None => false
                    | Some t => threshold a <=? t
                    end
           end
       end.

(** ** The authority checker ([authority_checker.hpp]) *)

Inductive meta_permission : Type :=
| MPAccount (p : permission_level_weight)
| MPKey (k : key_weight)
| MPWait (w : wait_weight).

(** [static_variant::which] *)
Definition which (m : meta_permission) : Z :=
  match m with MPAccount _ => 0 | MPKey _ => 1 | MPWait _ => 2 end.

Definition meta_weight (m : meta_permission) : Z :=
  match m with MPAccount p => plw_weight p | MPKey k => kw_weight k | MPWait w => ww_weight w end.

Definition meta_permission_comparator (l r : meta_permission) : bool :=
  (meta_weight r <? meta_weight l) || ((meta_weight l =? meta_weight r) && (which r <? which l)).

(** A [flat_multiset] inserts behind the elements that are not greater. *)
Fixpoint insert_meta (x : meta_permission) (l : list meta_permission) : list meta_permission :=
  match l with
  | [] => [x]
  | y :: l' => if meta_permission_comparator x y then x :: l else y :: insert_meta x l'
  end.

(** The factors in the order [satisfied] inserts them. *)
Definition factors (a : authority) : list meta_permission :=
  (MPWait <$> waits a) ++ (MPKey <$> keys a) ++ (MPAccount <$> accounts a).

Definition meta_permission_set (a : authority) : list meta_permission :=
  foldl (fun l x => insert_meta x l) [] (factors a).

Inductive permission_cache_status : Type := being_evaluated | permission_unsatisfied | permission_satisfied.

#[export] Instance permission_cache_status_eq_dec : EqDecision permission_cache_status.
Proof. solve_decision. Defined.

Abbreviation cache := (gmap permission_level permission_cache_status).

(** What a checker is made with; a delay is in microseconds. *)
Record checker : Type := mk_checker
  { permission_to_authority : permission_level → result exn authority;
    recursion_depth_limit : nat;
    provided_keys : list public_key_type;
    provided_permissions : gset permission_level;
    provided_delay : Z }.

(** The marks of the keys and the cache of the query. *)
Record tally : Type := mk_tally { used : list bool; cached_permissions : cache }.

Abbreviation CK := (ST tally exn).

Definition set_used (u : list bool) (s : tally) : tally := mk_tally u (cached_permissions s).
Definition set_cached (p : permission_level) (st : permission_cache_status) (s : tally) : tally :=
  mk_tally (used s) (<[p := st]> (cached_permissions s)).

Definition wildcard (p : permission_level) : permission_level := mk_level (actor p) 0.

Definition permission_status_in_cache (c : cache) (level : permission_level) : option permission_cache_status :=
  match c !! level with
  | Some st => Some st
  | None => c !! wildcard level
  end.

(** [KeyReverter]: the marks are put back unless the result is [true]. *)
Definition key_reverter (m : CK bool) : CK bool :=
  fun s => match m s with
           | (Ok true, s') => (Ok true, s')
           | (r, s') => (r, set_used (used s) s')
           end.

Definition seconds (s : Z) : Z := i64 (s * 1000000).

Section Checker.
Context (c : checker).

Definition visit_wait (w : wait_weight) (total_weight : Z) : CK Z :=
  mret (if seconds (wait_sec w) <=? provided_delay c then u32 (total_weight + ww_weight w) else total_weight).

(** [boost::find]: the first position of the key. *)
Definition visit_key (k : key_weight) (total_weight : Z) : CK Z :=
  match list_find (fun x => x = kw_key k) (provided_keys c) with
  | Some (i, _) =>
      modify_st (fun s => set_used (<[i := true]> (used s)) s) ;;
      mret (u32 (total_weight + kw_weight k))
  | None => mret total_weight
  end.

(** [rec] is [satisfied] one level deeper, or [None] at the depth limit.  Only an
    exception of [permission_to_authority] is caught. *)
Definition visit_permission (rec : option (authority → CK bool)) (p : permission_level_weight)
    (total_weight : Z) : CK Z :=
  status ← gets (fun s => permission_status_in_cache (cached_permissions s) (plw_permission p));
  match status with
  | Some permission_satisfied => mret (u32 (total_weight + plw_weight p))
  | Some _ => mret total_weight
  | None =>
      match rec with
      | None => mret total_weight
      | Some satisfied =>
          match permission_to_authority c (plw_permission p) with
          | Err e => if derives_from e permission_query_exception then mret total_weight else throw e
          | Ok auth =>
              modify_st (set_cached (plw_permission p) being_evaluated) ;;
              r ← satisfied auth;
              if (r : bool) then
                modify_st (set_cached (plw_permission p) permission_satisfied) ;;
                mret (u32 (total_weight + plw_weight p))
              else
                modify_st (set_cached (plw_permission p) permission_unsatisfied) ;;
                mret total_weight
          end
      end
  end.

Definition visit (rec : option (authority → CK bool)) (m : meta_permission) (total_weight : Z) : CK Z :=
  match m with
  | MPAccount p => visit_permission rec p total_weight
  | MPKey k => visit_key k total_weight
  | MPWait w => visit_wait w total_weight
  end.

(** The loop of [satisfied] with its early return. *)
Fixpoint visit_all (rec : option (authority → CK bool)) (thresh total_weight : Z)
    (l : list meta_permission) : CK bool :=
  match l with
  | [] => mret false
  | m :: l =>
      total_weight ← visit rec m total_weight;
      if thresh <=? total_weight then mret true else visit_all rec thresh total_weight l
  end.

(** [satisfied( authority, cached_permissions, depth )], with the depth left. *)
Fixpoint satisfied_at (left : nat) (a : authority) : CK bool :=
  key_reverter
    (visit_all (match left with O => None | S n => Some (satisfied_at n) end) (threshold a) 0
       (meta_permission_set a)).

(** The argument of the visitor at a given depth left. *)
Definition rec_at (left : nat) : option (authority → CK bool) :=
  match left with O => None | S n => Some (satisfied_at n) end.

Definition initialize_permission_cache : cache := gset_to_gmap permission_satisfied (provided_permissions c).

(** [satisfied( permission_level )]: a fresh cache, the marks of the checker. *)
Definition satisfied_permission (p : permission_level) : ST (list bool) exn bool :=
  fun u => let '(r, s) := visit_permission (rec_at (recursion_depth_limit c)) (mk_plw p 1) 0
                            (mk_tally u initialize_permission_cache) in
           (w ← r; mret (0 <? w), used s).

(** [satisfied( authority )]. *)
Definition satisfied_authority (a : authority) : ST (list bool) exn bool :=
  fun u => let '(r, s) := satisfied_at (recursion_depth_limit c) a (mk_tally u initialize_permission_cache) in
           (r, used s).

Definition unused : list bool := replicate (length (provided_keys c)) false.
Definition all_keys_used (u : list bool) : bool := forallb (fun b => b) u.
Definition used_keys (u : list bool) : list public_key_type :=
  (filter (fun x => x.2 = true) (zip (provided_keys c) u)).*1.
Definition unused_keys (u : list bool) : list public_key_type :=
  (filter (fun x => x.2 = false) (zip (provided_keys c) u)).*1.
End Checker.

(** The overload with [override_provided_delay]; the delay is put back on return. *)
Definition with_delay (d : Z) (c : checker) : checker :=
  mk_checker (permission_to_authority c) (recursion_depth_limit c) (provided_keys c) (provided_permissions c) d.

(** ** The order of the factors *)

Lemma insert_meta_perm x l : insert_meta x l ≡ₚ x :: l.
Proof.
  induction l as [|y l IH]; cbn; [done|]. destruct (meta_permission_comparator x y); [done|].
  by rewrite IH, Permutation_swap.
Qed.

Lemma meta_permission_set_perm a : meta_permission_set a ≡ₚ factors a.
Proof.
  unfold meta_permission_set. change (factors a) with ([] ++ factors a) at 2.
  generalize (@nil meta_permission) as acc. induction (factors a) as [|x l IH]; intros acc; cbn.
  - by rewrite app_nil_r.
  - rewrite IH, insert_meta_perm. apply Permutation_middle.
Qed.

(** ** The reference: a recursion on the depth without cache and marks *)

Section Reference.
Context (c : checker).

Definition provided (p : permission_level) : bool :=
  bool_decide (p ∈ provided_permissions c) || bool_decide (wildcard p ∈ provided_permissions c).

Definition holds (P : permission_level → bool) (m : meta_permission) : bool :=
  match m with
  | MPAccount p => P (plw_permission p)
  | MPKey k => bool_decide (kw_key k ∈ provided_keys c)
  | MPWait w => seconds (wait_sec w) <=? provided_delay c
  end.

(** The weight of the factors that hold. *)
Definition weight_of (P : permission_level → bool) (l : list meta_permission) : Z :=
  foldr (fun m z => (if holds P m then meta_weight m else 0) + z) 0 l.

Definition approves (P : permission_level → bool) (a : authority) : bool :=
  threshold a <=? weight_of P (factors a).

Fixpoint allowed (depth : nat) (p : permission_level) : bool :=
  provided p ||
  match depth with
  | O => false
  | S d => match permission_to_authority c p with
           | Ok a => approves (allowed d) a
           | Err _ => false
           end
  end.

(** Weights are 16 bits wide. *)
Definition typed (a : authority) : Prop := Forall (fun m => 0 ≤ meta_weight m ≤ u16_max) (factors a).

Lemma weight_of_perm P l l' : l ≡ₚ l' → weight_of P l = weight_of P l'.
Proof. unfold weight_of. induction 1; cbn; lia. Qed.

Lemma weight_of_app P l l' : weight_of P (l ++ l') = weight_of P l + weight_of P l'.
Proof. unfold weight_of. induction l; cbn; lia. Qed.

Lemma weight_of_nonneg P l : Forall (fun m => 0 ≤ meta_weight m ≤ u16_max) l →
  0 ≤ weight_of P l ≤ u16_max * Z.of_nat (length l).
Proof. induction 1; cbn [weight_of foldr length]; [lia|]. unfold weight_of in *. destruct holds; lia. Qed.

Lemma weight_of_mono (P Q : permission_level → bool) l :
  Forall (fun m => 0 ≤ meta_weight m ≤ u16_max) l →
  (∀ p, P p = true → Q p = true) → weight_of P l ≤ weight_of Q l.
Proof.
  intros H HPQ. induction H as [|m l Hm H IH]; cbn; [lia|]. fold (weight_of P l) (weight_of Q l).
  enough (holds P m = true → holds Q m = true) as Hh.
  { destruct (holds P m); [rewrite Hh by done; lia|]. destruct (holds Q m); lia. }
  destruct m; cbn; auto.
Qed.

Context (Hpta : ∀ p a, permission_to_authority c p = Ok a → typed a).

Lemma allowed_S d p : allowed d p = true → allowed (S d) p = true.
Proof using Hpta.
  revert p. induction d as [|d IH]; intros p.
  - cbn. rewrite orb_false_r. intros ->. done.
  - change (allowed (S (S d)) p) with
      (provided p || match permission_to_authority c p with Ok a => approves (allowed (S d)) a | Err _ => false end).
    cbn [allowed]. destruct (provided p); [done|]. cbn.
    destruct (permission_to_authority c p) as [a|e] eqn:E; [|done].
    unfold approves. rewrite !Z.leb_le. intros H. etrans; [exact H|].
    apply weight_of_mono; [by apply (Hpta p)|exact IH].
Qed.

Lemma allowed_mono d d' p : (d ≤ d')%nat → allowed d p = true → allowed d' p = true.
Proof using Hpta. induction 1; [done|]. intros. apply allowed_S. auto. Qed.

(** Some depth of the reference allows it. *)
Definition approved (p : permission_level) : Prop := ∃ d, allowed d p = true.

Lemma provided_approved p : provided p = true → approved p.
Proof. intros H. exists 0%nat. cbn. by rewrite H. Qed.
End Reference.

(** ** Marks *)

Section Marks.
Context (c : checker).

Lemma key_reverter_marks m s : (key_reverter m s).1 ≠ Ok true → used (key_reverter m s).2 = used s.
Proof. unfold key_reverter. destruct (m s) as [[[]|e] s']; cbn; done. Qed.

Lemma satisfied_at_marks n a s : (satisfied_at c n a s).1 ≠ Ok true → used (satisfied_at c n a s).2 = used s.
Proof. destruct n; apply key_reverter_marks. Qed.
End Marks.

(** ** Soundness *)

Section Soundness.
Context (c : checker).
Context (Hpta : ∀ p a, permission_to_authority c p = Ok a → typed a).
(** No authority is stored under the empty permission name. *)
Context (Hwild : ∀ p a, permission_to_authority c p = Ok a → permission p ≠ 0).

Definition cache_sound (s : tally) : Prop :=
  ∀ q st, cached_permissions s !! q = Some st →
    (permission q = 0 → q ∈ provided_permissions c ∧ st = permission_satisfied) ∧
    (st = permission_satisfied → approved c q).

Lemma initial_cache_sound u : cache_sound (mk_tally u (initialize_permission_cache c)).
Proof using Hpta.
  intros q st Hq. cbn in Hq. unfold initialize_permission_cache in Hq.
  apply lookup_gset_to_gmap_Some in Hq as [Hq <-]. split; [done|]. intros _.
  apply provided_approved. unfold provided. by rewrite bool_decide_true.
Qed.

Lemma set_cached_sound p st s :
  permission p ≠ 0 → (st = permission_satisfied → approved c p) → cache_sound s → cache_sound (set_cached p st s).
Proof.
  intros Hp Hst Hs q st'. cbn. rewrite lookup_insert_Some. intros [[<- <-]|[? Hq]]; [done|by apply Hs].
Qed.

Lemma status_sound s p :
  cache_sound s → permission_status_in_cache (cached_permissions s) p = Some permission_satisfied → approved c p.
Proof.
  intros Hs. unfold permission_status_in_cache. destruct (cached_permissions s !! p) as [st|] eqn:E.
  - intros [= ->]. by apply (Hs _ _ E).
  - intros Hw. apply provided_approved. unfold provided.
    destruct (proj1 (Hs _ _ Hw) eq_refl) as [Hin _]. rewrite (bool_decide_true (wildcard p ∈ _)) by done.
    apply orb_true_r.
Qed.

(** What [satisfied] one level deeper promises. *)
Definition sound_rec (rec : option (authority → CK bool)) : Prop :=
  ∀ f a s, rec = Some f → typed a → cache_sound s →
    cache_sound (f a s).2 ∧ ((f a s).1 = Ok true → ∃ d, approves c (allowed c d) a = true).

Definition counted (m : meta_permission) (total : Z) (r : result exn Z) : Prop :=
  ∀ t, r = Ok t → t = total ∨ (t = u32 (total + meta_weight m) ∧ ∃ d, holds c (allowed c d) m = true).

Lemma visit_permission_sound rec p total s :
  sound_rec rec → cache_sound s →
  cache_sound (visit_permission c rec p total s).2 ∧ counted (MPAccount p) total (visit_permission c rec p total s).1.
Proof using Hpta Hwild.
  intros Hrec Hs. unfold visit_permission, counted, mbind, st_bind, gets.
  destruct (permission_status_in_cache _ _) as [[]|] eqn:Est; cbn.
  1,2: split; [done|intros ? [= <-]; by left].
  { split; [done|]. intros ? [= <-]. right. split; [done|]. by apply (status_sound s). }
  destruct rec as [f|]; [|split; [done|intros ? [= <-]; by left]].
  destruct (permission_to_authority c (plw_permission p)) as [a|e] eqn:Ea; cycle 1.
  { destruct derives_from; cbn; (split; [done|]); [intros ? [= <-]; by left|done]. }
  assert (Hp := Hwild _ _ Ea). cbn.
  destruct (Hrec f a (set_cached (plw_permission p) being_evaluated s)) as [H1 H2]; [done|by eapply Hpta|..].
  { by apply set_cached_sound. }
  destruct (f a _) as [[[]|e] s1]; cbn in *.
  - destruct H2 as [d Hd]; [done|].
    assert (allowed c (S d) (plw_permission p) = true) as Hall by (cbn; rewrite Ea, Hd; apply orb_true_r).
    split; [apply set_cached_sound; [done| |done]; by exists (S d)|].
    intros ? [= <-]. right. split; [done|]. by exists (S d).
  - split; [by apply set_cached_sound|]. intros ? [= <-]. by left.
  - done.
Qed.

Lemma visit_sound rec m total s :
  sound_rec rec → cache_sound s →
  cache_sound (visit c rec m total s).2 ∧ counted m total (visit c rec m total s).1.
Proof using Hpta Hwild.
  destruct m as [p|k|w]; cbn [visit]; [by apply visit_permission_sound|..]; intros _ Hs.
  - unfold visit_key, counted. destruct (list_find _ _) as [[i x]|] eqn:E; cbn.
    + split; [done|]. intros ? [= <-]. right. split; [done|]. exists 0%nat. cbn.
      apply list_find_Some in E as (Hi & -> & _). apply bool_decide_eq_true. by eapply list_elem_of_lookup_2.
    + split; [done|]. intros ? [= <-]. by left.
  - split; [done|]. unfold visit_wait, counted. cbn. intros ? [= <-].
    destruct (_ <=? _) eqn:E; [right|by left]. split; [done|]. exists 0%nat. done.
Qed.

Lemma visit_all_sound rec thresh l : sound_rec rec → ∀ pre total s,
  Forall (fun m => 0 ≤ meta_weight m ≤ u16_max) (pre ++ l) →
  0 ≤ total → (∃ d, total ≤ weight_of c (allowed c d) pre) → cache_sound s →
  cache_sound (visit_all c rec thresh total l s).2 ∧
  ((visit_all c rec thresh total l s).1 = Ok true → ∃ d, thresh ≤ weight_of c (allowed c d) (pre ++ l)).
Proof using Hpta Hwild.
  intros Hrec. induction l as [|m l IH]; intros pre total s Hw H0 [d0 Hd0] Hs; [done|].
  cbn [visit_all]. unfold mbind, st_bind.
  destruct (visit_sound rec m total s Hrec Hs) as [Hs1 Hc].
  destruct (visit c rec m total s) as [[t|e] s1]; cbn [fst snd] in *; [|done].
  assert (0 ≤ t ∧ ∃ d, t ≤ weight_of c (allowed c d) (pre ++ [m])) as [Ht [d1 Hd1]].
  { rewrite Forall_app, Forall_cons in Hw. destruct Hw as (Hpre & Hm & _).
    destruct (Hc t eq_refl) as [->|[-> [d Hd]]].
    - split; [done|]. exists d0. rewrite weight_of_app. cbn. destruct holds; lia.
    - split; [apply u32_range|]. exists (Nat.max d0 d). rewrite weight_of_app.
      assert (u32 (total + meta_weight m) ≤ total + meta_weight m) by (apply Z.mod_le; lia).
      pose proof (weight_of_mono c (allowed c d0) (allowed c (Nat.max d0 d)) pre Hpre
                    ltac:(intros q; apply allowed_mono; [done|lia])).
      enough (holds c (allowed c (Nat.max d0 d)) m = true) as Hh by (cbn; rewrite Hh; lia).
      destruct m; try exact Hd. cbn in *. eapply allowed_mono; [done| |exact Hd]. lia. }
  destruct (Z.leb_spec thresh t); cbn.
  - split; [done|]. intros _. exists d1. rewrite (cons_middle m pre l), app_assoc, weight_of_app.
    assert (Forall (fun m => 0 ≤ meta_weight m ≤ u16_max) l) as Hl
      by (apply Forall_app in Hw as [_ Hw]; by apply Forall_cons in Hw as [_ Hw]).
    pose proof (weight_of_nonneg c (allowed c d1) l Hl). lia.
  - specialize (IH (pre ++ [m]) t s1). rewrite <- app_assoc in IH. apply IH; eauto.
Qed.

Lemma satisfied_at_sound n a s :
  typed a → cache_sound s →
  cache_sound (satisfied_at c n a s).2 ∧
  ((satisfied_at c n a s).1 = Ok true → ∃ d, approves c (allowed c d) a = true).
Proof using Hpta Hwild.
  revert a s. induction n as [|n IH]; intros a s Ha Hs; cbn [satisfied_at].
  all: match goal with |- context [visit_all c ?rec _ _ _] =>
         assert (sound_rec rec) as Hrec by (intros f b t [= <-]; apply IH || done);
         pose proof (visit_all_sound rec (threshold a) (meta_permission_set a) Hrec [] 0 s) as H
       end.
  all: cbn [app] in H; specialize (H ltac:(by rewrite meta_permission_set_perm) ltac:(done)
                                   ltac:(exists 0%nat; cbn; lia) Hs).
  all: unfold key_reverter; destruct (visit_all _ _ _ _ _ s) as [[[]|e] s1]; cbn in *;
    destruct H as [H1 H2]; (split; [exact H1|]); try done.
  all: intros _; destruct (H2 eq_refl) as [d Hd]; exists d; unfold approves; apply Z.leb_le;
    by rewrite <- (weight_of_perm c _ _ _ (meta_permission_set_perm a)).
Qed.

Lemma satisfied_approved (p : permission_level) (u : list bool) :
  (satisfied_permission c p u).1 = Ok true → approved c p.
Proof using Hpta Hwild.
  unfold satisfied_permission. set (s := mk_tally u _).
  pose proof (initial_cache_sound u) as Hs. fold s in Hs.
  destruct (visit_permission_sound (rec_at c (recursion_depth_limit c)) (mk_plw p 1) 0 s) as [_ Hc]; [|done|].
  { intros f a t Hf. destruct (recursion_depth_limit c) as [|n]; [done|]. injection Hf as <-. apply satisfied_at_sound. }
  destruct (visit_permission _ _ _ _ s) as [[w|e] s1]; cbn in *; [|done].
  destruct (Hc w eq_refl) as [->|[-> [d Hd]]]; [done|]. intros _. by exists d.
Qed.

Lemma unsatisfied_marks (p : permission_level) (u : list bool) :
  (satisfied_permission c p u).1 ≠ Ok true → (satisfied_permission c p u).2 = u.
Proof.
  unfold satisfied_permission. set (s := mk_tally u _).
  unfold visit_permission, mbind, st_bind, gets.
  destruct (permission_status_in_cache _ _) as [[]|]; [done|done|done|].
  destruct (recursion_depth_limit c) as [|n]; [done|]. cbn [rec_at plw_permission].
  destruct (permission_to_authority c p) as [a|e]; [|by destruct derives_from].
  cbn [modify_st].
  pose proof (satisfied_at_marks c n a (set_cached p being_evaluated s)) as Hm.
  destruct (satisfied_at c n a _) as [[[]|e] s1]; cbn in *; [done|intros _; by apply Hm..].
Qed.

(** C5: if the checker says that a permission is satisfied, then the reference
    recursion allows it at some depth: caching, early exits and the recursion
    limit never grant what the keys, permissions and delay do not; and a query
    that is not satisfied, or throws, leaves no key marked. *)
Theorem satisfied_sound (p : permission_level) (u : list bool) :
  ((satisfied_permission c p u).1 = Ok true → approved c p) ∧
  ((satisfied_permission c p u).1 ≠ Ok true → (satisfied_permission c p u).2 = u).
Proof using Hpta Hwild. split; [apply satisfied_approved|apply unsatisfied_marks]. Qed.
End Soundness.

(** ** Exactness on hierarchies within the depth limit *)

(** What [validate] gives: the threshold is positive and the weights cannot
    overflow 32 bits. *)
Definition bounded (a : authority) : Prop :=
  typed a ∧ 0 < threshold a ∧ Z.of_nat (length (factors a)) ≤ 65536.

(** Neither name is empty. *)
Definition named (p : permission_level) : Prop := actor p ≠ 0 ∧ permission p ≠ 0.

Section Exact.
Context (c : checker) (rank : permission_level → nat).
Context (Hpta : ∀ p a, permission_to_authority c p = Ok a → bounded a).
Context (Hwild : ∀ p a, permission_to_authority c p = Ok a → permission p ≠ 0).
(** Authorities refer to permissions of smaller rank only. *)
Context (Hrank : ∀ p a q, permission_to_authority c p = Ok a → q ∈ accounts a → (rank (plw_permission q) < rank p)%nat).
(** The only failure of the lookup of a named permission is that it does not
    exist. *)
Context (Herr : ∀ p e, named p → permission_to_authority c p = Err e → derives_from e permission_query_exception = true).
Context (Hnamed : ∀ p a q, permission_to_authority c p = Ok a → q ∈ accounts a → named (plw_permission q)).

Definition truth (p : permission_level) : bool := allowed c (S (rank p)) p.

Lemma weight_of_ext (P Q : permission_level → bool) l :
  (∀ m, m ∈ l → holds c P m = holds c Q m) → weight_of c P l = weight_of c Q l.
Proof.
  unfold weight_of. induction l as [|m l IH]; intros H; cbn; [done|].
  rewrite (H m) by left. rewrite IH; [done|]. intros. apply H. by right.
Qed.

Lemma elem_of_factors a q : MPAccount q ∈ factors a ↔ q ∈ accounts a.
Proof.
  unfold factors. rewrite !elem_of_app, !list_elem_of_fmap.
  split; [intros [(?&?&?)|[(?&?&?)|(?&[= ->]&?)]]; done|]. intros. right. right. eauto.
Qed.

Lemma approves_ext (P Q : permission_level → bool) a :
  (∀ q, q ∈ accounts a → P (plw_permission q) = Q (plw_permission q)) → approves c P a = approves c Q a.
Proof.
  intros H. unfold approves. f_equal. apply weight_of_ext. intros [q| |] Hm; cbn; [|done..].
  by apply H, elem_of_factors.
Qed.

(** Beyond its rank the depth does not matter. *)
Lemma allowed_stable p : ∀ d, (rank p < d)%nat → allowed c d p = truth p.
Proof using Hrank.
  assert (∀ r q d, (rank q ≤ r)%nat → (rank q < d)%nat → allowed c d q = truth q) as H; [|intros d; by apply (H (rank p))].
  intros r. induction r as [|r IH]; intros q [|d] Hr Hd; try lia;
    unfold truth; cbn [allowed]; destruct (permission_to_authority c q) as [a|e] eqn:E; try done;
    f_equal; apply approves_ext; intros x Hx; pose proof (Hrank _ _ _ E Hx); [lia|].
  rewrite !IH by lia. done.
Qed.

Lemma truth_step p a : permission_to_authority c p = Ok a → truth p = provided c p || approves c truth a.
Proof using Hrank.
  intros E. unfold truth at 1. cbn [allowed]. rewrite E. f_equal. apply approves_ext. intros q Hq.
  by apply allowed_stable, (Hrank _ _ _ E Hq).
Qed.

Definition cache_exact (r : nat) (s : tally) : Prop :=
  (∀ q, provided c q = true → is_Some (permission_status_in_cache (cached_permissions s) q)) ∧
  ∀ q st, cached_permissions s !! q = Some st →
    (permission q = 0 → q ∈ provided_permissions c ∧ st = permission_satisfied) ∧
    match st with
    | permission_satisfied => truth q = true
    | permission_unsatisfied => truth q = false
    | being_evaluated => (r ≤ rank q)%nat
    end.

(** No evaluation is left open. *)
Definition closes (s s' : tally) : Prop :=
  ∀ q, cached_permissions s' !! q = Some being_evaluated → cached_permissions s !! q = Some being_evaluated.

Lemma closes_refl s : closes s s.
Proof. by intros q. Qed.

Lemma cache_exact_closes r r' s s' : cache_exact r s → cache_exact r' s' → closes s s' → cache_exact r s'.
Proof.
  intros [_ H] [H0 H'] Hc. split; [done|]. intros q st Hq. destruct (H' q st Hq) as [H1 H2]. split; [done|].
  destruct st; [|done..]. apply Hc in Hq. by apply (H q _ Hq).
Qed.

Lemma status_exact r s p :
  cache_exact r s → (rank p < r)%nat →
  match permission_status_in_cache (cached_permissions s) p with
  | Some permission_satisfied => truth p = true
  | Some permission_unsatisfied => truth p = false
  | Some being_evaluated => False
  | None => provided c p = false
  end.
Proof.
  intros [H0 Hs] Hp. destruct (permission_status_in_cache (cached_permissions s) p) as [st|] eqn:E; cycle 1.
  { destruct (provided c p) eqn:Ep; [|done]. apply H0 in Ep as [st Hst]. congruence. }
  unfold permission_status_in_cache in E. destruct (cached_permissions s !! p) as [st'|] eqn:E'.
  - injection E as ->. destruct (Hs _ _ E') as [_ H]. destruct st; [lia|done|done].
  - destruct (Hs _ _ E) as [H _]. destruct (H eq_refl) as [Hin ->]. unfold truth. cbn [allowed].
    unfold provided. by rewrite (bool_decide_true (wildcard p ∈ _)), orb_true_r.
Qed.

Lemma set_cached_exact p st r s :
  permission p ≠ 0 → cache_exact r s →
  match st with
  | permission_satisfied => truth p = true
  | permission_unsatisfied => truth p = false
  | being_evaluated => (r ≤ rank p)%nat
  end → cache_exact r (set_cached p st s).
Proof.
  intros Hp [H0 Hs] Hst. split.
  - intros q Hq. destruct (H0 q Hq) as [st' Hst']. unfold permission_status_in_cache in *. cbn.
    destruct (decide (p = q)) as [->|]; [by rewrite lookup_insert_eq|].
    rewrite lookup_insert_ne by done. destruct (cached_permissions s !! q); [eauto|].
    destruct (decide (p = wildcard q)) as [->|]; [done|]. rewrite lookup_insert_ne by done. eauto.
  - intros q st'. cbn. rewrite lookup_insert_Some. intros [[<- <-]|[? Hq]]; [done|by apply Hs].
Qed.

Lemma cache_exact_weaken r r' s : (r' ≤ r)%nat → cache_exact r s → cache_exact r' s.
Proof.
  intros Hr [H0 Hs]. split; [done|]. intros q st Hq. destruct (Hs q st Hq) as [H1 H2]. split; [done|].
  destruct st; [lia|done..].
Qed.

Definition fits (r : nat) (p : permission_level) : Prop := (rank p < r)%nat ∧ named p.

Definition exact_rec (n : nat) (rec : option (authority → CK bool)) : Prop :=
  match rec with
  | None => n = 0%nat
  | Some f => ∀ a r s, bounded a → (∀ q, q ∈ accounts a → fits r (plw_permission q)) → (r < n)%nat →
      cache_exact r s →
      (f a s).1 = Ok (approves c truth a) ∧ cache_exact r (f a s).2 ∧ closes s (f a s).2
  end.

Definition gain (m : meta_permission) (total : Z) : Z :=
  if holds c truth m then u32 (total + meta_weight m) else total.

Lemma visit_permission_exact n r rec p total s :
  exact_rec n rec → fits r (plw_permission p) → (r ≤ n)%nat → cache_exact r s →
  (visit_permission c rec p total s).1 = Ok (gain (MPAccount p) total) ∧
  cache_exact r (visit_permission c rec p total s).2 ∧ closes s (visit_permission c rec p total s).2.
Proof using Hpta Hwild Hrank Herr Hnamed.
  intros Hrec [Hp Hname] Hn Hs. unfold visit_permission, gain, mbind, st_bind, gets. cbn [holds meta_weight].
  pose proof (status_exact r s (plw_permission p) Hs Hp) as Hst.
  destruct (permission_status_in_cache _ _) as [[]|].
  { done. }
  1,2: rewrite Hst; eauto using closes_refl.
  destruct rec as [f|]; [|cbn in Hrec; lia].
  destruct (permission_to_authority c (plw_permission p)) as [a|e] eqn:Ea; cycle 1.
  { rewrite (Herr _ _ Hname Ea). unfold truth. cbn [allowed]. rewrite Ea, Hst. eauto using closes_refl. }
  rewrite (truth_step _ _ Ea), Hst. cbn [orb modify_st].
  assert (Hp0 := Hwild _ _ Ea).
  set (s0 := set_cached (plw_permission p) being_evaluated s).
  destruct (Hrec a (rank (plw_permission p)) s0) as (Hr & H1 & H2).
  { by eapply Hpta. }
  { intros q Hq. split; [by eapply Hrank|by eapply Hnamed]. }
  { lia. }
  { apply set_cached_exact; [done| |lia]. apply (cache_exact_weaken r); [lia|done]. }
  assert (∀ st, st ≠ being_evaluated → closes s (set_cached (plw_permission p) st (f a s0).2)) as Hcl.
  { intros st Hne q. cbn. rewrite lookup_insert_Some. intros [[_ ?]|[Hq Hin]]; [congruence|].
    apply H2 in Hin. cbn in Hin. by rewrite lookup_insert_ne in Hin. }
  destruct (f a s0) as [rr s1]. cbn [fst snd] in *. subst rr.
  assert (truth (plw_permission p) = approves c truth a) as Ht by (rewrite (truth_step _ _ Ea), Hst; done).
  destruct (approves c truth a); cbn [modify_st mret st_ret fst snd]; (split; [done|]).
  all: split; [|by apply Hcl].
  all: eapply (cache_exact_closes r); [done| |by apply Hcl]; by apply set_cached_exact.
Qed.

Lemma visit_exact n r rec m total s :
  exact_rec n rec → (∀ q, m = MPAccount q → fits r (plw_permission q)) → (r ≤ n)%nat → cache_exact r s →
  (visit c rec m total s).1 = Ok (gain m total) ∧
  cache_exact r (visit c rec m total s).2 ∧ closes s (visit c rec m total s).2.
Proof using Hpta Hwild Hrank Herr Hnamed.
  intros Hrec Hm Hn Hs. destruct m as [p|k|w]; cbn [visit]; [eapply visit_permission_exact; eauto|..].
  - unfold visit_key, gain. cbn [holds].
    destruct (list_find _ _) as [[i x]|] eqn:E; cbn; (split; [|by split; [|intros q]]); f_equal.
    + apply list_find_Some in E as (Hi & -> & _). rewrite bool_decide_true; [done|]. by eapply list_elem_of_lookup_2.
    + rewrite bool_decide_false; [done|]. apply list_find_None in E. rewrite Forall_forall in E.
      intros Hin. by apply (E _ Hin).
  - eauto using closes_refl.
Qed.

Lemma gain_weight pre m l :
  Forall (fun m => 0 ≤ meta_weight m ≤ u16_max) (pre ++ m :: l) → Z.of_nat (length (pre ++ m :: l)) ≤ 65536 →
  gain m (weight_of c truth pre) = weight_of c truth (pre ++ [m]).
Proof.
  rewrite cons_middle, app_assoc, length_app, Forall_app. intros [Hw _] Hlen.
  pose proof (weight_of_nonneg c truth _ Hw) as Hb. unfold gain. rewrite weight_of_app in *. cbn in *.
  destruct (holds c truth m); [rewrite u32_small; [lia|]|lia].
  assert (u16_max * Z.of_nat (length (pre ++ [m])) ≤ u32_max); [|lia].
  unfold u16_max, u32_max. lia.
Qed.

Lemma visit_all_exact n r rec thresh l : exact_rec n rec → (r ≤ n)%nat → 0 < thresh → ∀ pre s,
  (∀ q, MPAccount q ∈ l → fits r (plw_permission q)) →
  Forall (fun m => 0 ≤ meta_weight m ≤ u16_max) (pre ++ l) → Z.of_nat (length (pre ++ l)) ≤ 65536 →
  weight_of c truth pre < thresh → cache_exact r s →
  (visit_all c rec thresh (weight_of c truth pre) l s).1 = Ok (thresh <=? weight_of c truth (pre ++ l)) ∧
  cache_exact r (visit_all c rec thresh (weight_of c truth pre) l s).2 ∧
  closes s (visit_all c rec thresh (weight_of c truth pre) l s).2.
Proof using Hpta Hwild Hrank Herr Hnamed.
  intros Hrec Hr Ht. induction l as [|m l IH]; intros pre s Hl Hw Hlen Hlt Hs.
  { cbn. rewrite app_nil_r, (proj2 (Z.leb_gt _ _)) by done. eauto using closes_refl. }
  cbn [visit_all]. unfold mbind, st_bind.
  destruct (visit_exact n r rec m (weight_of c truth pre) s Hrec) as (H1 & H2 & H3); [intros q ->; apply Hl; left|done..|].
  destruct (visit c rec m _ s) as [res s1]. cbn [fst snd] in *. subst res.
  rewrite (gain_weight pre m l) by done.
  assert (Forall (fun m => 0 ≤ meta_weight m ≤ u16_max) l) as Hwl
    by (apply Forall_app in Hw as [_ Hw']; by apply Forall_cons in Hw' as [_ Hw']).
  pose proof (weight_of_nonneg c truth l Hwl) as Hpos.
  destruct (Z.leb_spec thresh (weight_of c truth (pre ++ [m]))).
  - cbn. rewrite cons_middle, app_assoc, weight_of_app, (proj2 (Z.leb_le _ _)) by lia. done.
  - specialize (IH (pre ++ [m]) s1). rewrite <- app_assoc in IH. cbn [app] in IH.
    destruct IH as (I1 & I2 & I3); [intros; apply Hl; by right|done..|].
    split; [done|]. split; [done|]. intros q Hq. by apply H3, I3.
Qed.

Lemma reverted_exact n r rec a s :
  exact_rec n rec → (r ≤ n)%nat → bounded a → (∀ q, q ∈ accounts a → fits r (plw_permission q)) →
  cache_exact r s →
  let m := key_reverter (visit_all c rec (threshold a) 0 (meta_permission_set a)) s in
  m.1 = Ok (approves c truth a) ∧ cache_exact r m.2 ∧ closes s m.2.
Proof using Hpta Hwild Hrank Herr Hnamed.
  intros Hrec Hr (Hw & Ht & Hlen) Hq Hs.
  destruct (visit_all_exact n r rec (threshold a) (meta_permission_set a) Hrec Hr Ht [] s) as (H1 & H2 & H3).
  { intros q. rewrite meta_permission_set_perm, elem_of_factors. apply Hq. }
  { cbn. by rewrite meta_permission_set_perm. }
  { cbn. by rewrite meta_permission_set_perm. }
  { done. }
  { done. }
  cbn [app] in H1. rewrite (weight_of_perm c truth _ _ (meta_permission_set_perm a)) in H1.
  change (threshold a <=? weight_of c truth (factors a)) with (approves c truth a) in H1.
  change (weight_of c truth []) with 0 in *. unfold key_reverter.
  destruct (visit_all _ _ _ _ _ s) as [res s1]. cbn [fst snd] in *. subst res. by destruct (approves c truth a).
Qed.

Lemma satisfied_at_exact n : exact_rec (S n) (Some (satisfied_at c n)).
Proof using Hpta Hwild Hrank Herr Hnamed.
  induction n as [|n IH]; intros a r s Ha Hq Hr Hs; cbn [satisfied_at].
  - apply (reverted_exact 0); auto with lia. done.
  - apply (reverted_exact (S n)); auto with lia.
Qed.

Lemma initial_cache_exact r u : cache_exact r (mk_tally u (initialize_permission_cache c)).
Proof.
  unfold initialize_permission_cache. split; cbn.
  - intros q. unfold provided, permission_status_in_cache. rewrite orb_true_iff, !bool_decide_eq_true.
    rewrite !lookup_gset_to_gmap. intros [H|H].
    + rewrite option_guard_True by done. eauto.
    + destruct (guard _ ≫= _) eqn:E; [eauto|]. rewrite option_guard_True by done. eauto.
  - intros q st [Hq <-]%lookup_gset_to_gmap_Some. split; [done|]. unfold truth. cbn [allowed]. unfold provided.
    by rewrite bool_decide_true.
Qed.

(** C4: on a hierarchy of valid authorities without cycles that is not deeper than
    the recursion limit, the checker decides exactly what the reference recursion
    allows, and never throws. *)
Theorem satisfied_exact (p : permission_level) (u : list bool) :
  (rank p < recursion_depth_limit c)%nat → named p →
  (satisfied_permission c p u).1 = Ok (allowed c (recursion_depth_limit c) p).
Proof using Hpta Hwild Hrank Herr Hnamed.
  intros Hp Hname. rewrite allowed_stable by done. unfold satisfied_permission.
  set (n := recursion_depth_limit c) in *.
  destruct (visit_permission_exact n n (rec_at c n) (mk_plw p 1) 0 (mk_tally u (initialize_permission_cache c)))
    as (H & _ & _); [destruct n; [done|]; apply satisfied_at_exact|done|done|apply initial_cache_exact|].
  destruct (visit_permission _ _ _ _ _) as [r s]. cbn [fst snd] in *. subst r. unfold gain. cbn [holds plw_permission].
  by destruct (truth p).
Qed.
End Exact.

(** ** Validation *)

Section Validate.
Context {A : Type} (ok : A → A → bool) (weight : A → Z).

Definition total_of (l : list A) : Z := foldr (fun x z => weight x + z) 0 l.

(** Each element is above the one before it. *)
Fixpoint chained (prev : option A) (l : list A) : Prop :=
  match l with
  | [] => True
  | x :: l => (match prev with Some p => ok p x = true | None => True end) ∧ chained (Some x) l
  end.

Lemma total_of_bounds l : Forall (fun x => 0 ≤ weight x ≤ u16_max) l →
  0 ≤ total_of l ≤ u16_max * Z.of_nat (length l).
Proof. unfold total_of. induction 1; cbn [foldr length]; lia. Qed.

Lemma scan_spec l : Forall (fun x => 0 ≤ weight x ≤ u16_max) l → ∀ prev total t,
  0 ≤ total → total + total_of l ≤ u32_max →
  scan ok weight prev total l = Some t ↔ chained prev l ∧ t = total + total_of l.
Proof.
  induction 1 as [|x l Hx Hl IH]; intros prev total t H0 Hm; cbn [scan chained].
  { cbn. rewrite Z.add_0_r. split; [by intros [= <-]|by intros [_ ->]]. }
  cbn in Hm. fold (total_of l) in Hm. pose proof (total_of_bounds l Hl).
  destruct (match prev with Some p => ok p x | None => true end) eqn:E.
  - rewrite u32_small by lia. rewrite IH by lia. cbn. fold (total_of l). rewrite Z.add_assoc.
    destruct prev; tauto.
  - destruct prev; [|done]. rewrite E. split; [done|]. by intros [[? _] _].
Qed.

Lemma scan_cases l total :
  Forall (fun x => 0 ≤ weight x ≤ u16_max) l → 0 ≤ total → total + total_of l ≤ u32_max →
  (chained None l ∧ scan ok weight None total l = Some (total + total_of l)) ∨
  (¬ chained None l ∧ scan ok weight None total l = None).
Proof.
  intros Hl H0 Hm. destruct (scan ok weight None total l) as [t|] eqn:E.
  - apply scan_spec in E as [? ->]; auto.
  - right. split; [|done]. intros Hc.
    by rewrite (proj2 (scan_spec l Hl None total _ H0 Hm) (conj Hc eq_refl)) in E.
Qed.

Lemma chained_sorted (R : relation A) `{!Transitive R} l :
  (∀ x y, ok x y = true ↔ R x y) → chained None l ↔ StronglySorted R l.
Proof.
  intros HR. split.
  - intros H. apply Sorted_StronglySorted; [done|]. revert H. generalize (@None A). induction l as [|x l IH]; [by constructor|].
    intros prev [_ H]. constructor; [by apply (IH (Some x))|]. destruct l as [|y l]; constructor. apply HR, H.
  - enough (∀ prev, match prev with Some p => Forall (R p) l | None => True end →
              StronglySorted R l → chained prev l) as H by (by apply (H None)).
    induction l as [|x l IH]; [done|]. intros prev Hp H. inversion_clear H as [|?? H1 H2].
    split; [|by apply (IH (Some x))]. destruct prev; [|done]. apply HR. by inversion_clear Hp.
Qed.
End Validate.

Lemma level_lt_trans x y z : level_lt x y = true → level_lt y z = true → level_lt x z = true.
Proof.
  unfold level_lt. rewrite !orb_true_iff, !andb_true_iff, !Z.ltb_lt, !Z.eqb_eq. lia.
Qed.

(** The factors are typed as C++ types them: 16-bit weights, 32-bit waits. *)
Definition fields_typed (a : authority) : Prop :=
  Forall (fun k => 0 ≤ kw_weight k ≤ u16_max) (keys a) ∧
  Forall (fun p => 0 ≤ plw_weight p ≤ u16_max) (accounts a) ∧
  Forall (fun w => 0 ≤ ww_weight w ≤ u16_max ∧ 0 ≤ wait_sec w) (waits a) ∧
  0 ≤ threshold a.

Definition key_before (x y : key_weight) : Prop := kw_key x < kw_key y.
Definition account_before (x y : permission_level_weight) : Prop :=
  level_lt (plw_permission x) (plw_permission y) = true.
Definition wait_before (x y : wait_weight) : Prop := wait_sec x < wait_sec y.

#[export] Instance key_before_trans : Transitive key_before.
Proof. unfold key_before. intros ???. lia. Qed.
#[export] Instance account_before_trans : Transitive account_before.
Proof. intros ???. apply level_lt_trans. Qed.
#[export] Instance wait_before_trans : Transitive wait_before.
Proof. unfold wait_before. intros ???. lia. Qed.

(** What a valid authority is. *)
Definition valid (a : authority) : Prop :=
  Z.of_nat (length (factors a)) ≤ 65536 ∧ 0 < threshold a ∧
  StronglySorted key_before (keys a) ∧ StronglySorted account_before (accounts a) ∧
  StronglySorted wait_before (waits a) ∧ Forall (fun w => 0 < wait_sec w) (waits a) ∧
  threshold a ≤ total_of meta_weight (factors a).

Lemma total_of_app {A} (weight : A → Z) l l' : total_of weight (l ++ l') = total_of weight l + total_of weight l'.
Proof. unfold total_of. induction l; cbn; lia. Qed.

Lemma total_of_fmap {A B} (f : A → B) (weight : B → Z) l : total_of weight (f <$> l) = total_of (weight ∘ f) l.
Proof. unfold total_of. induction l as [|x l IH]; cbn; [done|]. by rewrite IH. Qed.

Lemma factors_length a : length (factors a) = (length (keys a) + length (accounts a) + length (waits a))%nat.
Proof. unfold factors. rewrite !length_app, !length_fmap. lia. Qed.

Lemma factors_total a :
  total_of meta_weight (factors a) =
  total_of kw_weight (keys a) + total_of plw_weight (accounts a) + total_of ww_weight (waits a).
Proof.
  unfold factors. rewrite !total_of_app, !total_of_fmap.
  trans (total_of ww_weight (waits a) + (total_of kw_weight (keys a) + total_of plw_weight (accounts a))); [done|lia].
Qed.

Lemma waits_positive l :
  Forall (fun w => 0 ≤ ww_weight w ≤ u16_max ∧ 0 ≤ wait_sec w) l → StronglySorted wait_before l →
  (match l with w :: _ => wait_sec w =? 0 | [] => false end) = false ↔ Forall (fun w => 0 < wait_sec w) l.
Proof.
  intros Ht Hs. destruct l as [|w l]; [done|]. rewrite Z.eqb_neq, Forall_cons.
  apply Forall_cons in Ht as [[_ Hw] _]. inversion_clear Hs as [|?? _ Hl].
  split; [intros Hne; split; [lia|]|lia]. eapply Forall_impl; [exact Hl|]. unfold wait_before. intros x Hx. cbn in *. lia.
Qed.

(** An authority is accepted exactly when it has at most 65536 factors, a
    positive threshold that all factors together reach, and keys, permission
    levels and waits that ascend strictly, with no wait of zero. *)
Theorem validate_correct (a : authority) : fields_typed a → validate a = true ↔ valid a.
Proof.
  intros (Hk & Ha & Hw & Ht). unfold validate, valid. rewrite factors_length, factors_total.
  destruct (Z.ltb_spec 65536 (Z.of_nat (length (keys a) + length (accounts a) + length (waits a)))); [split; [done|lia]|].
  destruct (Z.eqb_spec (threshold a) 0); [split; [done|lia]|].
  assert (Forall (fun w => 0 ≤ ww_weight w ≤ u16_max) (waits a)) as Hw' by (eapply Forall_impl; [exact Hw|naive_solver]).
  pose proof (total_of_bounds _ _ Hk). pose proof (total_of_bounds _ _ Ha). pose proof (total_of_bounds _ _ Hw').
  assert (total_of kw_weight (keys a) + total_of plw_weight (accounts a) + total_of ww_weight (waits a) ≤ u32_max)
    by (unfold u16_max, u32_max in *; lia).
  rewrite <- (chained_sorted key_ok key_before) by (intros; apply Z.ltb_lt).
  rewrite <- (chained_sorted account_ok account_before) by done.
  pose proof (waits_positive _ Hw) as Hpos. revert Hpos.
  rewrite <- (chained_sorted wait_ok wait_before)
    by (intros; unfold wait_ok; rewrite negb_true_iff; apply Z.leb_gt). intros Hpos.
  destruct (scan_cases key_ok kw_weight (keys a) 0 Hk) as [[C1 ->]|[C1 ->]]; [lia..| |naive_solver].
  destruct (scan_cases account_ok plw_weight (accounts a) (0 + total_of kw_weight (keys a)) Ha)
    as [[C2 ->]|[C2 ->]]; [lia..| |naive_solver].
  destruct (scan_cases wait_ok ww_weight (waits a)
              (0 + total_of kw_weight (keys a) + total_of plw_weight (accounts a)) Hw')
    as [[C3 ->]|[C3 ->]]; [lia..| |].
  2: { split; [destruct (match waits a with [] => _ | _ => _ end); done|naive_solver]. }
  specialize (Hpos C3). destruct (match waits a with [] => _ | _ => _ end); rewrite ?Z.leb_le, <- ?Hpos.
  - split; [done|]. intros (_&_&_&_&_&?&_). done.
  - rewrite Z.add_0_l. repeat split; tauto || lia.
Qed.

(** ** An example: alice's authority takes her key and bob's permission *)

Module AuthorityDemo.
Definition alice : permission_level := mk_level 1 5.
Definition bob : permission_level := mk_level 2 5.
Definition alice_auth : authority := mk_authority 2 [mk_kw 10 1] [mk_plw bob 1] [mk_ww 3600 1].
Definition bob_auth : authority := authority_of_key 11 0.

Definition stored (p : permission_level) : result exn authority :=
  if bool_decide (p = alice) then Ok alice_auth
  else if bool_decide (p = bob) then Ok bob_auth
  else Err permission_query_exception.

Definition signed (ks : list Z) : checker := mk_checker stored 6 ks ∅ 0.

Definition height (p : permission_level) : nat := if bool_decide (p = alice) then 1 else 0.

Lemma stored_cases p a : stored p = Ok a → (p = alice ∧ a = alice_auth) ∨ (p = bob ∧ a = bob_auth).
Proof. unfold stored. repeat case_bool_decide; naive_solver. Qed.

Lemma stored_bounded p a : stored p = Ok a → bounded a.
Proof.
  intros [[_ ->]|[_ ->]]%stored_cases; (split; [|vm_compute; split; done]);
    unfold typed, factors; repeat constructor; done.
Qed.

Lemma stored_named p a : stored p = Ok a → permission p ≠ 0.
Proof. intros [[-> _]|[-> _]]%stored_cases; done. Qed.

Lemma stored_ranked p a q : stored p = Ok a → q ∈ accounts a → (height (plw_permission q) < height p)%nat.
Proof. intros [[-> ->]|[-> ->]]%stored_cases Hq; [|by apply elem_of_nil in Hq]. apply list_elem_of_singleton in Hq as ->. vm_compute. lia. Qed.

Lemma stored_errors p e : named p → stored p = Err e → derives_from e permission_query_exception = true.
Proof. unfold stored. repeat case_bool_decide; naive_solver. Qed.

Lemma stored_refers p a q : stored p = Ok a → q ∈ accounts a → named (plw_permission q).
Proof.
  intros [[-> ->]|[-> ->]]%stored_cases Hq; [|by apply elem_of_nil in Hq].
  by apply list_elem_of_singleton in Hq as ->.
Qed.
End AuthorityDemo.

Lemma satisfied_sound_witness : approved (AuthorityDemo.signed [10; 11]) AuthorityDemo.alice.
Proof.
  apply (satisfied_sound (AuthorityDemo.signed [10; 11])
           (fun p a H => proj1 (AuthorityDemo.stored_bounded p a H)) AuthorityDemo.stored_named
           AuthorityDemo.alice [false; false]).
  vm_compute. reflexivity.
Defined.

Lemma satisfied_exact_witness :
  (satisfied_permission (AuthorityDemo.signed [10]) AuthorityDemo.alice [false]).1 = Ok false.
Proof.
  rewrite (satisfied_exact (AuthorityDemo.signed [10]) AuthorityDemo.height AuthorityDemo.stored_bounded
             AuthorityDemo.stored_named AuthorityDemo.stored_ranked AuthorityDemo.stored_errors
             AuthorityDemo.stored_refers AuthorityDemo.alice [false] ltac:(vm_compute; lia) ltac:(done)).
  vm_compute. reflexivity.
Defined.

Lemma validate_correct_witness : valid AuthorityDemo.alice_auth.
Proof.
  apply (validate_correct AuthorityDemo.alice_auth); [|vm_compute; reflexivity].
  unfold fields_typed. repeat constructor; vm_compute; done.
Defined.
End Authority.
