(* ===== verification/AuthorizationManager.v ===== *)
(** * The authorization manager

    [authorization_manager.cpp], [permission_object.hpp] and
    [permission_link_object.hpp]: permissions of an account form a tree, links
    name the permission an action needs, and [check_authorization] decides whether
    the actions of a transaction are authorized by its keys.

    Serialized action data and transactions are decoded by the class [Unpack]; the
    clock that may end the check is an argument.  The functions that write and
    read snapshots are not modelled. *)

From S2P Require Import Prelude Exceptions Name Merkle BlockHeader Authority.

Module AuthorizationManager.
Export Authority.

Abbreviation R := (result exn).
Abbreviation bytes := (list Z).

(** ** Objects *)

Record permission_object : Type := mk_permission
  { po_id : Z; po_usage_id : Z; po_parent : Z; po_owner : account_name; po_name : Z;
    po_last_updated : Z; po_auth : authority }.

(** The permission index by id, the usage objects by id and the links by account,
    code and message type; ids are given out in order. *)
Record auth_db : Type := mk_auth_db
  { permissions : gmap Z permission_object; next_permission : Z;
    usages : gmap Z Z; next_usage : Z;
    links : gmap (Z * Z * Z) Z }.

Abbreviation AM := (ST auth_db exn).

Definition set_permissions (m : gmap Z permission_object) (s : auth_db) : auth_db :=
  mk_auth_db m (next_permission s) (usages s) (next_usage s) (links s).
Definition set_links (m : gmap (Z * Z * Z) Z) (s : auth_db) : auth_db :=
  mk_auth_db (permissions s) (next_permission s) (usages s) (next_usage s) m.
Definition set_usages (m : gmap Z Z) (s : auth_db) : auth_db :=
  mk_auth_db (permissions s) (next_permission s) m (next_usage s) (links s).

Definition authority0 : authority := mk_authority 0 [] [] [].

(** Permission 0 is reserved: a parent of 0 means that there is none. *)
Definition reserved : permission_object := mk_permission 0 0 0 0 0 0 authority0.
Definition initialize_database : auth_db := mk_auth_db {[0 := reserved]} 1 ∅ 0 ∅.

(** ** Creating, changing and removing permissions *)

(** The index [by_owner]. *)
Definition by_owner (s : auth_db) (level : permission_level) : option permission_object :=
  find (fun p => (po_owner p =? actor level) && (po_name p =? permission level)) (map_to_list (permissions s)).*2.

(** [now] is the time of the pending block; a [creation_time] of zero stands for
    it.  The object cannot be inserted if its key [by_owner] exists. *)
Definition create_permission (now : Z) (account name : Z) (parent : Z) (auth : authority)
    (creation_time : Z) : AM permission_object :=
  let creation_time := if creation_time =? 0 then now else creation_time in
  s ← get_st;
  let usage_id := next_usage s in
  put_st (mk_auth_db (permissions s) (next_permission s) (<[usage_id := creation_time]> (usages s))
            (usage_id + 1) (links s)) ;;
  s ← get_st;
  let perm := mk_permission (next_permission s) usage_id parent account name creation_time auth in
  st_assert (match by_owner s (mk_level account name) with Some _ => false | None => true end) std_logic_error ;;
  put_st (mk_auth_db (<[po_id perm := perm]> (permissions s)) (next_permission s + 1) (usages s)
            (next_usage s) (links s)) ;;
  mret perm.

Definition modify_permission (now : Z) (p : permission_object) (auth : authority) : AM () :=
  modify_st (fun s => set_permissions
    (<[po_id p := mk_permission (po_id p) (po_usage_id p) (po_parent p) (po_owner p) (po_name p) now auth]>
       (permissions s)) s).

(** The range of [by_parent]. *)
Definition children (s : auth_db) (id : Z) : list permission_object :=
  filter (fun p => po_parent p = id) (map_to_list (permissions s)).*2.

Definition remove_permission (p : permission_object) : AM () :=
  s ← get_st;
  st_assert (bool_decide (children s (po_id p) = [])) action_validate_exception ;;
  st_assert (bool_decide (is_Some (usages s !! po_usage_id p))) std_out_of_range ;;
  put_st (set_permissions (delete (po_id p) (permissions s)) (set_usages (delete (po_usage_id p) (usages s)) s)).

Definition update_permission_usage (now : Z) (p : permission_object) : AM () :=
  s ← get_st;
  st_assert (bool_decide (is_Some (usages s !! po_usage_id p))) std_out_of_range ;;
  put_st (set_usages (<[po_usage_id p := now]> (usages s)) s).

Definition get_permission_last_used (s : auth_db) (p : permission_object) : R Z :=
  of_option (usages s !! po_usage_id p) std_out_of_range.

(** ** Looking permissions up *)

Definition level_named (level : permission_level) : bool :=
  negb (actor level =? 0) && negb (permission level =? 0).

Definition find_permission (s : auth_db) (level : permission_level) : R (option permission_object) :=
  eos_rethrow_exceptions permission_query_exception
    (eos_assert (level_named level) invalid_permission ;; mret (by_owner s level)).

Definition get_permission (s : auth_db) (level : permission_level) : R permission_object :=
  eos_rethrow_exceptions permission_query_exception
    (eos_assert (level_named level) invalid_permission ;; of_option (by_owner s level) std_out_of_range).

(** The loop of [permission_object::satisfies]: dereferencing the end of the index
    is undefined.  The fuel is the id of the permission the walk starts from. *)
Fixpoint walk (fuel : nat) (s : auth_db) (id : Z) (parent : permission_object) : R bool :=
  if id =? po_parent parent then Ok true
  else if po_parent parent =? 0 then Ok false
  else match fuel with
       | O => Err loop_bound
       | S fuel =>
           match permissions s !! po_parent parent with
           | None => Err undefined_behavior
           | Some parent => walk fuel s id parent
           end
       end.

Definition satisfies (s : auth_db) (p other : permission_object) : R bool :=
  if negb (po_owner p =? po_owner other) then Ok false
  else if (po_id p =? po_id other) || (po_id p =? po_parent other) then Ok true
  else match permissions s !! po_parent other with
       | None => Err undefined_behavior
       | Some parent => walk (Z.to_nat (po_id other)) s (po_id p) parent
       end.

Definition lookup_linked_permission (s : auth_db) (authorizer scope act_name : Z) : option Z :=
  match links s !! (authorizer, scope, act_name) with
  | Some p => Some p
  | None => links s !! (authorizer, scope, 0)
  end.

(** ** Native actions ([contract_types.hpp]) *)

Record updateauth : Type := mk_updateauth
  { ua_account : Z; ua_permission : Z; ua_parent : Z; ua_auth : authority }.
Record deleteauth : Type := mk_deleteauth { da_account : Z; da_permission : Z }.
Record linkauth : Type := mk_linkauth { la_account : Z; la_code : Z; la_type : Z; la_requirement : Z }.
Record unlinkauth : Type := mk_unlinkauth { ul_account : Z; ul_code : Z; ul_type : Z }.
Record canceldelay : Type := mk_canceldelay { canceling_auth : permission_level; cd_trx_id : digest_type }.

Definition updateauth_name : Z := Name.N "updateauth".
Definition deleteauth_name : Z := Name.N "deleteauth".
Definition linkauth_name : Z := Name.N "linkauth".
Definition unlinkauth_name : Z := Name.N "unlinkauth".
Definition canceldelay_name : Z := Name.N "canceldelay".

Definition native_auth_action (n : Z) : bool :=
  (n =? updateauth_name) || (n =? deleteauth_name) || (n =? linkauth_name)
  || (n =? unlinkauth_name) || (n =? canceldelay_name).

Record action : Type := mk_action
  { act_account : account_name; act_name : Z; act_authorization : list permission_level; act_data : bytes }.

(** [fc::raw::unpack] of action data and of a packed transaction's actions. *)
Class Unpack : Type :=
  { unpack_updateauth : bytes → R updateauth;
    unpack_deleteauth : bytes → R deleteauth;
    unpack_linkauth : bytes → R linkauth;
    unpack_unlinkauth : bytes → R unlinkauth;
    unpack_canceldelay : bytes → R canceldelay;
    unpack_actions : bytes → R (list action) }.

(** [action::data_as<T>] of a type of the system account. *)
Definition data_as {T} (name : Z) (unpack : bytes → R T) (a : action) : R T :=
  eos_assert (act_account a =? config.system_account_name) action_type_exception ;;
  eos_assert (act_name a =? name) action_type_exception ;;
  unpack (act_data a).

(** What is read of a generated transaction. *)
Record generated_transaction_object : Type := mk_generated
  { gt_sender : account_name; gt_sender_id : Z; gt_payer : account_name;
    gt_delay_until : Z; gt_expiration : Z; gt_published : Z; gt_packed_trx : bytes }.

(** What the manager reads of the controller: two fields of the configuration and
    the generated transactions by transaction id. *)
Record control_view : Type := mk_control
  { max_transaction_delay : Z; max_authority_depth : nat;
    generated : gmap digest_type generated_transaction_object }.

(** ** The minimum permission of an action *)

Section Checks.
Context (s : auth_db).

Definition lookup_minimum_permission (authorizer scope act_name : Z) : R (option Z) :=
  eos_assert (negb (scope =? config.system_account_name) || negb (native_auth_action act_name))
    unlinkable_min_permission_action ;;
  mret (match lookup_linked_permission s authorizer scope act_name with
        | None => Some config.active_name
        | Some p => if p =? config.eosio_any_name then None else Some p
        end).

(** [get_permission( auth ).satisfies( min )] or throw. *)
Definition require_satisfies (auth : permission_level) (min : permission_object) : R () :=
  p ← get_permission s auth;
  ok ← satisfies s p min;
  eos_assert ok irrelevant_auth_exception.

(** Exactly one authorization; the checks start with it. *)
Definition single_auth (auths : list permission_level) : R permission_level :=
  match auths with
  | [auth] => Ok auth
  | _ => Err irrelevant_auth_exception
  end.

Definition check_updateauth_authorization (u : updateauth) (auths : list permission_level) : R () :=
  auth ← single_auth auths;
  eos_assert (actor auth =? ua_account u) irrelevant_auth_exception ;;
  min ← find_permission s (mk_level (ua_account u) (ua_permission u));
  min ← (match min with
         | Some p => mret p
         | None => get_permission s (mk_level (ua_account u) (ua_parent u))
         end);
  require_satisfies auth min.

Definition check_deleteauth_authorization (d : deleteauth) (auths : list permission_level) : R () :=
  auth ← single_auth auths;
  eos_assert (actor auth =? da_account d) irrelevant_auth_exception ;;
  min ← get_permission s (mk_level (da_account d) (da_permission d));
  require_satisfies auth min.

Definition check_linkauth_authorization (l : linkauth) (auths : list permission_level) : R () :=
  auth ← single_auth auths;
  eos_assert (actor auth =? la_account l) irrelevant_auth_exception ;;
  eos_assert (negb (la_type l =? updateauth_name)) action_validate_exception ;;
  eos_assert (negb (la_type l =? deleteauth_name)) action_validate_exception ;;
  eos_assert (negb (la_type l =? linkauth_name)) action_validate_exception ;;
  eos_assert (negb (la_type l =? unlinkauth_name)) action_validate_exception ;;
  eos_assert (negb (la_type l =? canceldelay_name)) action_validate_exception ;;
  linked ← lookup_minimum_permission (la_account l) (la_code l) (la_type l);
  match linked with
  | None => mret ()
  | Some p => min ← get_permission s (mk_level (la_account l) p); require_satisfies auth min
  end.

Definition check_unlinkauth_authorization (u : unlinkauth) (auths : list permission_level) : R () :=
  auth ← single_auth auths;
  eos_assert (actor auth =? ul_account u) irrelevant_auth_exception ;;
  p ← of_option (lookup_linked_permission s (ul_account u) (ul_code u) (ul_type u)) transaction_exception;
  if p =? config.eosio_any_name then mret ()
  else min ← get_permission s (mk_level (ul_account u) p); require_satisfies auth min.

Context `{Unpack} (v : control_view).

(** The delay the deferred transaction has waited for. *)
Definition check_canceldelay_authorization (c : canceldelay) (auths : list permission_level) : R Z :=
  auth ← single_auth auths;
  min ← get_permission s (canceling_auth c);
  require_satisfies auth min ;;
  g ← of_option (generated v !! cd_trx_id c) tx_not_found;
  eos_assert (gt_sender g =? 0) tx_not_found ;;
  actions ← unpack_actions (gt_packed_trx g);
  eos_assert (existsb (fun a => existsb (fun x => bool_decide (x = canceling_auth c)) (act_authorization a)) actions)
    action_validate_exception ;;
  mret (i64 (gt_delay_until g - gt_published g)).

(** ** [check_authorization] *)

Definition delay_max_limit : Z := seconds (max_transaction_delay v).

Definition effective_delay (provided_delay : Z) : Z :=
  if delay_max_limit <=? provided_delay then i64_max else provided_delay.

(** [make_auth_checker] with the stored authorities. *)
Definition make_checker (ks : list public_key_type) (ps : gset permission_level) (delay : Z) : checker :=
  mk_checker (fun p => po ← get_permission s p; mret (po_auth po)) (max_authority_depth v) ks ps delay.

(** The marks of the checker and the number of calls of [checktime]. *)
Record progress : Type := mk_progress { marks : list bool; ticks : nat }.
Abbreviation CA := (ST progress exn).

Context (checktime : nat → R ()).

Definition tick : CA () :=
  p ← get_st; put_st (mk_progress (marks p) (S (ticks p))) ;; lift (checktime (ticks p)).

(** A special action is checked as a whole; the result says whether it is one and
    the delay for its authorizations. *)
Definition check_special (delay : Z) (act : action) : R (bool * Z) :=
  if negb (act_account act =? config.system_account_name) then mret (false, delay)
  else if act_name act =? updateauth_name then
    d ← data_as updateauth_name unpack_updateauth act;
    check_updateauth_authorization d (act_authorization act) ;; mret (true, delay)
  else if act_name act =? deleteauth_name then
    d ← data_as deleteauth_name unpack_deleteauth act;
    check_deleteauth_authorization d (act_authorization act) ;; mret (true, delay)
  else if act_name act =? linkauth_name then
    d ← data_as linkauth_name unpack_linkauth act;
    check_linkauth_authorization d (act_authorization act) ;; mret (true, delay)
  else if act_name act =? unlinkauth_name then
    d ← data_as unlinkauth_name unpack_unlinkauth act;
    check_unlinkauth_authorization d (act_authorization act) ;; mret (true, delay)
  else if act_name act =? canceldelay_name then
    d ← data_as canceldelay_name unpack_canceldelay act;
    x ← check_canceldelay_authorization d (act_authorization act);
    mret (true, Z.max delay x)
  else mret (false, delay).

Abbreviation to_satisfy := (gmap permission_level Z).

(** [emplace], and the smaller delay if the level is there already. *)
Definition demand (level : permission_level) (delay : Z) (m : to_satisfy) : to_satisfy :=
  match m !! level with
  | None => <[level := delay]> m
  | Some d => if delay <? d then <[level := delay]> m else m
  end.

(** The declared authority must reach the minimum permission of the action. *)
Definition check_minimum (act : action) (declared : permission_level) : R () :=
  name ← lookup_minimum_permission (actor declared) (act_account act) (act_name act);
  match name with
  | None => mret ()
  | Some n => min ← get_permission s (mk_level (actor declared) n); require_satisfies declared min
  end.

Fixpoint check_declared (satisfied : gset permission_level) (special : bool) (delay : Z) (act : action)
    (m : to_satisfy) (l : list permission_level) : CA to_satisfy :=
  match l with
  | [] => mret m
  | declared :: l =>
      tick ;;
      (if special then mret () else lift (check_minimum act declared)) ;;
      check_declared satisfied special delay act
        (if bool_decide (declared ∈ satisfied) then m else demand declared delay m) l
  end.

Fixpoint check_actions (satisfied : gset permission_level) (delay : Z) (m : to_satisfy)
    (acts : list action) : CA to_satisfy :=
  match acts with
  | [] => mret m
  | act :: acts =>
      '(special, d) ← lift (check_special delay act);
      m ← check_declared satisfied special d act m (act_authorization act);
      check_actions satisfied delay m acts
  end.

(** The map in ascending order of the levels. *)
Definition level_le (x y : permission_level * Z) : Prop := level_lt y.1 x.1 = false.

#[export] Instance level_le_dec x y : Decision (level_le x y).
Proof. unfold level_le. apply _. Defined.

Definition in_order (m : to_satisfy) : list (permission_level * Z) := merge_sort level_le (map_to_list m).

Definition satisfy_one (c : checker) (x : permission_level * Z) : CA () :=
  tick ;;
  p ← get_st;
  let '(r, marks') := satisfied_permission (with_delay x.2 c) x.1 (marks p) in
  put_st (mk_progress marks' (ticks p)) ;;
  ok ← lift r;
  st_assert ok unsatisfied_authorization.

Definition check_authorization (actions : list action) (provided_keys : list public_key_type)
    (provided_permissions : gset permission_level) (provided_delay : Z) (allow_unused_keys : bool)
    (satisfied_authorizations : gset permission_level) : R () :=
  let delay := effective_delay provided_delay in
  let c := make_checker provided_keys provided_permissions delay in
  fst ((m ← check_actions satisfied_authorizations delay ∅ actions;
   for_each (satisfy_one c) (in_order m) ;;
   p ← get_st;
   if allow_unused_keys then mret () else st_assert (all_keys_used (marks p)) tx_irrelevant_sig)
    (mk_progress (unused c) 0)).

(** The overload for one permission. *)
Definition check_permission (account permission : Z) (provided_keys : list public_key_type)
    (provided_permissions : gset permission_level) (provided_delay : Z) (allow_unused_keys : bool) : R () :=
  let c := make_checker provided_keys provided_permissions (effective_delay provided_delay) in
  let '(r, u) := satisfied_permission c (mk_level account permission) (unused c) in
  ok ← r;
  eos_assert ok unsatisfied_authorization ;;
  if allow_unused_keys then mret () else eos_assert (all_keys_used u) tx_irrelevant_sig.

Definition get_required_keys (trx_actions : list action) (candidate_keys : list public_key_type)
    (provided_delay : Z) : R (list public_key_type) :=
  let c := make_checker candidate_keys ∅ provided_delay in
  let '(r, u) := for_each (fun level => ok ← satisfied_permission c level; st_assert ok unsatisfied_authorization)
                   (trx_actions ≫= act_authorization) (unused c) in
  r ;; mret (used_keys c u).
End Checks.

(** ** Well-formed permission tables *)

(** The edge from a permission to its parent. *)
Definition parent_of (s : auth_db) (x y : Z) : Prop := ∃ p, permissions s !! x = Some p ∧ po_parent p = y.

(** What holds of a permission other than the reserved one. *)
Record permission_wf (s : auth_db) (id : Z) (p : permission_object) : Prop := mk_permission_wf
  { pw_owner : po_owner p ≠ 0;
    pw_name : po_name p ≠ 0;
    pw_typed : fields_typed (po_auth p);
    pw_root : po_parent p = 0 ↔ po_name p = config.owner_name;
    pw_parent : po_parent p ≠ 0 → ∃ q, permissions s !! po_parent p = Some q ∧ po_owner q = po_owner p ∧ po_parent p < id;
    pw_usage : is_Some (usages s !! po_usage_id p) ∧ po_usage_id p < next_usage s }.

Record auth_wf (s : auth_db) : Prop := mk_auth_wf
  { aw_reserved : permissions s !! 0 = Some reserved;
    aw_next : 0 < next_permission s;
    aw_id : ∀ id p, permissions s !! id = Some p → po_id p = id ∧ 0 ≤ id < next_permission s;
    aw_permission : ∀ id p, permissions s !! id = Some p → id ≠ 0 → permission_wf s id p;
    aw_unique : ∀ i j p q, permissions s !! i = Some p → permissions s !! j = Some q →
      po_owner p = po_owner q → po_name p = po_name q → i = j;
    aw_usage : ∀ i j p q, permissions s !! i = Some p → permissions s !! j = Some q →
      i ≠ 0 → j ≠ 0 → po_usage_id p = po_usage_id q → i = j }.

Lemma by_owner_some s l p :
  by_owner s l = Some p → ∃ id, permissions s !! id = Some p ∧ po_owner p = actor l ∧ po_name p = permission l.
Proof.
  unfold by_owner. intros H. apply find_some in H as [Hin Hp]. to_prop.
  apply list_elem_of_In, list_elem_of_fmap in Hin as [[id p'] [-> Hin]].
  apply elem_of_map_to_list in Hin. eauto.
Qed.

Lemma by_owner_none s l id p :
  by_owner s l = None → permissions s !! id = Some p → po_owner p = actor l → po_name p ≠ permission l.
Proof.
  unfold by_owner. intros H Hp Ho Hn.
  apply find_none with (x := p) in H; [|apply list_elem_of_In, list_elem_of_fmap; exists (id, p); split; [done|by apply elem_of_map_to_list]].
  rewrite Ho, Hn, !Z.eqb_refl in H. done.
Qed.

Lemma initialize_database_wf : auth_wf initialize_database.
Proof.
  unfold initialize_database. split; cbn.
  - apply lookup_singleton_eq.
  - lia.
  - intros id p [<- <-]%lookup_singleton_Some. done.
  - intros id p [<- <-]%lookup_singleton_Some. done.
  - intros i j p q [<- _]%lookup_singleton_Some [<- _]%lookup_singleton_Some. done.
  - intros i j p q [<- _]%lookup_singleton_Some. done.
Qed.

(** Getting a permission: it is stored under its id and bears the names asked for. *)
Lemma get_permission_ok s level p :
  auth_wf s → get_permission s level = Ok p →
  permissions s !! po_id p = Some p ∧ po_id p ≠ 0 ∧ po_owner p = actor level ∧ po_name p = permission level ∧
  actor level ≠ 0 ∧ permission level ≠ 0.
Proof.
  intros Hw. unfold get_permission, level_named, eos_assert.
  destruct (Z.eqb_spec (actor level) 0), (Z.eqb_spec (permission level) 0); cbn; try done.
  destruct (by_owner s level) as [q|] eqn:E; cbn; [|done]. intros [= ->].
  apply by_owner_some in E as (id & Hp & Ho & Hn). destruct (aw_id s Hw _ _ Hp) as [Hi _]. rewrite Hi.
  split; [done|]. split; [|done]. intros ->. rewrite (aw_reserved s Hw) in Hp. injection Hp as <-. by cbn in Ho.
Qed.

(** A named permission is only missed with [permission_query_exception]. *)
Lemma get_permission_err s level e :
  named level → get_permission s level = Err e → derives_from e permission_query_exception = true.
Proof.
  intros [Ha Hp]. unfold get_permission, level_named.
  rewrite (proj2 (Z.eqb_neq _ _) Ha), (proj2 (Z.eqb_neq _ _) Hp). cbn.
  destruct (by_owner s level); cbn; [done|]. intros [= <-]. done.
Qed.

Lemma get_permission_named s level p : get_permission s level = Ok p → named level.
Proof.
  unfold get_permission, level_named, named.
  destruct (Z.eqb_spec (actor level) 0), (Z.eqb_spec (permission level) 0); cbn; done.
Qed.

(** ** The hierarchy of permissions *)

Lemma parent_step s x p id :
  permissions s !! x = Some p → tc (parent_of s) x id ↔ id = po_parent p ∨ tc (parent_of s) (po_parent p) id.
Proof.
  intros Hx. split.
  - intros H. inversion H as [? ? (q & Hq & <-)|? y ? (q & Hq & <-) Ht]; subst; simplify_eq; auto.
  - intros [->|H]; [apply tc_once|eapply tc_l; [|exact H]]; by exists p.
Qed.

(** Nothing is above the reserved permission. *)
Lemma reserved_top s x id : auth_wf s → tc (parent_of s) x id → x = 0 → id = 0.
Proof.
  intros Hw. induction 1 as [x y (p & Hp & <-)|x y z (p & Hp & <-) _ IH]; intros ->;
    rewrite (aw_reserved s Hw) in Hp; injection Hp as <-; cbn in *; auto.
Qed.

Lemma walk_spec s id : auth_wf s → id ≠ 0 → ∀ fuel x parent,
  permissions s !! x = Some parent → (Z.to_nat x ≤ fuel)%nat →
  ∃ b, walk fuel s id parent = Ok b ∧ (b = true ↔ tc (parent_of s) x id).
Proof.
  intros Hw Hid fuel. induction fuel as [|fuel IH]; intros x parent Hx Hf; cbn [walk].
  all: setoid_rewrite (parent_step s x parent id Hx).
  all: destruct (Z.eqb_spec id (po_parent parent)) as [->|Hne]; [exists true; naive_solver|].
  all: destruct (Z.eqb_spec (po_parent parent) 0) as [H0|H0];
    [exists false; split; [done|]; split; [done|]; intros [?|Ht]; [done|]; rewrite H0 in Ht;
     by apply (reserved_top s 0 id Hw) in Ht|].
  all: destruct (aw_id s Hw _ _ Hx) as [_ Hr].
  all: assert (x ≠ 0) as Hx0 by (intros ->; rewrite (aw_reserved s Hw) in Hx; injection Hx as <-; done).
  all: destruct (pw_parent s x parent (aw_permission s Hw _ _ Hx Hx0) H0) as (q & Hq & _ & Hlt).
  - lia.
  - rewrite Hq. destruct (aw_id s Hw _ _ Hq) as [_ Hr']. destruct (IH _ q Hq) as (b & -> & Hb); [lia|].
    exists b. split; [done|]. rewrite Hb. naive_solver.
Qed.

Lemma satisfies_spec (s : auth_db) (p q : permission_object) :
  auth_wf s → permissions s !! po_id p = Some p → permissions s !! po_id q = Some q → po_id p ≠ 0 →
  ∃ b, satisfies s p q = Ok b ∧
    (b = true ↔ po_owner p = po_owner q ∧ rtc (parent_of s) (po_id q) (po_id p)).
Proof.
  intros Hw Hp Hq Hid. unfold satisfies.
  destruct (Z.eqb_spec (po_owner p) (po_owner q)) as [Ho|Ho]; cbn [negb]; [|exists false; naive_solver].
  destruct (Z.eqb_spec (po_id p) (po_id q)) as [He|He]; cbn [orb].
  { exists true. split; [done|]. rewrite He. split; [intros _; split; [done|reflexivity]|done]. }
  setoid_rewrite (rtc_tc (R:=parent_of s)). setoid_rewrite (parent_step s _ q _ Hq).
  destruct (Z.eqb_spec (po_id p) (po_parent q)) as [Hpar|Hpar]; [exists true; naive_solver|].
  assert (∃ r, permissions s !! po_parent q = Some r ∧ (Z.to_nat (po_parent q) ≤ Z.to_nat (po_id q))%nat)
    as (r & Hr & Hle).
  { destruct (decide (po_parent q = 0)) as [->|Hne].
    - exists reserved. split; [apply (aw_reserved s Hw)|lia].
    - assert (po_id q ≠ 0) by (intros Hz; rewrite Hz, (aw_reserved s Hw) in Hq; injection Hq as <-; done).
      destruct (pw_parent _ _ _ (aw_permission s Hw _ _ Hq ltac:(done)) Hne) as (r & ? & _ & ?).
      exists r. split; [done|]. destruct (aw_id s Hw _ _ Hq). lia. }
  rewrite Hr. destruct (walk_spec s (po_id p) Hw Hid _ _ r Hr Hle) as (b & -> & Hb).
  exists b. split; [done|]. rewrite Hb. naive_solver.
Qed.

(** C37: a permission satisfies another exactly if both belong to the same account
    and the first is the second or one of its ancestors; the walk up the tree
    always ends. *)
Theorem satisfies_is_ancestor (s : auth_db) (p q : permission_object) :
  auth_wf s → permissions s !! po_id p = Some p → permissions s !! po_id q = Some q → po_id p ≠ 0 →
  ∃ b, satisfies s p q = Ok b ∧
    (b = true ↔ po_owner p = po_owner q ∧ rtc (parent_of s) (po_id q) (po_id p)).
Proof. apply satisfies_spec. Qed.

Lemma require_satisfies_ok s l m :
  auth_wf s → permissions s !! po_id m = Some m → require_satisfies s l m = Ok () →
  ∃ p, get_permission s l = Ok p ∧ rtc (parent_of s) (po_id m) (po_id p).
Proof.
  intros Hw Hm H. unfold require_satisfies in H. simpl_ok.
  destruct (get_permission_ok s l x Hw H0) as (Hp & Hid & _).
  destruct (satisfies_spec s x m Hw Hp Hm Hid) as (b & Hb & Hspec). exists x. split; [done|]. apply Hspec. congruence.
Qed.

(** The permission an action asks of the actor: that of the link of the action or
    of the contract, or the active one. *)
Definition required (s : auth_db) (act : action) (l : permission_level) : Z :=
  default config.active_name (lookup_linked_permission s (actor l) (act_account act) (act_name act)).

Definition reaches (s : auth_db) (act : action) (l : permission_level) : Prop :=
  required s act l = config.eosio_any_name ∨
  ∃ p m, get_permission s l = Ok p ∧ get_permission s (mk_level (actor l) (required s act l)) = Ok m ∧
    rtc (parent_of s) (po_id m) (po_id p).

Lemma check_minimum_reaches s act l : auth_wf s → check_minimum s act l = Ok () → reaches s act l.
Proof.
  intros Hw H. unfold check_minimum, lookup_minimum_permission in H. simpl_ok.
  unfold reaches, required. revert H.
  assert (∀ n, (min ← get_permission s (mk_level (actor l) n); require_satisfies s l min) = Ok () →
    ∃ p m, get_permission s l = Ok p ∧ get_permission s (mk_level (actor l) n) = Ok m ∧ rtc (parent_of s) (po_id m) (po_id p)) as Hmin.
  { intros n H. simpl_ok. apply require_satisfies_ok in H as (p & ? & ?); [eauto|done|].
    by apply get_permission_ok in H0 as [? _]. }
  destruct (lookup_linked_permission _ _ _ _) as [q|]; cbn; [|right; by apply Hmin].
  destruct (Z.eqb_spec q config.eosio_any_name) as [->|]; [by left|]. right. by apply Hmin.
Qed.

(** ** Soundness of [check_authorization] *)

Lemma fields_typed_typed a : fields_typed a → typed a.
Proof.
  intros (Hk & Ha & Hw & _). unfold typed, factors. rewrite !Forall_app, !Forall_fmap.
  split_and!; [|done|done]. eapply Forall_impl; [exact Hw|]. intros w [H _]. exact H.
Qed.

(** A longer delay approves no less. *)
Lemma weight_of_delay c d d' (P Q : permission_level → bool) l :
  d ≤ d' → (∀ p, P p = true → Q p = true) → Forall (fun m => 0 ≤ meta_weight m ≤ u16_max) l →
  weight_of (with_delay d c) P l ≤ weight_of (with_delay d' c) Q l.
Proof.
  intros Hd HPQ H. unfold weight_of. induction H as [|m l Hm _ IH]; cbn; [lia|].
  enough (holds (with_delay d c) P m = true → holds (with_delay d' c) Q m = true) as Hh.
  { destruct (holds (with_delay d c) P m); [rewrite Hh by done; lia|]. destruct (holds _ Q m); lia. }
  destruct m; cbn; [auto|auto|]. rewrite !Z.leb_le. lia.
Qed.

Lemma approved_delay c d d' p :
  (∀ p a, permission_to_authority c p = Ok a → typed a) → d ≤ d' →
  approved (with_delay d c) p → approved (with_delay d' c) p.
Proof.
  intros Ht Hd [n Hn]. exists n. revert p Hn. induction n as [|n IH]; intros p; cbn.
  - done.
  - rewrite !orb_true_iff. intros [Hp|Hp]; [by left|right].
    destruct (permission_to_authority c p) as [a|] eqn:E; [|done]. unfold approves in *. rewrite Z.leb_le in *.
    etrans; [exact Hp|]. apply weight_of_delay; [done|exact IH|by apply (Ht p)].
Qed.

Section Sound.
Context `{Unpack} (s : auth_db) (v : control_view) (checktime : nat → R ()).
Context (Hwf : auth_wf s).

Lemma kept_typed ks ps d p a : permission_to_authority (make_checker s v ks ps d) p = Ok a → typed a.
Proof using Hwf.
  cbn. intros Hp. simpl_ok. apply get_permission_ok in H0 as (Hp & Hid & _); [|done].
  apply fields_typed_typed, (pw_typed s _ _ (aw_permission s Hwf _ _ Hp Hid)).
Qed.

Lemma kept_named ks ps d p a : permission_to_authority (make_checker s v ks ps d) p = Ok a → permission p ≠ 0.
Proof. cbn. intros Hp. simpl_ok. by apply get_permission_named in H0 as [_ ?]. Qed.

(** [m'] demands at least what [m] does. *)
Definition demands (m m' : gmap permission_level Z) : Prop :=
  ∀ l d, m !! l = Some d → ∃ d', m' !! l = Some d' ∧ d' ≤ d.

Lemma demand_spec l d m : demands m (demand l d m) ∧ ∃ d', demand l d m !! l = Some d' ∧ d' ≤ d.
Proof.
  unfold demand. destruct (m !! l) as [d0|] eqn:E; [destruct (Z.ltb_spec d d0)|].
  all: split; [|first [exists d; by rewrite lookup_insert_eq|exists d0; split; [done|lia]]].
  all: intros l' d1 Hl'; destruct (decide (l = l')) as [->|];
    rewrite ?lookup_insert_eq, ?lookup_insert_ne by done; simplify_eq; eauto with lia.
Qed.

Lemma demands_trans m1 m2 m3 : demands m1 m2 → demands m2 m3 → demands m1 m3.
Proof. intros H1 H2 l d Hl. destruct (H1 l d Hl) as (d1 & H' & ?). destruct (H2 l d1 H') as (d2 & ? & ?). exists d2. split; [done|lia]. Qed.

(** What is known of a declared authority once the actions are checked. *)
Definition declared_ok (sat : gset permission_level) (special : bool) (d : Z) (act : action)
    (m : gmap permission_level Z) (l : permission_level) : Prop :=
  (special = false → check_minimum s act l = Ok ()) ∧
  (l ∈ sat ∨ ∃ d', m !! l = Some d' ∧ d' ≤ d).

Lemma declared_ok_mono sat special d act m m' l :
  demands m m' → declared_ok sat special d act m l → declared_ok sat special d act m' l.
Proof.
  intros Hm [H1 [H2|(d' & H2 & ?)]]; (split; [done|]); [by left|right].
  destruct (Hm _ _ H2) as (d2 & ? & ?). exists d2. split; [done|lia].
Qed.

Lemma check_declared_spec sat special d act l : ∀ m p m' p',
  check_declared s checktime sat special d act m l p = (Ok m', p') →
  demands m m' ∧ Forall (declared_ok sat special d act m') l.
Proof.
  induction l as [|x l IH]; intros m p m' p' Hc; cbn [check_declared] in Hc; simpl_ok.
  { split; [|done]. intros l0 d0. eauto with lia. }
  apply IH in Hc as [Hd Hl].
  assert (special = false → check_minimum s act x = Ok ()) as Hmin.
  { intros ->. apply lift_ok in H1 as [H1 _]. by destruct x2. }
  case_bool_decide as Hin.
  - split; [done|]. constructor; [|done]. split; [done|by left].
  - destruct (demand_spec x d m) as [Hdm (d' & Hx & ?)]. split; [by eapply demands_trans|].
    constructor; [|done]. eapply declared_ok_mono; [exact Hd|]. split; [done|]. right. eauto.
Qed.

Lemma check_actions_spec sat d acts : ∀ m p m' p',
  check_actions s v checktime sat d m acts p = (Ok m', p') →
  demands m m' ∧ Forall (fun act => ∃ special d', check_special s v d act = Ok (special, d') ∧
                           Forall (declared_ok sat special d' act m') (act_authorization act)) acts.
Proof.
  induction acts as [|act acts IH]; intros m p m' p' Hc; cbn [check_actions] in Hc; simpl_ok.
  { split; [|done]. intros l0 d0. eauto with lia. }
  destruct x as [special d']. simpl_ok.
  apply check_declared_spec in H1 as [Hd Hl]. apply IH in Hc as [Hd2 Hl2].
  split; [by eapply demands_trans|]. constructor; [|done]. exists special, d'. split; [done|].
  eapply Forall_impl; [exact Hl|]. intros l. by apply declared_ok_mono.
Qed.

Lemma satisfy_all_ok c l p p' :
  for_each (satisfy_one checktime c) l p = (Ok (), p') →
  ∀ x, x ∈ l → ∃ u, (satisfied_permission (with_delay x.2 c) x.1 u).1 = Ok true.
Proof.
  revert p. induction l as [|y l IH]; intros p Hl x Hx; [by apply elem_of_nil in Hx|].
  cbn in Hl. simpl_ok. apply elem_of_cons in Hx as [->|Hx]; [|by eapply IH].
  unfold satisfy_one in H0. simpl_ok. destruct (satisfied_permission _ _ _) as [r u] eqn:E. simpl_ok.
  eexists. rewrite E. by subst.
Qed.
End Sound.

Lemma check_authorization_approves `{Unpack} (s : auth_db) (v : control_view) (checktime : nat → R ())
    (actions : list action) (ks : list public_key_type) (ps : gset permission_level) (delay : Z)
    (allow_unused : bool) (sat : gset permission_level) :
  auth_wf s →
  check_authorization s v checktime actions ks ps delay allow_unused sat = Ok () →
  ∀ act l, act ∈ actions → l ∈ act_authorization act →
  ∃ special d, check_special s v (effective_delay v delay) act = Ok (special, d) ∧
    (special = false → reaches s act l) ∧
    (l ∈ sat ∨ approved (make_checker s v ks ps d) l).
Proof.
  intros Hw Hc act l Ha Hl. unfold check_authorization in Hc. set (c := make_checker _ _ _ _ _) in Hc.
  match type of Hc with fst ?e = _ => destruct e as [r p] eqn:E end. cbn in Hc. subst r. simpl_ok.
  apply check_actions_spec in H0 as [_ Hacts]. rewrite Forall_forall in Hacts.
  destruct (Hacts act Ha) as (special & d & Hs & Hd). rewrite Forall_forall in Hd.
  destruct (Hd l Hl) as [Hmin Hsat]. exists special, d. split; [done|].
  split; [intros ?; by apply check_minimum_reaches, Hmin|].
  destruct Hsat as [?|(d' & Hm & Hle)]; [by left|right].
  destruct x1. destruct (satisfy_all_ok checktime c _ _ _ H1 (l, d')) as [u Hu].
  { unfold in_order. rewrite merge_sort_Permutation. by apply elem_of_map_to_list. }
  apply (satisfied_approved (with_delay d' c)) in Hu.
  - change (make_checker s v ks ps d) with (with_delay d c).
    eapply approved_delay; [|exact Hle|exact Hu]. intros q a. by apply kept_typed.
  - intros q a. by apply (kept_typed s v Hw ks ps d').
  - intros q a. apply (kept_named s v ks ps d').
Qed.

(** C3: if [check_authorization] accepts the actions of a transaction, then each
    authority an action declares is the permission linked to the action, or the
    active one, or an ancestor of it (or it passed the check of a native action
    on permissions), and unless it was satisfied before,
    the keys, permissions and delay given approve it. *)
Theorem check_authorization_sound `{Unpack} (s : auth_db) (v : control_view) (checktime : nat → R ())
    (actions : list action) (ks : list public_key_type) (ps : gset permission_level) (delay : Z)
    (allow_unused : bool) (sat : gset permission_level) :
  auth_wf s →
  check_authorization s v checktime actions ks ps delay allow_unused sat = Ok () →
  ∀ act l, act ∈ actions → l ∈ act_authorization act →
  ∃ special d, check_special s v (effective_delay v delay) act = Ok (special, d) ∧
    (special = false → reaches s act l) ∧
    (l ∈ sat ∨ approved (make_checker s v ks ps d) l).
Proof. apply check_authorization_approves. Qed.

(** ** The operations keep the table well formed *)

Lemma permission_wf_mono s s' id p :
  permission_wf s id p → (∀ j q, permissions s !! j = Some q →
    ∃ q', permissions s' !! j = Some q' ∧ po_owner q' = po_owner q) →
  (∀ u, is_Some (usages s !! u) → is_Some (usages s' !! u)) → next_usage s ≤ next_usage s' →
  permission_wf s' id p.
Proof.
  intros [H1 H2 H3 H4 H5 [H6 H7]] Hp Hu Hn. split; try done.
  - intros Hne. destruct (H5 Hne) as (q & Hq & Ho & Hlt). destruct (Hp _ _ Hq) as (q' & ? & ?). exists q'.
    split_and!; [done|congruence|done].
  - split; [by apply Hu|lia].
Qed.

(** The part of [create_permission] before the object is inserted. *)
Lemma add_usage_wf s t :
  auth_wf s →
  auth_wf (mk_auth_db (permissions s) (next_permission s) (<[next_usage s := t]> (usages s)) (next_usage s + 1) (links s)).
Proof.
  intros Hw. split; cbn; try apply Hw. intros id p Hp Hid.
  eapply permission_wf_mono; [by apply (aw_permission s Hw)|eauto| |cbn; lia].
  intros u [x Hx]. cbn. destruct (decide (next_usage s = u)) as [->|]; [rewrite lookup_insert_eq|rewrite lookup_insert_ne by done]; eauto.
Qed.

Definition placed (s : auth_db) (account name parent : Z) : Prop :=
  (parent = 0 ↔ name = config.owner_name) ∧
  (parent ≠ 0 → ∃ q, permissions s !! parent = Some q ∧ po_owner q = account).

Lemma create_permission_wf s now account name parent auth t :
  auth_wf s → account ≠ 0 → name ≠ 0 → fields_typed auth → placed s account name parent →
  auth_wf (create_permission now account name parent auth t s).2 ∧
  ∀ p, (create_permission now account name parent auth t s).1 = Ok p →
    p = mk_permission (next_permission s) (next_usage s) parent account name (if t =? 0 then now else t) auth ∧
    permissions (create_permission now account name parent auth t s).2 = <[next_permission s := p]> (permissions s) ∧
    links (create_permission now account name parent auth t s).2 = links s.
Proof.
  intros Hw Ha Hn Ht [Hroot Hpar]. unfold create_permission.
  set (time := if t =? 0 then now else t). pose proof (add_usage_wf s time Hw) as Hw1.
  unfold mbind, st_bind, get_st, put_st. cbn [fst snd permissions next_permission usages next_usage links] in *.
  set (s1 := mk_auth_db _ _ _ _ _) in *.
  destruct (by_owner s1 (mk_level account name)) as [q|] eqn:E; cbn [st_assert lift eos_assert fst snd]; [done|].
  set (p := mk_permission _ _ _ _ _ _ _). split; [|by intros ? [= <-]].
  assert (permissions s !! next_permission s = None) as Hfresh.
  { destruct (permissions s !! next_permission s) as [q|] eqn:Eq; [|done].
    apply (aw_id s Hw) in Eq as [_ ?]. lia. }
  assert (∀ i q, permissions s !! i = Some q → is_Some (<[next_permission s := p]> (permissions s) !! i) ∧ i ≠ next_permission s) as Hold.
  { intros i q Hi. destruct (decide (next_permission s = i)) as [<-|]; [congruence|].
    by rewrite lookup_insert_ne. }
  split; cbn.
  - rewrite lookup_insert_ne; [apply (aw_reserved s Hw)|]. pose proof (aw_next s Hw). lia.
  - pose proof (aw_next s Hw). lia.
  - intros id q. rewrite lookup_insert_Some. pose proof (aw_next s Hw).
    intros [[<- <-]|[_ Hq]]; cbn; [lia|]. destruct (aw_id s Hw _ _ Hq). lia.
  - intros id q. rewrite lookup_insert_Some. intros [[<- <-]|[Hne Hq]] Hid.
    + split; cbn; try done.
      * intros Hp. destruct (Hpar Hp) as (q & Hq & Ho). exists q. destruct (Hold _ _ Hq) as [_ Hne].
        rewrite lookup_insert_ne by done. destruct (aw_id s Hw _ _ Hq). split_and!; [done|done|lia].
      * rewrite lookup_insert_eq. split; [eauto|lia].
    + eapply permission_wf_mono; [by apply (aw_permission s1 Hw1)| |done|done].
      intros j q' Hj. cbn in Hj. destruct (Hold _ _ Hj) as [_ Hne']. exists q'. cbn. by rewrite lookup_insert_ne.
  - intros i j q q'. rewrite !lookup_insert_Some. intros [[<- <-]|[Hi Hq]] [[<- <-]|[Hj Hq']] Ho Hnm; [done|..].
    + destruct (by_owner_none s1 _ j q' E Hq'); by cbn.
    + destruct (by_owner_none s1 _ i q E Hq); by cbn.
    + by eapply (aw_unique s Hw).
  - intros i j q q'. rewrite !lookup_insert_Some.
    assert (∀ k x, permissions s !! k = Some x → k ≠ 0 → po_usage_id x ≠ next_usage s) as Hu.
    { intros k x Hk Hk0. destruct (pw_usage _ _ _ (aw_permission s Hw _ _ Hk Hk0)). lia. }
    intros [[<- <-]|[Hi Hq]] [[<- <-]|[Hj Hq']] Hi0 Hj0 Hus; [done|..].
    + by destruct (Hu _ _ Hq' Hj0).
    + by destruct (Hu _ _ Hq Hi0).
    + by eapply (aw_usage s Hw).
Qed.

Lemma modify_permission_wf s now p auth :
  auth_wf s → permissions s !! po_id p = Some p → po_id p ≠ 0 → fields_typed auth →
  auth_wf (modify_permission now p auth s).2.
Proof.
  intros Hw Hp Hid Ht. unfold modify_permission, modify_st, set_permissions. cbn [snd].
  set (p' := mk_permission _ _ _ _ _ _ _).
  assert (∀ j q, <[po_id p := p']> (permissions s) !! j = Some q → ∃ q0, permissions s !! j = Some q0 ∧
    po_owner q = po_owner q0 ∧ po_name q = po_name q0 ∧ po_parent q = po_parent q0 ∧ po_usage_id q = po_usage_id q0 ∧
    po_id q = po_id q0 ∧ (q = q0 ∨ po_auth q = auth)) as Hback.
  { intros j q. rewrite lookup_insert_Some. intros [[<- <-]|[_ Hq]]; [exists p|exists q]; naive_solver. }
  split; cbn.
  - rewrite lookup_insert_ne by done. apply (aw_reserved s Hw).
  - apply (aw_next s Hw).
  - intros j q Hq. destruct (Hback j q Hq) as (q0 & Hq0 & _ & _ & _ & _ & -> & _). by apply (aw_id s Hw).
  - intros j q Hq Hj. destruct (Hback j q Hq) as (q0 & Hq0 & Ho & Hn & Hpa & Hu & _ & Ha).
    destruct (aw_permission s Hw _ _ Hq0 Hj) as [H1 H2 H3 H4 H5 H6].
    split; cbn; rewrite ?Ho, ?Hn, ?Hpa, ?Hu; try done.
    + destruct Ha as [->| ->]; done.
    + intros Hne. destruct (H5 Hne) as (r & Hr & Hro & Hlt).
      destruct (decide (po_id p = po_parent q0)) as [He|]; [|exists r; by rewrite lookup_insert_ne].
      exists p'. rewrite He, lookup_insert_eq. split_and!; [done| |done]. rewrite <- He, Hp in Hr. by injection Hr as <-.
  - intros i j q q' Hq Hq' Ho Hn. destruct (Hback _ _ Hq) as (x & ? & ? & ? & _). destruct (Hback _ _ Hq') as (y & ? & ? & ? & _).
    apply (aw_unique s Hw i j x y); congruence.
  - intros i j q q' Hq Hq' Hi Hj Hu. destruct (Hback _ _ Hq) as (x & ? & _ & _ & _ & ? & _).
    destruct (Hback _ _ Hq') as (y & ? & _ & _ & _ & ? & _). apply (aw_usage s Hw i j x y); congruence.
Qed.

Lemma remove_permission_wf s p :
  auth_wf s → permissions s !! po_id p = Some p → po_id p ≠ 0 → auth_wf (remove_permission p s).2.
Proof.
  intros Hw Hp Hid. unfold remove_permission, mbind, st_bind, get_st. cbn.
  case_bool_decide as Hc; cbn; [|done]. case_bool_decide as Hus; cbn; [|done].
  split; cbn.
  - rewrite lookup_delete_ne by done. apply (aw_reserved s Hw).
  - apply (aw_next s Hw).
  - intros id q [_ Hq]%lookup_delete_Some. by apply (aw_id s Hw).
  - intros id q [Hne Hq]%lookup_delete_Some Hid'. destruct (aw_permission s Hw _ _ Hq Hid') as [H1 H2 H3 H4 H5 [H6 H7]].
    split; cbn; try done.
    + intros Hpar. destruct (H5 Hpar) as (r & Hr & ?). exists r. rewrite lookup_delete_ne; [done|].
      intros He. assert (q ∈ children s (po_id p)) as Hin; [|rewrite Hc in Hin; by apply elem_of_nil in Hin].
      apply list_elem_of_filter. split; [done|]. apply list_elem_of_fmap. exists (id, q). split; [done|by apply elem_of_map_to_list].
    + rewrite lookup_delete_ne; [done|]. intros He. apply Hne. by eapply (aw_usage s Hw).
  - intros i j q q' [_ Hq]%lookup_delete_Some [_ Hq']%lookup_delete_Some. by eapply (aw_unique s Hw).
  - intros i j q q' [_ Hq]%lookup_delete_Some [_ Hq']%lookup_delete_Some. by eapply (aw_usage s Hw).
Qed.

Lemma set_links_wf s m : auth_wf s → auth_wf (set_links m s).
Proof.
  intros Hw. split; cbn; try apply Hw. intros id p Hp Hid.
  eapply permission_wf_mono; [by apply (aw_permission s Hw)|eauto|done|done].
Qed.

(** ** An example: one account with an owner and an active permission *)

Module ManagerDemo.
#[local] Instance no_data : Unpack :=
  { unpack_updateauth := fun _ => Err std_out_of_range; unpack_deleteauth := fun _ => Err std_out_of_range;
    unpack_linkauth := fun _ => Err std_out_of_range; unpack_unlinkauth := fun _ => Err std_out_of_range;
    unpack_canceldelay := fun _ => Err std_out_of_range; unpack_actions := fun _ => Err std_out_of_range }.

Definition owner_key : authority := authority_of_key 10 0.
Definition active_key : authority := authority_of_key 11 0.
Definition root : permission_object := mk_permission 1 0 0 7 config.owner_name 5 owner_key.
Definition active : permission_object := mk_permission 2 1 1 7 config.active_name 5 active_key.

Definition with_owner : auth_db := (create_permission 5 7 config.owner_name 0 owner_key 0 initialize_database).2.
Definition db : auth_db := (create_permission 5 7 config.active_name 1 active_key 0 with_owner).2.

Lemma with_owner_wf : auth_wf with_owner.
Proof.
  apply create_permission_wf; [apply initialize_database_wf|done|by vm_compute| |].
  - unfold fields_typed. repeat constructor; by vm_compute.
  - split; [done|]. by intros [].
Qed.

Lemma db_wf : auth_wf db.
Proof.
  apply create_permission_wf; [apply with_owner_wf|done|by vm_compute| |].
  - unfold fields_typed. repeat constructor; by vm_compute.
  - split; [by vm_compute|]. intros _. exists root. by vm_compute.
Qed.

Definition view : control_view := mk_control 3888000 6 ∅.
Definition transfer : action := mk_action 99 5 [mk_level 7 config.active_name] [].

Lemma accepted : check_authorization db view (fun _ => Ok ()) [transfer] [11] ∅ 0 false ∅ = Ok ().
Proof. vm_compute. reflexivity. Qed.

Lemma transfer_plain : check_special db view (effective_delay view 0) transfer = Ok (false, 0).
Proof. vm_compute. reflexivity. Qed.
End ManagerDemo.

Lemma satisfies_is_ancestor_witness :
  ∃ b, satisfies ManagerDemo.db ManagerDemo.root ManagerDemo.active = Ok b ∧
    (b = true ↔ po_owner ManagerDemo.root = po_owner ManagerDemo.active ∧ rtc (parent_of ManagerDemo.db) 2 1).
Proof.
  apply (satisfies_is_ancestor ManagerDemo.db ManagerDemo.root ManagerDemo.active ManagerDemo.db_wf);
    [vm_compute; reflexivity|vm_compute; reflexivity|done].
Defined.

Lemma check_authorization_sound_witness :
  approved (make_checker ManagerDemo.db ManagerDemo.view [11] ∅ 0) (mk_level 7 config.active_name).
Proof.
  destruct (@check_authorization_sound ManagerDemo.no_data ManagerDemo.db ManagerDemo.view (fun _ => Ok ())
              [ManagerDemo.transfer] [11] ∅ 0 false ∅ ManagerDemo.db_wf ManagerDemo.accepted
              ManagerDemo.transfer (mk_level 7 config.active_name) ltac:(left) ltac:(left))
    as (special & d & Hs & _ & [Hin|Hd]).
  - by apply elem_of_empty in Hin.
  - rewrite ManagerDemo.transfer_plain in Hs. injection Hs as _ <-. exact Hd.
Defined.
End AuthorizationManager.
