(* ===== verification/NativeContract.v ===== *)
(** * The native system contract

    [eosio_contract.cpp] with what its handlers use of [apply_context.cpp],
    [transaction_context.cpp], [config_on_chain.cpp] and of the lists and the
    guaranteed resources of [controller.cpp]: accounts, code, permissions, links,
    delayed transactions and the configuration kept on chain.

    A handler runs in a [context]: the database, the lists the node keeps in
    memory, the marks of the action's authorizations, and what is noted about RAM
    for the rest of the transaction.  Hashing, WASM validation and the decoding of
    action data are the class [NativeEnv]. *)

From S2P Require Import Prelude Exceptions Name Merkle BlockHeader EosLib ResourceLimits Authority AuthorizationManager.

Module Native.
Import AuthorizationManager.

(** ** Objects *)

(** The type and version of the virtual machine stay zero. *)
Record account_object : Type := mk_account
  { ao_privileged : bool; ao_last_code_update : Z; ao_code_version : digest_type;
    ao_creation_date : Z; ao_code : bytes; ao_abi : bytes }.
Record account_sequence_object : Type := mk_sequence
  { recv_sequence : Z; auth_sequence : Z; code_sequence : Z; abi_sequence : Z }.

Record config_data_object : Type := mk_config_data { cd_num : Z; cd_key : Z; cd_fee : Z * Z }.

(** Three of the lists of [controller::config]. *)
Record name_lists : Type := mk_lists
  { actor_blacklist : gset Z; contract_blacklist : gset Z; resource_greylist : gset Z }.

(** [force_property_object]: the lists as vectors, and the guaranteed resources. *)
Record force_property_object : Type := mk_force
  { fp_actor : list Z; fp_contract : list Z; fp_greylist : list Z; fp_gmr : ResourceLimits.gmr_parameters }.

Record database : Type := mk_database
  { accounts_db : gmap Z account_object; sequences : gmap Z account_sequence_object;
    auth : auth_db; limits : ResourceLimits.rl_db;
    gtrxs : gmap digest_type generated_transaction_object;
    config_data : gmap Z config_data_object; force_property : force_property_object }.

Record context : Type := mk_context
  { db : database; conf : name_lists; used_authorizations : list bool;
    ram_deltas : gmap Z Z; validate_ram_usage : gset Z }.

Abbreviation NC := (ST context exn).

Definition set_db (d : database) (x : context) : context :=
  mk_context d (conf x) (used_authorizations x) (ram_deltas x) (validate_ram_usage x).
Definition set_accounts (m : gmap Z account_object) (d : database) : database :=
  mk_database m (sequences d) (auth d) (limits d) (gtrxs d) (config_data d) (force_property d).
Definition set_sequences (m : gmap Z account_sequence_object) (d : database) : database :=
  mk_database (accounts_db d) m (auth d) (limits d) (gtrxs d) (config_data d) (force_property d).
Definition set_auth (a : auth_db) (d : database) : database :=
  mk_database (accounts_db d) (sequences d) a (limits d) (gtrxs d) (config_data d) (force_property d).
Definition set_rl (l : ResourceLimits.rl_db) (d : database) : database :=
  mk_database (accounts_db d) (sequences d) (auth d) l (gtrxs d) (config_data d) (force_property d).
Definition set_gtrxs (g : gmap digest_type generated_transaction_object) (d : database) : database :=
  mk_database (accounts_db d) (sequences d) (auth d) (limits d) g (config_data d) (force_property d).
Definition set_config_data (c : gmap Z config_data_object) (d : database) : database :=
  mk_database (accounts_db d) (sequences d) (auth d) (limits d) (gtrxs d) c (force_property d).
Definition set_force (f : force_property_object) (d : database) : database :=
  mk_database (accounts_db d) (sequences d) (auth d) (limits d) (gtrxs d) (config_data d) f.

Definition get_db : NC database := gets db.
Definition modify_db (f : database → database) : NC () := modify_st (fun x => set_db (f (db x)) x).

(** Operations of the managers on their part of the database. *)
Definition on_auth {A} (m : ST auth_db exn A) : NC A :=
  fun x => let '(r, a) := m (auth (db x)) in (r, set_db (set_auth a (db x)) x).
Definition on_limits {A} (m : ST ResourceLimits.rl_db exn A) : NC A :=
  fun x => let '(r, l) := m (limits (db x)) in (r, set_db (set_rl l (db x)) x).

(** [FC_CAPTURE_AND_RETHROW] around a body. *)
Definition captured {A} (m : NC A) : NC A :=
  fun x => match m x with
           | (Err e, x') => (Err (fc_capture_and_rethrow e), x')
           | r => r
           end.

(** ** Action data *)

Record newaccount : Type := mk_newaccount
  { na_creator : Z; na_name : Z; na_owner : authority; na_active : authority; na_vid : Z }.
Record setcode : Type := mk_setcode { sc_account : Z; sc_vmtype : Z; sc_vmversion : Z; sc_code : bytes }.
Record setabi : Type := mk_setabi { sa_account : Z; sa_abi : bytes }.
(** A fee is an amount and a symbol. *)
Record setconfig : Type := mk_setconfig { cfg_typ : Z; cfg_num : Z; cfg_key : Z; cfg_fee : Z * Z }.

Class NativeEnv : Type :=
  { native_unpack :: Unpack;
    unpack_newaccount : bytes → R newaccount;
    unpack_setcode : bytes → R setcode;
    unpack_setabi : bytes → R setabi;
    unpack_setconfig : bytes → R setconfig;
    (** [fc::sha256::hash] of code *)
    code_hash : bytes → digest_type;
    (** [wasm_interface::validate] *)
    wasm_validate : bytes → R ();
    (** [fc::raw::pack_size] of a key *)
    key_pack_size : public_key_type → Z }.

(** What the handlers read of the controller and the transaction. *)
Record block_env : Type := mk_block_env
  { pending_block_time : Z; head_block_num : Z; be_max_transaction_delay : Z;
    (** [enforce_whiteblacklist && is_producing_block()] *)
    enforce_lists : bool; key_blacklist : gset Z }.

Definition billable_authority : Z := billable_size_v (3 * 16 + 4).
Definition billable_permission : Z := billable_size_v (billable_authority + 64 + 5 * 32).
Definition billable_link : Z := billable_size_v (40 + 3 * 32).
Definition billable_generated : Z := billable_size_v (96 + 4 + 5 * 32).

Definition producers_account_name : Z := Name.N "bacc.prods".
Definition chain_config_name : Z := Name.N "bacc.config".
Definition eosio_code_name : Z := Name.N "bacc.code".

(** ** Configuration on chain ([config_on_chain.cpp]) *)

Definition is_open_set_code : Z := Name.N "f.setcode".
Definition chain_maintain_stat : Z := Name.N "f.maintain".

Definition get_num_config_on_chain (d : database) (typ default_value : Z) : Z :=
  match config_data d !! typ with Some c => cd_num c | None => default_value end.

Definition set_num_config_on_chain (typ num : Z) (d : database) : database :=
  set_config_data
    (<[typ := match config_data d !! typ with
              | Some c => mk_config_data num (cd_key c) (cd_fee c)
              | None => mk_config_data num 0 (0, Symbol.CORE_SYMBOL)
              end]> (config_data d)) d.

Definition set_config_on_chain (cfg : setconfig) (d : database) : database :=
  set_config_data (<[cfg_typ cfg := mk_config_data (cfg_num cfg) (cfg_key cfg) (cfg_fee cfg)]> (config_data d)) d.

Definition is_func_has_open (d : database) (head_num typ : Z) : bool :=
  let open_num := get_num_config_on_chain d typ (-1) in
  if (open_num <? 0) || (head_num <? 0) then false else open_num <=? head_num.

Definition is_func_open_in_curr_block (d : database) (head_num typ default_open_block : Z) : bool :=
  let open_num := get_num_config_on_chain d typ (-1) in
  if open_num <? 0 then (0 <? default_open_block) && (head_num =? default_open_block)
  else if head_num <? 0 then false else head_num =? open_num.

(** [controller::check_action]: in maintenance only configuration is accepted. *)
Definition check_action (d : database) (head_num : Z) (actions : list action) : R () :=
  let stopped := is_func_has_open d head_num chain_maintain_stat in
  fold_result (fun _ a =>
    eos_assert (negb stopped
      || ((act_account a =? config.system_account_name)
          && ((act_name a =? Name.N "setconfig") || (act_name a =? Name.N "onblock")))
      || ((act_account a =? config.token_account_name) && (act_name a =? Name.N "fee")))
      invalid_action_args_exception) () actions.

(** ** Lists and guaranteed resources of the controller *)

Inductive list_type : Type := actor_blacklist_type | contract_blacklist_type | resource_greylist_type.
Inductive list_action_type : Type := insert_type | remove_type.

Definition get_list (t : list_type) (l : name_lists) : gset Z :=
  match t with
  | actor_blacklist_type => actor_blacklist l
  | contract_blacklist_type => contract_blacklist l
  | resource_greylist_type => resource_greylist l
  end.
Definition set_list (t : list_type) (v : gset Z) (l : name_lists) : name_lists :=
  match t with
  | actor_blacklist_type => mk_lists v (contract_blacklist l) (resource_greylist l)
  | contract_blacklist_type => mk_lists (actor_blacklist l) v (resource_greylist l)
  | resource_greylist_type => mk_lists (actor_blacklist l) (contract_blacklist l) v
  end.
Definition get_vector (t : list_type) (f : force_property_object) : list Z :=
  match t with
  | actor_blacklist_type => fp_actor f
  | contract_blacklist_type => fp_contract f
  | resource_greylist_type => fp_greylist f
  end.
Definition set_vector (t : list_type) (v : list Z) (f : force_property_object) : force_property_object :=
  match t with
  | actor_blacklist_type => mk_force v (fp_contract f) (fp_greylist f) (fp_gmr f)
  | contract_blacklist_type => mk_force (fp_actor f) v (fp_greylist f) (fp_gmr f)
  | resource_greylist_type => mk_force (fp_actor f) (fp_contract f) v (fp_gmr f)
  end.

(** A [flat_set] is walked in ascending order. *)
Definition in_ascending (s : gset Z) : list Z := merge_sort Z.le (elements s).

(** [sync_list_and_db], which merges the vector into the list first if asked to. *)
Definition sync_name_list (t : list_type) (isMerge : bool) : NC () :=
  modify_st (fun x =>
    let l := if isMerge then set_list t (get_list t (conf x) ∪ list_to_set (get_vector t (force_property (db x)))) (conf x)
             else conf x in
    mk_context (set_force (set_vector t (in_ascending (get_list t l)) (force_property (db x))) (db x)) l
      (used_authorizations x) (ram_deltas x) (validate_ram_usage x)).

Definition set_name_list (t : list_type) (a : list_action_type) (names : list Z) : NC () :=
  modify_st (fun x => mk_context (db x)
    (set_list t (match a with
                 | insert_type => get_list t (conf x) ∪ list_to_set names
                 | remove_type => get_list t (conf x) ∖ list_to_set names
                 end) (conf x))
    (used_authorizations x) (ram_deltas x) (validate_ram_usage x)) ;;
  sync_name_list t false.

Definition set_list_config_on_chain (cfg : setconfig) : NC () :=
  let t := if cfg_typ cfg =? Name.N "l.actblack" then Some actor_blacklist_type
           else if cfg_typ cfg =? Name.N "l.crtblack" then Some contract_blacklist_type
           else if cfg_typ cfg =? Name.N "l.resgrey" then Some resource_greylist_type else None in
  match t with
  | None => mret ()
  | Some t =>
      if cfg_num cfg =? 1 then set_name_list t insert_type [cfg_key cfg]
      else if cfg_num cfg =? 2 then set_name_list t remove_type [cfg_key cfg]
      else mret ()
  end.

Inductive gmr_type : Type := cpu_us_type | ram_byte_type | net_byte_type.

(** [sync_fpo_and_resource]: one of the three values. *)
Definition change_gmr (t : gmr_type) (value : Z) (g : ResourceLimits.gmr_parameters) : ResourceLimits.gmr_parameters :=
  match t with
  | cpu_us_type => ResourceLimits.mk_gmr (ResourceLimits.ram_byte g) value (ResourceLimits.net_byte g)
  | ram_byte_type => ResourceLimits.mk_gmr value (ResourceLimits.cpu_us g) (ResourceLimits.net_byte g)
  | net_byte_type => ResourceLimits.mk_gmr (ResourceLimits.ram_byte g) (ResourceLimits.cpu_us g) value
  end.

Definition set_gmr_config (t : gmr_type) (value : Z) : NC () :=
  modify_db (fun d => let f := force_property d in
    set_force (mk_force (fp_actor f) (fp_contract f) (fp_greylist f) (change_gmr t value (fp_gmr f))) d) ;;
  d ← get_db;
  on_limits (ResourceLimits.set_gmr_parameters (fp_gmr (force_property d))).

Definition set_guaranteed_minimum_config (cfg : setconfig) : NC () :=
  if cfg_typ cfg =? Name.N "gmr.cpu" then set_gmr_config cpu_us_type (u64 (cfg_num cfg))
  else if cfg_typ cfg =? Name.N "gmr.ram" then set_gmr_config ram_byte_type (u64 (cfg_num cfg))
  else if cfg_typ cfg =? Name.N "gmr.net" then set_gmr_config net_byte_type (u64 (cfg_num cfg))
  else mret ().

(** ** The context of an action ([apply_context.cpp]) *)

Section Handlers.
Context `{NativeEnv} (env : block_env) (act : action).

Definition require_authorization (account : Z) : NC () :=
  match list_find (fun l => actor l = account) (act_authorization act) with
  | Some (i, _) =>
      modify_st (fun x => mk_context (db x) (conf x) (<[i := true]> (used_authorizations x)) (ram_deltas x)
                            (validate_ram_usage x))
  | None => throw missing_auth_exception
  end.

Definition has_authorization (account : Z) : bool :=
  existsb (fun l => actor l =? account) (act_authorization act).

(** [apply_context::add_ram_usage] and [transaction_context::add_ram_usage]. *)
Definition add_ram_usage (account ram_delta : Z) : NC () :=
  on_limits (ResourceLimits.add_pending_ram_usage account ram_delta) ;;
  modify_st (fun x => mk_context (db x) (conf x) (used_authorizations x)
    (<[account := match ram_deltas x !! account with Some d => i64 (d + ram_delta) | None => ram_delta end]> (ram_deltas x))
    (if 0 <? ram_delta then {[account]} ∪ validate_ram_usage x else validate_ram_usage x)).

Definition cancel_deferred_transaction (sender_id sender : Z) : NC bool :=
  d ← get_db;
  match find (fun g => (gt_sender g.2 =? sender) && (gt_sender_id g.2 =? sender_id)) (map_to_list (gtrxs d)) with
  | Some (id, g) =>
      add_ram_usage (gt_payer g) (i64 (- (billable_generated + Z.of_nat (length (gt_packed_trx g))))) ;;
      modify_db (fun d => set_gtrxs (delete id (gtrxs d)) d) ;;
      mret true
  | None => mret false
  end.

(** [db.get<account_object, by_name>] *)
Definition get_account (d : database) (a : Z) : R account_object := of_option (accounts_db d !! a) std_out_of_range.

Definition has_account (d : database) (a : Z) : bool := bool_decide (is_Some (accounts_db d !! a)).

Definition check_key_list (k : public_key_type) : R () :=
  if bool_decide (key_blacklist env = ∅) then mret ()
  else eos_assert (negb (bool_decide (k ∈ key_blacklist env))) key_blacklist_exception.

(** ** The handlers ([eosio_contract.cpp]) *)

Definition transaction_id_to_sender_id (tid : digest_type) : Z := hash3 tid * 2 ^ 64 + hash2 tid.

Definition check_account_factor (d : database) (p : permission_level_weight) : R () :=
  let l := plw_permission p in
  eos_assert (has_account d (actor l)) action_validate_exception ;;
  if (permission l =? config.owner_name) || (permission l =? config.active_name) then mret ()
  else if permission l =? eosio_code_name then mret ()
  else match get_permission (auth d) l with
       | Ok _ => mret ()
       | Err e => Err (if derives_from e permission_query_exception then action_validate_exception else e)
       end.

Definition validate_authority_precondition (d : database) (a : authority) : R () :=
  fold_result (fun _ p => check_account_factor d p) () (accounts a) ;;
  if enforce_lists env then fold_result (fun _ k => check_key_list (kw_key k)) () (keys a) else mret ().

Definition reserved_name (n : Z) : bool :=
  ResourceLimits.starts_with "noc." n || ResourceLimits.starts_with "rank." n
  || ResourceLimits.starts_with "bacc." n || ResourceLimits.starts_with "sys." n.

Definition billable (a : authority) : Z := get_billable_size key_pack_size a.

Definition create_account (create : newaccount) : NC () :=
  require_authorization (na_creator create) ;;
  st_assert (Authority.validate (na_owner create)) action_validate_exception ;;
  st_assert (Authority.validate (na_active create)) action_validate_exception ;;
  st_assert (negb (na_name create =? 0)) action_validate_exception ;;
  st_assert (bool_decide (length (Name.to_string (na_name create)) ≤ 12)%nat) action_validate_exception ;;
  d ← get_db;
  creator ← lift (get_account d (na_creator create));
  st_assert (negb (ao_privileged creator)) action_validate_exception ;;
  st_assert ((na_creator create =? config.system_account_name) || (na_creator create =? producers_account_name)
             || (na_creator create =? chain_config_name) || negb (reserved_name (na_name create)))
    action_validate_exception ;;
  st_assert (negb (has_account d (na_name create))) account_name_exists_exception ;;
  modify_db (fun d => set_accounts (<[na_name create :=
    mk_account false 0 digest0 (Timestamp.of_time_point (pending_block_time env)) [] []]> (accounts_db d)) d) ;;
  st_assert (negb (bool_decide (is_Some (sequences d !! na_name create)))) std_logic_error ;;
  modify_db (fun d => set_sequences (<[na_name create := mk_sequence 0 0 0 0]> (sequences d)) d) ;;
  d ← get_db;
  lift (validate_authority_precondition d (na_owner create)) ;;
  lift (validate_authority_precondition d (na_active create)) ;;
  owner_permission ← on_auth (create_permission (pending_block_time env) (na_name create) config.owner_name 0
                                (na_owner create) 0);
  active_permission ← on_auth (create_permission (pending_block_time env) (na_name create) config.active_name
                                 (po_id owner_permission) (na_active create) 0);
  on_limits (ResourceLimits.initialize_account (na_name create)) ;;
  add_ram_usage (na_name create)
    (i64 (2 * 1024 + 2 * billable_permission + billable (po_auth owner_permission) + billable (po_auth active_permission))).

Definition apply_system_native_newaccount : NC () :=
  create ← lift (data_as (Name.N "newaccount") unpack_newaccount act);
  captured (create_account create).

(** Who pays for code and ABI. *)
Definition code_payer (d : database) (account : Z) : Z :=
  if is_func_has_open d (head_block_num env) is_open_set_code then account else config.system_account_name.

Definition apply_system_native_setcode : NC () :=
  a ← lift (data_as (Name.N "setcode") unpack_setcode act);
  d ← get_db;
  let pay_account := code_payer d (sc_account a) in
  st_assert (sc_vmtype a =? 0) invalid_contract_vm_type ;;
  st_assert (sc_vmversion a =? 0) invalid_contract_vm_version ;;
  code_id ← (match sc_code a with
             | [] => mret digest0
             | _ => lift (wasm_validate (sc_code a)) ;; mret (code_hash (sc_code a))
             end);
  account ← lift (get_account d (sc_account a));
  let old_size := i64 (Z.of_nat (length (ao_code account)) * 10) in
  let new_size := i64 (Z.of_nat (length (sc_code a)) * 10) in
  st_assert (negb (bool_decide (ao_code_version account = code_id))) set_exact_code ;;
  modify_db (fun d => set_accounts (<[sc_account a :=
    mk_account (ao_privileged account) (pending_block_time env) code_id (ao_creation_date account) (sc_code a)
      (ao_abi account)]> (accounts_db d)) d) ;;
  seq ← lift (of_option (sequences d !! sc_account a) std_out_of_range);
  modify_db (fun d => set_sequences (<[sc_account a :=
    mk_sequence (recv_sequence seq) (auth_sequence seq) (u64 (code_sequence seq + 1)) (abi_sequence seq)]> (sequences d)) d) ;;
  if new_size =? old_size then mret () else add_ram_usage pay_account (i64 (new_size - old_size)).

Definition apply_system_native_setabi : NC () :=
  a ← lift (data_as (Name.N "setabi") unpack_setabi act);
  d ← get_db;
  let pay_account := code_payer d (sa_account a) in
  require_authorization pay_account ;;
  account ← lift (get_account d (sa_account a));
  let old_size := Z.of_nat (length (ao_abi account)) in
  let new_size := Z.of_nat (length (sa_abi a)) in
  modify_db (fun d => set_accounts (<[sa_account a :=
    mk_account (ao_privileged account) (ao_last_code_update account) (ao_code_version account)
      (ao_creation_date account) (ao_code account) (sa_abi a)]> (accounts_db d)) d) ;;
  seq ← lift (of_option (sequences d !! sa_account a) std_out_of_range);
  modify_db (fun d => set_sequences (<[sa_account a :=
    mk_sequence (recv_sequence seq) (auth_sequence seq) (code_sequence seq) (u64 (abi_sequence seq + 1))]> (sequences d)) d) ;;
  if new_size =? old_size then mret () else add_ram_usage pay_account (new_size - old_size).

(** The checks of [updateauth] before it touches the table. *)
Definition check_update (update : updateauth) (d : database) : R () :=
  let name := ua_permission update in
  let parent := ua_parent update in
  eos_assert (negb (name =? 0)) action_validate_exception ;;
  eos_assert (negb (ResourceLimits.starts_with "eosio." name)) action_validate_exception ;;
  eos_assert (negb (ResourceLimits.starts_with "noc." name)) action_validate_exception ;;
  eos_assert (negb (ResourceLimits.starts_with "bacc." name)) action_validate_exception ;;
  eos_assert (negb (name =? parent)) action_validate_exception ;;
  get_account d (ua_account update) ;;
  eos_assert (Authority.validate (ua_auth update)) action_validate_exception ;;
  (if name =? config.active_name then eos_assert (parent =? config.owner_name) action_validate_exception else mret ()) ;;
  (if name =? config.owner_name then eos_assert (parent =? 0) action_validate_exception
   else eos_assert (negb (parent =? 0)) action_validate_exception) ;;
  (match last (waits (ua_auth update)) with
   | Some w => eos_assert (wait_sec w <=? be_max_transaction_delay env) action_validate_exception
   | None => mret ()
   end) ;;
  validate_authority_precondition d (ua_auth update).

Definition apply_update (update : updateauth) : NC () :=
  require_authorization (ua_account update) ;;
  d ← get_db;
  lift (check_update update d) ;;
  permission ← lift (find_permission (auth d) (mk_level (ua_account update) (ua_permission update)));
  parent_id ← (if ua_permission update =? config.owner_name then mret 0
               else parent ← lift (get_permission (auth d) (mk_level (ua_account update) (ua_parent update)));
                    mret (po_id parent));
  match permission with
  | Some p =>
      st_assert (parent_id =? po_parent p) action_validate_exception ;;
      on_auth (modify_permission (pending_block_time env) p (ua_auth update)) ;;
      let old_size := i64 (billable_permission + billable (po_auth p)) in
      let new_size := i64 (billable_permission + billable (ua_auth update)) in
      add_ram_usage (po_owner p) (i64 (new_size - old_size))
  | None =>
      p ← on_auth (create_permission (pending_block_time env) (ua_account update) (ua_permission update) parent_id
                     (ua_auth update) 0);
      add_ram_usage (ua_account update) (i64 (billable_permission + billable (po_auth p)))
  end.

Definition apply_system_native_updateauth : NC () :=
  update ← lift (data_as updateauth_name unpack_updateauth act);
  apply_update update.

(** The range of [by_permission_name]. *)
Definition linked_to (d : database) (account permission : Z) : bool :=
  existsb (fun l => (l.1.1.1 =? account) && (l.2 =? permission)) (map_to_list (links (auth d))).

Definition apply_system_native_deleteauth : NC () :=
  remove ← lift (data_as deleteauth_name unpack_deleteauth act);
  require_authorization (da_account remove) ;;
  st_assert (negb (da_permission remove =? config.active_name)) action_validate_exception ;;
  st_assert (negb (da_permission remove =? config.owner_name)) action_validate_exception ;;
  d ← get_db;
  st_assert (negb (linked_to d (da_account remove) (da_permission remove))) action_validate_exception ;;
  p ← lift (get_permission (auth d) (mk_level (da_account remove) (da_permission remove)));
  let old_size := i64 (billable_permission + billable (po_auth p)) in
  on_auth (remove_permission p) ;;
  add_ram_usage (da_account remove) (i64 (- old_size)).

(** A permission of that name, of whichever account. *)
Definition permission_exists (d : database) (name : Z) : bool :=
  existsb (fun p => po_name p =? name) (map_to_list (permissions (auth d))).*2.

Definition apply_link (l : linkauth) : NC () :=
  st_assert (negb (la_requirement l =? 0)) action_validate_exception ;;
  require_authorization (la_account l) ;;
  d ← get_db;
  st_assert (has_account d (la_account l)) account_query_exception ;;
  st_assert (has_account d (la_code l)) account_query_exception ;;
  st_assert ((la_requirement l =? config.eosio_any_name) || permission_exists d (la_requirement l))
    permission_query_exception ;;
  let key := (la_account l, la_code l, la_type l) in
  match links (auth d) !! key with
  | Some required =>
      st_assert (negb (required =? la_requirement l)) action_validate_exception ;;
      modify_db (fun d => set_auth (set_links (<[key := la_requirement l]> (links (auth d))) (auth d)) d)
  | None =>
      modify_db (fun d => set_auth (set_links (<[key := la_requirement l]> (links (auth d))) (auth d)) d) ;;
      add_ram_usage (la_account l) billable_link
  end.

Definition apply_system_native_linkauth : NC () :=
  l ← lift (data_as linkauth_name unpack_linkauth act);
  captured (apply_link l).

Definition apply_system_native_unlinkauth : NC () :=
  u ← lift (data_as unlinkauth_name unpack_unlinkauth act);
  require_authorization (ul_account u) ;;
  d ← get_db;
  let key := (ul_account u, ul_code u, ul_type u) in
  st_assert (bool_decide (is_Some (links (auth d) !! key))) action_validate_exception ;;
  add_ram_usage (ul_account u) (- billable_link) ;;
  modify_db (fun d => set_auth (set_links (delete key (links (auth d))) (auth d)) d).

Definition apply_system_native_canceldelay : NC () :=
  c ← lift (data_as canceldelay_name unpack_canceldelay act);
  require_authorization (actor (canceling_auth c)) ;;
  _ ← cancel_deferred_transaction (transaction_id_to_sender_id (cd_trx_id c)) 0;
  mret ().

Definition apply_system_native_setconfig : NC () :=
  cfg ← lift (data_as (Name.N "setconfig") unpack_setconfig act);
  st_assert (has_authorization chain_config_name || has_authorization producers_account_name) missing_auth_exception ;;
  modify_db (set_config_on_chain cfg) ;;
  set_list_config_on_chain cfg ;;
  set_guaranteed_minimum_config cfg.

(** [find_apply_handler]: the handlers the controller sets for the system account. *)
Definition native_handler (name : Z) : option (NC ()) :=
  if name =? Name.N "newaccount" then Some apply_system_native_newaccount
  else if name =? Name.N "setcode" then Some apply_system_native_setcode
  else if name =? Name.N "setabi" then Some apply_system_native_setabi
  else if name =? updateauth_name then Some apply_system_native_updateauth
  else if name =? deleteauth_name then Some apply_system_native_deleteauth
  else if name =? linkauth_name then Some apply_system_native_linkauth
  else if name =? unlinkauth_name then Some apply_system_native_unlinkauth
  else if name =? canceldelay_name then Some apply_system_native_canceldelay
  else if name =? Name.N "setconfig" then Some apply_system_native_setconfig
  else None.
End Handlers.

(** ** The state stays well formed *)

Definition has_permission (a : auth_db) (owner name : Z) : Prop :=
  ∃ id p, permissions a !! id = Some p ∧ po_owner p = owner ∧ po_name p = name.

Record chain_wf (d : database) : Prop := mk_chain_wf
  { cw_auth : auth_wf (auth d);
    cw_owner : ∀ id p, permissions (auth d) !! id = Some p → id ≠ 0 → is_Some (accounts_db d !! po_owner p);
    cw_account : ∀ a, is_Some (accounts_db d !! a) →
      a ≠ 0 ∧ has_permission (auth d) a config.owner_name ∧ has_permission (auth d) a config.active_name ∧
      is_Some (sequences d !! a) ∧
      is_Some (ResourceLimits.usages (limits d) !! a) ∧ is_Some (ResourceLimits.actual_limits (limits d) !! a) }.

Lemma is_Some_put {A} (m : gmap Z A) k v j : is_Some (m !! j) → is_Some (<[k := v]> m !! j).
Proof. intros [x Hx]. destruct (decide (k = j)) as [->|]; [rewrite lookup_insert_eq|rewrite lookup_insert_ne by done]; eauto. Qed.

(** A change of the database that keeps what [chain_wf] looks at. *)
Lemma chain_wf_mono d d' :
  chain_wf d → auth_wf (auth d') →
  (∀ a, is_Some (accounts_db d' !! a) ↔ is_Some (accounts_db d !! a)) →
  (∀ id p, permissions (auth d') !! id = Some p → id ≠ 0 → is_Some (accounts_db d !! po_owner p)) →
  (∀ a n, n = config.owner_name ∨ n = config.active_name → has_permission (auth d) a n → has_permission (auth d') a n) →
  (∀ a, is_Some (sequences d !! a) → is_Some (sequences d' !! a)) →
  (∀ a, is_Some (ResourceLimits.usages (limits d) !! a) → is_Some (ResourceLimits.usages (limits d') !! a)) →
  (∀ a, is_Some (ResourceLimits.actual_limits (limits d) !! a) → is_Some (ResourceLimits.actual_limits (limits d') !! a)) →
  chain_wf d'.
Proof.
  intros Hw Ha Hacc Ho Hp Hs Hu Hl. split; [done|..].
  - intros id p Hid H0. apply Hacc. eauto.
  - intros a Hacc'. apply Hacc in Hacc'. destruct (cw_account d Hw a Hacc') as (? & ? & ? & ? & ? & ?). split_and!; auto.
Qed.

Lemma chain_wf_account d a v :
  chain_wf d → is_Some (accounts_db d !! a) → chain_wf (set_accounts (<[a := v]> (accounts_db d)) d).
Proof.
  intros Hw Ha. apply (chain_wf_mono d); cbn; try apply Hw; auto.
  intros b. split; [|apply is_Some_put].
  destruct (decide (a = b)) as [->|]; [done|by rewrite lookup_insert_ne].
Qed.

Lemma chain_wf_sequence d a v : chain_wf d → chain_wf (set_sequences (<[a := v]> (sequences d)) d).
Proof. intros Hw. apply (chain_wf_mono d); cbn; try apply Hw; auto. intros b. apply is_Some_put. Qed.

Lemma chain_wf_same d d' :
  chain_wf d → auth d' = auth d → accounts_db d' = accounts_db d → sequences d' = sequences d → limits d' = limits d → chain_wf d'.
Proof. intros Hw Ha Hb Hc Hd. apply (chain_wf_mono d); rewrite ?Ha, ?Hb, ?Hc, ?Hd; try apply Hw; auto. Qed.

(** Accounts keep their limits and usage objects. *)
Lemma chain_wf_limits d l :
  chain_wf d → (∀ a, ResourceLimits.listed a (limits d) → ResourceLimits.listed a l) → chain_wf (set_rl l d).
Proof.
  intros Hw Hl. split; [apply Hw..|]. intros a Ha. destruct (cw_account d Hw a Ha) as (? & ? & ? & ? & Hu & Hr).
  destruct (Hl a (conj Hu Hr)). by split_and!.
Qed.

(** RAM is charged to an account that has a usage object. *)
Lemma add_pending_frame a delta l u l' :
  ResourceLimits.add_pending_ram_usage a delta l = (Ok u, l') →
  (∀ b, is_Some (ResourceLimits.usages l !! b) → is_Some (ResourceLimits.usages l' !! b)) ∧
  ResourceLimits.actual_limits l' = ResourceLimits.actual_limits l.
Proof.
  unfold ResourceLimits.add_pending_ram_usage. destruct (delta =? 0); intros Hd; simpl_ok; [done|].
  split; [|done]. intros b. cbn. apply is_Some_put.
Qed.

Lemma add_ram_usage_frame a delta x u x' :
  add_ram_usage a delta x = (Ok u, x') →
  ∃ l, db x' = set_rl l (db x) ∧
    (∀ b, is_Some (ResourceLimits.usages (limits (db x)) !! b) → is_Some (ResourceLimits.usages l !! b)) ∧
    ResourceLimits.actual_limits l = ResourceLimits.actual_limits (limits (db x)).
Proof.
  unfold add_ram_usage, on_limits. intros H. simpl_ok.
  destruct (ResourceLimits.add_pending_ram_usage _ _ _) as [r l] eqn:E. simplify_eq.
  apply add_pending_frame in E as [E1 E2]. by exists l.
Qed.

Lemma add_ram_usage_wf a delta x u x' : add_ram_usage a delta x = (Ok u, x') → chain_wf (db x) → chain_wf (db x').
Proof.
  intros (l & -> & Hu & Hl)%add_ram_usage_frame Hw. apply (chain_wf_mono (db x)); cbn; try apply Hw; auto. by rewrite Hl.
Qed.

Lemma maybe_add_ram_usage_wf (b : bool) a delta x u x' :
  (if b then mret () else add_ram_usage a delta) x = (Ok u, x') → chain_wf (db x) → chain_wf (db x').
Proof. destruct b; intros H; [by simpl_ok|by eapply add_ram_usage_wf]. Qed.

Lemma require_authorization_db act a x u x' : require_authorization act a x = (Ok u, x') → db x' = db x.
Proof. unfold require_authorization. destruct (list_find _ _) as [[]|]; intros H; simpl_ok; done. Qed.

Lemma require_authorization_ok act a x u x' :
  require_authorization act a x = (Ok u, x') → ∃ l, l ∈ act_authorization act ∧ actor l = a.
Proof.
  unfold require_authorization. destruct (list_find _ _) as [[i l]|] eqn:E; intros H; simpl_ok.
  apply list_find_Some in E as (Hi & ? & _). exists l. split; [by eapply list_elem_of_lookup_2|done].
Qed.

Lemma captured_ok {A} (m : NC A) x a x' : captured m x = (Ok a, x') → m x = (Ok a, x').
Proof. unfold captured. destruct (m x) as [[]]; naive_solver. Qed.

Lemma on_auth_ok {A} (m : ST auth_db exn A) x r x' :
  on_auth m x = (Ok r, x') → (m (auth (db x))).1 = Ok r ∧ x' = set_db (set_auth (m (auth (db x))).2 (db x)) x.
Proof. unfold on_auth. destruct (m _) as [r' a]. cbn. naive_solver. Qed.

Lemma get_account_ok d a o : get_account d a = Ok o → is_Some (accounts_db d !! a).
Proof. unfold get_account. intros H. simpl_ok. eauto. Qed.

Section Preservation.
Context `{NE : NativeEnv} (env : block_env) (act : action).
(** Decoded authorities have fields of their C++ types. *)
Context (Hua : ∀ b u, unpack_updateauth b = Ok u → fields_typed (ua_auth u)).
Context (Hna : ∀ b n, unpack_newaccount b = Ok n → fields_typed (na_owner n) ∧ fields_typed (na_active n)).

Implicit Types x : context.

Lemma data_as_ok {T} name (unpack : bytes → R T) t : data_as name unpack act = Ok t → unpack (act_data act) = Ok t.
Proof. unfold data_as. intros H. by simpl_ok. Qed.

(** Opens the steps of a successful handler. *)
Ltac open_handler :=
  unfold get_db, modify_db in *; simpl_ok;
  repeat match goal with
  | H : captured _ _ = (Ok _, _) |- _ => apply captured_ok in H; simpl_ok
  | H : data_as _ _ _ = Ok _ |- _ => apply data_as_ok in H
  | H : get_account _ _ = Ok _ |- _ => apply get_account_ok in H
  | H : require_authorization _ _ _ = (Ok _, _) |- _ => apply require_authorization_db in H
  end.

Lemma code_id_state (code : bytes) x i x' :
  (match code with
   | [] => mret digest0
   | _ => lift (wasm_validate code) ;; mret (code_hash code)
   end : NC digest_type) x = (Ok i, x') → x' = x.
Proof. destruct code; intros H; by simpl_ok. Qed.

Lemma setcode_wf x u x' : apply_system_native_setcode env act x = (Ok u, x') → chain_wf (db x) → chain_wf (db x').
Proof.
  intros H Hw. unfold apply_system_native_setcode in H. open_handler.
  match goal with H : match sc_code _ with _ => _ end _ = _ |- _ => apply code_id_state in H as -> end.
  eapply maybe_add_ram_usage_wf; [exact H|]. cbn.
  apply (chain_wf_sequence (set_accounts _ _)); by apply chain_wf_account.
Qed.

Lemma setabi_wf x u x' : apply_system_native_setabi env act x = (Ok u, x') → chain_wf (db x) → chain_wf (db x').
Proof.
  intros H Hw. unfold apply_system_native_setabi in H. open_handler.
  match goal with H : db _ = db x |- _ => rewrite <- H in * end.
  eapply maybe_add_ram_usage_wf; [exact H|]. cbn.
  apply (chain_wf_sequence (set_accounts _ _)); by apply chain_wf_account.
Qed.

(** Modifying or creating a permission of an account. *)
Lemma set_auth_modify d now p :
  chain_wf d → permissions (auth d) !! po_id p = Some p → po_id p ≠ 0 → ∀ a, fields_typed a →
  chain_wf (set_auth (modify_permission now p a (auth d)).2 d).
Proof.
  intros Hw Hp Hid a Ha. apply (chain_wf_mono d); cbn; try apply Hw; auto.
  - apply modify_permission_wf; [apply Hw|done..].
  - intros id q. rewrite lookup_insert_Some. intros [[<- <-]|[_ Hq]] H0; cbn; by eapply (cw_owner _ Hw).
  - intros b n _ (id & q & Hq & Ho & Hn). destruct (decide (po_id p = id)) as [<-|].
    + exists (po_id p). rewrite Hp in Hq. injection Hq as <-. eexists. cbn. rewrite lookup_insert_eq. by split.
    + exists id, q. cbn. by rewrite lookup_insert_ne.
Qed.

Lemma set_auth_create x account name parent a p t :
  chain_wf (db x) → is_Some (accounts_db (db x) !! account) → name ≠ 0 → fields_typed a →
  placed (auth (db x)) account name parent →
  (create_permission (pending_block_time env) account name parent a t (auth (db x))).1 = Ok p →
  chain_wf (set_auth (create_permission (pending_block_time env) account name parent a t (auth (db x))).2 (db x)).
Proof.
  intros Hw Hacc Hn Ha Hp Hc.
  destruct (create_permission_wf (auth (db x)) (pending_block_time env) account name parent a t (cw_auth _ Hw)) as [Haw Hr];
    [by apply (cw_account _ Hw)|done..|].
  destruct (Hr p Hc) as (Hpe & Hperm & _).
  assert (permissions (auth (db x)) !! next_permission (auth (db x)) = None) as Hfresh.
  { destruct (permissions _ !! _) as [q|] eqn:E; [|done]. apply (aw_id _ (cw_auth _ Hw)) in E as [_ ?]. lia. }
  apply (chain_wf_mono (db x)); cbn; try apply Hw; auto.
  - rewrite Hperm. intros id q. rewrite lookup_insert_Some. intros [[_ <-]|[_ Hq]] H0; [by subst p|by eapply (cw_owner _ Hw)].
  - intros b n _ (id & q & Hq & Ho & Hnm). exists id, q. rewrite Hperm, lookup_insert_ne; [done|]. congruence.
Qed.

(** What [check_update] leaves to know of an update. *)
Lemma check_update_ok update d :
  check_update env update d = Ok () →
  ua_permission update ≠ 0 ∧ is_Some (accounts_db d !! ua_account update) ∧
  (ua_permission update = config.owner_name ↔ ua_parent update = 0).
Proof.
  unfold check_update. intros H. open_handler. to_prop. split_and!; [done|done|].
  destruct (Z.eqb_spec (ua_permission update) config.owner_name) as [Heq|Hne]; simpl_ok; to_prop.
  - split; auto.
  - split; intros ?; contradiction.
Qed.

Lemma find_permission_ok a l o :
  auth_wf a → find_permission a l = Ok o →
  match o with
  | Some p => permissions a !! po_id p = Some p ∧ po_id p ≠ 0 ∧ po_owner p = actor l ∧ po_name p = permission l
  | None => by_owner a l = None
  end.
Proof.
  intros Hw. unfold find_permission, level_named, eos_assert.
  destruct (Z.eqb_spec (actor l) 0), (Z.eqb_spec (permission l) 0); cbn; try done. intros [= <-].
  destruct (by_owner a l) as [p|] eqn:E; [|done].
  apply by_owner_some in E as (id & Hp & Ho & Hn). destruct (aw_id a Hw _ _ Hp) as [Hi _]. rewrite Hi.
  split_and!; [done| |done|done]. intros ->. rewrite (aw_reserved a Hw) in Hp. injection Hp as <-. by cbn in Ho.
Qed.

(** The parent of an update: none for the owner permission, else a permission of
    the same account. *)
Lemma parent_placed (a : auth_db) account name parent x i x' :
  auth_wf a → (name = config.owner_name ↔ parent = 0) →
  (if name =? config.owner_name then mret 0
   else p ← lift (get_permission a (mk_level account parent)); mret (po_id p) : NC Z) x = (Ok i, x') →
  x' = x ∧ placed a account name i.
Proof.
  intros Hw Hroot H. unfold placed.
  destruct (Z.eqb_spec name config.owner_name) as [He|He]; simpl_ok; (split; [done|]).
  - split; [tauto|]. intros Hz. by destruct Hz.
  - destruct (get_permission_ok a _ _ Hw H0) as (Hp & Hid & Ho & _). cbn in Ho. split; [tauto|]. intros _. eauto.
Qed.

Lemma updateauth_wf x u x' : apply_system_native_updateauth env act x = (Ok u, x') → chain_wf (db x) → chain_wf (db x').
Proof using Hua.
  intros H Hw. unfold apply_system_native_updateauth, apply_update in H. open_handler.
  apply Hua in H0. rewrite <- H1 in Hw. destruct x6. apply check_update_ok in H3 as (Hn & Hacc & Hroot).
  apply (find_permission_ok _ _ _ (cw_auth _ Hw)) in H4.
  destruct (parent_placed _ _ _ _ _ _ _ (cw_auth _ Hw) Hroot H5) as [-> Hpl].
  destruct x8 as [p|]; simpl_ok.
  - apply on_auth_ok in H3 as [_ ->]. destruct H4 as (Hp & Hid & _).
    eapply add_ram_usage_wf; [exact H|]. by apply set_auth_modify.
  - apply on_auth_ok in H2 as [Hc ->].
    eapply add_ram_usage_wf; [exact H|]. by eapply set_auth_create.
Qed.

Lemma deleteauth_wf x u x' : apply_system_native_deleteauth act x = (Ok u, x') → chain_wf (db x) → chain_wf (db x').
Proof.
  intros H Hw. unfold apply_system_native_deleteauth in H. open_handler.
  match goal with H : db _ = db x |- _ => rewrite <- H in Hw end. to_prop.
  match goal with H : get_permission _ _ = Ok ?p |- _ =>
    apply (get_permission_ok _ _ _ (cw_auth _ Hw)) in H as (Hp & Hid & Ho & Hn & _) end. cbn in Hn.
  match goal with H : on_auth _ _ = _ |- _ => apply on_auth_ok in H as [Hr ->] end.
  eapply add_ram_usage_wf; [exact H|]. cbn.
  pose proof (remove_permission_wf _ _ (cw_auth _ Hw) Hp Hid) as Haw.
  unfold remove_permission, mbind, st_bind, get_st, st_assert, lift, put_st in *.
  case_bool_decide; [|done]. case_bool_decide; [|done]. cbn in *.
  apply (chain_wf_mono (db x3)); cbn; try apply Hw; auto.
  - intros id q [_ Hq]%lookup_delete_Some Hne. by eapply (cw_owner _ Hw).
  - intros b n Hbn (id & q & Hq & Hqo & Hqn). exists id, q. cbn. rewrite lookup_delete_ne; [done|].
    intros <-. rewrite Hp in Hq. injection Hq as <-. destruct Hbn; congruence.
Qed.

Lemma linkauth_wf x u x' : apply_system_native_linkauth act x = (Ok u, x') → chain_wf (db x) → chain_wf (db x').
Proof.
  intros H Hw. unfold apply_system_native_linkauth, apply_link in H. open_handler.
  match goal with H : db _ = db x |- _ => rewrite <- H in Hw end.
  assert (∀ d m, chain_wf d → chain_wf (set_auth (set_links m (auth d)) d)) as Hl.
  { intros d m Hd. apply (chain_wf_mono d); cbn; try apply Hd; auto. apply set_links_wf, Hd. }
  destruct (links _ !! _); simpl_ok; [by apply Hl|].
  eapply add_ram_usage_wf; [exact H|]. by apply Hl.
Qed.

Lemma unlinkauth_wf x u x' : apply_system_native_unlinkauth act x = (Ok u, x') → chain_wf (db x) → chain_wf (db x').
Proof.
  intros H Hw. unfold apply_system_native_unlinkauth in H. open_handler.
  match goal with H : db _ = db x |- _ => rewrite <- H in Hw end.
  match goal with H : add_ram_usage _ _ _ = _ |- _ => apply add_ram_usage_wf in H; [|done]; rename H into Hd end.
  cbn. apply (chain_wf_mono _ _ Hd); cbn; try apply Hd; auto. apply set_links_wf, Hd.
Qed.

Lemma canceldelay_wf x u x' : apply_system_native_canceldelay act x = (Ok u, x') → chain_wf (db x) → chain_wf (db x').
Proof.
  intros H Hw. unfold apply_system_native_canceldelay, cancel_deferred_transaction in H. open_handler.
  match goal with H : db _ = db x |- _ => rewrite <- H in Hw end.
  destruct (find _ _) as [[id g]|]; simpl_ok; [|done].
  match goal with H : add_ram_usage _ _ _ = _ |- _ => apply add_ram_usage_wf in H; [|done]; rename H into Hd end.
  by apply (chain_wf_same _ _ Hd).
Qed.

Lemma set_name_list_wf t a l x u x' : set_name_list t a l x = (Ok u, x') → chain_wf (db x) → chain_wf (db x').
Proof.
  unfold set_name_list, sync_name_list. intros H Hw. simpl_ok. by apply (chain_wf_same _ _ Hw).
Qed.

Lemma set_gmr_config_wf t v x u x' : set_gmr_config t v x = (Ok u, x') → chain_wf (db x) → chain_wf (db x').
Proof.
  unfold set_gmr_config, on_limits, ResourceLimits.set_gmr_parameters. intros H Hw. open_handler.
  unfold mbind, st_bind, lift in H. destruct (ResourceLimits.validate_gmr _); [|done].
  cbn in H. injection H as <- <-.
  apply (chain_wf_mono _ _ Hw); cbn; try apply Hw; auto.
Qed.

Lemma setconfig_wf x u x' : apply_system_native_setconfig act x = (Ok u, x') → chain_wf (db x) → chain_wf (db x').
Proof.
  intros H Hw. unfold apply_system_native_setconfig in H. open_handler.
  match goal with H : set_list_config_on_chain _ ?y = (_, ?z) |- _ =>
    assert (chain_wf (db y)) as Hy by (by apply (chain_wf_same _ _ Hw));
    assert (chain_wf (db z)) as Hz; [|clear H Hy] end.
  - unfold set_list_config_on_chain in *.
    repeat case_match; simpl_ok; try done; by eapply set_name_list_wf.
  - unfold set_guaranteed_minimum_config in *.
    repeat case_match; simpl_ok; try done; by eapply set_gmr_config_wf.
Qed.

(** *** Creating an account *)

Lemma initialize_account_frame n l u l' :
  ResourceLimits.initialize_account n l = (Ok u, l') →
  (∀ b, b = n ∨ is_Some (ResourceLimits.usages l !! b) → is_Some (ResourceLimits.usages l' !! b)) ∧
  (∀ b, b = n ∨ is_Some (ResourceLimits.actual_limits l !! b) → is_Some (ResourceLimits.actual_limits l' !! b)).
Proof.
  unfold ResourceLimits.initialize_account. intros H. simpl_ok. cbn.
  split; intros b [->|Hb]; rewrite ?lookup_insert_eq; eauto using is_Some_put.
Qed.

Lemma create_keeps a account name parent au t p :
  auth_wf a → account ≠ 0 → name ≠ 0 → fields_typed au → placed a account name parent →
  let r := create_permission (pending_block_time env) account name parent au t a in
  r.1 = Ok p →
  auth_wf r.2 ∧ permissions r.2 !! po_id p = Some p ∧ po_owner p = account ∧ po_name p = name ∧ po_id p ≠ 0 ∧
  (∀ id q, permissions r.2 !! id = Some q → q = p ∨ permissions a !! id = Some q) ∧
  (∀ id q, permissions a !! id = Some q → permissions r.2 !! id = Some q).
Proof.
  intros Hw Hacc Hn Ha Hp r Hc.
  destruct (create_permission_wf a (pending_block_time env) account name parent au t Hw Hacc Hn Ha Hp) as [Haw Hr].
  destruct (Hr p Hc) as (Hpe & Hperm & _). fold r in Hperm, Haw. pose proof (aw_next a Hw).
  assert (po_id p = next_permission a) as Hid by (by rewrite Hpe). rewrite Hperm, Hid, lookup_insert_eq.
  split_and!; [done|done|by rewrite Hpe|by rewrite Hpe|lia|..].
  - intros id q. rewrite lookup_insert_Some. intros [[_ <-]|[_ ?]]; auto.
  - intros id q Hq. rewrite lookup_insert_ne; [done|]. intros <-. destruct (aw_id a Hw _ _ Hq). lia.
Qed.

(** An account with its two permissions, sequence numbers and limits is added. *)
Lemma created_wf d n acc seq a l :
  chain_wf d → n ≠ 0 → auth_wf a →
  (∀ id p, permissions a !! id = Some p → id ≠ 0 → po_owner p = n ∨ permissions (auth d) !! id = Some p) →
  (∀ id p, permissions (auth d) !! id = Some p → permissions a !! id = Some p) →
  has_permission a n config.owner_name → has_permission a n config.active_name →
  (∀ b, b = n ∨ is_Some (ResourceLimits.usages (limits d) !! b) → is_Some (ResourceLimits.usages l !! b)) →
  (∀ b, b = n ∨ is_Some (ResourceLimits.actual_limits (limits d) !! b) → is_Some (ResourceLimits.actual_limits l !! b)) →
  chain_wf (mk_database (<[n := acc]> (accounts_db d)) (<[n := seq]> (sequences d)) a l (gtrxs d) (config_data d)
              (force_property d)).
Proof.
  intros Hw Hn Ha Hnew Hold Ho Hac Hu Hl. split; cbn; [done|..].
  - intros id p Hp Hid. destruct (Hnew id p Hp Hid) as [->|Hp']; [rewrite lookup_insert_eq; eauto|].
    apply is_Some_put. by eapply (cw_owner d Hw).
  - intros b Hb. destruct (decide (n = b)) as [<-|Hne].
    + split_and!; [done|done|done|rewrite lookup_insert_eq; eauto|by apply Hu; left|by apply Hl; left].
    + rewrite lookup_insert_ne in Hb by done.
      destruct (cw_account d Hw b Hb) as (? & (i & p & Hi & ?) & (j & q & Hj & ?) & ? & ? & ?).
      split_and!; [done|exists i, p; auto|exists j, q; auto|by apply is_Some_put|by apply Hu; right|by apply Hl; right].
Qed.

Lemma owner_active_names : config.owner_name ≠ 0 ∧ config.active_name ≠ 0 ∧ config.active_name ≠ config.owner_name.
Proof. vm_compute. done. Qed.

Lemma newaccount_wf x u x' : apply_system_native_newaccount env act x = (Ok u, x') → chain_wf (db x) → chain_wf (db x').
Proof using Hna.
  intros H Hw. unfold apply_system_native_newaccount, create_account in H. open_handler. to_prop.
  match goal with H : (length (Name.to_string _) ≤ _)%nat |- _ => clear H end.
  destruct owner_active_names as (No & Nac & Nne).
  repeat match goal with
  | H : db _ = db x |- _ => rewrite <- H in Hw; clear H
  | H : unpack_newaccount _ = Ok _ |- _ => apply Hna in H as [Hto Hta]
  | H : on_auth _ _ = _ |- _ => let E := fresh "E" in apply on_auth_ok in H as [E ->]
  | H : on_limits _ _ = _ |- _ => unfold on_limits in H; let F := fresh "F" in
      destruct (ResourceLimits.initialize_account _ _) as [r l] eqn:F; injection H as -> <-
  end.
  eapply add_ram_usage_wf; [exact H|]. clear H. cbn [db set_db auth limits set_auth set_sequences set_accounts] in *.
  match goal with F : ResourceLimits.initialize_account _ _ = _ |- _ => apply initialize_account_frame in F as [Fu Fl] end.
  assert (na_name x0 ≠ 0) as Hnz by assumption.
  match goal with E : (create_permission _ _ config.owner_name _ _ _ _).1 = Ok ?p |- _ =>
    destruct (create_keeps _ _ _ 0 _ 0 p (cw_auth _ Hw) Hnz No Hto) as (W1 & P1 & O1 & N1 & I1 & B1 & K1);
      [split; [tauto|intros Hz; by destruct Hz]|exact E|]; clear E end.
  set (a1 := (create_permission _ _ config.owner_name _ _ _ _).2) in *.
  match goal with E : (create_permission _ _ config.active_name _ _ _ _).1 = Ok ?p |- _ =>
    destruct (create_keeps a1 _ _ (po_id x33) _ 0 p W1 Hnz Nac Hta) as (W2 & P2 & O2 & N2 & _ & B2 & K2);
      [split; [tauto|eauto]|exact E|]; clear E end.
  set (a2 := (create_permission _ _ config.active_name _ _ _ _).2) in *.
  eapply (created_wf (db x2) (na_name x0) _ _ a2 l); try done.
  - intros id p Hp _. destruct (B2 id p Hp) as [->|Hp1]; [by left|]. destruct (B1 id p Hp1) as [->|]; auto.
  - intros id p Hp. by apply K2, K1.
  - exists (po_id x33), x33. auto.
  - exists (po_id x35), x35. auto.
Qed.
End Preservation.

(** ** Theorems *)

(** Actions of the system account one after the other; an action that throws is
    undone with its transaction. *)
Definition run_native `{NativeEnv} (x : context) (e : block_env * action) : context :=
  match native_handler e.1 e.2 (act_name e.2) with
  | Some handler => match run handler x with Ok x' => x' | Err _ => x end
  | None => x
  end.

Definition run_natives `{NativeEnv} (l : list (block_env * action)) (x : context) : context := foldl run_native x l.

Lemma run_inv (m : NC ()) x x' : run m x = Ok x' → m x = (Ok (), x').
Proof. unfold run. destruct (m x) as [[[]|e] y]; [by intros [= ->]|done]. Qed.

Lemma run_natives_wf `{NativeEnv} (l : list (block_env * action)) (x : context) :
  (∀ b u, unpack_updateauth b = Ok u → fields_typed (ua_auth u)) →
  (∀ b n, unpack_newaccount b = Ok n → fields_typed (na_owner n) ∧ fields_typed (na_active n)) →
  chain_wf (db x) → chain_wf (db (run_natives l x)).
Proof.
  intros Hua Hna. unfold run_natives. revert x. induction l as [|[env act] l IH]; intros x Hw; [done|].
  cbn [foldl]. apply IH. clear IH. unfold run_native. cbn [fst snd].
  destruct (native_handler env act (act_name act)) as [m|] eqn:Em; [|done].
  destruct (run m x) as [x'|] eqn:Er; [|done]. apply run_inv in Er. unfold native_handler in Em.
  repeat match type of Em with (if ?b then _ else _) = _ => destruct b end; try discriminate Em; injection Em as <-.
  - by eapply newaccount_wf.
  - by eapply setcode_wf.
  - by eapply setabi_wf.
  - by eapply updateauth_wf.
  - by eapply deleteauth_wf.
  - by eapply linkauth_wf.
  - by eapply unlinkauth_wf.
  - by eapply canceldelay_wf.
  - by eapply setconfig_wf.
Qed.

(** Native actions, in whatever order and by whomever, keep the permissions
    sound: every account has its owner and active permission, sequence numbers
    and limits, and the permissions form a forest of named, typed objects whose
    parents are older permissions of the same account. *)
Theorem native_actions_keep_permissions `{NativeEnv} (l : list (block_env * action)) (x : context) :
  (∀ b u, unpack_updateauth b = Ok u → fields_typed (ua_auth u)) →
  (∀ b n, unpack_newaccount b = Ok n → fields_typed (na_owner n) ∧ fields_typed (na_active n)) →
  chain_wf (db x) → chain_wf (db (run_natives l x)).
Proof.
  apply run_natives_wf.
Qed.

(** A successful [updateauth] was authorized by the account, stores exactly the
    given authority under the permission, creating it if needed, and leaves every
    other permission and all links as they are. *)
Theorem updateauth_sets_authority `{NativeEnv} (env : block_env) (act : action) (update : updateauth) (x x' : context) :
  chain_wf (db x) → unpack_updateauth (act_data act) = Ok update → fields_typed (ua_auth update) →
  run (apply_system_native_updateauth env act) x = Ok x' →
  (∃ l, l ∈ act_authorization act ∧ actor l = ua_account update) ∧
  (∃ p, permissions (auth (db x')) !! po_id p = Some p ∧ po_owner p = ua_account update ∧
        po_name p = ua_permission update ∧ po_auth p = ua_auth update) ∧
  (∀ id q, po_owner q ≠ ua_account update ∨ po_name q ≠ ua_permission update →
     permissions (auth (db x')) !! id = Some q ↔ permissions (auth (db x)) !! id = Some q) ∧
  links (auth (db x')) = links (auth (db x)).
Proof.
  intros Hw Hu Ht Hr%run_inv. unfold apply_system_native_updateauth, apply_update in Hr. simpl_ok.
  match goal with E : require_authorization _ _ _ = _ |- _ =>
    pose proof (require_authorization_ok _ _ _ _ _ E) as Hauth; apply require_authorization_db in E as Hx end.
  match goal with E : data_as _ _ _ = Ok _ |- _ => apply data_as_ok in E; rewrite Hu in E; injection E as <- end.
  unfold get_db in *. simpl_ok.
  split; [done|]. clear Hauth.
  match goal with E : check_update _ _ _ = Ok ?u |- _ => destruct u; apply check_update_ok in E as (Hn & Hacc & Hroot) end.
  rewrite <- Hx in Hw |- *. clear Hx.
  match goal with E : find_permission _ _ = Ok _ |- _ => apply (find_permission_ok _ _ _ (cw_auth _ Hw)) in E as Hfind end.
  match goal with E : (if _ =? config.owner_name then _ else _) _ = _ |- _ =>
    destruct (parent_placed _ _ _ _ _ _ _ (cw_auth _ Hw) Hroot E) as [-> Hpl] end.
  match type of Hr with match ?o with _ => _ end _ = _ => destruct o as [p|] end; simpl_ok.
  all: match goal with E : on_auth _ _ = _ |- _ => apply on_auth_ok in E as [Hc ->] end.
  all: apply add_ram_usage_frame in Hr as (rl & -> & _); cbn [db set_db auth set_rl set_auth].
  - destruct Hfind as (Hp & Hid & Ho & Hnm). cbn in Ho, Hnm. unfold modify_permission, modify_st, set_permissions.
    cbn [snd permissions links]. split_and!; [|..|done].
    + eexists (mk_permission (po_id p) _ _ _ _ _ _). cbn. by rewrite lookup_insert_eq.
    + intros id q Hne. rewrite lookup_insert_Some. split.
      * intros [[_ <-]|[_ ?]]; [cbn in Hne; tauto|done].
      * intros Hq. right. split; [|done]. intros <-. rewrite Hp in Hq. injection Hq as <-. tauto.
  - match goal with E : (create_permission _ _ _ _ _ _ _).1 = Ok ?p |- _ =>
      destruct (create_keeps env _ _ _ _ _ _ p (cw_auth _ Hw) (proj1 (cw_account _ Hw _ Hacc)) Hn Ht Hpl E)
        as (_ & P & O & N & _ & B & K);
      destruct (proj2 (create_permission_wf _ _ _ _ _ _ _ (cw_auth _ Hw) (proj1 (cw_account _ Hw _ Hacc)) Hn Ht Hpl) p E)
        as (Hpe & _ & Hlinks); split_and!; [exists p; split_and!; auto; by rewrite Hpe| |done] end.
    intros id q Hne. split; [|apply K]. intros Hq. destruct (B id q Hq) as [->|]; [tauto|done].
Qed.

(** ** An example: two accounts *)

Module NativeDemo.
Definition alice : Z := Name.N "alice".
Definition carol : Z := Name.N "carol".
Definition trading : Z := Name.N "trading".
Definition key (k : Z) : authority := authority_of_key k 0.

(** The data of an action of the example is the number of the case. *)
#[local] Instance unpack : Unpack :=
  { unpack_updateauth := fun _ => Ok (mk_updateauth carol trading config.active_name (key 30));
    unpack_deleteauth := fun _ => Err std_out_of_range;
    unpack_linkauth := fun _ => Ok (mk_linkauth alice carol 5 trading);
    unpack_unlinkauth := fun _ => Ok (mk_unlinkauth alice carol 5);
    unpack_canceldelay := fun _ => Err std_out_of_range;
    unpack_actions := fun _ => Err std_out_of_range }.
#[local] Instance env : NativeEnv :=
  { native_unpack := unpack;
    unpack_newaccount := fun _ => Ok (mk_newaccount alice carol (key 20) (key 21) 0);
    unpack_setcode := fun _ => Ok (mk_setcode carol 0 0 [1; 2; 3]);
    unpack_setabi := fun _ => Err std_out_of_range;
    unpack_setconfig := fun _ => Ok (mk_setconfig (Name.N "l.actblack") 1 carol (0, Symbol.CORE_SYMBOL));
    code_hash := fun _ => mk_digest 1 1 1 1; wasm_validate := fun _ => Ok (); key_pack_size := fun _ => 34 }.

Definition root : permission_object := mk_permission 1 0 0 alice config.owner_name 5 (key 10).
Definition active : permission_object := mk_permission 2 1 1 alice config.active_name 5 (key 11).
Definition table : auth_db :=
  mk_auth_db (<[2 := active]> (<[1 := root]> {[0 := reserved]})) 3 (<[1 := 5]> {[0 := 5]}) 2 ∅.
Definition usage : gmap Z ResourceLimits.resource_usage_object :=
  <[config.system_account_name := ResourceLimits.default_usage]> {[alice := ResourceLimits.default_usage]}.
Definition rl : ResourceLimits.rl_db :=
  ResourceLimits.set_usages usage
    (ResourceLimits.set_actual {[alice := ResourceLimits.default_limits]} ResourceLimits.initialize_database).

Definition start : context :=
  mk_context
    (mk_database {[alice := mk_account false 0 digest0 0 [] []]} {[alice := mk_sequence 0 0 0 0]} table rl ∅ ∅
       (mk_force [] [] [] ResourceLimits.default_gmr))
    (mk_lists ∅ ∅ ∅) [] ∅ ∅.

Definition block : block_env := mk_block_env 7 100 3888000 false ∅.
Definition by_actor (a name : Z) : action :=
  mk_action config.system_account_name name [mk_level a config.active_name] [].

Definition creation : action := by_actor alice (Name.N "newaccount").
Definition two_accounts : context := run_natives [(block, creation)] start.
Definition take_over : action := by_actor alice (Name.N "setcode").
Definition add_trading : action := by_actor carol updateauth_name.
Definition linked : context := run_natives [(block, add_trading); (block, by_actor alice linkauth_name)] two_accounts.
Definition configure : action := by_actor chain_config_name (Name.N "setconfig").

Lemma key_typed k : fields_typed (key k).
Proof. unfold fields_typed. repeat constructor; by vm_compute. Qed.

Lemma table_wf : auth_wf table.
Proof.
  assert (∀ id p, permissions table !! id = Some p → (id = 2 ∧ p = active) ∨ (id = 1 ∧ p = root) ∨ (id = 0 ∧ p = reserved)) as Hcases.
  { intros id p. cbn. rewrite !lookup_insert_Some, lookup_singleton_Some. naive_solver. }
  destruct owner_active_names as (No & Nac & Nne). assert (alice ≠ 0) as Na by (by vm_compute).
  split; cbn [next_permission table].
  - done.
  - lia.
  - intros id p Hp. destruct (Hcases id p Hp) as [[-> ->]|[[-> ->]|[-> ->]]]; cbn; lia.
  - intros id p Hp Hid. destruct (Hcases id p Hp) as [[-> ->]|[[-> ->]|[-> _]]]; [| |done].
    all: split; cbn; [done|done|apply key_typed| | |].
    + split; [done|]. intros ?. contradiction.
    + intros _. exists root. by split_and!.
    + split; [vm_compute; eauto|lia].
    + done.
    + intros Hz. by destruct Hz.
    + split; [vm_compute; eauto|lia].
  - intros i j p q Hp Hq Ho Hn.
    destruct (Hcases i p Hp) as [[-> ->]|[[-> ->]|[-> ->]]], (Hcases j q Hq) as [[-> ->]|[[-> ->]|[-> ->]]];
      cbn in Ho, Hn; try reflexivity; exfalso; eauto.
  - intros i j p q Hp Hq Hi Hj Hu.
    destruct (Hcases i p Hp) as [[-> ->]|[[-> ->]|[-> ->]]], (Hcases j q Hq) as [[-> ->]|[[-> ->]|[-> ->]]];
      cbn in Hu; try reflexivity; exfalso; lia.
Qed.

Lemma start_wf : chain_wf (db start).
Proof.
  split; [exact table_wf|..].
  - intros id p. cbn. rewrite !lookup_insert_Some, lookup_singleton_Some.
    intros [[_ <-]|[_ [[_ <-]|[_ [<- <-]]]]] Hid; [rewrite lookup_singleton_eq; eauto..|done].
  - intros a. cbn. rewrite lookup_singleton_is_Some. intros <-. split_and!; [by vm_compute|..].
    + by exists 1, root.
    + by exists 2, active.
    + rewrite lookup_singleton_eq. eauto.
    + vm_compute. eauto.
    + rewrite lookup_singleton_eq. eauto.
Qed.

Lemma two_accounts_wf : chain_wf (db two_accounts).
Proof.
  apply run_natives_wf; [| |exact start_wf].
  - intros b u [= <-]. apply key_typed.
  - intros b n [= <-]. split; apply key_typed.
Qed.
End NativeDemo.

Lemma native_actions_keep_permissions_witness :
  chain_wf (db (@run_natives NativeDemo.env [(NativeDemo.block, NativeDemo.creation)] NativeDemo.start)).
Proof.
  apply (@native_actions_keep_permissions NativeDemo.env [(NativeDemo.block, NativeDemo.creation)] NativeDemo.start).
  - intros b u [= <-]. apply NativeDemo.key_typed.
  - intros b n [= <-]. split; apply NativeDemo.key_typed.
  - exact NativeDemo.start_wf.
Defined.

Lemma updateauth_sets_authority_witness :
  ∃ x', run (@apply_system_native_updateauth NativeDemo.env NativeDemo.block NativeDemo.add_trading) NativeDemo.two_accounts = Ok x' ∧
  ∃ p, permissions (auth (db x')) !! po_id p = Some p ∧ po_owner p = NativeDemo.carol ∧ po_auth p = NativeDemo.key 30.
Proof.
  eexists. split; [vm_compute; reflexivity|].
  destruct (@updateauth_sets_authority NativeDemo.env NativeDemo.block NativeDemo.add_trading
              (mk_updateauth NativeDemo.carol NativeDemo.trading config.active_name (NativeDemo.key 30))
              NativeDemo.two_accounts _ NativeDemo.two_accounts_wf eq_refl
              (NativeDemo.key_typed 30) ltac:(vm_compute; reflexivity)) as (_ & (p & Hp & Ho & _ & Ha) & _).
  exists p. split; [exact Hp|]. split; [exact Ho|exact Ha].
Defined.

(** [setcode] asks for no authority: whatever authorizations the action
    declares it does the same, and in the example alice replaces the code of
    carol's account. *)
Theorem setcode_needs_no_authority :
  (∀ (E : NativeEnv) env account name auths auths' data x,
     apply_system_native_setcode env (mk_action account name auths data) x =
     apply_system_native_setcode env (mk_action account name auths' data) x) ∧
  Forall (fun l => actor l ≠ NativeDemo.carol) (act_authorization NativeDemo.take_over) ∧
  (x ← run (@apply_system_native_setcode NativeDemo.env NativeDemo.block NativeDemo.take_over) NativeDemo.two_accounts;
   mret (ao_code <$> accounts_db (db x) !! NativeDemo.carol)) = Ok (Some [1; 2; 3]).
Proof.
  split; [intros; reflexivity|]. split; [repeat constructor; by vm_compute|]. vm_compute. reflexivity.
Qed.

(** [linkauth] accepts the name of a permission that only another account has.
    Afterwards the account can neither unlink nor change the link with any of
    its permissions: the check of both actions throws. *)
Theorem link_to_missing_permission_sticks :
  links (auth (db NativeDemo.linked)) !! (NativeDemo.alice, NativeDemo.carol, 5) = Some NativeDemo.trading ∧
  ∀ name,
  let s := auth (db NativeDemo.linked) in
  let by_alice := [mk_level NativeDemo.alice name] in
  check_unlinkauth_authorization s (mk_unlinkauth NativeDemo.alice NativeDemo.carol 5) by_alice
    = Err permission_query_exception ∧
  ∀ requirement,
    check_linkauth_authorization s (mk_linkauth NativeDemo.alice NativeDemo.carol 5 requirement) by_alice
      = Err permission_query_exception.
Proof.
  split; [vm_compute; reflexivity|]. intros name. split; [|intros requirement]; vm_compute; reflexivity.
Qed.

(** The lists of the node are not part of the database: when the transaction
    that blacklisted an actor is undone, the actor stays on the list in memory
    while the list on chain is empty again. *)
Theorem list_survives_undo :
  (x ← run (@apply_system_native_setconfig NativeDemo.env NativeDemo.configure) NativeDemo.start;
   let undone := set_db (db NativeDemo.start) x in
   mret (elements (actor_blacklist (conf undone)), fp_actor (force_property (db undone))))
  = Ok ([NativeDemo.carol], []).
Proof. vm_compute. reflexivity. Qed.
End Native.
