(* ===== verification/ContractTables.v ===== *)
(** * Tables of contracts

    The database interface of contracts: [apply_context.cpp] from
    [find_table] to [db_end_i64], with [iterator_cache] and [generic_index] of
    [apply_context.hpp] and the objects of [contract_table_objects.hpp].

    Rows live in a [part]: the objects by their id, and the cache of the iterators
    handed out to the contract.  [kv] is the part of the primary rows, [idx] that
    of a secondary index with integer keys ([idx64]); both share the table
    objects.  A pointer to an object is the id of the object; reading one that was
    removed is [undefined_behavior].  Iterators are [int]s and there are fewer than
    2^31 of them. *)

From S2P Require Import Prelude Exceptions Name Merkle BlockHeader EosLib ResourceLimits Authority AuthorizationManager NativeContract.

Module Tables.
Import AuthorizationManager Native.

(** ** Objects *)

Record table_id_object : Type := mk_table
  { t_code : Z; t_scope : Z; t_table : Z; t_payer : Z; t_count : Z }.

(** [key_value_object] with bytes, [index64_object] with a key. *)
Record row {D : Type} : Type := mk_row { r_tid : Z; r_primary : Z; r_payer : Z; r_data : D }.
Arguments row : clear implicits.
Arguments mk_row {D}.
Abbreviation key_value_object := (row bytes).
Abbreviation index_object := (row Z).

Definition billable_table : Z := billable_size_v (44 + 2 * 32).
Definition billable_key_value : Z := billable_size_v (32 + 8 + 4 + 2 * 32).
Definition billable_index : Z := billable_size_v (24 + 8 + 3 * 32).

(** ** The iterator cache *)

Record iterator_cache : Type := mk_cache
  { table_cache : gmap Z Z; end_iterator_to_table : list Z;
    iterator_to_object : list (option Z); object_to_iterator : gmap Z Z }.
Definition empty_cache : iterator_cache := mk_cache ∅ [] [] ∅.

Definition end_iterator_to_index (ei : Z) : Z := - ei - 2.
Definition index_to_end_iterator (indx : Z) : Z := - (indx + 2).

Definition cache_table (tid : Z) (c : iterator_cache) : Z * iterator_cache :=
  match table_cache c !! tid with
  | Some ei => (ei, c)
  | None =>
      let ei := index_to_end_iterator (Z.of_nat (length (end_iterator_to_table c))) in
      (ei, mk_cache (<[tid := ei]> (table_cache c)) (end_iterator_to_table c ++ [tid])
             (iterator_to_object c) (object_to_iterator c))
  end.

(** [get_table] gives the pointer, [get_end_iterator_by_table_id] the iterator. *)
Definition get_table (tid : Z) (c : iterator_cache) : R Z :=
  _ ← of_option (table_cache c !! tid) table_not_in_cache; mret tid.
Definition get_end_iterator_by_table_id (tid : Z) (c : iterator_cache) : R Z :=
  of_option (table_cache c !! tid) table_not_in_cache.

Definition find_table_by_end_iterator (ei : Z) (c : iterator_cache) : R (option Z) :=
  eos_assert (ei <? -1) invalid_table_iterator ;;
  let indx := end_iterator_to_index ei in
  if Z.of_nat (length (end_iterator_to_table c)) <=? indx then mret None
  else mret (end_iterator_to_table c !! Z.to_nat indx).

Definition cache_get (iterator : Z) (c : iterator_cache) : R Z :=
  eos_assert (negb (iterator =? -1)) invalid_table_iterator ;;
  eos_assert (0 <=? iterator) table_operation_not_permitted ;;
  eos_assert (iterator <? Z.of_nat (length (iterator_to_object c))) invalid_table_iterator ;;
  of_option (mjoin (iterator_to_object c !! Z.to_nat iterator)) table_operation_not_permitted.

Definition cache_remove (iterator : Z) (c : iterator_cache) : R iterator_cache :=
  eos_assert (negb (iterator =? -1)) invalid_table_iterator ;;
  eos_assert (0 <=? iterator) table_operation_not_permitted ;;
  eos_assert (iterator <? Z.of_nat (length (iterator_to_object c))) invalid_table_iterator ;;
  mret (match mjoin (iterator_to_object c !! Z.to_nat iterator) with
        | None => c
        | Some obj => mk_cache (table_cache c) (end_iterator_to_table c)
                        (<[Z.to_nat iterator := None]> (iterator_to_object c)) (delete obj (object_to_iterator c))
        end).

Definition cache_add (obj : Z) (c : iterator_cache) : Z * iterator_cache :=
  match object_to_iterator c !! obj with
  | Some it => (it, c)
  | None =>
      let it := Z.of_nat (length (iterator_to_object c)) in
      (it, mk_cache (table_cache c) (end_iterator_to_table c) (iterator_to_object c ++ [Some obj])
             (<[obj := it]> (object_to_iterator c)))
  end.

(** ** Rows and their order *)

Record part {D : Type} : Type := mk_part { rows : gmap Z (row D); next_row : Z; cache : iterator_cache }.
Arguments part : clear implicits.
Arguments mk_part {D}.

(** Composite keys: comparing with a shorter key looks at its components only. *)
Fixpoint compare_key (a b : list Z) : comparison :=
  match a, b with
  | x :: a, y :: b => match Z.compare x y with Eq => compare_key a b | c => c end
  | _, _ => Eq
  end.

Definition key_primary {D} (r : row D) : list Z := [r_tid r; r_primary r].
Definition key_secondary (r : index_object) : list Z := [r_tid r; r_data r; r_primary r].

Section Part.
Context {D : Type} (key : row D → list Z).
Implicit Types p : part D.

Definition row_le (x y : Z * row D) : Prop := compare_key (key x.2) (key y.2) ≠ Gt.
#[export] Instance row_le_dec x y : Decision (row_le x y).
Proof. unfold row_le. apply _. Defined.

(** The index in its order. *)
Definition in_order p : list (Z * row D) := merge_sort row_le (map_to_list (rows p)).

Definition lower_bound (k : list Z) p : option (Z * row D) :=
  find (fun x => bool_decide (compare_key (key x.2) k ≠ Lt)) (in_order p).
Definition upper_bound (k : list Z) p : option (Z * row D) :=
  find (fun x => bool_decide (compare_key (key x.2) k = Gt)) (in_order p).
(** The element before [lower_bound] and before [upper_bound]. *)
Definition before_lower (k : list Z) p : option (Z * row D) :=
  find (fun x => bool_decide (compare_key (key x.2) k = Lt)) (reverse (in_order p)).
Definition before_upper (k : list Z) p : option (Z * row D) :=
  find (fun x => bool_decide (compare_key (key x.2) k ≠ Gt)) (reverse (in_order p)).
Definition find_row (k : list Z) p : option (Z * row D) :=
  match lower_bound k p with
  | Some x => if decide (compare_key (key x.2) k = Eq) then Some x else None
  | None => None
  end.
End Part.

Section PartSteps.
Context {D : Type} (key : row D → list Z).

Abbreviation PC := (ST (part D) exn).

Definition on_cache {A} (f : iterator_cache → A * iterator_cache) : PC A :=
  fun p => let '(a, c) := f (cache p) in (Ok a, mk_part (rows p) (next_row p) c).

(** [cache.get( iterator )] and the object it points to. *)
Definition deref (iterator : Z) : PC (Z * row D) :=
  p ← get_st;
  id ← lift (cache_get iterator (cache p));
  r ← lift (of_option (rows p !! id) undefined_behavior);
  mret (id, r).

(** [db.create]: the primary key of a table is unique. *)
Definition create_row (r : row D) : PC Z :=
  p ← get_st;
  st_assert (negb (bool_decide (is_Some (find_row key_primary (key_primary r) p)))) std_logic_error ;;
  put_st (mk_part (<[next_row p := r]> (rows p)) (next_row p + 1) (cache p)) ;;
  mret (next_row p).
Definition modify_row (id : Z) (r : row D) : PC () :=
  modify_st (fun p => mk_part (<[id := r]> (rows p)) (next_row p) (cache p)).
Definition remove_row (id : Z) : PC () :=
  modify_st (fun p => mk_part (delete id (rows p)) (next_row p) (cache p)).

(** Handing out an iterator for what a search in table [tid] found: the row if it
    is of that table, else [otherwise]; and the primary key, if it is written. *)
Definition hand_out (tid : Z) (found : option (Z * row D)) (otherwise : R Z) : PC (Z * option (row D)) :=
  match found with
  | Some (id, r) => if r_tid r =? tid then it ← on_cache (cache_add id); mret (it, Some r)
                    else ei ← lift otherwise; mret (ei, None)
  | None => ei ← lift otherwise; mret (ei, None)
  end.

(** [find], [lowerbound] and [upperbound]: the table is [None] when it does not exist. *)
Definition search (tab : option Z) (bound : Z → part D → option (Z * row D)) : PC (Z * option (row D)) :=
  match tab with
  | None => mret (-1, None)
  | Some tid =>
      table_end_itr ← on_cache (cache_table tid);
      p ← get_st;
      hand_out tid (bound tid p) (Ok table_end_itr)
  end.

Definition end_of (tab : option Z) : PC Z :=
  match tab with None => mret (-1) | Some tid => on_cache (cache_table tid) end.

Definition next (iterator : Z) : PC (Z * option (row D)) :=
  if iterator <? -1 then mret (-1, None)
  else
    '(_, obj) ← deref iterator;
    p ← get_st;
    hand_out (r_tid obj) (upper_bound key (key obj) p) (get_end_iterator_by_table_id (r_tid obj) (cache p)).

Definition previous (tables : gmap Z table_id_object) (iterator : Z) : PC (Z * option (row D)) :=
  if iterator <? -1 then
    p ← get_st;
    tab ← lift (find_table_by_end_iterator iterator (cache p));
    tid ← lift (of_option tab invalid_table_iterator);
    _ ← lift (of_option (tables !! tid) undefined_behavior);
    hand_out tid (before_upper key [tid] p) (Ok (-1))
  else
    '(_, obj) ← deref iterator;
    p ← get_st;
    hand_out (r_tid obj) (before_lower key (key obj) p) (Ok (-1)).
End PartSteps.

(** ** The state of a context *)

Record tstate : Type := mk_tstate
  { ctx : context; tables : gmap Z table_id_object; next_table : Z; kv : part bytes; idx : part Z }.

Abbreviation TC := (ST tstate exn).

Definition set_ctx (x : context) (s : tstate) : tstate := mk_tstate x (tables s) (next_table s) (kv s) (idx s).
Definition set_tables (m : gmap Z table_id_object) (n : Z) (s : tstate) : tstate := mk_tstate (ctx s) m n (kv s) (idx s).
Definition set_kv (p : part bytes) (s : tstate) : tstate := mk_tstate (ctx s) (tables s) (next_table s) p (idx s).
Definition set_idx (p : part Z) (s : tstate) : tstate := mk_tstate (ctx s) (tables s) (next_table s) (kv s) p.

Definition on_ctx {A} (m : NC A) : TC A := fun s => let '(r, x) := m (ctx s) in (r, set_ctx x s).
Definition on_kv {A} (m : ST (part bytes) exn A) : TC A := fun s => let '(r, p) := m (kv s) in (r, set_kv p s).
Definition on_idx {A} (m : ST (part Z) exn A) : TC A := fun s => let '(r, p) := m (idx s) in (r, set_idx p s).

(** What a call reads of the context that does not change while code runs. *)
Record call_env : Type := mk_call_env
  { receiver : Z; act : action; privileged : bool; is_ram_billing_in_notify_allowed : bool }.

Section Calls.
Context (e : call_env).

Definition update_db_usage (payer delta : Z) : TC () :=
  (if 0 <? delta then
     if privileged e || (payer =? receiver e) then mret ()
     else
       st_assert (is_ram_billing_in_notify_allowed e || (receiver e =? act_account (act e)))
         subjective_block_production_exception ;;
       on_ctx (require_authorization (act e) payer)
   else mret ()) ;;
  on_ctx (add_ram_usage payer delta).

(** [by_code_scope_table] *)
Definition find_table (code scope table : Z) (s : tstate) : option Z :=
  fst <$> find (fun t => (t_code t.2 =? code) && (t_scope t.2 =? scope) && (t_table t.2 =? table))
            (map_to_list (tables s)).

Definition find_or_create_table (code scope table payer : Z) : TC Z :=
  s ← get_st;
  match find_table code scope table s with
  | Some tid => mret tid
  | None =>
      update_db_usage payer billable_table ;;
      s ← get_st;
      put_st (set_tables (<[next_table s := mk_table code scope table payer 0]> (tables s)) (next_table s + 1) s) ;;
      mret (next_table s)
  end.

(** Reading through a pointer to a table. *)
Definition the_table (tid : Z) : TC table_id_object :=
  s ← get_st; lift (of_option (tables s !! tid) undefined_behavior).

Definition remove_table (tid : Z) : TC () :=
  t ← the_table tid;
  update_db_usage (t_payer t) (- billable_table) ;;
  modify_st (fun s => set_tables (delete tid (tables s)) (next_table s) s).

Definition change_count (delta : Z) (tid : Z) : TC () :=
  t ← the_table tid;
  modify_st (fun s => set_tables
    (<[tid := mk_table (t_code t) (t_scope t) (t_table t) (t_payer t) (u32 (t_count t + delta))]> (tables s)) (next_table s) s).

(** ** Primary rows *)

Definition size_of (l : bytes) : Z := Z.of_nat (length l).

Definition db_store_i64_in (code scope table payer id : Z) (buffer : bytes) : TC Z :=
  tid ← find_or_create_table code scope table payer;
  st_assert (negb (payer =? 0)) invalid_table_payer ;;
  obj ← on_kv (create_row (mk_row tid id payer buffer));
  change_count 1 tid ;;
  update_db_usage payer (i64 (size_of buffer + billable_key_value)) ;;
  on_kv (on_cache (cache_table tid)) ;;
  on_kv (on_cache (cache_add obj)).

Definition db_store_i64 (scope table payer id : Z) (buffer : bytes) : TC Z :=
  db_store_i64_in (receiver e) scope table payer id buffer.

(** The table of a row, checked to belong to the running code. *)
Definition own_table {D} (p : part D) (tid : Z) : TC Z :=
  ptr ← lift (get_table tid (cache p));
  t ← the_table ptr;
  st_assert (t_code t =? receiver e) table_access_violation ;;
  mret ptr.

Definition db_update_i64 (iterator payer : Z) (buffer : bytes) : TC () :=
  '(id, obj) ← on_kv (deref iterator);
  s ← get_st;
  _ ← own_table (kv s) (r_tid obj);
  let old_size := i64 (size_of (r_data obj) + billable_key_value) in
  let new_size := i64 (size_of buffer + billable_key_value) in
  let payer := if payer =? 0 then r_payer obj else payer in
  (if negb (r_payer obj =? payer) then
     update_db_usage (r_payer obj) (- old_size) ;;
     update_db_usage payer new_size
   else if negb (old_size =? new_size) then update_db_usage (r_payer obj) (new_size - old_size)
   else mret ()) ;;
  on_kv (modify_row id (mk_row (r_tid obj) (r_primary obj) payer buffer)).

(** Taking a row off its table, and the table with its last row. *)
Definition drop_from_table (tid : Z) (remove : TC ()) : TC () :=
  change_count (-1) tid ;;
  remove ;;
  t ← the_table tid;
  if t_count t =? 0 then remove_table tid else mret ().

Definition db_remove_i64 (iterator : Z) : TC () :=
  '(id, obj) ← on_kv (deref iterator);
  s ← get_st;
  tid ← own_table (kv s) (r_tid obj);
  update_db_usage (r_payer obj) (i64 (- (size_of (r_data obj) + billable_key_value))) ;;
  drop_from_table tid (on_kv (remove_row id)) ;;
  s ← get_st;
  c ← lift (cache_remove iterator (cache (kv s)));
  modify_st (fun s => set_kv (mk_part (rows (kv s)) (next_row (kv s)) c) s).

(** The size, or what fits the buffer. *)
Definition db_get_i64 (iterator buffer_size : Z) : TC (Z * bytes) :=
  '(_, obj) ← on_kv (deref iterator);
  let s := size_of (r_data obj) in
  if buffer_size =? 0 then mret (s, [])
  else let copy_size := Z.min buffer_size s in mret (copy_size, take (Z.to_nat copy_size) (r_data obj)).

Definition db_next_i64 (iterator : Z) : TC (Z * option key_value_object) := on_kv (next key_primary iterator).
Definition db_previous_i64 (iterator : Z) : TC (Z * option key_value_object) :=
  s ← get_st; on_kv (previous key_primary (tables s) iterator).
Definition db_find_i64 (code scope table id : Z) : TC Z :=
  s ← get_st;
  r ← on_kv (search (find_table code scope table s) (fun tid => find_row key_primary [tid; id])); mret r.1.
Definition db_lowerbound_i64 (code scope table id : Z) : TC Z :=
  s ← get_st;
  r ← on_kv (search (find_table code scope table s) (fun tid => lower_bound key_primary [tid; id])); mret r.1.
Definition db_upperbound_i64 (code scope table id : Z) : TC Z :=
  s ← get_st;
  r ← on_kv (search (find_table code scope table s) (fun tid => upper_bound key_primary [tid; id])); mret r.1.
Definition db_end_i64 (code scope table : Z) : TC Z :=
  s ← get_st; on_kv (end_of (find_table code scope table s)).

(** ** The secondary index *)

Definition idx_store (scope table payer id value : Z) : TC Z :=
  st_assert (negb (payer =? 0)) invalid_table_payer ;;
  tid ← find_or_create_table (receiver e) scope table payer;
  obj ← on_idx (create_row (mk_row tid id payer value));
  change_count 1 tid ;;
  update_db_usage payer billable_index ;;
  on_idx (on_cache (cache_table tid)) ;;
  on_idx (on_cache (cache_add obj)).

Definition idx_remove (iterator : Z) : TC () :=
  '(id, obj) ← on_idx (deref iterator);
  update_db_usage (r_payer obj) (- billable_index) ;;
  s ← get_st;
  tid ← own_table (idx s) (r_tid obj);
  drop_from_table tid (on_idx (remove_row id)) ;;
  s ← get_st;
  c ← lift (cache_remove iterator (cache (idx s)));
  modify_st (fun s => set_idx (mk_part (rows (idx s)) (next_row (idx s)) c) s).

Definition idx_update (iterator payer secondary : Z) : TC () :=
  '(id, obj) ← on_idx (deref iterator);
  s ← get_st;
  _ ← own_table (idx s) (r_tid obj);
  let payer := if payer =? 0 then r_payer obj else payer in
  (if negb (r_payer obj =? payer) then
     update_db_usage (r_payer obj) (- billable_index) ;;
     update_db_usage payer billable_index
   else mret ()) ;;
  on_idx (modify_row id (mk_row (r_tid obj) (r_primary obj) payer secondary)).

Definition find_secondary (code scope table secondary : Z) : TC (Z * option index_object) :=
  s ← get_st; on_idx (search (find_table code scope table s) (fun tid => find_row key_secondary [tid; secondary])).
Definition lowerbound_secondary (code scope table secondary : Z) : TC (Z * option index_object) :=
  s ← get_st; on_idx (search (find_table code scope table s) (fun tid => lower_bound key_secondary [tid; secondary])).
Definition upperbound_secondary (code scope table secondary : Z) : TC (Z * option index_object) :=
  s ← get_st; on_idx (search (find_table code scope table s) (fun tid => upper_bound key_secondary [tid; secondary])).
Definition end_secondary (code scope table : Z) : TC Z :=
  s ← get_st; on_idx (end_of (find_table code scope table s)).
Definition next_secondary (iterator : Z) : TC (Z * option index_object) := on_idx (next key_secondary iterator).
Definition previous_secondary (iterator : Z) : TC (Z * option index_object) :=
  s ← get_st; on_idx (previous key_secondary (tables s) iterator).
Definition find_primary (code scope table primary : Z) : TC (Z * option index_object) :=
  s ← get_st; on_idx (search (find_table code scope table s) (fun tid => find_row key_primary [tid; primary])).
Definition lowerbound_primary (code scope table primary : Z) : TC (Z * option index_object) :=
  s ← get_st; on_idx (search (find_table code scope table s) (fun tid => lower_bound key_primary [tid; primary])).
Definition upperbound_primary (code scope table primary : Z) : TC (Z * option index_object) :=
  s ← get_st; on_idx (search (find_table code scope table s) (fun tid => upper_bound key_primary [tid; primary])).
Definition next_primary (iterator : Z) : TC (Z * option index_object) := on_idx (next key_primary iterator).
Definition previous_primary (iterator : Z) : TC (Z * option index_object) :=
  s ← get_st; on_idx (previous key_primary (tables s) iterator).
End Calls.

(** ** Well-formed tables *)

(** The cache hands out one iterator per row, to rows that exist and whose table
    it knows, and one end iterator per table. *)
Record cache_wf {D} (m : gmap Z (row D)) (c : iterator_cache) : Prop := mk_cache_wf
  { cw_pos : ∀ id it, object_to_iterator c !! id = Some it → 0 ≤ it;
    cw_inv : ∀ n id, iterator_to_object c !! n = Some (Some id) ↔ object_to_iterator c !! id = Some (Z.of_nat n);
    cw_alive : ∀ n id, iterator_to_object c !! n = Some (Some id) →
      ∃ r, m !! id = Some r ∧ is_Some (table_cache c !! r_tid r);
    cw_end : ∀ tid ei, table_cache c !! tid = Some ei ↔
      ∃ n, end_iterator_to_table c !! n = Some tid ∧ ei = index_to_end_iterator (Z.of_nat n) }.

Record part_wf {D} (tabs : gmap Z table_id_object) (p : part D) : Prop := mk_part_wf
  { pw_next : ∀ id r, rows p !! id = Some r → id < next_row p;
    pw_unique : ∀ i j r r', rows p !! i = Some r → rows p !! j = Some r' →
      r_tid r = r_tid r' → r_primary r = r_primary r' → i = j;
    pw_table : ∀ id r, rows p !! id = Some r → is_Some (tabs !! r_tid r);
    pw_cache : cache_wf (rows p) (cache p) }.

Definition in_table {D} (tid : Z) (r : row D) : Z := if r_tid r =? tid then 1 else 0.
Definition count_of {D} (tid : Z) (p : part D) : Z := map_sum (in_table tid) (rows p).

(** Tables are told apart by code, scope and name, count their rows in both
    parts, and are not empty, but for [ex]. *)
Record tables_wf (ex : option Z) (s : tstate) : Prop := mk_tables_wf
  { tw_next : ∀ tid t, tables s !! tid = Some t → tid < next_table s;
    tw_unique : ∀ i j t t', tables s !! i = Some t → tables s !! j = Some t' →
      t_code t = t_code t' → t_scope t = t_scope t' → t_table t = t_table t' → i = j;
    tw_count : ∀ tid t, tables s !! tid = Some t → t_count t = count_of tid (kv s) + count_of tid (idx s);
    tw_nonempty : ∀ tid t, tables s !! tid = Some t → ex ≠ Some tid → 0 < t_count t;
    tw_kv : part_wf (tables s) (kv s);
    tw_idx : part_wf (tables s) (idx s) }.

(** ** The cache *)

Section CacheLemmas.
Context {D : Type}.
Implicit Types (m : gmap Z (row D)) (c : iterator_cache).

Lemma cache_table_wf m c tid : cache_wf m c → cache_wf m (cache_table tid c).2.
Proof.
  intros Hc. unfold cache_table. destruct (table_cache c !! tid) as [ei|] eqn:E; [done|]. cbn.
  split; cbn; [apply Hc|apply Hc|..].
  - intros n id Hn. destruct (cw_alive _ _ Hc n id Hn) as (r & Hr & Ht). exists r. split; [done|]. by apply is_Some_put.
  - intros t ei. rewrite lookup_insert_Some. split.
    + intros [[<- <-]|[Hne (n & Hn & ->)%(cw_end _ _ Hc)]].
      * exists (length (end_iterator_to_table c)). by rewrite list_lookup_middle.
      * exists n. by rewrite (lookup_app_l_Some _ _ _ _ Hn).
    + intros (n & [Hn|[Hlen Hn]]%lookup_app_Some & ->).
      * right. assert (is_Some (table_cache c !! t)) as [x Hx] by (eexists; apply (cw_end _ _ Hc); eauto).
        split; [congruence|]. apply (cw_end _ _ Hc). eauto.
      * left. apply list_lookup_singleton_Some in Hn as [Hn ->]. split; [done|]. do 2 f_equal. lia.
Qed.

Lemma cache_table_known c tid : table_cache (cache_table tid c).2 !! tid = Some (cache_table tid c).1.
Proof. unfold cache_table. destruct (table_cache c !! tid) eqn:E; cbn; [done|]. by rewrite lookup_insert_eq. Qed.

Lemma cache_add_wf m c id r :
  cache_wf m c → m !! id = Some r → is_Some (table_cache c !! r_tid r) → cache_wf m (cache_add id c).2.
Proof.
  intros Hc Hr Ht. unfold cache_add. destruct (object_to_iterator c !! id) as [it|] eqn:E; [done|]. cbn.
  split; cbn; [| | |apply Hc].
  - intros i it. rewrite lookup_insert_Some. intros [[_ <-]|[_ Hi]]; [lia|]. by eapply (cw_pos _ _ Hc).
  - intros n i. rewrite lookup_insert_Some, lookup_app_Some, list_lookup_singleton_Some. split.
    + intros [Hn|(Hlen & Hn & [= ->])].
      * right. apply (cw_inv _ _ Hc) in Hn. split; [congruence|done].
      * left. split; [done|]. lia.
    + intros [[<- Hn]|[Hne Hn]]; [right|left; by apply (cw_inv _ _ Hc)].
      split; [lia|]. split; [lia|done].
  - intros n i. rewrite lookup_app_Some, list_lookup_singleton_Some.
    intros [Hn|(_ & _ & [= ->])]; [by eapply (cw_alive _ _ Hc)|eauto].
Qed.

(** The iterator that was handed out leads back to the row. *)
Lemma cache_add_get m c id :
  cache_wf m c → cache_get (cache_add id c).1 (cache_add id c).2 = Ok id.
Proof.
  intros Hc. unfold cache_add, cache_get. destruct (object_to_iterator c !! id) as [it|] eqn:E; cbn.
  - pose proof (cw_pos _ _ Hc _ _ E). replace it with (Z.of_nat (Z.to_nat it)) in E by lia.
    apply (cw_inv _ _ Hc) in E. pose proof (lookup_lt_Some _ _ _ E).
    rewrite (proj2 (Z.eqb_neq it (-1))), (proj2 (Z.leb_le 0 it)), (proj2 (Z.ltb_lt it _)) by lia. cbn. by rewrite E.
  - set (n := length (iterator_to_object c)). rewrite length_app. cbn.
    rewrite (proj2 (Z.eqb_neq _ (-1))), (proj2 (Z.leb_le 0 _)), (proj2 (Z.ltb_lt _ _)) by lia. cbn.
    unfold n. by rewrite Nat2Z.id, list_lookup_middle.
Qed.

Lemma cache_get_ok m c it id : cache_wf m c → cache_get it c = Ok id →
  0 ≤ it ∧ iterator_to_object c !! Z.to_nat it = Some (Some id) ∧
  ∃ r, m !! id = Some r ∧ is_Some (table_cache c !! r_tid r).
Proof.
  intros Hc H. unfold cache_get in H. simpl_ok. to_prop.
  destruct (iterator_to_object c !! Z.to_nat it) as [[i|]|] eqn:E; try done. cbn in H. injection H as ->.
  split; [done|]. split; [done|]. by eapply (cw_alive _ _ Hc).
Qed.

(** A new row, a row that stays in its table. *)
Lemma cache_wf_insert m c id r :
  cache_wf m c → (∀ r', m !! id = Some r' → r_tid r' = r_tid r) → cache_wf (<[id := r]> m) c.
Proof.
  intros Hc Hid. split; try apply Hc. intros n i Hn. destruct (cw_alive _ _ Hc n i Hn) as (r' & Hr' & Ht).
  destruct (decide (id = i)) as [->|Hne]; [|exists r'; by rewrite lookup_insert_ne].
  exists r. rewrite lookup_insert_eq. split; [done|]. by rewrite <- (Hid r').
Qed.

(** Removing a row and its iterator. *)
Lemma cache_remove_wf m c it id :
  cache_wf m c → cache_get it c = Ok id → ∃ c', cache_remove it c = Ok c' ∧ cache_wf (delete id m) c'.
Proof.
  intros Hc Hg. pose proof (cache_get_ok m c it id Hc Hg) as (Hpos & Hn & _).
  pose proof (lookup_lt_Some _ _ _ Hn). unfold cache_remove.
  rewrite (proj2 (Z.eqb_neq it (-1))), (proj2 (Z.leb_le 0 it)), (proj2 (Z.ltb_lt it _)) by lia. cbn. rewrite Hn. cbn.
  eexists. split; [done|]. set (n := Z.to_nat it) in *.
  assert (∀ k i, <[n := None]> (iterator_to_object c) !! k = Some (Some i) ↔
                 k ≠ n ∧ iterator_to_object c !! k = Some (Some i)) as Hl.
  { intros k i. rewrite list_lookup_insert_Some. split.
    - intros [(_ & [=] & _)|[Hne Hk]]. split; [congruence|done].
    - intros [Hne Hk]. right. split; [congruence|done]. }
  split; cbn; [| | |apply Hc].
  - intros i x [_ Hi]%lookup_delete_Some. by eapply (cw_pos _ _ Hc).
  - intros k i. rewrite Hl, lookup_delete_Some, (cw_inv _ _ Hc k i).
    split; intros [Hne Hi]; (split; [|done]); intros ->; apply Hne.
    + apply (cw_inv _ _ Hc) in Hn. rewrite Hi in Hn. by simplify_eq.
    + apply (cw_inv _ _ Hc) in Hi. rewrite Hi in Hn. by simplify_eq.
  - intros k i [Hne Hi]%Hl. destruct (cw_alive _ _ Hc k i Hi) as (r & Hr & Ht). exists r.
    rewrite lookup_delete_ne; [done|]. intros <-. apply (cw_inv _ _ Hc) in Hi, Hn. apply Hne. rewrite Hi in Hn. by simplify_eq.
Qed.
End CacheLemmas.

(** ** Searching in the order of an index *)

Lemma compare_key_opp a b : compare_key b a = CompOpp (compare_key a b).
Proof.
  revert b. induction a as [|x a IH]; intros [|y b]; try done. cbn.
  rewrite (Z.compare_antisym x y). destruct (x ?= y); cbn; auto.
Qed.

Lemma compare_key_refl a : compare_key a a = Eq.
Proof. induction a as [|x a IH]; [done|]. cbn. by rewrite Z.compare_refl. Qed.

(** A key at least as large as one beyond [k] is beyond [k]. *)
Lemma compare_key_beyond a b k :
  (length k ≤ length a)%nat → length a = length b →
  compare_key a b ≠ Gt → compare_key a k = Gt → compare_key b k = Gt.
Proof.
  revert b k. induction a as [|x a IH]; intros [|y b] [|z k] Hk Hl Hab Hak; cbn in *; try done; try lia.
  destruct (Z.compare_spec x y) as [->|Hxy|Hxy]; [| |done].
  - destruct (y ?= z) eqn:Hyz; try done. apply (IH b k); auto; lia.
  - destruct (Z.compare_spec x z) as [->|Hxz|Hxz]; [|done|]; destruct (Z.compare_spec y z); try done; lia.
Qed.

Lemma compare_key_trans a b c :
  length a = length b → length b = length c →
  compare_key a b ≠ Gt → compare_key b c ≠ Gt → compare_key a c ≠ Gt.
Proof.
  intros H1 H2 Hab Hbc Hac. apply Hbc. eapply compare_key_beyond; [|done|done|done]. lia.
Qed.

(** The first element of a sorted list that passes a test is the least one that does. *)
Lemma find_least {A} (le : A → A → Prop) f l x :
  StronglySorted le l → find f l = Some x → x ∈ l ∧ f x = true ∧ ∀ y, y ∈ l → f y = true → y = x ∨ le x y.
Proof.
  induction 1 as [|a l Hs IH Ha]; [done|]. cbn. destruct (f a) eqn:Hf.
  - intros [= <-]. split; [left|]. split; [done|]. intros y [->|Hy]%elem_of_cons _; [by left|].
    right. rewrite Forall_forall in Ha. by apply Ha.
  - intros (Hx & Hfx & Hmin)%IH. split; [by right|]. split; [done|].
    intros y [->|Hy]%elem_of_cons Hfy; [congruence|]. auto.
Qed.

Lemma find_none_all {A} (f : A → bool) l : find f l = None → ∀ y, y ∈ l → f y = false.
Proof. intros H y Hy. by apply (find_none _ _ H), list_elem_of_In. Qed.

Lemma StronglySorted_reverse {A} (le : A → A → Prop) l : StronglySorted le l → StronglySorted (flip le) (reverse l).
Proof.
  induction 1 as [|a l Hs IH Ha]; [constructor|]. rewrite reverse_cons. rewrite Forall_forall in Ha. apply StronglySorted_app.
  split; [|split; [done|repeat constructor]].
  intros x y Hx ->%list_elem_of_singleton. apply Ha. by rewrite elem_of_reverse in Hx.
Qed.

Section Order.
Context {D : Type} (key : row D → list Z) (n : nat) (Hkey : ∀ r, length (key r) = n).
Implicit Types p : part D.

#[local] Instance row_le_total : Total (row_le key).
Proof.
  intros x y. unfold row_le. rewrite (compare_key_opp (key x.2) (key y.2)).
  destruct (compare_key (key x.2) (key y.2)); cbn; auto.
Qed.
#[local] Instance row_le_trans : Transitive (row_le key).
Proof. intros x y z. unfold row_le. apply compare_key_trans; by rewrite !Hkey. Qed.

Lemma in_order_sorted p : StronglySorted (row_le key) (in_order key p).
Proof using Hkey. apply StronglySorted_merge_sort; apply _. Qed.

Lemma elem_of_in_order p id r : (id, r) ∈ in_order key p ↔ rows p !! id = Some r.
Proof. unfold in_order. rewrite merge_sort_Permutation. apply elem_of_map_to_list. Qed.

Lemma lower_bound_some k p id r :
  lower_bound key k p = Some (id, r) →
  rows p !! id = Some r ∧ compare_key (key r) k ≠ Lt ∧
  ∀ i r', rows p !! i = Some r' → compare_key (key r') k ≠ Lt → compare_key (key r) (key r') ≠ Gt.
Proof using Hkey.
  intros H. apply (find_least _ _ _ _ (in_order_sorted p)) in H as (Hin & Hf & Hmin). to_prop.
  split; [by apply elem_of_in_order|]. split; [done|]. intros i r' Hr' Hk.
  destruct (Hmin (i, r')) as [[= -> ->]|Hle]; [by apply elem_of_in_order|by apply bool_decide_eq_true| |exact Hle].
  by rewrite compare_key_refl.
Qed.

Lemma upper_bound_some k p id r :
  upper_bound key k p = Some (id, r) →
  rows p !! id = Some r ∧ compare_key (key r) k = Gt ∧
  ∀ i r', rows p !! i = Some r' → compare_key (key r') k = Gt → compare_key (key r) (key r') ≠ Gt.
Proof using Hkey.
  intros H. apply (find_least _ _ _ _ (in_order_sorted p)) in H as (Hin & Hf & Hmin). to_prop.
  split; [by apply elem_of_in_order|]. split; [done|]. intros i r' Hr' Hk.
  destruct (Hmin (i, r')) as [[= -> ->]|Hle]; [by apply elem_of_in_order|by apply bool_decide_eq_true| |exact Hle].
  by rewrite compare_key_refl.
Qed.

Lemma upper_bound_none k p : upper_bound key k p = None → ∀ i r, rows p !! i = Some r → compare_key (key r) k ≠ Gt.
Proof.
  intros H i r Hr. assert ((i, r) ∈ in_order key p) as Hin by by apply elem_of_in_order.
  apply (find_none_all _ _ H), bool_decide_eq_false in Hin. done.
Qed.

Lemma lower_bound_none k p : lower_bound key k p = None → ∀ i r, rows p !! i = Some r → compare_key (key r) k = Lt.
Proof.
  intros H i r Hr. assert ((i, r) ∈ in_order key p) as Hin by by apply elem_of_in_order.
  apply (find_none_all _ _ H), bool_decide_eq_false in Hin. cbn in Hin. destruct (compare_key (key r) k); [|done|]; by destruct Hin.
Qed.

Lemma find_row_some k p id r : find_row key k p = Some (id, r) → rows p !! id = Some r ∧ compare_key (key r) k = Eq.
Proof using Hkey.
  unfold find_row. destruct (lower_bound key k p) as [[i r']|] eqn:E; [|done].
  apply lower_bound_some in E as (Hr & _). case_decide; [|done]. by intros [= -> ->].
Qed.

Lemma find_row_none k p :
  (length k ≤ n)%nat → find_row key k p = None → ∀ i r, rows p !! i = Some r → compare_key (key r) k ≠ Eq.
Proof using Hkey.
  intros Hk H i r Hr Heq. unfold find_row in H. destruct (lower_bound key k p) as [[j x]|] eqn:E.
  - apply lower_bound_some in E as (Hx & Hge & Hmin). case_decide as Hd; [done|]. cbn in Hd.
    assert (compare_key (key x) k = Gt) as Hgt by (by destruct (compare_key (key x) k)).
    assert (compare_key (key r) k = Gt) as Hc; [|congruence].
    eapply compare_key_beyond; [| |by apply (Hmin i r); [done|rewrite Heq]|done]; by rewrite !Hkey.
  - rewrite (lower_bound_none _ _ E _ _ Hr) in Heq. done.
Qed.
End Order.

(** ** Reading keeps the rows *)

(** Reading changes nothing but the cache. *)
Definition same_rows {D} (p p' : part D) : Prop := rows p' = rows p ∧ next_row p' = next_row p.

Lemma part_wf_cache {D} tabs (p : part D) c :
  part_wf tabs p → cache_wf (rows p) c → part_wf tabs (mk_part (rows p) (next_row p) c).
Proof. intros Hp Hc. split; try apply Hp. done. Qed.

Section Reading.
Context {D : Type} (tabs : gmap Z table_id_object).
Implicit Types p : part D.

Definition from_rows p (found : option (Z * row D)) : Prop :=
  ∀ id r, found = Some (id, r) → rows p !! id = Some r.

Lemma hand_out_ok tid found otherwise p a p' :
  part_wf tabs p → from_rows p found → is_Some (table_cache (cache p) !! tid) →
  hand_out tid found otherwise p = (Ok a, p') →
  same_rows p p' ∧ part_wf tabs p' ∧
  ((∃ id r, found = Some (id, r) ∧ r_tid r = tid ∧ a.2 = Some r ∧ cache_get a.1 (cache p') = Ok id)
   ∨ otherwise = Ok a.1 ∧ a.2 = None ∧ (∀ id r, found = Some (id, r) → r_tid r ≠ tid)).
Proof.
  intros Hp Hf Ht H. unfold hand_out in H. destruct found as [[id r]|]; simpl_ok.
  - destruct (Z.eqb_spec (r_tid r) tid) as [Heq|Hne]; simpl_ok.
    + unfold on_cache in H0. destruct (cache_add id (cache p)) as [it c] eqn:E. simplify_eq. cbn.
      split; [done|]. assert (cache_wf (rows p) c) as Hc.
      { replace c with (cache_add id (cache p)).2 by by rewrite E. eapply cache_add_wf; [apply Hp|by apply Hf|done]. }
      split; [by apply part_wf_cache|]. left. exists id, r. split; [done|]. split; [done|]. split; [done|].
      pose proof (cache_add_get (rows p) (cache p) id (pw_cache _ _ Hp)) as Hg. by rewrite E in Hg.
    + split; [done|]. split; [done|]. right. split; [done|]. split; [done|]. by intros ?? [= <- <-].
  - split; [done|]. split; [done|]. right. done.
Qed.

Lemma find_from_rows f l p : (∀ x, x ∈ l → rows p !! x.1 = Some x.2) → from_rows p (find f l).
Proof. intros Hl id r H. apply find_some in H as [Hin _]. by apply (Hl (id, r)), list_elem_of_In. Qed.

Lemma bounds_from_rows key k p :
  from_rows p (lower_bound key k p) ∧ from_rows p (upper_bound key k p) ∧
  from_rows p (before_lower key k p) ∧ from_rows p (before_upper key k p) ∧ from_rows p (find_row key k p).
Proof.
  assert (∀ x, x ∈ in_order key p → rows p !! x.1 = Some x.2) as Hin by (intros [i r]; apply elem_of_in_order).
  assert (∀ x, x ∈ reverse (in_order key p) → rows p !! x.1 = Some x.2) as Hrev
    by (intros x; rewrite elem_of_reverse; apply Hin).
  assert (from_rows p (lower_bound key k p)) as Hl by by apply find_from_rows.
  split; [done|]. split; [by apply find_from_rows|]. split; [by apply find_from_rows|]. split; [by apply find_from_rows|].
  intros id r. unfold find_row. destruct (lower_bound key k p) as [[j x]|]; [|done].
  case_decide; [|done]. intros [= -> ->]. by apply Hl.
Qed.

Lemma on_cache_table_ok tid p ei p' :
  part_wf tabs p → on_cache (cache_table tid) p = (Ok ei, p') →
  same_rows p p' ∧ part_wf tabs p' ∧ table_cache (cache p') !! tid = Some ei.
Proof.
  intros Hp H. unfold on_cache in H. destruct (cache_table tid (cache p)) as [x c] eqn:E. simplify_eq. cbn.
  split; [done|]. pose proof (cache_table_known (cache p) tid) as Hk. rewrite E in Hk. split; [|done].
  apply part_wf_cache; [done|]. replace c with (cache_table tid (cache p)).2 by by rewrite E. apply cache_table_wf, Hp.
Qed.

Lemma deref_ok it p id r p' :
  part_wf tabs p → deref it p = (Ok (id, r), p') →
  p' = p ∧ cache_get it (cache p) = Ok id ∧ rows p !! id = Some r ∧ is_Some (table_cache (cache p) !! r_tid r).
Proof.
  intros Hp H. unfold deref in H. simpl_ok. split; [done|]. split; [done|]. split; [done|].
  match goal with H : cache_get _ _ = Ok _ |- _ =>
    apply (cache_get_ok (rows p) _ _ _ (pw_cache _ _ Hp)) in H as (_ & _ & r' & Hr' & Ht) end.
  congruence.
Qed.

Lemma search_ok tab bound p a p' :
  part_wf tabs p → (∀ tid p, from_rows p (bound tid p)) → search tab bound p = (Ok a, p') →
  same_rows p p' ∧ part_wf tabs p'.
Proof.
  intros Hp Hb H. unfold search in H. destruct tab as [tid|]; simpl_ok; [|done].
  match goal with H : on_cache _ _ = _ |- _ => apply (on_cache_table_ok _ _ _ _ Hp) in H as ([Hr Hn] & Hp1 & Hk) end.
  apply hand_out_ok in H as ([Hr' Hn'] & Hp' & _); [|done|apply Hb|eauto].
  split; [|done]. split; congruence.
Qed.

Lemma end_of_ok tab p a p' : part_wf tabs p → end_of tab p = (Ok a, p') → same_rows p p' ∧ part_wf tabs p'.
Proof.
  intros Hp H. unfold end_of in H. destruct tab; simpl_ok; [|done].
  apply (on_cache_table_ok _ _ _ _ Hp) in H as (? & ? & _). done.
Qed.

Lemma next_ok key it p a p' : part_wf tabs p → next key it p = (Ok a, p') → same_rows p p' ∧ part_wf tabs p'.
Proof.
  intros Hp H. unfold next in H. destruct (it <? -1); simpl_ok; [done|]. destruct x as [id r]. simpl_ok.
  match goal with H : deref _ _ = _ |- _ => apply (deref_ok _ _ _ _ _ Hp) in H as (-> & _ & _ & Ht) end.
  apply hand_out_ok in H as (? & ? & _); [done|done|apply bounds_from_rows|done].
Qed.

Lemma previous_ok key it p a p' :
  part_wf tabs p → previous key tabs it p = (Ok a, p') → same_rows p p' ∧ part_wf tabs p'.
Proof.
  intros Hp H. unfold previous in H. destruct (it <? -1); simpl_ok.
  - apply hand_out_ok in H as (? & ? & _); [done|done|apply bounds_from_rows|].
    match goal with H : find_table_by_end_iterator _ _ = Ok _ |- _ => unfold find_table_by_end_iterator in H; simpl_ok end.
    subst x1. destruct (_ <=? _) in H1; simplify_eq. injection H1 as H1. eexists. apply (cw_end _ _ (pw_cache _ _ Hp)). eauto.
  - destruct x as [id r]. simpl_ok.
    match goal with H : deref _ _ = _ |- _ => apply (deref_ok _ _ _ _ _ Hp) in H as (-> & _ & _ & Ht) end.
    apply hand_out_ok in H as (? & ? & _); [done|done|apply bounds_from_rows|done].
Qed.
End Reading.

(** ** What the tables contain *)

Definition table_key : Type := Z * Z * Z.
Definition names (tabs : gmap Z table_id_object) (tid : Z) : option table_key :=
  (fun t => (t_code t, t_scope t, t_table t)) <$> tabs !! tid.

(** The rows as a contract sees them: by code, scope, table and primary key. *)
Definition content {D} (tabs : gmap Z table_id_object) (m : gmap Z (row D)) (k : table_key * Z) (v : Z * D) : Prop :=
  ∃ id r, m !! id = Some r ∧ names tabs (r_tid r) = Some k.1 ∧ r_primary r = k.2 ∧ v = (r_payer r, r_data r).

Definition has (s : tstate) : table_key * Z → Z * bytes → Prop := content (tables s) (rows (kv s)).

Section Content.
Context {D : Type}.
Implicit Types m : gmap Z (row D).

Lemma content_names tabs tabs' m :
  (∀ id r, m !! id = Some r → names tabs' (r_tid r) = names tabs (r_tid r)) →
  ∀ k v, content tabs' m k v ↔ content tabs m k v.
Proof.
  intros H k v. split; intros (id & r & Hr & Hn & Hp & Hv); exists id, r; (split; [done|]); (split; [|done]).
  - by rewrite <- (H id).
  - by rewrite (H id).
Qed.

Lemma content_insert tabs m id r k v :
  m !! id = None →
  content tabs (<[id := r]> m) k v ↔
  (names tabs (r_tid r) = Some k.1 ∧ r_primary r = k.2 ∧ v = (r_payer r, r_data r)) ∨ content tabs m k v.
Proof.
  intros Hid. split.
  - intros (i & r' & [[<- <-]|[_ Hi]]%lookup_insert_Some & H); [by left|right; by exists i, r'].
  - intros [H|(i & r' & Hi & H)].
    + exists id, r. by rewrite lookup_insert_eq.
    + exists i, r'. rewrite lookup_insert_ne; [done|]. congruence.
Qed.

(** A key has one row. *)
Definition keyed tabs m : Prop :=
  ∀ i j r r', m !! i = Some r → m !! j = Some r' → is_Some (names tabs (r_tid r)) →
    names tabs (r_tid r) = names tabs (r_tid r') → r_primary r = r_primary r' → i = j.

Lemma content_delete tabs m id r t k v :
  keyed tabs m → m !! id = Some r → names tabs (r_tid r) = Some t →
  content tabs (delete id m) k v ↔ k ≠ (t, r_primary r) ∧ content tabs m k v.
Proof.
  intros Hk Hid Ht. split.
  - intros (i & r' & [Hne Hi]%lookup_delete_Some & Hn & Hp & Hv). split; [|by exists i, r'].
    intros ->. cbn in *. apply Hne. eapply Hk; [exact Hid|exact Hi|by rewrite Ht|congruence|done].
  - intros [Hne (i & r' & Hi & Hn & Hp & Hv)]. exists i, r'. split; [|done]. rewrite lookup_delete_ne; [done|].
    intros <-. assert (r' = r) as -> by congruence. apply Hne. rewrite Ht in Hn. destruct k. cbn in *. congruence.
Qed.

Lemma content_update tabs m id r t payer data k v :
  keyed tabs m → m !! id = Some r → names tabs (r_tid r) = Some t →
  content tabs (<[id := mk_row (r_tid r) (r_primary r) payer data]> m) k v ↔
  (k = (t, r_primary r) ∧ v = (payer, data)) ∨ (k ≠ (t, r_primary r) ∧ content tabs m k v).
Proof.
  intros Hk Hid Ht. rewrite <- insert_delete_eq, content_insert by apply lookup_delete_eq.
  rewrite (content_delete _ _ _ _ _ _ _ Hk Hid Ht). cbn. rewrite Ht.
  split; (intros [H|H]; [left|by right]).
  - destruct H as (Hn & Hp & ->). split; [|done]. destruct k. cbn in *. congruence.
  - by destruct H as [-> ->].
Qed.
End Content.

Lemma names_put tabs tid t t' i :
  tabs !! tid = Some t → t_code t' = t_code t → t_scope t' = t_scope t → t_table t' = t_table t →
  names (<[tid := t']> tabs) i = names tabs i.
Proof.
  intros Ht Hc Hs Hn. unfold names. destruct (decide (tid = i)) as [<-|]; [|by rewrite lookup_insert_ne].
  rewrite lookup_insert_eq, Ht. cbn. by rewrite Hc, Hs, Hn.
Qed.

Lemma names_some tabs tid t : names tabs tid = Some t ↔
  ∃ o, tabs !! tid = Some o ∧ t = (t_code o, t_scope o, t_table o).
Proof. unfold names. rewrite fmap_Some. done. Qed.

(** Table names and primary keys tell rows apart. *)
Lemma wf_keyed ex s : tables_wf ex s → keyed (tables s) (rows (kv s)).
Proof.
  intros Hw i j r r' Hi Hj [t Ht] Hn Hp. rewrite Ht in Hn. symmetry in Hn.
  apply names_some in Ht as (o & Ho & ->), Hn as (o' & Ho' & [= Hc Hs Hnm]).
  assert (r_tid r = r_tid r') by (by eapply (tw_unique _ _ Hw)).
  by eapply (pw_unique _ _ (tw_kv _ _ Hw)).
Qed.

(** ** RAM: what accounts are charged and what their rows take *)

Definition usage (a : Z) (x : context) : Z :=
  match ResourceLimits.usages (limits (db x)) !! a with Some u => ResourceLimits.ram_usage u | None => 0 end.

Definition paid_by {A} (payer : A → Z) (size : A → Z) (a : Z) (o : A) : Z := if payer o =? a then size o else 0.

Definition kv_size (r : key_value_object) : Z := size_of (r_data r) + billable_key_value.

(** The bytes of the tables and rows that [a] pays for. *)
Definition billed (a : Z) (s : tstate) : Z :=
  map_sum (paid_by t_payer (fun _ => billable_table) a) (tables s)
  + map_sum (paid_by r_payer kv_size a) (rows (kv s))
  + map_sum (paid_by r_payer (fun _ => billable_index) a) (rows (idx s)).

(** What [a] uses for other things than tables. *)
Definition other_usage (a : Z) (s : tstate) : Z := usage a (ctx s) - billed a s.

(** Usages are 64-bit words, values fit the memory of a contract. *)
Record ranges (s : tstate) : Prop := mk_ranges
  { rg_usage : ∀ a u, ResourceLimits.usages (limits (db (ctx s))) !! a = Some u → 0 ≤ ResourceLimits.ram_usage u ≤ u64_max;
    rg_value : ∀ id r, rows (kv s) !! id = Some r → size_of (r_data r) ≤ u32_max }.

Definition charge (a payer delta : Z) : Z := if payer =? a then delta else 0.

Lemma add_ram_usage_exact payer delta x u x' :
  add_ram_usage payer delta x = (Ok u, x') → i64_min ≤ delta ≤ i64_max →
  (∀ a u, ResourceLimits.usages (limits (db x)) !! a = Some u → 0 ≤ ResourceLimits.ram_usage u ≤ u64_max) →
  (∀ a, usage a x' = usage a x + charge a payer delta) ∧
  (∀ a u, ResourceLimits.usages (limits (db x')) !! a = Some u → 0 ≤ ResourceLimits.ram_usage u ≤ u64_max).
Proof.
  intros H Hd Hr. unfold add_ram_usage, on_limits in H. simpl_ok.
  destruct (ResourceLimits.add_pending_ram_usage _ _ _) as [r l] eqn:E. simplify_eq.
  unfold usage, charge. cbn [db limits set_db set_rl].
  destruct (ResourceLimits.usages (limits (db x)) !! payer) as [v|] eqn:Hv.
  - pose proof (ResourceLimits.add_pending_exact payer delta _ v Hv (Hr _ _ Hv) Hd) as Hx.
    unfold run in Hx. rewrite E in Hx. destruct (_ && _) eqn:Hc; [|done]. to_prop. injection Hx as ->. cbn. split.
    + intros a. destruct (Z.eqb_spec payer a) as [->|Hne].
      * by rewrite lookup_insert_eq, Hv.
      * rewrite lookup_insert_ne by done. lia.
    + intros a u' [[<- <-]|[_ ?]]%lookup_insert_Some; [cbn; lia|by eapply Hr].
  - unfold ResourceLimits.add_pending_ram_usage in E. destruct (Z.eqb_spec delta 0) as [->|].
    + simpl_ok. split; [|done]. intros a. destruct (payer =? a); lia.
    + simpl_ok. unfold ResourceLimits.get_row in *. simpl_ok. congruence.
Qed.

Lemma set_ctx_id s : set_ctx (ctx s) s = s.
Proof. by destruct s. Qed.

Lemma update_db_usage_ok e payer delta s u s' :
  update_db_usage e payer delta s = (Ok u, s') → i64_min ≤ delta ≤ i64_max → ranges s →
  ∃ x, s' = set_ctx x s ∧ ranges s' ∧ ∀ a, usage a x = usage a (ctx s) + charge a payer delta.
Proof.
  intros H Hd Hr. unfold update_db_usage in H. simpl_ok.
  assert (∃ x, x0 = set_ctx x s ∧ db x = db (ctx s)) as (y & -> & Hy).
  { destruct (0 <? delta); simpl_ok; [|by exists (ctx s); rewrite set_ctx_id].
    destruct (_ || _); simpl_ok; [by exists (ctx s); rewrite set_ctx_id|].
    unfold on_ctx in H0. destruct (require_authorization _ _ _) as [r y] eqn:E. simplify_eq.
    exists y. split; [done|]. by eapply require_authorization_db. }
  unfold on_ctx in H. cbn [ctx set_ctx] in H. destruct (add_ram_usage payer delta y) as [r z] eqn:E. simplify_eq.
  apply add_ram_usage_exact in E as [Hu Hr']; [|done|rewrite Hy; apply Hr].
  exists z. split; [done|]. split; [split; [exact Hr'|apply Hr]|].
  intros a. rewrite Hu. unfold usage. by rewrite Hy.
Qed.

(** [tables_wf] does not look at the context. *)
Lemma tables_wf_ctx ex x s : tables_wf ex s → tables_wf ex (set_ctx x s).
Proof. intros H. split; apply H. Qed.

(** After a charge: the tables are the same, the rest of the usage grew by it. *)
Lemma update_db_usage_wf e payer delta ex s u s' :
  update_db_usage e payer delta s = (Ok u, s') → i64_min ≤ delta ≤ i64_max → ranges s → tables_wf ex s →
  tables_wf ex s' ∧ ranges s' ∧ (∃ x, s' = set_ctx x s) ∧
  ∀ a, other_usage a s' = other_usage a s + charge a payer delta.
Proof.
  intros H Hd Hr Hw. destruct (update_db_usage_ok _ _ _ _ _ _ H Hd Hr) as (x & -> & Hr' & Hu).
  split; [by apply tables_wf_ctx|]. split; [done|]. split; [eauto|].
  intros a. unfold other_usage, billed. cbn. rewrite Hu. lia.
Qed.

Lemma find_table_some code scope table s tid :
  find_table code scope table s = Some tid →
  ∃ t, tables s !! tid = Some t ∧ t_code t = code ∧ t_scope t = scope ∧ t_table t = table.
Proof.
  unfold find_table. intros H. apply fmap_Some in H as ([i t] & [Hin Ht]%find_some & ->). cbn in *. to_prop.
  exists t. split; [by apply elem_of_map_to_list, list_elem_of_In|done].
Qed.

Lemma find_table_none code scope table s :
  find_table code scope table s = None →
  ∀ tid t, tables s !! tid = Some t → ¬ (t_code t = code ∧ t_scope t = scope ∧ t_table t = table).
Proof.
  unfold find_table. intros H tid t Ht (Hc & Hs & Hn). apply fmap_None in H.
  apply elem_of_map_to_list, list_elem_of_In in Ht. apply (find_none _ _ H) in Ht. cbn in Ht. by rewrite Hc, Hs, Hn, !Z.eqb_refl in Ht.
Qed.

Lemma count_of_nonneg {D} tid (p : part D) : 0 ≤ count_of tid p.
Proof. apply map_sum_nonneg. intros ? r _. unfold in_table. case_match; lia. Qed.

Lemma count_of_absent {D} tid (p : part D) : (∀ id r, rows p !! id = Some r → r_tid r ≠ tid) → count_of tid p = 0.
Proof.
  intros H. unfold count_of. apply Z.le_antisymm; [|apply count_of_nonneg].
  revert H. generalize (rows p). intros m. induction m as [|k r m Hk IH] using map_ind; intros H.
  - by rewrite map_sum_empty.
  - rewrite map_sum_insert by done. unfold in_table at 1.
    rewrite (proj2 (Z.eqb_neq _ _)) by (apply (H k); apply lookup_insert_eq).
    apply IH. intros id r' Hr'. apply (H id). rewrite lookup_insert_ne; [done|]. intros ->. congruence.
Qed.

(** ** Writing *)

Lemma count_of_le_size {D} tid (p : part D) : count_of tid p ≤ Z.of_nat (size (rows p)).
Proof.
  unfold count_of. generalize (rows p). intros m. induction m as [|k r m Hk IH] using map_ind.
  - by rewrite map_sum_empty, map_size_empty.
  - rewrite map_sum_insert, map_size_insert_None by done. unfold in_table at 1. case_match; lia.
Qed.

Lemma part_wf_tables {D} tabs tabs' (p : part D) :
  part_wf tabs p → (∀ id r, rows p !! id = Some r → is_Some (tabs' !! r_tid r)) → part_wf tabs' p.
Proof. intros Hp Ht. split; try apply Hp. done. Qed.

Lemma part_wf_known {D} tabs (p : part D) tid t :
  part_wf tabs p → is_Some (tabs !! tid) → part_wf (<[tid := t]> tabs) p.
Proof. intros Hp Ht. eapply part_wf_tables; [done|]. intros id r Hr. apply is_Some_put. by eapply (pw_table _ _ Hp). Qed.

Lemma compare_primary_eq {D} (r r' : row D) :
  compare_key (key_primary r) (key_primary r') = Eq ↔ r_tid r = r_tid r' ∧ r_primary r = r_primary r'.
Proof.
  cbn. destruct (Z.compare_spec (r_tid r) (r_tid r')); [|split; [done|lia]..].
  destruct (Z.compare_spec (r_primary r) (r_primary r')); split; try done; lia.
Qed.

(** A new row under a key that its table does not have yet. *)
Lemma create_row_ok {D} tabs (r : row D) p id p' :
  create_row r p = (Ok id, p') → part_wf tabs p → is_Some (tabs !! r_tid r) →
  id = next_row p ∧ rows p !! id = None ∧ p' = mk_part (<[id := r]> (rows p)) (id + 1) (cache p) ∧ part_wf tabs p' ∧
  (∀ i r', rows p !! i = Some r' → ¬ (r_tid r' = r_tid r ∧ r_primary r' = r_primary r)).
Proof.
  intros H Hp Ht. unfold create_row in H. simpl_ok. to_prop.
  match goal with H : ¬ is_Some _ |- _ => apply eq_None_not_Some in H; rename H into Hn end.
  assert (∀ i r', rows p !! i = Some r' → ¬ (r_tid r' = r_tid r ∧ r_primary r' = r_primary r)) as Hfresh.
  { intros i r' Hr' Heq%compare_primary_eq.
    by eapply (find_row_none key_primary 2 ltac:(done) (key_primary r) p ltac:(cbn; lia) Hn). }
  assert (rows p !! next_row p = None) as Hnone.
  { destruct (rows p !! next_row p) eqn:E; [|done]. apply (pw_next _ _ Hp) in E. lia. }
  split; [done|]. split; [done|]. split; [done|]. split; [|done]. split; cbn.
  - intros i r' [[<- _]|[_ Hi]]%lookup_insert_Some; [lia|]. apply (pw_next _ _ Hp) in Hi. lia.
  - intros i j r1 r2 [[<- <-]|[_ Hi]]%lookup_insert_Some [[<- <-]|[_ Hj]]%lookup_insert_Some Heq1 Heq2; [done|..].
    + exfalso. by eapply Hfresh.
    + exfalso. by eapply Hfresh.
    + by eapply (pw_unique _ _ Hp).
  - intros i r' [[_ <-]|[_ Hi]]%lookup_insert_Some; [done|]. by eapply (pw_table _ _ Hp).
  - apply cache_wf_insert; [apply Hp|]. intros r'. by rewrite Hnone.
Qed.

(** A row that keeps its table and key. *)
Lemma modify_row_wf {D} tabs (p : part D) id r payer data :
  part_wf tabs p → rows p !! id = Some r →
  part_wf tabs (mk_part (<[id := mk_row (r_tid r) (r_primary r) payer data]> (rows p)) (next_row p) (cache p)).
Proof.
  intros Hp Hr.
  assert (∀ i r', <[id := mk_row (r_tid r) (r_primary r) payer data]> (rows p) !! i = Some r' →
    ∃ r0, rows p !! i = Some r0 ∧ r_tid r0 = r_tid r' ∧ r_primary r0 = r_primary r') as Hold.
  { intros i r' [[<- <-]|[_ Hi]]%lookup_insert_Some; eauto. }
  split; cbn.
  - intros i r' (r0 & Hi & _)%Hold. by apply (pw_next _ _ Hp) in Hi.
  - intros i j r1 r2 (r3 & Hi & ? & ?)%Hold (r4 & Hj & ? & ?)%Hold ? ?. eapply (pw_unique _ _ Hp); [exact Hi|exact Hj|congruence..].
  - intros i r' (r0 & Hi & <- & _)%Hold. by apply (pw_table _ _ Hp) in Hi.
  - apply cache_wf_insert; [apply Hp|]. intros r'. rewrite Hr. by intros [= <-].
Qed.

Definition bump (d : Z) (t : table_id_object) : table_id_object :=
  mk_table (t_code t) (t_scope t) (t_table t) (t_payer t) (u32 (t_count t + d)).

Lemma change_count_ok d tid s u s' :
  change_count d tid s = (Ok u, s') →
  ∃ t, tables s !! tid = Some t ∧ s' = set_tables (<[tid := bump d t]> (tables s)) (next_table s) s.
Proof. unfold change_count, the_table. intros H. simpl_ok. eauto. Qed.

(** Bumping a count keeps everything but the counts. *)
Lemma bump_keeps d tid t (tabs : gmap Z table_id_object) :
  tabs !! tid = Some t →
  ∀ i t', <[tid := bump d t]> tabs !! i = Some t' →
  ∃ t0, tabs !! i = Some t0 ∧ t_code t0 = t_code t' ∧ t_scope t0 = t_scope t' ∧ t_table t0 = t_table t' ∧
        t_payer t0 = t_payer t' ∧ t_count t' = (if i =? tid then u32 (t_count t + d) else t_count t0).
Proof.
  intros Ht i t' [[<- <-]|[Hne Hi]]%lookup_insert_Some.
  - exists t. by rewrite Z.eqb_refl.
  - exists t'. by rewrite (proj2 (Z.eqb_neq i tid)).
Qed.

Lemma billed_bump d tid t a (tabs : gmap Z table_id_object) f :
  tabs !! tid = Some t →
  map_sum (paid_by t_payer (fun _ => f) a) (<[tid := bump d t]> tabs) = map_sum (paid_by t_payer (fun _ => f) a) tabs.
Proof. intros Ht. rewrite (map_sum_update _ _ _ _ _ Ht). unfold paid_by. cbn. lia. Qed.

Definition one (i tid : Z) : Z := if i =? tid then 1 else 0.

(** A row more in table [tid], and its count. *)
Lemma tables_wf_added tid t x s k i :
  tables_wf (Some tid) s → tables s !! tid = Some t → t_count t < u32_max →
  part_wf (tables s) k → part_wf (tables s) i →
  (∀ j, count_of j k + count_of j i = count_of j (kv s) + count_of j (idx s) + one j tid) →
  tables_wf None (mk_tstate x (<[tid := bump 1 t]> (tables s)) (next_table s) k i).
Proof.
  intros Hw Ht Hmax Hk Hi Hc. pose proof (bump_keeps 1 tid t (tables s) Ht) as Hold.
  assert (u32 (t_count t + 1) = t_count t + 1) as Hu.
  { apply u32_small. rewrite (tw_count _ _ Hw _ _ Ht) in *.
    pose proof (count_of_nonneg tid (kv s)). pose proof (count_of_nonneg tid (idx s)). lia. }
  rewrite Hu in Hold. split; cbn.
  - intros j t' (t0 & Hj & _)%Hold. by apply (tw_next _ _ Hw) in Hj.
  - intros j j' t1 t2 (t3 & H3 & ? & ? & ? & _)%Hold (t4 & H4 & ? & ? & ? & _)%Hold ? ? ?.
    eapply (tw_unique _ _ Hw); [exact H3|exact H4|congruence..].
  - intros j t' (t0 & Hj & _ & _ & _ & _ & Hn)%Hold. rewrite Hc, Hn. unfold one.
    destruct (Z.eqb_spec j tid) as [->|]; [rewrite (tw_count _ _ Hw _ _ Ht)|rewrite (tw_count _ _ Hw _ _ Hj)]; lia.
  - intros j t' (t0 & Hj & _ & _ & _ & _ & Hn)%Hold _. rewrite Hn. destruct (Z.eqb_spec j tid) as [->|Hne].
    + rewrite (tw_count _ _ Hw _ _ Ht). pose proof (count_of_nonneg tid (kv s)). pose proof (count_of_nonneg tid (idx s)). lia.
    + apply (tw_nonempty _ _ Hw _ _ Hj). congruence.
  - apply part_wf_known; [done|eauto].
  - apply part_wf_known; [done|eauto].
Qed.

Lemma count_zero_absent {D} tid (p : part D) id r : count_of tid p = 0 → rows p !! id = Some r → r_tid r ≠ tid.
Proof.
  intros H Hr Heq. assert (in_table tid r ≤ count_of tid p) as Hle.
  { apply (map_sum_ge_elem _ _ id); [|done]. intros ? r' _. unfold in_table. case_match; lia. }
  unfold in_table in Hle. rewrite Heq, Z.eqb_refl in Hle. lia.
Qed.

(** A row less in table [tid]: its count, or the table is gone. *)
Lemma tables_wf_removed tid t x s k i :
  tables_wf None s → tables s !! tid = Some t → t_count t ≤ u32_max →
  part_wf (tables s) k → part_wf (tables s) i →
  (∀ j, count_of j k + count_of j i = count_of j (kv s) + count_of j (idx s) - one j tid) →
  tables_wf None (mk_tstate x (if t_count t =? 1 then delete tid (tables s) else <[tid := bump (-1) t]> (tables s))
                    (next_table s) k i).
Proof.
  intros Hw Ht Hmax Hk Hi Hc. pose proof (tw_nonempty _ _ Hw _ _ Ht ltac:(done)) as Hpos.
  pose proof (Hc tid) as Hct. unfold one in Hct. rewrite Z.eqb_refl, <- (tw_count _ _ Hw _ _ Ht) in Hct.
  pose proof (count_of_nonneg tid k). pose proof (count_of_nonneg tid i).
  destruct (Z.eqb_spec (t_count t) 1) as [H1|H1].
  - assert (∀ j t', delete tid (tables s) !! j = Some t' → j ≠ tid ∧ tables s !! j = Some t') as Hold.
    { intros j t' [? ?]%lookup_delete_Some. split; [congruence|done]. }
    split; cbn.
    + intros j t' [_ Hj]%Hold. by eapply (tw_next _ _ Hw).
    + intros j j' t1 t2 [_ ?]%Hold [_ ?]%Hold. by eapply (tw_unique _ _ Hw).
    + intros j t' [Hne Hj]%Hold. rewrite Hc, <- (tw_count _ _ Hw _ _ Hj). unfold one. rewrite (proj2 (Z.eqb_neq j tid)) by done. lia.
    + intros j t' [_ Hj]%Hold. by eapply (tw_nonempty _ _ Hw).
    + eapply part_wf_tables; [done|]. intros id r Hr. rewrite lookup_delete_ne; [by eapply (pw_table _ _ Hk)|].
      apply not_eq_sym. eapply count_zero_absent; [|done]. lia.
    + eapply part_wf_tables; [done|]. intros id r Hr. rewrite lookup_delete_ne; [by eapply (pw_table _ _ Hi)|].
      apply not_eq_sym. eapply count_zero_absent; [|done]. lia.
  - pose proof (bump_keeps (-1) tid t (tables s) Ht) as Hold.
    rewrite (u32_small (t_count t + -1)) in Hold by lia.
    split; cbn.
    + intros j t' (t0 & Hj & _)%Hold. by apply (tw_next _ _ Hw) in Hj.
    + intros j j' t1 t2 (t3 & Hj1 & ? & ? & ? & _)%Hold (t4 & Hj2 & ? & ? & ? & _)%Hold ? ? ?.
      eapply (tw_unique _ _ Hw); [exact Hj1|exact Hj2|congruence..].
    + intros j t' (t0 & Hj & _ & _ & _ & _ & Hn)%Hold. rewrite Hc, Hn. unfold one.
      destruct (Z.eqb_spec j tid) as [->|]; [rewrite <- (tw_count _ _ Hw _ _ Ht)|rewrite <- (tw_count _ _ Hw _ _ Hj)]; lia.
    + intros j t' (t0 & Hj & _ & _ & _ & _ & Hn)%Hold _. rewrite Hn. destruct (Z.eqb_spec j tid) as [->|Hne]; [lia|].
      by apply (tw_nonempty _ _ Hw _ _ Hj).
    + apply part_wf_known; [done|eauto].
    + apply part_wf_known; [done|eauto].
Qed.

(** The number of rows. *)
Definition total (s : tstate) : Z := Z.of_nat (size (rows (kv s))) + Z.of_nat (size (rows (idx s))).

(** What every call of the interface keeps. *)
Record kept (s s' : tstate) : Prop := mk_kept
  { kp_wf : tables_wf None s'; kp_ranges : ranges s'; kp_usage : ∀ a, other_usage a s' = other_usage a s;
    kp_total : total s' ≤ total s + 1 }.

Lemma billable_sizes : billable_table = 112 ∧ billable_key_value = 112 ∧ billable_index = 128.
Proof. done. Qed.

Lemma find_or_create_table_ok e code scope table payer s tid s' :
  find_or_create_table e code scope table payer s = (Ok tid, s') → tables_wf None s → ranges s →
  tables_wf (Some tid) s' ∧ ranges s' ∧ kv s' = kv s ∧ idx s' = idx s ∧
  (∀ a, other_usage a s' = other_usage a s) ∧
  (∀ i, is_Some (tables s !! i) → tables s' !! i = tables s !! i) ∧
  ∃ t, tables s' !! tid = Some t ∧ t_code t = code ∧ t_scope t = scope ∧ t_table t = table.
Proof.
  intros H Hw Hr. destruct billable_sizes as (Hbt & _ & _). unfold find_or_create_table in H. simpl_ok.
  destruct (find_table code scope table s) as [i|] eqn:E; simpl_ok.
  - apply find_table_some in E. split; [|by repeat (split; [done|])].
    destruct Hw. split; try done. intros ?? Ht _. by eapply tw_nonempty0.
  - apply update_db_usage_wf with (ex := None) in H0 as (Hw1 & Hr1 & (y & ->) & Hu); [|rewrite Hbt; unfold i64_min, i64_max; lia|done|done].
    pose proof (find_table_none _ _ _ _ E) as Hnone. cbn [next_table set_ctx tables].
    assert (tables s !! next_table s = None) as Hfresh.
    { destruct (tables s !! next_table s) eqn:Ef; [|done]. apply (tw_next _ _ Hw) in Ef. lia. }
    assert (∀ D (p : part D), part_wf (tables s) p → count_of (next_table s) p = 0) as Hzero.
    { intros D p Hp. apply count_of_absent. intros id r Hid Heq. apply (pw_table _ _ Hp) in Hid. rewrite Heq, Hfresh in Hid. by destruct Hid. }
    split; [|split; [split; apply Hr1|split; [done|split; [done|split; [|split]]]]].
    + split; cbn.
      * intros j t [[<- _]|[_ Hj]]%lookup_insert_Some; [lia|]. apply (tw_next _ _ Hw) in Hj. lia.
      * intros j j' t1 t2 [[<- <-]|[_ Hj]]%lookup_insert_Some [[<- <-]|[_ Hj']]%lookup_insert_Some; cbn; intros ? ? ?; [done|..].
        -- exfalso. by eapply (Hnone j').
        -- exfalso. by eapply (Hnone j).
        -- by eapply (tw_unique _ _ Hw).
      * intros j t [[<- <-]|[_ Hj]]%lookup_insert_Some; cbn; [|by apply (tw_count _ _ Hw)].
        rewrite !Hzero; [done|apply Hw..].
      * intros j t [[<- _]|[_ Hj]]%lookup_insert_Some; [done|]. intros _. by eapply (tw_nonempty _ _ Hw).
      * eapply part_wf_tables; [apply Hw|]. intros id r Hid. apply is_Some_put. by apply (pw_table _ _ (tw_kv _ _ Hw)) in Hid.
      * eapply part_wf_tables; [apply Hw|]. intros id r Hid. apply is_Some_put. by apply (pw_table _ _ (tw_idx _ _ Hw)) in Hid.
    + intros a. specialize (Hu a). unfold other_usage, billed, charge in *. cbn in *.
      rewrite map_sum_insert by done. unfold paid_by at 1. cbn. destruct (payer =? a); lia.
    + intros j [o Ho]. cbn. rewrite lookup_insert_ne; [done|]. congruence.
    + eexists. cbn. rewrite lookup_insert_eq. done.
Qed.

Lemma count_of_insert {D} (p : part D) n c id r j :
  rows p !! id = None → count_of j (mk_part (<[id := r]> (rows p)) n c) = count_of j p + one j (r_tid r).
Proof.
  intros H. unfold count_of. cbn. rewrite map_sum_insert by done. unfold in_table at 1, one.
  rewrite (Z.eqb_sym j). lia.
Qed.

Lemma count_of_rows {D} (p p' : part D) j : rows p' = rows p → count_of j p' = count_of j p.
Proof. intros H. unfold count_of. by rewrite H. Qed.

Lemma count_of_modify {D} (p : part D) n c id r r' j :
  rows p !! id = Some r → r_tid r' = r_tid r → count_of j (mk_part (<[id := r']> (rows p)) n c) = count_of j p.
Proof. intros H Ht. unfold count_of. cbn. rewrite (map_sum_update _ _ _ _ _ H). unfold in_table. rewrite Ht. lia. Qed.

Lemma count_of_delete {D} (p : part D) n c id r j :
  rows p !! id = Some r → count_of j (mk_part (delete id (rows p)) n c) = count_of j p - one j (r_tid r).
Proof.
  intros H. unfold count_of. cbn. rewrite (map_sum_delete _ _ _ _ H). unfold in_table at 2, one.
  rewrite (Z.eqb_sym j). lia.
Qed.

(** Handing out an iterator for a row just created. *)
Lemma cache_new_wf {D} tabs (p : part D) tid id r c2 :
  part_wf tabs p → rows p !! id = Some r → r_tid r = tid →
  c2 = (cache_add id (cache_table tid (cache p)).2).2 → part_wf tabs (mk_part (rows p) (next_row p) c2).
Proof.
  intros Hp Hr Ht ->. apply part_wf_cache; [done|]. eapply cache_add_wf; [apply cache_table_wf, Hp|done|].
  rewrite Ht, cache_table_known. eauto.
Qed.

Definition room (s : tstate) : Prop := total s < u32_max.

Lemma room_count ex s tid t : tables_wf ex s → room s → tables s !! tid = Some t → 0 ≤ t_count t < u32_max.
Proof.
  intros Hw Hr Ht. rewrite (tw_count _ _ Hw _ _ Ht). unfold room, total in Hr.
  pose proof (count_of_le_size tid (kv s)). pose proof (count_of_le_size tid (idx s)).
  pose proof (count_of_nonneg tid (kv s)). pose proof (count_of_nonneg tid (idx s)). lia.
Qed.

Lemma value_size (l : bytes) : size_of l ≤ u32_max →
  i64 (size_of l + billable_key_value) = size_of l + billable_key_value ∧
  i64 (- (size_of l + billable_key_value)) = - (size_of l + billable_key_value) ∧
  i64_min ≤ - (size_of l + billable_key_value) ∧ 0 < size_of l + billable_key_value ≤ i64_max.
Proof.
  intros Hl. destruct billable_sizes as (_ & -> & _). unfold size_of, u32_max in *.
  rewrite !i64_small by (unfold i64_min, i64_max; lia). unfold i64_min, i64_max. lia.
Qed.

Lemma on_kv_ok {A} (m : ST (part bytes) exn A) s a s' :
  on_kv m s = (Ok a, s') → ∃ p, m (kv s) = (Ok a, p) ∧ s' = set_kv p s.
Proof. unfold on_kv. destruct (m (kv s)) as [r p]. intros [= -> <-]. eauto. Qed.
Lemma on_idx_ok {A} (m : ST (part Z) exn A) s a s' :
  on_idx m s = (Ok a, s') → ∃ p, m (idx s) = (Ok a, p) ∧ s' = set_idx p s.
Proof. unfold on_idx. destruct (m (idx s)) as [r p]. intros [= -> <-]. eauto. Qed.
Lemma on_cache_ok {D A} (f : iterator_cache → A * iterator_cache) (p : part D) a p' :
  on_cache f p = (Ok a, p') → p' = mk_part (rows p) (next_row p) (f (cache p)).2 ∧ a = (f (cache p)).1.
Proof. unfold on_cache. destruct (f (cache p)) as [x c]. by intros [= <- <-]. Qed.

(** Opens steps on the parts. *)
Ltac on_part :=
  repeat match goal with
  | H : on_kv _ _ = (Ok _, _) |- _ => apply on_kv_ok in H as (? & H & ->)
  | H : on_idx _ _ = (Ok _, _) |- _ => apply on_idx_ok in H as (? & H & ->)
  | H : on_cache _ _ = (Ok _, _) |- _ => apply on_cache_ok in H as [-> ->]
  | H : change_count _ _ _ = (Ok _, _) |- _ => apply change_count_ok in H as (? & ? & ->)
  end; cbn [ctx tables next_table kv idx set_kv set_idx set_ctx set_tables rows next_row cache] in *.

Lemma set_kv_wf ex s p :
  tables_wf ex s → part_wf (tables s) p → rows p = rows (kv s) → tables_wf ex (set_kv p s).
Proof.
  intros Hw Hp Hr. split; try apply Hw; [|done]. intros tid t Ht. cbn. rewrite (count_of_rows (kv s) p _ Hr). by apply (tw_count _ _ Hw).
Qed.
Lemma set_idx_wf ex s p :
  tables_wf ex s → part_wf (tables s) p → rows p = rows (idx s) → tables_wf ex (set_idx p s).
Proof.
  intros Hw Hp Hr. split; try apply Hw; [|done]. intros tid t Ht. cbn. rewrite (count_of_rows (idx s) p _ Hr). by apply (tw_count _ _ Hw).
Qed.

Lemma set_kv_set p q s : set_kv p (set_kv q s) = set_kv p s.
Proof. done. Qed.
Lemma set_idx_set p q s : set_idx p (set_idx q s) = set_idx p s.
Proof. done. Qed.

(** Only the rows matter for what is kept. *)
Lemma set_kv_kept s0 s p :
  kept s0 s → part_wf (tables s) p → rows p = rows (kv s) → kept s0 (set_kv p s).
Proof.
  intros [Hw Hr Hu Ht] Hp Hrows. split; [by apply set_kv_wf|split; cbn; [apply Hr|rewrite Hrows; apply Hr]| |].
  - intros a. rewrite <- Hu. unfold other_usage, billed. cbn. by rewrite Hrows.
  - unfold total in *. cbn. by rewrite Hrows.
Qed.
Lemma set_idx_kept s0 s p :
  kept s0 s → part_wf (tables s) p → rows p = rows (idx s) → kept s0 (set_idx p s).
Proof.
  intros [Hw Hr Hu Ht] Hp Hrows. split; [by apply set_idx_wf|split; cbn; apply Hr| |].
  - intros a. rewrite <- Hu. unfold other_usage, billed. cbn. by rewrite Hrows.
  - unfold total in *. cbn. by rewrite Hrows.
Qed.

(** A charge settles what a change of the rows left open. *)
Lemma charge_kept e payer delta s0 s u s' :
  update_db_usage e payer delta s = (Ok u, s') → i64_min ≤ delta ≤ i64_max → ranges s → tables_wf None s →
  (∀ a, other_usage a s = other_usage a s0 - charge a payer delta) → total s ≤ total s0 + 1 →
  kept s0 s' ∧ ∃ x, s' = set_ctx x s.
Proof.
  intros H Hd Hr Hw Hu Ht. apply (update_db_usage_wf _ _ _ None) in H as (Hw' & Hr' & [x ->] & Hu'); [|done..].
  split; [|by exists x]. split; [done|done| |done]. intros a. rewrite Hu', Hu. lia.
Qed.

(** The row an iterator stands for. *)
Definition at_key (s : tstate) (it : Z) (k : table_key * Z) (v : Z * bytes) : Prop :=
  ∃ id r, cache_get it (cache (kv s)) = Ok id ∧ rows (kv s) !! id = Some r ∧
          names (tables s) (r_tid r) = Some k.1 ∧ r_primary r = k.2 ∧ v = (r_payer r, r_data r).

Lemma row_names ex s id r : tables_wf ex s → rows (kv s) !! id = Some r → is_Some (tables s !! r_tid r).
Proof. intros Hw Hr. by apply (pw_table _ _ (tw_kv _ _ Hw)) in Hr. Qed.

(** A row of a new key in the content. *)
Lemma has_added s tabs tid t id n r k v x y :
  tables_wf None s → (∀ i, is_Some (tables s !! i) → tabs !! i = tables s !! i) →
  tabs !! tid = Some t → rows (kv s) !! id = None → r_tid r = tid →
  has (mk_tstate x (<[tid := bump 1 t]> tabs) n (mk_part (<[id := r]> (rows (kv s))) y (cache (kv s))) (idx s)) k v ↔
  (k = ((t_code t, t_scope t, t_table t), r_primary r) ∧ v = (r_payer r, r_data r)) ∨ has s k v.
Proof.
  intros Hw Hf Ht Hid Htid. unfold has. cbn. rewrite content_insert by done.
  rewrite (names_put tabs tid t (bump 1 t)) by done. rewrite Htid. unfold names at 1. rewrite Ht. cbn.
  rewrite (content_names (tables s)).
  - split; (intros [H|H]; [left|by right]).
    + destruct k, H as (H1 & H2 & H3). cbn in *. split; [|done]. by simplify_eq.
    + by destruct H as [-> ->].
  - intros i r' Hi. rewrite (names_put tabs tid t (bump 1 t)) by done. unfold names. rewrite Hf; [done|].
    by eapply row_names.
Qed.

Lemma db_store_ok e code scope table payer id buffer s it s' :
  db_store_i64_in e code scope table payer id buffer s = (Ok it, s') →
  tables_wf None s → ranges s → room s → size_of buffer ≤ u32_max →
  kept s s' ∧ (∀ v, ¬ has s ((code, scope, table), id) v) ∧
  (∀ k v, has s' k v ↔ (k = ((code, scope, table), id) ∧ v = (payer, buffer)) ∨ has s k v) ∧
  at_key s' it ((code, scope, table), id) (payer, buffer).
Proof.
  intros H Hw Hr Hroom Hb. destruct (value_size buffer Hb) as (Hv & _ & Hv1 & Hv2).
  unfold db_store_i64_in in H. simpl_ok. apply find_or_create_table_ok in H0 as (Hw1 & Hr1 & Hk1 & Hi1 & Hu1 & Hf1 & t & Ht & Htn); [|done..].
  on_part. apply (create_row_ok (tables x0)) in H2 as (-> & Hnone & -> & Hp & Hfresh); [|apply Hw1|by eexists]. cbn in *.
  rewrite Ht in H. injection H as <-. rewrite Hv in H4.
  set (r := mk_row x id payer buffer) in *. set (p1 := mk_part (<[next_row (kv x0) := r]> (rows (kv x0))) _ _) in *.
  assert (tables_wf None (mk_tstate (ctx x0) (<[x := bump 1 t]> (tables x0)) (next_table x0) p1 (idx x0))) as Hw2.
  { apply tables_wf_added with (s := x0); [done|done| |done|apply Hw1|].
    - apply (room_count (Some x) x0 x); [done| |done]. unfold room, total in *. by rewrite Hk1, Hi1.
    - intros j. unfold p1. rewrite count_of_insert by done. cbn. lia. }
  apply (charge_kept _ _ _ s) in H4 as [Hkept [y ->]].
  - destruct Htn as (<- & <- & <-). rewrite set_kv_set. split; [|split; [|split]].
    + apply set_kv_kept; [done| |done]. eapply cache_new_wf; [apply Hkept|cbn; apply lookup_insert_eq|done|done].
    + intros v (i & r' & Hi & Hn & Hpk & _). rewrite <- Hk1 in Hi. apply (Hfresh i r' Hi). split; [|done].
      apply names_some in Hn as (o & Ho & [= Hc Hs Hnm]).
      rewrite <- (Hf1 _ (mk_is_Some _ _ Ho)) in Ho. cbn. by eapply (tw_unique _ _ Hw1).
    + intros k v. cbn. unfold p1. rewrite Hk1 in *.
      apply (has_added s (tables x0) x t (next_row (kv s)) 0 r k v y 0 Hw Hf1 Ht Hnone eq_refl).
    + exists (next_row (kv x0)), r. cbn. rewrite lookup_insert_eq. split; [eapply (cache_add_get (rows p1)), cache_table_wf, Hp|].
      split; [done|]. rewrite (names_put (tables x0) x t (bump 1 t)) by done. unfold names. by rewrite Ht.
  - unfold i64_min, i64_max in *. lia.
  - split; cbn; [apply Hr1|]. intros i r' [[_ <-]|[_ Hi]]%lookup_insert_Some; [done|by eapply Hr1].
  - exact Hw2.
  - intros a. rewrite <- Hu1. unfold other_usage, billed. cbn. rewrite billed_bump, map_sum_insert by done.
    unfold paid_by at 2, charge, kv_size at 1. cbn. destruct (payer =? a); lia.
  - unfold total. cbn. rewrite map_size_insert_None, Hk1, Hi1 by done. lia.
Qed.

Lemma idx_store_ok e scope table payer id value s it s' :
  idx_store e scope table payer id value s = (Ok it, s') →
  tables_wf None s → ranges s → room s → kept s s' ∧ ∀ k v, has s' k v ↔ has s k v.
Proof.
  intros H Hw Hr Hroom. destruct billable_sizes as (_ & _ & Hbi).
  unfold idx_store in H. simpl_ok. apply find_or_create_table_ok in H1 as (Hw1 & Hr1 & Hk1 & Hi1 & Hu1 & Hf1 & t & Ht & Htn); [|done..].
  on_part. apply (create_row_ok (tables x2)) in H2 as (-> & Hnone & -> & Hp & _); [|apply Hw1|by eexists]. cbn in *.
  rewrite Ht in H. injection H as <-.
  set (r := mk_row x1 id payer value) in *. set (p1 := mk_part (<[next_row (idx x2) := r]> (rows (idx x2))) _ _) in *.
  assert (tables_wf None (mk_tstate (ctx x2) (<[x1 := bump 1 t]> (tables x2)) (next_table x2) (kv x2) p1)) as Hw2.
  { apply tables_wf_added with (s := x2); [done|done| |apply Hw1|done|].
    - apply (room_count (Some x1) x2 x1); [done| |done]. unfold room, total in *. by rewrite Hk1, Hi1.
    - intros j. unfold p1. rewrite count_of_insert by done. cbn. lia. }
  apply (charge_kept _ _ _ s) in H4 as [Hkept [y ->]].
  - rewrite set_idx_set. split.
    + apply set_idx_kept; [done| |done]. eapply cache_new_wf; [apply Hkept|cbn; apply lookup_insert_eq|done|done].
    + intros k v. unfold has. cbn. rewrite Hk1. apply content_names. intros i r' Hi.
      rewrite (names_put (tables x2) x1 t (bump 1 t)) by done. unfold names. rewrite Hf1; [done|]. by eapply row_names.
  - rewrite Hbi. unfold i64_min, i64_max. lia.
  - split; cbn; apply Hr1.
  - exact Hw2.
  - intros a. rewrite <- Hu1. unfold other_usage, billed. cbn. rewrite billed_bump, map_sum_insert by done.
    unfold paid_by at 3, charge. cbn. destruct (payer =? a); lia.
  - unfold total. cbn. rewrite map_size_insert_None, Hk1, Hi1 by done. lia.
Qed.

Lemma own_table_ok {D} e (p : part D) tid s ptr s' :
  own_table e p tid s = (Ok ptr, s') →
  s' = s ∧ ptr = tid ∧ ∃ t, tables s !! tid = Some t ∧ t_code t = receiver e.
Proof.
  unfold own_table, get_table, the_table. intros H. simpl_ok. to_prop. split; [done|]. split; [done|]. eauto.
Qed.

Definition kv_put (id : Z) (r : key_value_object) (s : tstate) : tstate :=
  set_kv (mk_part (<[id := r]> (rows (kv s))) (next_row (kv s)) (cache (kv s))) s.
Definition idx_put (id : Z) (r : index_object) (s : tstate) : tstate :=
  set_idx (mk_part (<[id := r]> (rows (idx s))) (next_row (idx s)) (cache (idx s))) s.

(** Rewriting a row in place, with the charges that go with it. *)
Lemma kv_put_kept s0 s id r payer buffer :
  tables_wf None s → ranges s → rows (kv s) !! id = Some r → size_of buffer ≤ u32_max →
  (∀ a, other_usage a s = other_usage a s0 - charge a (r_payer r) (kv_size r)
                          + charge a payer (size_of buffer + billable_key_value)) →
  total s ≤ total s0 + 1 →
  kept s0 (kv_put id (mk_row (r_tid r) (r_primary r) payer buffer) s).
Proof.
  intros Hw Hr Hid Hb Hu Ht. split.
  - split; try apply Hw; cbn; [|by apply modify_row_wf; [apply Hw|]].
    intros tid t Htid. rewrite (count_of_modify (kv s) _ _ id r) by done. by apply (tw_count _ _ Hw).
  - split; cbn; [apply Hr|]. intros i r' [[_ <-]|[_ Hi]]%lookup_insert_Some; [done|by eapply Hr].
  - intros a. specialize (Hu a). unfold other_usage, billed in *. cbn. rewrite (map_sum_update _ _ _ _ _ Hid).
    unfold paid_by, charge, kv_size in *. cbn in *. lia.
  - unfold total in *. cbn. by rewrite map_size_insert_Some by eauto.
Qed.

Lemma idx_put_kept s0 s id r payer value :
  tables_wf None s → ranges s → rows (idx s) !! id = Some r →
  (∀ a, other_usage a s = other_usage a s0 - charge a (r_payer r) billable_index + charge a payer billable_index) →
  total s ≤ total s0 + 1 →
  kept s0 (idx_put id (mk_row (r_tid r) (r_primary r) payer value) s).
Proof.
  intros Hw Hr Hid Hu Ht. split.
  - split; try apply Hw; cbn; [|by apply modify_row_wf; [apply Hw|]].
    intros tid t Htid. rewrite (count_of_modify (idx s) _ _ id r) by done. by apply (tw_count _ _ Hw).
  - split; cbn; apply Hr.
  - intros a. specialize (Hu a). unfold other_usage, billed in *. cbn. rewrite (map_sum_update _ _ _ _ _ Hid).
    unfold paid_by, charge in *. cbn in *. lia.
  - unfold total in *. cbn. by rewrite map_size_insert_Some by eauto.
Qed.

Lemma charge_neg a payer d : charge a payer (- d) = - charge a payer d.
Proof. unfold charge. destruct (payer =? a); lia. Qed.
Lemma charge_sub a payer d d' : charge a payer (d - d') = charge a payer d - charge a payer d'.
Proof. unfold charge. destruct (payer =? a); lia. Qed.

(** Two payers: one is refunded, the other charged. *)
Lemma two_charges_ok e p1 d1 p2 d2 s u s' :
  (update_db_usage e p1 d1 ;; update_db_usage e p2 d2) s = (Ok u, s') →
  i64_min ≤ d1 ≤ i64_max → i64_min ≤ d2 ≤ i64_max → ranges s → tables_wf None s →
  tables_wf None s' ∧ ranges s' ∧ (∃ x, s' = set_ctx x s) ∧
  ∀ a, other_usage a s' = other_usage a s + charge a p1 d1 + charge a p2 d2.
Proof.
  intros H Hd1 Hd2 Hr Hw. simpl_ok. apply (update_db_usage_wf _ _ _ None) in H0 as (Hw1 & Hr1 & [x1 ->] & Hu1); [|done..].
  apply (update_db_usage_wf _ _ _ None) in H as (Hw2 & Hr2 & [x2 ->] & Hu2); [|done..].
  split; [done|]. split; [done|]. split; [by exists x2|]. intros a. rewrite Hu2, Hu1. done.
Qed.

Lemma db_update_ok e it payer buffer s u s' :
  db_update_i64 e it payer buffer s = (Ok u, s') →
  tables_wf None s → ranges s → size_of buffer ≤ u32_max →
  kept s s' ∧ ∃ k old, at_key s it k old ∧ k.1.1.1 = receiver e ∧
    ∀ k' v, has s' k' v ↔ (k' = k ∧ v = (if payer =? 0 then old.1 else payer, buffer)) ∨ (k' ≠ k ∧ has s k' v).
Proof.
  intros H Hw Hr Hb. unfold db_update_i64 in H. simpl_ok. destruct x as [id r]. simpl_ok.
  apply on_kv_ok in H0 as (p & H0 & ->). apply (deref_ok (tables s)) in H0 as (-> & Hg & Hid & _); [|apply Hw].
  replace (set_kv (kv s) s) with s in * by by destruct s. apply own_table_ok in H2 as (-> & _ & t & Ht & Hown).
  pose proof (rg_value _ Hr _ _ Hid) as Hs. destruct (value_size _ Hs) as (Hv & _ & Hv1 & Hv2).
  destruct (value_size _ Hb) as (Hw' & _ & Hw1 & Hw2). rewrite Hv, Hw' in *.
  set (payer' := if payer =? 0 then r_payer r else payer) in *.
  assert (tables_wf None x5 ∧ ranges x5 ∧ (∃ x, x5 = set_ctx x s) ∧
    ∀ a, other_usage a x5 = other_usage a s - charge a (r_payer r) (kv_size r) + charge a payer' (size_of buffer + billable_key_value))
    as (Hw5 & Hr5 & [y ->] & Hu5).
  { unfold kv_size, i64_min, i64_max, u32_max in *. destruct (Z.eqb_spec (r_payer r) payer') as [Heq|Hne]; cbn [negb] in *.
    - destruct (Z.eqb_spec (size_of (r_data r) + billable_key_value) (size_of buffer + billable_key_value)) as [Hsz|];
        cbn [negb] in *; simpl_ok.
      + split; [done|]. split; [done|]. split; [by exists (ctx s); rewrite set_ctx_id|]. intros a. rewrite Hsz, Heq. lia.
      + apply (update_db_usage_wf _ _ _ None) in H3 as (? & ? & ? & Hu); [|unfold i64_min, i64_max; lia|done|done].
        split; [done|]. split; [done|]. split; [done|]. intros a. rewrite Hu, charge_sub, Heq. lia.
    - apply two_charges_ok in H3 as (? & ? & ? & Hu); [|unfold i64_min, i64_max; lia|unfold i64_min, i64_max; lia|done|done].
      split; [done|]. split; [done|]. split; [done|]. intros a. rewrite Hu, charge_neg. lia. }
  apply on_kv_ok in H as (p & H & ->). unfold modify_row in H. simpl_ok. split.
  - apply (kv_put_kept s (set_ctx y s)); try done. unfold total. cbn. lia.
  - assert (names (tables s) (r_tid r) = Some (t_code t, t_scope t, t_table t)) as Hn by (unfold names; by rewrite Ht).
    exists ((t_code t, t_scope t, t_table t), r_primary r), (r_payer r, r_data r).
    split; [by exists id, r|]. split; [done|]. intros k' v. cbn.
    apply (content_update _ _ _ _ _ _ _ _ _ (wf_keyed _ _ Hw) Hid Hn).
Qed.

Lemma idx_update_ok e it payer value s u s' :
  idx_update e it payer value s = (Ok u, s') → tables_wf None s → ranges s →
  kept s s' ∧ ∀ k v, has s' k v ↔ has s k v.
Proof.
  intros H Hw Hr. destruct billable_sizes as (_ & _ & Hbi). unfold idx_update in H. simpl_ok. destruct x as [id r]. simpl_ok.
  apply on_idx_ok in H0 as (p & H0 & ->). apply (deref_ok (tables s)) in H0 as (-> & _ & Hid & _); [|apply Hw].
  replace (set_idx (idx s) s) with s in * by by destruct s. apply own_table_ok in H2 as (-> & _).
  set (payer' := if payer =? 0 then r_payer r else payer) in *.
  assert (tables_wf None x5 ∧ ranges x5 ∧ (∃ x, x5 = set_ctx x s) ∧
    ∀ a, other_usage a x5 = other_usage a s - charge a (r_payer r) billable_index + charge a payer' billable_index)
    as (Hw5 & Hr5 & [y ->] & Hu5).
  { destruct (Z.eqb_spec (r_payer r) payer') as [Heq|Hne]; cbn [negb] in *.
    - simpl_ok. split; [done|]. split; [done|]. split; [by exists (ctx s); rewrite set_ctx_id|]. intros a. rewrite Heq. lia.
    - apply two_charges_ok in H3 as (? & ? & ? & Hu); [|rewrite Hbi; unfold i64_min, i64_max; lia..|done|done].
      split; [done|]. split; [done|]. split; [done|]. intros a. rewrite Hu, charge_neg. lia. }
  apply on_idx_ok in H as (p & H & ->). unfold modify_row in H. simpl_ok. split; [|done]. apply (idx_put_kept s (set_ctx y s)); try done. unfold total. cbn. lia.
Qed.

Lemma remove_row_wf {D} tabs (p : part D) it id c :
  part_wf tabs p → cache_get it (cache p) = Ok id → cache_remove it (cache p) = Ok c →
  part_wf tabs (mk_part (delete id (rows p)) (next_row p) c).
Proof.
  intros Hp Hg Hc. destruct (cache_remove_wf _ _ _ _ (pw_cache _ _ Hp) Hg) as (c' & Hc' & Hwf).
  rewrite Hc in Hc'. injection Hc' as <-. split; cbn; [| | |done].
  - intros i r [_ Hi]%lookup_delete_Some. by eapply (pw_next _ _ Hp).
  - intros i j r r' [_ Hi]%lookup_delete_Some [_ Hj]%lookup_delete_Some. by eapply (pw_unique _ _ Hp).
  - intros i r [_ Hi]%lookup_delete_Some. by eapply (pw_table _ _ Hp).
Qed.

(** The end of a removal: a table whose count reached zero goes, and is refunded. *)
Lemma finish_drop e tid t t' s s1 u s' :
  the_table tid s = (Ok t', s1) → (if t_count t' =? 0 then remove_table e tid else mret ()) s1 = (Ok u, s') →
  tables s !! tid = Some (bump (-1) t) → 0 < t_count t ≤ u32_max → ranges s →
  ∃ x, s' = mk_tstate x (if t_count t =? 1 then delete tid (tables s) else tables s) (next_table s) (kv s) (idx s) ∧
       ranges s' ∧ ∀ a, usage a x = usage a (ctx s) - (if t_count t =? 1 then charge a (t_payer t) billable_table else 0).
Proof.
  intros H0 H Ht Hc Hr. destruct billable_sizes as (Hbt & _ & _). unfold the_table in H0. simpl_ok.
  assert (t' = bump (-1) t) as -> by congruence. cbn [t_count bump] in H.
  rewrite u32_small in H by (unfold u32_max in *; lia).
  destruct (Z.eqb_spec (t_count t + -1) 0), (Z.eqb_spec (t_count t) 1); try lia; simpl_ok.
  - unfold remove_table, the_table in H. simpl_ok. assert (x = bump (-1) t) as -> by congruence.
    apply update_db_usage_ok in H2 as (y & -> & Hr' & Hu); [|rewrite Hbt; unfold i64_min, i64_max; lia|done].
    exists y. split; [done|]. split; [split; apply Hr'|]. intros a. rewrite Hu, charge_neg. cbn. lia.
  - exists (ctx s). split; [by destruct s|]. split; [done|]. intros a. lia.
Qed.

Lemma removed_billed tid t a (tabs : gmap Z table_id_object) :
  tabs !! tid = Some t →
  map_sum (paid_by t_payer (fun _ => billable_table) a)
    (if t_count t =? 1 then delete tid tabs else <[tid := bump (-1) t]> tabs)
  = map_sum (paid_by t_payer (fun _ => billable_table) a) tabs
    - (if t_count t =? 1 then charge a (t_payer t) billable_table else 0).
Proof.
  intros Ht. destruct (t_count t =? 1).
  - rewrite (map_sum_delete _ tabs _ _ Ht). unfold paid_by at 2, charge. lia.
  - rewrite billed_bump by done. lia.
Qed.

Lemma drop_table_shape (c : bool) tid t (tabs : gmap Z table_id_object) :
  (if c then delete tid (<[tid := t]> tabs) else <[tid := t]> tabs)
  = if c then delete tid tabs else <[tid := t]> tabs.
Proof. destruct c; [apply delete_insert_eq|done]. Qed.

Lemma names_dropped (c : bool) tid t (tabs : gmap Z table_id_object) i :
  tabs !! tid = Some t → is_Some ((if c then delete tid tabs else <[tid := bump (-1) t]> tabs) !! i) →
  names (if c then delete tid tabs else <[tid := bump (-1) t]> tabs) i = names tabs i.
Proof.
  intros Ht Hi. destruct c; [|by apply (names_put tabs tid t)].
  destruct Hi as [o [Hne Ho]%lookup_delete_Some]. unfold names. by rewrite lookup_delete_ne by congruence.
Qed.

Lemma db_remove_ok e it s u s' :
  db_remove_i64 e it s = (Ok u, s') → tables_wf None s → ranges s → room s →
  kept s s' ∧ ∃ k old, at_key s it k old ∧ k.1.1.1 = receiver e ∧ ∀ k' v, has s' k' v ↔ k' ≠ k ∧ has s k' v.
Proof.
  intros H Hw Hr Hroom. unfold db_remove_i64, drop_from_table in H. simpl_ok. destruct x as [id r]. simpl_ok.
  apply on_kv_ok in H0 as (p & H0 & ->). apply (deref_ok (tables s)) in H0 as (-> & Hg & Hid & _); [|apply Hw].
  replace (set_kv (kv s) s) with s in * by by destruct s. apply own_table_ok in H2 as (-> & -> & t & Ht & Hown).
  destruct (value_size _ (rg_value _ Hr _ _ Hid)) as (_ & Hv & Hv1 & Hv2). rewrite Hv in *.
  pose proof (room_count _ _ _ _ Hw Hroom Ht) as Hct. pose proof (tw_nonempty _ _ Hw _ _ Ht ltac:(done)) as Hpos.
  apply update_db_usage_ok in H3 as (y & -> & Hr1 & Hu1); [|unfold i64_min, i64_max in *; lia|done].
  apply change_count_ok in H7 as (t' & Ht' & ->). cbn in Ht'. rewrite Ht in Ht'. injection Ht' as <-.
  apply on_kv_ok in H8 as (p & H8 & ->). unfold remove_row in H8. simpl_ok.
  eapply finish_drop with (t := t) in H4 as (z & Hz & Hr2 & Hu2); [|exact H9|cbn; apply lookup_insert_eq|lia|].
  2:{ split; cbn; [apply Hr1|]. intros i r' [_ Hi]%lookup_delete_Some. by eapply Hr. }
  subst x7. cbn in *. rewrite drop_table_shape in *.
  match goal with |- kept s ?s1 ∧ _ => assert (kept s s1) as Hkept end; [split; cbn|split; [done|]].
  - apply tables_wf_removed with (s := s); [done|done|lia|eapply remove_row_wf; [apply Hw|exact Hg|exact H6]|apply Hw|].
    intros j. rewrite (count_of_delete _ _ _ _ _ _ Hid). cbn. lia.
  - split; cbn; apply Hr2.
  - intros a. unfold other_usage, billed. cbn. rewrite Hu2, Hu1, removed_billed by done.
    rewrite (map_sum_delete _ (rows (kv s)) _ _ Hid), charge_neg.
    change (paid_by r_payer kv_size a r) with (charge a (r_payer r) (size_of (r_data r) + billable_key_value)). lia.
  - unfold total. cbn. rewrite map_size_delete_Some by eauto. lia.
  - assert (names (tables s) (r_tid r) = Some (t_code t, t_scope t, t_table t)) as Hn by (unfold names; by rewrite Ht).
    exists ((t_code t, t_scope t, t_table t), r_primary r), (r_payer r, r_data r).
    split; [by exists id, r|]. split; [done|]. intros k' v.
    etrans; [|apply (content_delete _ _ _ _ _ _ _ (wf_keyed _ _ Hw) Hid Hn)]. apply content_names.
    intros i r' Hi. apply names_dropped; [done|]. by apply (row_names _ _ _ _ (kp_wf _ _ Hkept)) in Hi.
Qed.

Lemma idx_remove_ok e it s u s' :
  idx_remove e it s = (Ok u, s') → tables_wf None s → ranges s → room s →
  kept s s' ∧ ∀ k v, has s' k v ↔ has s k v.
Proof.
  intros H Hw Hr Hroom. destruct billable_sizes as (_ & _ & Hbi).
  unfold idx_remove, drop_from_table in H. simpl_ok. destruct x as [id r]. simpl_ok.
  apply on_idx_ok in H0 as (p & H0 & ->). apply (deref_ok (tables s)) in H0 as (-> & Hg & Hid & _); [|apply Hw].
  replace (set_idx (idx s) s) with s in * by by destruct s.
  apply update_db_usage_ok in H1 as (y & -> & Hr1 & Hu1); [|rewrite Hbi; unfold i64_min, i64_max in *; lia|done].
  apply own_table_ok in H3 as (-> & -> & t & Ht & _). cbn in Ht.
  pose proof (room_count _ _ _ _ Hw Hroom Ht) as Hct. pose proof (tw_nonempty _ _ Hw _ _ Ht ltac:(done)) as Hpos.
  apply change_count_ok in H7 as (t' & Ht' & ->). cbn in Ht'. rewrite Ht in Ht'. injection Ht' as <-.
  apply on_idx_ok in H8 as (p & H8 & ->). unfold remove_row in H8. simpl_ok.
  eapply finish_drop with (t := t) in H4 as (z & Hz & Hr2 & Hu2); [|exact H9|cbn; apply lookup_insert_eq|lia|].
  2:{ split; cbn; apply Hr1. }
  subst x7. cbn in *. rewrite drop_table_shape in *.
  match goal with |- kept s ?s1 ∧ _ => assert (kept s s1) as Hkept end; [split; cbn|split; [done|]].
  - apply tables_wf_removed with (s := s); [done|done|lia|apply Hw|eapply remove_row_wf; [apply Hw|exact Hg|exact H6]|].
    intros j. rewrite (count_of_delete _ _ _ _ _ _ Hid). cbn. lia.
  - split; cbn; apply Hr2.
  - intros a. unfold other_usage, billed. cbn. rewrite Hu2, Hu1, removed_billed by done.
    rewrite (map_sum_delete _ (rows (idx s)) _ _ Hid), charge_neg.
    change (paid_by r_payer (fun _ => billable_index) a r) with (charge a (r_payer r) billable_index). lia.
  - unfold total. cbn. rewrite map_size_delete_Some by eauto. lia.
  - intros k v. apply content_names. intros i r' Hi. apply names_dropped; [done|].
    by apply (row_names _ _ _ _ (kp_wf _ _ Hkept)) in Hi.
Qed.


(** ** The calls of a contract *)

Inductive table_call : Type :=
| Store (scope table payer id : Z) (buffer : bytes)
| Update (iterator payer : Z) (buffer : bytes)
| Remove (iterator : Z)
| Get (iterator buffer_size : Z)
| Next (iterator : Z)
| Previous (iterator : Z)
| Find (code scope table id : Z)
| Lowerbound (code scope table id : Z)
| Upperbound (code scope table id : Z)
| EndOf (code scope table : Z)
| IdxStore (scope table payer id value : Z)
| IdxUpdate (iterator payer value : Z)
| IdxRemove (iterator : Z)
| IdxNext (iterator : Z)
| IdxPrevious (iterator : Z)
| IdxFind (code scope table value : Z)
| IdxLowerbound (code scope table value : Z)
| IdxUpperbound (code scope table value : Z)
| IdxEndOf (code scope table : Z)
| IdxNextPrimary (iterator : Z)
| IdxPreviousPrimary (iterator : Z)
| IdxFindPrimary (code scope table id : Z)
| IdxLowerboundPrimary (code scope table id : Z)
| IdxUpperboundPrimary (code scope table id : Z).

Definition iterator_of {A} (m : TC (Z * A)) : TC Z := r ← m; mret r.1.
Definition done_with (m : TC ()) : TC Z := m ;; mret 0.

Definition exec_call (e : call_env) (c : table_call) : TC Z :=
  match c with
  | Store scope table payer id buffer => db_store_i64 e scope table payer id buffer
  | Update it payer buffer => done_with (db_update_i64 e it payer buffer)
  | Remove it => done_with (db_remove_i64 e it)
  | Get it n => iterator_of (db_get_i64 it n)
  | Next it => iterator_of (db_next_i64 it)
  | Previous it => iterator_of (db_previous_i64 it)
  | Find code scope table id => db_find_i64 code scope table id
  | Lowerbound code scope table id => db_lowerbound_i64 code scope table id
  | Upperbound code scope table id => db_upperbound_i64 code scope table id
  | EndOf code scope table => db_end_i64 code scope table
  | IdxStore scope table payer id value => idx_store e scope table payer id value
  | IdxUpdate it payer value => done_with (idx_update e it payer value)
  | IdxRemove it => done_with (idx_remove e it)
  | IdxNext it => iterator_of (next_secondary it)
  | IdxPrevious it => iterator_of (previous_secondary it)
  | IdxFind code scope table value => iterator_of (find_secondary code scope table value)
  | IdxLowerbound code scope table value => iterator_of (lowerbound_secondary code scope table value)
  | IdxUpperbound code scope table value => iterator_of (upperbound_secondary code scope table value)
  | IdxEndOf code scope table => end_secondary code scope table
  | IdxNextPrimary it => iterator_of (next_primary it)
  | IdxPreviousPrimary it => iterator_of (previous_primary it)
  | IdxFindPrimary code scope table id => iterator_of (find_primary code scope table id)
  | IdxLowerboundPrimary code scope table id => iterator_of (lowerbound_primary code scope table id)
  | IdxUpperboundPrimary code scope table id => iterator_of (upperbound_primary code scope table id)
  end.

Definition fits (c : table_call) : Prop :=
  match c with Store _ _ _ _ b | Update _ _ b => size_of b ≤ u32_max | _ => True end.

(** The tables as a map, and what a call does to it. *)
Definition represents (s : tstate) (m : gmap (table_key * Z) (Z * bytes)) : Prop :=
  ∀ k v, m !! k = Some v ↔ has s k v.

Inductive map_step (e : call_env) (s : tstate) (m : gmap (table_key * Z) (Z * bytes)) :
    table_call → gmap (table_key * Z) (Z * bytes) → Prop :=
| map_store scope table payer id buffer :
    m !! ((receiver e, scope, table), id) = None →
    map_step e s m (Store scope table payer id buffer) (<[((receiver e, scope, table), id) := (payer, buffer)]> m)
| map_update it payer buffer k old :
    at_key s it k old → k.1.1.1 = receiver e →
    map_step e s m (Update it payer buffer) (<[k := (if payer =? 0 then old.1 else payer, buffer)]> m)
| map_remove it k old :
    at_key s it k old → k.1.1.1 = receiver e → map_step e s m (Remove it) (delete k m)
| map_other c :
    match c with Store _ _ _ _ _ | Update _ _ _ | Remove _ => False | _ => True end → map_step e s m c m.

Lemma kept_refl s : tables_wf None s → ranges s → kept s s.
Proof. intros Hw Hr. split; [done|done|done|lia]. Qed.

(** Calls that only look at rows. *)
Lemma read_kv_kept {A} (m : ST (part bytes) exn A) s a s' :
  on_kv m s = (Ok a, s') → tables_wf None s → ranges s →
  (∀ a p', m (kv s) = (Ok a, p') → same_rows (kv s) p' ∧ part_wf (tables s) p') →
  kept s s' ∧ ∀ k v, has s' k v ↔ has s k v.
Proof.
  intros (p & H & ->)%on_kv_ok Hw Hr Hm. destruct (Hm _ _ H) as [[Hrows _] Hp]. split.
  - apply set_kv_kept; [by apply kept_refl|done|done].
  - intros k v. unfold has. cbn. by rewrite Hrows.
Qed.

Lemma read_idx_kept {A} (m : ST (part Z) exn A) s a s' :
  on_idx m s = (Ok a, s') → tables_wf None s → ranges s →
  (∀ a p', m (idx s) = (Ok a, p') → same_rows (idx s) p' ∧ part_wf (tables s) p') →
  kept s s' ∧ ∀ k v, has s' k v ↔ has s k v.
Proof.
  intros (p & H & ->)%on_idx_ok Hw Hr Hm. destruct (Hm _ _ H) as [[Hrows _] Hp]. split; [|done].
  apply set_idx_kept; [by apply kept_refl|done|done].
Qed.

Lemma db_get_ok it n s a s' :
  db_get_i64 it n s = (Ok a, s') → tables_wf None s → ranges s → kept s s' ∧ ∀ k v, has s' k v ↔ has s k v.
Proof.
  intros H Hw Hr. unfold db_get_i64 in H. simpl_ok. destruct x as [id r].
  match goal with H : on_kv _ _ = (Ok _, ?s1) |- _ =>
    apply read_kv_kept in H; [|done|done|intros [i r'] p' Hd; apply (deref_ok (tables s)) in Hd as (-> & _); [split; [done|apply Hw]|apply Hw]] end.
  destruct (n =? 0); simpl_ok; done.
Qed.

Definition writes_kv (c : table_call) : Prop :=
  match c with Store _ _ _ _ _ | Update _ _ _ | Remove _ => True | _ => False end.

(** Every call but three leaves the primary rows as they are. *)
Lemma other_calls_ok e c s r s' :
  ¬ writes_kv c → exec_call e c s = (Ok r, s') → tables_wf None s → ranges s → room s →
  kept s s' ∧ ∀ k v, has s' k v ↔ has s k v.
Proof.
  intros Hc H Hw Hr Hroom. pose proof (tw_kv _ _ Hw) as Hk. pose proof (tw_idx _ _ Hw) as Hi.
  assert (∀ {D} (key : row D → list Z) k, (∀ p, from_rows p (lower_bound key k p)) ∧
    (∀ p, from_rows p (upper_bound key k p)) ∧ (∀ p, from_rows p (find_row key k p))) as Hb.
  { intros D key k. split; [|split]; intros p; apply (bounds_from_rows key k p). }
  destruct c; cbn [exec_call writes_kv] in *; try tauto;
    unfold iterator_of, done_with, db_next_i64, db_previous_i64, db_find_i64, db_lowerbound_i64, db_upperbound_i64, db_end_i64,
      next_secondary, previous_secondary, find_secondary, lowerbound_secondary, upperbound_secondary, end_secondary,
      next_primary, previous_primary, find_primary, lowerbound_primary, upperbound_primary in H; simpl_ok;
    repeat match goal with
    | H : db_get_i64 _ _ _ = _ |- _ => by eapply db_get_ok
    | H : idx_store _ _ _ _ _ _ _ = _ |- _ => by eapply idx_store_ok
    | H : idx_update _ _ _ _ _ = _ |- _ => by eapply idx_update_ok
    | H : idx_remove _ _ _ = _ |- _ => by eapply idx_remove_ok
    | H : on_kv _ _ = _ |- _ => apply read_kv_kept in H; [exact H|done|done|]; intros a p'
    | H : on_idx _ _ = _ |- _ => apply read_idx_kept in H; [exact H|done|done|]; intros a p'
    | |- next _ _ _ = _ → _ => by apply next_ok
    | |- previous _ _ _ _ = _ → _ => by apply previous_ok
    | |- end_of _ _ = _ → _ => by apply end_of_ok
    | |- search _ _ _ = _ → _ => apply search_ok; [done|intros tid q; apply Hb]
    end.
Qed.

(** There is such a map. *)
Lemma representable ex s : tables_wf ex s → ∃ m, represents s m.
Proof.
  intros Hw. unfold represents, has.
  pose proof (wf_keyed _ _ Hw) as Hk. revert Hk. generalize (rows (kv s)). intros R.
  induction R as [|id r R Hid IH] using map_ind; intros Hk.
  - exists ∅. intros k v. rewrite lookup_empty. split; [done|]. by intros (i & r & ? & _).
  - destruct IH as [m Hm].
    { intros i j r1 r2 Hi Hj. apply (Hk i j); rewrite lookup_insert_ne; congruence. }
    destruct (names (tables s) (r_tid r)) as [t|] eqn:Hn.
    + exists (<[(t, r_primary r) := (r_payer r, r_data r)]> m). intros k v.
      rewrite lookup_insert_Some, content_insert, Hn, Hm by done. split.
      * intros [[<- <-]|[_ ?]]; [by left|by right].
      * intros [(Hkt & Hkp & ->)|Hc]; [left; destruct k; cbn in *; split; congruence|]. right. split; [|done].
        intros <-. destruct Hc as (i & r' & Hi & Hn' & Hp & _). cbn in *.
        assert (id = i) as <-; [|congruence].
        apply (Hk id i r r'); rewrite ?lookup_insert_eq, ?lookup_insert_ne, ?Hn, ?Hn' by congruence; done.
    + exists m. intros k v. rewrite content_insert, Hn, Hm by done. split; [by right|]. by intros [[? _]|?].
Qed.

Lemma represents_same s s' m : represents s m → (∀ k v, has s' k v ↔ has s k v) → represents s' m.
Proof. intros Hm H k v. by rewrite H. Qed.

(** One call: the tables stay well formed, the map they represent takes the step. *)
Lemma call_ok e c s r s' m :
  exec_call e c s = (Ok r, s') → tables_wf None s → ranges s → room s → fits c → represents s m →
  kept s s' ∧ ∃ m', map_step e s m c m' ∧ represents s' m'.
Proof.
  intros H Hw Hr Hroom Hf Hm.
  assert (Decision (writes_kv c)) as [Hc|Hc] by (destruct c; cbn; apply _).
  - destruct c; cbn [writes_kv exec_call fits] in *; try done; unfold done_with in H; simpl_ok.
    + apply db_store_ok in H as (Hk & Hnone & Hh & _); [|done..]. split; [done|]. eexists. split.
      { apply map_store. destruct (m !! _) as [v|] eqn:E; [|done]. apply Hm in E. by apply Hnone in E. }
      intros k v. rewrite lookup_insert_Some, Hh, (Hm k v). split.
      * intros [[<- <-]|[_ ?]]; [by left|by right].
      * intros [[-> ->]|Hv]; [by left|right]. split; [|done]. intros <-. by apply Hnone in Hv.
    + apply db_update_ok in H0 as (Hk & k0 & old & Hat & Hrec & Hh); [|done..]. split; [done|]. eexists.
      split; [by eapply map_update|]. intros k v. rewrite lookup_insert_Some, Hh, (Hm k v). naive_solver.
    + apply db_remove_ok in H0 as (Hk & k0 & old & Hat & Hrec & Hh); [|done..]. split; [done|]. eexists.
      split; [by eapply map_remove|]. intros k v. rewrite lookup_delete_Some, Hh, (Hm k v). naive_solver.
  - destruct (other_calls_ok _ _ _ _ _ Hc H Hw Hr Hroom) as [Hk Hh]. split; [done|]. exists m. split; [|by eapply represents_same].
    apply map_other. by destruct c.
Qed.

(** Calls one after another, each with its receiver, action and privilege. *)
Fixpoint map_steps (l : list (call_env * table_call)) (s : tstate) (m m' : gmap (table_key * Z) (Z * bytes)) (s' : tstate) : Prop :=
  match l with
  | [] => m' = m ∧ s' = s
  | (e, c) :: l => ∃ r s1 m1, exec_call e c s = (Ok r, s1) ∧ map_step e s m c m1 ∧ map_steps l s1 m1 m' s'
  end.

Definition run_calls (l : list (call_env * table_call)) : TC () :=
  for_each (fun x => _ ← exec_call x.1 x.2; mret ()) l.

Lemma calls_ok l s s' m :
  run_calls l s = (Ok (), s') → tables_wf None s → ranges s → total s + Z.of_nat (length l) ≤ u32_max →
  Forall (fun x => fits x.2) l → represents s m →
  tables_wf None s' ∧ ranges s' ∧ (∀ a, other_usage a s' = other_usage a s) ∧
  ∃ m', map_steps l s m m' s' ∧ represents s' m'.
Proof.
  revert s m. induction l as [|[e c] l IH]; intros s m H Hw Hr Hroom Hf Hm; cbn in H; simpl_ok.
  { split; [done|]. split; [done|]. split; [done|]. by exists m. }
  cbn [length] in Hroom. apply Forall_cons_1 in Hf as [Hc Hf].
  destruct (call_ok _ _ _ _ _ m H1 Hw Hr) as (Hk & m1 & Hstep & Hm1); [unfold room; lia|done|done|].
  destruct (IH _ m1 H) as (Hw' & Hr' & Hu' & m' & Hsteps & Hm'); [apply Hk|apply Hk| |done|done|].
  { pose proof (kp_total _ _ Hk). lia. }
  split; [done|]. split; [done|]. split; [intros a; by rewrite Hu', (kp_usage _ _ Hk)|].
  exists m'. split; [|done]. by eexists _, _, m1.
Qed.

(** C18: The tables of contracts are a map.  Whatever sequence of calls contracts
    make, the rows, by code, scope, table and primary key, change as a map does:
    [store] adds a row under a new key of the running code, [update] and [remove]
    change the row their iterator stands for, which belongs to the running code,
    and nothing else changes a primary row. *)
Theorem calls_refine_map (l : list (call_env * table_call)) (s s' : tstate) m :
  run_calls l s = (Ok (), s') → tables_wf None s → ranges s → total s + Z.of_nat (length l) ≤ u32_max →
  Forall (fun x => fits x.2) l → represents s m →
  ∃ m', map_steps l s m m' s' ∧ represents s' m'.
Proof. intros. by eapply calls_ok. Qed.

(** C20: Tables stay well formed and RAM is accounted for exactly: after any sequence
    of calls every table counts its rows and has one, and the usage of every
    account has changed by what the tables and rows it pays for have grown. *)
Theorem calls_keep_accounts (l : list (call_env * table_call)) (s s' : tstate) :
  run_calls l s = (Ok (), s') → tables_wf None s → ranges s → total s + Z.of_nat (length l) ≤ u32_max →
  Forall (fun x => fits x.2) l →
  tables_wf None s' ∧ ∀ a, usage a (ctx s') - usage a (ctx s) = billed a s' - billed a s.
Proof.
  intros H Hw Hr Hroom Hf. destruct (representable _ _ Hw) as [m Hm].
  destruct (calls_ok _ _ _ _ H Hw Hr Hroom Hf Hm) as (Hw' & _ & Hu & _).
  split; [done|]. intros a. specialize (Hu a). unfold other_usage in Hu. lia.
Qed.

(** ** Finding rows and walking through a table *)

Lemma compare_primary {D} (r : row D) tid pk c :
  compare_key (key_primary r) [tid; pk] = c ↔
  match c with
  | Eq => r_tid r = tid ∧ r_primary r = pk
  | Lt => r_tid r < tid ∨ r_tid r = tid ∧ r_primary r < pk
  | Gt => tid < r_tid r ∨ r_tid r = tid ∧ pk < r_primary r
  end.
Proof.
  cbn. destruct (Z.compare_spec (r_tid r) tid), (Z.compare_spec (r_primary r) pk), c; split; try done; lia.
Qed.

Lemma hand_out_total {D} tabs tid (found : option (Z * row D)) ei p :
  part_wf tabs p → from_rows p found → is_Some (table_cache (cache p) !! tid) →
  ∃ a p', hand_out tid found (Ok ei) p = (Ok a, p') ∧ same_rows p p' ∧
  ((∃ id r, found = Some (id, r) ∧ r_tid r = tid ∧ a.2 = Some r ∧ cache_get a.1 (cache p') = Ok id)
   ∨ a.1 = ei ∧ a.2 = None ∧ (∀ id r, found = Some (id, r) → r_tid r ≠ tid)).
Proof.
  intros Hp Hf Ht. destruct (hand_out tid found (Ok ei) p) as [[a|x] p'] eqn:E.
  - exists a, p'. split; [done|]. destruct (hand_out_ok tabs _ _ _ _ _ _ Hp Hf Ht E) as (Hs & _ & [H|([= ->] & H)]); auto.
  - exfalso. unfold hand_out in E. destruct found as [[id r]|]; [destruct (_ =? _)|];
      unfold mbind, st_bind, on_cache in E; [destruct (cache_add id (cache p))|..]; done.
Qed.

(** The iterator that was handed out, at the level of keys. *)
Lemma handed_out s p' it id r t pk :
  rows p' = rows (kv s) → rows (kv s) !! id = Some r → cache_get it (cache p') = Ok id →
  names (tables s) (r_tid r) = Some t → r_primary r = pk →
  at_key (set_kv p' s) it (t, pk) (r_payer r, r_data r).
Proof. intros Hrows Hr Hg Ht Hpk. exists id, r. cbn. rewrite Hrows. done. Qed.

Lemma no_row_in {D} (p : part D) tid pk :
  find_row key_primary [tid; pk] p = None → ∀ id r, rows p !! id = Some r → ¬ (r_tid r = tid ∧ r_primary r = pk).
Proof.
  intros H id r Hr Heq. apply (find_row_none key_primary 2 ltac:(done) [tid; pk] p ltac:(cbn; lia) H id r Hr). by apply compare_primary.
Qed.

(** Finding a row by its key always returns: an iterator for the row if the
    table has it, else a negative number. *)
Theorem find_locates (code scope table id : Z) (s : tstate) :
  tables_wf None s →
  ∃ it s', db_find_i64 code scope table id s = (Ok it, s') ∧
    ((∃ v, has s ((code, scope, table), id) v ∧ at_key s' it ((code, scope, table), id) v)
     ∨ it < 0 ∧ ∀ v, ¬ has s ((code, scope, table), id) v).
Proof.
  intros Hw. unfold db_find_i64, search, mbind, st_bind, get_st, on_kv.
  destruct (find_table code scope table s) as [tid|] eqn:Ht.
  2:{ exists (-1), s. cbn. split; [by destruct s|]. right. split; [lia|]. intros v (i & r & Hi & Hn & _).
      apply names_some in Hn as (o & Ho & [= -> -> ->]). by apply (find_table_none _ _ _ _ Ht _ _ Ho). }
  apply find_table_some in Ht as (t & Htid & <- & <- & <-).
  destruct (on_cache (cache_table tid) (kv s)) as [[ei|x] p1] eqn:E1; [|unfold on_cache in E1; by destruct (cache_table tid _)].
  pose proof (on_cache_table_ok _ _ _ _ _ (tw_kv _ _ Hw) E1) as ([Hr1 _] & Hp1 & Hk1).
  destruct (hand_out_total (tables s) tid (find_row key_primary [tid; id] p1) ei p1) as (a & p2 & E2 & [Hr2 _] & Hres);
    [done|apply bounds_from_rows|by eexists|].
  rewrite E2. exists a.1, (set_kv p2 s). split; [done|].
  assert (names (tables s) tid = Some (t_code t, t_scope t, t_table t)) as Hn by (unfold names; by rewrite Htid).
  destruct Hres as [(i & r & Hf & Hrt & _ & Hg)|(-> & _ & Hf)].
  - left. apply (find_row_some key_primary 2) in Hf as [Hrow [_ Hpk]%compare_primary]; [|done]. rewrite Hr1 in Hrow.
    exists (r_payer r, r_data r). split; [exists i, r; rewrite Hrt; done|].
    eapply handed_out; [by rewrite Hr2, Hr1|done|done|by rewrite Hrt|done].
  - right. split.
    { apply (cw_end _ _ (pw_cache _ _ Hp1)) in Hk1 as (n & _ & ->). unfold index_to_end_iterator. lia. }
    intros v (i & r & Hi & Hnr & Hpk & _). cbn in *.
    assert (r_tid r = tid) as Hrt.
    { apply names_some in Hnr as (o & Ho & [= Hc Hs Ht]). by eapply (tw_unique _ _ Hw). }
    destruct (find_row key_primary [tid; id] p1) as [[j r']|] eqn:Ef.
    + apply (find_row_some key_primary 2) in Ef as [_ [Hj _]%compare_primary]; [|done]. by apply (Hf j r').
    + eapply no_row_in; [exact Ef|by rewrite Hr1|done].
Qed.

(** C21: [db_next_i64] walks through a table in ascending order of the primary key
    and skips nothing: from a row it always returns, with the least row above it,
    or with the end iterator when the row was the last one. *)
Theorem next_in_order (it : Z) (t : table_key) (pk : Z) (v : Z * bytes) (s : tstate) :
  tables_wf None s → at_key s it (t, pk) v →
  ∃ it' found s', db_next_i64 it s = (Ok (it', found), s') ∧
    match found with
    | Some r => pk < r_primary r ∧ at_key s' it' (t, r_primary r) (r_payer r, r_data r) ∧
                ∀ pk' v', has s (t, pk') v' → pk < pk' → r_primary r ≤ pk'
    | None => it' < -1 ∧ ∀ pk' v', has s (t, pk') v' → pk' ≤ pk
    end.
Proof.
  intros Hw (id & r & Hg & Hr & Hn & Hpk & Hv). cbn in Hn, Hpk. pose proof (tw_kv _ _ Hw) as Hp.
  pose proof (cache_get_ok _ _ _ _ (pw_cache _ _ Hp) Hg) as (Hpos & _ & r0 & Hr0 & [ei Hei]).
  assert (r0 = r) as -> by congruence.
  assert (∀ pk' v', has s (t, pk') v' → ∃ j r', rows (kv s) !! j = Some r' ∧ r_tid r' = r_tid r ∧ r_primary r' = pk') as Hin.
  { intros pk' v' (j & r' & Hj & Hnj & Hpj & _). exists j, r'. split; [done|]. split; [|done].
    cbn in Hnj. apply names_some in Hn as (o & Ho & ->), Hnj as (o' & Ho' & [= Hc Hs Ht]). by eapply (tw_unique _ _ Hw). }
  unfold db_next_i64, next, deref, on_kv, mbind, st_bind, get_st, lift. rewrite (proj2 (Z.ltb_ge it (-1))) by lia.
  rewrite Hg. cbn. rewrite Hr. cbn. unfold get_end_iterator_by_table_id. rewrite Hei. cbn [of_option].
  destruct (hand_out_total (tables s) (r_tid r) (upper_bound key_primary (key_primary r) (kv s)) ei (kv s))
    as ([it' found] & p' & E & [Hrows _] & Hres); [done|apply bounds_from_rows|by eexists|].
  fold (key_primary r). rewrite E. exists it', found, (set_kv p' s). split; [done|]. cbn [fst snd] in Hres.
  destruct Hres as [(j & r' & Hf & Hrt & -> & Hgj)|(-> & -> & Hf)].
  - apply (upper_bound_some key_primary 2) in Hf as (Hj & Hgt%compare_primary & Hmin); [|done].
    split; [lia|]. split; [eapply handed_out; [done|done|done|by rewrite Hrt|done]|].
    intros pk' v' (i & ri & Hi & Hti & <-)%Hin Hlt.
    assert (compare_key (key_primary ri) (key_primary r) = Gt) as Hc by (apply compare_primary; lia).
    specialize (Hmin i ri Hi Hc). destruct (Z.le_gt_cases (r_primary r') (r_primary ri)); [done|].
    exfalso. apply Hmin. apply compare_primary. lia.
  - split. { apply (cw_end _ _ (pw_cache _ _ Hp)) in Hei as (n & _ & ->). unfold index_to_end_iterator. lia. }
    intros pk' v' (i & ri & Hi & Hti & <-)%Hin. destruct (Z.le_gt_cases (r_primary ri) pk); [done|exfalso].
    assert (compare_key (key_primary ri) (key_primary r) = Gt) as Hc by (apply compare_primary; lia).
    destruct (upper_bound key_primary (key_primary r) (kv s)) as [[j r']|] eqn:Eu.
    + apply (upper_bound_some key_primary 2) in Eu as (Hj & Hgt%compare_primary & Hmin); [|done].
      pose proof (Hf j r' eq_refl). specialize (Hmin i ri Hi Hc). apply Hmin, compare_primary. lia.
    + by apply (upper_bound_none key_primary _ _ Eu i ri Hi).
Qed.

(** ** Which exceptions the calls throw *)

(** [table_not_in_cache] is the exception for a broken invariant of the cache. *)
Definition sane (x : exn) : Prop := x ≠ table_not_in_cache ∧ x ≠ undefined_behavior.
Definition throws_sane {S A} (m : ST S exn A) (s : S) : Prop := ∀ x s', m s = (Err x, s') → sane x.

Section Throws.
Context {S : Type}.

Lemma ts_bind {A B} (m : ST S exn A) (f : A → ST S exn B) s :
  throws_sane m s → (∀ a s1, m s = (Ok a, s1) → throws_sane (f a) s1) → throws_sane (m ≫= f) s.
Proof.
  intros Hm Hf x s'. unfold mbind, st_bind. destruct (m s) as [[a|y] s1] eqn:E.
  - by apply Hf.
  - intros [= -> ->]. by eapply Hm.
Qed.
Lemma ts_lift {A} (r : R A) (s : S) : (∀ x, r = Err x → sane x) → throws_sane (lift r) s.
Proof. intros H x s' [= -> _]. by apply H. Qed.
Lemma ts_ret {A} (a : A) (s : S) : throws_sane (mret a) s.
Proof. by intros x s'. Qed.
Lemma ts_get (s : S) : throws_sane get_st s.
Proof. by intros x s'. Qed.
Lemma ts_put (s0 s : S) : throws_sane (put_st s0) s.
Proof. by intros x s'. Qed.
Lemma ts_modify f (s : S) : throws_sane (modify_st f) s.
Proof. by intros x s'. Qed.
Lemma ts_assert b e (s : S) : sane e → throws_sane (st_assert b e) s.
Proof. intros He. apply ts_lift. destruct b; [done|]. by intros x [= <-]. Qed.
Lemma ts_of_option {A} (o : option A) e (s : S) : (o = None → sane e) → throws_sane (lift (of_option o e)) s.
Proof. intros He. apply ts_lift. destruct o; [done|]. intros x [= <-]. auto. Qed.
End Throws.

Lemma ts_kv {A} (m : ST (part bytes) exn A) s : throws_sane m (kv s) → throws_sane (on_kv m) s.
Proof. intros H x s'. unfold on_kv. destruct (m (kv s)) as [r p] eqn:E. intros [= Hr _]. subst r. by eapply H. Qed.
Lemma ts_idx {A} (m : ST (part Z) exn A) s : throws_sane m (idx s) → throws_sane (on_idx m) s.
Proof. intros H x s'. unfold on_idx. destruct (m (idx s)) as [r p] eqn:E. intros [= Hr _]. subst r. by eapply H. Qed.
Lemma ts_on_cache {D A} (f : iterator_cache → A * iterator_cache) (p : part D) : throws_sane (on_cache f) p.
Proof. intros x s'. unfold on_cache. by destruct (f (cache p)). Qed.

Ltac ts_steps :=
  repeat lazymatch goal with
  | |- throws_sane (_ ≫= _) _ => apply ts_bind; [|intros ? ? ?]
  | |- throws_sane (mret _) _ => apply ts_ret
  | |- throws_sane get_st _ => apply ts_get
  | |- throws_sane (put_st _) _ => apply ts_put
  | |- throws_sane (modify_st _) _ => apply ts_modify
  | |- throws_sane (on_cache _) _ => apply ts_on_cache
  | |- throws_sane (st_assert _ _) _ => apply ts_assert; by split
  | |- throws_sane (match ?x with _ => _ end) _ => destruct x eqn:?
  end.

Lemma ts_usage e payer delta s : throws_sane (update_db_usage e payer delta) s.
Proof.
  assert (∀ {A} (m : NC A) s, throws_sane m (ctx s) → throws_sane (on_ctx m) s) as Hctx.
  { intros A m s0 H x s'. unfold on_ctx. destruct (m (ctx s0)) as [r p] eqn:E. intros [= Hr _]. subst r. by eapply H. }
  unfold update_db_usage. ts_steps; apply Hctx.
  - unfold require_authorization. destruct (list_find _ _) as [[]|]; [apply ts_modify|]. by intros x s' [= <- _].
  - unfold add_ram_usage. ts_steps. intros x s'. unfold on_limits.
    destruct (ResourceLimits.add_pending_ram_usage _ _ _) as [r l] eqn:E. intros [= Hr _]. subst r. revert x l E.
    unfold ResourceLimits.add_pending_ram_usage, ResourceLimits.get_row.
    match goal with |- ∀ x l, ?m ?s0 = _ → _ => change (throws_sane m s0) end.
    ts_steps. apply ts_of_option. by split.
Qed.

Lemma ts_deref {D} tabs it (p : part D) : part_wf tabs p → throws_sane (deref it) p.
Proof.
  intros Hp. unfold deref. ts_steps.
  - apply ts_lift. intros x. unfold cache_get, eos_assert, of_option. repeat (case_match; cbn); intros ?; simplify_eq; by split.
  - simpl_ok. apply ts_of_option. intros Hn.
    match goal with H : cache_get _ _ = Ok _ |- _ => apply (cache_get_ok _ _ _ _ (pw_cache _ _ Hp)) in H as (_ & _ & r & Hr & _) end.
    congruence.
Qed.

Lemma ts_hand_out {D} tid (found : option (Z * row D)) otherwise p :
  (∀ x, otherwise = Err x → sane x) → throws_sane (hand_out tid found otherwise) p.
Proof. intros H. unfold hand_out. destruct found as [[id r]|]; ts_steps; by apply ts_lift. Qed.

Lemma ts_search {D} tab bound (p : part D) : throws_sane (search tab bound) p.
Proof. unfold search. ts_steps. by apply ts_hand_out. Qed.

Lemma ts_next {D} tabs key it (p : part D) : part_wf tabs p → throws_sane (next key it) p.
Proof.
  intros Hp. unfold next. ts_steps; [by eapply ts_deref|]. subst. simpl_ok. apply ts_hand_out.
  apply (deref_ok _ _ _ _ _ _ Hp) in H as (-> & _ & _ & Ht). unfold get_end_iterator_by_table_id.
  destruct Ht as [ei ->]. done.
Qed.

Lemma ts_previous {D} tabs key it (p : part D) :
  part_wf tabs p → -1 ≤ it → throws_sane (previous key tabs it) p.
Proof.
  intros Hp Hit. unfold previous. rewrite (proj2 (Z.ltb_ge it (-1))) by done.
  ts_steps; [by eapply ts_deref|]. by apply ts_hand_out.
Qed.

(** The table of a row an iterator stands for. *)
Lemma ts_own_table {D} e (p : part D) tid s :
  is_Some (table_cache (cache p) !! tid) → is_Some (tables s !! tid) → throws_sane (own_table e p tid) s.
Proof.
  intros [ei Hei] [t Ht]. unfold own_table, get_table, the_table. rewrite Hei. cbn.
  ts_steps; [by apply ts_lift|]. simpl_ok. apply ts_of_option. congruence.
Qed.

Lemma ts_create {D} (r : row D) p : throws_sane (create_row r) p.
Proof. unfold create_row. ts_steps. Qed.

Lemma ts_the_table tid s : is_Some (tables s !! tid) → throws_sane (the_table tid) s.
Proof. intros [t Ht]. unfold the_table. ts_steps. simpl_ok. apply ts_of_option. congruence. Qed.

Lemma ts_count d tid s : is_Some (tables s !! tid) → throws_sane (change_count d tid) s.
Proof. intros Ht. unfold change_count. ts_steps. by apply ts_the_table. Qed.

Lemma ts_find_or_create e code scope table payer s : throws_sane (find_or_create_table e code scope table payer) s.
Proof. unfold find_or_create_table. ts_steps. apply ts_usage. Qed.

Lemma update_db_usage_tables e payer delta s u s' :
  update_db_usage e payer delta s = (Ok u, s') → tables s' = tables s ∧ kv s' = kv s ∧ idx s' = idx s.
Proof.
  assert (∀ A (m : NC A) s a s1, on_ctx m s = (Ok a, s1) → tables s1 = tables s ∧ kv s1 = kv s ∧ idx s1 = idx s) as Hc.
  { intros A m s0 a s1. unfold on_ctx. destruct (m (ctx s0)). by intros [= -> <-]. }
  intros H. unfold update_db_usage in H. simpl_ok. apply Hc in H as (-> & -> & ->).
  destruct (0 <? delta); simpl_ok; [|done]. destruct (_ || _); simpl_ok; [done|]. by apply Hc in H0.
Qed.

Lemma ts_drop e tid remove s :
  is_Some (tables s !! tid) → (∀ s, throws_sane remove s) →
  (∀ s u s', remove s = (Ok u, s') → tables s' = tables s) → throws_sane (drop_from_table e tid remove) s.
Proof.
  intros [t Ht] Hr Hf. unfold drop_from_table. ts_steps.
  - apply ts_count. eauto.
  - apply Hr.
  - apply change_count_ok in H as (t' & Ht' & ->). apply Hf in H0. apply ts_the_table. rewrite H0. cbn. rewrite lookup_insert_eq. eauto.
  - unfold the_table in *. simpl_ok. unfold remove_table. ts_steps; [by apply ts_the_table|apply ts_usage].
Qed.

Lemma find_or_create_known e code scope table payer s tid s' :
  find_or_create_table e code scope table payer s = (Ok tid, s') → is_Some (tables s' !! tid).
Proof.
  unfold find_or_create_table. intros H. simpl_ok. destruct (find_table code scope table s) as [i|] eqn:E; simpl_ok.
  - apply find_table_some in E as (t & Ht & _). eauto.
  - cbn. rewrite lookup_insert_eq. eauto.
Qed.

Lemma ts_cache_remove it c x : cache_remove it c = Err x → sane x.
Proof. unfold cache_remove, eos_assert. repeat (case_match; cbn); intros ?; simplify_eq; by split. Qed.

Lemma ts_store e scope table payer id buffer s : throws_sane (db_store_i64 e scope table payer id buffer) s.
Proof.
  unfold db_store_i64, db_store_i64_in. ts_steps.
  - apply ts_find_or_create.
  - apply ts_kv, ts_create.
  - simpl_ok. apply find_or_create_known in H. apply on_kv_ok in H1 as (p & _ & ->). by apply ts_count.
  - apply ts_usage.
  - apply ts_kv, ts_on_cache.
  - apply ts_kv, ts_on_cache.
Qed.

Lemma ts_idx_store e scope table payer id value s : throws_sane (idx_store e scope table payer id value) s.
Proof.
  unfold idx_store. ts_steps.
  - apply ts_find_or_create.
  - apply ts_idx, ts_create.
  - simpl_ok. apply find_or_create_known in H0. apply on_idx_ok in H1 as (p & _ & ->). by apply ts_count.
  - apply ts_usage.
  - apply ts_idx, ts_on_cache.
  - apply ts_idx, ts_on_cache.
Qed.

(** An iterator of a primary row: the row is there, its table too. *)
Lemma kv_deref_ok it s id r s' :
  tables_wf None s → on_kv (deref it) s = (Ok (id, r), s') →
  s' = s ∧ is_Some (table_cache (cache (kv s)) !! r_tid r) ∧ is_Some (tables s !! r_tid r).
Proof.
  intros Hw (p & H & ->)%on_kv_ok. apply (deref_ok (tables s)) in H as (-> & _ & Hr & Ht); [|apply Hw].
  split; [by destruct s|]. split; [done|]. by apply (pw_table _ _ (tw_kv _ _ Hw)) in Hr.
Qed.
Lemma idx_deref_ok it s id r s' :
  tables_wf None s → on_idx (deref it) s = (Ok (id, r), s') →
  s' = s ∧ is_Some (table_cache (cache (idx s)) !! r_tid r) ∧ is_Some (tables s !! r_tid r).
Proof.
  intros Hw (p & H & ->)%on_idx_ok. apply (deref_ok (tables s)) in H as (-> & _ & Hr & Ht); [|apply Hw].
  split; [by destruct s|]. split; [done|]. by apply (pw_table _ _ (tw_idx _ _ Hw)) in Hr.
Qed.

Lemma ts_update e it payer buffer s : tables_wf None s → throws_sane (db_update_i64 e it payer buffer) s.
Proof.
  intros Hw. unfold db_update_i64. ts_steps; try apply ts_usage.
  - eapply ts_kv, ts_deref, Hw.
  - subst. simpl_ok. apply (kv_deref_ok _ _ _ _ _ Hw) in H as (-> & ? & ?). by apply ts_own_table.
  - apply ts_kv, ts_modify.
Qed.

Lemma ts_idx_update e it payer value s : tables_wf None s → throws_sane (idx_update e it payer value) s.
Proof.
  intros Hw. unfold idx_update. ts_steps; try apply ts_usage.
  - eapply ts_idx, ts_deref, Hw.
  - subst. simpl_ok. apply (idx_deref_ok _ _ _ _ _ Hw) in H as (-> & ? & ?). by apply ts_own_table.
  - apply ts_idx, ts_modify.
Qed.

Lemma ts_remove e it s : tables_wf None s → throws_sane (db_remove_i64 e it) s.
Proof.
  intros Hw. unfold db_remove_i64. ts_steps.
  - eapply ts_kv, ts_deref, Hw.
  - subst. simpl_ok. apply (kv_deref_ok _ _ _ _ _ Hw) in H as (-> & ? & ?). by apply ts_own_table.
  - apply ts_usage.
  - subst. simpl_ok. apply (kv_deref_ok _ _ _ _ _ Hw) in H as (-> & ? & ?). apply own_table_ok in H1 as (-> & -> & _).
    apply update_db_usage_tables in H2 as (Ht & _). apply ts_drop; [by rewrite Ht|intros ?; apply ts_kv, ts_modify|].
    by intros ??? (? & _ & ->)%on_kv_ok.
  - apply ts_lift. intros y. apply ts_cache_remove.
Qed.

Lemma ts_idx_remove e it s : tables_wf None s → throws_sane (idx_remove e it) s.
Proof.
  intros Hw. unfold idx_remove. ts_steps.
  - eapply ts_idx, ts_deref, Hw.
  - apply ts_usage.
  - subst. simpl_ok. apply (idx_deref_ok _ _ _ _ _ Hw) in H as (-> & ? & ?).
    apply update_db_usage_tables in H0 as (Ht & _ & Hi). apply ts_own_table; [by rewrite Hi|by rewrite Ht].
  - subst. simpl_ok. apply (idx_deref_ok _ _ _ _ _ Hw) in H as (-> & ? & ?). apply own_table_ok in H2 as (-> & -> & _).
    apply update_db_usage_tables in H0 as (Ht & _). apply ts_drop; [by rewrite Ht|intros ?; apply ts_idx, ts_modify|].
    by intros ??? (? & _ & ->)%on_idx_ok.
  - apply ts_lift. intros y. apply ts_cache_remove.
Qed.

Definition end_iterator_read (c : table_call) : Prop :=
  match c with Previous it | IdxPrevious it | IdxPreviousPrimary it => it < -1 | _ => False end.

(** C22: The cache of iterators never breaks its invariant and no call reads an object
    that was removed, but for stepping back from an end iterator: on well-formed
    tables a call throws neither [table_not_in_cache] nor touches a dangling
    pointer. *)
Theorem calls_never_break_cache (e : call_env) (c : table_call) (s s' : tstate) (x : exn) :
  tables_wf None s → ¬ end_iterator_read c → exec_call e c s = (Err x, s') →
  x ≠ table_not_in_cache ∧ x ≠ undefined_behavior.
Proof.
  intros Hw Hc. revert x s'. change (throws_sane (exec_call e c) s).
  pose proof (tw_kv _ _ Hw) as Hk. pose proof (tw_idx _ _ Hw) as Hi.
  destruct c; cbn [exec_call end_iterator_read] in *; unfold iterator_of, done_with, db_get_i64, db_next_i64, db_previous_i64,
      db_find_i64, db_lowerbound_i64, db_upperbound_i64, db_end_i64,
      next_secondary, previous_secondary, find_secondary, lowerbound_secondary, upperbound_secondary, end_secondary,
      next_primary, previous_primary, find_primary, lowerbound_primary, upperbound_primary, end_of; ts_steps; simpl_ok;
    try match goal with
    | |- throws_sane (on_kv _) _ => apply ts_kv
    | |- throws_sane (on_idx _) _ => apply ts_idx
    end; ts_steps; first
    [ apply ts_store | by apply ts_update | by apply ts_remove | apply ts_idx_store | by apply ts_idx_update
    | by apply ts_idx_remove | apply ts_search | by eapply ts_next | by eapply ts_deref
    | apply ts_previous; [done|lia] ].
Qed.

(** ** An example *)

Module TableDemo.
Definition alice : Z := NativeDemo.alice.
Definition no_tables : tstate := mk_tstate NativeDemo.start ∅ 0 (mk_part ∅ 0 empty_cache) (mk_part ∅ 0 empty_cache).
Definition running : call_env := mk_call_env alice (mk_action alice 1 [mk_level alice config.active_name] []) false true.

Definition calls : list (call_env * table_call) :=
  [(running, Store 1 2 alice 9 [4]); (running, Store 1 2 alice 7 [1; 2; 3]); (running, IdxStore 1 3 alice 7 100)].
Definition filled : tstate := (run_calls calls no_tables).2.

Lemma no_tables_wf : tables_wf None no_tables.
Proof.
  assert (∀ D, cache_wf (∅ : gmap Z (row D)) empty_cache) as Hc.
  { intros D. split; cbn; intros *.
    - by rewrite lookup_empty.
    - by rewrite lookup_empty, lookup_nil.
    - by rewrite lookup_nil.
    - rewrite lookup_empty. split; [done|]. by intros (n & ? & _). }
  split; cbn; try done. all: split; cbn; try done.
Qed.

Lemma no_tables_ranges : ranges no_tables.
Proof.
  split; cbn; [|done]. intros a u. unfold NativeDemo.usage.
  intros [[_ <-]|[_ [_ <-]%lookup_singleton_Some]]%lookup_insert_Some; by vm_compute.
Qed.

Lemma filled_runs : run_calls calls no_tables = (Ok (), filled).
Proof. by vm_compute. Qed.

Lemma calls_fit : Forall (fun x => fits x.2) calls.
Proof. repeat constructor; by vm_compute. Qed.

Lemma no_tables_represents : represents no_tables ∅.
Proof. intros k v. rewrite lookup_empty. split; [done|]. by intros (i & r & ? & _). Qed.

Lemma filled_wf : tables_wf None filled ∧ ranges filled.
Proof.
  destruct (calls_ok _ _ _ _ filled_runs no_tables_wf no_tables_ranges ltac:(by vm_compute) calls_fit no_tables_represents)
    as (? & ? & _). done.
Qed.

(** The iterator of the second row. *)
Lemma at_seven : at_key filled 1 ((alice, 1, 2), 7) (alice, [1; 2; 3]).
Proof. exists 1, (mk_row 0 7 alice [1; 2; 3]). by vm_compute. Qed.

(** The end iterator of a table outlives the table. *)
Definition emptied : tstate :=
  (run_calls [(running, Store 1 2 alice 9 [4]); (running, EndOf alice 1 2); (running, Remove 0)] no_tables).2.
End TableDemo.

Lemma calls_refine_map_witness :
  ∃ m', map_steps TableDemo.calls TableDemo.no_tables ∅ m' TableDemo.filled ∧ represents TableDemo.filled m'.
Proof.
  apply (calls_refine_map TableDemo.calls TableDemo.no_tables TableDemo.filled ∅).
  - vm_compute. reflexivity.
  - exact TableDemo.no_tables_wf.
  - exact TableDemo.no_tables_ranges.
  - vm_compute. discriminate.
  - exact TableDemo.calls_fit.
  - exact TableDemo.no_tables_represents.
Defined.

Lemma calls_keep_accounts_witness :
  usage TableDemo.alice (ctx TableDemo.filled) - usage TableDemo.alice (ctx TableDemo.no_tables) = 580 ∧
  billed TableDemo.alice TableDemo.filled - billed TableDemo.alice TableDemo.no_tables = 580.
Proof.
  assert (H : ∀ a, usage a (ctx TableDemo.filled) - usage a (ctx TableDemo.no_tables)
                   = billed a TableDemo.filled - billed a TableDemo.no_tables).
  { apply (calls_keep_accounts TableDemo.calls TableDemo.no_tables TableDemo.filled).
    - vm_compute. reflexivity.
    - exact TableDemo.no_tables_wf.
    - exact TableDemo.no_tables_ranges.
    - vm_compute. discriminate.
    - exact TableDemo.calls_fit. }
  rewrite H. split; vm_compute; reflexivity.
Defined.

Lemma find_locates_witness :
  ∃ it s', db_find_i64 TableDemo.alice 1 2 7 TableDemo.filled = (Ok it, s') ∧ it = 1.
Proof.
  destruct (find_locates TableDemo.alice 1 2 7 TableDemo.filled (proj1 TableDemo.filled_wf)) as (it & s' & H & _).
  exists it, s'. split; [exact H|]. vm_compute in H. congruence.
Defined.

Lemma next_in_order_witness :
  ∃ it r s', db_next_i64 1 TableDemo.filled = (Ok (it, Some r), s') ∧ r_primary r = 9.
Proof.
  destruct (next_in_order 1 _ _ _ TableDemo.filled (proj1 TableDemo.filled_wf) TableDemo.at_seven) as (it & f & s' & H & Hf).
  destruct f as [r|]; [exists it, r, s'; split; [exact H|]|]; vm_compute in H; [|discriminate].
  injection H as _ Hr _. rewrite <- Hr. reflexivity.
Defined.

Lemma calls_never_break_cache_witness :
  ∃ x s', exec_call TableDemo.running (Update 5 0 []) TableDemo.filled = (Err x, s') ∧ x ≠ table_not_in_cache ∧ x ≠ undefined_behavior.
Proof.
  exists invalid_table_iterator, TableDemo.filled.
  assert (H : exec_call TableDemo.running (Update 5 0 []) TableDemo.filled = (Err invalid_table_iterator, TableDemo.filled))
    by (vm_compute; reflexivity).
  split; [exact H|].
  apply (calls_never_break_cache TableDemo.running (Update 5 0 []) TableDemo.filled _ _ (proj1 TableDemo.filled_wf)
    (fun f : False => f) H).
Defined.

(** Removing the last row of a table removes the table object, but the cache keeps
    its pointer: stepping back from the end iterator reads the removed object. *)
Theorem end_iterator_dangles :
  exec_call TableDemo.running (Previous (-2)) TableDemo.emptied = (Err undefined_behavior, TableDemo.emptied).
Proof. by vm_compute. Qed.
End Tables.
