(* ===== verification/Admission.v ===== *)
(** * What a transaction must pass before it runs

    The checks of [controller.cpp] and [transaction.cpp] on an input transaction:
    the configuration voted by the producers ([chain_config.cpp]), the reference
    to a recent block (TaPoS), the expiration, the index of known transactions
    that keeps one from being included twice, and the lists of a producing node.
    The permissions of the producers' account, which the start of a block sets,
    are here as well.

    Times are microseconds since 1970, expirations are seconds. *)

From S2P Require Import Prelude Exceptions Name Merkle BlockHeader EosLib ResourceLimits Authority AuthorizationManager NativeContract.

Module Admission.
Import AuthorizationManager Native.

(** ** Chain configuration ([chain_config.hpp], [chain_config.cpp]) *)

Record chain_config : Type := mk_chain_config
  { max_block_net_usage : Z; target_block_net_usage_pct : Z; max_transaction_net_usage : Z;
    base_per_transaction_net_usage : Z; net_usage_leeway : Z;
    context_free_discount_net_usage_num : Z; context_free_discount_net_usage_den : Z;
    max_block_cpu_usage : Z; target_block_cpu_usage_pct : Z; max_transaction_cpu_usage : Z;
    min_transaction_cpu_usage : Z;
    max_transaction_lifetime : Z; deferred_trx_expiration_window : Z; max_transaction_delay : Z;
    max_inline_action_size : Z; max_inline_action_depth : Z; max_authority_depth : Z }.

Definition percent_100 : Z := 10000.
Definition min_net_usage_delta_between_base_and_max_for_trx : Z := 10 * 1024.

Definition validate (c : chain_config) : R () :=
  eos_assert (target_block_net_usage_pct c <=? percent_100) action_validate_exception ;;
  eos_assert (ResourceLimits.percent_1 / 10 <=? target_block_net_usage_pct c) action_validate_exception ;;
  eos_assert (target_block_cpu_usage_pct c <=? percent_100) action_validate_exception ;;
  eos_assert (ResourceLimits.percent_1 / 10 <=? target_block_cpu_usage_pct c) action_validate_exception ;;
  eos_assert (max_transaction_net_usage c <? max_block_net_usage c) action_validate_exception ;;
  eos_assert (max_transaction_cpu_usage c <? max_block_cpu_usage c) action_validate_exception ;;
  eos_assert (base_per_transaction_net_usage c <? max_transaction_net_usage c) action_validate_exception ;;
  eos_assert (min_net_usage_delta_between_base_and_max_for_trx
              <=? u32 (max_transaction_net_usage c - base_per_transaction_net_usage c)) action_validate_exception ;;
  eos_assert (0 <? context_free_discount_net_usage_den c) action_validate_exception ;;
  eos_assert (context_free_discount_net_usage_num c <=? context_free_discount_net_usage_den c) action_validate_exception ;;
  eos_assert (min_transaction_cpu_usage c <=? max_transaction_cpu_usage c) action_validate_exception ;;
  eos_assert (max_transaction_cpu_usage c <? u32 (max_block_cpu_usage c - min_transaction_cpu_usage c))
    action_validate_exception ;;
  eos_assert (1 <=? max_authority_depth c) action_validate_exception.

(** [operator ==]: the tuple names the largest cpu usage of a transaction twice
    and leaves out the smallest. *)
Definition config_eqb (l r : chain_config) : bool :=
  (max_block_net_usage l =? max_block_net_usage r)
  && (target_block_net_usage_pct l =? target_block_net_usage_pct r)
  && (max_transaction_net_usage l =? max_transaction_net_usage r)
  && (base_per_transaction_net_usage l =? base_per_transaction_net_usage r)
  && (net_usage_leeway l =? net_usage_leeway r)
  && (context_free_discount_net_usage_num l =? context_free_discount_net_usage_num r)
  && (context_free_discount_net_usage_den l =? context_free_discount_net_usage_den r)
  && (max_block_cpu_usage l =? max_block_cpu_usage r)
  && (target_block_cpu_usage_pct l =? target_block_cpu_usage_pct r)
  && (max_transaction_cpu_usage l =? max_transaction_cpu_usage r)
  && (max_transaction_cpu_usage l =? max_transaction_cpu_usage r)
  && (max_transaction_lifetime l =? max_transaction_lifetime r)
  && (deferred_trx_expiration_window l =? deferred_trx_expiration_window r)
  && (max_transaction_delay l =? max_transaction_delay r)
  && (max_inline_action_size l =? max_inline_action_size r)
  && (max_inline_action_depth l =? max_inline_action_depth r)
  && (max_authority_depth l =? max_authority_depth r).

(** The defaults of [config.hpp.in]. *)
Definition default_config : chain_config :=
  mk_chain_config (1024 * 1024) (10 * ResourceLimits.percent_1) (1024 * 1024 / 2) 12 500 20 100
    1000000 (10 * ResourceLimits.percent_1) (3 * 1000000 / 4) 100
    (60 * 60) (10 * 60) (45 * 24 * 3600) (4 * 1024) 4 6.

(** ** Transactions ([transaction.hpp]) *)

Record transaction_header : Type := mk_trx_header
  { expiration : Z; ref_block_num : Z; ref_block_prefix : Z; max_net_usage_words : Z; max_cpu_usage_ms : Z;
    delay_sec : Z }.
Record transaction : Type := mk_transaction
  { header : transaction_header; context_free_actions : list action; actions : list action;
    transaction_extensions : list (Z * bytes) }.

Definition total_actions (t : transaction) : Z :=
  u32 (Z.of_nat (length (context_free_actions t)) + Z.of_nat (length (actions t))).

Definition first_authorizor (t : transaction) : Z :=
  match actions t ≫= act_authorization with l :: _ => actor l | [] => 0 end.

Definition u16 (x : Z) : Z := x mod 2 ^ 16.

(** [get_ref_blocknum] does not use the header it is a member of. *)
Definition get_ref_blocknum (head_blocknum : Z) : Z :=
  u32 (u32 (head_blocknum / 0xffff * 0xffff) + head_blocknum mod 0xffff).

Definition set_reference_block (reference_block : digest_type) (h : transaction_header) : transaction_header :=
  mk_trx_header (expiration h) (u16 (Header.endian_reverse_u32 (u32 (hash0 reference_block))))
    (u32 (hash1 reference_block)) (max_net_usage_words h) (max_cpu_usage_ms h) (delay_sec h).

Definition verify_reference_block (h : transaction_header) (reference_block : digest_type) : bool :=
  (ref_block_num h =? u16 (Header.endian_reverse_u32 (u32 (hash0 reference_block))))
  && (ref_block_prefix h =? u32 (hash1 reference_block)).

Definition validate_header (h : transaction_header) : R () :=
  eos_assert (max_net_usage_words h <? u32_max / 8) transaction_exception.

(** ** References to recent blocks

    One summary per block number modulo 2^16; all of them are created with the
    database, so one that was not written yet is the zero digest. *)

Abbreviation summaries := (gmap Z digest_type).
Definition summary (s : summaries) (sid : Z) : digest_type := default digest0 (s !! sid).

Definition create_block_summary (s : summaries) (id : digest_type) : summaries :=
  <[Z.land (Header.num_from_id id) 0xffff := id]> s.

Definition validate_tapos (s : summaries) (h : transaction_header) : R () :=
  eos_assert (verify_reference_block h (summary s (u16 (ref_block_num h)))) invalid_ref_block_exception.

(** ** Expiration and duplicates *)

Definition validate_expiration (c : chain_config) (pending_time : Z) (h : transaction_header) : R () :=
  eos_assert (pending_time <=? seconds (expiration h)) expired_tx_exception ;;
  eos_assert (seconds (expiration h) <=? i64 (pending_time + seconds (max_transaction_lifetime c)))
    tx_exp_too_far_exception.

(** [transaction_object] in its index. *)
Record transaction_object : Type := mk_trx_object { to_expiration : Z; to_trx_id : digest_type }.
Record dedupe_index : Type := mk_dedupe { known : gmap Z transaction_object; next_known : Z }.

Definition find_known (i : dedupe_index) (id : digest_type) : option (Z * transaction_object) :=
  find (fun x => bool_decide (to_trx_id x.2 = id)) (map_to_list (known i)).

Definition is_known_unexpired_transaction (i : dedupe_index) (id : digest_type) : bool :=
  bool_decide (is_Some (find_known i id)).

(** The exception of the index, which refuses an id it has, becomes [tx_duplicate]. *)
Definition record_transaction (id : digest_type) (expire : Z) : ST dedupe_index exn () :=
  i ← get_st;
  st_assert (negb (is_known_unexpired_transaction i id)) tx_duplicate ;;
  put_st (mk_dedupe (<[next_known i := mk_trx_object expire id]> (known i)) (next_known i + 1)).

(** The order of [by_expiration]. *)
Definition expires_le (x y : Z * transaction_object) : Prop :=
  to_expiration x.2 < to_expiration y.2 ∨ to_expiration x.2 = to_expiration y.2 ∧ x.1 ≤ y.1.
#[export] Instance expires_le_dec x y : Decision (expires_le x y).
Proof. unfold expires_le. apply _. Defined.

Definition first_to_expire (m : gmap Z transaction_object) : option (Z * transaction_object) :=
  head (merge_sort expires_le (map_to_list m)).

(** The loop; its fuel is the number of entries. *)
Fixpoint clear_loop (fuel : nat) (now : Z) (m : gmap Z transaction_object) : gmap Z transaction_object :=
  match fuel with
  | O => m
  | S fuel => match first_to_expire m with
              | Some (k, o) => if seconds (to_expiration o) <? now then clear_loop fuel now (delete k m) else m
              | None => m
              end
  end.

Definition clear_expired_input_transactions (now : Z) (i : dedupe_index) : dedupe_index :=
  mk_dedupe (clear_loop (size (known i)) now (known i)) (next_known i).

(** ** Lists of a producing node *)

(** The lists of [controller::config] that are set when the node starts; the
    others are [name_lists]. *)
Record node_lists : Type := mk_node_lists
  { sender_bypass_whiteblacklist : gset Z; actor_whitelist : gset Z; contract_whitelist : gset Z;
    action_blacklist : gset (Z * Z) }.

(** [std::lower_bound] on a sorted range: the rest of it from the first element
    that is not smaller. *)
Fixpoint lower_bound (range : list Z) (x : Z) : list Z :=
  match range with
  | y :: rest => if y <? x then lower_bound rest x else range
  | [] => []
  end.

(** The two loops over the actors; the range is what is left of the list. *)
Fixpoint subset_loop (actors range : list Z) : bool :=
  match actors with
  | [] => true
  | actor :: actors =>
      match lower_bound range actor with
      | [] => false
      | y :: rest => if y =? actor then subset_loop actors rest else false
      end
  end.
Fixpoint intersects_loop (actors range : list Z) : bool :=
  match actors with
  | [] => false
  | actor :: actors =>
      match lower_bound range actor with
      | [] => false
      | y :: rest => if y =? actor then true else intersects_loop actors (y :: rest)
      end
  end.

Definition front (l : list Z) : Z := default 0 (head l).
Definition back (l : list Z) : Z := default 0 (last l).

Definition check_actor_list (n : node_lists) (c : name_lists) (actor_set : gset Z) : R () :=
  let actors := in_ascending actor_set in
  if bool_decide (actors = []) then mret ()
  else if negb (bool_decide (actor_whitelist n = ∅)) then
    let whitelist := in_ascending (actor_whitelist n) in
    eos_assert ((front whitelist <=? front actors) && (back actors <=? back whitelist)
                && subset_loop actors whitelist) actor_whitelist_exception
  else if negb (bool_decide (actor_blacklist c = ∅)) then
    let blacklist := in_ascending (actor_blacklist c) in
    eos_assert (negb ((front actors <=? back blacklist) && (front blacklist <=? back actors)
                      && intersects_loop actors blacklist)) actor_blacklist_exception
  else mret ().

Definition check_contract_list (n : node_lists) (c : name_lists) (code : Z) : R () :=
  if negb (bool_decide (contract_whitelist n = ∅)) then
    eos_assert (bool_decide (code ∈ contract_whitelist n)) contract_whitelist_exception
  else if negb (bool_decide (contract_blacklist c = ∅)) then
    eos_assert (negb (bool_decide (code ∈ contract_blacklist c))) contract_blacklist_exception
  else mret ().

Definition check_action_list (n : node_lists) (code action : Z) : R () :=
  if negb (bool_decide (action_blacklist n = ∅)) then
    eos_assert (negb (bool_decide ((code, action) ∈ action_blacklist n))) action_blacklist_exception
  else mret ().

Definition sender_avoids_whitelist_blacklist_enforcement (n : node_lists) (sender : Z) : bool :=
  negb (bool_decide (sender_bypass_whiteblacklist n = ∅)) && bool_decide (sender ∈ sender_bypass_whiteblacklist n).

Definition is_resource_greylisted (c : name_lists) (name : Z) : bool := bool_decide (name ∈ resource_greylist c).

(** ** The permissions of the producers' account *)

Definition majority_producers_permission_name : Z := Name.N "prod.major".
Definition minority_producers_permission_name : Z := Name.N "prod.minor".

Definition calculate_threshold (num_producers numerator denominator : Z) : Z :=
  u32 (u32 (num_producers * numerator) / denominator + 1).

(** One account factor of weight 1 per producer. *)
Definition producers_authority (producers : list Schedule.producer_key) (threshold : Z) : authority :=
  mk_authority threshold [] ((fun p => mk_plw (mk_level (Schedule.producer_name p) config.active_name) 1) <$> producers) [].

#[export] Instance permission_level_weight_eq_dec : EqDecision permission_level_weight.
Proof. solve_decision. Defined.
#[export] Instance key_weight_eq_dec : EqDecision key_weight.
Proof. solve_decision. Defined.
#[export] Instance wait_weight_eq_dec : EqDecision wait_weight.
Proof. solve_decision. Defined.
#[export] Instance authority_eq_dec : EqDecision authority.
Proof. solve_decision. Defined.

(** The lambda [update_permission] writes the authority and nothing else. *)
Definition update_permission (p : permission_object) (a : authority) : AM () :=
  if bool_decide (po_auth p = a) then mret () else modify_permission (po_last_updated p) p a.

Definition update_one (producers : list Schedule.producer_key) (x : Z * Z * Z) : AM () :=
  let '(name, numerator, denominator) := x in
  s ← get_st;
  p ← lift (get_permission s (mk_level producers_account_name name));
  update_permission p (producers_authority producers
                         (calculate_threshold (u32 (Z.of_nat (length producers))) numerator denominator)).

Definition update_producers_authority (producers : list Schedule.producer_key) : AM () :=
  update_one producers (config.active_name, 2, 3) ;;
  update_one producers (majority_producers_permission_name, 1, 2) ;;
  update_one producers (minority_producers_permission_name, 1, 3).

(** ** The lists decide inclusion and disjointness *)

Lemma in_ascending_sorted (s : gset Z) : StronglySorted Z.lt (in_ascending s).
Proof.
  unfold in_ascending. assert (NoDup (merge_sort Z.le (elements s))) as Hnd.
  { rewrite merge_sort_Permutation. apply NoDup_elements. }
  assert (StronglySorted Z.le (merge_sort Z.le (elements s))) as Hs.
  { apply StronglySorted_merge_sort; [intros x y z; lia|intros x y; lia]. }
  revert Hnd Hs. generalize (merge_sort Z.le (elements s)). intros l Hnd Hs.
  induction Hs as [|x l Hs IH Hx]; constructor.
  - apply IH. by apply NoDup_cons in Hnd as [_ ?].
  - apply NoDup_cons in Hnd as [Hn _]. rewrite Forall_forall in *. intros y Hy.
    pose proof (Hx y Hy). assert (x ≠ y) by (intros ->; done). lia.
Qed.

Lemma in_ascending_elem (s : gset Z) x : x ∈ in_ascending s ↔ x ∈ s.
Proof. unfold in_ascending. rewrite merge_sort_Permutation. apply elem_of_elements. Qed.

Lemma sorted_tail x l : StronglySorted Z.lt (x :: l) → StronglySorted Z.lt l ∧ ∀ y, y ∈ l → x < y.
Proof. intros H. apply StronglySorted_inv in H as [H1 H2]. rewrite Forall_forall in H2. done. Qed.

Lemma lower_bound_spec range x : StronglySorted Z.lt range →
  StronglySorted Z.lt (lower_bound range x) ∧ ∀ z, z ∈ lower_bound range x ↔ z ∈ range ∧ x ≤ z.
Proof.
  induction range as [|y rest IH]; intros Hs; cbn.
  - split; [done|]. set_solver.
  - apply sorted_tail in Hs as Ht. destruct Ht as [Hr Hy]. destruct (Z.ltb_spec y x) as [Hlt|Hge].
    + destruct (IH Hr) as [H1 H2]. split; [done|]. intros z. rewrite H2, elem_of_cons. split; [tauto|].
      intros [[->|?] ?]; [lia|done].
    + split; [done|]. intros z. split; [|tauto]. intros Hz. split; [done|].
      apply elem_of_cons in Hz as [->|Hz]; [done|]. specialize (Hy z Hz). lia.
Qed.

(** What a loop finds at the actor it looks at. *)
Lemma lower_bound_head range x : StronglySorted Z.lt range →
  match lower_bound range x with
  | y :: rest => StronglySorted Z.lt (y :: rest) ∧ (x ∈ range ↔ y = x) ∧
                 ∀ z, x < z → (z ∈ y :: rest ↔ z ∈ range)
  | [] => ∀ z, x ≤ z → z ∉ range
  end.
Proof.
  intros Hs. destruct (lower_bound_spec range x Hs) as [H1 H2]. destruct (lower_bound range x) as [|y rest].
  - intros z Hz Hin. apply (not_elem_of_nil z). by apply H2.
  - split; [done|]. destruct (sorted_tail _ _ H1) as [_ Hy]. split; [split|].
    + intros Hx. assert (x ∈ y :: rest) as Hin by (apply H2; split; [done|lia]).
      apply elem_of_cons in Hin as [->|Hin]; [done|]. specialize (Hy x Hin).
      destruct (proj1 (H2 y) ltac:(left)). lia.
    + intros ->. by apply (H2 x); left.
    + intros z Hz. rewrite H2. split; [tauto|]. intros; split; [done|lia].
Qed.

Lemma subset_loop_spec actors : StronglySorted Z.lt actors → ∀ range, StronglySorted Z.lt range →
  subset_loop actors range = true ↔ ∀ a, a ∈ actors → a ∈ range.
Proof.
  induction actors as [|a actors IH]; intros Ha range Hr; cbn [subset_loop].
  - split; [intros _ a Ha'; by apply not_elem_of_nil in Ha'|done].
  - apply sorted_tail in Ha as [Ha Hlt]. pose proof (lower_bound_head range a Hr) as Hb.
    destruct (lower_bound range a) as [|y rest].
    + split; [done|]. intros H. exfalso. by apply (Hb a); [lia|apply H; left].
    + destruct Hb as (Hs & Hin & Hafter). apply sorted_tail in Hs as [Hs Hy]. destruct (Z.eqb_spec y a) as [->|Hne].
      * rewrite (IH Ha rest Hs). split.
        -- intros H z [->|Hz]%elem_of_cons; [by apply Hin|]. apply Hafter; [by apply Hlt|]. right. by apply H.
        -- intros H z Hz. specialize (Hlt z Hz).
           assert (z ∈ a :: rest) as Hm by (apply Hafter; [done|apply H; by right]).
           apply elem_of_cons in Hm as [->|Hm]; [lia|done].
      * split; [done|]. intros H. exfalso. apply Hne, Hin, H. left.
Qed.

Lemma intersects_loop_spec actors : StronglySorted Z.lt actors → ∀ range, StronglySorted Z.lt range →
  intersects_loop actors range = true ↔ ∃ a, a ∈ actors ∧ a ∈ range.
Proof.
  induction actors as [|a actors IH]; intros Ha range Hr; cbn [intersects_loop].
  - split; [done|]. intros (a & Ha' & _). by apply not_elem_of_nil in Ha'.
  - apply sorted_tail in Ha as [Ha Hlt]. pose proof (lower_bound_head range a Hr) as Hb.
    destruct (lower_bound range a) as [|y rest].
    + split; [done|]. intros (z & [->|Hz]%elem_of_cons & Hzr); exfalso.
      * by apply (Hb a); [lia|].
      * specialize (Hlt z Hz). by apply (Hb z); [lia|].
    + destruct Hb as (Hs & Hin & Hafter). destruct (Z.eqb_spec y a) as [->|Hne].
      * split; [|done]. intros _. exists a. split; [left|by apply Hin].
      * rewrite (IH Ha _ Hs). split.
        -- intros (z & Hz & Hzr). exists z. split; [by right|]. apply Hafter; [by apply Hlt|done].
        -- intros (z & [->|Hz]%elem_of_cons & Hzr); [by apply Hin in Hzr|].
           exists z. split; [done|]. apply Hafter; [by apply Hlt|done].
Qed.

Lemma front_back l : StronglySorted Z.lt l → l ≠ [] →
  front l ∈ l ∧ back l ∈ l ∧ ∀ x, x ∈ l → front l ≤ x ≤ back l.
Proof.
  intros Hs Hne. destruct l as [|x l]; [done|]. clear Hne. unfold front, back. cbn [head default].
  assert (∃ y, last (x :: l) = Some y ∧ y ∈ x :: l ∧ ∀ z, z ∈ x :: l → z ≤ y) as (y & -> & Hy & Hmax).
  { revert x Hs. induction l as [|x' l IH]; intros x Hs.
    - exists x. split_and!; [done|left|]. intros z Hz. apply list_elem_of_singleton in Hz as ->. lia.
    - apply sorted_tail in Hs as [Hs Hx]. destruct (IH x' Hs) as (y & Hl & Hy & Hmax). exists y.
      split_and!; [by rewrite <- Hl|by right|]. intros z [->|Hz]%elem_of_cons; [|by apply Hmax].
      specialize (Hx y Hy). lia. }
  apply sorted_tail in Hs as [_ Hx]. cbn. split_and!; [left|done|].
  intros z Hz. split; [|by apply Hmax]. apply elem_of_cons in Hz as [->|Hz]; [lia|]. specialize (Hx z Hz). lia.
Qed.

(** What the check of the actors means. *)
Definition actors_allowed (n : node_lists) (c : name_lists) (actors : gset Z) : R () :=
  if decide (actors = ∅) then Ok ()
  else if decide (actor_whitelist n = ∅) then
    if decide (actors ## actor_blacklist c) then Ok () else Err actor_blacklist_exception
  else if decide (actors ⊆ actor_whitelist n) then Ok () else Err actor_whitelist_exception.

Lemma in_ascending_nil (s : gset Z) : in_ascending s = [] ↔ s = ∅.
Proof.
  split.
  - intros H. apply set_eq. intros x. rewrite <- in_ascending_elem, H. set_solver.
  - intros ->. by unfold in_ascending; rewrite elements_empty.
Qed.

(** The extents check of the code never changes the answer of the loops. *)
Lemma subset_check (s w : gset Z) : s ≠ ∅ → w ≠ ∅ →
  let a := in_ascending s in let l := in_ascending w in
  (front l <=? front a) && (back a <=? back l) && subset_loop a l = true ↔ s ⊆ w.
Proof.
  intros Hs Hw. cbn zeta.
  pose proof (front_back _ (in_ascending_sorted s) (fun E => Hs (proj1 (in_ascending_nil s) E))) as (F1 & B1 & _).
  pose proof (front_back _ (in_ascending_sorted w) (fun E => Hw (proj1 (in_ascending_nil w) E))) as (_ & _ & M).
  pose proof (subset_loop_spec _ (in_ascending_sorted s) _ (in_ascending_sorted w)) as L.
  assert ((∀ a, a ∈ in_ascending s → a ∈ in_ascending w) ↔ s ⊆ w) as E.
  { rewrite elem_of_subseteq. by setoid_rewrite in_ascending_elem. }
  rewrite !andb_true_iff, !Z.leb_le, L, <- E. split; [tauto|]. intros H.
  pose proof (M _ (H _ F1)). pose proof (M _ (H _ B1)). split; [lia|done].
Qed.

Lemma disjoint_check (s b : gset Z) : s ≠ ∅ → b ≠ ∅ →
  let a := in_ascending s in let l := in_ascending b in
  negb ((front a <=? back l) && (front l <=? back a) && intersects_loop a l) = true ↔ s ## b.
Proof.
  intros Hs Hb. cbn zeta.
  pose proof (front_back _ (in_ascending_sorted s) (fun E => Hs (proj1 (in_ascending_nil s) E))) as (_ & _ & M1).
  pose proof (front_back _ (in_ascending_sorted b) (fun E => Hb (proj1 (in_ascending_nil b) E))) as (_ & _ & M2).
  pose proof (intersects_loop_spec _ (in_ascending_sorted s) _ (in_ascending_sorted b)) as L.
  rewrite negb_true_iff, <- not_true_iff_false, !andb_true_iff, !Z.leb_le, L. rewrite elem_of_disjoint. split.
  - intros H x Hx1 Hx2. rewrite <- in_ascending_elem in Hx1, Hx2. apply H.
    pose proof (M1 x Hx1). pose proof (M2 x Hx2). split; [lia|]. by exists x.
  - intros H [_ (x & Hx1 & Hx2)]. rewrite in_ascending_elem in Hx1, Hx2. by apply (H x).
Qed.

(** C25: the check of the actors of a transaction, which walks two sorted lists side
    by side after a test of their extents, is inclusion in the whitelist where
    there is one, and disjointness from the blacklist otherwise. *)
Theorem check_actor_list_correct (n : node_lists) (c : name_lists) (actors : gset Z) :
  check_actor_list n c actors = actors_allowed n c actors.
Proof.
  unfold check_actor_list, actors_allowed. destruct (decide (actors = ∅)) as [->|Hne].
  { by rewrite bool_decide_true by (by apply in_ascending_nil). }
  rewrite bool_decide_false by (by rewrite in_ascending_nil).
  destruct (decide (actor_whitelist n = ∅)) as [Hw|Hw].
  - rewrite (bool_decide_true (actor_whitelist n = ∅)) by done. cbn [negb].
    destruct (decide (actor_blacklist c = ∅)) as [Hb|Hb].
    + rewrite bool_decide_true by done. cbn [negb]. by rewrite decide_True by (rewrite Hb; set_solver).
    + rewrite bool_decide_false by done. cbn [negb]. pose proof (disjoint_check actors _ Hne Hb) as H. cbn zeta in H.
      unfold eos_assert. destruct (negb _); destruct (decide _); tauto || (exfalso; naive_solver).
  - rewrite (bool_decide_false (actor_whitelist n = ∅)) by done. cbn [negb].
    pose proof (subset_check actors _ Hne Hw) as H. cbn zeta in H.
    unfold eos_assert. destruct (_ && _); destruct (decide _); tauto || (exfalso; naive_solver).
Qed.

(** ** References to recent blocks *)

Lemma u16_land x : Z.land x 0xffff = u16 x.
Proof. change 0xffff with (Z.ones 16). by rewrite Z.land_ones. Qed.

(** The ids of consecutive blocks. *)
Definition consecutive (first : Z) (ids : list digest_type) : Prop :=
  ∀ k id, ids !! k = Some id → Header.num_from_id id = first + Z.of_nat k.

Lemma consecutive_snoc first ids id : consecutive first (ids ++ [id]) →
  consecutive first ids ∧ Header.num_from_id id = first + Z.of_nat (length ids).
Proof.
  intros H. split.
  - intros k b Hk. apply H. by apply lookup_app_l_Some.
  - apply H. by rewrite lookup_app_r, Nat.sub_diag by lia.
Qed.

Lemma u16_near x y : 0 < y - x < 65536 → u16 x ≠ u16 y.
Proof.
  unfold u16. intros H E. assert ((y - x) mod 2 ^ 16 = 0) as Hz.
  { rewrite Zminus_mod, E, Z.sub_diag. done. }
  rewrite Z.mod_small in Hz by lia. lia.
Qed.

Lemma summary_recent first ids s : consecutive first ids → ∀ k id,
  ids !! k = Some id → Z.of_nat (length ids) ≤ Z.of_nat k + 65536 →
  summary (foldl create_block_summary s ids) (u16 (first + Z.of_nat k)) = id.
Proof.
  induction ids as [|b ids IH] using rev_ind; intros Hc k id Hk Hlen; [done|].
  apply consecutive_snoc in Hc as [Hc Hb]. rewrite foldl_snoc. unfold create_block_summary at 1, summary.
  rewrite u16_land, Hb. rewrite length_app in Hlen. cbn in Hlen.
  apply lookup_app_Some in Hk as [Hk|[Hge Hk]].
  - apply lookup_lt_Some in Hk as Hlt. rewrite lookup_insert_ne; [apply IH; by (done || lia)|].
    apply not_eq_sym, u16_near. lia.
  - apply list_lookup_singleton_Some in Hk as [Hk ->].
    replace k with (length ids) by lia. by rewrite lookup_insert_eq.
Qed.

Lemma num_of_reference id : u16 (Header.endian_reverse_u32 (u32 (hash0 id))) = u16 (Header.num_from_id id).
Proof. done. Qed.

(** A block whose slot the reference names. *)
Definition slot_written (first : Z) (ids : list digest_type) (h : transaction_header) : Prop :=
  ∃ k : nat, (k < length ids)%nat ∧ u16 (first + Z.of_nat k) = u16 (ref_block_num h).

(** The last block with a number that is the given one modulo 2^16. *)
Lemma last_in_slot first n r k0 : 0 ≤ k0 < n → u16 (first + k0) = u16 r →
  ∃ k, 0 ≤ k < n ∧ n ≤ k + 65536 ∧ u16 (first + k) = u16 r.
Proof.
  unfold u16. change (2 ^ 16) with 65536. intros H0 E0. exists (n - 1 - (first + n - 1 - r) mod 65536).
  set (q := first + n - 1 - r). pose proof (Z.mod_pos_bound q 65536 ltac:(lia)) as Hb.
  pose proof (Z.div_mod q 65536 ltac:(lia)) as D.
  pose proof (Z.div_mod (first + k0) 65536 ltac:(lia)). pose proof (Z.div_mod r 65536 ltac:(lia)).
  split_and!; [nia|lia|lia|].
  replace (first + (n - 1 - q mod 65536)) with (r + q / 65536 * 65536) by lia. by rewrite Z.mod_add.
Qed.

(** C26: a transaction whose reference names the slot of a block of this chain is
    accepted exactly if it refers to one of the last 65536 blocks, by the low half
    of the number and 32 bits of the id.  Every slot is that of a block once there
    are 65536 of them. *)
Theorem tapos_recent_block (first : Z) (ids : list digest_type) (s : summaries) (h : transaction_header) :
  consecutive first ids → slot_written first ids h →
  validate_tapos (foldl create_block_summary s ids) h = Ok () ↔
  ∃ k id, ids !! k = Some id ∧ Z.of_nat (length ids) ≤ Z.of_nat k + 65536 ∧ h = set_reference_block id h.
Proof.
  intros Hc (k0 & Hk0 & E0). unfold validate_tapos. set (s' := foldl create_block_summary s ids).
  transitivity (verify_reference_block h (summary s' (u16 (ref_block_num h))) = true).
  { unfold eos_assert. by destruct (verify_reference_block _ _). }
  unfold verify_reference_block. rewrite andb_true_iff, !Z.eqb_eq. split.
  - intros [H1 H2].
    destruct (last_in_slot first (Z.of_nat (length ids)) _ (Z.of_nat k0) ltac:(lia) E0) as (k & Hk & Hl & Ek).
    destruct (lookup_lt_is_Some_2 ids (Z.to_nat k) ltac:(lia)) as [id Hid].
    assert (summary s' (u16 (ref_block_num h)) = id) as Es.
    { rewrite <- Ek, <- (Z2Nat.id k) by lia. by apply summary_recent; [..|lia]. }
    rewrite Es in H1, H2. exists (Z.to_nat k), id. split_and!; [done|lia|].
    destruct h; unfold set_reference_block; cbn in *. by rewrite <- H1, <- H2.
  - intros (k & id & Hk & Hl & Hh).
    assert (ref_block_num h = u16 (Header.num_from_id id) ∧ ref_block_prefix h = u32 (hash1 id)) as [E1 E2].
    { rewrite Hh. done. }
    assert (summary s' (u16 (ref_block_num h)) = id) as ->; [|by rewrite num_of_reference].
    rewrite E1. unfold u16 at 1. rewrite Z.mod_small by apply Z.mod_pos_bound, eq_refl.
    rewrite (Hc k id Hk). by apply summary_recent.
Qed.

(** ** The index of known transactions *)

Lemma first_to_expire_spec m : match first_to_expire m with
  | Some (k, o) => m !! k = Some o ∧ ∀ j p, m !! j = Some p → to_expiration o ≤ to_expiration p
  | None => m = ∅
  end.
Proof.
  unfold first_to_expire.
  assert (StronglySorted expires_le (merge_sort expires_le (map_to_list m))) as Hs.
  { apply StronglySorted_merge_sort; [intros x y z; unfold expires_le; lia|intros x y; unfold expires_le; lia]. }
  pose proof (merge_sort_Permutation expires_le (map_to_list m)) as Hp.
  destruct (merge_sort _ _) as [|[k o] l]; cbn.
  - apply map_to_list_empty_iff. by apply Permutation_nil_l in Hp.
  - assert (∀ j p, m !! j = Some p ↔ (j, p) ∈ (k, o) :: l) as E.
    { intros j p. by rewrite Hp, elem_of_map_to_list. }
    split; [apply E; left|]. intros j p Hj%E. apply StronglySorted_inv in Hs as [_ Hf]. rewrite Forall_forall in Hf.
    apply elem_of_cons in Hj as [[= -> ->]|Hj]; [done|]. specialize (Hf _ Hj). unfold expires_le in Hf. cbn in Hf. lia.
Qed.

Definition unexpired (now : Z) (x : Z * transaction_object) : Prop := now ≤ seconds (to_expiration x.2).
#[export] Instance unexpired_dec now x : Decision (unexpired now x).
Proof. unfold unexpired. apply _. Defined.

Definition sec_ok (m : gmap Z transaction_object) : Prop :=
  map_Forall (fun _ o => 0 ≤ to_expiration o ≤ u32_max) m.

Lemma seconds_small s : 0 ≤ s ≤ u32_max → seconds s = s * 1000000.
Proof. intros H. unfold seconds. apply i64_small. unfold u32_max, i64_min, i64_max in *. lia. Qed.

(** Clearing the index terminates with exactly the transactions whose
    expiration is not before the time of the pending block. *)
Lemma clear_keeps_unexpired (now : Z) (i : dedupe_index) :
  sec_ok (known i) → clear_expired_input_transactions now i = mk_dedupe (filter (unexpired now) (known i)) (next_known i).
Proof.
  unfold clear_expired_input_transactions. intros Hok. f_equal. revert Hok. generalize (known i) as m.
  assert (∀ n m, size m = n → sec_ok m → clear_loop n now m = filter (unexpired now) m) as H; [|by intros m; apply H].
  induction n as [|n IH]; intros m Hn Hok; cbn [clear_loop].
  - apply map_size_empty_inv in Hn as ->. by rewrite map_filter_empty.
  - pose proof (first_to_expire_spec m) as Hf. destruct (first_to_expire m) as [[k o]|].
    + destruct Hf as [Hk Hmin]. destruct (Z.ltb_spec (seconds (to_expiration o)) now) as [Hlt|Hge].
      * rewrite IH; [|rewrite map_size_delete_Some by (by eexists); lia|by apply map_Forall_delete].
        apply map_eq. intros j. rewrite !map_lookup_filter. destruct (decide (j = k)) as [->|Hj].
        -- rewrite lookup_delete_eq, Hk. cbn. by rewrite option_guard_False by (unfold unexpired; cbn; lia).
        -- by rewrite lookup_delete_ne.
      * symmetry. apply map_filter_id. intros j p Hj. unfold unexpired. cbn. specialize (Hmin j p Hj).
        rewrite (seconds_small (to_expiration o)) in Hge by exact (Hok k o Hk).
        rewrite seconds_small by exact (Hok j p Hj). lia.
    + subst m. by rewrite map_filter_empty.
Qed.

(** ** The producers' account *)

Lemma by_owner_unique s id p : auth_wf s → permissions s !! id = Some p →
  by_owner s (mk_level (po_owner p) (po_name p)) = Some p.
Proof.
  intros Hw Hp. destruct (by_owner s _) as [q|] eqn:E.
  - apply by_owner_some in E as (j & Hq & Ho & Hn). cbn in Ho, Hn.
    assert (j = id) as -> by (by eapply (aw_unique s Hw)). congruence.
  - exfalso. by eapply by_owner_none; [exact E|exact Hp|..].
Qed.

Lemma producers_authority_typed ps t : 0 ≤ t → fields_typed (producers_authority ps t).
Proof.
  intros Ht. split_and!; cbn; try constructor; [|done].
  apply Forall_fmap, Forall_true. intros p. cbn. unfold u16_max. lia.
Qed.

(** One update stores the authority and leaves the other permissions alone. *)
Lemma update_one_spec ps name num den s s' : auth_wf s → update_one ps (name, num, den) s = (Ok (), s') →
  auth_wf s' ∧
  (∃ p, permissions s' !! po_id p = Some p ∧ po_owner p = producers_account_name ∧ po_name p = name ∧
     po_auth p = producers_authority ps (calculate_threshold (u32 (Z.of_nat (length ps))) num den)) ∧
  ∀ id q, po_name q ≠ name → permissions s' !! id = Some q ↔ permissions s !! id = Some q.
Proof.
  intros Hw H. unfold update_one in H. apply st_bind_ok in H as (s0 & s1 & [= <- <-] & H).
  apply st_bind_ok in H as (p & s1 & [Hg <-]%lift_ok & H). apply (get_permission_ok _ _ _ Hw) in Hg as (Hp & Hid & Ho & Hn & _).
  cbn in Ho, Hn. unfold update_permission in H. case_bool_decide as Ha.
  - injection H as <-. split_and!; [done|by exists p|done].
  - set (a := producers_authority _ _) in *. unfold modify_permission, modify_st in H. injection H as <-. split_and!.
    + apply (modify_permission_wf s (po_last_updated p) p a); [done..|]. apply producers_authority_typed.
      apply u32_range.
    + eexists (mk_permission (po_id p) _ _ _ _ _ _). cbn. by rewrite lookup_insert_eq.
    + intros id q Hne. cbn. rewrite lookup_insert_Some. split.
      * intros [[_ <-]|[_ ?]]; [by cbn in Hne; congruence|done].
      * intros Hq. right. split; [|done]. intros <-. congruence.
Qed.

(** Producers among those whose active permission is granted. *)
Definition in_favor (truth : permission_level → bool) (ps : list Schedule.producer_key) : Z :=
  Z.of_nat (length (filter (fun p => truth (mk_level (Schedule.producer_name p) config.active_name) = true) ps)).

Lemma producers_weight c truth ps : weight_of c truth (factors (producers_authority ps 0)) = in_favor truth ps.
Proof.
  unfold factors, in_favor, weight_of. cbn [producers_authority waits keys accounts fmap list_fmap app].
  induction ps as [|p ps IH]; [done|]. rewrite filter_cons, !fmap_cons. cbn [foldr]. rewrite IH.
  cbn [holds plw_permission meta_weight plw_weight].
  case_decide as E; [rewrite E; cbn [length]; lia|]. destruct (truth _); [done|lia].
Qed.

Lemma threshold_more_than (n k num den : Z) : 0 ≤ n → 0 ≤ num → 0 < den → n * num < u32_max →
  (calculate_threshold n num den <= k ↔ num * n < den * k).
Proof.
  intros Hn Hnum Hden Hfit. unfold calculate_threshold. rewrite (u32_small (n * num)) by (unfold u32_max in *; nia).
  assert (0 ≤ n * num / den ≤ n * num) as Hq.
  { split; [apply Z.div_pos; nia|]. apply Z.div_le_upper_bound; nia. }
  rewrite u32_small by (unfold u32_max in *; lia).
  pose proof (Z.div_mod (n * num) den ltac:(lia)). pose proof (Z.mod_pos_bound (n * num) den Hden). nia.
Qed.

(** C32: after the start of a block the permissions of the producers' account are
    granted by more than two thirds, more than one half and more than one third of
    the active producers, whatever else the permission table holds. *)
Theorem producers_authority_majorities (ps : list Schedule.producer_key) (s s' : auth_db) :
  auth_wf s → Z.of_nat (length ps) < 2 ^ 31 - 1 → update_producers_authority ps s = (Ok (), s') →
  auth_wf s' ∧
  ∀ name num den, (name, num, den) ∈
      [(config.active_name, 2, 3); (majority_producers_permission_name, 1, 2); (minority_producers_permission_name, 1, 3)] →
  ∃ p, get_permission s' (mk_level producers_account_name name) = Ok p ∧
  ∀ c truth, approves c truth (po_auth p) = true ↔ num * Z.of_nat (length ps) < den * in_favor truth ps.
Proof.
  intros Hw Hlen H. unfold update_producers_authority in H.
  apply st_bind_ok in H as ([] & s1 & H1 & H). apply st_bind_ok in H as ([] & s2 & H2 & H3).
  destruct (update_one_spec _ _ _ _ _ _ Hw H1) as (W1 & (p1 & P1 & O1 & N1 & A1) & K1).
  destruct (update_one_spec _ _ _ _ _ _ W1 H2) as (W2 & (p2 & P2 & O2 & N2 & A2) & K2).
  destruct (update_one_spec _ _ _ _ _ _ W2 H3) as (W3 & (p3 & P3 & O3 & N3 & A3) & K3).
  split; [done|]. clear H1 H2 H3.
  assert (permissions s' !! po_id p1 = Some p1) as Q1.
  { apply K3; [by rewrite N1|]. apply K2; [by rewrite N1|done]. }
  assert (permissions s' !! po_id p2 = Some p2) as Q2 by (apply K3; [by rewrite N2|done]).
  assert (∀ name num den p, name ≠ 0 → 0 ≤ num ≤ 2 → 0 < den → permissions s' !! po_id p = Some p →
    po_owner p = producers_account_name → po_name p = name →
    po_auth p = producers_authority ps (calculate_threshold (u32 (Z.of_nat (length ps))) num den) →
    ∃ p, get_permission s' (mk_level producers_account_name name) = Ok p ∧
    ∀ c truth, approves c truth (po_auth p) = true ↔ num * Z.of_nat (length ps) < den * in_favor truth ps) as Hgen.
  { intros name num den p Hn0 Hnum Hden P O N A. exists p. split.
    - unfold get_permission, level_named. cbn [actor permission]. rewrite (proj2 (Z.eqb_neq name 0) Hn0).
      rewrite <- O, <- N, (by_owner_unique s' _ p W3 P). cbn. by rewrite O.
    - intros c truth. unfold approves. rewrite A, Z.leb_le. cbn [threshold].
      change (factors (producers_authority ps _)) with (factors (producers_authority ps 0)).
      rewrite producers_weight, u32_small by (unfold u32_max; lia). apply threshold_more_than; unfold u32_max; nia. }
  intros name num den Hin. rewrite !elem_of_cons in Hin.
  destruct Hin as [[= -> -> ->]|[[= -> -> ->]|[[= -> -> ->]|Hin]]]; [..|by apply not_elem_of_nil in Hin].
  - by apply (Hgen _ _ _ p1).
  - by apply (Hgen _ _ _ p2).
  - by apply (Hgen _ _ _ p3).
Qed.

(** ** Examples *)

Module AdmissionDemo.
(** Three blocks from number 7 on; the number is the big-endian first word. *)
Definition block_id (n : Z) : digest_type := mk_digest (Header.endian_reverse_u32 n) (1000 + n) 0 0.
Definition ids : list digest_type := block_id <$> [7; 8; 9].
Definition to_block_8 : transaction_header :=
  set_reference_block (block_id 8) (mk_trx_header 100 0 0 0 0 0).

Lemma ids_consecutive : consecutive 7 ids.
Proof.
  intros k id Hk. destruct k as [|[|[|k]]]; [vm_compute in Hk; injection Hk as <-; reflexivity..|].
  by vm_compute in Hk.
Qed.

Definition producers : list Schedule.producer_key := (fun p => Schedule.mk_producer_key p 1) <$> [3; 4; 5].
Definition child (name parent : Z) (s : auth_db) : auth_db :=
  (create_permission 5 producers_account_name name parent authority0 0 s).2.
Definition stage1 : auth_db := child config.owner_name 0 AuthorizationManager.initialize_database.
Definition stage2 : auth_db := child config.active_name 1 stage1.
Definition stage3 : auth_db := child majority_producers_permission_name 2 stage2.
Definition table : auth_db := child minority_producers_permission_name 3 stage3.

Lemma authority0_typed : fields_typed authority0.
Proof. unfold fields_typed. repeat constructor; by vm_compute. Qed.

Lemma child_wf name parent s q : auth_wf s → name ≠ 0 → name ≠ config.owner_name → parent ≠ 0 →
  permissions s !! parent = Some q → po_owner q = producers_account_name → auth_wf (child name parent s).
Proof.
  intros Hw Hn Ho Hp Hq Hown. apply create_permission_wf; [done|by vm_compute|done|apply authority0_typed|].
  split; [by split|]. intros _. by exists q.
Qed.

Lemma producers_table_wf : auth_wf table.
Proof.
  assert (auth_wf stage1) as W1.
  { apply create_permission_wf; [apply AuthorizationManager.initialize_database_wf|by vm_compute..|apply authority0_typed|].
    split; [done|]. by intros []. }
  assert (auth_wf stage2) as W2.
  { eapply (child_wf _ 1 stage1); [exact W1|by vm_compute..|by vm_compute|by vm_compute]. }
  assert (auth_wf stage3) as W3.
  { eapply (child_wf _ 2 stage2); [exact W2|by vm_compute..|by vm_compute|by vm_compute]. }
  eapply (child_wf _ 3 stage3); [exact W3|by vm_compute..|by vm_compute|by vm_compute].
Qed.
End AdmissionDemo.

Lemma tapos_recent_block_witness :
  validate_tapos (foldl create_block_summary ∅ AdmissionDemo.ids) AdmissionDemo.to_block_8 = Ok ().
Proof.
  apply (tapos_recent_block 7 AdmissionDemo.ids ∅ AdmissionDemo.to_block_8 AdmissionDemo.ids_consecutive).
  - exists 1%nat. split; [vm_compute; lia|by vm_compute].
  - exists 1%nat, (AdmissionDemo.block_id 8). split_and!; [by vm_compute|vm_compute; discriminate|by vm_compute].
Defined.

Lemma producers_authority_majorities_witness :
  ∃ s', update_producers_authority AdmissionDemo.producers AdmissionDemo.table = (Ok (), s') ∧ auth_wf s'.
Proof.
  eexists. split; [vm_compute; reflexivity|].
  eapply (producers_authority_majorities AdmissionDemo.producers AdmissionDemo.table); [apply AdmissionDemo.producers_table_wf|vm_compute; reflexivity|].
  vm_compute. reflexivity.
Defined.

(** Two configurations that differ in the smallest cpu usage billed for a
    transaction compare as equal: [operator ==] leaves the field out. *)
Theorem config_equality_misses_min_cpu :
  ∃ l r, config_eqb l r = true ∧ min_transaction_cpu_usage l ≠ min_transaction_cpu_usage r ∧
    validate l = Ok () ∧ validate r = Ok ().
Proof.
  exists default_config, (mk_chain_config (1024 * 1024) 1000 (1024 * 512) 12 500 20 100
    1000000 1000 750000 200 3600 600 3888000 4096 4 6).
  split_and!; vm_compute; congruence.
Qed.

(** [get_ref_blocknum], documented to give the absolute number of the block that
    the header refers to, gives the head's number whatever the header. *)
Theorem ref_blocknum_is_head (head_blocknum : Z) :
  0 ≤ head_blocknum ≤ u32_max → get_ref_blocknum head_blocknum = head_blocknum.
Proof.
  intros H. unfold get_ref_blocknum. pose proof (Z.div_mod head_blocknum 0xffff ltac:(lia)).
  pose proof (Z.mod_pos_bound head_blocknum 0xffff ltac:(lia)).
  pose proof (Z.div_pos head_blocknum 0xffff ltac:(lia) ltac:(lia)).
  rewrite (u32_small (_ * _)) by lia. rewrite u32_small; lia.
Qed.
End Admission.
