(* ===== verification/TransactionContext.v ===== *)
(** * The context of a transaction

    [transaction_context.cpp]: what a transaction may use of the network and of
    the processor, how it is measured, and how it is billed in the end; which
    input transactions are taken at all.

    Times are microseconds.  The clock is not modelled: a function that reads it
    takes the time as an argument, and the timer, whose signal may come at any
    moment, is a flag of the state.  What the calibration of the timer found is in
    [timer_setup].  The resource model is the one of [build.sh], where bandwidth
    is delegated; the limits that the fee model derives from fees stay unused. *)

From S2P Require Import Prelude Exceptions Name Merkle BlockHeader EosLib ResourceLimits Authority AuthorizationManager NativeContract Admission.

Module TransactionContext.
Import AuthorizationManager Native Admission.
Abbreviation RLdb := ResourceLimits.rl_db.

(** ** State *)

Record net_state : Type := mk_net
  { net_limit : Z; net_limit_due_to_block : bool; net_limit_due_to_greylist : bool; eager_net_limit : Z; net_usage : Z }.

(** The codes of exceptions are the exceptions; [deadline_at] is [_deadline]. *)
Record cpu_state : Type := mk_cpu
  { objective_duration_limit : Z; initial_objective_duration_limit : Z;
    deadline_at : Z; deadline_exception_code : exn; billing_timer_exception_code : exn;
    pseudo_start : Z; billed_time : Z; billing_timer_duration_limit : Z;
    cpu_limit_due_to_greylist : bool; billed_cpu_time_us : Z; timer_expired : bool }.

(** Limits of the fee model. *)
Record contract_limits : Type := mk_contract_limits
  { cpu_limit_by_contract : Z; net_limit_by_contract : Z; use_limit_by_contract : bool }.

(** [cx] holds the database and the RAM noted for validation. *)
Record txc : Type := mk_txc
  { cx : context; cfg : chain_config; dedupe : dedupe_index; tapos : summaries;
    net : net_state; cpu : cpu_state; by_contract : contract_limits;
    bill_to_accounts : gset Z; published : Z; delay : Z;
    is_initialized : bool; is_input : bool; apply_context_free : bool }.

Abbreviation TX := (ST txc exn).

Definition set_cx (x : context) (t : txc) : txc :=
  mk_txc x (cfg t) (dedupe t) (tapos t) (net t) (cpu t) (by_contract t) (bill_to_accounts t) (published t) (delay t)
    (is_initialized t) (is_input t) (apply_context_free t).
Definition set_dedupe (i : dedupe_index) (t : txc) : txc :=
  mk_txc (cx t) (cfg t) i (tapos t) (net t) (cpu t) (by_contract t) (bill_to_accounts t) (published t) (delay t)
    (is_initialized t) (is_input t) (apply_context_free t).
Definition set_net (n : net_state) (t : txc) : txc :=
  mk_txc (cx t) (cfg t) (dedupe t) (tapos t) n (cpu t) (by_contract t) (bill_to_accounts t) (published t) (delay t)
    (is_initialized t) (is_input t) (apply_context_free t).
Definition set_cpu (c : cpu_state) (t : txc) : txc :=
  mk_txc (cx t) (cfg t) (dedupe t) (tapos t) (net t) c (by_contract t) (bill_to_accounts t) (published t) (delay t)
    (is_initialized t) (is_input t) (apply_context_free t).
Definition set_billed (a : gset Z) (t : txc) : txc :=
  mk_txc (cx t) (cfg t) (dedupe t) (tapos t) (net t) (cpu t) (by_contract t) a (published t) (delay t)
    (is_initialized t) (is_input t) (apply_context_free t).
Definition set_initialized (t : txc) : txc :=
  mk_txc (cx t) (cfg t) (dedupe t) (tapos t) (net t) (cpu t) (by_contract t) (bill_to_accounts t) (published t) (delay t)
    true (is_input t) (apply_context_free t).
Definition set_published (p : Z) (input free : bool) (t : txc) : txc :=
  mk_txc (cx t) (cfg t) (dedupe t) (tapos t) (net t) (cpu t) (by_contract t) (bill_to_accounts t) p (delay t)
    (is_initialized t) input free.

Definition on_cx {A} (m : NC A) : TX A := fun t => let '(r, x) := m (cx t) in (r, set_cx x t).
Definition on_dedupe (m : ST dedupe_index exn ()) : TX () := fun t => let '(r, i) := m (dedupe t) in (r, set_dedupe i t).
Definition on_rl {A} (m : ST RLdb exn A) : TX A := on_cx (on_limits m).

(** What does not change while the transaction runs: the transaction, what its
    caller sets, and what the controller says of the pending block. *)
Record trx_env : Type := mk_trx_env
  { trx : transaction; trx_id : digest_type;
    start : Z; deadline : Z; leeway : Z; explicit_billed_cpu_time : bool; enforce_whiteblacklist : bool;
    block_time : Z; is_producing_block : bool; skip_trx_checks : bool; nodes : node_lists;
    view : ResourceLimits.ram_view }.

(** [deadline_timer_verify]: whether the timer is accurate, its overhead, and
    whether [setitimer] succeeds. *)
Record timer_setup : Type := mk_timer { use_deadline_timer : bool; timer_overhead : Z; setitimer_fails : bool }.

Definition time_max : Z := i64_max.
Definition transaction_id_net_usage : Z := 32.

Definition net0 : net_state := mk_net 0 true false 0 0.
Definition cpu0 (e : trx_env) (billed : Z) : cpu_state :=
  mk_cpu 0 0 time_max block_cpu_usage_exceeded block_cpu_usage_exceeded (start e) 0 0 false billed false.

(** ** Timer *)

(** [deadline_timer::start]: the flag it leaves. *)
Definition timer_start (s : timer_setup) (now tp : Z) : bool :=
  if tp =? time_max then false
  else if negb (use_deadline_timer s) then true
  else let x := i64 (tp - now) in
       if x <=? timer_overhead s then true else setitimer_fails s.

Section Context.
Context (e : trx_env).

(** [checktime], when the clock shows [now]. *)
Definition checktime (now : Z) (t : txc) : R () :=
  let c := cpu t in
  if negb (timer_expired c) then mret ()
  else if deadline_at c <? now then
    Err (if explicit_billed_cpu_time e || bool_decide (deadline_exception_code c = deadline_exception)
         then deadline_exception
         else if bool_decide (deadline_exception_code c = block_cpu_usage_exceeded) then block_cpu_usage_exceeded
         else if bool_decide (deadline_exception_code c = tx_cpu_usage_exceeded) then
           if cpu_limit_due_to_greylist c then greylist_cpu_usage_exceeded else tx_cpu_usage_exceeded
         else if bool_decide (deadline_exception_code c = leeway_deadline_exception) then leeway_deadline_exception
         else transaction_exception)
  else mret ().

(** A timer that has not been used again stays stopped; [time_point()] is 0. *)
Definition pause_billing_timer (now : Z) (t : txc) : txc :=
  let c := cpu t in
  if explicit_billed_cpu_time e || (pseudo_start c =? 0) then t
  else set_cpu (mk_cpu (objective_duration_limit c) (initial_objective_duration_limit c) (deadline_at c)
                  deadline_exception (billing_timer_exception_code c) 0 (i64 (now - pseudo_start c))
                  (billing_timer_duration_limit c) (cpu_limit_due_to_greylist c) (billed_cpu_time_us c)
                  (timer_expired c)) t.

Definition resume_billing_timer (s : timer_setup) (now later : Z) (t : txc) : txc :=
  let c := cpu t in
  if explicit_billed_cpu_time e || negb (pseudo_start c =? 0) then t
  else
    let ps := i64 (now - billed_time c) in
    let within := i64 (ps + billing_timer_duration_limit c) <=? deadline e in
    let d := if within then i64 (ps + billing_timer_duration_limit c) else deadline e in
    set_cpu (mk_cpu (objective_duration_limit c) (initial_objective_duration_limit c) d
               (if within then billing_timer_exception_code c else deadline_exception)
               (billing_timer_exception_code c) ps (billed_time c)
               (billing_timer_duration_limit c) (cpu_limit_due_to_greylist c) (billed_cpu_time_us c)
               (timer_start s later d)) t.

(** ** Measuring *)

Definition check_net_usage (n : net_state) : R () :=
  if skip_trx_checks e then mret ()
  else if eager_net_limit n <? net_usage n then
    Err (if net_limit_due_to_block n then block_net_usage_exceeded
         else if net_limit_due_to_greylist n then greylist_net_usage_exceeded
         else tx_net_usage_exceeded)
  else mret ().

Definition with_usage (u : Z) (n : net_state) : net_state :=
  mk_net (net_limit n) (net_limit_due_to_block n) (net_limit_due_to_greylist n) (eager_net_limit n) u.

Definition add_net_usage (u : Z) : TX () :=
  modify_st (fun t => set_net (with_usage (u64 (net_usage (net t) + u)) (net t)) t) ;;
  t ← get_st; lift (check_net_usage (net t)).

Definition with_billed (b : Z) (c : cpu_state) : cpu_state :=
  mk_cpu (objective_duration_limit c) (initial_objective_duration_limit c) (deadline_at c) (deadline_exception_code c)
    (billing_timer_exception_code c) (pseudo_start c) (billed_time c) (billing_timer_duration_limit c)
    (cpu_limit_due_to_greylist c) b (timer_expired c).

Definition update_billed_cpu_time (now : Z) : TX Z :=
  (if explicit_billed_cpu_time e then mret ()
   else modify_st (fun t => set_cpu (with_billed (Z.max (i64 (now - pseudo_start (cpu t)))
                                                     (min_transaction_cpu_usage (cfg t))) (cpu t)) t)) ;;
  t ← get_st; mret (u32 (billed_cpu_time_us (cpu t))).

Definition validate_cpu_usage_to_bill (billed_us : Z) (check_minimum : bool) (t : txc) : R () :=
  if skip_trx_checks e then mret ()
  else
    (if check_minimum then eos_assert (min_transaction_cpu_usage (cfg t) <=? billed_us) transaction_exception
     else mret ()) ;;
    eos_assert (billed_us <=? objective_duration_limit (cpu t))
      (if bool_decide (billing_timer_exception_code (cpu t) = block_cpu_usage_exceeded) then block_cpu_usage_exceeded
       else if cpu_limit_due_to_greylist (cpu t) then greylist_cpu_usage_exceeded else tx_cpu_usage_exceeded).

(** The smallest limits of the billed accounts: network, processor, and whether a
    greylisted account set them. *)
Definition large_number_no_overflow : Z := i64_max / 2.

Definition can_pay_one (force_elastic_limits : bool) (acc : Z * Z * bool * bool) (a : Z) : NC (Z * Z * bool * bool) :=
  let '(nl, cl, gn, gc) := acc in
  x ← get_st;
  let elastic := force_elastic_limits || negb (is_producing_block e && is_resource_greylisted (conf x) a) in
  n ← on_limits (ResourceLimits.get_account_net_limit (view e) a elastic);
  c ← on_limits (ResourceLimits.get_account_cpu_limit (view e) a elastic);
  mret (if 0 <=? n then Z.min nl n else nl, if 0 <=? c then Z.min cl c else cl,
        if (0 <=? n) && negb elastic then true else gn, if (0 <=? c) && negb elastic then true else gc).

Fixpoint can_pay_loop (force : bool) (l : list Z) (acc : Z * Z * bool * bool) : NC (Z * Z * bool * bool) :=
  match l with
  | [] => mret acc
  | a :: l => acc ← can_pay_one force acc a; can_pay_loop force l acc
  end.

Definition max_bandwidth_billed_accounts_can_pay (force_elastic_limits : bool) : TX (Z * Z * bool * bool) :=
  t ← get_st;
  on_cx (can_pay_loop force_elastic_limits (in_ascending (bill_to_accounts t))
           (large_number_no_overflow, large_number_no_overflow, false, false)).

(** ** Starting *)

Definition slot : Z := Timestamp.of_time_point (block_time e).

(** The limits of the block, the chain and the transaction header. *)
Definition objective_limits (t : txc) : net_state * cpu_state :=
  let l := limits (db (cx t)) in
  let c := cfg t in
  let h := header (trx e) in
  let nl := ResourceLimits.get_block_net_limit l in
  let odl := i64 (ResourceLimits.get_block_cpu_limit l) in
  let '(nl, due) := if max_transaction_net_usage c <=? nl then (max_transaction_net_usage c, false)
                    else (nl, net_limit_due_to_block (net t)) in
  let '(odl, code) := if max_transaction_cpu_usage c <=? odl then (max_transaction_cpu_usage c, tx_cpu_usage_exceeded)
                      else (odl, billing_timer_exception_code (cpu t)) in
  let specified := u64 (max_net_usage_words h * 8) in
  let '(nl, due) := if (0 <? specified) && (specified <=? nl) then (specified, false) else (nl, due) in
  let specified_cpu := i64 (max_cpu_usage_ms h * 1000) in
  let '(odl, code) := if (0 <? max_cpu_usage_ms h) && (specified_cpu <=? odl) then (specified_cpu, tx_cpu_usage_exceeded)
                      else (odl, code) in
  (mk_net nl due (net_limit_due_to_greylist (net t)) (eager_net_limit (net t)) (net_usage (net t)),
   mk_cpu odl odl (i64 (start e + odl)) (deadline_exception_code (cpu t)) code (pseudo_start (cpu t))
     (billed_time (cpu t)) (billing_timer_duration_limit (cpu t)) (cpu_limit_due_to_greylist (cpu t))
     (billed_cpu_time_us (cpu t)) (timer_expired (cpu t))).

(** What the billed accounts can pay, with some leeway. *)
Definition eager_limits (p : Z * Z * bool * bool) (t : txc) : net_state * cpu_state :=
  let '(account_net_limit, account_cpu_limit, greylisted_net, greylisted_cpu) := p in
  let n := net t in
  let c := cpu t in
  let eager := net_limit n in
  let new_eager := Z.min eager (u64 (account_net_limit + net_usage_leeway (cfg t))) in
  let '(eager, due) := if new_eager <? eager then (new_eager, false) else (eager, net_limit_due_to_block n) in
  let '(d, code) := if i64 (account_cpu_limit + leeway e) <=? i64 (deadline_at c - start e)
                    then (i64 (i64 (start e + account_cpu_limit) + leeway e), leeway_deadline_exception)
                    else (deadline_at c, billing_timer_exception_code c) in
  let duration := i64 (d - start e) in
  let '(d, dcode) := if explicit_billed_cpu_time e || (deadline e <? d) then (deadline e, deadline_exception)
                     else (d, code) in
  (mk_net (net_limit n) due (net_limit_due_to_greylist n || greylisted_net) (eager / 8 * 8) (net_usage n),
   mk_cpu (objective_duration_limit c) (initial_objective_duration_limit c) d dcode code (pseudo_start c)
     (billed_time c) duration (cpu_limit_due_to_greylist c || greylisted_cpu) (billed_cpu_time_us c) (timer_expired c)).

Definition with_timer (b : bool) (c : cpu_state) : cpu_state :=
  mk_cpu (objective_duration_limit c) (initial_objective_duration_limit c) (deadline_at c) (deadline_exception_code c)
    (billing_timer_exception_code c) (pseudo_start c) (billed_time c) (billing_timer_duration_limit c)
    (cpu_limit_due_to_greylist c) (billed_cpu_time_us c) b.

Definition actors_of (l : list action) : gset Z := list_to_set (actor <$> (l ≫= act_authorization)).

(** [init]; the clock shows [now] at the check and [later] when the timer starts. *)
Definition init (s : timer_setup) (now later : Z) (initial_net_usage : Z) : TX () :=
  t ← get_st;
  st_assert (negb (is_initialized t)) transaction_exception ;;
  put_st (let '(n, c) := objective_limits t in set_cpu c (set_net n t)) ;;
  t ← get_st;
  (if 0 <? billed_cpu_time_us (cpu t) then lift (validate_cpu_usage_to_bill (billed_cpu_time_us (cpu t)) false t)
   else mret ()) ;;
  modify_st (fun t => set_billed (bill_to_accounts t ∪ actors_of (actions (trx e))) t) ;;
  t ← get_st;
  on_rl (ResourceLimits.update_account_usage (in_ascending (bill_to_accounts t)) slot) ;;
  p ← max_bandwidth_billed_accounts_can_pay false;
  modify_st (fun t => let '(n, c) := eager_limits p t in set_cpu c (set_net n t)) ;;
  (if 0 <? initial_net_usage then add_net_usage initial_net_usage else mret ()) ;;
  t ← get_st;
  lift (checktime now t) ;;
  modify_st (fun t => set_cpu (with_timer (if skip_trx_checks e then false
                                           else timer_start s later (deadline_at (cpu t))) (cpu t)) t) ;;
  modify_st set_initialized.

Definition init_for_implicit_trx (s : timer_setup) (now later initial_net_usage : Z) : TX () :=
  modify_st (fun t => set_published (block_time e) (is_input t) (apply_context_free t) t) ;;
  init s now later initial_net_usage.

Definition init_for_deferred_trx (s : timer_setup) (now later p : Z) : TX () :=
  modify_st (fun t => set_published p (is_input t) false t) ;;
  init s now later 0.

(** The accounts a transaction names exist, and somebody authorizes it. *)
Definition validate_context_free (d : database) (a : action) : R () :=
  eos_assert (has_account d (act_account a)) transaction_exception ;;
  eos_assert (bool_decide (act_authorization a = [])) transaction_exception.

Definition validate_actor (d : database) (l : permission_level) : R () :=
  eos_assert (has_account d (actor l)) transaction_exception ;;
  p ← find_permission (auth d) l;
  eos_assert (bool_decide (is_Some p)) transaction_exception.

Definition validate_action (d : database) (a : action) : R () :=
  eos_assert (has_account d (act_account a)) transaction_exception ;;
  fold_result (fun _ l => validate_actor d l) () (act_authorization a).

Definition validate_referenced_accounts (t : transaction) (enforce : bool) (x : context) : R () :=
  let d := db x in
  fold_result (fun _ a => validate_context_free d a) () (context_free_actions t) ;;
  fold_result (fun _ a => validate_action d a) () (actions t) ;;
  eos_assert (negb (bool_decide (actions t ≫= act_authorization = []))) tx_no_auths ;;
  if enforce then check_actor_list (nodes e) (conf x) (actors_of (actions t)) else mret ().

(** What the size of the transaction costs, the part that may be pruned at a
    discount. *)
Definition initial_usage (c : chain_config) (unprunable prunable : Z) : Z :=
  let num := context_free_discount_net_usage_num c in
  let den := context_free_discount_net_usage_den c in
  let discounted := if (0 <? den) && (num <? den) then u64 (u64 (u64 (prunable * num) + den) - 1) / den else prunable in
  let usage := u64 (u64 (base_per_transaction_net_usage c + unprunable) + discounted) in
  if 0 <? delay_sec (header (trx e))
  then u64 (usage + u64 (base_per_transaction_net_usage c + transaction_id_net_usage)) else usage.

Definition init_for_input_trx (s : timer_setup) (now later unprunable prunable : Z) (skip_recording : bool) : TX () :=
  t ← get_st;
  let usage := initial_usage (cfg t) unprunable prunable in
  put_st (set_published (block_time e) true (apply_context_free t) t) ;;
  (if skip_trx_checks e then mret ()
   else
     t ← get_st;
     lift (validate_expiration (cfg t) (block_time e) (header (trx e))) ;;
     lift (validate_tapos (tapos t) (header (trx e))) ;;
     lift (validate_referenced_accounts (trx e) (enforce_whiteblacklist e && is_producing_block e) (cx t))) ;;
  init s now later usage ;;
  if skip_recording then mret () else on_dedupe (record_transaction (trx_id e) (expiration (header (trx e)))).

(** ** Ending *)

(** [transaction_context::add_ram_usage] *)
Definition note_ram_usage (account ram_delta : Z) : TX () :=
  on_rl (ResourceLimits.add_pending_ram_usage account ram_delta) ;;
  if 0 <? ram_delta then
    modify_st (fun t => let x := cx t in
      set_cx (mk_context (db x) (conf x) (used_authorizations x) (ram_deltas x) ({[account]} ∪ validate_ram_usage x)) t)
  else mret ().

(** [db.create<generated_transaction_object>]: ids and senders' ids are unique. *)
Definition create_generated (id : digest_type) (g : generated_transaction_object) : NC () :=
  d ← get_db;
  st_assert (negb (bool_decide (is_Some (gtrxs d !! id)))
             && negb (existsb (fun h => (gt_sender h.2 =? gt_sender g) && (gt_sender_id h.2 =? gt_sender_id g))
                        (map_to_list (gtrxs d)))) std_logic_error ;;
  modify_db (fun d => set_gtrxs (<[id := g]> (gtrxs d)) d).

(** A delayed transaction is stored and retired later; [pack] serializes. *)
Definition schedule_transaction (pack : transaction → bytes) : TX () :=
  t ← get_st;
  (if delay_sec (header (trx e)) =? 0
   then add_net_usage (u64 (base_per_transaction_net_usage (cfg t) + transaction_id_net_usage)) else mret ()) ;;
  let first_auth := first_authorizor (trx e) in
  let packed := pack (trx e) in
  let delay_until := i64 (block_time e + delay t) in
  on_cx (create_generated (trx_id e)
           (mk_generated 0 (transaction_id_to_sender_id (trx_id e)) first_auth delay_until
              (i64 (delay_until + seconds (deferred_trx_expiration_window (cfg t)))) (block_time e) packed)) ;;
  note_ram_usage first_auth (i64 (billable_generated + u32 (Z.of_nat (length packed)))).

(** [finalize] up to the call that bills; the clock shows [now]. *)
Definition lower_limits (p : Z * Z * bool * bool) (t : txc) : txc :=
  let '(account_net_limit, account_cpu_limit, greylisted_net, greylisted_cpu) := p in
  let n := net t in
  let c := cpu t in
  let '(nl, due) := if u64 account_net_limit <=? net_limit n then (u64 account_net_limit, false)
                    else (net_limit n, net_limit_due_to_block n) in
  let '(odl, code) := if account_cpu_limit <=? objective_duration_limit c then (account_cpu_limit, tx_cpu_usage_exceeded)
                      else (objective_duration_limit c, billing_timer_exception_code c) in
  set_net (mk_net nl due (net_limit_due_to_greylist n || greylisted_net) nl (u64 (net_usage n + 7) / 8 * 8))
    (set_cpu (mk_cpu odl (initial_objective_duration_limit c) (deadline_at c) (deadline_exception_code c) code
                (pseudo_start c) (billed_time c) (billing_timer_duration_limit c)
                (cpu_limit_due_to_greylist c || greylisted_cpu) (billed_cpu_time_us c) (timer_expired c)) t).

Definition note_permission (l : permission_level) : NC () :=
  d ← get_db;
  p ← lift (get_permission (auth d) l);
  on_auth (update_permission_usage (block_time e) p).

Definition check_contract_limits (t : txc) : R () :=
  let b := by_contract t in
  if use_limit_by_contract b then
    eos_assert (u64 (billed_cpu_time_us (cpu t)) <=? cpu_limit_by_contract b) tx_cpu_usage_exceeded ;;
    eos_assert (net_usage (net t) <=? net_limit_by_contract b) tx_net_usage_exceeded
  else mret ().

Definition finalize_checks (now : Z) : TX () :=
  t ← get_st;
  st_assert (is_initialized t) transaction_exception ;;
  (if is_input t then on_cx (for_each note_permission (actions (trx e) ≫= act_authorization)) else mret ()) ;;
  t ← get_st;
  on_rl (for_each (ResourceLimits.verify_account_ram_usage (view e)) (in_ascending (validate_ram_usage (cx t)))) ;;
  p ← max_bandwidth_billed_accounts_can_pay false;
  modify_st (lower_limits p) ;;
  t ← get_st;
  lift (check_net_usage (net t)) ;;
  update_billed_cpu_time now ;;
  t ← get_st;
  lift (validate_cpu_usage_to_bill (billed_cpu_time_us (cpu t)) true t) ;;
  lift (check_contract_limits t).

(** The call that should never fail. *)
Definition bill : TX () :=
  t ← get_st;
  on_rl (ResourceLimits.add_transaction_usage (view e) (in_ascending (bill_to_accounts t))
           (u64 (billed_cpu_time_us (cpu t))) (net_usage (net t)) slot).

Definition finalize (now : Z) : TX () := finalize_checks now ;; bill.
End Context.

(** ** Billing never fails *)

Import ResourceLimits (usages, rl_state, rl_config, gmr, limits_in_force, integer_divide_ceil, Precision, value_ex,
  last_ordinal, consumed, used_in_window, max_user_use, set_usages, mk_usage, mk_account_usage, cpu_us, net_byte,
  account_cpu_usage_average_window, account_net_usage_average_window, virtual_cpu_limit, virtual_net_limit,
  total_cpu_weight, total_net_weight, cpu_weight, net_weight, cpu_limit_parameters, net_limit_parameters,
  pending_cpu_usage, pending_net_usage).

(** Windows, weights and limits for which no intermediate result overflows. *)
Record share_ok (window virtual limit total : Z) : Prop := mk_share_ok
  { sh_window : 0 < window ≤ Precision;
    sh_limit : 0 ≤ limit ≤ virtual;
    sh_total : 0 ≤ total;
    sh_fits : virtual * window * i64_max + u64_max < 2 ^ 128;
    sh_block : limit * Precision ≤ u64_max / 2 }.

Record bandwidth_ok (s : RLdb) : Prop := mk_bandwidth_ok
  { bw_cpu : share_ok (account_cpu_usage_average_window (rl_config s)) (virtual_cpu_limit (rl_state s))
               (ResourceLimits.max (cpu_limit_parameters (rl_config s))) (total_cpu_weight (rl_state s));
    bw_net : share_ok (account_net_usage_average_window (rl_config s)) (virtual_net_limit (rl_state s))
               (ResourceLimits.max (net_limit_parameters (rl_config s))) (total_net_weight (rl_state s));
    bw_gmr : 0 ≤ net_byte (gmr s) ≤ cpu_us (gmr s) ∧ cpu_us (gmr s) ≤ u64_max;
    bw_weights : ∀ a l, limits_in_force s a = Some l → cpu_weight l ≤ i64_max ∧ net_weight l ≤ i64_max }.

(** An accumulator brought to the present period, with room for more. *)
Definition ready (slot : Z) (u : ResourceLimits.usage_accumulator) : Prop :=
  last_ordinal u = slot ∧ 0 ≤ value_ex u ≤ u64_max / 2 ∧ 0 ≤ consumed u ≤ u64_max / 2.

Definition account_ready (slot : Z) (s : RLdb) (a : Z) : Prop :=
  is_Some (limits_in_force s a) ∧
  ∃ u, usages s !! a = Some u ∧ ready slot (ResourceLimits.net_usage u) ∧ ready slot (ResourceLimits.cpu_usage u).

(** Rounding up the contribution never costs more than a unit of the window. *)
Lemma window_step v u w : 0 < w ≤ Precision → 0 ≤ v → 0 ≤ u →
  (v + integer_divide_ceil (u * Precision) w) * w / Precision ≤ integer_divide_ceil (v * w) Precision + u.
Proof.
  intros Hw Hv Hu. pose proof (ResourceLimits.ceil_bounds (u * Precision) w ltac:(lia)) as H1.
  pose proof (ResourceLimits.ceil_bounds (v * w) Precision ltac:(done)) as H2.
  apply Z.lt_succ_r, Z.div_lt_upper_bound; [done|]. nia.
Qed.

(** The share of an account grows with the capacity and with what is guaranteed. *)
Lemma share_mono w virtual limit total capacity weight extra extra' :
  share_ok w virtual limit total → 0 ≤ capacity ≤ virtual → 0 ≤ weight ≤ i64_max → 0 < total →
  0 ≤ extra ≤ extra' → extra' ≤ u64_max →
  max_user_use capacity w weight total extra ≤ max_user_use virtual w weight total extra'.
Proof.
  intros [Hw Hl Ht Hf Hb] Hc Hwt Htot He He'. unfold max_user_use.
  assert (0 ≤ capacity * w ≤ virtual * w) as H1 by nia.
  assert (0 ≤ capacity * w * weight ≤ virtual * w * weight) as H2 by nia.
  assert (virtual * w * weight ≤ virtual * w * i64_max) as H3 by nia.
  assert (virtual * w ≤ virtual * w * i64_max) as H4 by (unfold i64_max; nia).
  unfold u64_max in *. rewrite (u128_small weight) by (unfold i64_max in *; lia).
  rewrite !(u128_small (_ * w)) by lia. rewrite !(u128_small (_ * weight)) by lia.
  assert (capacity * w * weight / total ≤ virtual * w * weight / total) as H5 by (apply Z.div_le_mono; lia).
  assert (0 ≤ capacity * w * weight / total) as H6 by (apply Z.div_pos; lia).
  assert (virtual * w * weight / total ≤ virtual * w * weight) as H7.
  { apply Z.div_le_upper_bound; nia. }
  rewrite !u128_small by lia. lia.
Qed.

Lemma limit_of_available max_use used l : ResourceLimits.limit_of max_use used = Ok l →
  ResourceLimits.available l = if max_use <=? used then 0 else max_use - used.
Proof.
  unfold ResourceLimits.limit_of, ResourceLimits.downgrade_cast. intros H. simpl_ok. cbn.
  destruct (max_use <=? used); by simpl_ok.
Qed.

Lemma available_nonneg max_use used l : ResourceLimits.limit_of max_use used = Ok l → 0 ≤ ResourceLimits.available l.
Proof. intros ->%limit_of_available. destruct (Z.leb_spec max_use used); lia. Qed.

(** The contribution of [units] in the present period. *)
Definition contribution (units w : Z) : Z := integer_divide_ceil (units * Precision) w.

Lemma contribution_bounds units w : 0 < w → 0 ≤ units → 0 ≤ contribution units w ≤ units * Precision.
Proof.
  intros Hw Hu. unfold contribution. split; [apply ResourceLimits.ceil_nonneg; [lia|]|].
  - assert (0 < Precision) by done. nia.
  - pose proof (ResourceLimits.ceil_bounds (units * Precision) w Hw). assert (0 < Precision) by done. nia.
Qed.

Lemma u64_half : u64_max / 2 = 9223372036854775807.
Proof. reflexivity. Qed.

Lemma add_ready slot u units w : ready slot u → 0 < w → 0 ≤ units → units * Precision ≤ u64_max / 2 →
  ResourceLimits.add u units slot w = Ok (mk_usage slot (value_ex u + contribution units w) (consumed u + units)).
Proof.
  intros (Hl & Hv & Hc) Hw Hu Hf. rewrite u64_half in *. pose proof (contribution_bounds units w Hw Hu) as Hcb.
  unfold contribution in *. assert (units ≤ units * Precision) as Hup by (change Precision with 1000000; lia).
  unfold ResourceLimits.add, ResourceLimits.downgrade_cast, ResourceLimits.max_raw_value, eos_assert.
  rewrite u128_small by (unfold u64_max in *; lia). set (c := integer_divide_ceil _ _) in *.
  assert (units ≤ u64_max / Precision) as H1.
  { apply Z.div_le_lower_bound; [done|]. unfold u64_max in *. lia. }
  rewrite (proj2 (Z.leb_le _ _) H1), (proj2 (Z.leb_le units _)) by (unfold u64_max in *; lia). cbn.
  rewrite (proj2 (Z.leb_le 0 c)), (proj2 (Z.leb_le c u64_max)) by (unfold u64_max in *; lia). cbn.
  rewrite (proj2 (Z.leb_le c _)) by (unfold u64_max in *; lia). cbn.
  rewrite Hl, Z.eqb_refl. cbn. by rewrite !u64_small, Hl by (unfold u64_max in *; lia).
Qed.

(** Units that an account can still pay keep it within its share. *)
Lemma share_kept w virtual limit total capacity weight extra extra' v units l :
  share_ok w virtual limit total → 0 ≤ capacity ≤ virtual → 0 ≤ weight ≤ i64_max → 0 < total →
  0 ≤ extra ≤ extra' → extra' ≤ u64_max → 0 ≤ v ≤ u64_max / 2 → 0 < units → units * Precision ≤ u64_max / 2 →
  ResourceLimits.limit_of (max_user_use capacity w weight total extra) (integer_divide_ceil (u128 (v * w)) Precision) = Ok l →
  units ≤ ResourceLimits.available l →
  used_in_window (v + contribution units w) w ≤ max_user_use virtual w weight total extra'.
Proof.
  intros Hs Hc Hwt Ht He He' Hv Hu Hf Hl%limit_of_available Hle. rewrite u64_half in *.
  pose proof (sh_window _ _ _ _ Hs) as Hw. change Precision with 1000000 in Hw.
  rewrite u128_small in Hl by (unfold u64_max in *; nia).
  pose proof (contribution_bounds units w ltac:(lia) ltac:(lia)) as Hcb.
  unfold used_in_window. rewrite u128_small by (unfold u64_max in *; nia).
  etransitivity; [apply window_step; [by apply (sh_window _ _ _ _ Hs)|lia|lia]|].
  etransitivity; [|by apply (share_mono w virtual limit total capacity weight extra extra')].
  rewrite Hl in Hle. destruct (Z.leb_spec (max_user_use capacity w weight total extra) (integer_divide_ceil (v * w) Precision)); lia.
Qed.

(** What asking for a limit tells. *)
Lemma net_limit_inv v a el s n s' : ResourceLimits.get_account_net_limit v a el s = (Ok n, s') →
  s' = s ∧ ∃ u l, usages s !! a = Some u ∧ limits_in_force s a = Some l ∧
  (0 ≤ net_weight l → 0 < total_net_weight (rl_state s) →
   ∃ r, n = ResourceLimits.available r ∧
   ResourceLimits.limit_of
     (max_user_use (if el then virtual_net_limit (rl_state s) else ResourceLimits.max (net_limit_parameters (rl_config s)))
        (account_net_usage_average_window (rl_config s)) (net_weight l) (total_net_weight (rl_state s)) (net_byte (gmr s)))
     (integer_divide_ceil (u128 (value_ex (ResourceLimits.net_usage u) * account_net_usage_average_window (rl_config s))) Precision) = Ok r).
Proof.
  intros H. unfold ResourceLimits.get_account_net_limit in H. apply st_bind_ok in H as (r & s1 & H & Hr). simpl_ok.
  unfold ResourceLimits.get_account_net_limit_ex in H. apply st_bind_ok in H as (s0 & s2 & [= <- <-] & H).
  apply st_bind_ok in H as (u & s2 & Hu & H). apply lift_ok in Hu as [Hu%of_option_ok <-].
  apply st_bind_ok in H as (r0 & s2 & Hlim & H). apply ResourceLimits.get_account_limits_spec in Hlim as (-> & l & Hl & Hn & _).
  destruct r0 as [[ram nw] cw]. cbn in Hn. subst nw.
  destruct (Z.ltb_spec (net_weight l) 0) as [Hneg|Hpos]; cbn [orb] in H.
  { simpl_ok. split; [done|]. exists u, l. split_and!; [done..|]. lia. }
  destruct (Z.eqb_spec (total_net_weight (rl_state s)) 0) as [Hz|Hz].
  { simpl_ok. split; [done|]. exists u, l. split_and!; [done..|]. lia. }
  simpl_ok. split; [done|]. exists u, l. split_and!; [done..|]. intros _ _. by exists r.
Qed.

Lemma cpu_limit_inv v a el s n s' : ResourceLimits.get_account_cpu_limit v a el s = (Ok n, s') →
  s' = s ∧ ∃ u l, usages s !! a = Some u ∧ limits_in_force s a = Some l ∧
  (0 ≤ cpu_weight l → 0 < total_cpu_weight (rl_state s) →
   ∃ r, n = ResourceLimits.available r ∧
   ResourceLimits.limit_of
     (max_user_use (if el then virtual_cpu_limit (rl_state s) else ResourceLimits.max (cpu_limit_parameters (rl_config s)))
        (account_cpu_usage_average_window (rl_config s)) (cpu_weight l) (total_cpu_weight (rl_state s)) (cpu_us (gmr s)))
     (integer_divide_ceil (u128 (value_ex (ResourceLimits.cpu_usage u) * account_cpu_usage_average_window (rl_config s))) Precision) = Ok r).
Proof.
  intros H. unfold ResourceLimits.get_account_cpu_limit in H. apply st_bind_ok in H as (r & s1 & H & Hr). simpl_ok.
  unfold ResourceLimits.get_account_cpu_limit_ex in H. apply st_bind_ok in H as (s0 & s2 & [= <- <-] & H).
  apply st_bind_ok in H as (u & s2 & Hu & H). apply lift_ok in Hu as [Hu%of_option_ok <-].
  apply st_bind_ok in H as (r0 & s2 & Hlim & H). apply ResourceLimits.get_account_limits_spec in Hlim as (-> & l & Hl & _ & Hn).
  destruct r0 as [[ram nw] cw]. cbn in Hn. subst cw.
  destruct (Z.ltb_spec (cpu_weight l) 0) as [Hneg|Hpos]; cbn [orb] in H.
  { simpl_ok. split; [done|]. exists u, l. split_and!; [done..|]. lia. }
  destruct (Z.eqb_spec (total_cpu_weight (rl_state s)) 0) as [Hz|Hz].
  { simpl_ok. split; [done|]. exists u, l. split_and!; [done..|]. lia. }
  simpl_ok. split; [done|]. exists u, l. split_and!; [done..|]. intros _ _. by exists r.
Qed.

(** The account can pay so much: it was asked for its limits, elastic or not. *)
Definition pays (v : ResourceLimits.ram_view) (s : RLdb) (units_net units_cpu a : Z) : Prop :=
  ∃ el n c, ResourceLimits.get_account_net_limit v a el s = (Ok n, s) ∧ (0 ≤ n → units_net ≤ n) ∧
            ResourceLimits.get_account_cpu_limit v a el s = (Ok c, s) ∧ (0 ≤ c → units_cpu ≤ c).

Lemma get_account_limits_eq v a s l : limits_in_force s a = Some l →
  ResourceLimits.get_account_limits v a s
  = (Ok (ResourceLimits.get_account_ram_limit v (gmr s) a, net_weight l, cpu_weight l), s).
Proof.
  unfold limits_in_force, ResourceLimits.get_account_limits, mbind, st_bind, get_st, ResourceLimits.get_row, lift, of_option, mret, st_ret.
  destruct (ResourceLimits.pending_limits s !! a); [by intros [= ->]|]. by intros ->.
Qed.

Definition used_more (slot : Z) (s : RLdb) (units_net units_cpu : Z) (u : ResourceLimits.resource_usage_object) :
    ResourceLimits.resource_usage_object :=
  let n := ResourceLimits.net_usage u in let c := ResourceLimits.cpu_usage u in
  mk_account_usage
    (mk_usage slot (value_ex n + contribution units_net (account_net_usage_average_window (rl_config s))) (consumed n + units_net))
    (mk_usage slot (value_ex c + contribution units_cpu (account_cpu_usage_average_window (rl_config s))) (consumed c + units_cpu))
    (ResourceLimits.ram_usage u).

Lemma use_ready slot s a u units_net units_cpu :
  bandwidth_ok s → usages s !! a = Some u → ready slot (ResourceLimits.net_usage u) → ready slot (ResourceLimits.cpu_usage u) →
  0 ≤ units_net → units_net * Precision ≤ u64_max / 2 → 0 ≤ units_cpu → units_cpu * Precision ≤ u64_max / 2 →
  ResourceLimits.use units_cpu units_net slot a s
  = (Ok (), set_usages (<[a := used_more slot s units_net units_cpu u]> (usages s)) s).
Proof.
  intros Hb Hu Hn Hc N1 N2 C1 C2.
  unfold ResourceLimits.use, mbind, st_bind, get_st, ResourceLimits.get_row, lift, of_option. rewrite Hu.
  rewrite (add_ready slot _ units_net) by (done || apply (sh_window _ _ _ _ (bw_net _ Hb))).
  rewrite (add_ready slot _ units_cpu) by (done || apply (sh_window _ _ _ _ (bw_cpu _ Hb))). done.
Qed.

Lemma check_passes (b c : bool) (x : exn) (s : RLdb) : (b = true → c = true) →
  (if b then st_assert c x else mret ()) s = (Ok (), s).
Proof. destruct b; [|done]. intros ->; done. Qed.

(** Charging an account that can pay succeeds. *)
Lemma charge_pays v slot a s units_net units_cpu :
  bandwidth_ok s → account_ready slot s a → pays v s units_net units_cpu a →
  0 < units_net → units_net * Precision ≤ u64_max / 2 → 0 < units_cpu → units_cpu * Precision ≤ u64_max / 2 →
  ∃ u, usages s !! a = Some u ∧
  ResourceLimits.charge v units_cpu units_net slot a s
  = (Ok (), set_usages (<[a := used_more slot s units_net units_cpu u]> (usages s)) s).
Proof.
  intros Hb ([l Hl] & u & Hu & Rn & Rc) (el & n & c & Hn & Hnle & Hc & Hcle) N1 N2 C1 C2. exists u. split; [done|].
  apply net_limit_inv in Hn as (_ & u1 & l1 & Hu1 & Hl1 & Hn). apply cpu_limit_inv in Hc as (_ & u2 & l2 & Hu2 & Hl2 & Hc).
  rewrite Hu in Hu1, Hu2. injection Hu1 as <-. injection Hu2 as <-. rewrite Hl in Hl1, Hl2. injection Hl1 as <-. injection Hl2 as <-.
  pose proof (bw_weights s Hb a l Hl) as [Wc Wn]. pose proof (bw_gmr s Hb) as [G1 G2].
  unfold ResourceLimits.charge, mbind, st_bind, get_st at 1, ResourceLimits.get_row, lift, of_option. rewrite Hu.
  rewrite (get_account_limits_eq v a s l Hl). rewrite (use_ready slot s a u) by (done || lia).
  cbn [get_st usages set_usages rl_state rl_config gmr]. rewrite lookup_insert_eq.
  unfold mbind, st_bind, lift, of_option.
  rewrite check_passes.
  - apply check_passes. intros [W1%Z.leb_le W2%Z.ltb_lt]%andb_prop. destruct (Hn W1 W2) as (r & -> & Hr). apply Z.leb_le.
    refine (share_kept _ _ _ _ _ _ _ _ _ _ r (bw_net s Hb) _ (conj W1 Wn) W2 G1 G2 (proj1 (proj2 Rn)) N1 N2 Hr _).
    + pose proof (sh_limit _ _ _ _ (bw_net s Hb)). destruct el; lia.
    + apply Hnle. by eapply available_nonneg.
  - intros [W1%Z.leb_le W2%Z.ltb_lt]%andb_prop. destruct (Hc W1 W2) as (r & -> & Hr). apply Z.leb_le.
    refine (share_kept _ _ _ _ _ _ _ _ _ _ r (bw_cpu s Hb) _ (conj W1 Wc) W2 _ G2 (proj1 (proj2 Rc)) C1 C2 Hr _).
    + pose proof (sh_limit _ _ _ _ (bw_cpu s Hb)). destruct el; lia.
    + lia.
    + apply Hcle. by eapply available_nonneg.
Qed.

Lemma bandwidth_usages m s : bandwidth_ok s → bandwidth_ok (set_usages m s).
Proof. intros [H1 H2 H3 H4]. by constructor. Qed.

(** Limits depend on the account's own usage only. *)
Lemma net_limit_frame v a el m s : m !! a = usages s !! a →
  ResourceLimits.get_account_net_limit v a el (set_usages m s) = ((ResourceLimits.get_account_net_limit v a el s).1, set_usages m s).
Proof.
  intros Hm. unfold ResourceLimits.get_account_net_limit, ResourceLimits.get_account_net_limit_ex,
    ResourceLimits.get_account_limits, mbind, st_bind, get_st, ResourceLimits.get_row, lift, of_option, mret, st_ret.
  cbn [usages set_usages ResourceLimits.pending_limits ResourceLimits.actual_limits rl_state rl_config gmr]. rewrite Hm.
  destruct (usages s !! a); [|done]. destruct (ResourceLimits.pending_limits s !! a);
    [|destruct (ResourceLimits.actual_limits s !! a); [|done]].
  all: destruct (_ || _); [done|]; by destruct (ResourceLimits.limit_of _ _).
Qed.
Lemma cpu_limit_frame v a el m s : m !! a = usages s !! a →
  ResourceLimits.get_account_cpu_limit v a el (set_usages m s) = ((ResourceLimits.get_account_cpu_limit v a el s).1, set_usages m s).
Proof.
  intros Hm. unfold ResourceLimits.get_account_cpu_limit, ResourceLimits.get_account_cpu_limit_ex,
    ResourceLimits.get_account_limits, mbind, st_bind, get_st, ResourceLimits.get_row, lift, of_option, mret, st_ret.
  cbn [usages set_usages ResourceLimits.pending_limits ResourceLimits.actual_limits rl_state rl_config gmr]. rewrite Hm.
  destruct (usages s !! a); [|done]. destruct (ResourceLimits.pending_limits s !! a);
    [|destruct (ResourceLimits.actual_limits s !! a); [|done]].
  all: destruct (_ || _); [done|]; by destruct (ResourceLimits.limit_of _ _).
Qed.

Lemma pays_frame v s n c a m : m !! a = usages s !! a → pays v s n c a → pays v (set_usages m s) n c a.
Proof.
  intros Hm (el & nl & cl & Hn & Hnle & Hc & Hcle). exists el, nl, cl.
  rewrite net_limit_frame, cpu_limit_frame, Hn, Hc by done. done.
Qed.

Lemma charge_all_pays v slot n c accounts : NoDup accounts → ∀ s, bandwidth_ok s →
  (∀ a, a ∈ accounts → account_ready slot s a ∧ pays v s n c a) →
  0 < n → n * Precision ≤ u64_max / 2 → 0 < c → c * Precision ≤ u64_max / 2 →
  ∃ m, for_each (ResourceLimits.charge v c n slot) accounts s = (Ok (), set_usages m s) ∧
    (∀ a, a ∈ accounts → ∃ u, usages s !! a = Some u ∧ m !! a = Some (used_more slot s n c u)) ∧
    (∀ a, a ∉ accounts → m !! a = usages s !! a).
Proof.
  induction 1 as [|a accounts Ha Hnd IH]; intros s Hb Hall N1 N2 C1 C2.
  - exists (usages s). split; [by destruct s|]. split; [|done]. intros a Hin. by apply not_elem_of_nil in Hin.
  - destruct (Hall a ltac:(left)) as [Hr Hp].
    destruct (charge_pays v slot a s n c Hb Hr Hp N1 N2 C1 C2) as (u & Hu & Hcharge).
    set (m1 := <[a := used_more slot s n c u]> (usages s)) in *.
    destruct (IH (set_usages m1 s)) as (m & Hm & Hin & Hout); [by apply bandwidth_usages| |done..|].
    { intros b Hbin. destruct (Hall b ltac:(by right)) as [(Hl & w & Hw & Hrw) Hpb].
      assert (m1 !! b = usages s !! b) as Hmb by (apply lookup_insert_ne; intros ->; done).
      split; [|by apply pays_frame]. split; [done|]. exists w. split; [|done]. cbn. by rewrite Hmb. }
    exists m. split; [|split].
    + cbn [for_each]. unfold mbind, st_bind. by rewrite Hcharge.
    + intros b [->|Hbin]%elem_of_cons.
      * exists u. split; [done|]. rewrite Hout by done. apply lookup_insert_eq.
      * destruct (Hin b Hbin) as (w & Hw & Hmw). exists w. split; [|done]. change (m1 !! b = Some w) in Hw.
        unfold m1 in Hw. rewrite lookup_insert_ne in Hw; [done|]. intros ->; done.
    + intros b [Hba Hbn]%not_elem_of_cons. rewrite Hout by done. by apply lookup_insert_ne.
Qed.

(** ** What the checks establish *)

Lemma set_limits_same (x : context) : set_db (set_rl (limits (db x)) (db x)) x = x.
Proof. by destruct x as [[]]. Qed.

Lemma on_limits_read {A} (m : ST RLdb exn A) x a x' :
  (∀ s r s', m s = (Ok r, s') → s' = s) → on_limits m x = (Ok a, x') →
  x' = x ∧ m (limits (db x)) = (Ok a, limits (db x)).
Proof.
  intros Hr. unfold on_limits. destruct (m (limits (db x))) as [r l] eqn:E. intros [= -> <-].
  apply Hr in E as Hl. subst l. by rewrite set_limits_same.
Qed.

Lemma can_pay_one_spec e force acc a x r x' : can_pay_one e force acc a x = (Ok r, x') →
  x' = x ∧ ∃ el n c,
    ResourceLimits.get_account_net_limit (view e) a el (limits (db x)) = (Ok n, limits (db x)) ∧
    ResourceLimits.get_account_cpu_limit (view e) a el (limits (db x)) = (Ok c, limits (db x)) ∧
    r.1.1.1 = (if 0 <=? n then Z.min acc.1.1.1 n else acc.1.1.1) ∧
    r.1.1.2 = (if 0 <=? c then Z.min acc.1.1.2 c else acc.1.1.2).
Proof.
  destruct acc as [[[nl cl] gn] gc]. intros H. unfold can_pay_one in H.
  apply st_bind_ok in H as (x0 & x1 & [= <- <-] & H).
  apply st_bind_ok in H as (n & x1 & Hn & H). apply st_bind_ok in H as (c & x2 & Hc & H).
  apply on_limits_read in Hn as [-> Hn]; [|intros; by eapply net_limit_inv].
  apply on_limits_read in Hc as [-> Hc]; [|intros; by eapply cpu_limit_inv].
  injection H as <- <-. split; [done|]. eexists _, n, c. split_and!; [exact Hn|exact Hc|done|done].
Qed.

Lemma can_pay_loop_spec e force l : ∀ acc x r x', can_pay_loop e force l acc x = (Ok r, x') →
  0 ≤ acc.1.1.1 → 0 ≤ acc.1.1.2 →
  x' = x ∧ 0 ≤ r.1.1.1 ≤ acc.1.1.1 ∧ 0 ≤ r.1.1.2 ≤ acc.1.1.2 ∧
  ∀ a, a ∈ l → pays (view e) (limits (db x)) r.1.1.1 r.1.1.2 a.
Proof.
  induction l as [|a l IH]; intros acc x r x' H Hn Hc; cbn [can_pay_loop] in H.
  - injection H as <- <-. split_and!; try done. intros a Ha. by apply not_elem_of_nil in Ha.
  - apply st_bind_ok in H as (acc' & x1 & H1 & H). apply can_pay_one_spec in H1 as (-> & el & n & c & En & Ec & E1 & E2).
    apply IH in H as (-> & R1 & R2 & Hall); [|rewrite ?E1, ?E2; destruct (Z.leb_spec 0 n), (Z.leb_spec 0 c); lia..].
    rewrite E1 in R1. rewrite E2 in R2. split_and!; try done; try (destruct (Z.leb_spec 0 n), (Z.leb_spec 0 c); lia).
    intros b [->|Hb]%elem_of_cons; [|by apply Hall]. exists el, n, c. split_and!; [done| |done|].
    + intros H0. rewrite (proj2 (Z.leb_le _ _) H0) in R1. lia.
    + intros H0. rewrite (proj2 (Z.leb_le _ _) H0) in R2. lia.
Qed.

Lemma pays_less v s n c n' c' a : n' ≤ n → c' ≤ c → pays v s n c a → pays v s n' c' a.
Proof. intros H1 H2 (el & nl & cl & Hn & Hnle & Hc & Hcle). exists el, nl, cl. split_and!; [done|lia|done|lia]. Qed.

Lemma verify_reads v a s u s' : ResourceLimits.verify_account_ram_usage v a s = (Ok u, s') → s' = s.
Proof.
  intros H. unfold ResourceLimits.verify_account_ram_usage in H. apply st_bind_ok in H as (r & s1 & Hl & H).
  apply ResourceLimits.get_account_limits_spec in Hl as (-> & _). destruct r as [[ram nw] cw].
  unfold ResourceLimits.get_row in H. simpl_ok. destruct (0 <=? ram); by simpl_ok.
Qed.

Lemma for_each_reads {S A} (f : A → ST S exn ()) l : (∀ a s u s', f a s = (Ok u, s') → s' = s) →
  ∀ s u s', for_each f l s = (Ok u, s') → s' = s.
Proof.
  intros Hf. induction l as [|a l IH]; intros s u s' H; cbn [for_each] in H; [by injection H as <- <-|].
  apply st_bind_ok in H as (u1 & s1 & H1 & H). apply Hf in H1 as ->. by apply IH in H.
Qed.

Lemma note_permissions_limits e l : ∀ x u x', for_each (note_permission e) l x = (Ok u, x') →
  limits (db x') = limits (db x) ∧ validate_ram_usage x' = validate_ram_usage x ∧ conf x' = conf x.
Proof.
  induction l as [|p l IH]; intros x u x' H; cbn [for_each] in H; [by injection H as <- <-|].
  apply st_bind_ok in H as (u1 & x1 & H1 & H). apply IH in H as (-> & -> & ->).
  unfold note_permission, get_db in H1. apply st_bind_ok in H1 as (d & x2 & [= <- <-] & H1).
  apply st_bind_ok in H1 as (q & x2 & [_ <-]%lift_ok & H1). unfold on_auth in H1.
  destruct (update_permission_usage _ _ _) as [r a]. by injection H1 as _ <-.
Qed.

Lemma on_cx_ok {A} (m : NC A) t a t' : on_cx m t = (Ok a, t') → ∃ x, m (cx t) = (Ok a, x) ∧ t' = set_cx x t.
Proof. unfold on_cx. destruct (m (cx t)) as [r x]. intros [= -> <-]. by exists x. Qed.

Lemma on_rl_read {A} (m : ST RLdb exn A) t a t' :
  (∀ s r s', m s = (Ok r, s') → s' = s) → on_rl m t = (Ok a, t') → t' = t ∧ m (limits (db (cx t))) = (Ok a, limits (db (cx t))).
Proof.
  intros Hr H. unfold on_rl in H. apply on_cx_ok in H as (x & H & ->). apply on_limits_read in H as [-> H]; [|done].
  split; [by destruct t|done].
Qed.

Lemma max_bandwidth_spec e force t r t' : max_bandwidth_billed_accounts_can_pay e force t = (Ok r, t') →
  t' = t ∧ 0 ≤ r.1.1.1 ≤ large_number_no_overflow ∧ 0 ≤ r.1.1.2 ≤ large_number_no_overflow ∧
  ∀ a, a ∈ bill_to_accounts t → pays (view e) (limits (db (cx t))) r.1.1.1 r.1.1.2 a.
Proof.
  intros H. unfold max_bandwidth_billed_accounts_can_pay in H. apply st_bind_ok in H as (t0 & t1 & [= <- <-] & H).
  apply on_cx_ok in H as (x & H & ->). apply can_pay_loop_spec in H as (-> & H1 & H2 & Hp); [|done..].
  split; [by destruct t|]. split; [exact H1|]. split; [exact H2|]. intros a Ha. apply Hp. by apply in_ascending_elem.
Qed.

(** What [finalize] knows when it bills. *)
Record checked (e : trx_env) (t t' : txc) : Prop := mk_checked
  { ck_limits : limits (db (cx t')) = limits (db (cx t));
    ck_billed : bill_to_accounts t' = bill_to_accounts t;
    ck_pays : ∀ a, a ∈ bill_to_accounts t →
      pays (view e) (limits (db (cx t))) (net_limit (net t')) (objective_duration_limit (cpu t')) a;
    ck_net_limit : net_limit (net t') ≤ net_limit (net t);
    ck_cpu_limit : objective_duration_limit (cpu t') ≤ objective_duration_limit (cpu t);
    ck_rounded : net_usage (net t') = u64 (net_usage (net t) + 7) / 8 * 8;
    ck_within : skip_trx_checks e = false →
      net_usage (net t') ≤ net_limit (net t') ∧
      min_transaction_cpu_usage (cfg t') ≤ billed_cpu_time_us (cpu t') ≤ objective_duration_limit (cpu t') }.

Lemma lower_limits_spec p t : 0 ≤ p.1.1.1 ≤ large_number_no_overflow →
  net_limit (net (lower_limits p t)) ≤ net_limit (net t) ∧ net_limit (net (lower_limits p t)) ≤ p.1.1.1 ∧
  eager_net_limit (net (lower_limits p t)) = net_limit (net (lower_limits p t)) ∧
  objective_duration_limit (cpu (lower_limits p t)) ≤ objective_duration_limit (cpu t) ∧
  objective_duration_limit (cpu (lower_limits p t)) ≤ p.1.1.2.
Proof.
  destruct p as [[[nl cl] gn] gc]. cbn [fst snd]. intros Hn. unfold lower_limits.
  assert (u64 nl = nl) as -> by (apply u64_small; change large_number_no_overflow with 4611686018427387903 in Hn; unfold u64_max; lia).
  destruct (Z.leb_spec nl (net_limit (net t))), (Z.leb_spec cl (objective_duration_limit (cpu t))); cbn; lia.
Qed.

Lemma finalize_checks_spec e now t t' : finalize_checks e now t = (Ok (), t') → checked e t t'.
Proof.
  intros H. unfold finalize_checks in H. apply st_bind_ok in H as (t0 & t1 & [= <- <-] & H).
  apply st_bind_ok in H as ([] & t1 & [Hi <-]%st_assert_ok & H).
  apply st_bind_ok in H as ([] & t1 & Hperm & H).
  assert (∃ x, t1 = set_cx x t ∧ limits (db x) = limits (db (cx t))) as (x & -> & Hx).
  { destruct (is_input t); [|injection Hperm as <-; exists (cx t); by destruct t].
    apply on_cx_ok in Hperm as (x & Hperm & ->). exists x. by apply note_permissions_limits in Hperm as (-> & _). }
  clear Hperm. apply st_bind_ok in H as (t0 & t1 & [= <- <-] & H). apply st_bind_ok in H as ([] & t1 & Hram & H).
  apply on_rl_read in Hram as [-> _]; [|intros s []; apply for_each_reads; apply verify_reads].
  apply st_bind_ok in H as (p & t1 & Hp & H). apply max_bandwidth_spec in Hp as (-> & Hn & Hc & Hpay).
  apply st_bind_ok in H as ([] & t1 & [= <-] & H). apply st_bind_ok in H as (t0 & t1 & [= <- <-] & H).
  apply st_bind_ok in H as ([] & t1 & [Hnet <-]%lift_ok & H).
  apply st_bind_ok in H as (b & t2 & Hb & H).
  apply st_bind_ok in H as (t0 & t3 & [= <- <-] & H). apply st_bind_ok in H as ([] & t3 & [Hcpu <-]%lift_ok & [_ <-]%lift_ok).
  destruct (lower_limits_spec p (set_cx x t) Hn) as (L1 & L2 & L3 & L4 & L5). set (t1 := lower_limits p (set_cx x t)) in *.
  assert (∃ z, t2 = set_cpu (with_billed z (cpu t1)) t1) as [z ->].
  { unfold update_billed_cpu_time in Hb. apply st_bind_ok in Hb as ([] & t3 & Hb & Hb').
    destruct (explicit_billed_cpu_time e); simpl_ok; [|by eexists].
    exists (billed_cpu_time_us (cpu t1)). by destruct t1 as [? ? ? ? ? [] ? ? ? ? ? ? ?]. }
  assert (cx t1 = x ∧ bill_to_accounts t1 = bill_to_accounts t ∧ net_usage (net t1) = u64 (net_usage (net t) + 7) / 8 * 8) as (E1 & E2 & E3).
  { unfold t1, lower_limits. destruct p as [[[? ?] ?] ?]. by destruct (_ <=? _), (_ <=? _). }
  cbn in Hpay. rewrite Hx in Hpay.
  constructor; cbn; [by rewrite E1|done| |done|done|done|].
  - intros a Ha. eapply pays_less; [exact L2|exact L5|by apply Hpay].
  - intros Hs. unfold check_net_usage in Hnet. rewrite Hs, L3 in Hnet.
    destruct (Z.ltb_spec (net_limit (net t1)) (net_usage (net t1))); [done|]. split; [done|].
    unfold validate_cpu_usage_to_bill in Hcpu. rewrite Hs in Hcpu. cbn in Hcpu. simpl_ok. to_prop. cbn in *. lia.
Qed.

(** The limits of the transaction are within what is left of the block. *)
Definition block_room (t : txc) : Prop :=
  let l := limits (db (cx t)) in
  0 ≤ pending_net_usage (rl_state l) ∧ 0 ≤ pending_cpu_usage (rl_state l) ∧
  net_limit (net t) + pending_net_usage (rl_state l) ≤ ResourceLimits.max (net_limit_parameters (rl_config l)) ∧
  objective_duration_limit (cpu t) + pending_cpu_usage (rl_state l) ≤ ResourceLimits.max (cpu_limit_parameters (rl_config l)).

Lemma add_usage_pays v slot n c accounts s : NoDup accounts → bandwidth_ok s →
  (∀ a, a ∈ accounts → account_ready slot s a ∧ pays v s n c a) → 0 < n → 0 < c →
  0 ≤ pending_net_usage (rl_state s) → 0 ≤ pending_cpu_usage (rl_state s) →
  n + pending_net_usage (rl_state s) ≤ ResourceLimits.max (net_limit_parameters (rl_config s)) →
  c + pending_cpu_usage (rl_state s) ≤ ResourceLimits.max (cpu_limit_parameters (rl_config s)) →
  ∃ m, ResourceLimits.add_transaction_usage v accounts c n slot s
       = (Ok (), ResourceLimits.set_state (ResourceLimits.add_pending c n (rl_state s)) (set_usages m s)) ∧
    (∀ a, a ∈ accounts → ∃ u, usages s !! a = Some u ∧ m !! a = Some (used_more slot s n c u)) ∧
    (∀ a, a ∉ accounts → m !! a = usages s !! a).
Proof.
  intros Hnd Hb Hall Hn Hc P1 P2 B1 B2.
  pose proof (sh_block _ _ _ _ (bw_net s Hb)) as Sn. pose proof (sh_block _ _ _ _ (bw_cpu s Hb)) as Sc.
  rewrite u64_half in Sn, Sc. change Precision with 1000000 in Sn, Sc.
  destruct (charge_all_pays v slot n c accounts Hnd s Hb Hall Hn) as (m & Hm & Hin & Hout);
    [change Precision with 1000000; rewrite u64_half; lia|done|change Precision with 1000000; rewrite u64_half; lia|].
  exists m. split; [|by split].
  unfold ResourceLimits.add_transaction_usage, mbind, st_bind, modify_st, get_st. rewrite Hm. cbn.
  assert (c + pending_cpu_usage (rl_state s) ≤ u64_max) by (unfold u64_max; lia).
  assert (n + pending_net_usage (rl_state s) ≤ u64_max) by (unfold u64_max; lia).
  unfold st_assert, lift, eos_assert. rewrite !u64_small by lia.
  rewrite !(proj2 (Z.leb_le _ _)) by lia. done.
Qed.

(** C15: the call that bills a transaction never fails, as its comment says: when the
    checks of [finalize] have passed for a transaction with some usage of both
    kinds, the billed accounts and the block have room for it, and exactly that
    usage is added.  The guaranteed network bytes must not exceed the guaranteed
    cpu time, and the accounts' accumulators must have been brought to the present
    slot, as [init] does. *)
Theorem billing_never_fails (e : trx_env) (now : Z) (t t' : txc) :
  let s := limits (db (cx t)) in
  skip_trx_checks e = false → bandwidth_ok s → block_room t →
  (∀ a, a ∈ bill_to_accounts t → account_ready (slot e) s a) →
  finalize_checks e now t = (Ok (), t') → 0 < net_usage (net t') → 0 < billed_cpu_time_us (cpu t') →
  ∃ t'', finalize e now t = (Ok (), t'') ∧
    let s' := limits (db (cx t'')) in
    (∀ a, a ∈ bill_to_accounts t → ∃ u, usages s !! a = Some u ∧
       usages s' !! a = Some (used_more (slot e) s (net_usage (net t')) (billed_cpu_time_us (cpu t')) u)) ∧
    (∀ a, a ∉ bill_to_accounts t → usages s' !! a = usages s !! a) ∧
    pending_net_usage (rl_state s') = pending_net_usage (rl_state s) + net_usage (net t') ∧
    pending_cpu_usage (rl_state s') = pending_cpu_usage (rl_state s) + billed_cpu_time_us (cpu t').
Proof.
  intros s Hs Hb (P1 & P2 & B1 & B2) Hr Hf Hn Hc. destruct (finalize_checks_spec _ _ _ _ Hf) as [C1 C2 C3 C4 C5 _ C7].
  destruct (C7 Hs) as (W1 & W2 & W3). fold s in P1, P2, B1, B2, C1, C3.
  pose proof (sh_block _ _ _ _ (bw_net s Hb)) as Sn. pose proof (sh_block _ _ _ _ (bw_cpu s Hb)) as Sc.
  rewrite u64_half in Sn, Sc. change Precision with 1000000 in Sn, Sc.
  destruct (add_usage_pays (view e) (slot e) (net_usage (net t')) (billed_cpu_time_us (cpu t'))
              (in_ascending (bill_to_accounts t)) s) as (m & Hm & Hin & Hout); [..|lia|lia|].
  - eapply NoDup_Permutation_proper; [apply merge_sort_Permutation|apply NoDup_elements].
  - done.
  - intros a Ha%in_ascending_elem. split; [by apply Hr|]. eapply pays_less; [exact W1|exact W3|by apply C3].
  - done.
  - done.
  - done.
  - done.
  - assert (u64 (billed_cpu_time_us (cpu t')) = billed_cpu_time_us (cpu t')) as Eu by (apply u64_small; unfold u64_max; lia).
    eexists. split.
    + unfold finalize, mbind, st_bind. rewrite Hf. unfold bill, mbind, st_bind, get_st, on_rl, on_cx, on_limits.
      rewrite C1, C2, Eu, Hm. reflexivity.
    + cbn. split_and!; [..|apply u64_small; unfold u64_max; lia|apply u64_small; unfold u64_max; lia].
      * intros a Ha. apply Hin. by apply in_ascending_elem.
      * intros a Ha. apply Hout. by rewrite in_ascending_elem.
Qed.

(** ** What [init] establishes *)

(** An accumulator of the past with room. *)
Definition roomy (u : ResourceLimits.usage_accumulator) : Prop :=
  0 ≤ last_ordinal u ≤ u32_max ∧ 0 ≤ value_ex u ≤ u64_max / 2 ∧ 0 ≤ consumed u ≤ u64_max / 2.

Definition usage_roomy (u : ResourceLimits.resource_usage_object) : Prop :=
  roomy (ResourceLimits.net_usage u) ∧ roomy (ResourceLimits.cpu_usage u).

Lemma decayed_less u slot w v : roomy u → 0 < w ≤ Precision → last_ordinal u < slot ≤ u32_max →
  ResourceLimits.decayed u slot w = Ok v → 0 ≤ v ≤ value_ex u.
Proof.
  intros (Hl & Hv & _) Hw Hs H. change Precision with 1000000 in Hw. unfold u32_max in *. rewrite u64_half in *.
  unfold ResourceLimits.decayed in H. rewrite u64_small in H by (unfold u64_max; lia).
  destruct (Z.gtb_spec (last_ordinal u + w) slot) as [Hgt|Hle]; [|injection H as <-; lia].
  rewrite u32_small in H by (unfold u32_max; lia). set (d := slot - last_ordinal u) in *.
  rewrite u64_small in H by (unfold u64_max; lia). unfold ResourceLimits.mul_ratio in H. simpl_ok.
  cbn in *. to_prop. apply orb_prop in H0 as [H0|H0]; to_prop; [lia|].
  assert (value_ex u * (w - d) ≤ u64_max) as Hfit.
  { pose proof (Z.mul_div_le u64_max (w - d) ltac:(lia)). nia. }
  rewrite u64_small by nia. split; [apply Z.div_pos; nia|]. apply Z.div_le_upper_bound; nia.
Qed.

Lemma add_nothing u slot w u' : roomy u → 0 < w ≤ Precision → 0 ≤ slot ≤ u32_max →
  ResourceLimits.add u 0 slot w = Ok u' → ready slot u'.
Proof.
  intros Hr Hw Hslot H. pose proof Hr as (Hl & Hv & Hc). unfold ResourceLimits.add in H.
  assert (integer_divide_ceil (u128 (0 * Precision)) w = 0) as E0.
  { rewrite Z.mul_0_l. unfold integer_divide_ceil. change (u128 0) with 0. by rewrite Z.div_0_l, Z.mod_0_l by lia. }
  rewrite E0 in H. unfold ResourceLimits.downgrade_cast in H. simpl_ok. rewrite u64_half in *.
  match goal with H : (if last_ordinal u =? slot then _ else _) = Ok ?x |- _ => rename x into w0; rename H into Hstep end.
  assert (last_ordinal w0 = slot ∧ 0 ≤ value_ex w0 ≤ 9223372036854775807 ∧ 0 ≤ consumed w0 ≤ 9223372036854775807) as (A & B & C).
  { destruct (Z.eqb_spec (last_ordinal u) slot) as [He|Hne]; simpl_ok; [done|]. to_prop.
    match goal with H : ResourceLimits.decayed _ _ _ = Ok ?v |- _ => apply decayed_less in H as Hd; [|done..|lia] end.
    cbn. split_and!; [done|lia|lia| |].
    - apply ResourceLimits.ceil_nonneg; [done|lia].
    - match goal with |- integer_divide_ceil ?v _ ≤ _ => pose proof (ResourceLimits.ceil_bounds v Precision ltac:(done)) as Hcb end.
      change Precision with 1000000 in Hcb |- *. lia. }
  unfold ready. cbn. rewrite u64_half, !Z.add_0_r, !u64_small by (unfold u64_max; lia). done.
Qed.

Lemma update_usage_spec slot accounts : NoDup accounts → ∀ s u s', bandwidth_ok s → 0 ≤ slot ≤ u32_max →
  (∀ a w, a ∈ accounts → usages s !! a = Some w → usage_roomy w) →
  ResourceLimits.update_account_usage accounts slot s = (Ok u, s') →
  ∃ m, s' = set_usages m s ∧ (∀ a, a ∉ accounts → m !! a = usages s !! a) ∧
    ∀ a, a ∈ accounts → ∃ w, m !! a = Some w ∧ ready slot (ResourceLimits.net_usage w) ∧ ready slot (ResourceLimits.cpu_usage w).
Proof.
  unfold ResourceLimits.update_account_usage.
  induction 1 as [|a accounts Ha Hnd IH]; intros s u s' Hb Hsl Hroom H; cbn [for_each] in H.
  - injection H as <- <-. exists (usages s). split; [by destruct s|]. split; [done|]. intros a Hin. by apply not_elem_of_nil in Hin.
  - apply st_bind_ok in H as ([] & s1 & H1 & H). unfold ResourceLimits.use, ResourceLimits.get_row in H1. simpl_ok.
    match goal with E : usages s !! a = Some ?w |- _ => pose proof (Hroom a w ltac:(left) E) as [Rn Rc] end.
    repeat match goal with E : ResourceLimits.add _ _ _ _ = Ok _ |- _ => apply add_nothing in E; [|done|by apply Hb|done] end.
    match type of H with for_each _ _ (set_usages ?m1 s) = _ => set (m := m1) in * end.
    apply IH in H as (m' & -> & Hout & Hin); [|by apply bandwidth_usages|done|].
    + exists m'. split; [done|]. split.
      * intros b [Hba Hbn]%not_elem_of_cons. rewrite Hout by done. by apply lookup_insert_ne.
      * intros b [->|Hbin]%elem_of_cons; [|by apply Hin]. rewrite Hout by done. cbn. unfold m. rewrite lookup_insert_eq.
        eexists. split; [done|]. done.
    + intros b w Hbin. cbn. unfold m. rewrite lookup_insert_ne by (intros ->; done). apply Hroom. by right.
Qed.

(** The limit that the block, the chain and the header leave to a transaction. *)
Definition ceiling (block chain header : Z) : Z :=
  if 0 <? header then Z.min (Z.min block chain) header else Z.min block chain.

Definition net_ceiling (e : trx_env) (t : txc) : Z :=
  ceiling (ResourceLimits.get_block_net_limit (limits (db (cx t)))) (max_transaction_net_usage (cfg t))
    (max_net_usage_words (header (trx e)) * 8).
Definition cpu_ceiling (e : trx_env) (t : txc) : Z :=
  ceiling (ResourceLimits.get_block_cpu_limit (limits (db (cx t)))) (max_transaction_cpu_usage (cfg t))
    (max_cpu_usage_ms (header (trx e)) * 1000).

(** Header fields have their width, and the block is within its limits. *)
Record start_ok (e : trx_env) (t : txc) : Prop := mk_start_ok
  { so_words : 0 ≤ max_net_usage_words (header (trx e)) ≤ u32_max;
    so_ms : 0 ≤ max_cpu_usage_ms (header (trx e)) ≤ u8_max;
    so_leeway : 0 ≤ net_usage_leeway (cfg t) ≤ u32_max;
    so_net : 0 ≤ pending_net_usage (rl_state (limits (db (cx t))))
             ≤ ResourceLimits.max (net_limit_parameters (rl_config (limits (db (cx t)))));
    so_cpu : 0 ≤ pending_cpu_usage (rl_state (limits (db (cx t))))
             ≤ ResourceLimits.max (cpu_limit_parameters (rl_config (limits (db (cx t)))));
    so_bandwidth : bandwidth_ok (limits (db (cx t)));
    so_usages : map_Forall (fun _ => usage_roomy) (usages (limits (db (cx t)))) }.

Lemma objective_limits_spec e t : start_ok e t →
  net_limit (objective_limits e t).1 = net_ceiling e t ∧ net_usage (objective_limits e t).1 = net_usage (net t) ∧
  objective_duration_limit (objective_limits e t).2 = cpu_ceiling e t.
Proof.
  intros [W M _ Pn Pc Hb _]. pose proof (sh_block _ _ _ _ (bw_net _ Hb)) as Sn. pose proof (sh_block _ _ _ _ (bw_cpu _ Hb)) as Sc.
  rewrite u64_half in Sn, Sc. change Precision with 1000000 in Sn, Sc.
  unfold objective_limits, net_ceiling, cpu_ceiling, ceiling, ResourceLimits.get_block_net_limit, ResourceLimits.get_block_cpu_limit.
  unfold u32_max, u8_max in *.
  rewrite (u64_small (max_net_usage_words _ * 8)) by (unfold u64_max; lia).
  rewrite !(u64_small (_ - _)) by (unfold u64_max; lia).
  rewrite (i64_small (max_cpu_usage_ms _ * 1000)) by (unfold i64_min, i64_max; lia).
  rewrite (i64_small (_ - _)) by (unfold i64_min, i64_max; lia).
  set (bn := _ - pending_net_usage _). set (bc := _ - pending_cpu_usage _).
  destruct (Z.leb_spec (max_transaction_net_usage (cfg t)) bn), (Z.leb_spec (max_transaction_cpu_usage (cfg t)) bc).
  all: destruct (Z.ltb_spec 0 (max_net_usage_words (header (trx e)) * 8)), (Z.ltb_spec 0 (max_cpu_usage_ms (header (trx e)))),
         (Z.ltb_spec 0 (max_cpu_usage_ms (header (trx e)) * 1000)); try lia; cbn [andb].
  all: repeat match goal with |- context [if ?x <=? ?y then _ else _] => destruct (Z.leb_spec x y) end; cbn; lia.
Qed.

Lemma eager_limits_spec e p t : 0 ≤ p.1.1.1 ≤ large_number_no_overflow →
  net_limit (eager_limits e p t).1 = net_limit (net t) ∧ net_usage (eager_limits e p t).1 = net_usage (net t) ∧
  (eager_net_limit (eager_limits e p t).1 ≤ net_limit (net t)) ∧
  objective_duration_limit (eager_limits e p t).2 = objective_duration_limit (cpu t).
Proof.
  destruct p as [[[nl cl] gn] gc]. cbn [fst snd]. intros Hn. unfold eager_limits.
  set (m := Z.min _ _). assert (m ≤ net_limit (net t)) as Hm by (unfold m; lia).
  destruct (Z.ltb_spec m (net_limit (net t))); destruct (_ <=? i64 (_ - _)); destruct (_ || (_ <? _)); cbn.
  all: split_and!; try done.
  all: match goal with |- ?a / 8 * 8 ≤ _ => pose proof (Z.mul_div_le a 8 ltac:(lia)) end; lia.
Qed.

Lemma add_net_usage_spec e u t u' t' : add_net_usage e u t = (Ok u', t') →
  t' = set_net (with_usage (u64 (net_usage (net t) + u)) (net t)) t ∧
  (skip_trx_checks e = false → u64 (net_usage (net t) + u) ≤ eager_net_limit (net t)).
Proof.
  intros H. unfold add_net_usage in H. simpl_ok. split; [done|]. intros Hs. unfold check_net_usage in H. rewrite Hs in H.
  cbn in H. destruct (Z.ltb_spec (eager_net_limit (net t)) (u64 (net_usage (net t) + u))); [done|lia].
Qed.

(** The state [init] leaves: what it set and what it kept. *)
Record started (e : trx_env) (t t' : txc) : Prop := mk_started
  { st_initialized : is_initialized t = false ∧ is_initialized t' = true;
    st_billed : bill_to_accounts t' = bill_to_accounts t ∪ actors_of (actions (trx e));
    st_net : net_limit (net t') = net_ceiling e t;
    st_cpu : objective_duration_limit (cpu t') = cpu_ceiling e t;
    st_usages : ∃ m, cx t' = set_db (set_rl (set_usages m (limits (db (cx t)))) (db (cx t))) (cx t) ∧
      (∀ a, a ∉ bill_to_accounts t' → m !! a = usages (limits (db (cx t))) !! a) ∧
      ∀ a, a ∈ bill_to_accounts t' → account_ready (slot e) (set_usages m (limits (db (cx t)))) a;
    st_kept : cfg t' = cfg t ∧ dedupe t' = dedupe t ∧ tapos t' = tapos t ∧ published t' = published t ∧ delay t' = delay t }.

Lemma init_spec e s now later usage t t' : start_ok e t → init e s now later usage t = (Ok (), t') →
  started e t t' ∧
  (skip_trx_checks e = false → 0 < usage → net_usage (net t') = u64 (net_usage (net t) + usage) ∧
     net_usage (net t') ≤ eager_net_limit (net t') ≤ net_limit (net t')).
Proof.
  intros Hok H. unfold init in H. apply st_bind_ok in H as (t0 & t1 & [= <- <-] & H).
  apply st_bind_ok in H as ([] & t1 & [Hi <-]%st_assert_ok & H). to_prop.
  apply st_bind_ok in H as ([] & t1 & [= <-] & H).
  destruct (objective_limits_spec e t Hok) as (O1 & O2 & O3). destruct (objective_limits e t) as [n1 c1]. cbn [fst snd] in *.
  apply st_bind_ok in H as (t0 & t1 & [= <- <-] & H). apply st_bind_ok in H as ([] & t1 & Hv & H).
  assert (t1 = set_cpu c1 (set_net n1 t)) as -> by (destruct (0 <? _); simpl_ok; done). clear Hv.
  apply st_bind_ok in H as ([] & t1 & [= <-] & H). apply st_bind_ok in H as (t0 & t1 & [= <- <-] & H).
  cbn in H. set (b := bill_to_accounts t ∪ actors_of (actions (trx e))) in *.
  apply st_bind_ok in H as ([] & t1 & Hu & H). unfold on_rl in Hu. apply on_cx_ok in Hu as (x & Hu & ->). cbn in Hu.
  unfold on_limits in Hu. destruct (ResourceLimits.update_account_usage _ _ _) as [r l1] eqn:E. injection Hu as -> <-.
  apply update_usage_spec in E as (m & -> & Hout & Hin); [|eapply NoDup_Permutation_proper; [apply merge_sort_Permutation|apply NoDup_elements]|apply Hok|apply u32_range|].
  2: { intros a w _ Hw. by apply (so_usages _ _ Hok a w). }
  apply st_bind_ok in H as (p & t1 & Hp & H). apply max_bandwidth_spec in Hp as (-> & Hn & Hc & Hpay).
  apply st_bind_ok in H as ([] & t1 & [= <-] & H). set (t2 := set_cx _ _) in *.
  destruct (eager_limits_spec e p t2 Hn) as (G1 & G2 & G3 & G4). destruct (eager_limits e p t2) as [n2 c2]. cbn [fst snd] in *.
  apply st_bind_ok in H as ([] & t3 & Hadd & H).
  assert (∃ n3, t3 = set_net n3 (set_cpu c2 (set_net n2 t2)) ∧ net_limit n3 = net_limit n2 ∧ eager_net_limit n3 = eager_net_limit n2 ∧
    (skip_trx_checks e = false → 0 < usage → net_usage n3 = u64 (net_usage n2 + usage) ∧ net_usage n3 ≤ eager_net_limit n2)) as (n3 & -> & N1 & N2 & N3).
  { destruct (Z.ltb_spec 0 usage) as [Hpos|Hz].
    - apply add_net_usage_spec in Hadd as [-> Hle]. eexists. split; [reflexivity|]. split; [done|]. split; [done|].
      intros Hs _. split; [done|]. by apply Hle.
    - injection Hadd as <-. exists n2. split; [by destruct t2|]. split; [done|]. split; [done|]. lia. }
  simpl_ok. split.
  - constructor; cbn; [done|done|by rewrite N1, G1|by rewrite G4| |done].
    exists m. split; [done|]. split; [intros a Ha; apply Hout; by rewrite in_ascending_elem|].
    intros a Ha. apply in_ascending_elem in Ha as Hb2. destruct (Hin a Hb2) as (w & Hw & R1 & R2). split; [|by exists w].
    destruct (Hpay a Ha) as (el & n & c & Hnl & _). apply net_limit_inv in Hnl as (_ & u & l & _ & Hl & _). by exists l.
  - intros Hs Hpos. destruct (N3 Hs Hpos) as [E1 E2]. cbn. rewrite E1, G2. cbn. rewrite O2. split; [done|].
    rewrite <- O2. rewrite E1, G2 in E2. cbn in E2. rewrite N1, N2, G1. cbn in *. lia.
Qed.

(** A transaction that [init] starts gets the smallest of the limits of the
    block, the chain and its header; its size is within them; the accounts it
    bills are brought to the present slot; and what [finalize] relies on when it
    bills holds. *)
Theorem init_prepares_billing (e : trx_env) (s : timer_setup) (now later usage : Z) (t t' : txc) :
  start_ok e t → init e s now later usage t = (Ok (), t') →
  net_limit (net t') = net_ceiling e t ∧ objective_duration_limit (cpu t') = cpu_ceiling e t ∧
  (skip_trx_checks e = false → 0 < usage → net_usage (net t') = u64 (net_usage (net t) + usage) ∧
     net_usage (net t') ≤ eager_net_limit (net t') ≤ net_ceiling e t) ∧
  is_initialized t' = true ∧ bill_to_accounts t' = bill_to_accounts t ∪ actors_of (actions (trx e)) ∧
  bandwidth_ok (limits (db (cx t'))) ∧ block_room t' ∧
  (∀ a, a ∈ bill_to_accounts t' → account_ready (slot e) (limits (db (cx t'))) a).
Proof.
  intros Hok H. destruct (init_spec _ _ _ _ _ _ _ Hok H) as [[Hi Hb Hn Hc (m & Hcx & Hout & Hin) _] Hu].
  rewrite Hn in Hu. split_and!; [done|done|done|apply Hi|done|..]; rewrite ?Hcx; cbn.
  - apply bandwidth_usages, Hok.
  - unfold block_room. rewrite Hcx, Hn, Hc. cbn. pose proof (so_net _ _ Hok) as Pn. pose proof (so_cpu _ _ Hok) as Pc.
    pose proof (sh_block _ _ _ _ (bw_net _ (so_bandwidth _ _ Hok))) as Sn.
    pose proof (sh_block _ _ _ _ (bw_cpu _ (so_bandwidth _ _ Hok))) as Sc.
    rewrite u64_half in Sn, Sc. change Precision with 1000000 in Sn, Sc.
    unfold net_ceiling, cpu_ceiling, ceiling, ResourceLimits.get_block_net_limit, ResourceLimits.get_block_cpu_limit.
    rewrite !(u64_small (_ - _)) by (unfold u64_max; lia). split_and!; try lia; destruct (0 <? _); lia.
  - done.
Qed.

(** ** No transaction is included twice *)

Definition dedupe_is (i : dedupe_index) (t : txc) : Prop := dedupe t = i.

Lemma on_cx_dedupe {A} (m : NC A) i : keeps (dedupe_is i) (on_cx m).
Proof. intros t Ht. unfold on_cx. by destruct (m (cx t)). Qed.

Lemma init_dedupe e s now later usage i : keeps (dedupe_is i) (init e s now later usage).
Proof.
  unfold init, max_bandwidth_billed_accounts_can_pay, add_net_usage, on_rl.
  keep ltac:(unfold dedupe_is in *; cbn;
    first [done | match goal with |- context [let '(_, _) := ?x in _] => by destruct x end]).
  all: apply on_cx_dedupe.
Qed.

(** What an admitted input transaction went through. *)
Lemma init_for_input_dedupe e s now later up pr t t' :
  skip_trx_checks e = false → init_for_input_trx e s now later up pr false t = (Ok (), t') →
  block_time e ≤ seconds (expiration (header (trx e))) ∧
  record_transaction (trx_id e) (expiration (header (trx e))) (dedupe t) = (Ok (), dedupe t').
Proof.
  intros Hs H. unfold init_for_input_trx in H. rewrite Hs in H.
  apply st_bind_ok in H as (t0 & t1 & [= <- <-] & H). apply st_bind_ok in H as ([] & t1 & [= <-] & H).
  apply st_bind_ok in H as ([] & t1 & Hv & H). apply st_bind_ok in H as ([] & t2 & Hi & H).
  unfold validate_expiration in Hv. simpl_ok. to_prop. split; [done|].
  pose proof (init_dedupe e s now later (initial_usage e (cfg t) up pr) (dedupe t) _
    (eq_refl : dedupe_is (dedupe t) (set_published (block_time e) true (apply_context_free t) t))) as Hd.
  rewrite Hi in Hd. cbn in Hd. unfold on_dedupe in H. rewrite Hd in H.
  destruct (record_transaction _ _ _) as [r i]. by injection H as -> <-.
Qed.

Section Replay.
(** The id of a transaction is a hash of it, so it fixes the expiration. *)
Context (expiration_of : digest_type → Z) (Hsec : ∀ id, 0 ≤ expiration_of id ≤ u32_max).

(** The index along a chain of blocks: a new block clears it, an input
    transaction that is admitted in a block is recorded; what is undone does not
    change it. *)
Inductive admitted : Z → dedupe_index → list digest_type → Prop :=
| admitted_none time : admitted time (mk_dedupe ∅ 0) []
| admitted_block time time' i ids :
    admitted time i ids → time ≤ time' → admitted time' (clear_expired_input_transactions time' i) ids
| admitted_trx i ids e s now later up pr t t' :
    admitted (block_time e) i ids → dedupe t = i → skip_trx_checks e = false →
    expiration (header (trx e)) = expiration_of (trx_id e) →
    init_for_input_trx e s now later up pr false t = (Ok (), t') →
    admitted (block_time e) (dedupe t') (trx_id e :: ids).

(** The index knows the ids that can still be valid. *)
Record index_ok (time : Z) (i : dedupe_index) (ids : list digest_type) : Prop := mk_index_ok
  { io_fresh : ∀ k o, known i !! k = Some o → k < next_known i;
    io_expiration : ∀ k o, known i !! k = Some o → to_expiration o = expiration_of (to_trx_id o);
    io_knows : ∀ id, id ∈ ids → time ≤ seconds (expiration_of id) → ∃ k o, known i !! k = Some o ∧ to_trx_id o = id }.

Lemma find_known_none i id : find_known i id = None → ∀ k o, known i !! k = Some o → to_trx_id o ≠ id.
Proof.
  unfold find_known. intros H k o Hk He. apply find_none with (x := (k, o)) in H.
  - cbn in H. by rewrite bool_decide_true in H.
  - apply list_elem_of_In. by apply elem_of_map_to_list.
Qed.

Lemma index_ok_sec time i ids : index_ok time i ids → sec_ok (known i).
Proof using Hsec. intros Hi k o Hk. rewrite (io_expiration _ _ _ Hi k o Hk). apply Hsec. Qed.

Lemma admitted_index time i ids : admitted time i ids → index_ok time i ids ∧ NoDup ids.
Proof using Hsec.
  induction 1 as [time|time time' i ids Ha [[F E K] Hnd] Hle|i ids e s now later up pr t t' Ha [[F E K] Hnd] Hi Hs He Hinit].
  - split; [|constructor]. constructor; cbn.
    + by intros k o ?%lookup_empty_Some.
    + by intros k o ?%lookup_empty_Some.
    + by intros id ?%not_elem_of_nil.
  - split; [|done]. rewrite clear_keeps_unexpired by (by eapply index_ok_sec). constructor; cbn.
    + intros k o [Hk _]%map_lookup_filter_Some. by eapply F.
    + intros k o [Hk _]%map_lookup_filter_Some. by eapply E.
    + intros id Hid Ht. destruct (K id Hid ltac:(lia)) as (k & o & Hk & Ho). exists k, o.
      split; [|done]. apply map_lookup_filter_Some. split; [done|]. unfold unexpired. cbn. by rewrite (E k o Hk), Ho.
  - apply init_for_input_dedupe in Hinit as [Ht Hrec]; [|done]. rewrite He in *. subst i.
    unfold record_transaction in Hrec. apply st_bind_ok in Hrec as (i0 & i1 & [= <- <-] & Hrec).
    apply st_bind_ok in Hrec as ([] & i1 & [Hnew <-]%st_assert_ok & Hput). injection Hput as <-.
    unfold is_known_unexpired_transaction in Hnew. to_prop. apply eq_None_not_Some in Hnew.
    pose proof (find_known_none _ _ Hnew) as Hfresh. split; [constructor; cbn|constructor; [|done]].
    + intros k o [[<- <-]|[_ Hk]]%lookup_insert_Some; [lia|]. specialize (F k o Hk). lia.
    + intros k o [[<- <-]|[_ Hk]]%lookup_insert_Some; [done|]. by eapply E.
    + intros id [->|Hid]%elem_of_cons Hle.
      * eexists _, _. split; [apply lookup_insert_eq|done].
      * destruct (K id Hid Hle) as (k & o & Hk & Ho). exists k, o. split; [|done]. rewrite lookup_insert_ne; [done|].
        specialize (F k o Hk). lia.
    + intros Hin. destruct (K _ Hin Ht) as (k & o & Hk & Ho). by eapply Hfresh.
Qed.
End Replay.

(** C16: no input transaction is included twice on a chain of blocks whose times do
    not go back: the index forgets a transaction only when it has expired, and an
    expired one is refused. *)
Theorem no_replay (expiration_of : digest_type → Z) (time : Z) (i : dedupe_index) (ids : list digest_type) :
  (∀ id, 0 ≤ expiration_of id ≤ u32_max) → admitted expiration_of time i ids → NoDup ids.
Proof. intros Hsec H. by eapply admitted_index. Qed.

(** ** A transaction of one account *)

Module BillingDemo.
Definition alice : Z := NativeDemo.alice.

(** A database in which [alice] has the given weights and network usage. *)
Definition limits_with (net_w cpu_w used : Z) (g : ResourceLimits.gmr_parameters) : RLdb :=
  let d := ResourceLimits.initialize_database in
  ResourceLimits.mk_rl_db {[alice := ResourceLimits.mk_limits net_w cpu_w (-1)]} ∅
    {[alice := mk_account_usage (mk_usage 1000 used 0) (mk_usage 1000 0 0) 0]}
    (rl_config d) g
    (ResourceLimits.mk_rl_state ResourceLimits.usage0 ResourceLimits.usage0 0 0 10 10 0
       (virtual_net_limit (rl_state d)) (virtual_cpu_limit (rl_state d))).
Definition context_with (l : RLdb) : context := set_db (set_rl l (db NativeDemo.start)) NativeDemo.start.

Definition now : Z := Timestamp.to_time_point 1000.
Definition transfer : transaction :=
  mk_transaction (mk_trx_header 946685400 0 0 0 0 0) [] [mk_action alice 1 [mk_level alice config.active_name] []] [].
Definition env : trx_env :=
  mk_trx_env transfer (mk_digest 1 2 3 4) now time_max 3000 false true now false false (mk_node_lists ∅ ∅ ∅ ∅)
    (ResourceLimits.mk_ram_view (fun _ => None) 10240).
Definition timer : timer_setup := mk_timer true 50 false.

Definition fresh (l : RLdb) : txc :=
  mk_txc (context_with l) default_config (mk_dedupe ∅ 0) ∅ net0 (cpu0 env 0) (mk_contract_limits 0 0 false) ∅ 0 0
    false false true.
Definition started_with (l : RLdb) : txc := (init_for_input_trx env timer now now 100 0 false (fresh l)).2.
Definition deferred_with (l : RLdb) : txc := (init_for_deferred_trx env timer now now now (fresh l)).2.

Definition plain : RLdb := limits_with 1 1 0 ResourceLimits.default_gmr.

Lemma plain_bandwidth net_w cpu_w used : net_w ≤ i64_max → cpu_w ≤ i64_max →
  bandwidth_ok (limits_with net_w cpu_w used ResourceLimits.default_gmr).
Proof.
  intros Hn Hc. constructor; [constructor; vm_compute; repeat split; congruence..|vm_compute; repeat split; congruence|].
  intros a l Hl. unfold limits_in_force in Hl. cbn in Hl. apply lookup_singleton_Some in Hl as [_ <-]. done.
Qed.

Lemma fresh_ok : start_ok env (fresh plain).
Proof.
  constructor; [vm_compute; split; congruence..|apply plain_bandwidth; vm_compute; congruence|].
  - intros a u Hu. cbn in Hu. apply lookup_singleton_Some in Hu as [_ <-]. vm_compute. repeat split; congruence.
Qed.
End BillingDemo.

Lemma init_prepares_billing_witness :
  ∃ t', init BillingDemo.env BillingDemo.timer BillingDemo.now BillingDemo.now 112 (BillingDemo.fresh BillingDemo.plain)
        = (Ok (), t') ∧ net_limit (net t') = 524288 ∧ block_room t'.
Proof.
  eexists. split; [vm_compute; reflexivity|].
  edestruct (init_prepares_billing BillingDemo.env BillingDemo.timer BillingDemo.now BillingDemo.now 112
    (BillingDemo.fresh BillingDemo.plain)) as (Hn & _ & _ & _ & _ & _ & Hr & _);
    [apply BillingDemo.fresh_ok|vm_compute; reflexivity|].
  split; [rewrite Hn; vm_compute; reflexivity|exact Hr].
Defined.

Lemma billing_never_fails_witness :
  is_ok (finalize BillingDemo.env (BillingDemo.now + 500) (BillingDemo.started_with BillingDemo.plain)).1 = true.
Proof.
  assert (limits (db (cx (BillingDemo.started_with BillingDemo.plain))) = BillingDemo.plain) as El by (vm_compute; reflexivity).
  edestruct (billing_never_fails BillingDemo.env (BillingDemo.now + 500) (BillingDemo.started_with BillingDemo.plain))
    as (t'' & Hf & _).
  - reflexivity.
  - rewrite El. apply BillingDemo.plain_bandwidth; vm_compute; congruence.
  - vm_compute. repeat split; congruence.
  - intros a Ha. rewrite El. assert (a = BillingDemo.alice) as ->.
    { assert (bill_to_accounts (BillingDemo.started_with BillingDemo.plain) = {[BillingDemo.alice]}) as Eb by (vm_compute; reflexivity).
      rewrite Eb in Ha. by apply elem_of_singleton in Ha. }
    split; [vm_compute; eexists; reflexivity|]. eexists. split; [vm_compute; reflexivity|].
    split; vm_compute; repeat split; congruence.
  - vm_compute. reflexivity.
  - vm_compute. reflexivity.
  - vm_compute. reflexivity.
  - rewrite Hf. reflexivity.
Defined.

Lemma no_replay_witness :
  NoDup [trx_id BillingDemo.env].
Proof.
  apply (no_replay (fun _ => 946685400) BillingDemo.now (dedupe (BillingDemo.started_with BillingDemo.plain))).
  - intros _. vm_compute. split; congruence.
  - eapply (admitted_trx _ _ _ BillingDemo.env BillingDemo.timer BillingDemo.now BillingDemo.now 100 0
      (BillingDemo.fresh BillingDemo.plain)); [apply admitted_none|reflexivity|reflexivity|reflexivity|].
    vm_compute. reflexivity.
Defined.

(** A deferred transaction uses no network bandwidth by itself.  When its account is
    already over its network share, because the share shrank after it was used,
    every check of [finalize] passes and the call that should never fail throws. *)
Theorem unused_bandwidth_fails_billing :
  let t := BillingDemo.deferred_with (BillingDemo.limits_with 0 (-1) 10000000 ResourceLimits.default_gmr) in
  is_initialized t = true ∧ (finalize_checks BillingDemo.env BillingDemo.now t).1 = Ok () ∧
  (finalize BillingDemo.env BillingDemo.now t).1 = Err tx_net_usage_exceeded.
Proof. vm_compute. split_and!; reflexivity. Qed.

(** With less guaranteed cpu time than guaranteed network bytes, which [setconfig]
    can set, a transaction that its account can pay passes every check of
    [finalize] and is refused by the call that should never fail. *)
Theorem guarantee_mismatch_fails_billing :
  let t := BillingDemo.started_with (BillingDemo.limits_with 0 (-1) 0 (ResourceLimits.mk_gmr 65536 100 32768)) in
  is_initialized t = true ∧ (finalize_checks BillingDemo.env BillingDemo.now t).1 = Ok () ∧
  (finalize BillingDemo.env BillingDemo.now t).1 = Err tx_net_usage_exceeded.
Proof. vm_compute. split_and!; reflexivity. Qed.
End TransactionContext.
