(* ===== verification/Execution.v ===== *)
(** * Running actions

    [apply_context.cpp]: an action is delivered to its account, to the accounts
    that are notified, and then to the inline actions they sent, each of which runs
    in a context of its own; [transaction_context::exec] runs the actions of a
    transaction.  Contracts act through the host functions of
    [wasm_interface.cpp].

    What a contract does is a [program]: a finite sequence of host calls that
    depends on their answers, since the node stops code that runs too long; which
    program a code is, is given by the class [Machine], as are hashing and
    packing; a contract that calls [eosio_exit] returns.  The state of an
    [apply_context] is part of [xstate]: nothing reads it
    after its inline actions have started, so that their contexts take its place.
    Traces and the console are not modelled, nor the host functions that only
    compute or read. *)

From S2P Require Import Prelude Exceptions Name Merkle BlockHeader EosLib ResourceLimits Authority AuthorizationManager NativeContract ContractTables Admission TransactionContext.

Module Execution.
Import AuthorizationManager Native Admission TransactionContext Tables.
#[local] Existing Instance Schedule.producer_key_eq_dec.

(** ** Contracts *)

(** Host functions: [authorization_api], [transaction_api], [database_api] and
    what [privileged_api] changes. *)
Inductive host_call : Type :=
| RequireAuth (account : Z)
| RequireAuth2 (account permission : Z)
| HasAuth (account : Z)
| RequireRecipient (recipient : Z)
| IsAccount (account : Z)
| SendInline (data_len : Z) (a : action)
| SendContextFreeInline (data_len : Z) (a : action)
| SendDeferred (sender_id payer : Z) (t : transaction) (replace_existing : bool)
| CancelDeferred (sender_id : Z)
| Table (c : table_call)
| SetResourceLimits (account ram_bytes net_weight cpu_weight : Z)
| SetNeedCheckRamLimit (account : Z)
| SetBlockchainParameters (c : chain_config)
| SetProposedProducers (producers : list Schedule.producer_key)
| IsPrivileged (account : Z)
| SetPrivileged (account : Z) (is_priv : bool).

Definition answer : Type := Z * list Z.

Inductive program : Type :=
| Return
| Trap (x : exn)
| Call (c : host_call) (k : answer → program).

Class Machine : Type :=
  { machine_native :: NativeEnv;
    (** [wasm_interface::apply] of a code, for a receiver and an action *)
    contract : bytes → Z → action → program;
    action_digest : action → digest_type;
    transaction_digest : transaction → digest_type;
    pack : transaction → bytes;
    (** [public_key_type::valid] *)
    valid_key : public_key_type → bool;
    unpack_hello : bytes → R Z }.

(** ** State *)

Record action_receipt : Type := mk_receipt
  { ar_receiver : Z; act_digest : digest_type; global_sequence : Z; ar_recv_sequence : Z;
    ar_auth_sequence : gmap Z Z; ar_code_sequence : Z; ar_abi_sequence : Z }.

(** The queues of an [apply_context]. *)
Record queues : Type := mk_queues
  { notified : list Z; inline_actions : list action; cfa_inline_actions : list action; q_privileged : bool }.

Record xstate : Type := mk_xstate
  { tx : txc; tabs : gmap Z table_id_object; next_tab : Z; kvs : part bytes; idxs : part Z;
    (** the block in which a schedule was proposed, and the schedule *)
    proposed : option Z * Schedule.producer_schedule_type;
    global_action_sequence : Z; executed : list action_receipt; q : queues }.

Abbreviation X := (ST xstate exn).

Definition set_tx (t : txc) (s : xstate) : xstate :=
  mk_xstate t (tabs s) (next_tab s) (kvs s) (idxs s) (proposed s) (global_action_sequence s) (executed s) (q s).
Definition set_q (u : queues) (s : xstate) : xstate :=
  mk_xstate (tx s) (tabs s) (next_tab s) (kvs s) (idxs s) (proposed s) (global_action_sequence s) (executed s) u.
Definition set_notified (l : list Z) (s : xstate) : xstate :=
  set_q (mk_queues l (inline_actions (q s)) (cfa_inline_actions (q s)) (q_privileged (q s))) s.
Definition set_inline (l : list action) (s : xstate) : xstate :=
  set_q (mk_queues (notified (q s)) l (cfa_inline_actions (q s)) (q_privileged (q s))) s.
Definition set_cfa_inline (l : list action) (s : xstate) : xstate :=
  set_q (mk_queues (notified (q s)) (inline_actions (q s)) l (q_privileged (q s))) s.
Definition set_q_privileged (b : bool) (s : xstate) : xstate :=
  set_q (mk_queues (notified (q s)) (inline_actions (q s)) (cfa_inline_actions (q s)) b) s.

Definition on_tx {A} (m : TX A) : X A := fun s => let '(r, t) := m (tx s) in (r, set_tx t s).
Definition on_native {A} (m : NC A) : X A := on_tx (on_cx m).

(** The tables of contracts, with the context they charge. *)
Definition tstate_of (s : xstate) : tstate := mk_tstate (cx (tx s)) (tabs s) (next_tab s) (kvs s) (idxs s).
Definition on_tables {A} (m : TC A) : X A :=
  fun s => let '(r, t) := m (tstate_of s) in
           (r, mk_xstate (set_cx (ctx t) (tx s)) (tables t) (next_table t) (kv t) (idx t) (proposed s)
                 (global_action_sequence s) (executed s) (q s)).

Definition the_db (s : xstate) : database := db (cx (tx s)).
Definition get_the_db : X database := gets the_db.

(** [FC_RETHROW_EXCEPTIONS] *)
Definition rethrown {A} (m : X A) : X A :=
  fun s => match m s with
           | (Err x, s') => (Err (fc_capture_and_rethrow x), s')
           | r => r
           end.

(** What the controller and the transaction fix. *)
Record exec_env : Type := mk_exec_env
  { te : trx_env; skip_auth_check : bool; allow_ram_billing_in_notify : bool;
    head_num : Z; head_block_id : digest_type; keys_blacklist : gset Z;
    (** of the pending block *)
    current_active : Schedule.producer_schedule_type; current_pending : Schedule.producer_schedule_type;
    (** [checktime] at its n-th call during a check of authorizations *)
    ticking : nat → R () }.

Definition native_account_name : Z := Name.N "bacc.native".

Section Exec.
Context `{Machine} (e : exec_env).

Definition producing : bool := is_producing_block (te e).
Definition enforcing : bool := enforce_whiteblacklist (te e) && producing.

Definition native_env (s : xstate) : block_env :=
  mk_block_env (block_time (te e)) (head_num e) (Admission.max_transaction_delay (cfg (tx s))) enforcing (keys_blacklist e).
Definition auth_view (s : xstate) : control_view :=
  mk_control (Admission.max_transaction_delay (cfg (tx s))) (Z.to_nat (Admission.max_authority_depth (cfg (tx s))))
    (gtrxs (the_db s)).

(** ** Sending actions and transactions *)

(** An exception that [catch] sees. *)
Definition caught (x : exn) : bool := negb (bool_decide (x = undefined_behavior)) && negb (bool_decide (x = loop_bound)).

(** The two ends of the check: a failure is passed on, becomes subjective while
    producing, and is ignored otherwise, where only the sender itself is concerned. *)
Definition tolerate (to_self : bool) (r : R ()) : R () :=
  match r with
  | Ok _ => Ok ()
  | Err x => if negb (caught x) || negb to_self then Err x
             else if producing then Err subjective_block_production_exception else Ok ()
  end.

Definition check_inline_actor (d : database) (l : permission_level) : R () :=
  eos_assert (has_account d (actor l)) action_validate_exception ;;
  p ← find_permission (auth d) l;
  eos_assert (bool_decide (is_Some p)) action_validate_exception.

(** Authorizations of the running action that an inline action may repeat. *)
Definition inherited (rcv : Z) (current a : action) : gset permission_level :=
  if (act_account a =? rcv) && (rcv =? act_account current) && producing
  then list_to_set (filter (fun l => l ∈ act_authorization current) (act_authorization a)) else ∅.

Definition execute_inline (rcv : Z) (current a : action) : X () :=
  s ← get_st;
  let d := the_db s in
  st_assert (has_account d (act_account a)) action_validate_exception ;;
  lift (fold_result (fun _ l => check_inline_actor d l) () (act_authorization a)) ;;
  (if enforcing then lift (check_actor_list (nodes (te e)) (conf (cx (tx s))) (actors_of [a])) else mret ()) ;;
  (if negb (skip_auth_check e) && negb (q_privileged (q s)) then
     lift (tolerate (act_account a =? rcv)
       (check_authorization (auth d) (auth_view s) (ticking e) [a] [] {[mk_level rcv eosio_code_name]}
          (i64 (block_time (te e) - published (tx s))) false (inherited rcv current a)))
   else mret ()) ;;
  modify_st (fun s => set_inline (inline_actions (q s) ++ [a]) s).

Definition execute_context_free_inline (a : action) : X () :=
  d ← get_the_db;
  st_assert (has_account d (act_account a)) action_validate_exception ;;
  st_assert (bool_decide (act_authorization a = [])) action_validate_exception ;;
  modify_st (fun s => set_cfa_inline (cfa_inline_actions (q s) ++ [a]) s).

(** The transaction as it is sent: it expires within a second and refers to the
    head block. *)
Definition stamped (t : transaction) : transaction :=
  let h := header t in
  let exp := u32 (Z.quot (i64 (block_time (te e) + 999999)) 1000000) in
  mk_transaction
    (set_reference_block (head_block_id e)
       (mk_trx_header exp (ref_block_num h) (ref_block_prefix h) (max_net_usage_words h) (max_cpu_usage_ms h) (delay_sec h)))
    (context_free_actions t) (actions t) (transaction_extensions t).

Definition find_sent (d : database) (sender sender_id : Z) : option (digest_type * generated_transaction_object) :=
  find (fun g => (gt_sender g.2 =? sender) && (gt_sender_id g.2 =? sender_id)) (map_to_list (gtrxs d)).

(** The check of authorizations of a deferred transaction. *)
Definition check_deferred (rcv : Z) (current : action) (payer : Z) (t : transaction) : X () :=
  (if negb (payer =? rcv) then on_native (require_authorization current payer) else mret ()) ;;
  s ← get_st;
  lift (tolerate (forallb (fun a => act_account a =? rcv) (actions t))
    (check_authorization (auth (the_db s)) (auth_view s) (ticking e) (actions t) [] {[mk_level rcv eosio_code_name]}
       (seconds (delay_sec (header t))) false ∅)).

Definition notify_billing_allowed : bool := negb producing || allow_ram_billing_in_notify e.

(** A transaction that replaces another keeps its id in the index. *)
Definition schedule_deferred_transaction (rcv : Z) (current : action) (sender_id payer : Z) (t : transaction)
    (replace_existing : bool) : X () :=
  st_assert (bool_decide (context_free_actions t = [])) cfa_inside_generated_tx ;;
  let t := stamped t in
  s ← get_st;
  lift (validate_referenced_accounts (te e) t
    (enforcing && negb (sender_avoids_whitelist_blacklist_enforcement (nodes (te e)) rcv)) (cx (tx s))) ;;
  on_tx (add_net_usage (te e) (u64 (base_per_transaction_net_usage (cfg (tx s)) + transaction_id_net_usage))) ;;
  s ← get_st;
  (if negb (skip_auth_check e) && negb (q_privileged (q s)) then check_deferred rcv current payer t else mret ()) ;;
  s ← get_st;
  let delay_until := i64 (block_time (te e) + seconds (delay_sec (header t))) in
  let g := mk_generated rcv sender_id payer delay_until
             (i64 (delay_until + seconds (deferred_trx_expiration_window (cfg (tx s))))) (block_time (te e)) (pack t) in
  (match find_sent (the_db s) rcv sender_id with
   | Some (id, _) =>
       st_assert replace_existing deferred_tx_duplicate ;;
       st_assert (negb producing) subjective_block_production_exception ;;
       on_native (modify_db (fun d => set_gtrxs (<[id := g]> (gtrxs d)) d))
   | None => on_native (create_generated (transaction_digest t) g)
   end) ;;
  s ← get_st;
  st_assert (notify_billing_allowed || (rcv =? act_account current) || (rcv =? payer) || q_privileged (q s))
    subjective_block_production_exception ;;
  on_native (add_ram_usage payer (i64 (billable_generated + u32 (Z.of_nat (length (pack t)))))).

(** ** Host functions *)

Definition require_recipient (recipient : Z) : X () :=
  modify_st (fun s => if existsb (Z.eqb recipient) (notified (q s)) then s
                      else set_notified (notified (q s) ++ [recipient]) s).

(** [require_authorization] with a permission. *)
Definition require_authorization2 (current : action) (account perm : Z) : NC () :=
  match list_find (fun l => actor l = account ∧ permission l = perm) (act_authorization current) with
  | Some (i, _) =>
      modify_st (fun x => mk_context (db x) (conf x) (<[i := true]> (used_authorizations x)) (ram_deltas x)
                            (validate_ram_usage x))
  | None => throw missing_auth_exception
  end.

Definition of_bool (b : bool) : answer := (if b then 1 else 0, []).
Definition nothing {A} (m : X A) : X answer := m ;; mret (0, []).

(** The iterator and the keys that are written for the contract. *)
Definition with_keys {D} (keys : row D → list Z) (m : TC (Z * option (row D))) : TC answer :=
  r ← m; mret (r.1, match r.2 with Some o => keys o | None => [] end).

Definition both_keys (o : index_object) : list Z := [r_data o; r_primary o].

Definition table_answer (c : call_env) (t : table_call) : TC answer :=
  match t with
  | Get it n => db_get_i64 it n
  | Next it => with_keys (fun o => [r_primary o]) (db_next_i64 it)
  | Previous it => with_keys (fun o => [r_primary o]) (db_previous_i64 it)
  | IdxNext it => with_keys (fun o => [r_primary o]) (next_secondary it)
  | IdxPrevious it => with_keys (fun o => [r_primary o]) (previous_secondary it)
  | IdxFind code scope table value => with_keys (fun o => [r_primary o]) (find_secondary code scope table value)
  | IdxLowerbound code scope table value => with_keys both_keys (lowerbound_secondary code scope table value)
  | IdxUpperbound code scope table value => with_keys both_keys (upperbound_secondary code scope table value)
  | IdxNextPrimary it => with_keys (fun o => [r_primary o]) (next_primary it)
  | IdxPreviousPrimary it => with_keys (fun o => [r_primary o]) (previous_primary it)
  | IdxFindPrimary code scope table id => with_keys (fun o => [r_data o]) (find_primary code scope table id)
  | t => r ← exec_call c t; mret (r, [])
  end.

(** [set_resource_limits] and the other functions of [privileged_api]. *)
Definition must_validate_ram (account : Z) : NC () :=
  modify_st (fun x => mk_context (db x) (conf x) (used_authorizations x) (ram_deltas x) ({[account]} ∪ validate_ram_usage x)).

Definition set_resource_limits (account ram_bytes net_weight cpu_weight : Z) : NC () :=
  st_assert (-1 <=? ram_bytes) wasm_execution_error ;;
  st_assert (-1 <=? net_weight) wasm_execution_error ;;
  st_assert (-1 <=? cpu_weight) wasm_execution_error ;;
  decreased ← on_limits (ResourceLimits.set_account_limits account ram_bytes net_weight cpu_weight);
  if (decreased : bool) then must_validate_ram account else mret ().

Definition set_privileged (account : Z) (is_priv : bool) : NC () :=
  d ← get_db;
  a ← lift (get_account d account);
  modify_db (fun d => set_accounts (<[account := mk_account is_priv (ao_last_code_update a) (ao_code_version a)
                                                   (ao_creation_date a) (ao_code a) (ao_abi a)]> (accounts_db d)) d).

Definition set_cfg (c : chain_config) (t : txc) : txc :=
  mk_txc (cx t) c (dedupe t) (tapos t) (net t) (cpu t) (by_contract t) (bill_to_accounts t) (published t) (delay t)
    (is_initialized t) (is_input t) (apply_context_free t).

(** What is read back from the bytes of a configuration has the width of the fields. *)
Definition unpacked_config (c : chain_config) : chain_config :=
  mk_chain_config (u64 (max_block_net_usage c)) (u32 (target_block_net_usage_pct c)) (u32 (max_transaction_net_usage c))
    (u32 (base_per_transaction_net_usage c)) (u32 (net_usage_leeway c)) (u32 (context_free_discount_net_usage_num c))
    (u32 (context_free_discount_net_usage_den c)) (u32 (max_block_cpu_usage c)) (u32 (target_block_cpu_usage_pct c))
    (u32 (max_transaction_cpu_usage c)) (u32 (min_transaction_cpu_usage c)) (u32 (max_transaction_lifetime c))
    (u32 (deferred_trx_expiration_window c)) (u32 (Admission.max_transaction_delay c)) (u32 (max_inline_action_size c))
    (u16 (max_inline_action_depth c)) (u16 (Admission.max_authority_depth c)).

Definition set_blockchain_parameters (c : chain_config) : TX () :=
  let c := unpacked_config c in
  lift (Admission.validate c) ;; modify_st (set_cfg c).

(** The schedule after which a proposed one comes. *)
Definition base_schedule : Schedule.producer_schedule_type :=
  if bool_decide (Schedule.producers (current_pending e) = []) then current_active e else current_pending e.

(** Another schedule waits, or this one changes nothing. *)
Definition refuses (ps : list Schedule.producer_key) (s : xstate) : bool :=
  match (proposed s).1 with
  | Some n => negb (n =? u32 (head_num e + 1)) || bool_decide (ps = Schedule.producers (proposed s).2)
  | None => false
  end || bool_decide (ps = Schedule.producers base_schedule).

(** [controller::set_proposed_producers]: the version of the schedule, or -1. *)
Definition propose (ps : list Schedule.producer_key) : X Z :=
  s ← get_st;
  if refuses ps s then mret (-1)
  else
    put_st (mk_xstate (tx s) (tabs s) (next_tab s) (kvs s) (idxs s)
              (Some (u32 (head_num e + 1)), Schedule.mk_schedule (u32 (Schedule.version base_schedule + 1)) ps)
              (global_action_sequence s) (executed s) (q s)) ;;
    mret (u32 (Schedule.version base_schedule + 1)).

Definition set_proposed_producers (ps : list Schedule.producer_key) : X Z :=
  st_assert (Z.of_nat (length ps) <=? config.max_producers) wasm_execution_error ;;
  d ← get_the_db;
  lift (fold_result (fun _ p =>
    eos_assert (has_account d (Schedule.producer_name p)) wasm_execution_error ;;
    eos_assert (valid_key (Schedule.block_signing_key p)) wasm_execution_error) () ps) ;;
  st_assert (bool_decide (NoDup (Schedule.producer_name <$> ps))) wasm_execution_error ;;
  propose ps.

Definition privileged_call (c : host_call) : bool :=
  match c with
  | SetResourceLimits _ _ _ _ | SetNeedCheckRamLimit _ | SetBlockchainParameters _ | SetProposedProducers _
  | IsPrivileged _ | SetPrivileged _ _ => true
  | _ => false
  end.

Definition perform (rcv : Z) (current : action) (c : host_call) : X answer :=
  match c with
  | RequireAuth a => nothing (on_native (require_authorization current a))
  | RequireAuth2 a p => nothing (on_native (require_authorization2 current a p))
  | HasAuth a => mret (of_bool (has_authorization current a))
  | RequireRecipient r => nothing (require_recipient r)
  | IsAccount a => d ← get_the_db; mret (of_bool (has_account d a))
  | SendInline n a =>
      s ← get_st; st_assert (n <? max_inline_action_size (cfg (tx s))) inline_action_too_big ;;
      nothing (execute_inline rcv current a)
  | SendContextFreeInline n a =>
      s ← get_st; st_assert (n <? max_inline_action_size (cfg (tx s))) inline_action_too_big ;;
      nothing (execute_context_free_inline a)
  | SendDeferred i payer t r => nothing (schedule_deferred_transaction rcv current i payer t r)
  | CancelDeferred i => b ← on_native (cancel_deferred_transaction i rcv); mret (of_bool b)
  | Table t => s ← get_st; on_tables (table_answer (mk_call_env rcv current (q_privileged (q s)) notify_billing_allowed) t)
  | SetResourceLimits a r n c => nothing (on_native (set_resource_limits a r n c))
  | SetNeedCheckRamLimit a => nothing (on_native (must_validate_ram a))
  | SetBlockchainParameters c => nothing (on_tx (set_blockchain_parameters c))
  | SetProposedProducers ps => v ← set_proposed_producers ps; mret (v, [])
  | IsPrivileged a => d ← get_the_db; o ← lift (get_account d a); mret (of_bool (ao_privileged o))
  | SetPrivileged a b => nothing (on_native (set_privileged a b))
  end.

(** [context_aware_api] and [privileged_api]: none of these functions may be
    called in a context-free action, and some need a privileged receiver. *)
Definition host (rcv : Z) (current : action) (context_free : bool) (c : host_call) : X answer :=
  st_assert (negb context_free) unaccessible_api ;;
  s ← get_st;
  st_assert (negb (privileged_call c) || q_privileged (q s)) unaccessible_api ;;
  perform rcv current c.

Fixpoint run_program (rcv : Z) (current : action) (context_free : bool) (p : program) : X () :=
  match p with
  | Return => mret ()
  | Trap x => throw x
  | Call c k => a ← host rcv current context_free c; run_program rcv current context_free (k a)
  end.

(** ** Delivering an action *)

Definition check_lists (rcv : Z) (current : action) : X () :=
  if enforcing then
    s ← get_st;
    lift (check_contract_list (nodes (te e)) (conf (cx (tx s))) rcv) ;;
    lift (check_action_list (nodes (te e)) (act_account current) (act_name current))
  else mret ().

(** [find_apply_handler] *)
Definition find_apply_handler (rcv : Z) (current : action) (s : xstate) : option (NC ()) :=
  if (rcv =? config.system_account_name) && (act_account current =? config.system_account_name)
  then native_handler (native_env s) current (act_name current) else None.

(** [native_contracts_apply.cpp] *)
Definition apply_native_contract (current : action) : X () :=
  if act_name current =? Name.N "hello" then _ ← lift (unpack_hello (act_data current)); mret ()
  else throw action_not_found_exception.

Definition apply_code (rcv : Z) (current : action) (context_free : bool) : X () :=
  s ← get_st;
  a ← lift (get_account (the_db s) rcv);
  modify_st (set_q_privileged (ao_privileged a)) ;;
  s ← get_st;
  (match find_apply_handler rcv current s with
   | Some handler => check_lists rcv current ;; on_native handler
   | None => mret ()
   end) ;;
  if act_account current =? native_account_name then apply_native_contract current
  else
    d ← get_the_db;
    a ← lift (get_account d rcv);
    if negb (bool_decide (ao_code a = []))
       && negb ((act_account current =? config.system_account_name) && (act_name current =? Name.N "setcode")
                && (rcv =? config.system_account_name))
    then check_lists rcv current ;; run_program rcv current context_free (contract (ao_code a) rcv current)
    else mret ().

(** ** Sequence numbers *)

Definition next_global_sequence : X Z :=
  modify_st (fun s => mk_xstate (tx s) (tabs s) (next_tab s) (kvs s) (idxs s) (proposed s) (u64 (global_action_sequence s + 1)) (executed s) (q s)) ;;
  gets global_action_sequence.

Definition get_sequence (account : Z) : X account_sequence_object :=
  d ← get_the_db; lift (of_option (sequences d !! account) std_out_of_range).
Definition put_sequence (account : Z) (o : account_sequence_object) : X () :=
  on_native (modify_db (fun d => set_sequences (<[account := o]> (sequences d)) d)).

Definition next_recv_sequence (account : Z) : X Z :=
  o ← get_sequence account;
  put_sequence account (mk_sequence (u64 (recv_sequence o + 1)) (auth_sequence o) (code_sequence o) (abi_sequence o)) ;;
  mret (u64 (recv_sequence o + 1)).
Definition next_auth_sequence (account : Z) : X Z :=
  o ← get_sequence account;
  put_sequence account (mk_sequence (recv_sequence o) (u64 (auth_sequence o + 1)) (code_sequence o) (abi_sequence o)) ;;
  mret (u64 (auth_sequence o + 1)).

Fixpoint auth_sequences (l : list permission_level) (m : gmap Z Z) : X (gmap Z Z) :=
  match l with
  | [] => mret m
  | p :: l => n ← next_auth_sequence (actor p); auth_sequences l (<[actor p := n]> m)
  end.

Definition clear_ram_deltas : NC () :=
  modify_st (fun x => mk_context (db x) (conf x) (used_authorizations x) ∅ (validate_ram_usage x)).

(** [exec_one] *)
Definition exec_one (rcv : Z) (current : action) (context_free : bool) : X () :=
  rethrown (apply_code rcv current context_free) ;;
  g ← next_global_sequence;
  r ← next_recv_sequence rcv;
  o ← get_sequence (act_account current);
  a ← auth_sequences (act_authorization current) ∅;
  modify_st (fun s => mk_xstate (tx s) (tabs s) (next_tab s) (kvs s) (idxs s) (proposed s) (global_action_sequence s)
    (executed s ++ [mk_receipt rcv (action_digest current) g r a (u32 (code_sequence o)) (u32 (abi_sequence o))]) (q s)) ;;
  on_native clear_ram_deltas.

(** ** Running an action and what it causes *)

(** The loop over the accounts to notify, which grow while it runs; the fuel is the
    number of accounts and two more. *)
Fixpoint notify_loop (fuel i : nat) (current : action) (context_free : bool) : X () :=
  s ← get_st;
  match notified (q s) !! i with
  | None => mret ()
  | Some rcv =>
      match fuel with
      | O => throw loop_bound
      | S fuel => exec_one rcv current context_free ;; notify_loop fuel (S i) current context_free
      end
  end.

Definition notify_fuel (s : xstate) : nat := S (S (size (accounts_db (the_db s)))).

(** A new [apply_context]. *)
Definition new_context (rcv : Z) (current : action) : X () :=
  modify_st (fun s => mk_xstate (set_cx (let x := cx (tx s) in
      mk_context (db x) (conf x) (repeat false (length (act_authorization current))) ∅ (validate_ram_usage x)) (tx s))
    (tabs s) (next_tab s) (mk_part (rows (kvs s)) (next_row (kvs s)) empty_cache)
    (mk_part (rows (idxs s)) (next_row (idxs s)) empty_cache) (proposed s)
    (global_action_sequence s) (executed s) (mk_queues [rcv] [] [] false)).

(** [dispatch_action] with [exec]; [depth] is [recurse_depth].  The fuel counts down
    while the depth counts up. *)
Fixpoint dispatch_action (fuel : nat) (current : action) (rcv : Z) (context_free : bool) (depth : Z) : X () :=
  match fuel with
  | O => throw loop_bound
  | S fuel =>
      new_context rcv current ;;
      s ← get_st;
      notify_loop (notify_fuel s) 0 current context_free ;;
      s ← get_st;
      let cfa := cfa_inline_actions (q s) in
      let inl := inline_actions (q s) in
      (if negb (bool_decide (cfa = [])) || negb (bool_decide (inl = [])) then
         st_assert (depth <? max_inline_action_depth (cfg (tx s))) transaction_exception
       else mret ()) ;;
      for_each (fun a => dispatch_action fuel a (act_account a) true (depth + 1)) cfa ;;
      for_each (fun a => dispatch_action fuel a (act_account a) false (depth + 1)) inl
  end.

(** The depth is 16 bits wide. *)
Definition depth_fuel : nat := N.to_nat 65537.

(** [transaction_context::exec] *)
Definition exec : X () :=
  s ← get_st;
  st_assert (is_initialized (tx s)) transaction_exception ;;
  let t := trx (te e) in
  (if apply_context_free (tx s)
   then for_each (fun a => dispatch_action depth_fuel a (act_account a) true 0) (context_free_actions t) else mret ()) ;;
  s ← get_st;
  if delay (tx s) =? 0 then for_each (fun a => dispatch_action depth_fuel a (act_account a) false 0) (actions t)
  else on_tx (schedule_transaction (te e) pack).
End Exec.

(** ** What contracts cannot change

    An invariant of the database, of the queues and of the configuration that the
    steps below keep is kept by every program of a contract. *)

Section Lifting.
Context (I : database → Prop) (J : queues → Prop) (K : chain_config → Prop).

Definition keeps_db {A} (m : NC A) : Prop := preserves (fun x => I (db x)) m.

Record stable : Prop := mk_stable
  { st_ram : ∀ a d, keeps_db (add_ram_usage a d);
    st_gtrxs : ∀ d g, I d → I (set_gtrxs g d);
    st_pending : ∀ d m, I d → I (set_rl (ResourceLimits.set_pending m (limits d)) d);
    st_account : ∀ d a v, is_Some (accounts_db d !! a) → I d → I (set_accounts (<[a := v]> (accounts_db d)) d);
    st_sequence : ∀ d a v, I d → I (set_sequences (<[a := v]> (sequences d)) d);
    st_inline : ∀ u l, J u → J (mk_queues (notified u) l (cfa_inline_actions u) (q_privileged u));
    st_cfa : ∀ u l, J u → J (mk_queues (notified u) (inline_actions u) l (q_privileged u));
    st_priv : ∀ u b, J u → J (mk_queues (notified u) (inline_actions u) (cfa_inline_actions u) b);
    st_notify : ∀ u r, r ∉ notified u → J u →
      J (mk_queues (notified u ++ [r]) (inline_actions u) (cfa_inline_actions u) (q_privileged u));
    st_config : ∀ c, K (unpacked_config c) }.

Definition holds_at (s : xstate) : Prop := I (the_db s) ∧ J (q s) ∧ K (cfg (tx s)).
Definition tables_hold (s : tstate) : Prop := I (db (ctx s)).

Lemma pres_on_cx {A} (m : NC A) : keeps_db m → preserves (fun t => I (db (cx t)) ∧ K (cfg t)) (on_cx m).
Proof. intros Hm t a t' (x & H & ->)%on_cx_ok [H1 H2]. split; [exact (Hm _ _ _ H H1)|done]. Qed.
Lemma pres_on_tx {A} (m : TX A) : preserves (fun t => I (db (cx t)) ∧ K (cfg t)) m → preserves holds_at (on_tx m).
Proof.
  intros Hm s a s' H (H1 & H2 & H3). unfold on_tx in H. destruct (m (tx s)) as [r t] eqn:E. injection H as -> <-.
  destruct (Hm _ _ _ E (conj H1 H3)). by split.
Qed.
Lemma pres_on_native {A} (m : NC A) : keeps_db m → preserves holds_at (on_native m).
Proof. intros Hm. by apply pres_on_tx, pres_on_cx. Qed.
Lemma pres_on_tables {A} (m : TC A) : preserves tables_hold m → preserves holds_at (on_tables m).
Proof.
  intros Hm s a s' H (H1 & H2 & H3). unfold on_tables in H. destruct (m (tstate_of s)) as [r t] eqn:E. injection H as -> <-.
  split; [exact (Hm _ _ _ E H1)|done].
Qed.
Lemma pres_on_ctx {A} (m : NC A) : keeps_db m → preserves tables_hold (on_ctx m).
Proof.
  intros Hm s a s' H. unfold on_ctx in H. destruct (m (ctx s)) as [r x] eqn:E. injection H as -> <-. by apply Hm in E.
Qed.
Lemma pres_on_kv {A} (m : ST (part bytes) exn A) : preserves tables_hold (on_kv m).
Proof. intros s a s' H. unfold on_kv in H. destruct (m (kv s)) as [r p]. by injection H as -> <-. Qed.
Lemma pres_on_idx {A} (m : ST (part Z) exn A) : preserves tables_hold (on_idx m).
Proof. intros s a s' H. unfold on_idx in H. destruct (m (idx s)) as [r p]. by injection H as -> <-. Qed.

Lemma same_db_keeps (m : NC ()) : (∀ x u x', m x = (Ok u, x') → db x' = db x) → keeps_db m.
Proof. intros Hm x u x' H. by rewrite (Hm _ _ _ H). Qed.
Lemma require_auth_keeps act a : keeps_db (require_authorization act a).
Proof. apply same_db_keeps. intros x u x' H. by apply require_authorization_db in H. Qed.
Lemma require_auth2_keeps act a p : keeps_db (require_authorization2 act a p).
Proof.
  apply same_db_keeps. unfold require_authorization2. intros x u x' H. destruct (list_find _ _) as [[]|]; by simpl_ok.
Qed.
Lemma must_validate_keeps a : keeps_db (must_validate_ram a).
Proof. by apply same_db_keeps; intros x u x' [= <- <-]. Qed.

Lemma pres_queue (f : queues → queues) : (∀ u, J u → J (f u)) → preserves holds_at (modify_st (fun s => set_q (f (q s)) s) : X ()).
Proof. intros Hf. apply pres_modify. intros s (H1 & H2 & H3). split; [done|]. split; [by apply Hf|done]. Qed.

Context (Hst : stable).

Lemma pres_update_usage c payer d : preserves tables_hold (update_db_usage c payer d).
Proof using Hst.
  unfold update_db_usage. pres idtac; apply pres_on_ctx; [apply require_auth_keeps|by apply st_ram].
Qed.
Lemma pres_the_table tid : preserves tables_hold (the_table tid).
Proof. unfold the_table. pres idtac. Qed.
Lemma pres_change_count d tid : preserves tables_hold (change_count d tid).
Proof. unfold change_count. pres ltac:(done). apply pres_the_table. Qed.
Lemma pres_find_or_create c code scope table payer : preserves tables_hold (find_or_create_table c code scope table payer).
Proof using Hst. unfold find_or_create_table. pres ltac:(done). apply pres_update_usage. Qed.
Lemma pres_own_table {D} c (p : part D) tid : preserves tables_hold (own_table c p tid).
Proof. unfold own_table. pres idtac. apply pres_the_table. Qed.
Lemma pres_drop c tid m : preserves tables_hold m → preserves tables_hold (drop_from_table c tid m).
Proof using Hst.
  intros Hm. unfold drop_from_table, remove_table. pres ltac:(done); try apply pres_the_table;
    [apply pres_change_count|exact Hm|apply pres_update_usage].
Qed.

Lemma pres_exec_call c t : preserves tables_hold (exec_call c t).
Proof using Hst.
  destruct t; cbn [exec_call];
  unfold iterator_of, done_with, db_store_i64, db_store_i64_in, db_update_i64, db_remove_i64, db_get_i64, db_next_i64,
    db_previous_i64, db_find_i64, db_lowerbound_i64, db_upperbound_i64, db_end_i64, idx_store, idx_update, idx_remove,
    next_secondary, previous_secondary, find_secondary, lowerbound_secondary, upperbound_secondary, end_secondary,
    next_primary, previous_primary, find_primary, lowerbound_primary, upperbound_primary.
  all: pres ltac:(done).
  all: first [apply pres_update_usage|apply pres_on_kv|apply pres_on_idx|apply pres_the_table|apply pres_own_table
             |apply pres_change_count|apply pres_find_or_create|apply pres_drop; first [apply pres_on_kv|apply pres_on_idx]].
Qed.

(** The answer of a table call is that of the call, with the keys it writes. *)
Lemma table_answer_call c t s r s' : table_answer c t s = (Ok r, s') → exec_call c t s = (Ok r.1, s').
Proof.
  destruct t; cbn [table_answer exec_call]; unfold with_keys, iterator_of; intros H.
  all: try (apply st_bind_ok in H as (a & s1 & H1 & H); injection H as <- <-; unfold mbind, st_bind; rewrite H1; done).
  - unfold mbind, st_bind. by rewrite H.
  - apply st_bind_ok in H as (a & s1 & H & [= <- <-]). exact H.
  - apply st_bind_ok in H as (a & s1 & H & [= <- <-]). exact H.
Qed.

Lemma pres_table_answer c t : preserves tables_hold (table_answer c t).
Proof using Hst. intros s r s' H%table_answer_call. by apply pres_exec_call in H. Qed.

Lemma gtrxs_keeps f : keeps_db (modify_db (fun d => set_gtrxs (f d) d)).
Proof using Hst. apply pres_modify. intros x Hw. by apply (st_gtrxs Hst). Qed.
Lemma cancel_keeps i sender : keeps_db (cancel_deferred_transaction i sender).
Proof using Hst.
  unfold keeps_db, cancel_deferred_transaction, get_db. pres idtac; [by apply (st_ram Hst)|apply gtrxs_keeps].
Qed.
Lemma create_generated_keeps id g : keeps_db (create_generated id g).
Proof using Hst. unfold keeps_db, create_generated, get_db. pres idtac. apply gtrxs_keeps. Qed.

Lemma set_limits_keeps a r n c : keeps_db (set_resource_limits a r n c).
Proof using Hst.
  unfold keeps_db, set_resource_limits. pres idtac; [|apply must_validate_keeps].
  intros x d x' H Hx. unfold on_limits, ResourceLimits.set_account_limits, ResourceLimits.get_row in H.
  unfold mbind, st_bind, get_st, mret, st_ret, lift, of_option, modify_st, put_st in H.
  destruct (ResourceLimits.pending_limits (limits (db x)) !! a) as [l|]; [|destruct (ResourceLimits.actual_limits (limits (db x)) !! a); [|done]].
  - injection H as _ <-. apply (st_pending Hst (db x)). exact Hx.
  - injection H as _ <-. apply (st_pending Hst (db x)). exact Hx.
Qed.
Lemma set_privileged_keeps a b : keeps_db (set_privileged a b).
Proof using Hst.
  unfold keeps_db, set_privileged, get_db, modify_db. intros x u x' H Hw. simpl_ok. apply (st_account Hst (db x)); [|done].
  by eapply get_account_ok.
Qed.

Lemma pres_add_net e u : preserves (fun t => I (db (cx t)) ∧ K (cfg t)) (add_net_usage e u).
Proof. unfold add_net_usage. pres ltac:(done). Qed.

Lemma pres_require_recipient r : preserves holds_at (require_recipient r).
Proof using Hst.
  apply pres_modify. intros s (H1 & H2 & H3). destruct (existsb _ _) eqn:E; [done|]. split; [done|]. split; [|done].
  apply (st_notify Hst (q s)); [|done]. intros Hin. apply not_true_iff_false in E. apply E.
  apply existsb_exists. exists r. split; [by apply list_elem_of_In|apply Z.eqb_refl].
Qed.

Context `{M : Machine} (e : exec_env).

Lemma pres_perform rcv current c : preserves holds_at (perform e rcv current c).
Proof using Hst.
  destruct c; cbn [perform]; unfold nothing, execute_inline, execute_context_free_inline,
    schedule_deferred_transaction, check_deferred, set_proposed_producers, propose, get_the_db.
  all: pres ltac:(done).
  all: try apply pres_on_native.
  all: try first [apply require_auth_keeps|apply require_auth2_keeps|by apply (st_ram Hst)|apply create_generated_keeps
                 |apply gtrxs_keeps|apply cancel_keeps|apply set_limits_keeps|apply must_validate_keeps
                 |apply set_privileged_keeps|apply pres_require_recipient].
  all: try (apply pres_on_tx; apply pres_add_net).
  all: try (apply pres_on_tables; apply pres_table_answer).
  - apply (pres_queue (fun u => mk_queues (notified u) (inline_actions u ++ [a]) (cfa_inline_actions u) (q_privileged u))).
    intros u. by apply (st_inline Hst).
  - apply (pres_queue (fun u => mk_queues (notified u) (inline_actions u) (cfa_inline_actions u ++ [a]) (q_privileged u))).
    intros u. by apply (st_cfa Hst).
  - apply pres_on_tx. unfold set_blockchain_parameters. pres ltac:(idtac).
    apply pres_modify. intros t [H1 _]. split; [done|]. apply (st_config Hst).
Qed.

Lemma pres_run_program rcv current free p : preserves holds_at (run_program e rcv current free p).
Proof using Hst.
  induction p as [|x|c k IH]; cbn [run_program]; [apply pres_ret|apply pres_throw|].
  apply pres_bind; [|exact IH]. unfold host. pres idtac. apply pres_perform.
Qed.

Lemma pres_rethrown {A} (P : xstate → Prop) (m : X A) : preserves P m → preserves P (rethrown m).
Proof.
  intros Hm s a s' H. unfold rethrown in H. destruct (m s) as [[b|x] s1] eqn:E; [|done]. injection H as -> ->. by apply Hm in E.
Qed.

Lemma pres_check_lists (P : xstate → Prop) rcv current : preserves P (check_lists e rcv current).
Proof. unfold check_lists. pres idtac. Qed.

(** The handler is the only part of [apply_code] that may do more than a contract. *)
Lemma pres_apply_code rcv current free :
  (∀ s m, find_apply_handler e rcv current s = Some m → keeps_db m) →
  preserves holds_at (apply_code e rcv current free).
Proof using Hst.
  intros Hh. unfold apply_code, apply_native_contract, get_the_db. pres idtac.
  all: try apply pres_check_lists; try apply pres_run_program.
  - apply (pres_queue (fun u => mk_queues (notified u) (inline_actions u) (cfa_inline_actions u) (ao_privileged a))).
    intros u. by apply (st_priv Hst).
  - apply pres_on_native. by eapply Hh.
Qed.

Lemma pres_put_sequence a o : preserves holds_at (put_sequence a o).
Proof using Hst. apply pres_on_native, pres_modify. intros x Hw. by apply (st_sequence Hst). Qed.

Lemma pres_auth_sequences l m : preserves holds_at (auth_sequences l m).
Proof using Hst.
  revert m. induction l as [|p l IH]; intros m; cbn [auth_sequences]; [apply pres_ret|].
  unfold next_auth_sequence, get_sequence, get_the_db. pres idtac; [apply pres_put_sequence|apply IH].
Qed.

Lemma pres_exec_one rcv current free :
  (∀ s m, find_apply_handler e rcv current s = Some m → keeps_db m) →
  preserves holds_at (exec_one e rcv current free).
Proof using Hst.
  intros Hh. unfold exec_one, next_global_sequence, next_recv_sequence, get_sequence, get_the_db. pres ltac:(done).
  - by apply pres_rethrown, pres_apply_code.
  - apply pres_put_sequence.
  - apply pres_auth_sequences.
  - by apply pres_on_native, same_db_keeps; intros x u x' [= <- <-].
Qed.

Context (Hfresh : ∀ r, J (mk_queues [r] [] [] false)).
Context (Hnative : ∀ env current m, native_handler env current (act_name current) = Some m → keeps_db m).

Lemma handler_keeps rcv current s m : find_apply_handler e rcv current s = Some m → keeps_db m.
Proof using Hnative. unfold find_apply_handler. destruct (_ && _); [|done]. apply Hnative. Qed.

Lemma pres_notify_loop fuel : ∀ i current free, preserves holds_at (notify_loop e fuel i current free).
Proof using Hst Hnative.
  induction fuel as [|fuel IH]; intros i current free; cbn [notify_loop]; pres idtac; [|apply IH].
  apply pres_exec_one. apply handler_keeps.
Qed.

Lemma pres_new_context rcv current : preserves holds_at (new_context rcv current).
Proof using Hfresh. apply pres_modify. intros s (H1 & H2 & H3). split; [done|]. split; [apply Hfresh|done]. Qed.

Lemma pres_dispatch fuel : ∀ current rcv free depth, preserves holds_at (dispatch_action e fuel current rcv free depth).
Proof using Hst Hnative Hfresh.
  induction fuel as [|fuel IH]; intros current rcv free depth; cbn [dispatch_action]; [apply pres_throw|].
  pres idtac; [apply pres_new_context|apply pres_notify_loop|apply IH|apply IH].
Qed.

Lemma note_ram_usage_db a d t u t' : note_ram_usage a d t = (Ok u, t') →
  cfg t' = cfg t ∧ ∃ x, add_ram_usage a d (cx t) = (Ok (), x) ∧ db (cx t') = db x.
Proof.
  intros Hn. unfold note_ram_usage in Hn. apply st_bind_ok in Hn as ([] & t1 & H1 & H2).
  unfold on_rl in H1. apply on_cx_ok in H1 as (x & H1 & ->).
  assert (cfg t' = cfg t ∧ db (cx t') = db x) as [Ec Ed] by (destruct (0 <? d); by simpl_ok).
  split; [done|]. eexists. unfold add_ram_usage, mbind, st_bind. rewrite H1. split; [reflexivity|]. by rewrite Ed.
Qed.

Lemma pres_schedule p : preserves (fun t => I (db (cx t)) ∧ K (cfg t)) (schedule_transaction (te e) p).
Proof using Hst.
  unfold schedule_transaction. pres idtac; [apply pres_add_net|apply pres_on_cx, create_generated_keeps|].
  intros t u t' (Ec & x & Hx & Ed)%note_ram_usage_db [H1 H2]. rewrite Ec, Ed. split; [|done]. exact (st_ram Hst _ _ _ _ _ Hx H1).
Qed.

Lemma pres_exec : preserves holds_at (exec e).
Proof using Hst Hnative Hfresh.
  unfold exec. pres idtac; [apply pres_dispatch|apply pres_dispatch|apply pres_on_tx, pres_schedule].
Qed.
End Lifting.

(** ** The chain stays well formed *)

Definition any {A} (_ : A) : Prop := True.

Lemma chain_stable : stable chain_wf any any.
Proof.
  constructor; try done.
  - intros a d x u x' H. by eapply add_ram_usage_wf.
  - intros d g Hw. by apply (chain_wf_same _ _ Hw).
  - intros d m Hw. apply (chain_wf_mono _ _ Hw); cbn; try apply Hw; auto.
  - intros d a v Ha Hw. by apply chain_wf_account.
  - intros d a v Hw. by apply chain_wf_sequence.
Qed.

Lemma native_chain_wf `{Machine} env current m :
  (∀ b u, unpack_updateauth b = Ok u → fields_typed (ua_auth u)) →
  (∀ b n, unpack_newaccount b = Ok n → fields_typed (na_owner n) ∧ fields_typed (na_active n)) →
  native_handler env current (act_name current) = Some m → keeps_db chain_wf m.
Proof.
  intros Hua Hna Hm x [] x' Hx Hw. pose proof (run_natives_wf [(env, current)] x Hua Hna Hw) as Hr.
  unfold run_natives, run_native, run in Hr. cbn [foldl fst snd] in Hr. by rewrite Hm, Hx in Hr.
Qed.

(** Whatever the contracts do, running the actions of a transaction keeps the
    chain state sound: accounts keep their owner and active permissions, their
    sequence numbers and their limits, and permissions stay a forest of named and
    typed objects.  Unpacked authorities have fields of their width. *)
Theorem execution_keeps_chain `{Machine} (e : exec_env) (s s' : xstate) :
  (∀ b u, unpack_updateauth b = Ok u → fields_typed (ua_auth u)) →
  (∀ b n, unpack_newaccount b = Ok n → fields_typed (na_owner n) ∧ fields_typed (na_active n)) →
  chain_wf (the_db s) → exec e s = (Ok (), s') → chain_wf (the_db s').
Proof.
  intros Hua Hna Hw Hx. eapply (pres_exec chain_wf any any chain_stable e); [done| |exact Hx|done].
  intros env current m Hm. by eapply native_chain_wf.
Qed.

(** ** Running ends

    An action can create at most one account, whatever its receivers do, and each
    receiver is an account, notified once. *)

Definition accounts (x : context) : gset Z := dom (accounts_db (db x)).

Section Accounts.
Context (D : gset Z) (n : Z).

(** The accounts are those of [D] and perhaps [n]. *)
Definition within (d : database) : Prop := D ⊆ dom (accounts_db d) ∧ dom (accounts_db d) ⊆ {[n]} ∪ D.

Lemma within_put d a v : a ∈ {[n]} ∪ D → within d → within (set_accounts (<[a := v]> (accounts_db d)) d).
Proof. intros Ha [H1 H2]. unfold within. cbn. rewrite dom_insert_L. set_solver. Qed.
Lemma within_account d a o : within d → get_account d a = Ok o → a ∈ {[n]} ∪ D.
Proof. intros [_ H] Ha%get_account_ok%elem_of_dom. set_solver. Qed.

Lemma within_ram a d : keeps_db within (add_ram_usage a d).
Proof. intros x u x' (l & Hd & _)%add_ram_usage_frame Hx. by rewrite Hd. Qed.

Lemma within_stable J K : (∀ u l, J u → J (mk_queues (notified u) l (cfa_inline_actions u) (q_privileged u))) →
  (∀ u l, J u → J (mk_queues (notified u) (inline_actions u) l (q_privileged u))) →
  (∀ u b, J u → J (mk_queues (notified u) (inline_actions u) (cfa_inline_actions u) b)) →
  (∀ u r, r ∉ notified u → J u → J (mk_queues (notified u ++ [r]) (inline_actions u) (cfa_inline_actions u) (q_privileged u))) →
  (∀ c, K (unpacked_config c)) → stable within J K.
Proof.
  intros. constructor; try done; [apply within_ram|].
  intros d a v Ha%elem_of_dom Hd. apply within_put; [|done]. destruct Hd. set_solver.
Qed.

Lemma within_on_auth {A} (m : ST auth_db exn A) : keeps_db within (on_auth m).
Proof. intros x a x' [_ ->]%on_auth_ok Hx. exact Hx. Qed.
Lemma within_on_limits {A} (m : ST ResourceLimits.rl_db exn A) : keeps_db within (on_limits m).
Proof. intros x a x' H. unfold on_limits in H. destruct (m _). by injection H as -> <-. Qed.
Lemma within_captured {A} (m : NC A) : keeps_db within m → keeps_db within (captured m).
Proof. intros Hm x a x' H%captured_ok. by apply Hm in H. Qed.
Lemma within_modify_db f : (∀ d, within d → within (f d)) → keeps_db within (modify_db f).
Proof. intros Hf. apply pres_modify. intros x. apply Hf. Qed.
Lemma within_get_db {B} (f : database → NC B) :
  (∀ d, within d → keeps_db within (f d)) → keeps_db within (get_db ≫= f).
Proof. intros Hf x b x' (d & x1 & [= <- <-] & H)%st_bind_ok Hx. by eapply Hf. Qed.
Lemma within_lift {A B} (r : R A) (f : A → NC B) :
  (∀ a, r = Ok a → keeps_db within (f a)) → keeps_db within (lift r ≫= f).
Proof. intros Hf x b x' (a & x1 & [Ha <-]%lift_ok & H)%st_bind_ok Hx. by eapply Hf. Qed.

(** Walks through a native handler. *)
Ltac native_walk :=
  repeat first
  [ apply within_ram | apply within_on_auth | apply within_on_limits | apply within_captured | apply require_auth_keeps
  | apply within_modify_db; intros ? ?;
      first [apply within_put; [eapply within_account; [|eassumption]; eassumption|done] | done]
  | apply within_get_db; intros ? ? | apply within_lift; intros ? ? | apply pres_bind; [|intros ?] | apply pres_ret
  | apply pres_throw | apply pres_lift | apply pres_assert
  | match goal with |- preserves _ (match ?x with _ => _ end) => destruct x end
  | match goal with |- keeps_db _ (match ?x with _ => _ end) => destruct x end ].

Context `{NativeEnv} (env : block_env) (act : action).

Lemma setcode_within : keeps_db within (apply_system_native_setcode env act).
Proof. unfold apply_system_native_setcode. native_walk. Qed.
Lemma setabi_within : keeps_db within (apply_system_native_setabi env act).
Proof. unfold apply_system_native_setabi. native_walk. Qed.
Lemma updateauth_within : keeps_db within (apply_system_native_updateauth env act).
Proof. unfold apply_system_native_updateauth, apply_update. native_walk. Qed.
Lemma deleteauth_within : keeps_db within (apply_system_native_deleteauth act).
Proof. unfold apply_system_native_deleteauth. native_walk. Qed.
Lemma linkauth_within : keeps_db within (apply_system_native_linkauth act).
Proof. unfold apply_system_native_linkauth, apply_link. native_walk. Qed.
Lemma unlinkauth_within : keeps_db within (apply_system_native_unlinkauth act).
Proof. unfold apply_system_native_unlinkauth. native_walk. Qed.
Lemma canceldelay_within : keeps_db within (apply_system_native_canceldelay act).
Proof. unfold apply_system_native_canceldelay, cancel_deferred_transaction. native_walk. Qed.
Lemma setconfig_within : keeps_db within (apply_system_native_setconfig act).
Proof.
  unfold apply_system_native_setconfig, set_list_config_on_chain, set_guaranteed_minimum_config, set_gmr_config,
    set_name_list, sync_name_list, set_config_on_chain, set_num_config_on_chain.
  native_walk; by apply pres_modify.
Qed.
Lemma newaccount_within :
  (∀ c, data_as (Name.N "newaccount") unpack_newaccount act = Ok c → na_name c = n) →
  keeps_db within (apply_system_native_newaccount env act).
Proof.
  intros Hn. unfold apply_system_native_newaccount, create_account. native_walk.
  apply within_modify_db. intros d0 Hd. apply within_put; [|done]. rewrite Hn by done. set_solver.
Qed.

Lemma native_within m :
  (∀ c, data_as (Name.N "newaccount") unpack_newaccount act = Ok c → na_name c = n) →
  native_handler env act (act_name act) = Some m → keeps_db within m.
Proof.
  intros Hn. unfold native_handler.
  repeat (destruct (_ =? _); [intros [= <-]|]); [by apply newaccount_within|apply setcode_within|apply setabi_within
    |apply updateauth_within|apply deleteauth_within|apply linkauth_within|apply unlinkauth_within|apply canceldelay_within
    |apply setconfig_within|done].
Qed.
End Accounts.

Section Termination.
Context `{Machine} (e : exec_env).

(** The account an action may create. *)
Definition created (current : action) : Z :=
  match data_as (Name.N "newaccount") unpack_newaccount current with Ok c => na_name c | Err _ => 0 end.

(** The accounts to notify are distinct, and [l] are the first of them. *)
Definition extends (l : list Z) (u : queues) : Prop := NoDup (notified u) ∧ l `prefix_of` notified u.

Lemma extends_stable D n l : stable (within D n) (extends l) any.
Proof.
  apply within_stable; try done. intros u r Hr [H1 H2]. split; cbn.
  - apply NoDup_app. split; [done|]. split; [set_solver|apply NoDup_singleton].
  - by apply prefix_app_r.
Qed.

Lemma exec_one_receiver rcv current free s s' : exec_one e rcv current free s = (Ok (), s') → is_Some (accounts_db (the_db s) !! rcv).
Proof.
  unfold exec_one. intros (u & s1 & H1 & _)%st_bind_ok. unfold rethrown in H1.
  destruct (apply_code _ _ _ _ s) as [[v|x] s2] eqn:E; [|done]. unfold apply_code in E.
  apply st_bind_ok in E as (s3 & s4 & [= <- <-] & E). apply st_bind_ok in E as (a & s3 & [E1 <-]%lift_ok & _).
  by eapply get_account_ok.
Qed.

(** Each step keeps the accounts within those at the start and the one the action
    creates, and the receiver was one of them. *)
Lemma exec_one_step D rcv current free s s' l :
  within D (created current) (the_db s) → extends l (q s) → exec_one e rcv current free s = (Ok (), s') →
  within D (created current) (the_db s') ∧ extends l (q s') ∧ rcv ∈ {[created current]} ∪ D.
Proof.
  intros Hd Hq Hx.
  assert (holds_at (within D (created current)) (extends l) any s') as (H1 & H2 & _).
  { eapply (pres_exec_one _ _ _ (extends_stable D (created current) l)); [|exact Hx|by split].
    intros s0 m. unfold find_apply_handler. destruct (_ && _); [|done]. apply native_within.
    unfold created. intros c ->. done. }
  split; [done|]. split; [done|]. apply exec_one_receiver, elem_of_dom in Hx. destruct Hd. set_solver.
Qed.

Lemma receivers_bound (D : gset Z) n l : NoDup l → (∀ r, r ∈ l → r ∈ {[n]} ∪ D) → (length l ≤ S (size D))%nat.
Proof.
  intros Hl Hin. rewrite <- (size_list_to_set (C := gset Z) l) by done.
  transitivity (size ({[n]} ∪ D)); [apply subseteq_size; set_solver|]. rewrite size_union_alt, size_singleton.
  assert (size (D ∖ {[n]}) ≤ size D)%nat by (apply subseteq_size; set_solver). lia.
Qed.

(** The loop over the receivers, without a bound. *)
Inductive notifies (current : action) (free : bool) : nat → xstate → R () → xstate → Prop :=
| notifies_end i s : notified (q s) !! i = None → notifies current free i s (Ok ()) s
| notifies_throw i s rcv x s' :
    notified (q s) !! i = Some rcv → exec_one e rcv current free s = (Err x, s') → notifies current free i s (Err x) s'
| notifies_next i s rcv s1 r s' :
    notified (q s) !! i = Some rcv → exec_one e rcv current free s = (Ok (), s1) →
    notifies current free (S i) s1 r s' → notifies current free i s r s'.

Lemma notify_total D current free fuel : ∀ i s r s',
  within D (created current) (the_db s) → NoDup (notified (q s)) →
  (∀ a, a ∈ take i (notified (q s)) → a ∈ {[created current]} ∪ D) →
  (S (size D) < fuel + i)%nat → (i ≤ length (notified (q s)))%nat →
  notify_loop e fuel i current free s = (r, s') → notifies current free i s r s'.
Proof.
  induction fuel as [|fuel IH]; intros i s r s' Hd Hn Hi Hf Hl Hx.
  - pose proof (sublist_NoDup _ _ Hn (sublist_take _ i)) as Ht. pose proof (receivers_bound D (created current) _ Ht Hi) as Hb.
    rewrite length_take in Hb. lia.
  - cbn [notify_loop] in Hx. unfold mbind, st_bind, get_st in Hx.
    destruct (notified (q s) !! i) as [rcv|] eqn:E; [|injection Hx as <- <-; by constructor].
    destruct (exec_one e rcv current free s) as [[[]|x] s1] eqn:Ex; [|injection Hx as <- <-; by econstructor].
    assert (extends (notified (q s)) (q s)) as Hq by (split; [done|reflexivity]).
    destruct (exec_one_step D rcv current free s s1 _ Hd Hq Ex) as (Hd' & [Hn' [l Hp]] & Hr).
    apply lookup_lt_Some in E as Hlt. eapply notifies_next; [done..|].
    apply IH; [done|done| |lia|rewrite Hp, length_app; lia|done].
    intros a. rewrite Hp, take_app_le by lia. rewrite (take_S_r _ _ _ E). intros [Ha|Ha]%elem_of_app; [by apply Hi|].
    by apply list_elem_of_singleton in Ha as ->.
Qed.

(** In a new context the fuel is enough for all receivers. *)
Lemma notify_fuel_enough current free s r s' : (∃ a, notified (q s) = [a]) →
  notify_loop e (notify_fuel s) 0 current free s = (r, s') → notifies current free 0 s r s'.
Proof.
  intros [a Ha]. apply (notify_total (dom (accounts_db (the_db s)))).
  - split; [done|]. set_solver.
  - rewrite Ha. apply NoDup_singleton.
  - rewrite take_0. intros b []%not_elem_of_nil.
  - unfold notify_fuel. rewrite size_dom. lia.
  - lia.
Qed.

(** The inline actions in the order they run, with whether they are context-free. *)
Definition sent (s : xstate) : list (action * bool) :=
  map (fun a => (a, true)) (cfa_inline_actions (q s)) ++ map (fun a => (a, false)) (inline_actions (q s)).

(** Running an action, without a bound. *)
Inductive runs : action → Z → bool → Z → xstate → R () → xstate → Prop :=
| runs_throw current rcv free depth s x s' :
    notifies current free 0 (new_context rcv current s).2 (Err x) s' → runs current rcv free depth s (Err x) s'
| runs_too_deep current rcv free depth s s' :
    notifies current free 0 (new_context rcv current s).2 (Ok ()) s' → sent s' ≠ [] →
    ¬ depth < max_inline_action_depth (cfg (tx s')) → runs current rcv free depth s (Err transaction_exception) s'
| runs_sent current rcv free depth s s1 r s' :
    notifies current free 0 (new_context rcv current s).2 (Ok ()) s1 →
    (sent s1 = [] ∨ depth < max_inline_action_depth (cfg (tx s1))) →
    runs_all (depth + 1) (sent s1) s1 r s' → runs current rcv free depth s r s'
with runs_all : Z → list (action * bool) → xstate → R () → xstate → Prop :=
| all_done depth s : runs_all depth [] s (Ok ()) s
| all_throw depth a free l s x s' :
    runs a (act_account a) free depth s (Err x) s' → runs_all depth ((a, free) :: l) s (Err x) s'
| all_next depth a free l s s1 r s' :
    runs a (act_account a) free depth s (Ok ()) s1 → runs_all depth l s1 r s' → runs_all depth ((a, free) :: l) s r s'.

(** The configuration read back has a 16-bit depth. *)
Definition depth16 (c : chain_config) : Prop := max_inline_action_depth c < 65536.

Lemma depth_stable : stable any any depth16.
Proof. constructor; try done. intros c. unfold depth16. cbn. apply (Z.mod_pos_bound _ (2 ^ 16)). lia. Qed.

Lemma pres_depth_dispatch fuel current rcv free depth :
  preserves (holds_at any any depth16) (dispatch_action e fuel current rcv free depth).
Proof. by apply (pres_dispatch _ _ _ depth_stable). Qed.

Lemma for_each_map {A B} (f : B → X ()) (g : A → B) l : for_each f (map g l) = for_each (fun a => f (g a)) l.
Proof. induction l as [|a l IH]; cbn [for_each map]; [done|]. by rewrite IH. Qed.

Lemma runs_each fuel depth (l : list (action * bool)) : ∀ s r s',
  (∀ a free s r s', depth16 (cfg (tx s)) → dispatch_action e fuel a (act_account a) free depth s = (r, s') →
     runs a (act_account a) free depth s r s') →
  depth16 (cfg (tx s)) → for_each (fun a => dispatch_action e fuel a.1 (act_account a.1) a.2 depth) l s = (r, s') →
  runs_all depth l s r s'.
Proof.
  induction l as [|[a free] l IH]; intros s r s' Ha Hs Hx; cbn [for_each fst snd] in Hx.
  - injection Hx as <- <-. constructor.
  - unfold mbind, st_bind in Hx. destruct (dispatch_action e fuel a (act_account a) free depth s) as [[[]|x] s1] eqn:E.
    + eapply all_next; [by apply Ha|]. apply IH; [done| |done]. by apply (pres_depth_dispatch _ _ _ _ _ _ _ _ E).
    + injection Hx as <- <-. by apply all_throw, Ha.
Qed.

(** The part of [exec] after the receivers. *)
Definition send_inline (fuel : nat) (depth : Z) (cfa inl : list action) : X () :=
  s ← get_st;
  (if negb (bool_decide (cfa = [])) || negb (bool_decide (inl = [])) then
     st_assert (depth <? max_inline_action_depth (cfg (tx s))) transaction_exception
   else mret ()) ;;
  for_each (fun a => dispatch_action e fuel a (act_account a) true (depth + 1)) cfa ;;
  for_each (fun a => dispatch_action e fuel a (act_account a) false (depth + 1)) inl.

Lemma send_inline_cases fuel depth s :
  send_inline fuel depth (cfa_inline_actions (q s)) (inline_actions (q s)) s =
  if decide (sent s = [] ∨ depth < max_inline_action_depth (cfg (tx s)))
  then for_each (fun a => dispatch_action e fuel a.1 (act_account a.1) a.2 (depth + 1)) (sent s) s
  else (Err transaction_exception, s).
Proof.
  unfold sent, send_inline.
  generalize (cfa_inline_actions (q s)) (inline_actions (q s)); intros cfa inl.
  assert (negb (bool_decide (cfa = [])) || negb (bool_decide (inl = [])) =
    negb (bool_decide (map (λ a, (a, true)) cfa ++ map (λ a, (a, false)) inl = []))) as Hb by (by destruct cfa, inl).
  rewrite Hb, for_each_app, !for_each_map. clear Hb. destruct (decide _) as [Hc|Hc]; unfold mbind, st_bind, get_st; cbn [fst snd].
  - destruct Hc as [Hc|Hc]; [by rewrite (bool_decide_true _ Hc)|].
    destruct (negb _); [|reflexivity].
    by rewrite (proj2 (Z.ltb_lt _ _) Hc).
  - apply Decidable.not_or in Hc as [H1 H2]. rewrite bool_decide_false by done. cbn [negb].
    by rewrite (proj2 (Z.ltb_nlt _ _) H2).
Qed.

Lemma dispatch_total fuel : ∀ current rcv free depth s r s',
  depth16 (cfg (tx s)) → depth ≤ 65536 → 65536 < depth + Z.of_nat fuel →
  dispatch_action e fuel current rcv free depth s = (r, s') → runs current rcv free depth s r s'.
Proof.
  induction fuel as [|fuel IH]; intros current rcv free depth s r s' Hs Hd Hf Hx; [lia|].
  cbn [dispatch_action] in Hx.
  change ((notify_loop e (notify_fuel (new_context rcv current s).2) 0 current free ;;
           s ← get_st; send_inline fuel depth (cfa_inline_actions (q s)) (inline_actions (q s)))
          (new_context rcv current s).2 = (r, s')) in Hx.
  unfold mbind at 1, st_bind at 1 in Hx. destruct (notify_loop _ _ _ _ _ _) as [[[]|x] s1] eqn:E.
  - assert (depth16 (cfg (tx s1))) as Hs1.
    { assert (holds_at any any depth16 s1) as (_ & _ & ?); [|done].
      by eapply (pres_notify_loop any any depth16 depth_stable e); [|exact E|]. }
    apply notify_fuel_enough in E; [|by eexists].
    unfold mbind, st_bind, get_st in Hx. rewrite send_inline_cases in Hx. destruct (decide _) as [Hc|Hc].
    + apply runs_sent with s1; [done|done|]. destruct Hc as [Hc|Hc].
      * rewrite Hc in *. injection Hx as <- <-. constructor.
      * eapply runs_each; [|done|exact Hx]. intros a b t u t' Ht Ha. apply IH; [done|unfold depth16 in Hs1; lia|lia|done].
    + injection Hx as <- <-. apply runs_too_deep; [done|tauto|tauto].
  - injection Hx as <- <-. apply runs_throw. apply notify_fuel_enough in E; [done|by eexists].
Qed.

(** There is one way to run an action. *)
Lemma notifies_fun current free i s r s' : notifies current free i s r s' →
  ∀ u t, notifies current free i s u t → r = u ∧ s' = t.
Proof.
  induction 1 as [| |i s rcv s1 r s' Hi Hx _ IH]; intros u t; inversion 1; simplify_eq; try done; [split; congruence|congruence|congruence|].
  apply IH. match goal with Hx' : exec_one _ _ _ _ s = (Ok (), ?t), Hn : notifies _ _ _ ?t _ _ |- _ =>
    rewrite Hx in Hx'; by injection Hx' as -> end.
Qed.

Scheme runs_mut := Induction for runs Sort Prop
  with runs_all_mut := Induction for runs_all Sort Prop.

Lemma runs_fun current rcv free depth s r s' : runs current rcv free depth s r s' →
  ∀ u t, runs current rcv free depth s u t → r = u ∧ s' = t.
Proof.
  intros Hr. induction Hr using runs_mut with
    (P0 := fun depth l s r s' _ => ∀ u t, runs_all depth l s u t → r = u ∧ s' = t);
    intros u t; inversion 1; subst;
    repeat match goal with
    | H : notifies _ _ _ _ ?r ?s', H' : notifies _ _ _ _ ?u ?t |- _ =>
        lazymatch s' with t => fail | _ => destruct (notifies_fun _ _ _ _ _ _ H _ _ H'); simplify_eq end
    end; simplify_eq; try tauto; eauto.
  all: match goal with
       | IH : ∀ u t, runs ?a ?b ?f ?d ?s u t → _, H : runs ?a ?b ?f ?d ?s _ _ |- _ => destruct (IH _ _ H); simplify_eq
       end; eauto.
Qed.
End Termination.

(** C14: running an action always ends: with the fuel chosen it gives the one result
    that the rules without a bound allow.  Each receiver is notified once and is an
    account, and inline actions nest at most as deep as the 16-bit limit allows. *)
Theorem execution_terminates `{Machine} (e : exec_env) (current : action) (free : bool) (s : xstate) :
  depth16 (cfg (tx s)) →
  let result := dispatch_action e depth_fuel current (act_account current) free 0 s in
  runs e current (act_account current) free 0 s result.1 result.2 ∧
  ∀ r s', runs e current (act_account current) free 0 s r s' → result = (r, s').
Proof.
  intros Hs result.
  assert (runs e current (act_account current) free 0 s result.1 result.2) as Hr.
  { apply (dispatch_total e depth_fuel); [done|lia|unfold depth_fuel; rewrite N_nat_Z; lia|]. apply surjective_pairing. }
  split; [done|]. intros r s' Hu. destruct (runs_fun _ _ _ _ _ _ _ _ Hr _ _ Hu) as [<- <-]. apply surjective_pairing.
Qed.

(** ** Receipts *)

Section Receipts.
Context `{Machine} (e : exec_env).

(** Neither receipts nor the counter of actions change. *)
Definition history (l : list action_receipt) (g : Z) (s : xstate) : Prop := executed s = l ∧ global_action_sequence s = g.

Lemma history_on_tx l g {A} (m : TX A) : preserves (history l g) (on_tx m).
Proof. intros s a s' Hm. unfold on_tx in Hm. destruct (m (tx s)). by injection Hm as -> <-. Qed.
Lemma history_on_tables l g {A} (m : TC A) : preserves (history l g) (on_tables m).
Proof. intros s a s' Hm. unfold on_tables in Hm. destruct (m (tstate_of s)). by injection Hm as -> <-. Qed.

Lemma history_program l g rcv current free p : preserves (history l g) (run_program e rcv current free p).
Proof.
  induction p as [|x|c k IH]; cbn [run_program]; [apply pres_ret|apply pres_throw|]. apply pres_bind; [|exact IH].
  unfold host. pres idtac. destruct c; cbn [perform]; unfold nothing, on_native, execute_inline,
    execute_context_free_inline, schedule_deferred_transaction, check_deferred, set_proposed_producers, propose, require_recipient, get_the_db, on_native.
  all: pres ltac:(done); try apply history_on_tx; try apply history_on_tables.
  apply pres_modify. intros s' Hs. by destruct (existsb _ _).
Qed.

Lemma history_apply_code l g rcv current free : preserves (history l g) (apply_code e rcv current free).
Proof.
  unfold apply_code, apply_native_contract, check_lists, get_the_db, on_native. pres ltac:(done).
  all: first [apply history_on_tx|apply history_program].
Qed.

Lemma history_get_sequence l g a : preserves (history l g) (get_sequence a).
Proof. unfold get_sequence, get_the_db. pres idtac. Qed.
Lemma history_recv_sequence l g a : preserves (history l g) (next_recv_sequence a).
Proof. unfold next_recv_sequence, put_sequence, on_native. pres idtac; [apply history_get_sequence|apply history_on_tx]. Qed.
Lemma history_auth_sequences l g ps m : preserves (history l g) (auth_sequences ps m).
Proof.
  revert m. induction ps as [|p ps IH]; intros m; cbn [auth_sequences]; [apply pres_ret|].
  unfold next_auth_sequence, put_sequence, on_native. pres idtac; [apply history_get_sequence|apply history_on_tx|apply IH].
Qed.

(** One more receipt, with the next number. *)
Lemma exec_one_receipt rcv current free s s' : exec_one e rcv current free s = (Ok (), s') →
  ∃ r, executed s' = executed s ++ [r] ∧ ar_receiver r = rcv ∧ act_digest r = action_digest current ∧
    global_sequence r = u64 (global_action_sequence s + 1) ∧
    global_action_sequence s' = u64 (global_action_sequence s + 1).
Proof.
  unfold exec_one. intros (u & s1 & H1 & Hx)%st_bind_ok.
  assert (history (executed s) (global_action_sequence s) s1) as [E1 G1].
  { eapply pres_rethrown; [apply history_apply_code|exact H1|done]. }
  apply st_bind_ok in Hx as (g & s2 & Hg & Hx). apply st_bind_ok in Hx as (n & s3 & Hn & Hx).
  apply st_bind_ok in Hx as (o & s4 & Ho & Hx). apply st_bind_ok in Hx as (m & s5 & Hm & Hx).
  assert (g = u64 (global_action_sequence s + 1) ∧ history (executed s) (u64 (global_action_sequence s + 1)) s2) as [-> H2].
  { unfold next_global_sequence in Hg. simpl_ok. unfold history. cbn. by rewrite E1, G1. }
  assert (history (executed s) (u64 (global_action_sequence s + 1)) s5) as [E5 G5].
  { eapply history_auth_sequences; [exact Hm|]. eapply history_get_sequence; [exact Ho|].
    eapply history_recv_sequence; [exact Hn|exact H2]. }
  apply st_bind_ok in Hx as ([] & s6 & H6 & Hx). injection H6 as <-.
  set (r := mk_receipt _ _ _ _ _ _ _) in Hx. exists r.
  assert (history (executed s ++ [r]) (u64 (global_action_sequence s + 1)) s') as [E7 G7]; [|by split_and!].
  eapply history_on_tx; [exact Hx|]. split; cbn; [by rewrite E5|exact G5].
Qed.

(** The receipts since [s0], numbered in the order of execution. *)
Definition numbered (s0 s : xstate) : Prop :=
  ∃ new, executed s = executed s0 ++ new ∧
    global_action_sequence s = u64 (global_action_sequence s0 + Z.of_nat (length new)) ∧
    ∀ i r, new !! i = Some r → global_sequence r = u64 (global_action_sequence s0 + 1 + Z.of_nat i).

Lemma numbered_exec_one s0 rcv current free : preserves (numbered s0) (exec_one e rcv current free).
Proof.
  intros s [] s' (r & Er & _ & _ & Gr & Gs)%exec_one_receipt (new & En & Gn & Hn).
  assert (u64 (global_action_sequence s + 1) = u64 (global_action_sequence s0 + 1 + Z.of_nat (length new))) as Hg.
  { rewrite Gn. unfold u64, wrapu. rewrite Zplus_mod_idemp_l. f_equal. lia. }
  exists (new ++ [r]). split; [by rewrite Er, En, app_assoc|]. split.
  - rewrite Gs, Hg, length_app. f_equal. cbn. lia.
  - intros i r' [[_ Hi]|[-> <-]]%lookup_snoc_Some; [by apply Hn|]. by rewrite Gr.
Qed.

Lemma numbered_dispatch s0 fuel : ∀ current rcv free depth, preserves (numbered s0) (dispatch_action e fuel current rcv free depth).
Proof.
  assert (∀ k i current free, preserves (numbered s0) (notify_loop e k i current free)) as Hn.
  { induction k as [|k IH]; intros i current free; cbn [notify_loop]; pres idtac; [apply numbered_exec_one|apply IH]. }
  induction fuel as [|fuel IH]; intros current rcv free depth; cbn [dispatch_action]; [apply pres_throw|].
  unfold new_context. pres ltac:(done); [apply Hn|apply IH|apply IH].
Qed.

Lemma numbered_exec s0 : preserves (numbered s0) (exec e).
Proof.
  unfold exec. pres idtac; [apply numbered_dispatch|apply numbered_dispatch|].
  intros t1 [] t2 Hx (new & E & G & Hn).
  destruct (history_on_tx _ _ _ _ _ _ Hx (conj eq_refl eq_refl)) as [E' G']. exists new. by rewrite E', G'.
Qed.
End Receipts.

(** Running the actions of a transaction appends receipts in the order in
    which actions and notifications were executed, numbered by consecutive global
    sequence numbers that continue those of the chain. *)
Theorem receipts_in_order `{Machine} (e : exec_env) (s s' : xstate) :
  0 ≤ global_action_sequence s ≤ u64_max → exec e s = (Ok (), s') → numbered s s'.
Proof.
  intros Hg Hx. eapply numbered_exec; [exact Hx|]. exists []. split; [by rewrite app_nil_r|]. split; [|done].
  cbn. by rewrite Z.add_0_r, u64_small.
Qed.

(** ** Inline actions *)

Lemma find_permission_is a l o : find_permission a l = Ok o → by_owner a l = o.
Proof. unfold find_permission. destruct (level_named l); [by intros [= <-]|done]. Qed.

(** C19: a contract that is not privileged can send an inline action to another
    account only if the accounts and permissions it declares exist, each is linked to
    the action or an ancestor of that permission, and each is approved by the
    receiver's [eosio.code] permission alone within the delay. *)
Theorem inline_actions_authorized `{Machine} (e : exec_env) (rcv : Z) (current a : action) (s s' : xstate) :
  chain_wf (the_db s) → skip_auth_check e = false → q_privileged (q s) = false → act_account a ≠ rcv →
  execute_inline e rcv current a s = (Ok (), s') →
  s' = set_inline (inline_actions (q s) ++ [a]) s ∧ is_Some (accounts_db (the_db s) !! act_account a) ∧
  ∀ l, l ∈ act_authorization a →
    is_Some (accounts_db (the_db s) !! actor l) ∧ is_Some (by_owner (auth (the_db s)) l) ∧
    ∃ special d,
      check_special (auth (the_db s)) (auth_view s) (effective_delay (auth_view s) (i64 (block_time (te e) - published (tx s)))) a
        = Ok (special, d) ∧
      (special = false → reaches (auth (the_db s)) a l) ∧
      approved (make_checker (auth (the_db s)) (auth_view s) [] {[mk_level rcv eosio_code_name]} d) l.
Proof.
  intros Hw Hskip Hpriv Ha Hx. unfold execute_inline in Hx.
  apply st_bind_ok in Hx as (s0 & s1 & [= <- <-] & Hx). rewrite Hskip, Hpriv in Hx. cbn [negb andb] in Hx.
  apply st_bind_ok in Hx as ([] & s1 & [H1 <-]%st_assert_ok & Hx).
  apply st_bind_ok in Hx as ([] & s1 & [H2 <-]%lift_ok & Hx).
  apply st_bind_ok in Hx as ([] & s1 & Hl & Hx).
  assert (s1 = s) as -> by (destruct (enforcing e); by simpl_ok).
  apply st_bind_ok in Hx as ([] & s1 & [H3 <-]%lift_ok & [= <-]).
  split; [done|]. split; [by apply bool_decide_eq_true in H1|]. intros l Hl'.
  apply fold_result_each, Forall_forall with (x := l) in H2; [|done].
  unfold check_inline_actor in H2. simpl_ok. to_prop.
  split; [by apply bool_decide_eq_true in H0|]. apply find_permission_is in H4 as <-. split; [done|].
  apply Z.eqb_neq in Ha. rewrite Ha in H3. unfold tolerate in H3.
  destruct (check_authorization _ _ _ _ _ _ _ _ _) as [[]|] eqn:Ec; [|by rewrite orb_true_r in H3].
  unfold inherited in Ec. rewrite Ha in Ec. cbn [andb] in Ec.
  destruct (check_authorization_approves _ _ _ _ _ _ _ _ _ (cw_auth _ Hw) Ec a l) as (special & d & ? & ? & [Hs|?]);
    [by apply list_elem_of_singleton|done|by apply elem_of_empty in Hs|]. by exists special, d.
Qed.


(** ** An example *)

Module ExecDemo.
Import NativeDemo.
Definition code_level : permission_level := mk_level alice eosio_code_name.
(** Control of an account shared with its contract. *)
Definition by_code : authority := mk_authority 1 (keys (key 11)) [mk_plw code_level 1] [].
Definition pay : action := mk_action carol 2 [mk_level alice config.active_name] [].

#[local] Instance unpack : Unpack :=
  { unpack_updateauth := fun _ => Ok (mk_updateauth alice config.active_name config.owner_name by_code);
    unpack_deleteauth := fun _ => Err std_out_of_range; unpack_linkauth := fun _ => Err std_out_of_range;
    unpack_unlinkauth := fun _ => Err std_out_of_range; unpack_canceldelay := fun _ => Err std_out_of_range;
    unpack_actions := fun _ => Err std_out_of_range }.
#[local] Instance env : NativeEnv :=
  { native_unpack := unpack;
    unpack_newaccount := fun _ => Ok (mk_newaccount alice carol (key 20) (key 21) 0);
    unpack_setcode := fun _ => Ok (mk_setcode alice 0 0 [1; 2; 3]);
    unpack_setabi := fun _ => Err std_out_of_range; unpack_setconfig := fun _ => Err std_out_of_range;
    code_hash := fun _ => mk_digest 1 1 1 1; wasm_validate := fun _ => Ok (); key_pack_size := fun _ => 34 }.
(** The contract of alice notifies carol and sends her an action. *)
#[local] Instance machine : Machine :=
  { machine_native := env;
    contract := fun _ rcv a =>
      if (act_name a =? 1) && (rcv =? alice)
      then Call (RequireRecipient carol) (fun _ => Call (SendInline 10 pay) (fun _ => Return)) else Return;
    action_digest := fun a => mk_digest (act_name a) 0 0 0; transaction_digest := fun _ => digest0; pack := fun _ => []; valid_key := fun _ => true;
    unpack_hello := fun _ => Err std_out_of_range }.

Definition prepared : context :=
  @run_natives env [(block, creation); (block, by_actor alice (Name.N "setcode")); (block, by_actor alice updateauth_name)] start.
Definition eenv : exec_env := mk_exec_env BillingDemo.env false true 100 digest0 ∅ (Schedule.mk_schedule 0 []) (Schedule.mk_schedule 0 []) (fun _ => Ok ()).
Definition begin_trx : txc :=
  let t := BillingDemo.started_with BillingDemo.plain in
  mk_txc prepared (cfg t) (dedupe t) (tapos t) (net t) (cpu t) (by_contract t) (bill_to_accounts t) (published t) (delay t)
    (is_initialized t) (is_input t) (apply_context_free t).
Definition start_state : xstate :=
  mk_xstate begin_trx ∅ 0 (mk_part ∅ 0 empty_cache) (mk_part ∅ 0 empty_cache) (None, Schedule.mk_schedule 0 []) 41 [] (mk_queues [alice] [] [] false).

Lemma typed (b : bytes) :
  (∀ u, unpack_updateauth b = Ok u → fields_typed (ua_auth u)) ∧
  (∀ n, unpack_newaccount b = Ok n → fields_typed (na_owner n) ∧ fields_typed (na_active n)).
Proof.
  split.
  - intros u [= <-]. unfold fields_typed. repeat constructor; by vm_compute.
  - intros n [= <-]. split; apply key_typed.
Qed.

Lemma prepared_wf : chain_wf (the_db start_state).
Proof. apply (@run_natives_wf env); [apply typed..|exact start_wf]. Qed.

Definition final : xstate := (exec eenv start_state).2.
Lemma runs_ok : exec eenv start_state = (Ok (), final).
Proof.
  assert ((exec eenv start_state).1 = Ok ()) as Hr by (vm_compute; reflexivity).
  rewrite (surjective_pairing (exec eenv start_state)). by rewrite Hr.
Qed.
End ExecDemo.

Lemma execution_keeps_chain_witness : chain_wf (the_db ExecDemo.final).
Proof.
  exact (@execution_keeps_chain ExecDemo.machine ExecDemo.eenv ExecDemo.start_state ExecDemo.final
    (fun b => proj1 (ExecDemo.typed b)) (fun b => proj2 (ExecDemo.typed b)) ExecDemo.prepared_wf ExecDemo.runs_ok).
Defined.

Lemma execution_terminates_witness :
  ∃ r s', @runs ExecDemo.machine ExecDemo.eenv ExecDemo.pay (act_account ExecDemo.pay) false 0 ExecDemo.start_state r s'.
Proof.
  assert (depth16 (cfg (tx ExecDemo.start_state))) as Hd by (vm_compute; reflexivity).
  eexists _, _. exact (proj1 (@execution_terminates ExecDemo.machine ExecDemo.eenv ExecDemo.pay false ExecDemo.start_state Hd)).
Defined.

Lemma receipts_in_order_witness :
  numbered ExecDemo.start_state ExecDemo.final ∧ map global_sequence (executed ExecDemo.final) = [42; 43; 44].
Proof.
  split; [|vm_compute; reflexivity].
  assert (0 ≤ global_action_sequence ExecDemo.start_state ≤ u64_max) as Hg by (vm_compute; split; congruence).
  exact (@receipts_in_order ExecDemo.machine ExecDemo.eenv ExecDemo.start_state ExecDemo.final Hg ExecDemo.runs_ok).
Defined.

Lemma inline_actions_authorized_witness :
  is_Some (accounts_db (the_db ExecDemo.start_state) !! NativeDemo.carol).
Proof.
  assert (act_account ExecDemo.pay ≠ NativeDemo.alice) as Ha by (vm_compute; discriminate).
  assert (@execute_inline ExecDemo.machine ExecDemo.eenv NativeDemo.alice ExecDemo.pay ExecDemo.pay ExecDemo.start_state =
          (Ok (), set_inline [ExecDemo.pay] ExecDemo.start_state)) as Hx by (vm_compute; reflexivity).
  exact (proj1 (proj2 (@inline_actions_authorized ExecDemo.machine ExecDemo.eenv NativeDemo.alice ExecDemo.pay ExecDemo.pay
    ExecDemo.start_state _ ExecDemo.prepared_wf eq_refl eq_refl Ha Hx))).
Defined.
End Execution.
