(* ===== verification/Controller.v ===== *)
(** * The controller: blocks of transactions

    [controller.cpp]: how the node puts a block together, or checks one.  A block
    starts with the promotion of a proposed schedule, the [onblock] transaction and
    the upkeep of the tables; input transactions and scheduled ones are pushed one
    after the other, each in a session of the database that is undone when it
    fails; the end of the block updates the limits and the roots of its header.

    A session of the database is a copy of [world]: [Chainbase] shows that the undo
    stack of an index restores exactly what a session started with.  What is not
    in the database survives an undone session: the lists of the node, the pending
    block and the transactions that wait.  The clock is an argument, as in
    [TransactionContext].  Handlers of the node's signals do not throw; the fork
    database, the block log and the replay at startup are outside of this file. *)

From S2P Require Import Prelude Exceptions Name Merkle BlockHeader HeaderState EosLib ResourceLimits Authority AuthorizationManager NativeContract ContractTables Admission TransactionContext Execution.

Module Controller.
Import AuthorizationManager Native Admission TransactionContext Tables Execution.

(** ** State *)

(** The database of the node. *)
Record world : Type := mk_world
  { w_db : database; w_cfg : chain_config; w_proposed : option Z * Schedule.producer_schedule_type;
    w_dedupe : dedupe_index; w_tapos : summaries;
    w_tabs : gmap Z table_id_object; w_next_tab : Z;
    w_kv : gmap Z (row bytes) * Z; w_idx : gmap Z (row Z) * Z;
    w_global : Z }.

Inductive status_enum : Type := executed_status | soft_fail | hard_fail | delayed | expired.
#[export] Instance status_eq_dec : EqDecision status_enum.
Proof. solve_decision. Defined.

Record transaction_receipt_header : Type := mk_trx_receipt_header
  { status : status_enum; cpu_usage_us : Z; net_usage_words : Z }.
#[export] Instance receipt_header_eq_dec : EqDecision transaction_receipt_header.
Proof. solve_decision. Defined.

(** What a receipt is of: a scheduled transaction or a packed one. *)
Inductive receipt_trx : Type := Generated (id : digest_type) | Packed (p : bytes).
Record transaction_receipt : Type := mk_trx_receipt { rc_header : transaction_receipt_header; rc_trx : receipt_trx }.

Record transaction_metadata : Type := mk_metadata
  { tm_id : digest_type; tm_signed_id : digest_type; tm_trx : transaction; tm_packed : bytes;
    tm_unprunable_size : Z; tm_prunable_size : Z; tm_implicit : bool }.

Inductive block_status : Type := irreversible | validated | complete | incomplete.
#[export] Instance block_status_eq_dec : EqDecision block_status.
Proof. solve_decision. Defined.

(** [pending_state]; [p_session] is the database when its session started. *)
Record pending_state : Type := mk_pending
  { p_session : option world; p_state : HeaderState.block_header_state; p_status : block_status;
    p_transactions : list transaction_receipt; p_trxs : list transaction_metadata; p_actions : list action_receipt }.

Record cstate : Type := mk_cstate
  { the_world : world; c_lists : name_lists; pending : option pending_state;
    c_head : HeaderState.block_header_state; revision : Z;
    unapplied_transactions : gmap digest_type transaction_metadata }.

Abbreviation CT := (ST cstate exn).

Definition set_world (w : world) (s : cstate) : cstate :=
  mk_cstate w (c_lists s) (pending s) (c_head s) (revision s) (unapplied_transactions s).
Definition set_c_lists (l : name_lists) (s : cstate) : cstate :=
  mk_cstate (the_world s) l (pending s) (c_head s) (revision s) (unapplied_transactions s).
Definition set_pend (p : option pending_state) (s : cstate) : cstate :=
  mk_cstate (the_world s) (c_lists s) p (c_head s) (revision s) (unapplied_transactions s).
Definition set_revision (r : Z) (s : cstate) : cstate :=
  mk_cstate (the_world s) (c_lists s) (pending s) (c_head s) r (unapplied_transactions s).
Definition set_unapplied (m : gmap digest_type transaction_metadata) (s : cstate) : cstate :=
  mk_cstate (the_world s) (c_lists s) (pending s) (c_head s) (revision s) m.

Definition with_transactions (l : list transaction_receipt) (p : pending_state) : pending_state :=
  mk_pending (p_session p) (p_state p) (p_status p) l (p_trxs p) (p_actions p).
Definition with_trxs (l : list transaction_metadata) (p : pending_state) : pending_state :=
  mk_pending (p_session p) (p_state p) (p_status p) (p_transactions p) l (p_actions p).
Definition with_actions (l : list action_receipt) (p : pending_state) : pending_state :=
  mk_pending (p_session p) (p_state p) (p_status p) (p_transactions p) (p_trxs p) l.
Definition with_state (b : HeaderState.block_header_state) (p : pending_state) : pending_state :=
  mk_pending (p_session p) b (p_status p) (p_transactions p) (p_trxs p) (p_actions p).

(** What is configured, and found out at startup. *)
Record node_config : Type := mk_node
  { n_lists : node_lists; n_key_blacklist : gset Z; n_allow_ram_billing_in_notify : bool;
    force_all_checks : bool; disable_replay_opts : bool;
    (** light validation, by mode or because the producer is trusted *)
    n_light : bool; n_speculative : bool; subjective_cpu_leeway : option Z; replay_head_time : option Z;
    n_timer : timer_setup; n_view : ResourceLimits.ram_view; n_ticking : nat → R () }.

(** The times the clock shows while a transaction runs. *)
Record clock : Type := mk_clock
  { t_start : Z; t_check : Z; t_timer : Z; t_finalize : Z; t_failed : Z }.

Class Codec : Type :=
  { codec_machine :: Machine;
    codec_crypto :: Header.ChainCrypto;
    (** [trx->recover_keys( chain_id )] *)
    recover_keys : transaction_metadata → R (list public_key_type);
    (** the transaction of a packed one *)
    metadata_of : bytes → R transaction_metadata;
    unpack_transaction : bytes → R transaction;
    (** serialized block headers and error reports *)
    pack_header : Header.signed_block_header → bytes;
    pack_onerror : Z → bytes → bytes;
    action_receipt_digest : action_receipt → digest_type;
    trx_receipt_digest : transaction_receipt → digest_type }.

Section Node.
Context `{Codec} (n : node_config).

Definition pending_time (p : pending_state) : Z := Timestamp.to_time_point (Header.timestamp (HeaderState.hdr (p_state p))).
Definition producing_status (p : pending_state) : bool := bool_decide (p_status p = incomplete).

(** [in_trx_requiring_checks] is the argument [checks]. *)
Definition light_validation_allowed (p : option pending_state) (checks replay_opts_disabled_by_policy : bool) : bool :=
  match p with
  | None => false
  | Some p =>
      if checks then false
      else (bool_decide (p_status p = irreversible) || bool_decide (p_status p = validated)) && negb replay_opts_disabled_by_policy
           || bool_decide (p_status p = complete) && n_light n
  end.
Definition skip_auth_check_now (p : option pending_state) (checks : bool) : bool :=
  light_validation_allowed p checks (force_all_checks n).
Definition skip_trx_checks_now (p : option pending_state) (checks : bool) : bool :=
  light_validation_allowed p checks (disable_replay_opts n).
Definition skip_db_sessions (s : block_status) (checks : bool) : bool :=
  bool_decide (s = irreversible) && negb (disable_replay_opts n) && negb checks.

(** ** Transactions in the pending block *)

(** What a context reads of the controller. *)
Definition env_of (s : cstate) (p : pending_state) (checks : bool) (t : transaction) (id : digest_type)
    (start deadline leeway : Z) (explicit enforce : bool) : exec_env :=
  mk_exec_env
    (mk_trx_env t id start deadline leeway explicit enforce (pending_time p) (producing_status p)
       (skip_trx_checks_now (Some p) checks) (n_lists n) (n_view n))
    (skip_auth_check_now (Some p) checks) (n_allow_ram_billing_in_notify n)
    (HeaderState.bhs_block_num (c_head s)) (HeaderState.bhs_id (c_head s)) (n_key_blacklist n)
    (HeaderState.active_schedule (p_state p)) (HeaderState.pending_schedule (p_state p)) (n_ticking n).

(** A new [transaction_context] over the database, and the database it leaves. *)
Definition enter (e : exec_env) (billed : Z) (s : cstate) : xstate :=
  let w := the_world s in
  mk_xstate
    (mk_txc (mk_context (w_db w) (c_lists s) [] ∅ ∅) (w_cfg w) (w_dedupe w) (w_tapos w) net0 (cpu0 (te e) billed)
       (mk_contract_limits 0 0 false) ∅ 0 0 false false true)
    (w_tabs w) (w_next_tab w) (mk_part (w_kv w).1 (w_kv w).2 empty_cache) (mk_part (w_idx w).1 (w_idx w).2 empty_cache)
    (w_proposed w) (w_global w) [] (mk_queues [] [] [] false).

Definition world_of (x : xstate) : world :=
  mk_world (the_db x) (cfg (tx x)) (proposed x) (dedupe (tx x)) (tapos (tx x)) (tabs x) (next_tab x)
    (rows (kvs x), next_row (kvs x)) (rows (idxs x), next_row (idxs x)) (global_action_sequence x).
Definition leave (x : xstate) (s : cstate) : cstate := set_world (world_of x) (set_c_lists (conf (cx (tx x))) s).

(** Runs [m] in a new context: what it did to the database is in the state, what
    it left in the context is returned, whether it threw or not. *)
Definition in_context (e : exec_env) (billed : Z) (m : X ()) : CT (R () * xstate) :=
  fun s => let '(r, x) := m (enter e billed s) in (Ok (r, x), leave x s).

(** The constructor of [transaction_context]. *)
Definition new_trx_context (t : transaction) : CT () :=
  st_assert (bool_decide (length (transaction_extensions t) ≤ 16)%nat) tx_too_big.

Definition is_fc (x : exn) : bool :=
  match x with std_out_of_range | std_logic_error | undefined_behavior | loop_bound => false | _ => true end.

(** [catch( const fc::exception& )], and [FC_CAPTURE_AND_RETHROW]. *)
Definition catch_fc {A} (m : CT A) (handler : exn → CT A) : CT A :=
  fun s => match m s with
           | (Err x, s') => if is_fc x then handler x s' else (Err x, s')
           | r => r
           end.
Definition capture {A} (m : CT A) : CT A :=
  fun s => match m s with
           | (Err x, s') => (Err (fc_capture_and_rethrow x), s')
           | r => r
           end.

(** A session that started at [w] ends without being squashed. *)
Definition undo_to (session : bool) (w : world) : CT () :=
  if session then modify_st (set_world w) else mret ().
(** The same when the scope is left by an exception. *)
Definition undo_on_throw {A} (session : bool) (w : world) (m : CT A) : CT A :=
  fun s => match m s with
           | (Err x, s') => (Err x, if session then set_world w s' else s')
           | r => r
           end.

Definition get_pending : CT pending_state := s ← get_st; lift (of_option (pending s) undefined_behavior).
Definition modify_pending (f : pending_state → pending_state) : CT () :=
  p ← get_pending; modify_st (set_pend (Some (f p))).

Definition push_receipt (t : receipt_trx) (st : status_enum) (cpu_us net : Z) : CT transaction_receipt_header :=
  st_assert (u64 (net / 8 * 8) =? net) transaction_exception ;;
  let r := mk_trx_receipt_header st (u32 cpu_us) (u32 (net / 8)) in
  modify_pending (fun p => with_transactions (p_transactions p ++ [mk_trx_receipt r t]) p) ;;
  mret r.

(** [make_block_restore_point] *)
Definition restore_block (p0 : pending_state) : CT () :=
  modify_pending (fun p => with_transactions (take (length (p_transactions p0)) (p_transactions p))
    (with_trxs (take (length (p_trxs p0)) (p_trxs p)) (with_actions (take (length (p_actions p0)) (p_actions p)) p))).

Definition append_actions (l : list action_receipt) : CT () :=
  modify_pending (fun p => with_actions (p_actions p ++ l) p).

Definition same_code (x y : exn) : bool := bool_decide (exn_code x = exn_code y).
Definition failure_is_subjective (x : exn) : bool :=
  existsb (same_code x)
    [subjective_block_production_exception; block_net_usage_exceeded; greylist_net_usage_exceeded;
     block_cpu_usage_exceeded; greylist_cpu_usage_exceeded; deadline_exception; leeway_deadline_exception;
     actor_whitelist_exception; actor_blacklist_exception; contract_whitelist_exception;
     contract_blacklist_exception; action_blacklist_exception; key_blacklist_exception].
Definition scheduled_failure_is_subjective (x : exn) : bool :=
  same_code x tx_cpu_usage_exceeded || failure_is_subjective x.

Record transaction_trace : Type := mk_trace { tr_receipt : option transaction_receipt_header; tr_except : option exn }.

Definition set_delay (d : Z) (t : txc) : txc :=
  mk_txc (cx t) (cfg t) (dedupe t) (tapos t) (net t) (cpu t) (by_contract t) (bill_to_accounts t) (published t) d
    (is_initialized t) (is_input t) (apply_context_free t).

(** An input or implicit transaction in its context.  Nothing reads
    [enforce_whiteblacklist] before it is cleared for an implicit one. *)
Definition run_transaction (e : exec_env) (cl : clock) (m : transaction_metadata) (skip_recording : bool) : X () :=
  (if tm_implicit m then on_tx (init_for_implicit_trx (te e) (n_timer n) (t_check cl) (t_timer cl) 0)
   else on_tx (init_for_input_trx (te e) (n_timer n) (t_check cl) (t_timer cl) (tm_unprunable_size m) (tm_prunable_size m)
                 skip_recording)) ;;
  on_tx (modify_st (set_delay (seconds (delay_sec (header (tm_trx m)))))) ;;
  (if negb (skip_auth_check e) && negb (tm_implicit m) then
     ks ← lift (recover_keys m);
     s ← get_st;
     lift (check_authorization (auth (the_db s)) (auth_view s) (ticking e) (actions (tm_trx m)) ks ∅ (delay (tx s)) false ∅)
   else mret ()) ;;
  exec e ;;
  on_tx (finalize (te e) (t_finalize cl)).

Definition forget_unapplied (m : transaction_metadata) : CT () :=
  modify_st (fun s => set_unapplied (delete (tm_signed_id m) (unapplied_transactions s)) s).

(** The receipt of a transaction that ran. *)
Definition receipt_of (m : transaction_metadata) (x : xstate) : CT transaction_receipt_header :=
  if tm_implicit m
  then mret (mk_trx_receipt_header executed_status (u32 (billed_cpu_time_us (cpu (tx x)))) (u32 (net_usage (net (tx x)) / 8)))
  else r ← push_receipt (Packed (tm_packed m)) (if delay (tx x) =? 0 then executed_status else delayed)
             (billed_cpu_time_us (cpu (tx x))) (net_usage (net (tx x)));
       modify_pending (fun p => with_trxs (p_trxs p ++ [m]) p) ;;
       mret r.

(** A node that does not speculate undoes what it ran for a block of its own. *)
Definition keep_or_undo (session : bool) (w : world) (p0 : pending_state) : CT () :=
  if negb (n_speculative n) && producing_status p0 then undo_to session w ;; restore_block p0 else mret ().

Definition push_env (s : cstate) (p : pending_state) (cl : clock) (checks : bool) (m : transaction_metadata) (deadline : Z)
    (explicit : bool) : exec_env :=
  env_of s p checks (tm_trx m) (tm_id m) (t_start cl) deadline
    (match subjective_cpu_leeway n with Some l => if producing_status p then l else 3000 | None => 3000 end)
    explicit (negb (tm_implicit m)).

(** Replayed transactions that have expired since are not recorded. *)
Definition skips_recording (m : transaction_metadata) : bool :=
  match replay_head_time n with
  | Some t => seconds (expiration (header (tm_trx m))) <=? t
  | None => false
  end.

(** The transaction in its session, which started at [w]. *)
Definition push_in_session (cl : clock) (m : transaction_metadata) (billed : Z) (e : exec_env) (p0 : pending_state)
    (session : bool) (w : world) : CT transaction_trace :=
  undo_on_throw session w
    (catch_fc
      ('(r, x) ← in_context e billed (run_transaction e cl m (skips_recording m));
       lift r ;;
       receipt ← catch_fc (receipt_of m x) (fun ex => restore_block p0 ;; throw ex);
       append_actions (executed x) ;;
       keep_or_undo session w p0 ;;
       (if tm_implicit m then mret () else forget_unapplied m) ;;
       mret (mk_trace (Some receipt) None))
      (fun ex =>
        (if failure_is_subjective ex then mret () else forget_unapplied m) ;;
        undo_to session w ;;
        mret (mk_trace None (Some ex)))).

Definition push_transaction (cl : clock) (checks : bool) (m : transaction_metadata) (deadline billed : Z) (explicit : bool)
    : CT transaction_trace :=
  st_assert (negb (deadline =? 0)) transaction_exception ;;
  s ← get_st;
  lift (check_action (w_db (the_world s)) (HeaderState.bhs_block_num (c_head s)) (actions (tm_trx m))) ;;
  capture (
    p0 ← get_pending;
    new_trx_context (tm_trx m) ;;
    push_in_session cl m billed (push_env s p0 cl checks m deadline explicit) p0
      (negb (skip_db_sessions (p_status p0) checks)) (the_world s)).

(** ** Scheduled transactions *)

Definition with_db (d : database) (w : world) : world :=
  mk_world d (w_cfg w) (w_proposed w) (w_dedupe w) (w_tapos w) (w_tabs w) (w_next_tab w) (w_kv w) (w_idx w) (w_global w).
Definition modify_database (f : database → database) : CT () :=
  modify_st (fun s => set_world (with_db (f (w_db (the_world s))) (the_world s)) s).
Definition on_world_limits {A} (m : ST RLdb exn A) : CT A :=
  fun s => let '(r, l) := m (limits (w_db (the_world s))) in
           (r, set_world (with_db (set_rl l (w_db (the_world s))) (the_world s)) s).
Definition on_world_auth {A} (m : ST auth_db exn A) : CT A :=
  fun s => let '(r, a) := m (auth (w_db (the_world s))) in
           (r, set_world (with_db (set_auth a (w_db (the_world s))) (the_world s)) s).

Definition remove_scheduled_transaction (id : digest_type) (g : generated_transaction_object) : CT () :=
  on_world_limits (ResourceLimits.add_pending_ram_usage (gt_payer g)
    (i64 (- (billable_generated + Z.of_nat (length (gt_packed_trx g)))))) ;;
  modify_database (fun d => set_gtrxs (delete id (gtrxs d)) d).

(** A transaction that the node makes up expires within a second and refers to the
    head block. *)
Definition made_up (s : cstate) (p : pending_state) (a : action) : transaction :=
  mk_transaction
    (set_reference_block (HeaderState.bhs_id (c_head s))
       (mk_trx_header (u32 (Z.quot (i64 (pending_time p + 999999)) 1000000)) 0 0 0 0 0)) [] [a] [].

Definition onerror_name : Z := Name.N "onerror".
Definition onblock_name : Z := Name.N "onblock".

(** The receipt of a scheduled transaction and the actions behind it. *)
Definition record_receipt (id : digest_type) (st : status_enum) (x : xstate) : CT transaction_trace :=
  receipt ← push_receipt (Generated id) st (billed_cpu_time_us (cpu (tx x))) (net_usage (net (tx x)));
  append_actions (executed x) ;;
  mret (mk_trace (Some receipt) None).

(** The report of an error in its context. *)
Definition run_onerror (e : exec_env) (cl : clock) (g : generated_transaction_object) (act : action) : X () :=
  on_tx (init_for_implicit_trx (te e) (n_timer n) (t_check cl) (t_timer cl) 0) ;;
  on_tx (modify_st (fun t => set_published (gt_published g) (is_input t) (apply_context_free t) t)) ;;
  dispatch_action e depth_fuel act (gt_sender g) false 0 ;;
  on_tx (finalize (te e) (t_finalize cl)).

(** A failed scheduled transaction is reported to its sender.  The result is the
    trace and the time to bill. *)
Definition apply_onerror (cl : clock) (checks : bool) (id : digest_type) (g : generated_transaction_object)
    (deadline start cpu_time_to_bill_us billed : Z) (explicit enforce : bool) : CT (transaction_trace * Z) :=
  s ← get_st;
  p0 ← get_pending;
  let w := the_world s in
  let act := mk_action config.system_account_name onerror_name [mk_level (gt_sender g) config.active_name]
               (pack_onerror (gt_sender_id g) (gt_packed_trx g)) in
  let etrx := made_up s p0 act in
  let session := negb (skip_db_sessions (p_status p0) checks) in
  let e := env_of s p0 checks etrx (transaction_digest etrx) start deadline 3000 explicit enforce in
  undo_on_throw session w
    ('(r, x) ← in_context e billed (run_onerror e cl g act);
     catch_fc
       (lift r ;; tr ← record_receipt id soft_fail x; mret (tr, cpu_time_to_bill_us))
       (fun ex =>
         restore_block p0 ;;
         undo_to session w ;;
         mret (mk_trace None (Some ex),
               match (update_billed_cpu_time (te e) (t_failed cl) (tx x)).1 with Ok c => c | Err _ => 0 end))).

(** A scheduled transaction in its context. *)
Definition run_scheduled (e : exec_env) (cl : clock) (p : pending_state) (d : Z) : X () :=
  s ← get_st;
  lift (check_action (the_db s) (head_num e) (actions (trx (te e)))) ;;
  on_tx (init_for_deferred_trx (te e) (n_timer n) (t_check cl) (t_timer cl) d) ;;
  s ← get_st;
  (if enforce_whiteblacklist (te e) && producing_status p
   then lift (check_actor_list (n_lists n) (conf (cx (tx s))) (bill_to_accounts (tx s))) else mret ()) ;;
  exec e ;;
  on_tx (finalize (te e) (t_finalize cl)).

(** What a hard failure costs. *)
Definition bill_failure (e : exec_env) (x : xstate) (cpu_time : Z) (explicit : bool) : CT Z :=
  let accounts := in_ascending (bill_to_accounts (tx x)) in
  c ← (if explicit then mret cpu_time
       else
         on_world_limits (ResourceLimits.update_account_usage accounts (slot (te e))) ;;
         s ← get_st;
         p ← lift (max_bandwidth_billed_accounts_can_pay (te e) true (set_cx (mk_context (w_db (the_world s)) (c_lists s) [] ∅ ∅) (tx x))).1;
         mret (u32 (Z.min (Z.min cpu_time p.1.1.2) (initial_objective_duration_limit (cpu (tx x))))));
  on_world_limits (ResourceLimits.add_transaction_usage (n_view n) accounts c 0 (slot (te e))) ;;
  mret c.

(** What follows a failure of the transaction itself: the error handler of the
    sender, or a hard failure, or, if another block may do better, nothing. *)
Definition after_failure (cl : clock) (id : digest_type) (g : generated_transaction_object) (e : exec_env) (x : xstate)
    (ex : exn) (deadline cpu_time billed : Z) (explicit : bool) (session : bool) (w : world) : CT transaction_trace :=
  '(tr, cpu_time) ←
    (if negb (gt_sender g =? 0) && negb (failure_is_subjective ex)
     then apply_onerror cl true id g deadline (pseudo_start (cpu (tx x))) cpu_time billed explicit
            (enforce_whiteblacklist (te e))
     else mret (mk_trace None (Some ex), cpu_time));
  match tr_except tr with
  | None => mret tr
  | Some ex =>
      if (if explicit then failure_is_subjective ex else scheduled_failure_is_subjective ex)
      then undo_to session w ;; mret tr
      else
        c ← bill_failure e x cpu_time explicit;
        receipt ← push_receipt (Generated id) hard_fail c 0;
        mret (mk_trace (Some receipt) (Some ex))
  end.

(** The scheduled transaction runs in its own session; the outer one started at
    [w]. *)
Definition run_or_fail (cl cl' : clock) (id : digest_type) (g : generated_transaction_object) (e : exec_env) (p0 : pending_state)
    (deadline billed : Z) (explicit session : bool) (w : world) : CT transaction_trace :=
  s1 ← get_st;
  '(r, x) ← in_context e billed (run_scheduled e cl p0 (gt_published g));
  catch_fc
    (undo_on_throw true (the_world s1) (lift r ;; record_receipt id executed_status x))
    (fun ex =>
      restore_block p0 ;;
      cpu_time ← lift (update_billed_cpu_time (te e) (t_failed cl) (tx x)).1;
      after_failure cl' id g e x ex deadline cpu_time billed explicit session w).

Definition scheduled_env (s : cstate) (p : pending_state) (cl : clock) (id : digest_type) (g : generated_transaction_object)
    (dtrx : transaction) (deadline : Z) (explicit : bool) : exec_env :=
  env_of s p true dtrx id (t_start cl) deadline 0 explicit
    ((gt_sender g =? 0) || negb (sender_avoids_whitelist_blacklist_enforcement (n_lists n) (gt_sender g))).

(** After the object was removed: not ready, expired, or run. *)
Definition retire (cl cl' : clock) (id : digest_type) (g : generated_transaction_object) (p0 : pending_state)
    (deadline billed : Z) (explicit session : bool) (w : world) : CT transaction_trace :=
  st_assert (gt_delay_until g <=? pending_time p0) transaction_exception ;;
  dtrx ← lift (unpack_transaction (gt_packed_trx g));
  if gt_expiration g <? pending_time p0 then
    receipt ← push_receipt (Generated id) expired billed 0;
    mret (mk_trace (Some receipt) None)
  else
    new_trx_context dtrx ;;
    s ← get_st;
    run_or_fail cl cl' id g (scheduled_env s p0 cl id g dtrx deadline explicit) p0 deadline billed explicit session w.

Definition push_scheduled_transaction (cl cl' : clock) (checks : bool) (id : digest_type) (deadline billed : Z) (explicit : bool)
    : CT transaction_trace :=
  s ← get_st;
  g ← lift (of_option (gtrxs (w_db (the_world s)) !! id) unknown_transaction_exception);
  capture (
    p0 ← get_pending;
    let session := negb (skip_db_sessions (p_status p0) checks) in
    undo_on_throw session (the_world s) (
      remove_scheduled_transaction id g ;;
      retire cl cl' id g p0 deadline billed explicit session (the_world s))).

(** ** Blocks *)

Definition on_block_transaction (s : cstate) (p : pending_state) : transaction :=
  made_up s p (mk_action config.system_account_name onblock_name
    [mk_level config.system_account_name config.active_name] (pack_header (HeaderState.bhs_header (c_head s)))).

Definition implicit_metadata (t : transaction) : transaction_metadata :=
  mk_metadata (transaction_digest t) (transaction_digest t) t [] 0 0 true.

(** [pending.reset()]: its session ends undone, unless it was pushed. *)
Definition reset_pending : CT () :=
  modify_st (fun s =>
    match pending s with
    | Some p => match p_session p with
                | Some w => set_revision (revision s - 1) (set_world w (set_pend None s))
                | None => set_pend None s
                end
    | None => s
    end).

(** [catch( ... )] without a rethrow. *)
Definition ignore_errors {A} (m : CT A) : CT () :=
  fun s => match m s with
           | (Err x, s') => if caught x then (Ok (), s') else (Err x, s')
           | (Ok _, s') => (Ok (), s')
           end.

(** A proposed schedule becomes pending when its block is irreversible. *)
Definition promote_proposed (was_pending_promoted : bool) : CT () :=
  s ← get_st;
  p ← get_pending;
  let w := the_world s in
  match (w_proposed w).1 with
  | Some num =>
      if (num <=? HeaderState.dpos_irreversible_blocknum (p_state p))
         && bool_decide (Schedule.producers (HeaderState.pending_schedule (p_state p)) = [])
         && negb was_pending_promoted
      then
        b ← lift (HeaderState.set_new_producers (w_proposed w).2 (p_state p));
        modify_pending (with_state b) ;;
        modify_st (set_world (mk_world (w_db w) (w_cfg w) (None, Schedule.mk_schedule 0 []) (w_dedupe w) (w_tapos w)
                                (w_tabs w) (w_next_tab w) (w_kv w) (w_idx w) (w_global w)))
      else mret ()
  | None => mret ()
  end.

Definition upkeep : CT () :=
  p ← get_pending;
  modify_st (fun s => let w := the_world s in
    set_world (mk_world (w_db w) (w_cfg w) (w_proposed w) (clear_expired_input_transactions (pending_time p) (w_dedupe w))
                 (w_tapos w) (w_tabs w) (w_next_tab w) (w_kv w) (w_idx w) (w_global w)) s) ;;
  on_world_auth (update_producers_authority (Schedule.producers (HeaderState.active_schedule (p_state p)))).

(** Leaving by an exception resets the pending block. *)
Definition guard_pending {A} (m : CT A) : CT A :=
  fun s => match m s with
           | (Err x, s') => (Err x, (reset_pending s').2)
           | r => r
           end.

Definition start_block (cl : clock) (when confirm_block_count : Z) (st : block_status) : CT () :=
  s ← get_st;
  st_assert (bool_decide (pending s = None)) block_validate_exception ;;
  guard_pending (
    (if skip_db_sessions st false then mret ()
     else st_assert (revision s =? HeaderState.bhs_block_num (c_head s)) database_exception ;;
          modify_st (set_revision (revision s + 1))) ;;
    (* the block state replaces the empty one of the new pending state *)
    modify_st (set_pend (Some (mk_pending (if skip_db_sessions st false then None else Some (the_world s))
                                  (c_head s) st [] [] []))) ;;
    b ← lift (HeaderState.generate_next (c_head s) when);
    let '(was_pending_promoted, b) := HeaderState.maybe_promote_pending (HeaderState.set_confirmed confirm_block_count b) in
    modify_pending (with_state b) ;;
    if n_speculative n || negb (bool_decide (st = incomplete)) then
      promote_proposed was_pending_promoted ;;
      s ← get_st;
      p ← get_pending;
      ignore_errors (push_transaction cl true (implicit_metadata (on_block_transaction s p)) time_max
                       (min_transaction_cpu_usage (w_cfg (the_world s))) true) ;;
      upkeep
    else mret ()).

(** [abort_block] *)
Definition abort_block : CT () :=
  modify_st (fun s =>
    match pending s with
    | Some p => if n_speculative n
                then set_unapplied (foldl (fun m t => <[tm_signed_id t := t]> m) (unapplied_transactions s) (p_trxs p)) s
                else s
    | None => s
    end) ;;
  reset_pending.

Definition elastic_parameters (c : chain_config) : ResourceLimits.elastic_limit_parameters * ResourceLimits.elastic_limit_parameters :=
  let rate := ResourceLimits.mk_ratio in
  (ResourceLimits.mk_elastic (ResourceLimits.EOS_PERCENT (max_block_cpu_usage c) (target_block_cpu_usage_pct c))
     (max_block_cpu_usage c) (60 * 1000 / config.block_interval_ms) 1000 (rate 99 100) (rate 1000 999),
   ResourceLimits.mk_elastic (ResourceLimits.EOS_PERCENT (max_block_net_usage c) (target_block_net_usage_pct c))
     (max_block_net_usage c) (60 * 1000 / config.block_interval_ms) 1000 (rate 99 100) (rate 1000 999)).

Definition with_roots (actions_root trx_root : digest_type) (h : Header.signed_block_header) : Header.signed_block_header :=
  let b := Header.header_of h in
  Header.mk_signed
    (Header.mk_header (Header.timestamp b) (Header.producer b) (Header.confirmed b) (Header.previous b) trx_root actions_root
       (Header.schedule_version b) (Header.new_producers b) (Header.header_extensions b))
    (Header.producer_signature h).

(** [set_action_merkle] and [set_trx_merkle] *)
Definition merkle_root (l : list digest_type) : R digest_type := of_option (Merkle.merkle Header.hash_pair l) loop_bound.
Definition set_merkle_roots : CT () :=
  p ← get_pending;
  a ← lift (merkle_root (map action_receipt_digest (p_actions p)));
  t ← lift (merkle_root (map trx_receipt_digest (p_transactions p)));
  modify_pending (fun p => with_state (HeaderState.set_header (with_roots a t (HeaderState.bhs_header (p_state p))) (p_state p)) p).

Definition update_limits : CT () :=
  on_world_limits ResourceLimits.process_account_limit_updates ;;
  s ← get_st;
  on_world_limits (ResourceLimits.set_block_parameters (elastic_parameters (w_cfg (the_world s))).1
                     (elastic_parameters (w_cfg (the_world s))).2) ;;
  p ← get_pending;
  on_world_limits (ResourceLimits.process_block_usage (HeaderState.bhs_block_num (p_state p))) ;;
  s ← get_st;
  on_world_limits (ResourceLimits.set_gmr_parameters (fp_gmr (force_property (w_db (the_world s))))).

Definition summarize (id : digest_type) : CT () :=
  modify_st (fun s => let w := the_world s in
    set_world (mk_world (w_db w) (w_cfg w) (w_proposed w) (w_dedupe w) (create_block_summary (w_tapos w) id) (w_tabs w)
                 (w_next_tab w) (w_kv w) (w_idx w) (w_global w)) s).

Definition finalize_block : CT () :=
  s ← get_st;
  st_assert (bool_decide (is_Some (pending s))) block_validate_exception ;;
  capture (
    update_limits ;;
    set_merkle_roots ;;
    p ← get_pending;
    let id := Header.id (HeaderState.hdr (p_state p)) in
    modify_pending (with_state (HeaderState.set_id id (p_state p))) ;;
    summarize id).

(** [commit_block( false )]: the session of the block is kept. *)
Definition commit_block : CT () := modify_st (set_pend None).

Record signed_block : Type := mk_block
  { b_header : Header.signed_block_header; b_transactions : list transaction_receipt; b_extensions : list (Z * list Z) }.

(** The transactions of the packed receipts are unpacked before any of them runs. *)
Definition decoded (receipt : transaction_receipt) : R (transaction_receipt * option transaction_metadata) :=
  match rc_trx receipt with
  | Packed b => m ← metadata_of b; mret (receipt, Some m)
  | Generated _ => mret (receipt, None)
  end.
Fixpoint decode_all (l : list transaction_receipt) : R (list (transaction_receipt * option transaction_metadata)) :=
  match l with
  | [] => mret []
  | r :: l => x ← decoded r; xs ← decode_all l; mret (x :: xs)
  end.

Definition run_receipt (cl cl' : clock) (r : transaction_receipt * option transaction_metadata) : CT transaction_trace :=
  let cpu := cpu_usage_us (rc_header r.1) in
  match rc_trx r.1, r.2 with
  | Packed _, Some m => push_transaction cl false m time_max cpu true
  | Generated id, _ => push_scheduled_transaction cl cl' false id time_max cpu true
  | Packed _, None => throw undefined_behavior
  end.

Definition can_fail (r : transaction_receipt) : bool :=
  bool_decide (status (rc_header r) = hard_fail) && match rc_trx r with Generated _ => true | Packed _ => false end.

(** A block that is checked: each transaction runs again and must give the same
    receipt.  The clock may show other times at every transaction. *)
Definition apply_receipt (cls : clock * clock) (r : transaction_receipt * option transaction_metadata) : CT () :=
  p ← get_pending;
  tr ← run_receipt cls.1 cls.2 r;
  (match tr_except tr with
   | Some x => if can_fail r.1 then mret () else throw x
   | None => mret ()
   end) ;;
  p' ← get_pending;
  st_assert (bool_decide (0 < length (p_transactions p'))%nat) block_validate_exception ;;
  st_assert (bool_decide (length (p_transactions p') = S (length (p_transactions p)))) block_validate_exception ;;
  st_assert (bool_decide (rc_header <$> last (p_transactions p') = Some (rc_header r.1))) block_validate_exception.

Definition apply_block (cl : clock) (clocks : nat → clock * clock) (b : signed_block) (st : block_status) : CT () :=
  capture (catch_fc (
    st_assert (bool_decide (b_extensions b = [])) block_validate_exception ;;
    let producer_block_id := Header.id (Header.header_of (b_header b)) in
    start_block cl (Header.timestamp (Header.header_of (b_header b))) (Header.confirmed (Header.header_of (b_header b))) st ;;
    rs ← lift (decode_all (b_transactions b));
    for_each (fun r => apply_receipt (clocks r.1) r.2) (zip (seq 0 (length rs)) rs) ;;
    finalize_block ;;
    p ← get_pending;
    st_assert (bool_decide (producer_block_id = Header.id (HeaderState.hdr (p_state p)))) block_validate_exception ;;
    modify_pending (with_state (HeaderState.set_header
      (Header.mk_signed (HeaderState.hdr (p_state p)) (Header.producer_signature (b_header b))) (p_state p))) ;;
    commit_block)
    (fun x => abort_block ;; throw x)).
End Node.

#[global] Arguments failure_is_subjective : simpl never.
#[global] Arguments skip_db_sessions : simpl never.

(** ** What a pushed transaction does *)

Section Push.
Context `{Codec} (n : node_config).
Implicit Types s : cstate.

Lemma bind_run {A B} (m : CT A) (f : A → CT B) s a s1 : m s = (Ok a, s1) → (m ≫= f) s = f a s1.
Proof. intros Hm. unfold mbind, st_bind. by rewrite Hm. Qed.
Lemma get_pending_at s p : pending s = Some p → get_pending s = (Ok p, s).
Proof. intros Hp. unfold get_pending, mbind, st_bind, get_st, lift. by rewrite Hp. Qed.

Lemma modify_pending_at f s p : pending s = Some p → modify_pending f s = (Ok (), set_pend (Some (f p)) s).
Proof. intros Hp. unfold modify_pending, get_pending, mbind, st_bind, get_st, lift. by rewrite Hp. Qed.

Lemma push_receipt_at t st c u s p : pending s = Some p → u mod 8 = 0 → 0 ≤ u ≤ u64_max →
  let r := mk_trx_receipt_header st (u32 c) (u32 (u / 8)) in
  push_receipt t st c u s = (Ok r, set_pend (Some (with_transactions (p_transactions p ++ [mk_trx_receipt r t]) p)) s).
Proof.
  intros Hp Hm Hu r. unfold push_receipt. pose proof (Z.div_mod u 8 ltac:(lia)) as Hd.
  assert (u64 (u / 8 * 8) =? u = true) as ->.
  { apply Z.eqb_eq. rewrite u64_small; lia. }
  unfold mbind, st_bind, st_assert, lift, eos_assert, mret, st_ret. by rewrite (modify_pending_at _ _ _ Hp).
Qed.

Lemma push_receipt_cases t st c u s p r s' : pending s = Some p → push_receipt t st c u s = (r, s') →
  (∃ x, r = Err x ∧ s' = s) ∨
  (let h := mk_trx_receipt_header st (u32 c) (u32 (u / 8)) in
   r = Ok h ∧ s' = set_pend (Some (with_transactions (p_transactions p ++ [mk_trx_receipt h t]) p)) s).
Proof.
  intros Hp. unfold push_receipt, mbind, st_bind, st_assert, lift, eos_assert. destruct (_ =? _).
  - rewrite (modify_pending_at _ _ _ Hp). intros [= <- <-]. auto.
  - intros [= <- <-]. eauto.
Qed.

(** The pending block with one transaction more. *)
Definition extended (p : pending_state) (m : transaction_metadata) (r : transaction_receipt_header) (x : xstate) : pending_state :=
  with_actions (p_actions p ++ executed x)
    (if tm_implicit m then p
     else with_trxs (p_trxs p ++ [m]) (with_transactions (p_transactions p ++ [mk_trx_receipt r (Packed (tm_packed m))]) p)).

Lemma restore_extended p m r x s : pending s = Some (extended p m r x) →
  restore_block p s = (Ok (), set_pend (Some p) s).
Proof.
  intros Hp. unfold restore_block. rewrite (modify_pending_at _ _ _ Hp). repeat f_equal. destruct p as [ses st bs tr ts ac].
  unfold extended. destruct (tm_implicit m); cbn; by rewrite ?take_app_length, ?firstn_all.
Qed.

Lemma restore_same p s : pending s = Some p → restore_block p s = (Ok (), set_pend (Some p) s).
Proof.
  intros Hp. unfold restore_block. rewrite (modify_pending_at _ _ _ Hp). repeat f_equal. destruct p as [ses st bs tr ts ac].
  cbn. by rewrite !firstn_all.
Qed.

Lemma receipt_of_cases m x s p r s' : pending s = Some p → receipt_of m x s = (r, s') →
  (∃ ex, r = Err ex ∧ s' = s) ∨
  (∃ h, r = Ok h ∧ set_pend (Some (with_actions (p_actions p ++ executed x) (default p (pending s')))) s'
                   = set_pend (Some (extended p m h x)) s ∧ pending s' = Some (with_actions (p_actions p) (extended p m h x))).
Proof.
  intros Hp. unfold receipt_of, extended. destruct (tm_implicit m).
  - intros [= <- <-]. right. eexists. split; [done|]. rewrite Hp. cbn. split; [done|]. by destruct p.
  - intros [(h & s1 & H1 & H2)|(ex & H1 & ->)]%st_bind_inv.
    + apply (push_receipt_cases _ _ _ _ _ p) in H1; [|done]. destruct H1 as [(ex & ? & _)|[[= ->] ->]]; [done|].
      unfold mbind, st_bind in H2. erewrite modify_pending_at in H2 by done. injection H2 as <- <-.
      right. eexists. split; [done|]. by destruct p.
    + apply (push_receipt_cases _ _ _ _ _ p) in H1; [|done]. destruct H1 as [(ex' & [= <-] & ->)|[? _]]; [|done]. eauto.
Qed.

(** ** Every way a push can end *)

Section PushTransaction.
Context (cl : clock) (checks : bool) (m : transaction_metadata) (deadline billed : Z) (explicit : bool).
Context (s : cstate) (p : pending_state) (Hp : pending s = Some p) (Hses : skip_db_sessions n (p_status p) checks = false).

Let e := push_env n s p cl checks m deadline explicit.

(** The transaction ran to its end in [x]. *)
Definition ran (x : xstate) : Prop :=
  run_transaction n e cl m (skips_recording n m) (enter e billed s) = (Ok (), x).

(** Either nothing is left of it, or it is in the block. *)
Definition push_end (r : R transaction_trace) (s' : cstate) : Prop :=
  c_head s' = c_head s ∧ revision s' = revision s ∧
  ((the_world s' = the_world s ∧ pending s' = Some p ∧
      unapplied_transactions s' = unapplied_transactions s ∧ ∃ x, r = Err x) ∨
   (the_world s' = the_world s ∧ pending s' = Some p ∧
      ∃ x, r = Ok (mk_trace None (Some x)) ∧
        unapplied_transactions s' = if failure_is_subjective x then unapplied_transactions s
                                    else delete (tm_signed_id m) (unapplied_transactions s)) ∨
   ∃ x h, ran x ∧ r = Ok (mk_trace (Some h) None) ∧
     unapplied_transactions s' = (if tm_implicit m then unapplied_transactions s
                                  else delete (tm_signed_id m) (unapplied_transactions s)) ∧
     if negb (n_speculative n) && producing_status p then the_world s' = the_world s ∧ pending s' = Some p
     else the_world s' = world_of x ∧ pending s' = Some (extended p m h x)).

Lemma push_failed_end x s1 :
  pending s1 = Some p → c_head s1 = c_head s → revision s1 = revision s →
  unapplied_transactions s1 = unapplied_transactions s →
  ∃ s', ((if failure_is_subjective x then mret () else forget_unapplied m) ;;
         undo_to true (the_world s) ;; mret (mk_trace None (Some x)) : CT transaction_trace) s1
        = (Ok (mk_trace None (Some x)), s') ∧ push_end (Ok (mk_trace None (Some x))) s'.
Proof.
  intros H1 H2 H3 H4. unfold undo_to, forget_unapplied, mbind, st_bind.
  destruct (failure_is_subjective x) eqn:E; (eexists; split; [reflexivity|]); unfold push_end; cbn; rewrite ?H4;
    (split_and!; try done); right; left; (split_and!; try done); exists x; by rewrite E.
Qed.

Lemma keep_or_undo_end x h s1 : ran x → the_world s1 = world_of x → pending s1 = Some (extended p m h x) →
  c_head s1 = c_head s → revision s1 = revision s → unapplied_transactions s1 = unapplied_transactions s →
  ∃ s', (keep_or_undo n true (the_world s) p ;; (if tm_implicit m then mret () else forget_unapplied m) ;;
         mret (mk_trace (Some h) None) : CT transaction_trace) s1 = (Ok (mk_trace (Some h) None), s') ∧
    push_end (Ok (mk_trace (Some h) None)) s'.
Proof.
  intros Hx Hw H1 H2 H3 H4. unfold keep_or_undo, undo_to, mbind, st_bind. destruct (negb (n_speculative n) && _) eqn:En.
  - cbn -[extended restore_block]. rewrite (restore_extended p m h x) by done.
    destruct (tm_implicit m) eqn:Ei; (eexists; split; [reflexivity|]); split_and!; try done; right; right; exists x, h;
      rewrite En, Ei; cbn; by rewrite ?H4.
  - destruct (tm_implicit m) eqn:Ei; (eexists; split; [reflexivity|]); split_and!; try done; right; right; exists x, h;
      rewrite En, Ei; cbn; by rewrite ?H4.
Qed.

Lemma push_in_session_cases r s' : push_in_session n cl m billed e p true (the_world s) s = (r, s') → push_end r s'.
Proof using Hp.
  unfold push_in_session, undo_on_throw, catch_fc at 1.
  unfold in_context at 1. unfold mbind at 1, st_bind at 1.
  destruct (run_transaction n e cl m (skips_recording n m) (enter e billed s)) as [[[]|x1] x] eqn:Er.
  - unfold lift at 1, mbind at 1, st_bind at 1. unfold catch_fc, mbind at 1, st_bind at 1.
    destruct (receipt_of m x (leave x s)) as [q t] eqn:Eq.
    apply (receipt_of_cases _ _ _ p) in Eq; [|done]. destruct Eq as [(ex & -> & ->)|(h & -> & Et & Pt)].
    + assert (((restore_block p ;; throw ex) : CT transaction_receipt_header) (leave x s) = (Err ex, leave x s)) as Hr.
      { unfold mbind, st_bind. rewrite restore_same by done. cbn. by rewrite <- Hp. }
      destruct (is_fc ex) eqn:Ef.
      * rewrite Hr, Ef. destruct (push_failed_end ex (leave x s)) as (s2 & -> & He); [done..|]. by intros [= <- <-].
      * rewrite Ef. intros [= <- <-]. split_and!; [done..|]. left. eauto.
    + unfold mbind at 1, st_bind at 1, append_actions. rewrite (modify_pending_at _ _ _ Pt).
      match goal with |- context [set_pend (Some ?a) t] => replace (set_pend (Some a) t) with
        (set_pend (Some (extended p m h x)) (leave x s)) by (rewrite <- Et, Pt; done) end.
      destruct (keep_or_undo_end x h (set_pend (Some (extended p m h x)) (leave x s))) as (s2 & Hs2 & He); [done..|].
      rewrite Hs2. by intros [= <- <-].
  - unfold lift at 1, mbind at 1, st_bind at 1. destruct (is_fc x1).
    + destruct (push_failed_end x1 (leave x s)) as (s2 & -> & He); [done..|]. by intros [= <- <-].
    + intros [= <- <-]. split_and!; [done..|]. left. eauto.
Qed.

Lemma push_transaction_cases r s' :
  push_transaction n cl checks m deadline billed explicit s = (r, s') → push_end r s'.
Proof using Hp Hses.
  unfold push_transaction, mbind, st_bind, st_assert, lift, eos_assert, get_st.
  assert (∀ x, push_end (Err x) s) as Herr by (intros x; split_and!; [done..|]; left; eauto).
  destruct (negb (deadline =? 0)); [|intros [= <- <-]; apply Herr].
  destruct (check_action _ _ _) as [[]|x]; [|intros [= <- <-]; apply Herr].
  unfold capture, get_pending, mbind, st_bind, get_st, lift. rewrite Hp. cbn [of_option]. unfold new_trx_context, st_assert, lift, eos_assert.
  destruct (bool_decide _); [|intros [= <- <-]; apply Herr]. rewrite Hses. cbn [negb].
  destruct (push_in_session _ _ _ _ _ _ _ _ _) as [[tr|x] s1] eqn:E; intros [= <- <-].
  - by apply push_in_session_cases.
  - apply push_in_session_cases in E as (H1 & H2 & [(? & ? & ? & _)|[(_ & _ & y & ? & _)|(x' & h & _ & ? & _)]]); [|done..].
    split_and!; [done..|]. left. eauto.
Qed.
End PushTransaction.

(** ** Every way a scheduled transaction can end *)

Definition frame s s' : Prop :=
  c_head s' = c_head s ∧ revision s' = revision s ∧ unapplied_transactions s' = unapplied_transactions s.

(** The pending block with the receipt of a scheduled transaction. *)
Definition retired (p : pending_state) (id : digest_type) (h : transaction_receipt_header) (l : list action_receipt) : pending_state :=
  with_actions (p_actions p ++ l) (with_transactions (p_transactions p ++ [mk_trx_receipt h (Generated id)]) p).

Lemma restore_retired p id h l s : pending s = Some (retired p id h l) → restore_block p s = (Ok (), set_pend (Some p) s).
Proof.
  intros Hp. unfold restore_block. rewrite (modify_pending_at _ _ _ Hp). repeat f_equal. destruct p. cbn.
  by rewrite !take_app_length, firstn_all.
Qed.

Lemma checks_session st : skip_db_sessions n st true = false.
Proof. unfold skip_db_sessions. apply andb_false_r. Qed.

Lemma record_receipt_cases id st x s p r s' : pending s = Some p → record_receipt id st x s = (r, s') →
  (∃ ex, r = Err ex ∧ s' = s) ∨
  ∃ h, status h = st ∧ r = Ok (mk_trace (Some h) None) ∧ s' = set_pend (Some (retired p id h (executed x))) s.
Proof.
  intros Hp [(h & s1 & H1 & H2)|(ex & H1 & ->)]%st_bind_inv; apply (push_receipt_cases _ _ _ _ _ p) in H1; try done.
  - destruct H1 as [(? & ? & _)|[[= ->] ->]]; [done|]. right. unfold append_actions, mbind, st_bind in H2.
    erewrite modify_pending_at in H2 by done. injection H2 as <- <-. eexists. split; [|split; [reflexivity|]]; [done|].
    by destruct p.
  - destruct H1 as [(? & [= <-] & ->)|[? _]]; [|done]. left. eauto.
Qed.

(** A handler that restores the block and undoes the session. *)
Lemma undone {A} w p (a : A) s : pending s = Some p →
  (restore_block p ;; undo_to true w ;; mret a : CT A) s = (Ok a, set_world w (set_pend (Some p) s)).
Proof. intros Hp. by rewrite (bind_run _ _ _ _ _ (restore_same _ _ Hp)). Qed.

(** The error handler of the sender either fails without a trace or ends in [x]. *)
Lemma apply_onerror_cases cl id g deadline start c billed explicit enforce s p r s' :
  pending s = Some p → apply_onerror n cl true id g deadline start c billed explicit enforce s = (r, s') →
  frame s s' ∧
  ((the_world s' = the_world s ∧ pending s' = Some p ∧
      ((∃ ex, r = Err ex) ∨ ∃ ex c', r = Ok (mk_trace None (Some ex), c'))) ∨
   ∃ e act x h, run_onerror n e cl g act (enter e billed s) = (Ok (), x) ∧ status h = soft_fail ∧
     r = Ok (mk_trace (Some h) None, c) ∧ the_world s' = world_of x ∧ pending s' = Some (retired p id h (executed x))).
Proof.
  intros Hp. unfold apply_onerror. rewrite (bind_run get_st _ s s s eq_refl), (bind_run _ _ _ _ _ (get_pending_at _ _ Hp)).
  rewrite checks_session. cbn [negb]. set (act := mk_action _ _ _ _). set (e := env_of _ _ _ _ _ _ _ _ _ _ _).
  unfold undo_on_throw.
  destruct (run_onerror n e cl g act (enter e billed s)) as [q x] eqn:Er.
  rewrite (bind_run (in_context e billed _) _ s (q, x) (leave x s)) by (unfold in_context; by rewrite Er).
  unfold catch_fc. destruct q as [[]|x1].
  - rewrite (bind_run (lift (Ok ())) _ _ () _ eq_refl).
    destruct (record_receipt id soft_fail x (leave x s)) as [q t] eqn:Eq.
    pose proof Eq as Ec. apply (record_receipt_cases _ _ _ _ p) in Ec; [|done]. destruct Ec as [(ex & -> & ->)|(h & Hh & -> & ->)].
    + unfold mbind at 1, st_bind at 1. rewrite Eq. destruct (is_fc ex).
      * rewrite undone by done. intros [= <- <-]. split; [done|]. left. split_and!; [done..|]. right. eauto.
      * intros [= <- <-]. split; [done|]. left. split_and!; [done..|]. left. eauto.
    + rewrite (bind_run _ _ _ _ _ Eq). intros [= <- <-]. split; [done|]. right. by exists e, act, x, h.
  - unfold mbind at 1, st_bind at 1, lift at 1. destruct (is_fc x1).
    + rewrite undone by done. intros [= <- <-]. split; [done|]. left. split_and!; [done..|]. right. eauto.
    + intros [= <- <-]. split; [done|]. left. split_and!; [done..|]. left. eauto.
Qed.

(** Nothing but the limits and usages of the accounts changes, and none is lost. *)
Definition limits_moved (w w' : world) : Prop :=
  ∃ l, w' = with_db (set_rl l (w_db w)) w ∧ ∀ a, ResourceLimits.listed a (limits (w_db w)) → ResourceLimits.listed a l.
#[local] Instance limits_moved_preorder : PreOrder limits_moved.
Proof.
  split.
  - intros [[]]. by eexists.
  - intros w1 w2 w3 (l1 & -> & H1) (l2 & -> & H2). exists l2. split; [done|]. intros a Ha. by apply H2, H1.
Qed.

Definition quiet s s' : Prop := frame s s' ∧ pending s' = pending s ∧ limits_moved (the_world s) (the_world s').
#[local] Instance quiet_preorder : PreOrder quiet.
Proof.
  split.
  - by intros s.
  - intros s1 s2 s3 ((? & ? & ?) & ? & L1) ((? & ? & ?) & ? & L2). unfold quiet, frame. split_and!; try congruence. by etrans.
Qed.
Definition quietly {A} (m : CT A) : Prop := ∀ s, quiet s (m s).2.
Lemma quietly_bind {A B} (m : CT A) (f : A → CT B) : quietly m → (∀ a, quietly (f a)) → quietly (m ≫= f).
Proof.
  intros Hm Hf s. unfold mbind, st_bind. specialize (Hm s). destruct (m s) as [[a|x] s1]; [|done].
  etrans; [exact Hm|apply Hf].
Qed.
Lemma quietly_limits {A} (m : ST RLdb exn A) : (∀ a, keeps (ResourceLimits.listed a) m) → quietly (on_world_limits m).
Proof.
  intros Hm s. unfold on_world_limits. destruct (m _) as [r l] eqn:E. split_and!; try done. exists l. split; [done|].
  intros a Ha. specialize (Hm a _ Ha). by rewrite E in Hm.
Qed.

Lemma bill_failure_quiet e x c explicit : quietly (bill_failure n e x c explicit).
Proof.
  unfold bill_failure. apply quietly_bind; [|intros c'; apply quietly_bind; [apply quietly_limits; eauto with chain|by intros _ s]].
  destruct explicit; [by intros s|]. apply quietly_bind; [apply quietly_limits; eauto with chain|intros _].
  apply quietly_bind; [by intros s|intros s1]. apply quietly_bind; [|by intros ? s]. by intros s.
Qed.

Section Scheduled.
Context (cl cl' : clock) (id : digest_type) (g : generated_transaction_object) (p : pending_state).
Context (deadline billed : Z) (explicit : bool) (w : world).

Definition retriable (x : exn) : bool := if explicit then failure_is_subjective x else scheduled_failure_is_subjective x.

(** The receipt that ends the scheduled transaction [g], which was taken out of the
    database in [s], says what became of it. *)
Definition settled s (r : R transaction_trace) s' : Prop :=
  ∃ h l y, r = Ok (mk_trace (Some h) y) ∧ pending s' = Some (retired p id h l) ∧
    match status h with
    | executed_status => y = None ∧ ∃ e x, run_scheduled n e cl p (gt_published g) (enter e billed s) = (Ok (), x) ∧
                                           l = executed x ∧ the_world s' = world_of x
    | soft_fail => y = None ∧ gt_sender g ≠ 0 ∧
                   ∃ e act s1 x, the_world s1 = the_world s ∧ run_onerror n e cl' g act (enter e billed s1) = (Ok (), x) ∧
                                 l = executed x ∧ the_world s' = world_of x
    | hard_fail => l = [] ∧ (∃ z, y = Some z ∧ retriable z = false) ∧ limits_moved (the_world s) (the_world s')
    | expired => y = None ∧ l = [] ∧ gt_expiration g < pending_time p ∧ the_world s' = the_world s
    | delayed => False
    end.

(** Every end of it: without a trace, or with one receipt. *)
Definition scheduled_end s (r : R transaction_trace) s' : Prop :=
  frame s s' ∧
  ((∃ y, r = Err y ∧ pending s' = Some p) ∨
   (∃ y, r = Ok (mk_trace None (Some y)) ∧ pending s' = Some p ∧ the_world s' = w ∧ retriable y = true) ∨
   settled s r s').

Lemma hard_failure_cases e x c y s s1 r s' : pending s1 = Some p → frame s s1 → the_world s1 = the_world s →
  (if retriable y then undo_to true w ;; mret (mk_trace None (Some y))
   else c' ← bill_failure n e x c explicit;
        receipt ← push_receipt (Generated id) hard_fail c' 0;
        mret (mk_trace (Some receipt) (Some y))) s1 = (r, s') → scheduled_end s r s'.
Proof.
  intros Hp Hf Hw. destruct (retriable y) eqn:Ey.
  - intros [= <- <-]. split; [done|]. right; left. by exists y.
  - intros [(c' & s2 & H1 & H2)|(ex & H1 & ->)]%st_bind_inv; pose proof (bill_failure_quiet e x c explicit s1) as Hq; rewrite H1 in Hq;
      destruct Hq as ((Q1 & Q2 & Q3) & Q4 & Q5), Hf as (F1 & F2 & F3); cbn [snd] in *.
    + apply st_bind_inv in H2 as [(h & s3 & H3 & [= <- <-])|(ex & H3 & ->)];
        apply (push_receipt_cases _ _ _ _ _ p) in H3; try congruence.
      * destruct H3 as [(? & ? & _)|[[= ->] ->]]; [done|]. split; [split_and!; cbn; congruence|]. right; right.
        eexists _, [], _. split; [done|]. cbn. split; [unfold retired; cbn; by rewrite app_nil_r; destruct p|].
        split_and!; [done|eauto|]. by rewrite Hw in Q5.
      * destruct H3 as [(? & [= <-] & ->)|[? _]]; [|done]. split; [split_and!; congruence|]. left. exists ex. split; congruence.
    + split; [split_and!; congruence|]. left. exists ex. split; congruence.
Qed.

Lemma after_failure_cases e x y c s s1 r s' : pending s1 = Some p → frame s s1 → the_world s1 = the_world s →
  after_failure n cl' id g e x y deadline c billed explicit true w s1 = (r, s') → scheduled_end s r s'.
Proof.
  intros Hp Hf Hw [([tr c'] & s2 & H1 & H2)|(ex & H1 & ->)]%st_bind_inv.
  - destruct (negb (gt_sender g =? 0) && _) eqn:Eg.
    + apply (apply_onerror_cases _ _ _ _ _ _ _ _ _ _ p) in H1 as [(F1 & F2 & F3) H1]; [|done]. destruct Hf as (G1 & G2 & G3).
      assert (frame s s2) as Hf2 by (split_and!; congruence).
      destruct H1 as [(Hw2 & Hp2 & [[? ?]|(ex & c2 & [= -> ->])])|(e' & act & x' & h & Hr & Hh & [= -> ->] & Hw2 & Hp2)]; [done|..].
      * eapply hard_failure_cases; [exact Hp2|exact Hf2|congruence|exact H2].
      * injection H2 as <- <-. split; [done|]. right; right. exists h, (executed x'), None. rewrite Hh. split_and!; [done..| |].
        -- apply andb_prop in Eg as [Eg _]. by apply negb_true_iff, Z.eqb_neq in Eg.
        -- exists e', act, s1, x'. by split_and!.
    + injection H1 as <- <- <-. eapply hard_failure_cases; [exact Hp|exact Hf|exact Hw|exact H2].
  - destruct (negb (gt_sender g =? 0) && _); [|done].
    apply (apply_onerror_cases _ _ _ _ _ _ _ _ _ _ p) in H1 as [(F1 & F2 & F3) H1]; [|done]. destruct Hf as (G1 & G2 & G3).
    split; [split_and!; congruence|].
    destruct H1 as [(_ & ? & _)|(e' & act & x' & h & _ & _ & ? & _)]; [left; eauto|done].
Qed.

Lemma run_or_fail_cases e s r s' : pending s = Some p →
  run_or_fail n cl cl' id g e p deadline billed explicit true w s = (r, s') → scheduled_end s r s'.
Proof.
  intros Hp. unfold run_or_fail. rewrite (bind_run get_st _ s s s eq_refl).
  destruct (run_scheduled n e cl p (gt_published g) (enter e billed s)) as [q x] eqn:Er.
  rewrite (bind_run (in_context e billed _) _ s (q, x) (leave x s)) by (unfold in_context; by rewrite Er).
  assert (∀ y, (if is_fc y then
                  (restore_block p ;; c ← lift (update_billed_cpu_time (te e) (t_failed cl) (tx x)).1;
                   after_failure n cl' id g e x y deadline c billed explicit true w) (set_world (the_world s) (leave x s))
                else (Err y, set_world (the_world s) (leave x s))) = (r, s') → scheduled_end s r s') as Hfail.
  { intros y. destruct (is_fc y).
    - rewrite (bind_run _ _ _ _ _ (restore_same p (set_world (the_world s) (leave x s)) Hp)).
      intros [(c & s2 & [= H1 <-] & H2)|(ex & [= H1 <-] & ->)]%st_bind_inv; [eapply after_failure_cases; [| | |exact H2]; done|].
      split; [done|]. left. eauto.
    - intros [= <- <-]. split; [done|]. left. eauto. }
  unfold catch_fc, undo_on_throw. destruct q as [[]|y]; [|by apply Hfail].
  rewrite (bind_run (lift (Ok ())) _ _ () _ eq_refl).
  destruct (record_receipt id executed_status x (leave x s)) as [q t] eqn:Eq.
  apply (record_receipt_cases _ _ _ _ p) in Eq; [|done]. destruct Eq as [(y & -> & ->)|(h & Hh & -> & ->)]; [by apply Hfail|].
  intros [= <- <-]. split; [done|]. right; right. exists h, (executed x), None. rewrite Hh. split_and!; [done..|]. by exists e, x.
Qed.

Lemma retire_cases s r s' : pending s = Some p →
  retire n cl cl' id g p deadline billed explicit true w s = (r, s') → scheduled_end s r s'.
Proof.
  intros Hp. assert (∀ y, scheduled_end s (Err y) s) as Herr by (intros y; split; [done|]; left; eauto).
  intros [([] & s1 & H1 & H2)|(y & H1 & ->)]%st_bind_inv.
  - unfold st_assert, lift, eos_assert in H1. destruct (gt_delay_until g <=? _); [|done]. injection H1 as <-.
    apply st_bind_inv in H2 as [(t & s2 & [= H3 <-] & H4)|(y & [= H3 <-] & ->)]; [|apply Herr].
    destruct (gt_expiration g <? pending_time p) eqn:Ex.
    + apply st_bind_inv in H4 as [(h & s3 & H5 & [= <- <-])|(y & H5 & ->)]; apply (push_receipt_cases _ _ _ _ _ p) in H5; try done.
      * destruct H5 as [(? & ? & _)|[[= ->] ->]]; [done|]. split; [done|]. right; right. eexists _, [], _. split; [done|]. cbn.
        split; [unfold retired; cbn; by rewrite app_nil_r; destruct p|]. split_and!; try done. by apply Z.ltb_lt.
      * destruct H5 as [(? & [= <-] & ->)|[? _]]; [|done]. apply Herr.
    + apply st_bind_inv in H4 as [([] & s3 & H5 & H6)|(y & H5 & ->)]; unfold new_trx_context, st_assert, lift, eos_assert in H5;
        destruct (bool_decide _); try done; injection H5 as <-; [|subst; apply Herr].
      rewrite (bind_run get_st _ s s s eq_refl) in H6. by eapply run_or_fail_cases.
  - unfold st_assert, lift, eos_assert in H1. destruct (gt_delay_until g <=? _); [done|]. injection H1 as <- <-. apply Herr.
Qed.
End Scheduled.

(** The world without a scheduled transaction, which is no longer charged for. *)
Definition unscheduled (id : digest_type) (w w' : world) : Prop :=
  ∃ w1, limits_moved w w1 ∧ w' = with_db (set_gtrxs (delete id (gtrxs (w_db w1))) (w_db w1)) w1.

Lemma removed_quiet id g s : ∃ r s1, remove_scheduled_transaction id g s = (r, s1) ∧ frame s s1 ∧ pending s1 = pending s ∧
  (r = Ok () → unscheduled id (the_world s) (the_world s1)).
Proof.
  unfold remove_scheduled_transaction, modify_database. set (m := ResourceLimits.add_pending_ram_usage _ _).
  destruct (quietly_limits m ltac:(intros a; apply ResourceLimits.add_pending_ram_usage_listed) s) as (Hf & Hp & Hl).
  unfold mbind, st_bind. destruct (on_world_limits m s) as [[[]|x] s1]; (eexists _, _; split; [reflexivity|]); split_and!; try done.
  intros _. by exists (the_world s1).
Qed.

Lemma push_scheduled_cases cl cl' checks id deadline billed explicit s p r s' :
  pending s = Some p → skip_db_sessions n (p_status p) checks = false →
  push_scheduled_transaction n cl cl' checks id deadline billed explicit s = (r, s') →
  frame s s' ∧
  ((the_world s' = the_world s ∧ pending s' = Some p ∧
      ((∃ y, r = Err y) ∨ ∃ y, r = Ok (mk_trace None (Some y)) ∧ retriable explicit y = true)) ∨
   ∃ g s1, gtrxs (w_db (the_world s)) !! id = Some g ∧ unscheduled id (the_world s) (the_world s1) ∧
     settled cl cl' id g p billed explicit s1 r s').
Proof.
  intros Hp Hses. unfold push_scheduled_transaction. rewrite (bind_run get_st _ s s s eq_refl).
  destruct (gtrxs (w_db (the_world s)) !! id) as [g|] eqn:Eg; [|intros [= <- <-]; split; [done|]; left; eauto].
  rewrite (bind_run (lift (of_option (Some g) _)) _ s g s eq_refl). unfold capture.
  rewrite (bind_run _ _ _ _ _ (get_pending_at _ _ Hp)), Hses. cbn [negb]. unfold undo_on_throw.
  destruct (removed_quiet id g s) as (q & s1 & Hq & (F1 & F2 & F3) & Hp1 & Hd).
  destruct q as [[]|y].
  - rewrite (bind_run _ _ _ _ _ Hq). destruct (retire _ _ _ _ _ _ _ _ _ _ _ _) as [q s2] eqn:E.
    apply retire_cases in E as [(G1 & G2 & G3) E]; [|congruence].
    assert (frame s s2) as Hf by (split_and!; congruence).
    destruct E as [(y & -> & ?)|[(y & -> & ? & ? & ?)|(h & l & y & -> & Hs)]]; intros [= <- <-].
    + split; [exact Hf|]. left. split_and!; [done..|]. left. eauto.
    + split; [exact Hf|]. left. split_and!; [done..|]. right. eauto.
    + split; [exact Hf|]. right. exists g, s1. split_and!; [done..|by apply Hd|]. by exists h, l, y.
  - unfold mbind, st_bind. rewrite Hq. intros [= <- <-]. split; [by split_and!|]. left. split_and!; [done|cbn; congruence|]. left. eauto.
Qed.
End Push.
End Controller.
