(* ===== verification/Blocks.v ===== *)
(** * Blocks are built from whole transactions

    What [Controller] promises, in three steps.  A transaction that is pushed is in
    the block with its receipt and its actions, or it leaves no trace, and so does a
    scheduled one.  The session of a block is kept from its start to its end, so
    that a block that fails is undone as a whole.  And a block that a node accepts
    is the block it built itself: the same receipts and the same id. *)

From S2P Require Import Prelude Exceptions Name Merkle BlockHeader HeaderState EosLib ResourceLimits Authority AuthorizationManager NativeContract ContractTables Admission TransactionContext Execution Controller.

Module Blocks.
Import AuthorizationManager Native Admission TransactionContext Tables Execution Controller.

(** ** Handlers *)

Section Handlers.
Context (P : cstate → Prop).

Lemma keeps_catch {A} (m : CT A) g : keeps P m → (∀ x, keeps P (g x)) → keeps P (catch_fc m g).
Proof.
  intros Hm Hg s Hs. unfold catch_fc. specialize (Hm s Hs). destruct (m s) as [[a|x] s1]; [done|].
  destruct (is_fc x); [by apply Hg|done].
Qed.
Lemma keeps_capture {A} (m : CT A) : keeps P m → keeps P (capture m).
Proof. intros Hm s Hs. unfold capture. specialize (Hm s Hs). by destruct (m s) as [[a|x] s1]. Qed.
Lemma keeps_ignore {A} (m : CT A) : keeps P m → keeps P (ignore_errors m).
Proof.
  intros Hm s Hs. unfold ignore_errors. specialize (Hm s Hs). destruct (m s) as [[a|x] s1]; [done|]. by destruct (caught x).
Qed.
Lemma keeps_get_pending : keeps P get_pending.
Proof. intros s Hs. unfold get_pending. by destruct (pending s). Qed.
End Handlers.

(** ** The session of a block *)

Section Sessions.
Context `{Codec} (n : node_config) (w : world) (h : HeaderState.block_header_state) (v : Z).

(** A block is pending on the head [h], over the database [w]. *)
Definition open_block (s : cstate) : Prop :=
  c_head s = h ∧ revision s = v ∧ ∃ p, pending s = Some p ∧ p_session p = Some w.

Lemma open_modify f : (∀ p, p_session (f p) = p_session p) → keeps open_block (modify_pending f).
Proof.
  intros Hf s (Hh & Hv & p & Hp & Hw). rewrite (modify_pending_at _ _ _ Hp). split_and!; [done..|].
  eexists. split; [done|]. by rewrite Hf.
Qed.
Lemma open_undo {A} b w' (m : CT A) : keeps open_block m → keeps open_block (undo_on_throw b w' m).
Proof. intros Hm s Hs. unfold undo_on_throw. specialize (Hm s Hs). destruct (m s) as [[a|x] s1]; [done|]. by destruct b. Qed.
Lemma open_context e billed (m : X ()) : keeps open_block (in_context e billed m).
Proof. intros s Hs. unfold in_context. by destruct (m _). Qed.
Lemma open_limits {A} (m : ST RLdb exn A) : keeps open_block (on_world_limits m).
Proof. intros s Hs. unfold on_world_limits. by destruct (m _). Qed.
Lemma open_auth {A} (m : ST auth_db exn A) : keeps open_block (on_world_auth m).
Proof. intros s Hs. unfold on_world_auth. by destruct (m _). Qed.

Ltac opened :=
  repeat first
    [ progress keep ltac:(done)
    | lazymatch goal with
      | |- keeps _ get_pending => apply keeps_get_pending
      | |- keeps _ (catch_fc _ _) => apply keeps_catch; [|intros ?]
      | |- keeps _ (capture _) => apply keeps_capture
      | |- keeps _ (undo_on_throw _ _ _) => apply open_undo
      | |- keeps _ (ignore_errors _) => apply keeps_ignore
      | |- keeps _ (in_context _ _ _) => apply open_context
      | |- keeps _ (on_world_limits _) => apply open_limits
      | |- keeps _ (on_world_auth _) => apply open_auth
      | |- keeps _ (modify_pending _) => apply open_modify; done
      end ].

Lemma open_restore p : keeps open_block (restore_block p).
Proof. unfold restore_block. opened. Qed.

Lemma open_push cl checks m deadline billed explicit : keeps open_block (push_transaction n cl checks m deadline billed explicit).
Proof.
  unfold push_transaction, new_trx_context, push_in_session, receipt_of, push_receipt, append_actions, keep_or_undo,
    forget_unapplied, undo_to. opened; apply open_restore.
Qed.

Lemma open_onerror cl checks id g deadline start c billed explicit enforce :
  keeps open_block (apply_onerror n cl checks id g deadline start c billed explicit enforce).
Proof.
  unfold apply_onerror, record_receipt, push_receipt, append_actions, undo_to. opened; apply open_restore.
Qed.

Lemma open_scheduled cl cl' checks id deadline billed explicit :
  keeps open_block (push_scheduled_transaction n cl cl' checks id deadline billed explicit).
Proof.
  unfold push_scheduled_transaction, remove_scheduled_transaction, modify_database, retire, new_trx_context, run_or_fail, after_failure,
    bill_failure, record_receipt, push_receipt, append_actions, undo_to. opened; first [apply open_restore|apply open_onerror].
Qed.

Lemma open_receipt cls r : keeps open_block (apply_receipt n cls r).
Proof. unfold apply_receipt, run_receipt. opened; first [apply open_push|apply open_scheduled]. Qed.

Lemma open_finalize : keeps open_block finalize_block.
Proof. unfold finalize_block, update_limits, set_merkle_roots, summarize. opened. Qed.

Lemma open_promote b : keeps open_block (promote_proposed b).
Proof. unfold promote_proposed. opened. Qed.
Lemma open_upkeep : keeps open_block upkeep.
Proof. unfold upkeep. opened. Qed.

(** The rest of a block once it is pending. *)
Lemma open_started cl when k st hd :
  keeps open_block (
    b ← lift (HeaderState.generate_next hd when);
    let '(was_pending_promoted, b) := HeaderState.maybe_promote_pending (HeaderState.set_confirmed k b) in
    modify_pending (with_state b) ;;
    if n_speculative n || negb (bool_decide (st = incomplete)) then
      promote_proposed was_pending_promoted ;;
      s ← get_st;
      p ← get_pending;
      ignore_errors (push_transaction n cl true (implicit_metadata (on_block_transaction s p)) time_max
                       (min_transaction_cpu_usage (w_cfg (the_world s))) true) ;;
      upkeep
    else mret ()).
Proof.
  apply keeps_bind; [apply keeps_lift|intros b]. destruct (HeaderState.maybe_promote_pending _) as [was b'].
  opened; lazymatch goal with
          | |- keeps _ (promote_proposed _) => apply open_promote
          | |- keeps _ upkeep => apply open_upkeep
          | |- keeps _ (push_transaction _ _ _ _ _ _ _) => apply open_push
          end.
Qed.

(** Neither a block nor its session is left. *)
Definition closed (s : cstate) : Prop := c_head s = h ∧ revision s = v - 1 ∧ pending s = None ∧ the_world s = w.

Lemma reset_open s : open_block s → closed (reset_pending s).2.
Proof. intros (Hh & Hv & p & Hp & Hw). unfold reset_pending, modify_st. rewrite Hp, Hw. split_and!; try done. cbn. by rewrite Hv. Qed.
Lemma abort_open s : open_block s → closed (abort_block n s).2.
Proof.
  intros Hs. unfold abort_block. rewrite (bind_run (modify_st _) _ s () _ eq_refl). apply reset_open.
  destruct Hs as (Hh & Hv & p & Hp & Hw). rewrite Hp. destruct (n_speculative n); split_and!; eauto.
Qed.
Lemma abort_closed s : closed s → abort_block n s = (Ok (), s).
Proof.
  intros (_ & _ & Hp & _). unfold abort_block. rewrite (bind_run (modify_st _) _ s () _ eq_refl). rewrite Hp.
  unfold reset_pending, modify_st. by rewrite Hp.
Qed.
End Sessions.

Section BlockEnds.
Context `{Codec} (n : node_config).

Lemma start_block_cases cl when k st s r s' : pending s = None → skip_db_sessions n st false = false →
  start_block n cl when k st s = (r, s') →
  (∃ x, r = Err x ∧ closed (the_world s) (c_head s) (revision s + 1) s') ∨
  (r = Ok () ∧ open_block (the_world s) (c_head s) (revision s + 1) s').
Proof.
  intros Hp Hst. unfold start_block. rewrite (bind_run get_st _ s s s eq_refl).
  rewrite (bind_run (st_assert _ _) _ s () s) by (unfold st_assert; by rewrite Hp).
  rewrite Hst. unfold guard_pending.
  destruct (st_assert (revision s =? HeaderState.bhs_block_num (c_head s)) database_exception s) as [[[]|x] s0] eqn:Ea;
    assert (s0 = s) as -> by (unfold st_assert, lift in Ea; congruence).
  - assert ((st_assert (revision s =? HeaderState.bhs_block_num (c_head s)) database_exception ;;
             modify_st (set_revision (revision s + 1)) : CT ()) s = (Ok (), set_revision (revision s + 1) s)) as Hrev
      by (by rewrite (bind_run _ _ _ _ _ Ea)).
    rewrite (bind_run _ _ _ _ _ Hrev). rewrite (bind_run (modify_st _) _ _ () _ eq_refl).
    match goal with |- (match ?m ?t with _ => _ end) = _ → _ =>
      assert (open_block (the_world s) (c_head s) (revision s + 1) (m t).2) as Ho;
      [apply open_started; split_and!; try done; by eexists|destruct (m t) as [[[]|x] s2]] end; intros [= <- <-].
    + by right.
    + left. exists x. split; [done|]. by apply reset_open.
  - assert ((st_assert (revision s =? HeaderState.bhs_block_num (c_head s)) database_exception ;;
             modify_st (set_revision (revision s + 1)) : CT ()) s = (Err x, s)) as Hrev
      by (unfold mbind, st_bind; by rewrite Ea).
    unfold mbind at 1, st_bind at 1. rewrite Hrev. intros [= <- <-]. left. exists x. split; [done|].
    unfold reset_pending, modify_st. rewrite Hp. cbn. split_and!; [done| |done..]. lia.
Qed.

(** [P] holds wherever [m] throws. *)
Definition throws_in {A} (P : cstate → Prop) (m : CT A) : Prop := ∀ s x s', P s → m s = (Err x, s') → P s'.
Lemma throws_keeps {A} P (m : CT A) : keeps P m → throws_in P m.
Proof. intros Hm s x s' Hs Hx. specialize (Hm s Hs). by rewrite Hx in Hm. Qed.
Lemma throws_bind {A B} P (m : CT A) (f : A → CT B) : keeps P m → (∀ a, throws_in P (f a)) → throws_in P (m ≫= f).
Proof.
  intros Hm Hf s x s' Hs [(a & s1 & H1 & H2)|(y & H1 & [= ->])]%st_bind_inv; specialize (Hm s Hs); rewrite H1 in Hm; [|done].
  eapply Hf; [exact Hm|exact H2].
Qed.

(** What follows the start of a block that is checked. *)
Definition check_receipts (clocks : nat → clock * clock) (b : signed_block) : CT () :=
  rs ← lift (decode_all (b_transactions b));
  for_each (fun r => apply_receipt n (clocks r.1) r.2) (zip (seq 0 (length rs)) rs) ;;
  finalize_block ;;
  p ← get_pending;
  st_assert (bool_decide (Header.id (Header.header_of (b_header b)) = Header.id (HeaderState.hdr (p_state p)))) block_validate_exception ;;
  modify_pending (with_state (HeaderState.set_header
    (Header.mk_signed (HeaderState.hdr (p_state p)) (Header.producer_signature (b_header b))) (p_state p))) ;;
  commit_block.

Lemma check_receipts_throws w h v clocks b : throws_in (open_block w h v) (check_receipts clocks b).
Proof.
  apply throws_bind; [apply keeps_lift|intros rs]. apply throws_bind; [apply keeps_for_each; intros a; apply open_receipt|intros _].
  apply throws_bind; [apply open_finalize|intros _]. apply throws_bind; [apply keeps_get_pending|intros p].
  apply throws_bind; [apply keeps_assert|intros _]. apply throws_bind; [by apply open_modify|by intros _ s x s'].
Qed.
End BlockEnds.

(** A block starts empty; what its start then does to the database concerns neither
    receipts nor the number of actions, the [onblock] transaction apart. *)
Section Started.
Context `{Codec} (n : node_config) (st : block_status) (P : cstate → Prop).
Context (P_state : ∀ b, preserves P (modify_pending (with_state b)))
  (P_world : ∀ w s, w_global w = w_global (the_world s) → P s → P (set_world w s))
  (P_push : ∀ cl t deadline billed explicit,
     preserves P (ignore_errors (push_transaction n cl true (implicit_metadata t) deadline billed explicit))).

Lemma established_pending : preserves P get_pending.
Proof. intros s p s' Hx Hs. unfold get_pending in Hx. by apply st_bind_ok in Hx as (? & ? & [= <- <-] & [_ <-]%lift_ok). Qed.
Lemma established_auth {A} (m : ST auth_db exn A) : preserves P (on_world_auth m).
Proof using P_world. intros s a s' Hx Hs. unfold on_world_auth in Hx. destruct (m _). injection Hx as -> <-. by apply P_world. Qed.

Lemma established_promote b : preserves P (promote_proposed b).
Proof using P_state P_world.
  intros s [] s' Hx Hs. unfold promote_proposed in Hx. apply st_bind_ok in Hx as (? & ? & [= <- <-] & Hx).
  apply st_bind_ok in Hx as (p & s1 & H1 & Hx). unfold get_pending in H1. apply st_bind_ok in H1 as (? & ? & [= <- <-] & [Hp <-]%lift_ok).
  destruct (pending s) as [p'|] eqn:Ep; [|done]. injection Hp as ->.
  destruct (w_proposed _).1 as [num|]; [|by injection Hx as <-]. destruct (_ && _); [|by injection Hx as <-].
  apply st_bind_ok in Hx as (b' & s1 & [_ <-]%lift_ok & Hx). apply st_bind_ok in Hx as ([] & s1 & H1 & [= <-]).
  pose proof (P_state _ _ _ _ H1 Hs) as Hs1. rewrite (modify_pending_at _ _ _ Ep) in H1. injection H1 as <-. by apply P_world.
Qed.

Lemma start_block_establishes cl when k s s' :
  (∀ ses t, the_world t = the_world s → P (set_pend (Some (mk_pending ses (c_head s) st [] [] [])) t)) →
  start_block n cl when k st s = (Ok (), s') → P s'.
Proof using P_state P_world P_push.
  intros H0. unfold start_block. intros (s0 & s1 & [= <- <-] & Hx)%st_bind_ok.
  apply st_bind_ok in Hx as ([] & s1 & [_ <-]%st_assert_ok & Hx). unfold guard_pending in Hx.
  match type of Hx with (match ?m ?t with _ => _ end) = _ => destruct (m t) as [[[]|x] s1] eqn:E end; [|done]. injection Hx as <-.
  apply st_bind_ok in E as ([] & s2 & H2 & E). apply st_bind_ok in E as ([] & s3 & [= <-] & E).
  assert (the_world s2 = the_world s) as Hw.
  { destruct (skip_db_sessions n st false); [by injection H2 as <-|].
    by apply st_bind_ok in H2 as ([] & s3 & [_ <-]%st_assert_ok & [= <-]). }
  match type of E with ?m _ = _ => assert (preserves P m) as Hm; [clear E|apply (Hm _ _ _ E); by apply H0] end.
  apply pres_bind; [apply pres_lift|intros b]. destruct (HeaderState.maybe_promote_pending _) as [was b'].
  apply pres_bind; [by apply P_state|intros _]. destruct (n_speculative n || _); [|apply pres_ret].
  apply pres_bind; [apply established_promote|intros _].
  apply pres_read; intros t Ht. apply pres_bind; [apply established_pending|intros p].
  apply pres_bind; [apply P_push|intros _]. unfold upkeep. apply pres_bind; [apply established_pending|intros p'].
  apply pres_bind; [|intros _; apply established_auth]. apply pres_modify. intros t1 Ht1. by apply P_world.
Qed.
End Started.

(** ** The receipts of a block *)

Section Receipts.
Context `{Codec} (n : node_config) (st : block_status).

Definition receipts_are (l : list transaction_receipt) (s : cstate) : Prop :=
  ∃ p, pending s = Some p ∧ p_status p = st ∧ p_transactions p = l.

Lemma receipts_modify l f : (∀ p, p_status (f p) = p_status p ∧ p_transactions (f p) = p_transactions p) →
  preserves (receipts_are l) (modify_pending f).
Proof.
  intros Hf s [] s' Hx (p & Hp & Hs & Hl). rewrite (modify_pending_at _ _ _ Hp) in Hx. injection Hx as <-.
  destruct (Hf p). exists (f p). split_and!; [done|congruence..].
Qed.
Lemma receipts_pending l : preserves (receipts_are l) get_pending.
Proof. intros s p s' Hx Hs. pose proof Hs as (p' & Hp & _). rewrite (get_pending_at _ _ Hp) in Hx. by injection Hx as <- <-. Qed.
Lemma receipts_limits l {A} (m : ST RLdb exn A) : preserves (receipts_are l) (on_world_limits m).
Proof. intros s a s' Hx Hs. unfold on_world_limits in Hx. destruct (m _). by injection Hx as -> <-. Qed.

(** An implicit transaction has no receipt in the block. *)
Lemma receipts_implicit l cl t deadline billed explicit :
  preserves (receipts_are l) (ignore_errors (push_transaction n cl true (implicit_metadata t) deadline billed explicit)).
Proof.
  intros s [] s' Hx (p & Hp & Hs & Hl).
  assert (∃ r, push_transaction n cl true (implicit_metadata t) deadline billed explicit s = (r, s')) as [r Hr].
  { unfold ignore_errors in Hx. destruct (push_transaction _ _ _ _ _ _ _ _) as [[a|x] s1]; [|destruct (caught x)]; simplify_eq; eauto. }
  apply (push_transaction_cases _ _ _ _ _ _ _ _ p) in Hr as (_ & _ & Hr); [|done|apply checks_session].
  destruct Hr as [(_ & Hp' & _)|[(_ & Hp' & _)|(x & h & _ & _ & _ & Hr)]]; [by exists p..|].
  destruct (negb _ && _); destruct Hr as [_ Hp']; [by exists p|]. eexists. split; [exact Hp'|done].
Qed.

Lemma start_block_receipts cl when k s s' : start_block n cl when k st s = (Ok (), s') → receipts_are [] s'.
Proof.
  intros Hx. eapply start_block_establishes; [..|exact Hx].
  - intros b. by apply receipts_modify.
  - by intros w t _.
  - intros. apply receipts_implicit.
  - intros ses t _. by eexists.
Qed.

Section Checked.
Context (Hst : skip_db_sessions n st false = false).

(** A receipt and its transaction belong together. *)
Definition decodes (r : transaction_receipt * option transaction_metadata) : Prop :=
  ∀ b, rc_trx r.1 = Packed b → ∃ m, r.2 = Some m ∧ tm_packed m = b.

(** Running a transaction adds no receipt or one of that transaction. *)
Lemma run_receipt_adds cl cl' r l s tr s' : decodes r → receipts_are l s → run_receipt n cl cl' r s = (Ok tr, s') →
  receipts_are l s' ∨ ∃ h, receipts_are (l ++ [mk_trx_receipt h (rc_trx r.1)]) s'.
Proof using Hst.
  intros Hd (p & Hp & Hs & Hl) Hx. unfold run_receipt in Hx. destruct (rc_trx r.1) as [id|b] eqn:Et.
  - apply (push_scheduled_cases _ _ _ _ _ _ _ _ _ p) in Hx as [_ [(_ & Hp' & _)|(g & s1 & _ & _ & h & l' & y & _ & Hp' & _)]];
      [left; by exists p| |done|by rewrite Hs].
    right. exists h. eexists. split; [exact Hp'|]. cbn. by rewrite Hl.
  - destruct (Hd b) as (m & Hm & Hb); [done|]. rewrite Hm in Hx.
    apply (push_transaction_cases _ _ _ _ _ _ _ _ p) in Hx as (_ & _ & Hx); [|done|by rewrite Hs].
    destruct Hx as [(_ & Hp' & _)|[(_ & Hp' & _)|(x & h & _ & _ & _ & Hx)]]; [left; by exists p..|].
    destruct (negb _ && _); destruct Hx as [_ Hp']; [left; by exists p|]. unfold extended in Hp'.
    destruct (tm_implicit m); [left|right; exists h]; (eexists; split; [exact Hp'|]); cbn; by rewrite ?Hl, ?Hb.
Qed.

Lemma apply_receipt_appends cls r l s s' : decodes r → receipts_are l s → apply_receipt n cls r s = (Ok (), s') →
  receipts_are (l ++ [r.1]) s'.
Proof using Hst.
  intros Hd Hs Hx. unfold apply_receipt in Hx. apply st_bind_ok in Hx as (p & s1 & H1 & Hx).
  pose proof Hs as (p0 & Hp0 & _ & Hl0). rewrite (get_pending_at _ _ Hp0) in H1. injection H1 as <- <-.
  apply st_bind_ok in Hx as (tr & s1 & H1 & Hx). apply st_bind_ok in Hx as ([] & s2 & H2 & Hx).
  assert (s2 = s1) as -> by (destruct (tr_except tr); [destruct (can_fail r.1); [|done]|]; by injection H2 as <-).
  apply st_bind_ok in Hx as (p' & s2 & H3 & Hx). apply st_bind_ok in Hx as ([] & s3 & [_ <-]%st_assert_ok & Hx).
  apply st_bind_ok in Hx as ([] & s3 & [Hlen <-]%st_assert_ok & [Hlast <-]%st_assert_ok).
  apply bool_decide_eq_true in Hlen, Hlast.
  destruct (run_receipt_adds _ _ _ _ _ _ _ Hd Hs H1) as [(p1 & Hp1 & Hs1 & Hl1)|(h & p1 & Hp1 & Hs1 & Hl1)];
    rewrite (get_pending_at _ _ Hp1) in H3; injection H3 as <- <-.
  - exfalso. rewrite Hl1, Hl0 in Hlen. lia.
  - exists p1. split_and!; [done..|]. rewrite Hl1, last_snoc in Hlast. injection Hlast as Hh. rewrite Hl1. do 2 f_equal.
    cbn in Hh. rewrite Hh. by destruct (r.1).
Qed.

Lemma receipts_loop clocks rs : ∀ k l s s', Forall decodes rs → receipts_are l s →
  for_each (fun r => apply_receipt n (clocks r.1) r.2) (zip (seq k (length rs)) rs) s = (Ok (), s') →
  receipts_are (l ++ map fst rs) s'.
Proof using Hst.
  induction rs as [|r rs IH]; intros k l s s' Hd Hs Hx.
  - injection Hx as <-. by rewrite app_nil_r.
  - inversion_clear Hd as [|? ? Hr Hrs]. cbn [length seq zip zip_with for_each] in Hx.
    apply st_bind_ok in Hx as ([] & s1 & H1 & Hx). cbn [fst snd] in H1.
    apply (apply_receipt_appends _ _ _ _ _ Hr Hs) in H1. cbn [map].
    rewrite cons_middle, app_assoc. eapply IH; [exact Hrs|exact H1|exact Hx].
Qed.
End Checked.

Lemma decode_all_decodes (Hm : ∀ b m, metadata_of b = Ok m → tm_packed m = b) l :
  ∀ rs, decode_all l = Ok rs → map fst rs = l ∧ Forall decodes rs.
Proof.
  induction l as [|r l IH]; intros rs Hx; cbn [decode_all] in Hx.
  - by injection Hx as <-.
  - unfold decoded in Hx. destruct (rc_trx r) as [id|b] eqn:Er.
    + destruct (decode_all l) as [xs|] eqn:E; [|done]. injection Hx as <-. destruct (IH xs) as [<- ?]; [done|].
      split; [done|]. constructor; [|done]. intros b Hb. cbn in Hb. congruence.
    + destruct (metadata_of b) as [m|] eqn:Em; [|done]. destruct (decode_all l) as [xs|] eqn:E; [|done].
      injection Hx as <-. destruct (IH xs) as [<- ?]; [done|]. split; [done|]. constructor; [|done].
      intros b' Hb. cbn in Hb. exists m. split; [done|]. rewrite (Hm _ _ Em). congruence.
Qed.

(** The roots of the header are those of what the block holds. *)
Lemma finalize_block_roots l s s' : receipts_are l s → finalize_block s = (Ok (), s') →
  ∃ p, pending s' = Some p ∧ p_transactions p = l ∧
    merkle_root (map action_receipt_digest (p_actions p)) = Ok (Header.action_mroot (HeaderState.hdr (p_state p))) ∧
    merkle_root (map trx_receipt_digest l) = Ok (Header.transaction_mroot (HeaderState.hdr (p_state p))).
Proof.
  intros Hs Hx. unfold finalize_block in Hx. apply st_bind_ok in Hx as (s0 & s1 & [= <- <-] & Hx).
  apply st_bind_ok in Hx as ([] & s1 & [_ <-]%st_assert_ok & Hx). unfold capture in Hx.
  match type of Hx with (match ?m ?t with _ => _ end) = _ => destruct (m t) as [[[]|x] s1] eqn:E end; [|done]. injection Hx as <-.
  apply st_bind_ok in E as ([] & s2 & H2 & E).
  assert (receipts_are l s2) as (p2 & Hp2 & Hs2 & Hl2).
  { unfold update_limits in H2. match type of H2 with ?m _ = _ => assert (preserves (receipts_are l) m) as Hm; [clear H2|by apply (Hm _ _ _ H2)] end.
    pres ltac:(done); first [apply receipts_limits|apply receipts_pending]. }
  apply st_bind_ok in E as ([] & s3 & H3 & E). unfold set_merkle_roots in H3.
  apply st_bind_ok in H3 as (p & s2' & H4 & H3). rewrite (get_pending_at _ _ Hp2) in H4. injection H4 as <- <-.
  apply st_bind_ok in H3 as (a & s2' & [Ha <-]%lift_ok & H3). apply st_bind_ok in H3 as (t & s2' & [Ht <-]%lift_ok & H3).
  rewrite (modify_pending_at _ _ _ Hp2) in H3. injection H3 as <-.
  apply st_bind_ok in E as (p & s3 & H4 & E). rewrite get_pending_at with (p := _) in H4 by reflexivity. injection H4 as <- <-.
  apply st_bind_ok in E as ([] & s3 & H4 & E). rewrite modify_pending_at with (p := _) in H4 by reflexivity. injection H4 as <-.
  injection E as <-. eexists. split; [reflexivity|]. destruct p2 as [ses bst bs tr ts ac]. cbn in *. destruct bst.
  rewrite Ha, <- Hl2, Ht. by split_and!.
Qed.
End Receipts.

(** ** The actions of a block *)

Section Actions.
Context `{Codec} (n : node_config).

Lemma numbered_on_tx s0 {A} (m : TX A) : preserves (numbered s0) (on_tx m).
Proof.
  intros s a s' Hx (new & E & G & Hn). destruct (history_on_tx (executed s) (global_action_sequence s) m _ _ _ Hx) as [E' G']; [done|].
  exists new. by rewrite E', G'.
Qed.

(** [l] are the receipts that follow the number [g], up to [g']. *)
Definition counted (g g' : Z) (l : list action_receipt) : Prop :=
  g' = u64 (g + Z.of_nat (length l)) ∧ ∀ i r, l !! i = Some r → global_sequence r = u64 (g + 1 + Z.of_nat i).

Lemma counted_nil g : 0 ≤ g ≤ u64_max → counted g g [].
Proof. intros Hg. split; [|done]. cbn. by rewrite Z.add_0_r, u64_small. Qed.

Lemma counted_app g g1 g2 l1 l2 : counted g g1 l1 → counted g1 g2 l2 → counted g g2 (l1 ++ l2).
Proof.
  intros [-> H1] [-> H2].
  assert (∀ k, u64 (u64 (g + Z.of_nat (length l1)) + k) = u64 (g + Z.of_nat (length l1) + k)) as Hu
    by (intros k; unfold u64, wrapu; by rewrite Zplus_mod_idemp_l).
  split; [rewrite Hu, length_app; f_equal; lia|].
  intros i r [Hi|[Hle Hi]]%lookup_app_Some; [by apply H1|]. rewrite (H2 _ _ Hi), <- Z.add_assoc, Hu. f_equal. lia.
Qed.

Lemma counted_context e billed s x (m : X ()) :
  (∀ s0, preserves (numbered s0) m) → 0 ≤ w_global (the_world s) ≤ u64_max → m (enter e billed s) = (Ok (), x) →
  counted (w_global (the_world s)) (w_global (world_of x)) (executed x).
Proof.
  intros Hm Hg Hx. destruct (Hm (enter e billed s) _ _ _ Hx) as (new & E & G & Hn).
  - exists []. split; [done|]. split; [|done]. cbn. by rewrite Z.add_0_r, u64_small.
  - cbn in E. rewrite E. by split.
Qed.

Lemma numbered_run_transaction e cl m b s0 : preserves (numbered s0) (run_transaction n e cl m b).
Proof. unfold run_transaction. pres idtac; first [apply numbered_on_tx|apply numbered_exec]. Qed.
Lemma numbered_run_scheduled e cl p d s0 : preserves (numbered s0) (run_scheduled n e cl p d).
Proof. unfold run_scheduled. pres idtac; first [apply numbered_on_tx|apply numbered_exec]. Qed.
Lemma numbered_run_onerror e cl g a s0 : preserves (numbered s0) (run_onerror n e cl g a).
Proof. unfold run_onerror. pres idtac; first [apply numbered_on_tx|apply numbered_dispatch]. Qed.

(** What can be pushed into a pending block. *)
Inductive push : Type :=
| PushTransaction (cl : clock) (checks : bool) (m : transaction_metadata) (deadline billed : Z) (explicit : bool)
| PushScheduled (cl cl' : clock) (checks : bool) (id : digest_type) (deadline billed : Z) (explicit : bool).
Definition push_one (a : push) : CT transaction_trace :=
  match a with
  | PushTransaction cl checks m deadline billed explicit => push_transaction n cl checks m deadline billed explicit
  | PushScheduled cl cl' checks id deadline billed explicit => push_scheduled_transaction n cl cl' checks id deadline billed explicit
  end.

(** Without a pending block nothing is pushed. *)
Lemma push_unpending a s r s' : pending s = None → push_one a s = (r, s') → s' = s.
Proof.
  intros Hp. destruct a; cbn [push_one];
    unfold push_transaction, push_scheduled_transaction, capture, get_pending, mbind, st_bind, st_assert, get_st, lift, eos_assert;
    rewrite Hp; cbn; by repeat case_match; intros [= <- <-].
Qed.

(** The actions of the pending block follow the number [g]. *)
Definition block_counted (st : block_status) (g : Z) (s : cstate) : Prop :=
  ∃ p, pending s = Some p ∧ p_status p = st ∧ counted g (w_global (the_world s)) (p_actions p).

Lemma counted_range g g' l : counted g g' l → 0 ≤ g' ≤ u64_max.
Proof. intros [-> _]. pose proof (u64_range (g + Z.of_nat (length l))). unfold u64_max in *. lia. Qed.

Lemma push_counted st g a : skip_db_sessions n st false = false → keeps (block_counted st g) (push_one a).
Proof.
  intros Hst s (p & Hp & Hs & Hc). pose proof (counted_range _ _ _ Hc) as Hg.
  assert (∀ checks, skip_db_sessions n (p_status p) checks = false) as Hses.
  { intros []; [apply checks_session|by rewrite Hs]. }
  destruct (push_one a s) as [r s'] eqn:E. cbn [snd]. destruct a; cbn [push_one] in E.
  - apply (push_transaction_cases _ _ _ _ _ _ _ _ p) in E as (_ & _ & E); [|done..].
    destruct E as [(Hw & Hp' & _)|[(Hw & Hp' & _)|(x & h & Hr & _ & _ & E)]]; [exists p; by rewrite Hw..|].
    destruct (negb _ && _); destruct E as [Hw Hp']; [exists p; by rewrite Hw|]. eexists. split; [exact Hp'|].
    unfold extended. cbn. split; [by destruct (tm_implicit m)|]. rewrite Hw.
    eapply counted_app; [exact Hc|]. eapply counted_context; [apply numbered_run_transaction|done|exact Hr].
  - apply (push_scheduled_cases _ _ _ _ _ _ _ _ _ p) in E as [_ E]; [|done..].
    destruct E as [(Hw & Hp' & _)|(o & s1 & _ & (w1 & (l1 & -> & _) & Hw1) & h & l & y & _ & Hp' & E)]; [exists p; by rewrite Hw|].
    eexists. split; [exact Hp'|]. split; [done|]. cbn. eapply counted_app; [exact Hc|].
    assert (w_global (the_world s1) = w_global (the_world s)) as Hw2 by (by rewrite Hw1). rewrite <- Hw2 in *. clear Hw2. destruct (status h).
    + destruct E as (_ & e & x & Hr & -> & ->). eapply counted_context; [apply numbered_run_scheduled|done|exact Hr].
    + destruct E as (_ & _ & e & act & s2 & x & Hw2 & Hr & -> & ->). rewrite <- Hw2 in *.
      eapply counted_context; [apply numbered_run_onerror|done|exact Hr].
    + destruct E as (-> & _ & l2 & -> & _). by apply counted_nil.
    + done.
    + destruct E as (_ & -> & _ & ->). by apply counted_nil.
Qed.

Lemma start_block_counted cl when k st s s' : skip_db_sessions n st false = false → 0 ≤ w_global (the_world s) ≤ u64_max →
  start_block n cl when k st s = (Ok (), s') → block_counted st (w_global (the_world s)) s'.
Proof.
  intros Hst Hg Hx. eapply start_block_establishes; [..|exact Hx].
  - intros b t [] t' H1 (p & Hp & Hs & Hc). rewrite (modify_pending_at _ _ _ Hp) in H1. injection H1 as <-. by exists (with_state b p).
  - intros w t Hw (p & Hp & Hs & Hc). exists p. split_and!; [done..|]. cbn. by rewrite Hw.
  - intros cl' t deadline billed explicit t1 [] t2 H1 H2.
    assert (t2 = (push_one (PushTransaction cl' true (implicit_metadata t) deadline billed explicit) t1).2) as ->.
    { unfold ignore_errors in H1. cbn [push_one]. destruct (push_transaction _ _ _ _ _ _ _ _) as [[a|x] t3]; [|destruct (caught x)]; by simplify_eq. }
    by apply push_counted.
  - intros ses t Hw. eexists. split_and!; [done..|]. cbn. rewrite Hw. by apply counted_nil.
Qed.
End Actions.

(** C12: a transaction is pushed as a whole or not at all.  If a transaction ran to
    its end it is in the pending block with one receipt and the receipts of its
    actions, over the database it left (a node that does not speculate undoes it
    again); if it failed, or if pushing it threw, the database, the pending block, the
    head and the revision are unchanged, and it stays among the transactions to try
    again only if its failure is subjective or it was not run. *)
Theorem transaction_all_or_nothing `{Codec} n cl checks m deadline billed explicit s p r s' :
  pending s = Some p → skip_db_sessions n (p_status p) checks = false →
  push_one n (PushTransaction cl checks m deadline billed explicit) s = (r, s') →
  c_head s' = c_head s ∧ revision s' = revision s ∧
  let gone := delete (tm_signed_id m) (unapplied_transactions s) in
  match r with
  | Err _ =>
      the_world s' = the_world s ∧ pending s' = Some p ∧ unapplied_transactions s' = unapplied_transactions s
  | Ok (mk_trace None (Some x)) =>
      the_world s' = the_world s ∧ pending s' = Some p ∧
      unapplied_transactions s' = if failure_is_subjective x then unapplied_transactions s else gone
  | Ok (mk_trace (Some h) None) =>
      ∃ x, run_transaction n (push_env n s p cl checks m deadline explicit) cl m (skips_recording n m)
             (enter (push_env n s p cl checks m deadline explicit) billed s) = (Ok (), x) ∧
      unapplied_transactions s' = (if tm_implicit m then unapplied_transactions s else gone) ∧
      if negb (n_speculative n) && producing_status p then the_world s' = the_world s ∧ pending s' = Some p
      else the_world s' = world_of x ∧ pending s' = Some (extended p m h x)
  | Ok _ => False
  end.
Proof.
  intros Hp Hst Hx. apply (push_transaction_cases _ _ _ _ _ _ _ _ p) in Hx as (Hh & Hv & Hx); [|done..]. split; [done|]. split; [done|].
  destruct Hx as [(? & ? & ? & x & ->)|[(? & ? & x & -> & ?)|(x & h & Hr & -> & ? & ?)]]; [done|done|]. by exists x.
Qed.

(** C13: a scheduled transaction ends in one of five ways.  If pushing it throws, or
    it fails in a way that another node may not see, the database and the pending
    block are unchanged and it stays scheduled.  Otherwise it was stored, is removed
    and no longer charged for, and the block has exactly one receipt more: executed,
    with the actions and the database of its run; a soft failure, with those of the
    error handler of its sender, and only if it has a sender; a hard failure, without
    actions and with nothing but resource usage changed; or expired, if it was. *)
Theorem scheduled_ends_once `{Codec} n cl cl' checks id deadline billed explicit s p r s' :
  pending s = Some p → skip_db_sessions n (p_status p) checks = false →
  push_one n (PushScheduled cl cl' checks id deadline billed explicit) s = (r, s') →
  c_head s' = c_head s ∧ revision s' = revision s ∧ unapplied_transactions s' = unapplied_transactions s ∧
  ((the_world s' = the_world s ∧ pending s' = Some p ∧
      ((∃ y, r = Err y) ∨ ∃ y, r = Ok (mk_trace None (Some y)) ∧ retriable explicit y = true)) ∨
   ∃ g s1, gtrxs (w_db (the_world s)) !! id = Some g ∧ unscheduled id (the_world s) (the_world s1) ∧
   ∃ h l y, r = Ok (mk_trace (Some h) y) ∧ pending s' = Some (retired p id h l) ∧
     match status h with
     | executed_status => y = None ∧ ∃ e x, run_scheduled n e cl p (gt_published g) (enter e billed s1) = (Ok (), x) ∧
                                            l = executed x ∧ the_world s' = world_of x
     | soft_fail => y = None ∧ gt_sender g ≠ 0 ∧
                    ∃ e act s2 x, the_world s2 = the_world s1 ∧ run_onerror n e cl' g act (enter e billed s2) = (Ok (), x) ∧
                                  l = executed x ∧ the_world s' = world_of x
     | hard_fail => l = [] ∧ (∃ z, y = Some z ∧ retriable explicit z = false) ∧ limits_moved (the_world s1) (the_world s')
     | expired => y = None ∧ l = [] ∧ gt_expiration g < pending_time p ∧ the_world s' = the_world s1
     | delayed => False
     end).
Proof.
  intros Hp Hst Hx. apply (push_scheduled_cases _ _ _ _ _ _ _ _ _ p) in Hx as ((Hh & Hv & Hu) & Hx); [|done..]. by split_and!.
Qed.

(** Pushes into a block, whether they fail or not. *)
Fixpoint push_all `{Codec} (n : node_config) (l : list push) (s : cstate) : cstate :=
  match l with
  | [] => s
  | a :: l => push_all n l (push_one n a s).2
  end.

(** C17: the actions of a block are numbered without gaps.  After a block was
    started and any input and scheduled transactions were pushed, some of them in vain,
    the [i]-th action of the block has the global sequence number of the chain before
    the block plus [i + 1], and the chain counts exactly the actions in the block: a
    failed transaction uses up no number. *)
Theorem block_actions_consecutive `{Codec} n cl when k st s s1 l :
  skip_db_sessions n st false = false → 0 ≤ w_global (the_world s) ≤ u64_max →
  start_block n cl when k st s = (Ok (), s1) →
  let s' := push_all n l s1 in
  ∃ p, pending s' = Some p ∧
    w_global (the_world s') = u64 (w_global (the_world s) + Z.of_nat (length (p_actions p))) ∧
    ∀ i r, p_actions p !! i = Some r → global_sequence r = u64 (w_global (the_world s) + 1 + Z.of_nat i).
Proof.
  intros Hst Hg Hx s'. assert (block_counted st (w_global (the_world s)) s') as (p & Hp & _ & Hc & Hn); [|by exists p].
  apply start_block_counted in Hx; [|done..]. subst s'. revert s1 Hx. induction l as [|a l IH]; intros s1 Hs; [done|].
  apply IH. by apply push_counted.
Qed.

(** ** What can be thrown

    [FC_CAPTURE_AND_RETHROW] turns exceptions of the standard library into those of
    [fc]. *)

Definition tame {A} (m : CT A) : Prop := ∀ s x s', m s = (Err x, s') → fc_capture_and_rethrow x = x.
Definition yields {A} (Q : A → Prop) (m : CT A) : Prop := ∀ s a s', m s = (Ok a, s') → Q a.

Section Thrown.
Lemma tame_bind {A B} (m : CT A) (f : A → CT B) : tame m → (∀ a, tame (f a)) → tame (m ≫= f).
Proof.
  intros Hm Hf s x s' [(a & s1 & H1 & H2)|(y & H1 & [= ->])]%st_bind_inv; [by eapply Hf|by eapply Hm].
Qed.
Lemma tame_yields {A B} (Q : A → Prop) (m : CT A) (f : A → CT B) :
  yields Q m → tame m → (∀ a, Q a → tame (f a)) → tame (m ≫= f).
Proof.
  intros Hy Hm Hf s x s' [(a & s1 & H1 & H2)|(y & H1 & [= ->])]%st_bind_inv; [|by eapply Hm].
  exact (Hf a (Hy _ _ _ H1) _ _ _ H2).
Qed.
Lemma tame_capture {A} (m : CT A) : tame (capture m).
Proof. intros s x s'. unfold capture. destruct (m s) as [[a|y] s1]; [done|]. intros [= <- _]. by destruct y. Qed.
Lemma tame_assert b x : fc_capture_and_rethrow x = x → tame (st_assert b x : CT ()).
Proof. intros Hx s y s'. unfold st_assert, lift, eos_assert. destruct b; [done|]. by intros [= <- _]. Qed.
Lemma tame_ret {A} (a : A) : tame (mret a).
Proof. by intros s x s'. Qed.
Lemma tame_get {B} (f : cstate → CT B) : (∀ s, tame (f s)) → tame (get_st ≫= f).
Proof. intros Hf s x s'. rewrite (bind_run get_st _ s s s eq_refl). apply Hf. Qed.
Lemma tame_pending : tame get_pending.
Proof. intros s x s'. unfold get_pending, mbind, st_bind, get_st, lift. destruct (pending s); [done|]. by intros [= <- _]. Qed.

Lemma fc_tame x : is_fc x = true → fc_capture_and_rethrow x = x.
Proof. by destruct x. Qed.

(** The exception a trace reports was caught as an [fc::exception]. *)
Definition reports_fc (t : transaction_trace) : Prop := ∀ x, tr_except t = Some x → is_fc x = true.

Lemma yields_bind {A B} (Q : B → Prop) (m : CT A) (f : A → CT B) : (∀ a, yields Q (f a)) → yields Q (m ≫= f).
Proof. intros Hf s b s' (a & s1 & _ & H2)%st_bind_ok. by eapply Hf. Qed.
Lemma yields_with {A B} (R : A → Prop) (Q : B → Prop) (m : CT A) (f : A → CT B) :
  yields R m → (∀ a, R a → yields Q (f a)) → yields Q (m ≫= f).
Proof. intros Hm Hf s b s' (a & s1 & H1 & H2)%st_bind_ok. exact (Hf a (Hm _ _ _ H1) _ _ _ H2). Qed.
Lemma yields_ret {A} (Q : A → Prop) a : Q a → yields Q (mret a).
Proof. by intros Ha s b s' [= <- _]. Qed.
Lemma yields_catch {A} (Q : A → Prop) (m : CT A) h : yields Q m → (∀ x, is_fc x = true → yields Q (h x)) → yields Q (catch_fc m h).
Proof.
  intros Hm Hh s a s'. unfold catch_fc. destruct (m s) as [[b|x] s1] eqn:E.
  - intros [= -> ->]. by eapply Hm.
  - destruct (is_fc x) eqn:Ex; [|done]. by apply Hh.
Qed.
Lemma yields_capture {A} (Q : A → Prop) (m : CT A) : yields Q m → yields Q (capture m).
Proof. intros Hm s a s'. unfold capture. destruct (m s) as [[b|x] s1] eqn:E; [|done]. intros [= -> ->]. by eapply Hm. Qed.
Lemma yields_undo {A} (Q : A → Prop) b w (m : CT A) : yields Q m → yields Q (undo_on_throw b w m).
Proof. intros Hm s a s'. unfold undo_on_throw. destruct (m s) as [[c|x] s1] eqn:E; [|done]. intros [= -> ->]. by eapply Hm. Qed.
Lemma no_report h : reports_fc (mk_trace h None).
Proof. by intros x. Qed.
Lemma fc_report h x : is_fc x = true → reports_fc (mk_trace h (Some x)).
Proof. by intros Hx y [= <-]. Qed.
End Thrown.

Ltac yield :=
  repeat lazymatch goal with
  | |- yields _ (catch_fc _ _) => apply yields_catch; [|intros ? ?]
  | |- yields _ (capture _) => apply yields_capture
  | |- yields _ (undo_on_throw _ _ _) => apply yields_undo
  | |- yields _ (_ ≫= _) => apply yields_bind; intros ?
  | |- yields _ (mret _) => apply yields_ret
  | |- yields _ (match ?x with _ => _ end) => destruct x
  end.

Section Reports.
Context `{Codec} (n : node_config).

Lemma push_reports cl checks m deadline billed explicit : yields reports_fc (push_transaction n cl checks m deadline billed explicit).
Proof. unfold push_transaction, push_in_session. yield; by auto using no_report, fc_report. Qed.

Lemma onerror_reports cl checks id g deadline start c billed explicit enforce :
  yields (fun r => reports_fc r.1) (apply_onerror n cl checks id g deadline start c billed explicit enforce).
Proof.
  unfold apply_onerror. do 2 (apply yields_bind; intros ?). apply yields_undo, yields_bind. intros [r x]. apply yields_catch.
  - apply yields_bind; intros _. apply (yields_with reports_fc); [|intros tr Htr; by apply yields_ret].
    unfold record_receipt. yield. apply no_report.
  - intros y Hy. yield. by apply fc_report.
Qed.

Lemma after_failure_reports cl id g e x y deadline c billed explicit session w : is_fc y = true →
  yields reports_fc (after_failure n cl id g e x y deadline c billed explicit session w).
Proof.
  intros Hy s t s' ([tr c'] & s1 & H1 & H2)%st_bind_ok.
  assert (reports_fc tr) as Htr.
  { destruct (negb _ && _); [exact (onerror_reports _ _ _ _ _ _ _ _ _ _ _ _ _ H1)|]. injection H1 as <- _ _. by apply fc_report. }
  destruct (tr_except tr) as [z|] eqn:Ez; [|by injection H2 as <- _].
  revert H2. match goal with |- ?m _ = _ → _ => assert (yields reports_fc m) as Hm; [|by apply Hm] end.
  specialize (Htr z Ez). yield; auto using fc_report. intros y0. rewrite Ez. by intros [= <-].
Qed.

Lemma scheduled_reports cl cl' checks id deadline billed explicit :
  yields reports_fc (push_scheduled_transaction n cl cl' checks id deadline billed explicit).
Proof.
  unfold push_scheduled_transaction, retire, run_or_fail, record_receipt. yield; auto using no_report. by apply after_failure_reports.
Qed.

(** Only the unpacking of transactions could throw something else. *)
Context (Hm : ∀ b x, metadata_of b = Err x → is_fc x = true).

Lemma tame_receipt cls r : tame (apply_receipt n cls r).
Proof.
  unfold apply_receipt. apply tame_bind; [apply tame_pending|intros p]. apply (tame_yields reports_fc).
  - unfold run_receipt. destruct (rc_trx r.1); [apply scheduled_reports|]. destruct r.2; [apply push_reports|done].
  - unfold run_receipt. destruct (rc_trx r.1); [|destruct r.2].
    + apply tame_get; intros s. apply tame_bind; [|intros g; apply tame_capture].
      intros s1 x s2. unfold lift. destruct (gtrxs _ !! _); [done|]. by intros [= <- _].
    + apply tame_bind; [by apply tame_assert|intros _]. apply tame_get; intros s. apply tame_bind; [|intros _; apply tame_capture].
      intros s1 x s2. unfold lift. intros [= Hx _]. revert Hx. unfold check_action.
      generalize (actions (tm_trx t)). intros l. generalize (). induction l as [|a l IH]; intros u; [done|]. cbn [fold_result].
      unfold eos_assert. destruct (negb _ || _ || _); [apply IH|]. by intros [= <-].
    + intros s x s'. by intros [= <- _].
  - intros tr Htr. apply tame_bind.
    + destruct (tr_except tr) as [x|] eqn:Ex; [|apply tame_ret]. destruct (can_fail r.1); [apply tame_ret|].
      intros s y s' [= <- _]. by apply fc_tame, Htr.
    + intros _. apply tame_bind; [apply tame_pending|intros p']. apply tame_bind; [by apply tame_assert|intros _].
      apply tame_bind; [by apply tame_assert|intros _]. by apply tame_assert.
Qed.

Lemma tame_decode l x : decode_all l = Err x → is_fc x = true.
Proof using Hm.
  induction l as [|r l IH]; cbn [decode_all]; [done|]. unfold decoded. destruct (rc_trx r) as [id|b].
  - destruct (decode_all l); [done|]. intros [= <-]. by apply IH.
  - destruct (metadata_of b) as [m|y] eqn:E; [|intros [= <-]; by eapply Hm]. destruct (decode_all l); [done|]. intros [= <-]. by apply IH.
Qed.

Lemma tame_check clocks b : tame (check_receipts n clocks b).
Proof using Hm.
  unfold check_receipts. apply tame_bind; [|intros rs].
  { intros s x s' [= Hx _]. by apply fc_tame, (tame_decode (b_transactions b)). }
  apply tame_bind; [|intros _].
  { generalize (zip (seq 0 (length rs)) rs). intros l. induction l as [|r l IH]; cbn [for_each]; [apply tame_ret|].
    apply tame_bind; [apply tame_receipt|intros _; apply IH]. }
  apply tame_bind; [|intros _].
  { unfold finalize_block. apply tame_get; intros s. apply tame_bind; [by apply tame_assert|intros _; apply tame_capture]. }
  apply tame_bind; [apply tame_pending|intros p]. apply tame_bind; [by apply tame_assert|intros _].
  apply tame_bind; [|by intros _ s x s']. intros s x s'. unfold modify_pending.
  intros [(q & s1 & H1 & [= ?])|(y & H1 & [= ->])]%st_bind_inv. by eapply tame_pending.
Qed.
End Reports.

(** How applying a block fails. *)
Lemma apply_block_fails `{Codec} n cl clocks b st s y s' :
  pending s = None → skip_db_sessions n st false = false → apply_block n cl clocks b st s = (Err y, s') →
  ∃ x, y = fc_capture_and_rethrow x ∧
    if is_fc x then closed (the_world s) (c_head s) (revision s + 1) s'
    else closed (the_world s) (c_head s) (revision s + 1) s' ∨
         ∃ s1, open_block (the_world s) (c_head s) (revision s + 1) s' ∧ check_receipts n clocks b s1 = (Err x, s').
Proof.
  intros Hp Hst. unfold apply_block, capture, catch_fc.
  match goal with |- context [match ?m ?t with _ => _ end] => destruct (m t) as [[[]|x] s1] eqn:E end; [done|].
  assert (closed (the_world s) (c_head s) (revision s + 1) s1 ∨
          ∃ s2, open_block (the_world s) (c_head s) (revision s + 1) s1 ∧ check_receipts n clocks b s2 = (Err x, s1)) as Ho.
  { apply st_bind_inv in E as [([] & s2 & [_ <-]%st_assert_ok & E)|(z & E & [= <-])];
      [|left; unfold st_assert, lift in E; injection E as _ <-; split_and!; [done|lia|done..]].
    apply st_bind_inv in E as [([] & s2 & E1 & E)|(z & E & [= <-])]; apply start_block_cases in E1 || apply start_block_cases in E; try done.
    - right. destruct E1 as [(? & ? & _)|[_ E1]]; [done|]. exists s2. split; [by eapply check_receipts_throws|exact E].
    - left. by destruct E as [(? & _ & E)|[? _]]. }
  destruct (is_fc x) eqn:Ef.
  - assert (closed (the_world s) (c_head s) (revision s + 1) (abort_block n s1).2) as Hc.
    { destruct Ho as [Ho|(s2 & Ho & _)]; [by rewrite (abort_closed _ _ _ _ _ Ho)|by apply abort_open]. }
    unfold mbind, st_bind. destruct (abort_block n s1) as [[[]|z] s2] eqn:Ea.
    + intros [= <- <-]. exists x. split; [done|]. by rewrite Ef.
    + by unfold abort_block, reset_pending, mbind, st_bind, modify_st in Ea.
  - intros [= <- <-]. exists x. split; [done|]. by rewrite Ef.
Qed.

(** Either the block is committed, or the state is as before; a block is left pending
    only by undefined behaviour. *)
Lemma apply_block_cases `{Codec} n cl clocks b st s r s' :
  (∀ b x, metadata_of b = Err x → is_fc x = true) → pending s = None → skip_db_sessions n st false = false →
  apply_block n cl clocks b st s = (r, s') →
  (r = Ok () ∧ pending s' = None) ∨
  (∃ y, r = Err y ∧ closed (the_world s) (c_head s) (revision s + 1) s') ∨
  (∃ y, r = Err y ∧ is_fc y = false ∧ open_block (the_world s) (c_head s) (revision s + 1) s').
Proof.
  intros Hm Hp Hst Hx. destruct r as [[]|y].
  - left. split; [done|]. revert Hx. unfold apply_block, capture, catch_fc.
    match goal with |- context [match ?m ?t with _ => _ end] => destruct (m t) as [[[]|x] t1] eqn:E end;
      [|by destruct (is_fc x); [unfold abort_block, reset_pending, mbind, st_bind, modify_st|]]. intros [= <-].
    do 8 (apply st_bind_ok in E as (? & ? & _ & E)). by injection E as <-.
  - right. destruct (apply_block_fails _ _ _ _ _ _ _ _ Hp Hst Hx) as (x & -> & Hc). destruct (is_fc x) eqn:Ef; [left; eauto|].
    destruct Hc as [Hc|(s1 & Ho & Hr)]; [left; eauto|]. right. eexists. split_and!; [done| |done].
    by rewrite (tame_check n Hm _ _ _ _ _ Hr).
Qed.

(** C9: a block that is not accepted leaves no trace in the chain state: when a
    transaction, the receipts or the id do not agree with the block and applying it
    throws, the database, its revision and the head are those from before, and no
    block is pending.  Only an exception that is not an [fc::exception] leaves the
    block pending, and then aborting it restores the same state. *)
Theorem failed_block_undone `{Codec} n cl clocks b st s y s' :
  pending s = None → skip_db_sessions n st false = false → apply_block n cl clocks b st s = (Err y, s') →
  ∃ x, y = fc_capture_and_rethrow x ∧
    let t := if is_fc x then s' else (abort_block n s').2 in
    the_world t = the_world s ∧ pending t = None ∧ revision t = revision s ∧ c_head t = c_head s.
Proof.
  intros Hp Hst Hx. destruct (apply_block_fails _ _ _ _ _ _ _ _ Hp Hst Hx) as (x & -> & Hc). exists x. split; [done|].
  destruct (is_fc x).
  - destruct Hc as (? & ? & ? & ?). split_and!; try done. lia.
  - assert (closed (the_world s) (c_head s) (revision s + 1) (abort_block n s').2) as (? & ? & ? & ?).
    { destruct Hc as [Hc|(s2 & Hc & _)]; [by rewrite (abort_closed _ _ _ _ _ Hc)|by apply abort_open]. }
    split_and!; try done. lia.
Qed.


(** ** An example *)

Module BlockDemo.
Import NativeDemo.

(** The table of the producers' account, with an account of its own for alice. *)
Definition with_owner : auth_db := (create_permission 5 alice config.owner_name 0 (key 10) 0 AdmissionDemo.table).2.
Definition table : auth_db := (create_permission 5 alice config.active_name 5 (key 11) 0 with_owner).2.

Definition used : ResourceLimits.resource_usage_object :=
  ResourceLimits.mk_account_usage ResourceLimits.usage0 ResourceLimits.usage0 10000.
Definition unlimited : RLdb :=
  ResourceLimits.set_usages (<[producers_account_name := ResourceLimits.default_usage]> {[alice := used]})
    (ResourceLimits.set_actual (<[producers_account_name := ResourceLimits.default_limits]> {[alice := ResourceLimits.default_limits]})
       ResourceLimits.initialize_database).

Definition action_of (k : Z) : action := mk_action alice k [mk_level alice config.active_name] [].
Definition trx_of (k : Z) : transaction := mk_transaction (mk_trx_header 946685400 0 0 0 0 0) [] [action_of k] [].
Definition id_of (k : Z) : digest_type := mk_digest k 1 1 1.

(** Action 1 notifies the producers' account, action 2 does so and fails. *)
#[local] Instance machine : Machine :=
  { machine_native := ExecDemo.env;
    contract := fun _ rcv a =>
      if rcv =? alice
      then Call (RequireRecipient producers_account_name) (fun _ => if act_name a =? 1 then Return else Trap eosio_assert_message_exception)
      else Return;
    action_digest := fun a => id_of (act_name a); transaction_digest := fun _ => digest0; pack := fun _ => [];
    valid_key := fun _ => true; unpack_hello := fun _ => Err std_out_of_range }.

Definition metadata (b : bytes) : transaction_metadata :=
  let k := default 0 (head b) in mk_metadata (id_of k) (id_of (k + 100)) (trx_of k) b 100 0 false.

#[local] Instance crypto : Header.ChainCrypto :=
  { hash_pair := fun p => HeaderState.Demo.mix p.1 p.2;
    header_digest := fun h => HeaderState.Demo.mix (id_of (Header.timestamp h))
                                (HeaderState.Demo.mix (Header.transaction_mroot h) (Header.action_mroot h));
    schedule_digest := fun _ => digest0; recover_key := fun sig _ => Ok sig }.
#[local] Instance codec : Codec :=
  { codec_machine := machine; codec_crypto := crypto;
    recover_keys := fun _ => Ok [11]; metadata_of := fun b => Ok (metadata b);
    unpack_transaction := fun b => Ok (trx_of (default 0 (head b)));
    pack_header := fun _ => []; pack_onerror := fun _ b => b;
    action_receipt_digest := fun r => id_of (global_sequence r);
    trx_receipt_digest := fun r => id_of (cpu_usage_us (rc_header r)) }.

Definition node : node_config :=
  mk_node (mk_node_lists ∅ ∅ ∅ ∅) ∅ true false false false true None None (mk_timer true 50 false)
    (ResourceLimits.mk_ram_view (fun _ => None) 10240) (fun _ => Ok ()).

Definition now : Z := Timestamp.to_time_point 1000.
Definition clock0 : clock := mk_clock now now now now now.

Definition scheduled (k : Z) : generated_transaction_object := mk_generated 0 k alice 0 (now + 1000000) 0 [k].
Definition chain : world :=
  mk_world
    (mk_database (<[producers_account_name := mk_account false 0 digest0 0 [] []]> {[alice := mk_account false 0 (id_of 1) 0 [1; 2; 3] []]})
       (<[producers_account_name := mk_sequence 0 0 0 0]> {[alice := mk_sequence 0 0 0 0]}) table unlimited
       (<[id_of 8 := scheduled 2]> {[id_of 7 := scheduled 1]}) ∅ (mk_force [] [] [] ResourceLimits.default_gmr))
    default_config (None, Schedule.mk_schedule 0 []) (mk_dedupe ∅ 0) ∅ ∅ 0 (∅, 0) (∅, 0) 41.
Definition state : cstate := mk_cstate chain (mk_lists ∅ ∅ ∅) None HeaderState.Demo.state 9 ∅.

Definition started : cstate := (start_block node clock0 1000 0 complete state).2.
Definition input (k : Z) : push := PushTransaction clock0 false (metadata [k]) time_max 200 true.
Definition stored (k : Z) : push := PushScheduled clock0 clock0 false (id_of (k + 6)) time_max 200 true.

Definition filled : cstate := push_all node [input 2; input 1; stored 2; stored 1] started.
Definition finished : cstate := (finalize_block filled).2.
(** The block that was built, and one that claims more time was used. *)
Definition block_with (l : list transaction_receipt) : signed_block :=
  mk_block (match pending finished with Some p => HeaderState.bhs_header (p_state p) | None => HeaderState.signed0 end) l [].
Definition receipts : list transaction_receipt := match pending finished with Some p => p_transactions p | None => [] end.
Definition built : signed_block := block_with receipts.
Definition forged : signed_block :=
  block_with ((fun r => mk_trx_receipt (mk_trx_receipt_header (status (rc_header r)) (cpu_usage_us (rc_header r)) 1) (rc_trx r)) <$> receipts).
Definition clocks : nat → clock * clock := fun _ => (clock0, clock0).

Definition push_input (k : Z) : R transaction_trace * cstate :=
  push_transaction node clock0 false (metadata [k]) time_max 200 true started.
Definition push_stored (k : Z) : R transaction_trace * cstate :=
  push_scheduled_transaction node clock0 clock0 false (id_of (k + 6)) time_max 200 true started.
Lemma started_ok : start_block node clock0 1000 0 complete state = (Ok (), started).
Proof.
  assert ((start_block node clock0 1000 0 complete state).1 = Ok ()) as Hr by (vm_compute; reflexivity).
  rewrite (surjective_pairing (start_block _ _ _ _ _ _)). by rewrite Hr.
Qed.
Lemma started_pending : ∃ p, pending started = Some p ∧ p_status p = complete.
Proof.
  assert (option_map p_status (pending started) = Some complete) as Hs by (vm_compute; reflexivity).
  destruct (pending started) as [p|]; [|done]. exists p. by injection Hs.
Qed.
Definition rejected : cstate := (apply_block node clock0 clocks forged complete state).2.
Lemma forged_fails : apply_block node clock0 clocks forged complete state = (Err block_validate_exception, rejected).
Proof.
  assert ((apply_block node clock0 clocks forged complete state).1 = Err block_validate_exception) as Hr by (vm_compute; reflexivity).
  rewrite (surjective_pairing (apply_block _ _ _ _ _ _)). by rewrite Hr.
Qed.
Definition accepted : cstate := (apply_block node clock0 clocks built complete state).2.
Lemma built_passes : apply_block node clock0 clocks built complete state = (Ok (), accepted).
Proof.
  assert ((apply_block node clock0 clocks built complete state).1 = Ok ()) as Hr by (vm_compute; reflexivity).
  rewrite (surjective_pairing (apply_block _ _ _ _ _ _)). by rewrite Hr.
Qed.
End BlockDemo.

Lemma transaction_all_or_nothing_witness :
  the_world (BlockDemo.push_input 2).2 = the_world BlockDemo.started ∧
  pending (BlockDemo.push_input 2).2 = pending BlockDemo.started.
Proof.
  destruct BlockDemo.started_pending as (p & Hp & Hs).
  assert (skip_db_sessions BlockDemo.node (p_status p) false = false) as Hst by (rewrite Hs; vm_compute; reflexivity).
  assert ((BlockDemo.push_input 2).1 = Ok (mk_trace None (Some eosio_assert_message_exception))) as Hr by (vm_compute; reflexivity).
  destruct (@transaction_all_or_nothing BlockDemo.codec BlockDemo.node BlockDemo.clock0 false (BlockDemo.metadata [2]) time_max 200 true
    BlockDemo.started p _ _ Hp Hst (surjective_pairing (BlockDemo.push_input 2))) as (_ & _ & H).
  rewrite Hr in H. rewrite Hp. exact (conj (proj1 H) (proj1 (proj2 H))).
Defined.

Lemma scheduled_ends_once_witness :
  ∃ p h, pending BlockDemo.started = Some p ∧ status h = hard_fail ∧
    pending (BlockDemo.push_stored 2).2 = Some (retired p (BlockDemo.id_of 8) h []).
Proof.
  destruct BlockDemo.started_pending as (p & Hp & Hs).
  assert (skip_db_sessions BlockDemo.node (p_status p) false = false) as Hst by (rewrite Hs; vm_compute; reflexivity).
  assert ((BlockDemo.push_stored 2).1 =
    Ok (mk_trace (Some (mk_trx_receipt_header hard_fail 200 0)) (Some eosio_assert_message_exception))) as Hr by (vm_compute; reflexivity).
  destruct (@scheduled_ends_once BlockDemo.codec BlockDemo.node BlockDemo.clock0 BlockDemo.clock0 false (BlockDemo.id_of 8) time_max 200 true
    BlockDemo.started p _ _ Hp Hst (surjective_pairing (BlockDemo.push_stored 2)))
    as (_ & _ & _ & [(_ & _ & [[y Hy]|(y & Hy & _)])|(g & s1 & _ & _ & h & l & y & Hh & Hp' & Hm)]);
    [congruence|congruence|]. rewrite Hr in Hh. injection Hh as <- <-. exists p, (mk_trx_receipt_header hard_fail 200 0).
  destruct Hm as (-> & _). by split_and!.
Defined.

Lemma block_actions_consecutive_witness :
  ∃ p, pending BlockDemo.filled = Some p ∧ length (p_actions p) = 4%nat ∧
    ∀ i r, p_actions p !! i = Some r → global_sequence r = u64 (42 + Z.of_nat i).
Proof.
  assert (skip_db_sessions BlockDemo.node complete false = false) as Hst by (vm_compute; reflexivity).
  assert (0 ≤ w_global (the_world BlockDemo.state) ≤ u64_max) as Hg by (vm_compute; split; congruence).
  destruct (@block_actions_consecutive BlockDemo.codec BlockDemo.node BlockDemo.clock0 1000 0 complete BlockDemo.state BlockDemo.started
    [BlockDemo.input 2; BlockDemo.input 1; BlockDemo.stored 2; BlockDemo.stored 1] Hst Hg BlockDemo.started_ok) as (p & Hp & _ & Hn).
  exists p. split; [exact Hp|]. split; [|exact Hn].
  assert (option_map (fun p => length (p_actions p)) (pending BlockDemo.filled) = Some 4%nat) as Hl by (vm_compute; reflexivity).
  unfold BlockDemo.filled in Hl. rewrite Hp in Hl. by injection Hl.
Defined.

Lemma failed_block_undone_witness : the_world BlockDemo.rejected = BlockDemo.chain.
Proof.
  assert (skip_db_sessions BlockDemo.node complete false = false) as Hst by (vm_compute; reflexivity).
  destruct (@failed_block_undone BlockDemo.codec BlockDemo.node BlockDemo.clock0 BlockDemo.clocks BlockDemo.forged complete BlockDemo.state
    block_validate_exception BlockDemo.rejected eq_refl Hst BlockDemo.forged_fails) as (x & Hx & H).
  assert (is_fc x = true) as Hf by (destruct x; first [reflexivity|discriminate Hx]). rewrite Hf in H. exact (proj1 H).
Defined.

End Blocks.
