(* ===== verification/ChainState.v ===== *)
(** * The chain state through whole blocks

    [NativeContract] and [Execution] show that actions keep the chain state well
    formed: accounts have their permissions, sequences and limits, and permissions
    are a forest.  Here that invariant is carried through everything the controller
    does: transactions with their limits and billing, scheduled ones, the start, the
    end and the failure of blocks. *)

From S2P Require Import Prelude Exceptions Name Merkle BlockHeader HeaderState EosLib ResourceLimits Authority AuthorizationManager NativeContract ContractTables Admission TransactionContext Execution Controller Blocks.

Module ChainState.
Import AuthorizationManager Native Admission TransactionContext Tables Execution Controller Blocks.

(** ** Transactions *)

Definition txc_sound (t : txc) : Prop := chain_wf (db (cx t)) ∧ any (cfg t).

Lemma sound_on_limits {A} (m : ST RLdb exn A) : (∀ a, keeps (ResourceLimits.listed a) m) → keeps_db chain_wf (on_limits m).
Proof.
  intros Hm x a x' Hx Hw. unfold on_limits in Hx. destruct (m (limits (db x))) as [r l] eqn:E. injection Hx as -> <-.
  apply chain_wf_limits; [done|]. intros b Hb. specialize (Hm b _ Hb). by rewrite E in Hm.
Qed.
Lemma sound_on_rl {A} (m : ST RLdb exn A) : (∀ a, keeps (ResourceLimits.listed a) m) → preserves txc_sound (on_rl m).
Proof. intros Hm. by apply pres_on_cx, sound_on_limits. Qed.

Section Context.
Context (e : trx_env).

Lemma sound_max_bandwidth force : preserves txc_sound (max_bandwidth_billed_accounts_can_pay e force).
Proof. by intros t r t' (-> & _)%max_bandwidth_spec. Qed.

Lemma sound_init s now later usage : preserves txc_sound (init e s now later usage).
Proof.
  unfold init, add_net_usage. pres ltac:(unfold txc_sound in *; cbn; by repeat case_match).
  - apply sound_on_rl. eauto with chain.
  - apply sound_max_bandwidth.
Qed.
Lemma sound_init_implicit s now later usage : preserves txc_sound (init_for_implicit_trx e s now later usage).
Proof. unfold init_for_implicit_trx. pres ltac:(done). apply sound_init. Qed.
Lemma sound_init_deferred s now later p : preserves txc_sound (init_for_deferred_trx e s now later p).
Proof. unfold init_for_deferred_trx. pres ltac:(done). apply sound_init. Qed.
Lemma sound_init_input s now later up pr skip : preserves txc_sound (init_for_input_trx e s now later up pr skip).
Proof.
  unfold init_for_input_trx, on_dedupe. pres ltac:(done); [apply sound_init|].
  intros t [] t' Hx Ht. destruct (record_transaction _ _ _). by injection Hx as -> <-.
Qed.

(** Using a permission writes its usage object only. *)
Lemma permission_usage_wf now p a a' : auth_wf a → update_permission_usage now p a = (Ok (), a') →
  auth_wf a' ∧ permissions a' = permissions a.
Proof.
  intros Hw Hx. unfold update_permission_usage in Hx. apply st_bind_ok in Hx as (? & ? & [= <- <-] & Hx).
  apply st_bind_ok in Hx as ([] & ? & [_ <-]%st_assert_ok & [= <-]). split; [|done]. destruct Hw as [H1 H2 H3 H4 H5 H6].
  split; try done. intros id q Hq Hid. destruct (H4 id q Hq Hid) as [? ? ? ? ? [Hu ?]]. split; try done. split; [|done].
  cbn. by apply is_Some_put.
Qed.

Lemma sound_note_permission l : keeps_db chain_wf (note_permission e l).
Proof.
  unfold note_permission, get_db, keeps_db. pres idtac. intros x [] x' [Hm ->]%on_auth_ok Hw. cbn.
  destruct (update_permission_usage _ _ _) as [r a'] eqn:E. cbn in Hm. subst r.
  destruct (permission_usage_wf _ _ _ _ (cw_auth _ Hw) E) as [Ha Hp]. cbn.
  apply (chain_wf_mono _ _ Hw); cbn; auto; unfold has_permission; rewrite Hp; auto. apply Hw.
Qed.
Lemma sound_finalize now : preserves txc_sound (finalize e now).
Proof.
  unfold finalize, finalize_checks, bill, update_billed_cpu_time, lower_limits.
  pres ltac:(unfold txc_sound in *; cbn; by repeat case_match).
  - apply pres_on_cx. unfold keeps_db. pres idtac. apply sound_note_permission.
  - apply sound_on_rl. intros b. apply keeps_for_each. intros c. eauto with chain.
  - apply sound_max_bandwidth.
  - apply sound_on_rl. eauto with chain.
Qed.
End Context.

Section Node.
Context `{Codec} (n : node_config).
(** Unpacked authorities have fields of their width. *)
Context (Hua : ∀ b u, unpack_updateauth b = Ok u → fields_typed (ua_auth u)).
Context (Hna : ∀ b a, unpack_newaccount b = Ok a → fields_typed (na_owner a) ∧ fields_typed (na_active a)).
Implicit Types s : cstate.

Lemma native_sound env current m : native_handler env current (act_name current) = Some m → keeps_db chain_wf m.
Proof using Hua Hna. by apply native_chain_wf. Qed.

Lemma sound_exec e : preserves (holds_at chain_wf any any) (exec e).
Proof using Hua Hna. apply (pres_exec chain_wf any any chain_stable e); [done|apply native_sound]. Qed.
Lemma sound_dispatch e fuel current rcv free depth : preserves (holds_at chain_wf any any) (dispatch_action e fuel current rcv free depth).
Proof using Hua Hna. apply (pres_dispatch chain_wf any any chain_stable e); [done|apply native_sound]. Qed.

Lemma sound_on_tx {A} (m : TX A) : preserves txc_sound m → preserves (holds_at chain_wf any any) (on_tx m).
Proof. apply (pres_on_tx chain_wf any any). Qed.

Lemma sound_run_transaction e cl m b : preserves (holds_at chain_wf any any) (run_transaction n e cl m b).
Proof using Hua Hna.
  unfold run_transaction. pres idtac; first [apply sound_exec|apply sound_on_tx].
  - apply sound_init_implicit.
  - apply sound_init_input.
  - by apply pres_modify.
  - apply sound_finalize.
Qed.
Lemma sound_run_scheduled e cl p d : preserves (holds_at chain_wf any any) (run_scheduled n e cl p d).
Proof using Hua Hna.
  unfold run_scheduled. pres idtac; first [apply sound_exec|apply sound_on_tx]; [apply sound_init_deferred|apply sound_finalize].
Qed.
Lemma sound_run_onerror e cl g a : preserves (holds_at chain_wf any any) (run_onerror n e cl g a).
Proof using Hua Hna.
  unfold run_onerror. pres idtac; first [apply sound_dispatch|apply sound_on_tx];
    [apply sound_init_implicit|by apply pres_modify|apply sound_finalize].
Qed.

(** What a run in a new context leaves. *)
Lemma sound_context e billed s x (m : X ()) : preserves (holds_at chain_wf any any) m →
  chain_wf (w_db (the_world s)) → m (enter e billed s) = (Ok (), x) → chain_wf (w_db (world_of x)).
Proof. intros Hm Hw Hx. by destruct (Hm _ _ _ Hx (conj Hw (conj I I))). Qed.

(** ** The state of the node *)

(** The database is well formed, and so is the one a pending block started from. *)
Definition sound s : Prop :=
  chain_wf (w_db (the_world s)) ∧
  ∀ p, pending s = Some p → skip_db_sessions n (p_status p) false = false ∧ ∃ w, p_session p = Some w ∧ chain_wf (w_db w).

Lemma limits_moved_wf w w' : limits_moved w w' → chain_wf (w_db w) → chain_wf (w_db w').
Proof. intros (l & -> & Hl) Hw. by apply chain_wf_limits. Qed.

Lemma sound_push a : keeps sound (push_one n a).
Proof using Hua Hna.
  intros s [Hw Hs]. destruct (push_one n a s) as [r s'] eqn:E. cbn [snd].
  destruct (pending s) as [p|] eqn:Ep; [|apply push_unpending in E as ->; [|done]; split; [done|by rewrite Ep]].
  destruct (Hs p eq_refl) as (Hst & w & Hse & Hww).
  assert (∀ q, p_session q = p_session p → p_status q = p_status p →
    skip_db_sessions n (p_status q) false = false ∧ ∃ w, p_session q = Some w ∧ chain_wf (w_db w)) as Hq.
  { intros q H1 H2. rewrite H1, H2. eauto. }
  assert (∀ checks, skip_db_sessions n (p_status p) checks = false) as Hses by (intros []; [apply checks_session|done]).
  destruct a; cbn [push_one] in E.
  - apply (push_transaction_cases _ _ _ _ _ _ _ _ p) in E as (_ & _ & E); [|done..].
    destruct E as [(Hw' & Hp' & _)|[(Hw' & Hp' & _)|(x & h & Hr & _ & _ & E)]];
      [split; [by rewrite Hw'|rewrite Hp'; intros q [= <-]; eauto]..|].
    destruct (negb _ && _); destruct E as [Hw' Hp']; [split; [by rewrite Hw'|rewrite Hp'; intros q [= <-]; eauto]|].
    split; [rewrite Hw'; eapply sound_context; [apply sound_run_transaction|done|exact Hr]|].
    rewrite Hp'. intros q [= <-]. unfold extended. apply Hq; cbn; by destruct (tm_implicit m).
  - apply (push_scheduled_cases _ _ _ _ _ _ _ _ _ p) in E as [_ E]; [|done..].
    destruct E as [(Hw' & Hp' & _)|(g & s1 & _ & (w1 & Hl1 & Hw1) & h & l & y & _ & Hp' & E)];
      [split; [by rewrite Hw'|rewrite Hp'; intros q [= <-]; eauto]|].
    split; [|rewrite Hp'; intros q [= <-]; by apply Hq].
    assert (chain_wf (w_db (the_world s1))) as Hs1.
    { rewrite Hw1. cbn. pose proof (limits_moved_wf _ _ Hl1 Hw) as Hl. by apply (chain_wf_same _ _ Hl). }
    destruct (status h).
    + destruct E as (_ & e & x & Hr & _ & ->). eapply sound_context; [apply sound_run_scheduled|done|exact Hr].
    + destruct E as (_ & _ & e & act & s2 & x & Hw2 & Hr & _ & ->). rewrite <- Hw2 in Hs1.
      eapply sound_context; [apply sound_run_onerror|done|exact Hr].
    + destruct E as (_ & _ & Hl). by eapply limits_moved_wf.
    + done.
    + destruct E as (_ & _ & _ & ->). done.
Qed.

(** ** Blocks *)

Lemma sound_world w s : chain_wf (w_db w) → sound s → sound (set_world w s).
Proof. by intros Hw [_ Hs]. Qed.
Lemma sound_modify f : (∀ p, p_session (f p) = p_session p ∧ p_status (f p) = p_status p) → keeps sound (modify_pending f).
Proof.
  intros Hf s [Hw Hs]. destruct (pending s) as [p|] eqn:Ep.
  - rewrite (modify_pending_at _ _ _ Ep). split; [done|]. intros q [= <-]. destruct (Hf p) as [-> ->]. by apply Hs.
  - unfold modify_pending, get_pending, mbind, st_bind, get_st, lift. rewrite Ep. cbn. split; [done|]. by rewrite Ep.
Qed.
Lemma sound_limits {A} (m : ST RLdb exn A) : (∀ a, keeps (ResourceLimits.listed a) m) → keeps sound (on_world_limits m).
Proof.
  intros Hm s [Hw Hs]. destruct (quietly_limits m Hm s) as (_ & Hp & Hl).
  destruct (on_world_limits m s) as [r s']. cbn [snd] in *. split; [by eapply limits_moved_wf|by rewrite Hp].
Qed.

(** The permissions of the producers' account change their authorities only. *)
Lemma update_one_sound ps x d : chain_wf d → chain_wf (set_auth (update_one ps x (auth d)).2 d).
Proof.
  intros Hw. destruct x as [[name num] den]. unfold update_one.
  assert (chain_wf (set_auth (auth d) d)) as Hd by (by destruct d).
  unfold mbind, st_bind, get_st, lift. destruct (get_permission _ _) as [p|y] eqn:Eg; [|exact Hd].
  apply (get_permission_ok _ _ _ (cw_auth _ Hw)) in Eg as (Hp & Hid & _).
  unfold update_permission. case_bool_decide; [exact Hd|].
  apply set_auth_modify; [done..|]. apply producers_authority_typed, u32_range.
Qed.

Lemma sound_producers ps : keeps sound (on_world_auth (update_producers_authority ps)).
Proof.
  intros s [Hw Hs]. unfold on_world_auth. destruct (update_producers_authority _ _) as [r a] eqn:E. apply sound_world; [|by split].
  assert (∀ x d, chain_wf (set_auth d (w_db (the_world s))) → chain_wf (set_auth (update_one ps x d).2 (w_db (the_world s)))) as Hone.
  { intros x d Hd. by apply (update_one_sound ps x (set_auth d (w_db (the_world s)))). }
  assert (keeps (fun d => chain_wf (set_auth d (w_db (the_world s)))) (update_producers_authority ps)) as Hk.
  { unfold update_producers_authority. keep idtac; intros d Hd; by apply Hone. }
  specialize (Hk (auth (w_db (the_world s)))). rewrite E in Hk. apply Hk. by destruct (w_db (the_world s)).
Qed.

Lemma sound_reset : keeps sound reset_pending.
Proof.
  intros s [Hw Hs]. unfold reset_pending, modify_st. destruct (pending s) as [p|] eqn:Ep; [|cbn; split; [done|by rewrite Ep]].
  destruct (Hs p eq_refl) as (_ & w & -> & Hww). by split.
Qed.
Lemma sound_abort : keeps sound (abort_block n).
Proof.
  unfold abort_block. apply keeps_bind; [|intros _; apply sound_reset]. apply keeps_modify. intros s Hs.
  destruct (pending s) as [p|]; [|done]. by destruct (n_speculative n).
Qed.

Ltac sounds :=
  repeat first
    [ progress keep ltac:(done)
    | lazymatch goal with
      | |- keeps _ get_pending => apply keeps_get_pending
      | |- keeps _ (catch_fc _ _) => apply keeps_catch; [|intros ?]
      | |- keeps _ (capture _) => apply keeps_capture
      | |- keeps _ (ignore_errors _) => apply keeps_ignore
      | |- keeps _ (on_world_limits _) => apply sound_limits; by eauto with chain
      | |- keeps _ (modify_pending _) => apply sound_modify; done
      end ].

Lemma sound_finalize_block : keeps sound finalize_block.
Proof. unfold finalize_block, update_limits, set_merkle_roots, summarize. sounds. Qed.

Lemma sound_promote b : keeps sound (promote_proposed b).
Proof.
  unfold promote_proposed. apply keeps_read. intros s [Hw _]. sounds. all: try (apply keeps_modify; intros t Ht; by apply sound_world).
Qed.
Lemma sound_upkeep : keeps sound upkeep.
Proof. unfold upkeep. sounds. apply sound_producers. Qed.

Lemma sound_start cl when k st : skip_db_sessions n st false = false → keeps sound (start_block n cl when k st).
Proof using Hua Hna.
  intros Hst s Hs. unfold start_block. rewrite (bind_run get_st _ s s s eq_refl).
  apply keeps_bind_at; [done|intros _]. intros s1 Hs1. unfold guard_pending. rewrite Hst.
  match goal with |- context [match ?m ?t with _ => _ end] =>
    assert (sound (m t).2) as Hm; [|destruct (m t) as [[[]|x] s2]; [exact Hm|by apply sound_reset]] end.
  apply keeps_bind; [sounds|intros _|done]. apply keeps_bind; [apply keeps_modify; intros t [Ht _]|intros _].
  - split; [done|]. intros p [= <-]. split; [done|]. eexists. split; [done|]. apply Hs.
  - apply keeps_bind; [sounds|intros b]. destruct (HeaderState.maybe_promote_pending _) as [was b'].
      apply keeps_bind; [by apply sound_modify|intros _]. destruct (n_speculative n || _); [|sounds].
      apply keeps_bind; [apply sound_promote|intros _]. apply keeps_read. intros t Ht.
      apply keeps_bind; [apply keeps_get_pending|intros p]. apply keeps_bind; [|intros _; apply sound_upkeep].
      apply keeps_ignore. apply (sound_push (PushTransaction cl true _ _ _ _)).
Qed.

Lemma sound_receipt cls r : keeps sound (apply_receipt n cls r).
Proof using Hua Hna.
  unfold apply_receipt, run_receipt. sounds.
  - apply (sound_push (PushScheduled _ _ _ _ _ _ _)).
  - apply (sound_push (PushTransaction _ _ _ _ _ _)).
Qed.

Lemma sound_commit : keeps sound commit_block.
Proof. apply keeps_modify. by intros s [Hw _]. Qed.

Lemma sound_apply cl clocks b st : skip_db_sessions n st false = false → keeps sound (apply_block n cl clocks b st).
Proof using Hua Hna.
  intros Hst. unfold apply_block. sounds; first [by apply sound_start|apply sound_receipt|apply sound_finalize_block|apply sound_commit|apply sound_abort].
Qed.
End Node.

(** ** Everything a node does with blocks *)

Inductive operation : Type :=
| StartBlock (cl : clock) (when confirm_block_count : Z) (st : block_status)
| Push (a : push)
| FinalizeBlock
| CommitBlock
| AbortBlock
| ApplyBlock (cl : clock) (clocks : nat → clock * clock) (b : signed_block) (st : block_status).

Section Operations.
Context `{Codec} (n : node_config).

Definition operate (o : operation) (s : cstate) : cstate :=
  match o with
  | StartBlock cl when k st => (start_block n cl when k st s).2
  | Push a => (push_one n a s).2
  | FinalizeBlock => (finalize_block s).2
  | CommitBlock => (commit_block s).2
  | AbortBlock => (abort_block n s).2
  | ApplyBlock cl clocks b st => (apply_block n cl clocks b st s).2
  end.
Definition operate_all (l : list operation) (s : cstate) : cstate := foldl (fun s o => operate o s) s l.

(** The blocks have a session of the database: all but replayed irreversible ones. *)
Definition in_session (o : operation) : Prop :=
  match o with
  | StartBlock _ _ _ st | ApplyBlock _ _ _ st => skip_db_sessions n st false = false
  | _ => True
  end.
End Operations.

(** C7: the chain state stays sound through everything a node does with blocks.
    Whatever blocks are started, whatever transactions are pushed, in whatever order
    blocks are finished, committed, aborted or applied, and whether these calls
    succeed or throw: every account keeps its owner and active permissions, its
    sequences and its limits, every permission belongs to an account, and permissions
    stay a forest. *)
Theorem blocks_keep_chain `{Codec} (n : node_config) (l : list operation) (s : cstate) :
  (∀ b u, unpack_updateauth b = Ok u → fields_typed (ua_auth u)) →
  (∀ b a, unpack_newaccount b = Ok a → fields_typed (na_owner a) ∧ fields_typed (na_active a)) →
  Forall (in_session n) l → pending s = None → chain_wf (w_db (the_world s)) →
  chain_wf (w_db (the_world (operate_all n l s))).
Proof.
  intros Hua Hna Hl Hp Hw. assert (sound n s) as Hs by (split; [done|by rewrite Hp]). clear Hp Hw.
  assert (sound n (operate_all n l s)) as [? _]; [|done]. unfold operate_all. revert s Hs.
  induction Hl as [|o l Ho _ IH]; intros s Hs; [done|]. cbn [foldl]. apply IH. clear IH. destruct o; cbn [operate].
  - by apply sound_start.
  - by apply sound_push.
  - by apply sound_finalize_block.
  - by apply sound_commit.
  - by apply sound_abort.
  - by apply sound_apply.
Qed.

(** ** An example *)

Module ChainDemo.
Import NativeDemo BlockDemo.

Lemma demo_owner_wf : auth_wf with_owner.
Proof.
  apply create_permission_wf; [apply AdmissionDemo.producers_table_wf|by vm_compute..|apply key_typed|]. split; [done|]. by intros [].
Qed.
Lemma demo_table_wf : auth_wf BlockDemo.table.
Proof.
  apply create_permission_wf; [apply demo_owner_wf|by vm_compute..|apply key_typed|]. split; [by split; vm_compute|].
  intros _. eexists. split; vm_compute; reflexivity.
Qed.

Lemma demo_accounts a : is_Some (accounts_db (w_db chain) !! a) → a = producers_account_name ∨ a = alice.
Proof.
  unfold chain. cbn [w_db accounts_db]. rewrite lookup_insert_is_Some, lookup_singleton_is_Some.
  intros [<-|[_ <-]]; [by left|by right].
Qed.

Lemma chain_sound : chain_wf (w_db chain).
Proof.
  split; [exact demo_table_wf|..].
  - assert (map_Forall (fun id p => id = 0 ∨ is_Some (accounts_db (w_db chain) !! po_owner p)) (permissions (auth (w_db chain)))) as Hf
      by (refine (bool_decide_unpack _ _); vm_compute; exact I).
    intros id p Hp Hid. destruct (map_Forall_lookup_1 _ _ id p Hf Hp) as [H0|H0]; [exfalso; exact (Hid H0)|exact H0].
  - intros a Ha. apply demo_accounts in Ha as [->| ->].
    + split; [by vm_compute|]. split; [exists 1; eexists; split; vm_compute; by eauto|].
      split; [exists 2; eexists; split; vm_compute; by eauto|]. split_and!; vm_compute; eauto.
    + split; [by vm_compute|]. split; [exists 5; eexists; split; vm_compute; by eauto|].
      split; [exists 6; eexists; split; vm_compute; by eauto|]. split_and!; vm_compute; eauto.
Qed.

Definition history : list operation :=
  [ApplyBlock clock0 clocks forged complete; StartBlock clock0 1000 0 complete; Push (input 2); Push (input 1); Push (stored 2);
   AbortBlock; ApplyBlock clock0 clocks built complete].
End ChainDemo.

Lemma blocks_keep_chain_witness :
  chain_wf (w_db (the_world (@operate_all BlockDemo.codec BlockDemo.node ChainDemo.history BlockDemo.state))).
Proof.
  assert (Forall (in_session BlockDemo.node) ChainDemo.history) as Hl by (repeat constructor; vm_compute; reflexivity).
  exact (@blocks_keep_chain BlockDemo.codec BlockDemo.node ChainDemo.history BlockDemo.state
    (fun b => proj1 (ExecDemo.typed b)) (fun b => proj2 (ExecDemo.typed b)) Hl eq_refl ChainDemo.chain_sound).
Defined.
End ChainState.
