(* ===== verification/ForkSwitch.v ===== *)
(** * Switching forks

    [controller.cpp]: [pop_block], [maybe_switch_forks] and [push_block], which join
    the fork database, the sessions of the database and the application of blocks.
    When a better fork appears, the blocks of the old one are popped and those of the
    new one applied; when one of these fails, the way back is taken.

    The undo stack of the database is the list of the databases its sessions started
    from, the newest first.  Signals of irreversibility commit sessions; what the node
    then writes to its block log is not modelled, nor is the read mode that applies
    irreversible blocks only. *)

From S2P Require Import Prelude Exceptions Name Merkle BlockHeader HeaderState ForkDatabase EosLib ResourceLimits Authority AuthorizationManager NativeContract ContractTables Admission TransactionContext Execution Controller Blocks.

Module ForkSwitch.
Import ForkDatabase Execution Controller Blocks.

(** ** State *)

(** [ctl] is what [Controller] describes; a block state has a body by its address. *)
Record nstate : Type := mk_nstate
  { ctl : cstate; forks : forkdb; chain_head : Z;
    bodies : gmap Z (list transaction_receipt * list (Z * list Z));
    trxs_of : gmap Z (list transaction_metadata);
    stack : list world }.

Abbreviation NS := (ST nstate exn).

Definition set_ctl (c : cstate) (s : nstate) : nstate := mk_nstate c (forks s) (chain_head s) (bodies s) (trxs_of s) (stack s).
Definition set_forks (f : forkdb) (s : nstate) : nstate := mk_nstate (ctl s) f (chain_head s) (bodies s) (trxs_of s) (stack s).
Definition set_chain_head (p : Z) (s : nstate) : nstate := mk_nstate (ctl s) (forks s) p (bodies s) (trxs_of s) (stack s).
Definition set_stack (l : list world) (s : nstate) : nstate := mk_nstate (ctl s) (forks s) (chain_head s) (bodies s) (trxs_of s) l.

Definition state_at (s : nstate) (p : Z) : block_state := obj (heap (forks s)) p.
Definition block_at (s : nstate) (p : Z) : signed_block :=
  let body := default ([], []) (bodies s !! p) in mk_block (bs_block (state_at s p)) body.1 body.2.
Definition head_id (s : nstate) : digest_type := bs_id (state_at s (chain_head s)).

(** The controller reads the head through its pointer. *)
Definition at_head (s : nstate) : cstate :=
  let c := ctl s in
  mk_cstate (the_world c) (c_lists c) (pending c) (bs_header_state (state_at s (chain_head s))) (revision c)
    (unapplied_transactions c).

Definition on_forks {A} (m : FD A) : NS A := fun s => let '(r, f) := m (forks s) in (r, set_forks f s).

(** [catch( const fc::exception& )] *)
Definition catch_exception {A} (m : NS A) (handler : exn → NS A) : NS A :=
  fun s => match m s with
           | (Err x, s') => if is_fc x then handler x s' else (Err x, s')
           | r => r
           end.

(** The times the clock shows when a block is applied, for the first time or again. *)
Definition times : Type := Z → bool → clock * (nat → clock * clock).

Section Node.
Context `{Codec} (tm : times).

(** [db.undo()] *)
Definition undo : NS () :=
  modify_st (fun s => match stack s with
                      | w :: l => set_stack l (set_ctl (set_revision (revision (ctl s) - 1) (set_world w (ctl s))) s)
                      | [] => s
                      end).

Definition pop_block (n : node_config) : NS () :=
  s ← get_st;
  let h := state_at s (chain_head s) in
  prev ← lift (of_option (get_block (forks s) (bs_prev h)) block_validate_exception);
  (if n_speculative n then
     modify_st (fun s => set_ctl (set_unapplied (foldl (fun m t => <[tm_signed_id t := t]> m) (unapplied_transactions (ctl s))
                                    (default [] (trxs_of s !! chain_head s))) (ctl s)) s)
   else mret ()) ;;
  modify_st (set_chain_head prev) ;;
  undo.

(** [apply_block] of a block state, whose session stays on the stack. *)
Definition apply_at (n : node_config) (p : Z) (again : bool) (st : block_status) : NS () :=
  fun s =>
    let c := at_head s in
    let '(r, c') := apply_block n (tm p again).1 (tm p again).2 (block_at s p) st c in
    (r, set_ctl c' (match r with
                    | Ok _ => if skip_db_sessions n st false then s else set_stack (the_world c :: stack s) s
                    | Err _ => s
                    end)).

Definition retreat (n : node_config) (p : Z) : NS () :=
  on_forks (mark_in_current_chain p false) ;; pop_block n.
Definition advance (n : node_config) (p : Z) (again : bool) (st : block_status) : NS () :=
  apply_at n p again st ;; modify_st (set_chain_head p) ;; on_forks (mark_in_current_chain p true).

(** The back of the abandoned branch links to the head. *)
Definition in_sync (second : list Z) : NS () :=
  s ← get_st;
  p ← lift (of_option (last second) undefined_behavior);
  st_assert (bool_decide (head_id s = bs_prev (state_at s p))) fork_database_exception.

(** The way back to the branch [second] when the block [p] threw [x]; [applied] are the
    blocks of the new branch that were applied, the newest first. *)
Definition go_back (n : node_config) (p : Z) (applied second : list Z) (x : exn) : NS () :=
  on_forks (set_validity p false) ;;
  for_each (retreat n) applied ;;
  in_sync second ;;
  for_each (fun q => advance n q true validated) (rev second) ;;
  throw x.

Definition attempt (m : NS ()) : NS (option exn) := catch_exception (m ;; mret None) (fun x => mret (Some x)).

Fixpoint switch_to (n : node_config) (todo applied second : list Z) : NS () :=
  match todo with
  | [] => mret ()
  | p :: todo =>
      s ← get_st;
      except ← attempt (advance n p false (if ForkDatabase.validated (state_at s p) then validated else complete) ;;
                        on_forks (set_validity p true));
      match except with
      | Some x => go_back n p applied second x
      | None => switch_to n todo (p :: applied) second
      end
  end.

Definition maybe_switch_forks (n : node_config) (st : block_status) : NS () :=
  s ← get_st;
  new_head ← lift (of_option (head (forks s)) undefined_behavior);
  if bool_decide (bs_prev (state_at s new_head) = head_id s) then
    catch_exception
      (apply_at n new_head false st ;;
       on_forks (mark_in_current_chain new_head true) ;;
       on_forks (set_validity new_head true) ;;
       modify_st (set_chain_head new_head))
      (fun x => on_forks (set_validity new_head false) ;; throw x)
  else if negb (bool_decide (bs_id (state_at s new_head) = head_id s)) then
    branches ← lift (fetch_branch_from (forks s) (bs_id (state_at s new_head)) (head_id s));
    for_each (retreat n) branches.2 ;;
    in_sync branches.2 ;;
    switch_to n (rev branches.1) [] branches.2
  else mret ().

(** [on_irreversible]: the sessions up to the block are committed. *)
Definition commit_sessions (s : nstate) (p : Z) : nstate :=
  set_stack (take (Z.to_nat (revision (ctl s) - bs_num (state_at s p))) (stack s)) s.
Definition add_to_forks {A} (m : FD A) : NS A :=
  fun s => let '(r, f) := m (forks s) in
           (r, foldl commit_sessions (set_forks f s) (drop (length (signalled (forks s))) (signalled f))).

(** [create_block_state_future] and [push_block] *)
Definition create_block_state (b : signed_block) : NS Z :=
  s ← get_st;
  st_assert (negb (bool_decide (is_Some (get_block (forks s) (Header.id (Header.header_of (b_header b))))))) fork_database_exception ;;
  prev ← lift (of_option (get_block (forks s) (Header.previous (Header.header_of (b_header b)))) unlinkable_block_exception);
  p ← on_forks (make_block_state prev (b_header b) false);
  modify_st (fun s => mk_nstate (ctl s) (forks s) (chain_head s) (<[p := (b_transactions b, b_extensions b)]> (bodies s)) (trxs_of s) (stack s)) ;;
  mret p.

Definition trusting (n : node_config) (trusted : gset Z) (producer : Z) : node_config :=
  mk_node (n_lists n) (n_key_blacklist n) (n_allow_ram_billing_in_notify n) (force_all_checks n) (disable_replay_opts n)
    (n_light n || bool_decide (producer ∈ trusted)) (n_speculative n) (subjective_cpu_leeway n) (replay_head_time n)
    (n_timer n) (n_view n) (n_ticking n).

Definition push_block (n : node_config) (trusted : gset Z) (p : Z) : NS () :=
  s ← get_st;
  st_assert (bool_decide (pending (ctl s) = None)) block_validate_exception ;;
  add_to_forks (add_state (Some p) false) ;;
  maybe_switch_forks (trusting n trusted (Header.producer (Header.header_of (bs_block (state_at s p))))) complete.
End Node.

(** ** Calls that leave the blocks of the fork database alone *)

Record calm (f f' : forkdb) : Prop := mk_calm
  { ca_wf : wf f';
    ca_same : ∀ p, bs_id (obj (heap f') p) = bs_id (obj (heap f) p) ∧ bs_prev (obj (heap f') p) = bs_prev (obj (heap f) p) ∧
                   bs_block (obj (heap f') p) = bs_block (obj (heap f) p);
    ca_alloc : ∀ p, is_Some (heap f' !! p) ↔ is_Some (heap f !! p);
    ca_gone : ∀ p, p ∈ by_prev f' → p ∈ by_prev f }.

Lemma is_Some_update {A} (h : gmap Z A) i b q : is_Some (h !! i) → is_Some (<[i := b]> h !! q) ↔ is_Some (h !! q).
Proof. intros Hi. destruct (decide (q = i)) as [->|]; [by rewrite lookup_insert_eq|by rewrite lookup_insert_ne]. Qed.

Lemma calm_refl f : wf f → calm f f.
Proof. by split. Qed.

Lemma calm_find f f' i : calm f f' → find_id f i = None → find_id f' i = None.
Proof.
  intros Hc Hn. destruct (find_id f' i) as [p|] eqn:E; [|done]. apply find_id_Some in E as [Hp Hi].
  exfalso. eapply (find_id_None f i Hn p); [by apply (ca_gone _ _ Hc)|]. by destruct (ca_same _ _ Hc p) as [<- _].
Qed.

Lemma mark_calm p v f : wf f → calm f (mark_in_current_chain p v f).2.
Proof.
  intros Hw. pose proof (mark_in_current_chain_wf p v f Hw) as Hw'. unfold mark_in_current_chain, at_ptr, gets, mbind, st_bind in *.
  destruct (eqb _ _); [by apply calm_refl|]. unfold get_st in *.
  destruct (find_id f _) as [i|] eqn:E; [|by apply calm_refl]. apply find_id_Some in E as [Hi _].
  split; [exact Hw'|..].
  - intros q. cbn. destruct (decide (q = i)) as [->|Hq]; [by rewrite obj_insert_eq|by rewrite obj_insert_ne].
  - intros q. cbn. by apply is_Some_update, (wf_alloc f Hw).
  - done.
Qed.

Lemma mark_ok p v f : wf f → p ∈ by_prev f → ∃ f', mark_in_current_chain p v f = (Ok (), f') ∧ calm f f' ∧ by_prev f' = by_prev f.
Proof.
  intros Hw Hp. pose proof (mark_calm p v f Hw) as Hc. unfold mark_in_current_chain, at_ptr, gets, mbind, st_bind, get_st in *.
  destruct (eqb _ _); [by eauto|]. rewrite (find_id_is f p Hw Hp) in *. eauto.
Qed.

Lemma valid_calm p f : wf f → is_Some (heap f !! p) → calm f (set_validity p true f).2.
Proof.
  intros Hw Hp. pose proof (set_validity_wf p true f Hw Hp) as Hw'. split; [exact Hw'|..]; cbn; [|by intros q; apply is_Some_update|done].
  intros q. destruct (decide (q = p)) as [->|Hq]; [by rewrite obj_insert_eq|by rewrite obj_insert_ne].
Qed.

Lemma invalid_calm p f : wf f → calm f (set_validity p false f).2.
Proof.
  intros Hw. unfold set_validity, at_ptr, gets, mbind, st_bind. cbn.
  destruct (remove_spec (bs_id (obj (heap f) p)) f Hw) as (r & f' & -> & Hw' & Hh & Hin & _).
  split; cbn; [done| |by rewrite Hh|by intros q [? _]%Hin]. by rewrite Hh.
Qed.

Lemma calm_trans f g h : calm f g → calm g h → calm f h.
Proof.
  intros [? S1 A1 G1] [W S2 A2 G2]. split; [done|..]; auto.
  - intros p. destruct (S1 p) as (<- & <- & <-). apply S2.
  - intros p. by rewrite A2.
Qed.

(** ** The database is that of the head *)

Section Coherence.
Context `{Codec} (w0 : world) (id0 : digest_type).
Implicit Types s : nstate.

(** Applying the block [p] leads from [w] to [w']. *)
Definition applied_to s (p : Z) (w w' : world) : Prop :=
  ∃ n cl clocks st c c', pending c = None ∧ the_world c = w ∧ HeaderState.bhs_id (c_head c) = bs_prev (state_at s p) ∧
    apply_block n cl clocks (block_at s p) st c = (Ok (), c') ∧ the_world c' = w'.

(** [w] is the database after the block with the given id, from the database [w0] of
    the root [id0] through the databases [ws]. *)
Inductive replayed s : digest_type → list world → world → Prop :=
| at_root : replayed s id0 [] w0
| on_block p ws w w' : is_Some (heap (forks s) !! p) → replayed s (bs_prev (state_at s p)) ws w → applied_to s p w w' →
    replayed s (bs_id (state_at s p)) (w :: ws) w'.

Lemma replayed_calm s s' i ws w : calm (forks s) (forks s') → bodies s' = bodies s → replayed s i ws w → replayed s' i ws w.
Proof.
  intros Hc Hb. induction 1 as [|p ws w w' Hp _ IH Ha]; [constructor|].
  destruct (ca_same _ _ Hc p) as (Hi & Hpr & Hbl). unfold state_at in *. rewrite <- Hi. apply on_block.
  - by apply (ca_alloc _ _ Hc).
  - unfold state_at. by rewrite Hpr.
  - destruct Ha as (n & cl & clocks & st & c & c' & H1 & H2 & H3 & H4 & H5). exists n, cl, clocks, st, c, c'. split_and!; try done.
    + unfold state_at in *. by rewrite Hpr.
    + unfold block_at, state_at in *. by rewrite Hbl, Hb.
Qed.

(** The node between two calls: no block is pending, the database is that of the
    head, and nothing before the root is in the fork database. *)
Record good s : Prop := mk_good
  { go_wf : wf (forks s);
    go_head : is_Some (heap (forks s) !! chain_head s);
    go_pending : pending (ctl s) = None;
    go_replayed : replayed s (head_id s) (stack s) (the_world (ctl s));
    go_rooted : ∀ q, is_Some (heap (forks s) !! q) → bs_id (state_at s q) = id0 → get_block (forks s) (bs_prev (state_at s q)) = None;
    go_ids : ∀ p q, is_Some (heap (forks s) !! p) → is_Some (heap (forks s) !! q) →
      bs_id (state_at s p) = bs_id (state_at s q) → bs_prev (state_at s p) = bs_prev (state_at s q) }.

(** Undefined behaviour while a block was applied: it is still pending, over the
    database of the head. *)
Definition half s : Prop :=
  ∃ p w, pending (ctl s) = Some p ∧ p_session p = Some w ∧ replayed s (head_id s) (stack s) w.

Context (s0 : nstate).
Record inv s : Prop := mk_inv
  { iv_good : good s; iv_calm : calm (forks s0) (forks s); iv_bodies : bodies s = bodies s0 }.

Lemma inv_state s p : inv s → bs_id (state_at s p) = bs_id (state_at s0 p) ∧ bs_prev (state_at s p) = bs_prev (state_at s0 p).
Proof. intros Hi. unfold state_at. by destruct (ca_same _ _ (iv_calm _ Hi) p) as (-> & -> & _). Qed.

Definition wild {A} (r : result exn A) s : Prop := ∃ y, r = Err y ∧ is_fc y = false ∧ half s.
Definition steady {A} (m : NS A) : Prop := ∀ s r s', inv s → m s = (r, s') → inv s' ∨ wild r s'.

Lemma steady_pure {A} (m : NS A) : (∀ s r s', m s = (r, s') → s' = s) → steady m.
Proof. intros Hm s r s' Hi ->%Hm. by left. Qed.
Lemma steady_bind {A B} (m : NS A) (f : A → NS B) : steady m → (∀ a, steady (f a)) → steady (m ≫= f).
Proof.
  intros Hm Hf s r s' Hi [(a & s1 & H1 & H2)|(y & H1 & ->)]%st_bind_inv.
  - destruct (Hm _ _ _ Hi H1) as [Hi1|(y & ? & _)]; [|done]. exact (Hf a _ _ _ Hi1 H2).
  - destruct (Hm _ _ _ Hi H1) as [Hi1|(z & [= <-] & ? & ?)]; [by left|]. right. by exists y.
Qed.
Lemma steady_for_each {A} (f : A → NS ()) l : (∀ a, steady (f a)) → steady (for_each f l).
Proof.
  intros Hf. induction l as [|a l IH]; cbn [for_each]; [by apply steady_pure; intros s r s' [= _ <-]|].
  apply steady_bind; [apply Hf|by intros _].
Qed.
Lemma steady_catch {A} (m : NS A) h : steady m → (∀ x, steady (h x)) → steady (catch_exception m h).
Proof.
  intros Hm Hh s r s' Hi. unfold catch_exception. destruct (m s) as [[a|x] s1] eqn:E.
  - intros [= <- <-]. by eapply Hm.
  - destruct (Hm _ _ _ Hi E) as [Hi1|(y & [= <-] & Hy & Hh1)].
    + destruct (is_fc x) eqn:Ex; [by apply Hh|]. intros [= <- <-]. by left.
    + rewrite Hy. intros [= <- <-]. right. by exists x.
Qed.

Lemma calm_inv s f : inv s → calm (forks s) f → inv (set_forks f s).
Proof.
  intros [[W H1 H2 H3 H4 H5] Hc Hb] Hf. pose proof (ca_same _ _ Hf) as Hsame.
  assert (∀ p, bs_id (state_at (set_forks f s) p) = bs_id (state_at s p) ∧ bs_prev (state_at (set_forks f s) p) = bs_prev (state_at s p)) as Hs.
  { intros p. unfold state_at. cbn. by destruct (Hsame p) as (-> & -> & _). }
  split; [split|by eapply calm_trans|done]; cbn; try done.
  - by apply (ca_wf _ _ Hf).
  - by apply (ca_alloc _ _ Hf).
  - unfold head_id. cbn. destruct (Hs (chain_head s)) as [-> _]. by eapply (replayed_calm s).
  - intros q Hq Hi. destruct (Hs q) as [E1 ->]. rewrite E1 in Hi. apply (calm_find _ _ _ Hf), H4; [by apply (ca_alloc _ _ Hf)|done].
  - intros p q Hp Hq. destruct (Hs p) as [-> ->], (Hs q) as [-> ->]. by apply H5; apply (ca_alloc _ _ Hf).
Qed.

Lemma steady_forks {A} (m : FD A) : (∀ s, inv s → calm (forks s) (m (forks s)).2) → steady (on_forks m).
Proof.
  intros Hm s r s' Hi. unfold on_forks. specialize (Hm s Hi). destruct (m (forks s)) as [q f]. intros [= <- <-]. left. by apply calm_inv.
Qed.
Lemma inv_wf s : inv s → wf (forks s).
Proof. intros Hi. apply (iv_good _ Hi). Qed.
Lemma steady_mark p v : steady (on_forks (mark_in_current_chain p v)).
Proof. apply steady_forks. intros s Hi. by apply mark_calm, inv_wf. Qed.
Lemma steady_invalid p : steady (on_forks (set_validity p false)).
Proof. apply steady_forks. intros s Hi. by apply invalid_calm, inv_wf. Qed.
Lemma steady_valid p : is_Some (heap (forks s0) !! p) → steady (on_forks (set_validity p true)).
Proof. intros Hp. apply steady_forks. intros s Hi. apply valid_calm; [by apply inv_wf|]. by apply (ca_alloc _ _ (iv_calm _ Hi)). Qed.

(** The state in which the head [q] is under the block that was popped. *)
Lemma popped s q c w ws : inv s → get_block (forks s) (bs_prev (state_at s (chain_head s))) = Some q →
  stack s = w :: ws → pending c = None → the_world c = w →
  replayed s (bs_prev (state_at s (chain_head s))) ws w →
  inv (set_stack ws (set_ctl c (set_chain_head q s))).
Proof.
  intros [[W H1 H2 H3 H4 H5] Hc Hb] Hq Hst Hp Hw Hr. apply find_id_Some in Hq as [Hin Hid].
  split; [split|done|done]; cbn; try done.
  - by apply (wf_alloc _ W).
  - unfold head_id, state_at. cbn. rewrite Hid, Hw. by eapply (replayed_calm s); [by apply calm_refl| |exact Hr].
Qed.

(** Popping a block goes back to the database before it. *)
Lemma steady_pop n : steady (pop_block n).
Proof.
  intros s r s' Hi. pose proof Hi as [[W H1 H2 H3 H4 H5] Hc Hb].
  unfold pop_block, undo, mbind, st_bind, get_st, lift, modify_st.
  destruct (get_block (forks s) _) as [q|] eqn:E; [|intros [= <- <-]; by left]. cbn [of_option].
  assert (∃ w ws, stack s = w :: ws ∧ replayed s (bs_prev (state_at s (chain_head s))) ws w) as (w & ws & Hst & Hr).
  { remember (head_id s) as i eqn:Ei. destruct H3 as [|p ws w w' Hp Hr Ha].
    - rewrite (H4 (chain_head s)) in E; [done..|by rewrite Ei].
    - exists w, ws. split; [done|]. by rewrite <- (H5 p (chain_head s)). }
  destruct (n_speculative n); cbn; rewrite Hst; intros [= <- <-]; left;
    match goal with |- inv (set_stack _ (set_ctl ?c _)) => by apply (popped s q c w ws) end.
Qed.
Lemma steady_retreat n p : steady (retreat n p).
Proof. apply steady_bind; [apply steady_mark|intros _; apply steady_pop]. Qed.

Section Applying.
Context (tm : times) (n : node_config).
Context (Hm : ∀ b x, metadata_of b = Err x → is_fc x = true).
Context (Hses : ∀ checks, skip_db_sessions n validated checks = false ∧ skip_db_sessions n complete checks = false).

(** The next block of the head. *)
Definition follows s (p : Z) : Prop := is_Some (heap (forks s0) !! p) ∧ bs_prev (state_at s p) = head_id s.

Lemma apply_at_cases s p again st r s' : inv s → follows s p → skip_db_sessions n st false = false →
  apply_at tm n p again st s = (r, s') →
  (r = Ok () ∧ inv (set_chain_head p s') ∧ forks s' = forks s ∧ bodies s' = bodies s) ∨ (∃ y, r = Err y ∧ inv s') ∨ wild r s'.
Proof using Hm.
  intros Hi [Hal Hprev] Hst. pose proof Hi as [[W H1 H2 H3 H4 H5] Hc Hb]. unfold apply_at.
  destruct (apply_block _ _ _ _ _ _) as [q c'] eqn:E.
  pose proof E as Ec. apply apply_block_cases in Ec; [|done..]. rewrite Hst.
  assert (∀ c, calm (forks s) (forks (set_ctl c s))) as Hself by (intros c; by apply calm_refl).
  destruct Ec as [[-> Hp]|[(y & -> & Hh & _ & Hp & Hw)|(y & -> & Hy & _ & _ & pd & Hp & Hs)]]; intros [= <- <-].
  - left. split_and!; try done. split; [split|done|done]; cbn; try done; [by apply (ca_alloc _ _ Hc)|].
    unfold head_id. cbn. eapply (replayed_calm s); [by apply calm_refl|done|].
    change (replayed s (bs_id (state_at s p)) (the_world (ctl s) :: stack s) (the_world c')). apply on_block; [by apply (ca_alloc _ _ Hc)|by rewrite Hprev|].
    exists n, (tm p again).1, (tm p again).2, st, (at_head s), c'. by split_and!.
  - right; left. exists y. split; [done|]. split; [split|done|done]; cbn; try done.
    unfold head_id. cbn. cbn in Hw. rewrite Hw. by eapply (replayed_calm s); [apply calm_refl| |exact H3].
  - right; right. exists y. split_and!; [done..|]. exists pd, (the_world (ctl s)). split_and!; [done..|].
    by eapply (replayed_calm s); [apply calm_refl| |exact H3].
Qed.

Lemma steady_seq {A B} (m : NS A) (f : A → NS B) s r s' : (∀ a, steady (f a)) →
  (∀ r1 s1, m s = (r1, s1) → inv s1 ∨ wild r1 s1) → (m ≫= f) s = (r, s') → inv s' ∨ wild r s'.
Proof.
  intros Hf Hs [(a & s1 & H1 & H2)|(y & H1 & ->)]%st_bind_inv; destruct (Hs _ _ H1) as [Hi|(z & Hz & ? & ?)].
  - by eapply Hf.
  - done.
  - by left.
  - injection Hz as <-. right. by exists y.
Qed.

(** Applying the next block moves the head to it, or leaves everything as it was. *)
Lemma advance_cases s p again st r s' : inv s → follows s p → skip_db_sessions n st false = false →
  advance tm n p again st s = (r, s') →
  (inv s' ∧ (r = Ok () → chain_head s' = p)) ∨ wild r s'.
Proof using Hm.
  intros Hi Hfo Hst. unfold advance.
  intros [([] & s1 & H1 & H2)|(y & H1 & ->)]%st_bind_inv; apply apply_at_cases in H1; try done.
  - destruct H1 as [(_ & Hi1 & _)|[(y & ? & _)|(y & ? & _)]]; [|done..].
    apply st_bind_inv in H2 as [([] & s2 & [= <-] & H2)|(y & H2 & _)]; [|done]. left.
    assert (chain_head s' = p) as Hp.
    { unfold on_forks in H2. destruct (mark_in_current_chain p true _) as [q f]. by injection H2 as _ <-. }
    split; [|done]. destruct (steady_mark p true _ _ _ Hi1 H2) as [?|(y & -> & Hy & _)]; [done|].
    unfold on_forks, mark_in_current_chain, at_ptr, gets, get_st, throw, modify_st, mbind, st_bind in H2.
    destruct (eqb _ _); [done|]. destruct (find_id _ _); [done|]. injection H2 as <- _. done.
  - destruct H1 as [(? & _)|[(z & [= <-] & ?)|(z & [= <-] & ? & ?)]]; [done|by left|]. right. by exists y.
Qed.

(** [l] are blocks on top of the block with the given id, the oldest first. *)
Fixpoint climbs (i : digest_type) (l : list Z) : Prop :=
  match l with
  | [] => True
  | p :: l => is_Some (heap (forks s0) !! p) ∧ bs_prev (state_at s0 p) = i ∧ climbs (bs_id (state_at s0 p)) l
  end.

Lemma path_climbs i l acc : wf (forks s0) → path (forks s0) i l → climbs i acc →
  climbs (match last l with Some x => bs_prev (state_at s0 x) | None => i end) (rev l ++ acc).
Proof.
  intros W Hp. revert acc. induction Hp as [|i p l Hg Hp IH]; intros acc Ha; [done|].
  cbn [rev]. rewrite <- app_assoc. apply find_id_Some in Hg as [Hin Hid].
  assert (climbs (bs_prev (state_at s0 p)) (p :: acc)) as Hc.
  { split; [by apply (wf_alloc _ W)|]. split; [done|]. unfold state_at. by rewrite Hid. }
  specialize (IH _ Hc). rewrite last_cons. unfold state_at in *. destruct (last l); exact IH.
Qed.

Lemma climbs_follows s p l : inv s → climbs (head_id s) (p :: l) → follows s p ∧ climbs (bs_id (state_at s p)) l.
Proof. intros Hi (Hal & Hpr & Hl). destruct (inv_state s p Hi) as [-> E]. split; [split|]; [done|by rewrite E|done]. Qed.

Lemma advance_next s p l again st r s' : inv s → climbs (head_id s) (p :: l) → skip_db_sessions n st false = false →
  advance tm n p again st s = (r, s') →
  (inv s' ∧ (r = Ok () → head_id s' = bs_id (state_at s0 p))) ∨ wild r s'.
Proof using Hm.
  intros Hi Hc Hst Hx. destruct (climbs_follows _ _ _ Hi Hc) as [Hfo Hl].
  destruct (advance_cases _ _ _ _ _ _ Hi Hfo Hst Hx) as [[Hi' Hp]|Hw]; [left|by right]. split; [done|].
  intros Hr. unfold head_id. rewrite (Hp Hr). by destruct (inv_state s' p Hi') as [-> _].
Qed.

Lemma advance_all l : ∀ s r s', inv s → climbs (head_id s) l →
  for_each (fun q => advance tm n q true validated) l s = (r, s') → inv s' ∨ wild r s'.
Proof using Hm Hses.
  induction l as [|p l IH]; intros s r s' Hi Hc; cbn [for_each]; [intros [= _ <-]; by left|].
  intros [([] & s1 & H1 & H2)|(y & H1 & ->)]%st_bind_inv;
    (destruct (advance_next _ _ _ _ _ _ _ Hi Hc (proj1 (Hses false)) H1) as [[Hi1 Hn]|(z & Hz & ? & ?)]).
  - eapply IH; [exact Hi1|rewrite (Hn eq_refl); apply Hc|exact H2].
  - done.
  - by left.
  - right. exists y. by injection Hz as <-.
Qed.

Lemma in_sync_cases l s r s' : in_sync l s = (r, s') →
  s' = s ∧ (r = Ok () → ∃ x, last l = Some x ∧ head_id s = bs_prev (state_at s x)).
Proof.
  unfold in_sync, mbind, st_bind, get_st, lift. destruct (last l) as [x|]; cbn [of_option]; [|by intros [= <- <-]].
  unfold st_assert, lift, eos_assert. case_bool_decide; intros [= <- <-]; split; try done. intros _. eauto.
Qed.

(** The blocks of the abandoned branch can be applied again where it began. *)
Definition returns (second : list Z) : Prop :=
  ∀ x, last second = Some x → climbs (bs_prev (state_at s0 x)) (rev second).

Lemma go_back_steady p applied second x : returns second → steady (go_back tm n p applied second x).
Proof using Hm Hses.
  intros Hret. unfold go_back. apply steady_bind; [apply steady_invalid|intros _].
  apply steady_bind; [apply steady_for_each; intros a; apply steady_retreat|intros _].
  intros s r s' Hi [([] & s1 & H1 & H2)|(y & H1 & ->)]%st_bind_inv; apply in_sync_cases in H1 as [-> Hs]; [|by left].
  destruct (Hs eq_refl) as (z & Hz & Hhead). clear Hs. revert H2. apply steady_seq; [intros []; by apply steady_pure; intros ? ? ? [= _ <-]|].
  intros r1 s1. apply advance_all; [done|]. rewrite Hhead. destruct (inv_state s z Hi) as [_ ->]. by apply Hret.
Qed.

Lemma go_back_throws p applied second x s u s' : go_back tm n p applied second x s ≠ (Ok u, s').
Proof. unfold go_back. intros Hx. by do 4 (apply st_bind_ok in Hx as (? & ? & _ & Hx)). Qed.

Lemma switch_to_steady second todo : returns second → ∀ applied s r s', inv s → climbs (head_id s) todo →
  switch_to tm n todo applied second s = (r, s') →
  (inv s' ∧ (r = Ok () → head_id s' = match last todo with Some x => bs_id (state_at s0 x) | None => head_id s end)) ∨ wild r s'.
Proof using Hm Hses.
  intros Hret. induction todo as [|p todo IH]; intros applied s r s' Hi Hc; cbn [switch_to]; [intros [= <- <-]; by left|].
  intros [(t & s1 & [= <- <-] & Hx)|(y & ? & _)]%st_bind_inv; [|done].
  set (st := if ForkDatabase.validated (state_at s p) then validated else complete) in *.
  assert (skip_db_sessions n st false = false) as Hst by (unfold st; destruct (ForkDatabase.validated _); apply Hses).
  assert (is_Some (heap (forks s0) !! p)) as Hal by apply Hc.
  set (m := advance tm n p false st ;; on_forks (set_validity p true)) in *.
  assert (∀ r1 s1, m s = (r1, s1) → (inv s1 ∧ (r1 = Ok () → head_id s1 = bs_id (state_at s0 p))) ∨ wild r1 s1) as Hmm.
  { intros r1 s2 [([] & s3 & H1 & H2)|(y & H1 & ->)]%st_bind_inv;
      (destruct (advance_next _ _ _ _ _ _ _ Hi Hc Hst H1) as [[Hi3 Hn]|(z & Hz & ? & ?)]); [|done|by left|].
    - specialize (Hn eq_refl). destruct (steady_valid p Hal _ _ _ Hi3 H2) as [Hi2|?]; [left|by right]. split; [done|]. intros _.
      replace (head_id s2) with (head_id s3); [done|]. unfold head_id.
      assert (chain_head s2 = chain_head s3) as ->.
      { unfold on_forks in H2. destruct (set_validity p true _). by injection H2 as _ <-. }
      destruct (inv_state s3 (chain_head s3) Hi3) as [-> _]. by destruct (inv_state s2 (chain_head s3) Hi2) as [-> _].
    - right. exists y. by injection Hz as <-. }
  unfold attempt, catch_exception in Hx. destruct (m s) as [[[]|y] s1] eqn:E.
  - destruct (Hmm _ _ eq_refl) as [[Hi1 Hn]|(z & ? & _)]; [|done].
    apply st_bind_inv in Hx as [(o & s2 & H1 & H2)|(y & H1 & _)]; unfold mbind, st_bind in H1; rewrite E in H1; [|done].
    injection H1 as <- <-. specialize (Hn eq_refl). destruct (IH (p :: applied) _ _ _ Hi1 ltac:(rewrite Hn; apply Hc) H2) as [[Hi' Hh]|?]; [left|by right].
    split; [done|]. intros Hr. rewrite (Hh Hr), Hn, last_cons. by destruct (last todo).
  - destruct (Hmm _ _ eq_refl) as [[Hi1 Hn]|(z & [= <-] & Hy & Hh)];
      apply st_bind_inv in Hx as [(o & s2 & H1 & H2)|(y' & H1 & ->)]; unfold mbind, st_bind in H1; rewrite E in H1.
    + destruct (is_fc y); [|done]. injection H1 as <- <-. destruct (go_back_steady _ _ _ _ Hret _ _ _ Hi1 H2) as [Hi'|?]; [left|by right]. split; [done|].
      intros ->. by apply go_back_throws in H2.
    + destruct (is_fc y); [done|]. injection H1 as <- <-. by left.
    + rewrite Hy in H1. done.
    + rewrite Hy in H1. injection H1 as <- <-. right. by exists y.
Qed.

Lemma extend_head st h s r s' : inv s → follows s h → h ∈ by_prev (forks s) → skip_db_sessions n st false = false →
  catch_exception
    (apply_at tm n h false st ;; on_forks (mark_in_current_chain h true) ;; on_forks (set_validity h true) ;; modify_st (set_chain_head h))
    (fun x => on_forks (set_validity h false) ;; throw x) s = (r, s') →
  (inv s' ∧ (r = Ok () → head_id s' = bs_id (state_at s0 h))) ∨ wild r s'.
Proof using Hm.
  intros Hi Hfo Hin Hst. unfold catch_exception. unfold mbind at 1, st_bind at 1.
  destruct (apply_at tm n h false st s) as [q s1] eqn:E.
  apply apply_at_cases in E as [(-> & Hi1 & Hf1 & Hb1)|[(y & -> & Hi1)|(y & -> & Hy & Hh)]]; [..|done|done|done].
  - unfold mbind, st_bind, on_forks, modify_st. rewrite Hf1.
    destruct (mark_ok h true (forks s) (inv_wf _ Hi) Hin) as (f & -> & Hc & _). cbn.
    intros [= <- <-]. left. pose proof (calm_inv _ f Hi1) as Hi2. cbn in Hi2. rewrite Hf1 in Hi2. specialize (Hi2 Hc).
    assert (is_Some (heap f !! h)) as Hal by (apply (ca_alloc _ _ Hc), (wf_alloc _ (inv_wf _ Hi)), Hin).
    pose proof (calm_inv _ _ Hi2 (valid_calm h f (inv_wf _ Hi2) Hal)) as Hi3. cbn in Hi3.
    split; [exact Hi3|]. intros _. unfold head_id. by destruct (inv_state _ h Hi3) as [<- _].
  - destruct (is_fc y).
    + unfold mbind, st_bind. destruct (on_forks (set_validity h false) s1) as [q s2] eqn:E2.
      destruct (steady_invalid h _ _ _ Hi1 E2) as [Hi2|(z & -> & Hz & Hh)].
      * destruct q as [[]|z]; intros [= <- <-]; by left.
      * intros [= <- <-]. right. by exists z.
    + intros [= <- <-]. by left.
  - rewrite Hy. intros [= <- <-]. right. by exists y.
Qed.
End Applying.
End Coherence.

(** C6: the database is always that of the head block.  However the node moves to
    the head of its fork database, by one block or to another fork, and whether all
    blocks of the new fork apply or one of them fails and the way back is taken: the
    database and its undo stack are what applying, one after the other, the blocks
    from the root to the head of the node gives, each on the block it names as its
    predecessor, and no block is pending; on success the head is that of the fork
    database.  The only exception is undefined behaviour while a block runs, which
    leaves that block pending over the database of the head.  Block ids are free of
    collisions, and unpacking throws exceptions of [fc] only. *)
Theorem database_follows_head `{Codec} (tm : times) (n : node_config) (st : block_status) (w0 : world) (id0 : digest_type) (s : nstate) r s' :
  (∀ b x, metadata_of b = Err x → is_fc x = true) →
  (∀ checks, skip_db_sessions n validated checks = false ∧ skip_db_sessions n complete checks = false) →
  skip_db_sessions n st false = false →
  linked (forks s) → good w0 id0 s → (∀ h, head (forks s) = Some h → h ∈ by_prev (forks s)) →
  maybe_switch_forks tm n st s = (r, s') →
  (good w0 id0 s' ∧ (r = Ok () → ∃ h, head (forks s) = Some h ∧ head_id s' = bs_id (state_at s h))) ∨
  (∃ y, r = Err y ∧ is_fc y = false ∧ half w0 id0 s').
Proof.
  intros Hm Hses Hst Hlk Hg Hhd. pose proof (go_wf _ _ _ Hg) as W.
  assert (inv w0 id0 s s) as Hi by (split; [done|by apply calm_refl|done]).
  unfold maybe_switch_forks. intros [(s1 & s2 & [= <- <-] & Hx)|(y & ? & _)]%st_bind_inv; [|done].
  destruct (head (forks s)) as [h|] eqn:Eh; [|by apply st_bind_inv in Hx as [(? & ? & ? & _)|(y & [= <- <-] & ->)]; [|left]].
  apply st_bind_inv in Hx as [(h' & s2 & [= <- <-] & Hx)|(y & ? & _)]; [|done]. specialize (Hhd h eq_refl).
  case_bool_decide as Hprev.
  - assert (follows s s h) as Hfo by (split; [by apply (wf_alloc _ W)|done]).
    destruct (extend_head w0 id0 s tm n Hm st h s r s' Hi Hfo Hhd Hst Hx) as [[Hi' Hr]|Hw]; [left|by right].
    split; [apply Hi'|]. eauto.
  - case_bool_decide as Hid; cbn [negb] in Hx; [injection Hx as <- <-; left; split; [done|]; eauto|].
    apply st_bind_inv in Hx as [([l1 l2] & s2 & [= Hf <-] & Hx)|(y & [= _ <-] & ->)]; [|by left].
    pose proof (fetch_branch_from_sound (forks s) (bs_id (state_at s h)) (head_id s) Hlk) as Hs. rewrite Hf in Hs.
    destruct Hs as (P1 & P2 & x & y & L1 & L2 & Hxy). cbn [fst snd] in Hx.
    pose proof (path_climbs s _ _ [] W P1 I) as C1. pose proof (path_climbs s _ _ [] W P2 I) as C2.
    rewrite L1, app_nil_r in C1. rewrite L2, app_nil_r in C2.
    apply st_bind_inv in Hx as [([] & s2 & H1 & Hx)|(z & H1 & ->)];
      destruct (steady_for_each w0 id0 s (retreat n) l2 (fun a => steady_retreat w0 id0 s n a) _ _ _ Hi H1) as [Hi2|(z' & Hz & Hy & Hh)];
      [|done|left; split; [apply Hi2|done]|right; exists z; by injection Hz as <-].
    apply st_bind_inv in Hx as [([] & s3 & H2 & Hx)|(z & H2 & ->)]; apply in_sync_cases in H2 as [-> Hs];
      [|left; split; [apply Hi2|done]].
    destruct (Hs eq_refl) as (z & Hz & Hhead). assert (z = y) as -> by congruence. clear Hs Hz.
    destruct (inv_state _ _ _ s2 y Hi2) as [_ E2]. rewrite E2 in Hhead.
    assert (climbs s (head_id s2) (rev l1)) as C3 by (rewrite Hhead; unfold state_at in *; by rewrite <- Hxy).
    assert (returns s l2) as Hret by (intros z Hz; assert (z = y) as -> by congruence; exact C2).
    destruct (switch_to_steady w0 id0 s tm n Hm Hses l2 (rev l1) Hret [] s2 r s' Hi2 C3 Hx) as [[Hi' Hr]|Hw]; [left|by right].
    split; [apply Hi'|]. intros Hok. exists h. split; [done|]. rewrite (Hr Hok).
    inversion P1 as [|? p l Hg1 _]; subst; [done|]. cbn [rev]. rewrite last_snoc. by apply find_id_Some in Hg1 as [_ ?].
Qed.

(** ** An example *)

Module SwitchDemo.
Import BlockDemo.
#[local] Existing Instance codec.

(** A block on the head of [c], its receipts, and the node that produced it. *)
Definition produced (c : cstate) : block_state * list transaction_receipt * cstate :=
  match pending c with
  | Some p => (mk_block_state (p_state p) (HeaderState.bhs_header (p_state p)) false false, p_transactions p,
               mk_cstate (the_world c) (c_lists c) None (p_state p) (revision c) ∅)
  | None => (block_state0, [], c)
  end.
Definition produce (when : Z) (l : list push) (c : cstate) : block_state * list transaction_receipt * cstate :=
  produced (finalize_block (push_all node l (start_block node clock0 when 0 complete c).2)).2.

(** The root 9, the block 10 of the other examples, and another fork of two blocks. *)
Definition root : block_state := mk_block_state HeaderState.Demo.state HeaderState.signed0 true true.
Definition old10 := produced finished.
Definition new10 := produce 1001 [] state.
Definition new11 := produce 1002 [input 1] new10.2.

Definition objects : gmap Z block_state :=
  <[4 := new11.1.1]> (<[3 := new10.1.1]> (<[2 := set_in_current_chain true (set_validated old10.1.1)]> {[1 := root]})).
Definition insert (p : Z) (f : forkdb) : forkdb := (index_insert p f).2.
Definition tree : forkdb := insert 4 (insert 3 (insert 2 (insert 1 (mk_forkdb objects 5 [] [] [] (Some 4) [])))).

Definition before_switch : nstate :=
  mk_nstate accepted tree 2 (<[4 := (new11.1.2, [])]> (<[3 := (new10.1.2, [])]> {[2 := (old10.1.2, [])]})) ∅ [chain].
Definition tm : times := fun _ _ => (clock0, clocks).
Definition after_switch : nstate := (maybe_switch_forks tm node complete before_switch).2.

Lemma switch_ok : maybe_switch_forks tm node complete before_switch = (Ok (), after_switch).
Proof.
  assert ((maybe_switch_forks tm node complete before_switch).1 = Ok ()) as Hr by (vm_compute; reflexivity).
  rewrite (surjective_pairing (maybe_switch_forks _ _ _ _)). by rewrite Hr.
Qed.

Lemma objects_in p : p ∈ [1; 2; 3; 4] → is_Some (objects !! p).
Proof.
  assert (Forall (fun p => is_Some (objects !! p)) [1; 2; 3; 4]) as Hf by (refine (bool_decide_unpack _ _); vm_compute; exact I).
  intros Hp. rewrite Forall_forall in Hf. exact (Hf p Hp).
Qed.
Lemma object_2 : is_Some (objects !! 2).
Proof. apply objects_in. set_solver. Qed.
Lemma insert_heap p f : heap (insert p f) = heap f.
Proof. unfold insert, index_insert. by destruct (find_id f _). Qed.
Lemma insert_wf p f : p ∈ [1; 2; 3; 4] → heap f = objects → wf f → wf (insert p f).
Proof. intros Hp Hh Hw. apply index_insert_wf; [exact Hw|]. rewrite Hh. exact (objects_in p Hp). Qed.
Lemma objects_fresh p : is_Some (objects !! p) → p < 5.
Proof.
  assert (map_Forall (fun p _ => p < 5) objects) as Hf by (refine (bool_decide_unpack _ _); vm_compute; exact I).
  intros [b Hb]. exact (map_Forall_lookup_1 _ _ p b Hf Hb).
Qed.

Lemma switch_tree_wf : wf tree.
Proof.
  assert (wf (mk_forkdb objects 5 [] [] [] (Some 4) [])) as W0.
  { apply empty_wf; [exact objects_fresh|]. intros p [= <-]. apply objects_in. set_solver. }
  unfold tree. do 4 (apply insert_wf; [set_solver|by rewrite ?insert_heap|]). exact W0.
Qed.

Lemma switch_tree_linked : linked tree.
Proof.
  assert (Forall (fun p => Forall (fun q => bs_prev (obj (heap tree) q) = bs_id (obj (heap tree) p) →
    bs_num (obj (heap tree) p) < bs_num (obj (heap tree) q)) (by_prev tree)) (by_prev tree)) as Hf
    by (refine (bool_decide_unpack _ _); vm_compute; exact I).
  intros p q Hp Hq. rewrite Forall_forall in Hf. specialize (Hf p Hp). rewrite Forall_forall in Hf. exact (Hf q Hq).
Qed.

Lemma demo_good : good chain (HeaderState.bhs_id HeaderState.Demo.state) before_switch.
Proof.
  assert (heap (forks before_switch) = objects) as Hh by (unfold before_switch, tree; cbn [forks]; by rewrite !insert_heap).
  split.
  - exact switch_tree_wf.
  - rewrite Hh. change (chain_head before_switch) with 2. exact object_2.
  - vm_compute. reflexivity.
  - change (replayed chain (HeaderState.bhs_id HeaderState.Demo.state) before_switch (bs_id (state_at before_switch 2)) [chain] (the_world accepted)).
    apply on_block; [rewrite Hh; exact object_2| |].
    + replace (bs_prev (state_at before_switch 2)) with (HeaderState.bhs_id HeaderState.Demo.state) by (vm_compute; reflexivity). constructor.
    + exists node, clock0, clocks, complete, state, accepted. split; [reflexivity|]. split; [reflexivity|].
      split; [vm_compute; reflexivity|]. split; [|reflexivity].
      replace (block_at before_switch 2) with built by (vm_compute; reflexivity). exact built_passes.
  - assert (map_Forall (fun q _ => bs_id (state_at before_switch q) = HeaderState.bhs_id HeaderState.Demo.state →
      get_block tree (bs_prev (state_at before_switch q)) = None) objects) as Hf by (refine (bool_decide_unpack _ _); vm_compute; exact I).
    rewrite Hh. intros q [b Hb]. exact (map_Forall_lookup_1 _ _ q b Hf Hb).
  - assert (map_Forall (fun p _ => map_Forall (fun q _ => bs_id (state_at before_switch p) = bs_id (state_at before_switch q) →
      bs_prev (state_at before_switch p) = bs_prev (state_at before_switch q)) objects) objects) as Hf
      by (refine (bool_decide_unpack _ _); vm_compute; exact I).
    rewrite Hh. intros p q [b Hb] [c Hc]. exact (map_Forall_lookup_1 _ _ q c (map_Forall_lookup_1 _ _ p b Hf Hb) Hc).
Qed.
End SwitchDemo.

Lemma database_follows_head_witness :
  @good BlockDemo.codec BlockDemo.chain (HeaderState.bhs_id HeaderState.Demo.state) SwitchDemo.after_switch ∧
  head_id SwitchDemo.after_switch = bs_id (state_at SwitchDemo.before_switch 4).
Proof.
  assert (∀ b x, @metadata_of BlockDemo.codec b = Err x → is_fc x = true) as Hm by (intros b x Hx; discriminate Hx).
  assert (∀ checks, skip_db_sessions BlockDemo.node validated checks = false ∧ skip_db_sessions BlockDemo.node complete checks = false) as Hses
    by (intros []; vm_compute; split; reflexivity).
  assert (head SwitchDemo.tree = Some 4) as Hhead by (vm_compute; reflexivity).
  assert (∀ h, head SwitchDemo.tree = Some h → h ∈ by_prev SwitchDemo.tree) as Hin.
  { intros h Hh. rewrite Hhead in Hh. injection Hh as <-. refine (bool_decide_unpack _ _). vm_compute. exact I. }
  destruct (@database_follows_head BlockDemo.codec SwitchDemo.tm BlockDemo.node complete BlockDemo.chain (HeaderState.bhs_id HeaderState.Demo.state)
    SwitchDemo.before_switch (Ok ()) SwitchDemo.after_switch Hm Hses (proj2 (Hses false)) SwitchDemo.switch_tree_linked SwitchDemo.demo_good Hin
    SwitchDemo.switch_ok) as [[Hg Hr]|(y & Hy & _)]; [|discriminate Hy].
  split; [exact Hg|]. destruct (Hr eq_refl) as (h & Hh & ->). change (head SwitchDemo.tree = Some h) in Hh. rewrite Hhead in Hh. by injection Hh as <-.
Defined.
End ForkSwitch.
