(* ===== verification/Msig.v ===== *)
(** * The multi-signature contract

    [contracts/noc.msig]: a proposed transaction is executed once the permission
    levels that approved it suffice.

    The two tables are keyed by proposer and proposal name.  Decoding the header
    of a packed transaction is the class [MsigEnv].  The outcome of the intrinsic
    [check_transaction_authorization] comes with each action, since it depends on
    the state of the node; [check_transaction_authorization] below is the
    intrinsic over the authorization manager.  The data of [propose] is taken as
    decoded. *)

From S2P Require Import Prelude Exceptions BlockHeader Authority AuthorizationManager.

Module Msig.
Import AuthorizationManager.


(** [approvals_info] without its key. *)
Record approvals_info : Type := mk_approvals
  { requested_approvals : list permission_level; provided_approvals : list permission_level }.

(** The tables, and the deferred transactions sent: sender id, payer and packed
    transaction. *)
Record msig_state : Type := mk_msig
  { proposals : gmap (Z * Z) bytes; approvals : gmap (Z * Z) approvals_info;
    deferred : list (Z * Z * bytes) }.

Abbreviation MS := (ST msig_state string).

Class MsigEnv : Type :=
  { (** the expiration in the header of a packed transaction, if it can be read *)
    header_expiration : bytes → result string Z }.

(** The authorizations of the action, the time, and whether
    [check_transaction_authorization( trx, no keys, levels ) > 0]. *)
Record msig_env : Type := mk_msig_env
  { auths : list permission_level; now : Z; authorized : bytes → list permission_level → bool }.

Section Actions.
Context `{MsigEnv} (env : msig_env).

Definition require_auth (account : Z) : MS () :=
  st_assert (existsb (fun l => actor l =? account) (auths env)) "missing authority"%string.
Definition require_auth_level (level : permission_level) : MS () :=
  st_assert (bool_decide (level ∈ auths env)) "missing authority"%string.

(** [vector::erase( std::find( ... ) )]: the first occurrence. *)
Fixpoint erase_first (level : permission_level) (l : list permission_level) : list permission_level :=
  match l with
  | [] => []
  | x :: l => if bool_decide (x = level) then l else x :: erase_first level l
  end.

Definition propose (proposer name : Z) (requested : list permission_level) (trx : bytes) : MS () :=
  expiration ← lift (header_expiration trx);
  require_auth proposer ;;
  st_assert (now env <=? expiration) "transaction expired"%string ;;
  s ← get_st;
  st_assert (bool_decide (proposals s !! (proposer, name) = None)) "proposal with the same name exists"%string ;;
  st_assert (authorized env trx requested) "transaction authorization failed"%string ;;
  put_st (mk_msig (<[(proposer, name) := trx]> (proposals s)) (approvals s) (deferred s)) ;;
  s ← get_st;
  st_assert (bool_decide (approvals s !! (proposer, name) = None)) "object exists"%string ;;
  put_st (mk_msig (proposals s) (<[(proposer, name) := mk_approvals requested []]> (approvals s)) (deferred s)).

Definition get_approvals (proposer name : Z) : MS approvals_info :=
  s ← get_st; lift (of_option (approvals s !! (proposer, name)) "proposal not found"%string).

Definition set_approvals (proposer name : Z) (a : approvals_info) : MS () :=
  modify_st (fun s => mk_msig (proposals s) (<[(proposer, name) := a]> (approvals s)) (deferred s)).

Definition approve (proposer name : Z) (level : permission_level) : MS () :=
  require_auth_level level ;;
  apps ← get_approvals proposer name;
  st_assert (bool_decide (level ∈ requested_approvals apps)) "approval is not on the list of requested approvals"%string ;;
  set_approvals proposer name
    (mk_approvals (erase_first level (requested_approvals apps)) (provided_approvals apps ++ [level])).

Definition unapprove (proposer name : Z) (level : permission_level) : MS () :=
  require_auth_level level ;;
  apps ← get_approvals proposer name;
  st_assert (bool_decide (level ∈ provided_approvals apps)) "no approval previously granted"%string ;;
  set_approvals proposer name
    (mk_approvals (requested_approvals apps ++ [level]) (erase_first level (provided_approvals apps))).

Definition erase_proposal (proposer name : Z) : MS () :=
  modify_st (fun s => mk_msig (delete (proposer, name) (proposals s)) (delete (proposer, name) (approvals s)) (deferred s)).

Definition cancel (proposer name canceler : Z) : MS () :=
  require_auth canceler ;;
  s ← get_st;
  trx ← lift (of_option (proposals s !! (proposer, name)) "proposal not found"%string);
  (if canceler =? proposer then mret ()
   else expiration ← lift (header_expiration trx);
        st_assert (expiration <? now env) "cannot cancel until expiration"%string) ;;
  _ ← get_approvals proposer name;
  erase_proposal proposer name.

Definition sender_id (proposer name : Z) : Z := Z.lor (Z.shiftl proposer 64) name.

Definition exec (proposer name executer : Z) : MS () :=
  require_auth executer ;;
  s ← get_st;
  trx ← lift (of_option (proposals s !! (proposer, name)) "proposal not found"%string);
  apps ← get_approvals proposer name;
  expiration ← lift (header_expiration trx);
  st_assert (now env <=? expiration) "transaction expired"%string ;;
  st_assert (authorized env trx (provided_approvals apps)) "transaction authorization failed"%string ;;
  modify_st (fun s => mk_msig (proposals s) (approvals s) (deferred s ++ [(sender_id proposer name, executer, trx)])) ;;
  erase_proposal proposer name.
End Actions.

(** ** Runs of the contract *)

Inductive msig_action : Type :=
| Propose (proposer name : Z) (requested : list permission_level) (trx : bytes)
| Approve (proposer name : Z) (level : permission_level)
| Unapprove (proposer name : Z) (level : permission_level)
| Cancel (proposer name canceler : Z)
| Exec (proposer name executer : Z).

Section Runs.
Context `{MsigEnv}.

Definition perform (e : msig_env * msig_action) : MS () :=
  match e.2 with
  | Propose p n r t => propose e.1 p n r t
  | Approve p n l => approve e.1 p n l
  | Unapprove p n l => unapprove e.1 p n l
  | Cancel p n c => cancel e.1 p n c
  | Exec p n x => exec e.1 p n x
  end.

(** A failed action leaves the state as it was. *)
Definition step (s : msig_state) (e : msig_env * msig_action) : msig_state :=
  match run (perform e) s with Ok s' => s' | Err _ => s end.

Definition msig0 : msig_state := mk_msig ∅ ∅ [].
Definition run_log (log : list (msig_env * msig_action)) : msig_state := foldl step msig0 log.

(** An approval stands in a log: it was given by its level after the proposal. *)
Definition given (log : list (msig_env * msig_action)) (p n : Z) (l : permission_level) : Prop :=
  ∃ e, (e, Approve p n l) ∈ log ∧ l ∈ auths e.

(** The log proposes [trx] with the requested levels [req], and each of the levels
    [prov] approved it after that. *)
Definition backed (log : list (msig_env * msig_action)) (p n : Z) (req prov : list permission_level) (trx : bytes) : Prop :=
  ∃ before e after, log = before ++ (e, Propose p n req trx) :: after ∧
    (∃ l, l ∈ auths e ∧ actor l = p) ∧ Forall (given after p n) prov.

Record log_wf (log : list (msig_env * msig_action)) (s : msig_state) : Prop := mk_log_wf
  { lw_dom : ∀ k, is_Some (proposals s !! k) ↔ is_Some (approvals s !! k);
    lw_backed : ∀ p n trx a, proposals s !! (p, n) = Some trx → approvals s !! (p, n) = Some a →
      ∃ req, backed log p n req (provided_approvals a) trx ∧
        req ≡ₚ requested_approvals a ++ provided_approvals a }.

Lemma erase_first_perm level l : level ∈ l → l ≡ₚ level :: erase_first level l.
Proof.
  induction l as [|x l IH]; intros Hl; [by apply elem_of_nil in Hl|]. cbn.
  case_bool_decide as Hx; [by subst|]. apply elem_of_cons in Hl as [->|Hl]; [done|].
  rewrite (IH Hl) at 1. apply Permutation_swap.
Qed.

Lemma given_mono log log' p n l : given log p n l → given (log ++ log') p n l.
Proof. intros (e & He & Hl). exists e. split; [apply elem_of_app; by left|done]. Qed.

Lemma backed_mono log e p n req prov trx : backed log p n req prov trx → backed (log ++ [e]) p n req prov trx.
Proof.
  intros (b & e' & a & -> & Hp & Ha). exists b, e', (a ++ [e]). split; [by rewrite <- app_assoc|]. split; [done|].
  eapply Forall_impl; [exact Ha|]. intros l. apply given_mono.
Qed.

(** The last action gives one more approval. *)
Lemma backed_approve log e p n req prov trx l :
  backed log p n req prov trx → l ∈ auths e → backed (log ++ [(e, Approve p n l)]) p n req (prov ++ [l]) trx.
Proof.
  intros (b & e' & a & -> & Hp & Ha) Hl. exists b, e', (a ++ [(e, Approve p n l)]).
  split; [by rewrite <- app_assoc|]. split; [done|]. apply Forall_app. split.
  - eapply Forall_impl; [exact Ha|]. intros l'. apply given_mono.
  - apply Forall_singleton. exists e. split; [apply elem_of_app; right; by left|done].
Qed.

Lemma log_wf_mono log e s : log_wf log s → log_wf (log ++ [e]) s.
Proof.
  intros [Hd Hb]. split; [done|]. intros p n trx a Ht Ha. destruct (Hb p n trx a Ht Ha) as (req & Hreq & Hp).
  exists req. split; [by apply backed_mono|done].
Qed.

(** The entry of one proposal is replaced. *)
Lemma log_wf_approvals log s p n a d :
  log_wf log s → is_Some (approvals s !! (p, n)) →
  (∀ trx, proposals s !! (p, n) = Some trx → ∃ req, backed log p n req (provided_approvals a) trx ∧
     req ≡ₚ requested_approvals a ++ provided_approvals a) →
  log_wf log (mk_msig (proposals s) (<[(p, n) := a]> (approvals s)) d).
Proof.
  intros [Hd Hb] Hk Ha. split; cbn.
  - intros k. rewrite Hd. destruct (decide ((p, n) = k)) as [<-|]; [rewrite lookup_insert_eq; naive_solver|].
    by rewrite lookup_insert_ne.
  - intros p' n' trx a' Ht. rewrite lookup_insert_Some. intros [[[= <- <-] <-]|[_ Ha']]; eauto.
Qed.

Lemma log_wf_erase log s p n d :
  log_wf log s → log_wf log (mk_msig (delete (p, n) (proposals s)) (delete (p, n) (approvals s)) d).
Proof.
  intros [Hd Hb]. split; cbn.
  - intros k. rewrite !lookup_delete_is_Some, Hd. done.
  - intros p' n' trx a [_ Ht]%lookup_delete_Some [_ Ha]%lookup_delete_Some. eauto.
Qed.

Lemma propose_wf log e p n r t s u s' :
  log_wf log s → propose e p n r t s = (Ok u, s') → log_wf (log ++ [(e, Propose p n r t)]) s'.
Proof.
  intros Hw H0. unfold propose, require_auth in H0. simpl_ok. to_prop.
  apply (log_wf_mono _ (e, Propose p n r t)) in Hw as [Hd Hb]. split; cbn in *.
  - intros k. destruct (decide ((p, n) = k)) as [<-|]; [rewrite !lookup_insert_eq; naive_solver|].
    by rewrite !lookup_insert_ne.
  - intros p' n' trx a. rewrite !lookup_insert_Some.
    intros [[[= <- <-] <-]|[Hne Ht]] [[Hk <-]|[Hne' Ha]]; [|done..|eauto].
    exists r. cbn. rewrite app_nil_r. split; [|done]. exists log, e, []. split; [done|]. split; [|done].
    match goal with H : existsb _ _ = true |- _ => apply existsb_exists in H as (l & Hin & Hl) end.
    apply Z.eqb_eq in Hl. exists l. by apply list_elem_of_In in Hin.
Qed.

Lemma step_wf log s e : log_wf log s → log_wf (log ++ [e]) (step s e).
Proof.
  intros Hw. unfold step, run. destruct (perform e s) as [[u|] s'] eqn:E; [|by apply log_wf_mono].
  destruct e as [e act]. unfold perform in E. cbn [fst snd] in E. destruct act as [p n r t|p n l|p n l|p n c|p n x].
  - by eapply propose_wf.
  - unfold approve, require_auth_level, get_approvals, set_approvals in E. simpl_ok. to_prop.
    match goal with H : approvals s !! _ = Some _ |- _ => rename H into Happ end.
    match goal with H : l ∈ requested_approvals _ |- _ => rename H into Hin end.
    apply log_wf_approvals; [by apply log_wf_mono|eauto|]. intros trx Ht. cbn.
    destruct (lw_backed _ _ Hw p n trx _ Ht Happ) as (req & Hb & Hp). exists req. split; [by apply backed_approve|].
    rewrite Hp, (erase_first_perm _ _ Hin) at 1. cbn. rewrite Permutation_middle. by rewrite app_assoc, <- Permutation_cons_append, <- Permutation_middle.
  - unfold unapprove, require_auth_level, get_approvals, set_approvals in E. simpl_ok. to_prop.
    match goal with H : approvals s !! _ = Some _ |- _ => rename H into Happ end.
    match goal with H : l ∈ provided_approvals _ |- _ => rename H into Hin end.
    apply log_wf_approvals; [by apply log_wf_mono|eauto|]. intros trx Ht. cbn.
    destruct (lw_backed _ _ Hw p n trx _ Ht Happ) as (req & (b & e' & a & -> & Hpr & Hb) & Hp). exists req. split.
    + apply backed_mono. exists b, e', a. split; [done|]. split; [done|].
      rewrite (erase_first_perm _ _ Hin) in Hb. by apply Forall_cons in Hb as [_ Hb].
    + rewrite Hp, (erase_first_perm _ _ Hin) at 1. by rewrite <- app_assoc.
  - unfold cancel, require_auth, get_approvals, erase_proposal in E. simpl_ok.
    apply log_wf_erase. apply log_wf_mono. destruct (c =? p); simpl_ok; done.
  - unfold exec, require_auth, get_approvals, erase_proposal in E. simpl_ok. cbn.
    by apply log_wf_erase, log_wf_mono.
Qed.

Lemma run_log_wf log : log_wf log (run_log log).
Proof.
  unfold run_log. induction log as [|e log IH] using rev_ind; [|rewrite foldl_snoc; by apply step_wf].
  split; cbn.
  - intros k. rewrite !lookup_empty. split; by intros [? ?].
  - intros p n trx a Ht. by rewrite lookup_empty in Ht.
Qed.

Lemma exec_spec (log : list (msig_env * msig_action)) (env : msig_env) (p n x : Z) (s' : msig_state) :
  run (exec env p n x) (run_log log) = Ok s' →
  ∃ trx req prov expiration,
    backed log p n req prov trx ∧ prov ⊆+ req ∧ authorized env trx prov = true ∧
    header_expiration trx = Ok expiration ∧ now env ≤ expiration ∧
    deferred s' = deferred (run_log log) ++ [(sender_id p n, x, trx)] ∧
    proposals s' !! (p, n) = None ∧ approvals s' !! (p, n) = None.
Proof.
  unfold run. destruct (exec _ _ _ _ _) as [[u|] s1] eqn:E; [|done]. intros [= <-].
  unfold exec, require_auth, get_approvals, erase_proposal in E. simpl_ok. to_prop.
  destruct (lw_backed _ _ (run_log_wf log) p n _ _ H2 H3) as (req & Hb & Hp).
  exists x4, req, (provided_approvals x6), x8. cbn. rewrite !lookup_delete_eq. split_and!; try done.
  rewrite Hp. by apply submseteq_inserts_l.
Qed.

(** C35: [exec] sends exactly a transaction that was proposed under that name by an
    action its proposer authorized, that has not expired, and that is authorized
    by levels each of which was requested in the proposal and approved it, with
    its own authority, after it was proposed; the proposal is gone afterwards. *)
Theorem exec_is_backed (log : list (msig_env * msig_action)) (env : msig_env) (p n x : Z) (s' : msig_state) :
  run (exec env p n x) (run_log log) = Ok s' →
  ∃ trx req prov expiration,
    backed log p n req prov trx ∧ prov ⊆+ req ∧ authorized env trx prov = true ∧
    header_expiration trx = Ok expiration ∧ now env ≤ expiration ∧
    deferred s' = deferred (run_log log) ++ [(sender_id p n, x, trx)] ∧
    proposals s' !! (p, n) = None ∧ approvals s' !! (p, n) = None.
Proof. apply exec_spec. Qed.
End Runs.

(** ** The intrinsic of the node ([wasm_interface.cpp]) *)

(** The transaction is given by its actions and its delay in seconds; failures
    other than of authorization go on. *)
Definition check_transaction_authorization `{Unpack} (s : auth_db) (v : control_view) (checktime : nat → R ())
    (delay_sec : bytes → Z) (trx : bytes) (levels : list permission_level) : R bool :=
  actions ← unpack_actions trx;
  match check_authorization s v checktime actions [] (list_to_set levels) (seconds (delay_sec trx)) false ∅ with
  | Ok _ => Ok true
  | Err e => if derives_from e authorization_exception then Ok false else Err e
  end.

(** C36: with the intrinsic of the node, every authority declared by an action of a
    transaction that [exec] sends is approved by the permission levels that
    approved the proposal, without any key, and reaches the permission the
    action needs unless the action is a native one on permissions. *)
Theorem exec_respects_authorities `{MsigEnv} `{Unpack} (log : list (msig_env * msig_action)) (env : msig_env)
    (p n x : Z) (s' : msig_state) (s : auth_db) (v : control_view) (checktime : nat → R ()) (delay_sec : bytes → Z) :
  auth_wf s →
  (∀ trx levels, authorized env trx levels = true →
     check_transaction_authorization s v checktime delay_sec trx levels = Ok true) →
  run (exec env p n x) (run_log log) = Ok s' →
  ∃ trx req prov actions, backed log p n req prov trx ∧ unpack_actions trx = Ok actions ∧
    deferred s' = deferred (run_log log) ++ [(sender_id p n, x, trx)] ∧
    ∀ act l, act ∈ actions → l ∈ act_authorization act →
      ∃ special d, check_special s v (effective_delay v (seconds (delay_sec trx))) act = Ok (special, d) ∧
        (special = false → reaches s act l) ∧ approved (make_checker s v [] (list_to_set prov) d) l.
Proof.
  intros Hw Hauth Hr. destruct (exec_spec log env p n x s' Hr) as (trx & req & prov & e & Hb & _ & Ha & _ & _ & Hd & _).
  apply Hauth in Ha. unfold check_transaction_authorization in Ha. simpl_ok.
  destruct (check_authorization _ _ _ _ _ _ _ _ _) as [[]|e'] eqn:Ec; [|by destruct (derives_from e' _)].
  exists trx, req, prov, x0. split_and!; [done..|]. intros act l Hact Hl.
  destruct (check_authorization_approves s v checktime _ _ _ _ _ _ Hw Ec act l Hact Hl) as (special & d & ? & ? & [Hs|?]).
  - by apply elem_of_empty in Hs.
  - by exists special, d.
Qed.

(** ** An example: one proposal *)

Module MsigDemo.
#[local] Instance unpack : Unpack :=
  { unpack_updateauth := fun _ => Err std_out_of_range; unpack_deleteauth := fun _ => Err std_out_of_range;
    unpack_linkauth := fun _ => Err std_out_of_range; unpack_unlinkauth := fun _ => Err std_out_of_range;
    unpack_canceldelay := fun _ => Err std_out_of_range; unpack_actions := fun _ => Ok [ManagerDemo.transfer] }.
#[local] Instance header : MsigEnv := {| header_expiration := fun _ => Ok 100 |}.

Definition level : permission_level := mk_level 7 config.active_name.

Definition node (trx : bytes) (levels : list permission_level) : R bool :=
  check_transaction_authorization ManagerDemo.db ManagerDemo.view (fun _ => Ok ()) (fun _ => 0) trx levels.
Definition env : msig_env := mk_msig_env [level] 50 (fun trx levels => bool_decide (node trx levels = Ok true)).
Definition log : list (msig_env * msig_action) := [(env, Propose 7 5 [level] [1]); (env, Approve 7 5 level)].
Definition executed : msig_state := mk_msig ∅ ∅ [(sender_id 7 5, 7, [1])].

Lemma exec_runs : run (exec env 7 5 7) (run_log log) = Ok executed.
Proof. vm_compute. reflexivity. Qed.
End MsigDemo.

Lemma exec_is_backed_witness :
  ∃ trx req prov, @backed MsigDemo.log 7 5 req prov trx ∧ prov ⊆+ req.
Proof.
  destruct (@exec_is_backed MsigDemo.header MsigDemo.log MsigDemo.env 7 5 7 MsigDemo.executed MsigDemo.exec_runs)
    as (trx & req & prov & e & Hb & Hs & _).
  exists trx, req, prov. split; [exact Hb|exact Hs].
Defined.

Lemma exec_respects_authorities_witness :
  ∃ prov d, approved (make_checker ManagerDemo.db ManagerDemo.view [] (list_to_set prov) d) MsigDemo.level.
Proof.
  destruct (@exec_respects_authorities MsigDemo.header MsigDemo.unpack MsigDemo.log MsigDemo.env 7 5 7 MsigDemo.executed
              ManagerDemo.db ManagerDemo.view (fun _ => Ok ()) (fun _ => 0) ManagerDemo.db_wf
              (fun trx levels H => proj1 (bool_decide_eq_true _) H) MsigDemo.exec_runs)
    as (trx & req & prov & actions & _ & Hu & _ & Hall).
  injection Hu as <-.
  destruct (Hall ManagerDemo.transfer MsigDemo.level ltac:(left) ltac:(left)) as (special & d & _ & _ & Hd).
  exists prov, d. exact Hd.
Defined.
End Msig.
