(* ===== verification/Token.v ===== *)
(** * The token contract

    [contracts/noc.token]: [create], [issue], [transfer] and [fee] over the
    [stat] and [accounts] tables.  [sub_balance] also reads the [freezed] and
    [voterinfo] tables of the system contract; they are the [locks] argument. *)

From S2P Require Import Prelude Exceptions Name BlockHeader EosLib.
Import Asset.

Module Token.

Record currency_stats : Type := mk_stats
  { supply : asset; max_supply : asset; issuer : Z }.

(** The rows are keyed by symbol name; balances also by owner, the scope of
    their table. *)
Record token_state : Type := mk_token
  { stats : gmap Z currency_stats;
    accounts : gmap (Z * Z) asset }.

(** Rows of the system contract that hold tokens back: staked and unstaking
    amounts of [freezed], and [voteall] of [voterinfo]. *)
Record locks : Type := mk_locks
  { freezed : gmap Z (asset * asset);
    voterinfo : gmap Z asset }.

Abbreviation T := (ST token_state string).

Definition fee_account : Z := Name.N "bacc.fee".

Definition set_stats (m : gmap Z currency_stats) (s : token_state) : token_state :=
  mk_token m (accounts s).
Definition set_accounts (m : gmap (Z * Z) asset) (s : token_state) : token_state :=
  mk_token (stats s) m.

Definition create (e : action_env) (issuer : Z) (maximum_supply : asset) : T () :=
  require_auth e (self e) ;;
  let sym := symbol maximum_supply in
  st_assert (Symbol.is_valid_symbol sym) "invalid symbol name"%string ;;
  st_assert (is_valid maximum_supply) "invalid supply"%string ;;
  st_assert (0 <? amount maximum_supply) "max-supply must be positive"%string ;;
  st_assert (negb (sym =? Symbol.CORE_SYMBOL)) "not allow create core symbol token by token contract"%string ;;
  s ← get_st;
  st_assert (negb (bool_decide (is_Some (stats s !! Symbol.name sym)))) "token with symbol already exists"%string ;;
  put_st (set_stats (<[Symbol.name sym := mk_stats (mk_asset 0 sym) maximum_supply issuer]> (stats s)) s).

(** [frozen] is the local [freeze_core_token_amount]. *)
Definition frozen (l : locks) (owner : Z) : result string Z :=
  match freezed l !! owner with
  | None => mret 0
  | Some (staked, unstaking) =>
      let vtall := default asset0 (voterinfo l !! owner) in
      a ← add_assign staked unstaking;
      a ← add_assign a vtall;
      mret (amount a)
  end.

Definition sub_balance (l : locks) (owner : Z) (value : asset) : T () :=
  s ← get_st;
  let key := (owner, Symbol.name (symbol value)) in
  from ← lift (of_option (accounts s !! key) "no balance object found"%string);
  freeze_core_token_amount ← lift (frozen l owner);
  (if bool_decide (is_Some (freezed l !! owner)) && (0 <? freeze_core_token_amount) then
     st_assert (i64 (amount value + freeze_core_token_amount) <=? amount from)
       "overdrawn balance by freeze lots tokens"%string
   else mret ()) ;;
  st_assert (i64 (amount value + freeze_core_token_amount) <=? amount from) "overdrawn balance"%string ;;
  if amount from =? amount value then
    put_st (set_accounts (delete key (accounts s)) s)
  else
    balance ← lift (sub_assign from value);
    put_st (set_accounts (<[key := balance]> (accounts s)) s).

Definition add_balance (owner : Z) (value : asset) : T () :=
  s ← get_st;
  let key := (owner, Symbol.name (symbol value)) in
  match accounts s !! key with
  | None => put_st (set_accounts (<[key := value]> (accounts s)) s)
  | Some to =>
      balance ← lift (add_assign to value);
      put_st (set_accounts (<[key := balance]> (accounts s)) s)
  end.

(** [issue] returns the inline transfer it sends, if any. *)
Record transfer_args : Type := mk_transfer
  { tr_from : Z; tr_to : Z; tr_quantity : asset; tr_memo_size : Z }.

Definition issue (e : action_env) (to : Z) (quantity : asset) (memo_size : Z) : T (option transfer_args) :=
  let sym := symbol quantity in
  st_assert (Symbol.is_valid_symbol sym) "invalid symbol name"%string ;;
  st_assert (memo_size <=? 256) "memo has more than 256 bytes"%string ;;
  s ← get_st;
  let sym_name := Symbol.name sym in
  st ← lift (of_option (stats s !! sym_name)
               "token with symbol does not exist, create token before issue"%string);
  require_auth e (issuer st) ;;
  st_assert (is_valid quantity) "invalid quantity"%string ;;
  st_assert (0 <? amount quantity) "must issue positive quantity"%string ;;
  st_assert (symbol quantity =? symbol (supply st)) "symbol precision mismatch"%string ;;
  st_assert (amount quantity <=? i64 (amount (max_supply st) - amount (supply st)))
    "quantity exceeds available supply"%string ;;
  new_supply ← lift (add_assign (supply st) quantity);
  put_st (set_stats (<[sym_name := mk_stats new_supply (max_supply st) (issuer st)]> (stats s)) s) ;;
  add_balance (issuer st) quantity ;;
  mret (if negb (to =? issuer st) then Some (mk_transfer (issuer st) to quantity memo_size) else None).

Definition transfer (e : action_env) (l : locks) (from to : Z) (quantity : asset) (memo_size : Z) : T () :=
  st_assert (negb (from =? to)) "cannot transfer to self"%string ;;
  require_auth e from ;;
  st_assert (is_account e to) "to account does not exist"%string ;;
  s ← get_st;
  st ← lift (of_option (stats s !! Symbol.name (symbol quantity)) "unable to find key"%string);
  st_assert (is_valid quantity) "invalid quantity"%string ;;
  st_assert (0 <? amount quantity) "must transfer positive quantity"%string ;;
  st_assert (symbol quantity =? symbol (supply st)) "symbol precision mismatch"%string ;;
  st_assert (memo_size <=? 256) "memo has more than 256 bytes"%string ;;
  sub_balance l from quantity ;;
  add_balance to quantity.

Definition fee (e : action_env) (l : locks) (payer : Z) (quantity : asset) : T () :=
  require_auth e payer ;;
  s ← get_st;
  st ← lift (of_option (stats s !! Symbol.name (symbol quantity)) "unable to find key"%string);
  st_assert (is_valid quantity) "invalid quantity"%string ;;
  st_assert (0 <? amount quantity) "must transfer positive quantity"%string ;;
  st_assert (symbol quantity =? symbol (supply st)) "symbol precision mismatch"%string ;;
  sub_balance l payer quantity ;;
  add_balance fee_account quantity.

Definition get_supply (s : token_state) (sym : Z) : result string asset :=
  st ← of_option (stats s !! sym) "unable to find key"%string; mret (supply st).

Definition get_balance (s : token_state) (owner sym : Z) : result string asset :=
  of_option (accounts s !! (owner, sym)) "unable to find key"%string.

(** ** Supply and balances *)

(** The part of a balance that is in the token [sym]. *)
Definition of_symbol (sym : Z) (b : asset) : Z := if symbol b =? sym then amount b else 0.

Definition circulating (s : token_state) (sym : Z) : Z := map_sum (of_symbol sym) (accounts s).

(** The tables agree, except that [d] units of the token [sym] are in the supply
    and in nobody's balance: the state between the two halves of a transfer. *)
Record wf_but (sym d : Z) (s : token_state) : Prop := mk_wf_but
  { wf_stats : ∀ n st, stats s !! n = Some st → n = Symbol.name (symbol (supply st)) ∧
      0 ≤ amount (supply st) ≤ amount (max_supply st) ∧ amount (max_supply st) ≤ max_amount;
    wf_balances : ∀ o n b, accounts s !! (o, n) = Some b →
      n = Symbol.name (symbol b) ∧ 0 < amount b ∧ ∃ st, stats s !! n = Some st ∧ symbol b = symbol (supply st);
    wf_circulating : ∀ n st, stats s !! n = Some st → circulating s (symbol (supply st)) =
      amount (supply st) - (if symbol (supply st) =? sym then d else 0) }.

(** The supply of every token is what the balances add up to. *)
Definition wf (s : token_state) : Prop := wf_but 0 0 s.

Lemma wf_but_0 sym sym' s : wf_but sym 0 s → wf_but sym' 0 s.
Proof.
  intros [H1 H2 H3]. split; [done|done|]. intros n st Hst. rewrite (H3 _ _ Hst).
  by destruct (_ =? sym), (_ =? sym').
Qed.

(** Amounts of the system tables that are in range and not negative. *)
Definition locks_ok (l : locks) : Prop :=
  (∀ o st un, freezed l !! o = Some (st, un) → 0 ≤ amount st ≤ max_amount ∧ 0 ≤ amount un ≤ max_amount) ∧
  (∀ o v, voterinfo l !! o = Some v → 0 ≤ amount v ≤ max_amount).

(** A balance is a part of the supply. *)
Lemma balance_bound sym d s o n b : wf_but sym d s → 0 ≤ d → accounts s !! (o, n) = Some b →
  0 < amount b ≤ max_amount ∧ ∃ st, stats s !! n = Some st ∧ symbol b = symbol (supply st) ∧
    amount b ≤ amount (supply st).
Proof.
  intros Hw Hd Hb. destruct (wf_balances _ _ _ Hw _ _ _ Hb) as (Hn & Hp & st & Hst & Hsym).
  destruct (wf_stats _ _ _ Hw _ _ Hst) as (_ & Hs1 & Hs2).
  assert (amount b ≤ amount (supply st)) as Hle.
  { transitivity (circulating s (symbol (supply st)));
      [|rewrite (wf_circulating _ _ _ Hw _ _ Hst); destruct (_ =? _); lia].
    replace (amount b) with (of_symbol (symbol (supply st)) b)
      by (unfold of_symbol; by rewrite Hsym, Z.eqb_refl).
    unfold circulating. eapply map_sum_ge_elem; [|done].
    intros [o' n'] b' Hb'. unfold of_symbol. destruct (symbol b' =? _); [|lia].
    pose proof (wf_balances _ _ _ Hw _ _ _ Hb'). lia. }
  split; [lia|]. by exists st.
Qed.

(** The quantity of a token that exists. *)
Definition known (s : token_state) (value : asset) : Prop :=
  ∃ st, stats s !! Symbol.name (symbol value) = Some st ∧ symbol value = symbol (supply st).

Lemma add_balance_wf d owner value s u s' :
  wf_but (symbol value) d s → known s value → 0 < amount value ≤ d → d ≤ max_amount →
  add_balance owner value s = (Ok u, s') →
  wf_but (symbol value) (d - amount value) s' ∧ stats s' = stats s ∧
  ∃ b, accounts s' = <[(owner, Symbol.name (symbol value)) := b]> (accounts s) ∧
    symbol b = symbol value ∧
    amount b = amount value
      + match accounts s !! (owner, Symbol.name (symbol value)) with Some o => amount o | None => 0 end.
Proof.
  intros Hw (st & Hst & Hsy) Hv Hd H. set (key := (owner, Symbol.name (symbol value))) in *.
  assert (∃ b, s' = mk_token (stats s) (<[key := b]> (accounts s)) ∧ symbol b = symbol value ∧
    amount b = amount value + match accounts s !! key with Some o => amount o | None => 0 end) as (b & -> & Hbs & Hba).
  { unfold add_balance in H. apply st_bind_ok in H as (s0 & s1 & Hg & H). injection Hg as <- <-. fold key in H.
    destruct (accounts s !! key) as [old|] eqn:E; simpl_ok.
    - destruct (balance_bound _ _ _ _ _ _ Hw ltac:(lia) E) as [Hb _].
      match goal with H : add_assign _ _ = Ok _ |- _ =>
        apply add_assign_ok in H as (Hs & -> & _); [|unfold in_range, max_amount in *; lia..] end.
      exists (mk_asset (amount old + amount value) (symbol old)). cbn. split_and!; [done|congruence|lia].
    - exists value. split_and!; [done|done|lia]. }
  split; [|split; [done|by exists b]]. destruct Hw as [H1 H2 H3]. split; cbn.
  - done.
  - intros o n b0. destruct (decide ((o, n) = key)) as [He|Hne].
    + rewrite He, lookup_insert_eq. intros [= <-]. unfold key in He. injection He as -> ->.
      split_and!; [by rewrite Hbs| |exists st; split; [done|congruence]].
      destruct (accounts s !! key) as [old|] eqn:E; [|lia]. destruct (H2 _ _ _ E). lia.
    + rewrite lookup_insert_ne by done. apply H2.
  - intros n st' Hst'. specialize (H3 _ _ Hst'). unfold circulating in *. cbn.
    assert (map_sum (of_symbol (symbol (supply st'))) (<[key := b]> (accounts s)) =
      map_sum (of_symbol (symbol (supply st'))) (accounts s)
        + (if symbol (supply st') =? symbol value then amount value else 0)) as ->.
    { destruct (accounts s !! key) as [old|] eqn:E.
      - rewrite (map_sum_update _ _ _ old) by done. unfold of_symbol.
        destruct (H2 _ _ _ E) as (_ & _ & st2 & Hst2 & Hos). simplify_eq.
        assert (symbol old = symbol value) as Hov by congruence.
        rewrite Hbs, Hov, Hba, (Z.eqb_sym (symbol value)). destruct (_ =? symbol value); lia.
      - rewrite map_sum_insert by done. unfold of_symbol. rewrite Hbs, Hba, (Z.eqb_sym (symbol value)).
        destruct (_ =? symbol value); lia. }
    rewrite H3. destruct (_ =? symbol value); lia.
Qed.

Lemma frozen_nonneg l o z : locks_ok l → frozen l o = Ok z → 0 ≤ z ≤ max_amount.
Proof.
  intros [Hf Hv] H. unfold frozen in H. destruct (freezed l !! o) as [[st un]|] eqn:E.
  - simpl_ok. destruct (Hf _ _ _ E) as [Hst Hun].
    assert (0 ≤ amount (default asset0 (voterinfo l !! o)) ≤ max_amount) as Hvt.
    { destruct (voterinfo l !! o) eqn:Ev; [by apply Hv in Ev|done]. }
    match goal with H : add_assign st un = Ok _ |- _ =>
      apply add_assign_ok in H as (_ & -> & Hr); [|unfold in_range in *; lia..] end.
    match goal with H : add_assign _ _ = Ok _ |- _ =>
      apply add_assign_ok in H as (_ & -> & Hr'); [|unfold in_range in *; cbn in *; lia..] end.
    unfold in_range in *. cbn in *. lia.
  - simpl_ok. unfold max_amount. lia.
Qed.

(** Taking a quantity out of a balance leaves at least what is locked. *)
Lemma sub_balance_wf l owner value s u s' :
  wf s → known s value → 0 < amount value ≤ max_amount → locks_ok l →
  sub_balance l owner value s = (Ok u, s') →
  wf_but (symbol value) (amount value) s' ∧ stats s' = stats s ∧
  ∃ from z, accounts s !! (owner, Symbol.name (symbol value)) = Some from ∧ frozen l owner = Ok z ∧
    0 ≤ z ∧ amount value + z ≤ amount from ∧
    accounts s' = if amount from =? amount value then delete (owner, Symbol.name (symbol value)) (accounts s)
                  else <[(owner, Symbol.name (symbol value)) := mk_asset (amount from - amount value) (symbol value)]> (accounts s).
Proof.
  intros Hw (st & Hst & Hsy) Hv Hl H. set (key := (owner, Symbol.name (symbol value))) in *.
  unfold sub_balance in H. apply st_bind_ok in H as (s0 & s1 & Hg & H). injection Hg as <- <-. fold key in H.
  apply st_bind_ok in H as (from & s1 & Hfrom & H). apply lift_ok in Hfrom as [Hfrom <-]. apply of_option_ok in Hfrom.
  apply st_bind_ok in H as (z & s1 & Hz & H). apply lift_ok in Hz as [Hz <-].
  apply st_bind_ok in H as (u1 & s1 & Hu & H).
  assert (s1 = s) as -> by (destruct (_ && _) in Hu; simpl_ok; done). clear Hu.
  apply st_bind_ok in H as (u2 & s1 & Hu & H). apply st_assert_ok in Hu as [Hle <-]. apply Z.leb_le in Hle.
  pose proof (frozen_nonneg _ _ _ Hl Hz) as Hzr.
  destruct (balance_bound _ _ _ _ _ _ Hw ltac:(lia) Hfrom) as (Hb & st2 & Hst2 & Hbs & _). simplify_eq.
  assert (symbol from = symbol value) as Hfs by congruence.
  rewrite i64_small in Hle by (unfold i64_min, i64_max, max_amount in *; lia).
  assert (s' = mk_token (stats s) (if amount from =? amount value then delete key (accounts s)
      else <[key := mk_asset (amount from - amount value) (symbol value)]> (accounts s))) as ->.
  { destruct (Z.eqb_spec (amount from) (amount value)); [by simpl_ok|].
    simpl_ok. match goal with H : sub_assign _ _ = Ok _ |- _ =>
      apply sub_assign_ok in H as (_ & -> & _); [|unfold in_range in *; lia..] end. by rewrite Hfs. }
  split; [|split; [done|exists from, z; split_and!; [done|done|lia|lia|done]]].
  destruct Hw as [H1 H2 H3]. split; cbn.
  - done.
  - intros o n b0 Hb0. destruct (Z.eqb_spec (amount from) (amount value)).
    + apply lookup_delete_Some in Hb0 as [_ Hb0]. by eapply H2.
    + apply lookup_insert_Some in Hb0 as [[Hk <-]|[_ Hb0]]; [|by eapply H2].
      injection Hk as <- <-. cbn. split_and!; [done|lia|by exists st].
  - intros n st' Hst'. specialize (H3 _ _ Hst'). unfold circulating in *. cbn.
    assert ((if symbol (supply st') =? 0 then 0 else 0) = 0) as E0 by by destruct (_ =? 0).
    rewrite E0, Z.sub_0_r in H3. rewrite <- H3.
    assert (of_symbol (symbol (supply st')) from =
            if symbol (supply st') =? symbol value then amount from else 0) as Hof.
    { unfold of_symbol. by rewrite Hfs, (Z.eqb_sym (symbol value)). }
    destruct (Z.eqb_spec (amount from) (amount value)) as [He|].
    + rewrite (map_sum_delete _ (accounts s) key from) by done. rewrite Hof, He. destruct (_ =? symbol value); lia.
    + rewrite (map_sum_update _ _ _ from) by done. rewrite Hof. unfold of_symbol at 2. cbn.
      rewrite (Z.eqb_sym (symbol value)). destruct (_ =? symbol value); lia.
Qed.

(** ** The actions *)

Inductive token_action : Type :=
| ACreate (issuer : Z) (maximum_supply : asset)
| AIssue (to : Z) (quantity : asset) (memo_size : Z)
| ATransfer (from to : Z) (quantity : asset) (memo_size : Z)
| AFee (payer : Z) (quantity : asset).

Definition run_action (e : action_env) (l : locks) (a : token_action) (s : token_state)
    : result string token_state :=
  match a with
  | ACreate i m => run (create e i m) s
  | AIssue to q m => run (issue e to q m) s
  | ATransfer f t q m => run (transfer e l f t q m) s
  | AFee p q => run (fee e l p q) s
  end.

Lemma run_ok {S E A} (m : ST S E A) s s' : run m s = Ok s' ↔ ∃ a, m s = (Ok a, s').
Proof. unfold run. destruct (m s) as [[a|e] s1]; split; naive_solver. Qed.

Lemma valid_amount q : is_valid q = true → 0 < amount q → 0 < amount q ≤ max_amount.
Proof.
  intros [Hr _]%andb_prop Hp. apply within_range_spec in Hr. unfold in_range in Hr. lia.
Qed.

Lemma create_wf e i m s s' : wf s → run (create e i m) s = Ok s' → wf s'.
Proof.
  intros Hw [u H]%run_ok. unfold create, require_auth in H. simpl_ok. to_prop.
  destruct Hw as [W1 W2 W3].
  match goal with H : is_valid m = true |- _ => rename H into Hv end.
  match goal with H : 0 < amount m |- _ => pose proof (valid_amount m Hv H) as Hm end.
  match goal with H : ¬ is_Some (stats ?t !! _) |- _ => rename H into Hn; rename t into s end.
  set (n := Symbol.name (symbol m)) in *.
  assert (stats s !! n = None) as Hno by (by apply eq_None_not_Some).
  split; cbn.
  - intros k st [[<- <-]|[_ Hk]]%lookup_insert_Some; [|by apply W1]. cbn. split; [done|lia].
  - intros o k b Hb. destruct (W2 _ _ _ Hb) as (? & ? & st & Hst & ?). split_and!; [done|done|].
    exists st. split; [|done]. rewrite lookup_insert_ne; [done|]. intros ->. congruence.
  - intros k st [[<- <-]|[_ Hk]]%lookup_insert_Some; [|by apply (W3 k)]. cbn.
    assert ((if symbol m =? 0 then 0 else 0) = 0) as -> by by destruct (_ =? 0).
    unfold circulating. cbn. clear -Hno W2.
    (* no balance has the new symbol *)
    enough (∀ k b, accounts s !! k = Some b → of_symbol (symbol m) b = 0) as Hz.
    { revert Hz. generalize (accounts s). intros acc. induction acc as [|k b acc Hk IH] using map_ind.
      - intros _. by rewrite map_sum_empty.
      - intros Hz. rewrite map_sum_insert, (Hz k b), IH; [done| |by apply lookup_insert_eq|done].
        intros k' b' Hb'. apply (Hz k'). rewrite lookup_insert_ne; [done|]. intros ->. congruence. }
    intros [o k] b Hb. unfold of_symbol. destruct (Z.eqb_spec (symbol b) (symbol m)) as [He|]; [|done].
    destruct (W2 _ _ _ Hb) as (Hk & _ & st & Hst & _). rewrite Hk, He in Hst. unfold n in Hno. congruence.
Qed.

Lemma issue_wf e to q m s s' : wf s → run (issue e to q m) s = Ok s' → wf s'.
Proof.
  intros Hw [u H]%run_ok. unfold issue, require_auth in H. simpl_ok. to_prop. subst.
  match goal with H : is_valid q = true |- _ => rename H into Hv end.
  match goal with H : 0 < amount q |- _ => pose proof (valid_amount q Hv H) as Hm end.
  match goal with H : stats ?t !! _ = Some ?x |- _ => rename x into st; rename H into Hst; rename t into s end.
  match goal with H : symbol q = symbol (supply st) |- _ => rename H into Hsy end.
  match goal with H : amount q ≤ i64 _ |- _ => rename H into Hle end.
  match goal with H : add_assign _ _ = Ok ?x |- _ => rename H into Ha; rename x into sup end.
  match goal with H : add_balance _ _ _ = _ |- _ => rename H into Hb end.
  destruct (wf_stats _ _ _ Hw _ _ Hst) as (Hn & Hs1 & Hs2).
  rewrite i64_small in Hle by (unfold i64_min, i64_max, max_amount in *; lia).
  apply add_assign_ok in Ha as (_ & -> & Hr); [|unfold in_range, max_amount in *; lia..].
  eapply (add_balance_wf (amount q)) in Hb as [Hb _]; [|destruct Hw as [W1 W2 W3]; split; cbn| |lia|lia].
  - rewrite Z.sub_diag in Hb. eapply wf_but_0. exact Hb.
  - intros k st' [[<- <-]|[_ Hk]]%lookup_insert_Some; [|by apply W1]. cbn. rewrite <- Hsy. split; [done|lia].
  - intros o k b Hb'. destruct (W2 _ _ _ Hb') as (? & ? & st' & Hst' & ?). split_and!; [done|done|].
    destruct (decide (k = Symbol.name (symbol q))) as [->|].
    + rewrite lookup_insert_eq. eexists. split; [done|]. cbn. congruence.
    + rewrite lookup_insert_ne by done. by exists st'.
  - intros k st' [[<- <-]|[Hne Hk]]%lookup_insert_Some.
    + cbn. unfold circulating in *. cbn. rewrite (W3 _ _ Hst), Hsy, Z.eqb_refl.
      destruct (_ =? 0); lia.
    + unfold circulating in *. cbn. rewrite (W3 _ _ Hk).
      destruct (Z.eqb_spec (symbol (supply st')) (symbol q)) as [He|].
      * destruct (W1 _ _ Hk) as [Hk' _]. rewrite He in Hk'. congruence.
      * by destruct (_ =? 0).
  - eexists. split; [apply lookup_insert_eq|]. done.
Qed.

(** The two halves of a transfer. *)
Definition balance (s : token_state) (o n : Z) : Z :=
  match accounts s !! (o, n) with Some b => amount b | None => 0 end.

Lemma move_balances l from to q s s1 s' u v :
  wf s → known s q → is_valid q = true → 0 < amount q → locks_ok l →
  sub_balance l from q s = (Ok u, s1) → add_balance to q s1 = (Ok v, s') →
  wf s' ∧ stats s' = stats s ∧
  ∃ z, frozen l from = Ok z ∧ 0 ≤ z ∧ amount q + z ≤ balance s from (Symbol.name (symbol q)) ∧
    ∀ o n, balance s' o n = balance s o n
      - (if decide ((o, n) = (from, Symbol.name (symbol q))) then amount q else 0)
      + (if decide ((o, n) = (to, Symbol.name (symbol q))) then amount q else 0).
Proof.
  intros Hw Hk Hv Hp Hl Hs Ha. pose proof (valid_amount q Hv Hp) as Hm.
  destruct (sub_balance_wf _ _ _ _ _ _ Hw Hk Hm Hl Hs) as (Hw1 & Hst1 & fr & z & Hf & Hz & Hz0 & Hle & Hacc).
  assert (known s1 q) as Hk1 by (unfold known in *; by rewrite Hst1).
  destruct (add_balance_wf _ _ _ _ _ _ Hw1 Hk1 ltac:(lia) ltac:(lia) Ha) as (Hw2 & Hst2 & b & Hacc2 & Hbs & Hba).
  split; [rewrite Z.sub_diag in Hw2; by eapply wf_but_0|]. split; [congruence|].
  set (n0 := Symbol.name (symbol q)) in *.
  assert (∀ o n, balance s1 o n = balance s o n - (if decide ((o, n) = (from, n0)) then amount q else 0)) as H1.
  { intros o n. unfold balance. rewrite Hacc. case_decide as Hd.
    - rewrite Hd, Hf. destruct (Z.eqb_spec (amount fr) (amount q)); [rewrite lookup_delete_eq; lia|].
      by rewrite lookup_insert_eq.
    - rewrite Z.sub_0_r. destruct (_ =? _); [by rewrite lookup_delete_ne|by rewrite lookup_insert_ne]. }
  exists z. split_and!; [done|done| |].
  - unfold balance. by rewrite Hf.
  - intros o n. rewrite <- H1. unfold balance at 1. rewrite Hacc2. case_decide as Hd.
    + rewrite Hd, lookup_insert_eq, Hba. injection Hd as -> ->. unfold balance. lia.
    + rewrite lookup_insert_ne by done. unfold balance. lia.
Qed.

(** A transfer that succeeds was authorized by its sender and moves exactly
    the quantity: every balance and the supply are as they were but for the two
    accounts, and what the sender has locked by freezing and voting is still
    covered by what it keeps. *)
Theorem transfer_moves_quantity (e : action_env) (l : locks) (from to : Z) (q : asset) (memo : Z)
    (s s' : token_state) :
  wf s → locks_ok l → run_action e l (ATransfer from to q memo) s = Ok s' →
  from ∈ authorized e ∧ from ≠ to ∧ 0 < amount q ∧ stats s' = stats s ∧
  (∃ z, frozen l from = Ok z ∧ z ≤ balance s' from (Symbol.name (symbol q))) ∧
  ∀ o n, balance s' o n = balance s o n
    - (if decide ((o, n) = (from, Symbol.name (symbol q))) then amount q else 0)
    + (if decide ((o, n) = (to, Symbol.name (symbol q))) then amount q else 0).
Proof.
  intros Hw Hl [u H]%run_ok. unfold transfer, require_auth in H. simpl_ok. to_prop.
  match goal with Hs : sub_balance _ _ _ _ = _, Ha : add_balance _ _ _ = _, Hst : stats _ !! _ = Some ?st |- _ =>
    edestruct (move_balances l from to q) as (Hw' & Hst' & z & Hz & Hz0 & Hle & Hbal); [exact Hw|by exists st|done|done|done|exact Hs|exact Ha|] end.
  split_and!; try done. exists z. split; [done|]. rewrite Hbal, decide_True, decide_False by congruence. lia.
Qed.

Lemma fee_wf e l p q s s' : wf s → locks_ok l → run (fee e l p q) s = Ok s' → wf s'.
Proof.
  intros Hw Hl [u H]%run_ok. unfold fee, require_auth in H. simpl_ok. to_prop.
  match goal with Hs : sub_balance _ _ _ _ = _, Ha : add_balance _ _ _ = _, Hst : stats _ !! _ = Some ?st |- _ =>
    edestruct (move_balances l p fee_account q) as (Hw' & _); [exact Hw|by exists st|done|done|done|exact Hs|exact Ha|] end.
  done.
Qed.

Lemma transfer_wf e l f t q m s s' : wf s → locks_ok l → run (transfer e l f t q m) s = Ok s' → wf s'.
Proof.
  intros Hw Hl [u H]%run_ok. unfold transfer, require_auth in H. simpl_ok. to_prop.
  match goal with Hs : sub_balance _ _ _ _ = _, Ha : add_balance _ _ _ = _, Hst : stats _ !! _ = Some ?st |- _ =>
    edestruct (move_balances l f t q) as (Hw' & _); [exact Hw|by exists st|done|done|done|exact Hs|exact Ha|] end.
  done.
Qed.

(** C24: no sequence of actions of the token contract creates or destroys tokens
    behind the supply: for every token the balances add up to its supply, which
    never exceeds its maximum. *)
Theorem token_actions_conserve (e : action_env) (l : locks) (acts : list token_action) (s s' : token_state) :
  wf s → locks_ok l → fold_result (fun s a => run_action e l a s) s acts = Ok s' →
  wf s' ∧ ∀ n st, stats s' !! n = Some st →
    circulating s' (symbol (supply st)) = amount (supply st) ∧ amount (supply st) ≤ amount (max_supply st).
Proof.
  intros Hw Hl. revert s Hw. induction acts as [|a acts IH]; intros s Hw H; cbn in H.
  - injection H as <-. split; [done|]. intros n st Hst.
    rewrite (wf_circulating _ _ _ Hw _ _ Hst). destruct (wf_stats _ _ _ Hw _ _ Hst) as (_ & ? & _).
    destruct (_ =? 0); lia.
  - apply bind_ok in H as (s1 & H1 & H). eapply IH; [|exact H]. destruct a.
    + by eapply create_wf.
    + by eapply issue_wf.
    + by eapply transfer_wf.
    + by eapply fee_wf.
Qed.

(** ** Two tokens and three accounts *)
Module TokenDemo.
Definition abc : Z := Symbol.string_to_symbol 4 (lit "ABC").
Definition env : action_env :=
  mk_env 1 {[1; 2; 3]} 10 100 (fun _ => true) [].
Definition no_locks : locks := mk_locks ∅ ∅.
Definition empty : token_state := mk_token ∅ ∅.

Lemma no_tokens_wf : wf empty.
Proof.
  split; cbn.
  - intros n st H. by rewrite lookup_empty in H.
  - intros o n b H. by rewrite lookup_empty in H.
  - intros n st H. by rewrite lookup_empty in H.
Qed.

Lemma no_locks_ok : locks_ok no_locks.
Proof.
  split; cbn.
  - intros o st un H. by rewrite lookup_empty in H.
  - intros o v H. by rewrite lookup_empty in H.
Qed.

Definition acts : list token_action :=
  [ACreate 2 (mk_asset 1000000 abc); AIssue 2 (mk_asset 500000 abc) 0;
   ATransfer 2 3 (mk_asset 200000 abc) 5; AFee 3 (mk_asset 100 abc)].

Definition issued : token_state :=
  match fold_result (fun s a => run_action env no_locks a s) empty (take 2 acts) with
  | Ok s => s | Err _ => empty end.

Lemma issued_wf : wf issued.
Proof.
  assert (∃ s1, run (create env 2 (mk_asset 1000000 abc)) empty = Ok s1 ∧
                run (issue env 2 (mk_asset 500000 abc) 0) s1 = Ok issued) as (s1 & H1 & H2).
  { eexists. split; [vm_compute; reflexivity|]. vm_compute. reflexivity. }
  eapply issue_wf; [|exact H2]. eapply create_wf; [|exact H1]. apply no_tokens_wf.
Qed.

Definition sent : token_state :=
  match run_action env no_locks (ATransfer 2 3 (mk_asset 200000 abc) 5) issued with
  | Ok s => s | Err _ => empty end.

Definition final : token_state :=
  match fold_result (fun s a => run_action env no_locks a s) empty acts with
  | Ok s => s | Err _ => empty end.
End TokenDemo.

Lemma transfer_moves_quantity_witness :
  (∃ z, frozen TokenDemo.no_locks 2 = Ok z ∧ z ≤ balance TokenDemo.sent 2 (Symbol.name TokenDemo.abc)).
Proof.
  assert (run_action TokenDemo.env TokenDemo.no_locks (ATransfer 2 3 (mk_asset 200000 TokenDemo.abc) 5)
            TokenDemo.issued = Ok TokenDemo.sent) as H by (vm_compute; reflexivity).
  exact (proj1 (proj2 (proj2 (proj2 (proj2 (transfer_moves_quantity TokenDemo.env TokenDemo.no_locks 2 3
    (mk_asset 200000 TokenDemo.abc) 5 TokenDemo.issued TokenDemo.sent TokenDemo.issued_wf
    TokenDemo.no_locks_ok H)))))).
Defined.

Lemma token_actions_conserve_witness : wf TokenDemo.final ∧ stats TokenDemo.final !! Symbol.name TokenDemo.abc ≠ None.
Proof.
  split; [|vm_compute; discriminate].
  assert (fold_result (fun s a => run_action TokenDemo.env TokenDemo.no_locks a s) TokenDemo.empty TokenDemo.acts
          = Ok TokenDemo.final) as H by (vm_compute; reflexivity).
  exact (proj1 (token_actions_conserve TokenDemo.env TokenDemo.no_locks TokenDemo.acts TokenDemo.empty
    TokenDemo.final TokenDemo.no_tokens_wf TokenDemo.no_locks_ok H)).
Defined.

(** Freezing the core token holds back every other token too: [sub_balance] does
    not look at the symbol of the quantity it compares with the frozen amount. *)
Theorem freeze_blocks_other_tokens :
  is_ok (run_action TokenDemo.env TokenDemo.no_locks (ATransfer 2 3 (mk_asset 200000 TokenDemo.abc) 5)
           TokenDemo.issued) = true ∧
  run_action TokenDemo.env
    (mk_locks {[2 := (mk_asset 400000 Symbol.CORE_SYMBOL, asset0)]} ∅)
    (ATransfer 2 3 (mk_asset 200000 TokenDemo.abc) 5) TokenDemo.issued
  = Err "overdrawn balance by freeze lots tokens"%string.
Proof. vm_compute. done. Qed.

End Token.
