(* ===== verification/SystemContract.v ===== *)
(** * The system contract

    [contracts/noc.system]: freezing and voting ([voting.cpp]), rewards and the
    election of producers ([producer.cpp]), producers, pawns and accounts
    ([noc.system.cpp]), RAM ([vote4ram.cpp]) and delegated bandwidth
    ([delegate_bandwidth.cpp]).

    The tables are one state record.  What an action asks of the chain (inline
    actions, resource limits, a proposed schedule, RAM checks) is collected in
    [requests] in the order of the calls. *)

From S2P Require Import Prelude Exceptions Name BlockHeader EosLib Token.
Import Asset.

(** ** Double arithmetic

    A positive or negative [double] as mantissa and exponent, each operation
    rounded to the nearest representable value, ties to even.  The values of
    this contract stay far inside the exponent range. *)
Module Double.
Record double : Type := mk_double { mant : Z; expo : Z }.

Definition pow2 (e : Z) : Z := 2 ^ Z.max 0 e.

(** The nearest integer to [n / d], ties to even, for positive [d]. *)
Definition nearest (n d : Z) : Z :=
  let q := n / d in
  let r := n mod d in
  if (2 * r <? d) || ((2 * r =? d) && Z.even q) then q else q + 1.

Definition round (n d : Z) : double :=
  if n =? 0 then mk_double 0 0
  else
    let a := Z.abs n in
    let k := Z.log2 a - Z.log2 d - 52 in
    let k := if a * pow2 (- k) / (d * pow2 k) <? 2 ^ 52 then k - 1 else k in
    mk_double (Z.sgn n * nearest (a * pow2 (- k)) (d * pow2 k)) k.

Definition of_int (z : Z) : double := round z 1.
Definition mul (x y : double) : double :=
  let e := expo x + expo y in round (mant x * mant y * pow2 e) (pow2 (- e)).
Definition div (x y : double) : double :=
  let e := expo x - expo y in
  round (Z.sgn (mant y) * mant x * pow2 e) (Z.abs (mant y) * pow2 (- e)).
(** [static_cast<int64_t>] of a finite value: the intrinsic
    [_eosio_f64_trunc_i64s] refuses what does not fit. *)
Definition trunc (x : double) : result string Z :=
  let z := Z.quot (mant x * pow2 (expo x)) (pow2 (- expo x)) in
  if (i64_min <=? z) && (z <=? i64_max) then Ok z else Err "Error, f64.convert_s/i64 overflow"%string.

(** [static_cast<int64_t>( a * double(b) / double(c) )]; dividing by zero gives
    an infinity or, for zero, not a number. *)
Definition share (a b c : Z) : result string Z :=
  if c =? 0 then
    if (a =? 0) || (b =? 0) then Err "Error, f64.convert_s/i64 unrepresentable"%string
    else Err "Error, f64.convert_s/i64 overflow"%string
  else trunc (div (mul (of_int a) (of_int b)) (of_int c)).

Example share_exact : share 4000 1 3 = Ok 1333 ∧ share 4000 3 3 = Ok 4000 ∧
  share 7 (2 ^ 60 + 1) (2 ^ 60) = Ok 7 ∧ is_ok (share 7 0 0) = false.
Proof. vm_compute. done. Qed.
End Double.

Module System.

(** ** Configuration of the default build *)
Definition FROZEN_DELAY : Z := 7 * 24 * 60 * 20.
Definition NUM_OF_TOP_BPS : nat := 17.
Definition UPDATE_CYCLE : Z := 100.
Definition BLOCK_NUM_PER_DAY : Z := 24 * 3600 * 2.
Definition vid_params_name : Z := Name.N "vid".
Definition vid_pool_account_name : Z := Name.N "bacc.vpool".
Definition pow_pool_account_name : Z := Name.N "bacc.pow".
Definition bp_pawn_account_name : Z := Name.N "bacc.pawn".
Definition ecosystem_account_name : Z := Name.N "bacc.better".
Definition reward_attenuation_cycle : Z := 34560000.
Definition reward_for_produce_p : Z := 10.
Definition reward_for_bps_p : Z := 10.
Definition refund_delay : Z := 3 * 24 * 3600.

(** ** Tables *)

Record vote_info_item : Type := mk_item
  { iv_vote : asset; iv_votepower : asset; iv_age : Z; iv_age_height : Z;
    iv_unfreeze_block_num : Z; iv_freeze_block_num : Z; iv_is_has_quited : bool }.

Record vote_info : Type := mk_vote
  { v_vote : asset; v_votepower : asset; v_voteage : Z; v_voteage_update_height : Z;
    v_static_votes : list vote_info_item }.

(** [bpnames] is never written. *)
Record voter_info : Type := mk_voter { voteall : asset }.

Record freeze_info : Type := mk_freeze
  { f_staked : asset; f_unstaking : asset; f_unstake_height : Z }.

Record bp_info : Type := mk_bp
  { b_invite : Z; b_key : Z; b_total_staked : Z; b_rewards_pool : asset; b_rewards_block : asset;
    b_total_voteage : Z; b_voteage_update_height : Z; b_url_size : Z; b_pawn : asset;
    b_emergency : bool; b_isactive : bool }.

Record schedule_info : Type := mk_schedule_info
  { si_block_height : Z; si_producers : list (Z * Z) }.

Record vid_params : Type := mk_vid_params { vp_coefficient : Z; vp_reward_per_vid : asset }.

Record user_resources : Type := mk_user_res { ur_net : asset; ur_cpu : asset; ur_ram : Z }.
Record delegated_bandwidth : Type := mk_delband { db_net : asset; db_cpu : asset }.
Record refund_request : Type := mk_refund { rf_time : Z; rf_net : asset; rf_cpu : asset }.

(** What an action asks of the chain. *)
Inductive request : Type :=
| RTransfer (from to : Z) (quantity : asset)
| RIssue (to : Z) (quantity : asset)
| RResourceLimits (account ram net cpu : Z)
| RCheckRam (account : Z)
| RProposed (schedule : list (Z * Z))
| RParams (max_authority_depth : Z).

Record sys_state : Type := mk_sys
  { bps : gmap Z bp_info;
    freezes : gmap Z freeze_info;
    voters : gmap Z voter_info;
    votes : gmap (Z * Z) vote_info;
    vids : gmap Z Z;
    vid_stats : gmap Z (Z * list (Z * Z));
    vidparam : gmap Z vid_params;
    schedules : gmap Z schedule_info;
    bpopened : gset Z;
    vote4ramsum : gmap Z asset;
    userres : gmap Z user_resources;
    delband : gmap (Z * Z) delegated_bandwidth;
    refunds : gmap Z refund_request;
    requests : list request }.

Abbreviation SC := (ST sys_state string).

Definition set_bps (x : gmap Z bp_info) (s : sys_state) : sys_state :=
  mk_sys x (freezes s) (voters s) (votes s) (vids s) (vid_stats s) (vidparam s)
    (schedules s) (bpopened s) (vote4ramsum s) (userres s) (delband s) (refunds s) (requests s).
Definition set_freezes (x : gmap Z freeze_info) (s : sys_state) : sys_state :=
  mk_sys (bps s) x (voters s) (votes s) (vids s) (vid_stats s) (vidparam s)
    (schedules s) (bpopened s) (vote4ramsum s) (userres s) (delband s) (refunds s) (requests s).
Definition set_voters (x : gmap Z voter_info) (s : sys_state) : sys_state :=
  mk_sys (bps s) (freezes s) x (votes s) (vids s) (vid_stats s) (vidparam s)
    (schedules s) (bpopened s) (vote4ramsum s) (userres s) (delband s) (refunds s) (requests s).
Definition set_votes (x : gmap (Z * Z) vote_info) (s : sys_state) : sys_state :=
  mk_sys (bps s) (freezes s) (voters s) x (vids s) (vid_stats s) (vidparam s)
    (schedules s) (bpopened s) (vote4ramsum s) (userres s) (delband s) (refunds s) (requests s).
Definition set_vids (x : gmap Z Z) (s : sys_state) : sys_state :=
  mk_sys (bps s) (freezes s) (voters s) (votes s) x (vid_stats s) (vidparam s)
    (schedules s) (bpopened s) (vote4ramsum s) (userres s) (delband s) (refunds s) (requests s).
Definition set_vid_stats (x : gmap Z (Z * list (Z * Z))) (s : sys_state) : sys_state :=
  mk_sys (bps s) (freezes s) (voters s) (votes s) (vids s) x (vidparam s)
    (schedules s) (bpopened s) (vote4ramsum s) (userres s) (delband s) (refunds s) (requests s).
Definition set_vidparam (x : gmap Z vid_params) (s : sys_state) : sys_state :=
  mk_sys (bps s) (freezes s) (voters s) (votes s) (vids s) (vid_stats s) x
    (schedules s) (bpopened s) (vote4ramsum s) (userres s) (delband s) (refunds s) (requests s).
Definition set_schedules (x : gmap Z schedule_info) (s : sys_state) : sys_state :=
  mk_sys (bps s) (freezes s) (voters s) (votes s) (vids s) (vid_stats s) (vidparam s)
    x (bpopened s) (vote4ramsum s) (userres s) (delband s) (refunds s) (requests s).
Definition set_bpopened (x : gset Z) (s : sys_state) : sys_state :=
  mk_sys (bps s) (freezes s) (voters s) (votes s) (vids s) (vid_stats s) (vidparam s)
    (schedules s) x (vote4ramsum s) (userres s) (delband s) (refunds s) (requests s).
Definition set_vote4ramsum (x : gmap Z asset) (s : sys_state) : sys_state :=
  mk_sys (bps s) (freezes s) (voters s) (votes s) (vids s) (vid_stats s) (vidparam s)
    (schedules s) (bpopened s) x (userres s) (delband s) (refunds s) (requests s).
Definition set_userres (x : gmap Z user_resources) (s : sys_state) : sys_state :=
  mk_sys (bps s) (freezes s) (voters s) (votes s) (vids s) (vid_stats s) (vidparam s)
    (schedules s) (bpopened s) (vote4ramsum s) x (delband s) (refunds s) (requests s).
Definition set_delband (x : gmap (Z * Z) delegated_bandwidth) (s : sys_state) : sys_state :=
  mk_sys (bps s) (freezes s) (voters s) (votes s) (vids s) (vid_stats s) (vidparam s)
    (schedules s) (bpopened s) (vote4ramsum s) (userres s) x (refunds s) (requests s).
Definition set_refunds (x : gmap Z refund_request) (s : sys_state) : sys_state :=
  mk_sys (bps s) (freezes s) (voters s) (votes s) (vids s) (vid_stats s) (vidparam s)
    (schedules s) (bpopened s) (vote4ramsum s) (userres s) (delband s) x (requests s).
Definition add_request (r : request) (s : sys_state) : sys_state :=
  mk_sys (bps s) (freezes s) (voters s) (votes s) (vids s) (vid_stats s) (vidparam s)
    (schedules s) (bpopened s) (vote4ramsum s) (userres s) (delband s) (refunds s) (requests s ++ [r]).

Definition send (r : request) : SC () := modify_st (add_request r).

(** [name_str.find( "bacc." ) == 0]. *)
Definition is_genesis_init_bp (bpname : Z) : bool :=
  bool_decide (take 5 (Name.to_string bpname) = lit "bacc.").

Definition core (a : asset) : bool := symbol a =? Symbol.CORE_SYMBOL.

(** *** Shared steps *)

Definition modify_bp_vote (bpname : Z) (stake curr_block_num : Z) : SC () :=
  s ← get_st;
  bp ← table_get (bps s) bpname "cannot pass end iterator to modify"%string;
  let addon := i64 (b_total_staked bp * u32 (curr_block_num - b_voteage_update_height bp)) in
  put_st (set_bps (<[bpname :=
    mk_bp (b_invite bp) (b_key bp) (i64 (b_total_staked bp + stake)) (b_rewards_pool bp)
      (b_rewards_block bp) (i64 (b_total_voteage bp + addon)) curr_block_num (b_url_size bp)
      (b_pawn bp) (b_emergency bp) (b_isactive bp)]> (bps s)) s).

Definition update_voter_info (voter : Z) (stake_change : asset) : SC () :=
  s ← get_st;
  match voters s !! voter with
  | None => put_st (set_voters (<[voter := mk_voter stake_change]> (voters s)) s)
  | Some vt =>
      v ← lift (add_assign (voteall vt) stake_change);
      ok ← lift (geb v asset0);
      st_assert ok "cant to voteall < 0"%string ;;
      put_st (set_voters (<[voter := mk_voter v]> (voters s)) s)
  end.

(** Tokens that come back from a vote are staked again. *)
Definition restake (voter : Z) (back : asset) (curr_block_num : Z) : SC () :=
  s ← get_st;
  match freezes s !! voter with
  | None => put_st (set_freezes (<[voter := mk_freeze back asset0 curr_block_num]> (freezes s)) s)
  | Some f =>
      st ← lift (add_assign (f_staked f) back);
      put_st (set_freezes (<[voter := mk_freeze st (f_unstaking f) curr_block_num]> (freezes s)) s)
  end.

(** [fts != _freezes.end() && fts->staked >= stake], then [staked -= stake]. *)
Definition spend_stake (voter : Z) (stake : asset) : SC () :=
  s ← get_st;
  match freezes s !! voter with
  | None => throw "voter freeze token < vote token"%string
  | Some f =>
      ok ← lift (geb (f_staked f) stake);
      st_assert ok "voter freeze token < vote token"%string ;;
      st ← lift (sub_assign (f_staked f) stake);
      put_st (set_freezes (<[voter := mk_freeze st (f_unstaking f) (f_unstake_height f)]> (freezes s)) s)
  end.

(** *** [voting.cpp] *)

Section Voting.
Context (e : action_env).

(** [balance] is the row of the token contract's [accounts] table. *)
Definition freeze (balance : option asset) (voter : Z) (stake : asset) : SC () :=
  require_auth e voter ;;
  st_assert (core stake) "only support CORE SYMBOL token"%string ;;
  st_assert ((0 <=? amount stake) && (Z.rem (amount stake) 10000 =? 0))
    "need stake quantity >= 0 and quantity is integer"%string ;;
  s ← get_st;
  tobe_staked ← lift (match voters s !! voter with
                      | Some vt => add_assign stake (voteall vt)
                      | None => mret stake
                      end);
  tobe_staked ←
    (match freezes s !! voter with
     | None =>
         put_st (set_freezes (<[voter := mk_freeze stake asset0 (env_block_num e)]> (freezes s)) s) ;;
         mret tobe_staked
     | Some f =>
         change ← lift (sub_assign stake (f_staked f));
         neg ← lift (ltb change asset0);
         f' ← (if (neg : bool) then
                 un ← lift (add_assign (f_unstaking f) (opp change));
                 mret (mk_freeze stake un (env_block_num e))
               else mret (mk_freeze stake (f_unstaking f) (f_unstake_height f)));
         put_st (set_freezes (<[voter := f']> (freezes s)) s) ;;
         lift (add_assign tobe_staked (f_unstaking f'))
     end);
  ac ← lift (of_option balance "no find voter account!"%string);
  ok ← lift (geb ac tobe_staked);
  st_assert ok "not have so much tokens!"%string.

(** The pawn a producer needs for [total] votes. *)
Definition pawn_enough (pawn : asset) (total l1 l2 p2 p3 : Z) : result string bool :=
  a ← geb pawn (mk_asset (5000 * 10000) Symbol.CORE_SYMBOL);
  b ← geb pawn (mk_asset (p2 * 10000) Symbol.CORE_SYMBOL);
  c ← geb pawn (mk_asset (p3 * 10000) Symbol.CORE_SYMBOL);
  mret ((a && (total <=? l1 * 10000)) || (b && (total <=? l2 * 10000)) || c).

(** The row of [vote]: what changes, with the stake that comes back. *)
Definition record_vote (voter bpname : Z) (stake power : asset) (curr : Z) : SC asset :=
  s ← get_st;
  match votes s !! (voter, bpname) with
  | None =>
      put_st (set_votes (<[(voter, bpname) := mk_vote stake power 0 curr []]> (votes s)) s) ;;
      mret stake
  | Some v =>
      change ← lift (sub_assign stake (v_vote v));
      let age := i64 (v_voteage v
                      + i64 (Z.quot (amount (v_vote v)) 10000 * u32 (curr - v_voteage_update_height v))) in
      neg ← lift (ltb change asset0);
      (if (neg : bool) then restake voter (opp change) curr else mret ()) ;;
      modify_st (fun s => set_votes (<[(voter, bpname) := mk_vote stake power age curr (v_static_votes v)]> (votes s)) s) ;;
      mret change
  end.

Definition vote (voter bpname : Z) (stake : asset) : SC () :=
  require_auth e voter ;;
  s ← get_st;
  bp ← table_get (bps s) bpname "bpname is not registered"%string;
  st_assert (negb (is_genesis_init_bp bpname)) "genesis bp cannot vote"%string ;;
  st_assert (core stake) "only support CORE SYMBOL token"%string ;;
  st_assert (((100000 <=? amount stake) && (Z.rem (amount stake) 100000 =? 0)) || (amount stake =? 0))
    "need stake quantity >= 10.0000 BACC and vote stake by power is integer"%string ;;
  let curr := env_block_num e in
  power ← lift (div_assign stake 10);
  change ← record_vote voter bpname stake power curr;
  neg ← lift (ltb change asset0);
  st_assert (b_isactive bp || (negb (b_isactive bp) && neg)) "bp is not active"%string ;;
  pos ← lift (gtb change asset0);
  (if (pos : bool) then
     let total := i64 (b_total_staked bp + Z.quot (amount change) (10 * 10000)) in
     ok ← lift (pawn_enough (b_pawn bp) total 800 2000 10000 30000);
     st_assert ok "bp pawn no enough"%string ;;
     spend_stake voter change
   else mret ()) ;;
  update_voter_info voter change ;;
  modify_bp_vote bpname (Z.quot (amount change) (10 * 10000)) curr.

(** Lock days and vote power of each type of static vote. *)
Definition static_vote_data : list (Z * Z) := [(30, 1); (90, 3); (180, 6); (270, 9); (360, 12)].

Definition append_static_vote (stake : asset) (power lock_block_num curr : Z) (v : vote_info)
    : result string vote_info :=
  p ← mul_assign stake power;
  mret (mk_vote (v_vote v) (v_votepower v) (v_voteage v) (v_voteage_update_height v)
          (v_static_votes v ++ [mk_item stake p 0 curr (u32 (curr + lock_block_num)) lock_block_num false])).

(** A default-constructed [vote_info]. *)
Definition vote_info0 : vote_info := mk_vote asset0 asset0 0 0 [].

Definition votestatic (voter bpname : Z) (stake : asset) (typ : Z) : SC () :=
  require_auth e voter ;;
  st_assert (negb (is_genesis_init_bp bpname)) "genesis bp cannot votestatic"%string ;;
  '(days, power) ← lift (of_option (static_vote_data !! Z.to_nat typ) "typ param error"%string);
  let curr := env_block_num e in
  let lock_block_num := u32 (days * BLOCK_NUM_PER_DAY) in
  st_assert (core stake) "only support CORE SYMBOL token"%string ;;
  st_assert ((0 <=? amount stake) && (Z.rem (amount stake) 10000 =? 0))
    "need stake quantity >= 0 and quantity is integer"%string ;;
  s ← get_st;
  bp ← table_get (bps s) bpname "bpname is not registered"%string;
  st_assert (b_isactive bp) "bp is not active"%string ;;
  let total := i64 (b_total_staked bp + Z.quot (amount stake) 10000) in
  ok ← lift (pawn_enough (b_pawn bp) total 200 1000 30000 50000);
  st_assert ok "bp pawn no enough"%string ;;
  spend_stake voter stake ;;
  v' ← lift (append_static_vote stake power lock_block_num curr
               (default vote_info0 (votes s !! (voter, bpname))));
  modify_st (fun s => set_votes (<[(voter, bpname) := v']> (votes s)) s) ;;
  update_voter_info voter stake ;;
  p ← lift (mul_assign stake power);
  modify_bp_vote bpname (Z.quot (amount p) 10000) curr.

(** [(votepower * ( curr - height )).amount / 10000]. *)
Definition age_since (votepower : asset) (curr height : Z) : result string Z :=
  a ← mul_assign votepower (u32 (curr - height));
  mret (Z.quot (amount a) 10000).

Definition quitsvote (voter bpname idx : Z) : SC () :=
  require_auth e voter ;;
  let curr := env_block_num e in
  s ← get_st;
  bp ← table_get (bps s) bpname "bpname is not registered"%string;
  v ← lift (of_option (votes s !! (voter, bpname)) "no static vote data found"%string);
  sv ← lift (of_option (v_static_votes v !! Z.to_nat idx) "no static vote data found"%string);
  st_assert (negb (iv_is_has_quited sv)) "no static vote data found"%string ;;
  st_assert (iv_unfreeze_block_num sv <=? curr) "static vote not unfreeze block num"%string ;;
  restake voter (iv_vote sv) curr ;;
  modify_bp_vote bpname (i64 (- Z.quot (amount (iv_votepower sv)) 10000)) curr ;;
  addon ← lift (age_since (iv_votepower sv) curr (iv_age_height sv));
  let sv' := mk_item asset0 asset0 (i64 (iv_age sv + addon)) curr (iv_unfreeze_block_num sv)
               (iv_freeze_block_num sv) true in
  modify_st (fun s => set_votes (<[(voter, bpname) :=
    mk_vote (v_vote v) (v_votepower v) (v_voteage v) (v_voteage_update_height v)
      (<[Z.to_nat idx := sv']> (v_static_votes v))]> (votes s)) s) ;;
  (* [vote_token] refers to the object just modified, whose [vote] is now zero *)
  update_voter_info voter (opp (iv_vote sv')).

(** The vote age of a voter for a producer, as [claim] and [votebyreward] sum it. *)
Definition newest_voteage (v : vote_info) (curr : Z) : result string Z :=
  a ← age_since (v_votepower v) curr (v_voteage_update_height v);
  fold_result (fun acc sv =>
      let acc := i128 (acc + iv_age sv) in
      if iv_is_has_quited sv then mret acc
      else a ← age_since (iv_votepower sv) curr (iv_age_height sv); mret (i128 (acc + a)))
    (i128 (i128 (0 + v_voteage v) + a)) (v_static_votes v).

Definition newest_total_voteage (bp : bp_info) (curr : Z) : Z :=
  i64 (b_total_voteage bp + i64 (b_total_staked bp * u32 (curr - b_voteage_update_height bp))).

(** The reward due: the pool shared by vote age. *)
Definition claimable (bp : bp_info) (v : vote_info) (curr : Z) : result string (asset * Z * Z) :=
  let total := newest_total_voteage bp curr in
  eos_assert (0 <? total) "claim is not available yet"%string ;;
  age ← newest_voteage v curr;
  let amount_voteage := i128 (amount (b_rewards_pool bp) * age) in
  reward ← core_asset (i64 (Z.quot amount_voteage total));
  pos ← ltb asset0 reward;
  fits ← leb reward (b_rewards_pool bp);
  eos_assert (pos && fits) "need 0 <= claim reward quantity <= rewards_pool"%string ;;
  mret (reward, total, age).

(** Static votes after a claim: ages restart and quitted ones are dropped. *)
Definition reset_static_votes (curr : Z) (l : list vote_info_item) : list vote_info_item :=
  let l' := (fun sv => mk_item (iv_vote sv) (iv_votepower sv) 0 curr (iv_unfreeze_block_num sv)
                         (iv_freeze_block_num sv) (iv_is_has_quited sv)) <$> l in
  if existsb iv_is_has_quited l' then List.filter (fun sv => negb (iv_is_has_quited sv)) l' else l'.

Definition pay_reward (bpname : Z) (reward : asset) (total age curr : Z) : SC () :=
  s ← get_st;
  bp ← table_get (bps s) bpname "cannot pass end iterator to modify"%string;
  pool ← lift (sub_assign (b_rewards_pool bp) reward);
  put_st (set_bps (<[bpname :=
    mk_bp (b_invite bp) (b_key bp) (b_total_staked bp) pool (b_rewards_block bp)
      (i64 (total - age)) curr (b_url_size bp) (b_pawn bp) (b_emergency bp) (b_isactive bp)]> (bps s)) s).

Definition votebyreward (voter bpname : Z) : SC () :=
  require_auth e voter ;;
  s ← get_st;
  bp ← table_get (bps s) bpname "bpname is not registered"%string;
  st_assert (negb (is_genesis_init_bp bpname)) "genesis bp cannot votebyreward"%string ;;
  st_assert (b_isactive bp) "bp is not active"%string ;;
  v ← lift (of_option (votes s !! (voter, bpname)) "voter have not add votes to the the producer yet"%string);
  let curr := env_block_num e in
  '(reward, total, age) ← lift (claimable bp v curr);
  reward_all ← lift (core_asset (i64 (amount reward - Z.rem (amount reward) 100000)));
  vote_power ← lift (div_assign reward_all 10);
  new_vote ← lift (add_assign (v_vote v) reward_all);
  new_power ← lift (add_assign (v_votepower v) vote_power);
  put_st (set_votes (<[(voter, bpname) :=
    mk_vote new_vote new_power 0 curr (reset_static_votes curr (v_static_votes v))]> (votes s)) s) ;;
  pay_reward bpname reward total age curr ;;
  update_voter_info voter reward_all ;;
  modify_bp_vote bpname (Z.quot (amount vote_power) 10000) curr.

Definition claim (voter bpname : Z) : SC () :=
  require_auth e voter ;;
  s ← get_st;
  bp ← table_get (bps s) bpname "bpname is not registered"%string;
  v ← lift (of_option (votes s !! (voter, bpname)) "voter have not add votes to the the producer yet"%string);
  let curr := env_block_num e in
  '(reward, total, age) ← lift (claimable bp v curr);
  send (RTransfer config.system_account_name voter reward) ;;
  modify_st (fun s => set_votes (<[(voter, bpname) :=
    mk_vote (v_vote v) (v_votepower v) 0 curr (reset_static_votes curr (v_static_votes v))]> (votes s)) s) ;;
  pay_reward bpname reward total age curr.

Definition unfreeze (voter : Z) : SC () :=
  require_auth e voter ;;
  s ← get_st;
  itr ← table_get (freezes s) voter "voter have not freeze token yet"%string;
  st_assert (u32 (f_unstake_height itr + FROZEN_DELAY) <? env_block_num e) "unfreeze is not available yet"%string ;;
  st_assert (0 <? amount (f_unstaking itr)) "need unstaking quantity > 0"%string ;;
  send (RTransfer config.system_account_name voter (f_unstaking itr)).

End Voting.

(** *** [producer.cpp] *)

(** Halved every [reward_attenuation_cycle] blocks: [0.5 * pow( 0.50, n ) * 10000]
    is exact in a double, and [pow( 0.50, n ) < 0.0001] says [10000 < 2^n]. *)
Definition calc_reward_by_block (block_num : Z) : asset :=
  let attenuation_cycle := block_num / reward_attenuation_cycle in
  if 100 <? attenuation_cycle then asset0
  else if 10000 <? 2 ^ attenuation_cycle then asset0
  else mk_asset (5000 / 2 ^ attenuation_cycle) Symbol.CORE_SYMBOL.

Section Producing.
Context (e : action_env).

(** The producers array of the intrinsic, padded to its fixed size. *)
Definition block_producers : list Z :=
  take NUM_OF_TOP_BPS (active_producers e ++ replicate NUM_OF_TOP_BPS 0).

Fixpoint count_block (bpname : Z) (l : list (Z * Z)) : list (Z * Z) :=
  match l with
  | [] => []
  | (n, a) :: l' => if n =? bpname then (n, u32 (a + 1)) :: l' else (n, a) :: count_block bpname l'
  end.

Definition note_schedule (bpname schedule_version : Z) : SC () :=
  modify_st (fun s =>
    match schedules s !! schedule_version with
    | None =>
        set_schedules (<[schedule_version := mk_schedule_info (env_block_num e)
          ((fun p => (p, if p =? bpname then 1 else 0)) <$> block_producers)]> (schedules s)) s
    | Some i =>
        set_schedules (<[schedule_version := mk_schedule_info (si_block_height i)
          (count_block bpname (si_producers i))]> (schedules s)) s
    end).

(** The rewards credited to one producer. *)
Definition credit_bp (in_schedule : Z → bool) (producer all_staked all_block_staked : Z)
    (for_produce for_bp for_user : asset) (name : Z) : SC () :=
  s ← get_st;
  bp ← table_get (bps s) name "bpname is not registered"%string;
  if negb (b_isactive bp) then mret ()
  else
    pool ← lift (Double.share (amount for_user) (b_total_staked bp) all_staked);
    block ← lift (if in_schedule name
                  then Double.share (amount for_bp) (b_total_staked bp) all_block_staked else mret 0);
    let block := if producer =? name then i64 (block + amount for_produce) else block in
    a ← lift (core_asset pool);
    rp ← lift (add_assign (b_rewards_pool bp) a);
    b ← lift (core_asset block);
    rb ← lift (add_assign (b_rewards_block bp) b);
    put_st (set_bps (<[name :=
      mk_bp (b_invite bp) (b_key bp) (b_total_staked bp) rp rb (b_total_voteage bp)
        (b_voteage_update_height bp) (b_url_size bp) (b_pawn bp) (b_emergency bp) (b_isactive bp)]> (bps s)) s).

Definition reward_bps_and_user (producer : Z) (for_produce for_bp for_user : asset) : SC () :=
  if (amount for_bp =? 0) && (amount for_user =? 0) then mret ()
  else
    s ← get_st;
    let in_schedule n := bool_decide (n ∈ block_producers) in
    let rows := ascending (bps s) in
    let all_staked := foldl (fun a r => i64 (a + b_total_staked r.2)) 0 rows in
    let all_block_staked :=
      foldl (fun a r => if in_schedule r.1 then i64 (a + b_total_staked r.2) else a) 0 rows in
    if (all_staked <=? 0) || (all_staked <=? 0) then mret ()
    else for_each (credit_bp in_schedule producer all_staked all_block_staked for_produce for_bp for_user)
           (fst <$> rows).

(** [vote_schedule] holds producers by falling stake.  The loop compares with
    the first [NUM_OF_TOP_BPS] entries whether or not the vector has that many:
    [spare i] is what it finds in the reserved memory past the end. *)
Fixpoint insert_vote (spare : nat → Z) (i n : nat) (x : Z * Z * Z) (l : list (Z * Z * Z))
    : list (Z * Z * Z) :=
  match n with
  | O => l
  | S n =>
      let here := match l !! i with Some y => y.2 | None => spare i end in
      if here <=? x.2 then take NUM_OF_TOP_BPS (take i l ++ x :: drop i l)
      else insert_vote spare (S i) n x l
  end.

Definition elect_one (spare : nat → Z) (genesis : bool) (acc : list (Z * Z * Z) * list (Z * Z * Z))
    (r : Z * bp_info) : list (Z * Z * Z) * list (Z * Z * Z) :=
  let '(top, boot) := acc in
  let x := (r.1, b_key r.2, b_total_staked r.2) in
  if genesis && is_genesis_init_bp r.1 then (top, boot ++ [x])
  else
    match last top with
    | Some y => if bool_decide (NUM_OF_TOP_BPS ≤ length top)%nat && (b_total_staked r.2 <? y.2)
                then acc else (insert_vote spare 0 NUM_OF_TOP_BPS x top, boot)
    | None => (insert_vote spare 0 NUM_OF_TOP_BPS x top, boot)
    end.

Definition genesis_boot_end_block_num : Z := 360 * BLOCK_NUM_PER_DAY.
Definition genesis_boot_bp_num : nat := 14.

Definition by_stake (x y : Z * Z * Z) : Prop := y.2 ≤ x.2.
#[export] Instance by_stake_dec x y : Decision (by_stake x y).
Proof. unfold by_stake. apply _. Defined.
Definition by_name (x y : Z * Z) : Prop := x.1 ≤ y.1.
#[export] Instance by_name_dec x y : Decision (by_name x y).
Proof. unfold by_name. apply _. Defined.

(** [resize( n )] pads with default-constructed pairs. *)
Definition resize (n : nat) (l : list (Z * Z * Z)) : list (Z * Z * Z) :=
  take n (l ++ replicate n (0, 0, 0)).

(** [std::sort] leaves the order of equal elements open; [sort_stakes] and
    [sort_names] are whichever permutation the library produces. *)
Definition elected (spare : nat → Z) (sort_stakes : list (Z * Z * Z) → list (Z * Z * Z)) (s : sys_state)
    (curr_block_num : Z) : list (Z * Z) :=
  let genesis := curr_block_num <=? genesis_boot_end_block_num in
  let '(top, boot) := foldl (elect_one spare genesis) ([], []) (ascending (bps s)) in
  let chosen :=
    if genesis then resize NUM_OF_TOP_BPS (sort_stakes (boot ++ take (NUM_OF_TOP_BPS - genesis_boot_bp_num) top))
    else take NUM_OF_TOP_BPS top in
  fst <$> chosen.

Definition update_elected_bps (spare : nat → Z) (sort_stakes : list (Z * Z * Z) → list (Z * Z * Z))
    (sort_names : list (Z * Z) → list (Z * Z)) (curr_block_num : Z) : SC () :=
  s ← get_st;
  send (RProposed (sort_names (elected spare sort_stakes s curr_block_num))).

(** The reward for the accounts registered in the block before. *)
Definition vid_reward (s : sys_state) : result string asset :=
  match vidparam s !! vid_params_name with
  | None => mret asset0
  | Some p =>
      if 1 <? env_block_num e then
        match vid_stats s !! u32 (env_block_num e - 1) with
        | None => mret asset0
        | Some (count, _) =>
            a ← mul_assign (vp_reward_per_vid p) (i64 (vp_coefficient p));
            mul_assign a count
        end
      else mret asset0
  end.

(** The tokens for the accounts of the block before, and what is left of the reward. *)
Definition pay_vids (reward_current_block : asset) : SC asset :=
  s ← get_st;
  reward_to_vid ← lift (vid_reward s);
  some_vid ← lift (gtb reward_to_vid asset0);
  if (some_vid : bool) then
    short ← lift (ltb reward_current_block reward_to_vid);
    if (short : bool) then
      (* [reward_current_block = asset{}; reward_to_vid = reward_current_block;] *)
      send (RIssue vid_pool_account_name asset0) ;; mret asset0
    else
      rest ← lift (sub_assign reward_current_block reward_to_vid);
      send (RIssue vid_pool_account_name reward_to_vid) ;; mret rest
  else mret reward_current_block.

(** Issuing the rest and splitting it. *)
Definition share_reward (bpname : Z) (reward_current_block : asset) : SC () :=
  some_block ← lift (gtb reward_current_block asset0);
  (if (some_block : bool) then send (RIssue config.system_account_name reward_current_block) else mret ()) ;;
  less ← lift (gtb asset0 reward_current_block);
  let reward_for_pow := if (less : bool) then reward_current_block else asset0 in
  some_pow ← lift (gtb reward_for_pow asset0);
  (if (some_pow : bool) then send (RIssue pow_pool_account_name reward_for_pow) else mret ()) ;;
  reward_current_block ← lift (sub_assign reward_current_block reward_for_pow);
  p ← lift (mul_assign reward_current_block reward_for_produce_p);
  reward_for_produce ← lift (div_assign p 100);
  b ← lift (mul_assign reward_current_block reward_for_bps_p);
  reward_for_bps ← lift (div_assign b 100);
  both ← lift (add_assign reward_for_bps reward_for_produce);
  reward_for_user ← lift (sub_assign reward_current_block both);
  reward_bps_and_user bpname reward_for_produce reward_for_bps reward_for_user.

Definition onblock (spare : nat → Z) (sort_stakes : list (Z * Z * Z) → list (Z * Z * Z))
    (sort_names : list (Z * Z) → list (Z * Z)) (bpname schedule_version : Z) : SC () :=
  note_schedule bpname schedule_version ;;
  let current_block := env_block_num e in
  reward_current_block ← pay_vids (calc_reward_by_block current_block);
  share_reward bpname reward_current_block ;;
  if current_block mod UPDATE_CYCLE =? 0
  then update_elected_bps spare sort_stakes sort_names current_block else mret ().

Definition updatebp (bpname invite key url_size : Z) : SC () :=
  require_auth e bpname ;;
  st_assert (url_size <? 64) "url too long"%string ;;
  s ← get_st;
  st_assert (bool_decide (bpname ∈ bpopened s)) "bp account not allow"%string ;;
  let b := match bps s !! bpname with
           | None => mk_bp invite key 0 asset0 asset0 0 (env_block_num e) url_size asset0 false true
           | Some b => mk_bp (b_invite b) key (b_total_staked b) (b_rewards_pool b) (b_rewards_block b)
                         (b_total_voteage b) (b_voteage_update_height b) url_size (b_pawn b)
                         (b_emergency b) (b_isactive b)
           end in
  put_st (set_bps (<[bpname := b]> (bps s)) s).

Definition removebp (bpname : Z) : SC () :=
  require_auth e (self e) ;;
  s ← get_st;
  b ← table_get (bps s) bpname "bpname is not registered"%string;
  put_st (set_bps (<[bpname :=
    mk_bp (b_invite b) (b_key b) (b_total_staked b) (b_rewards_pool b) (b_rewards_block b)
      (b_total_voteage b) (b_voteage_update_height b) (b_url_size b) (b_pawn b) (b_emergency b) false]> (bps s)) s).

(** *** [noc.system.cpp] and [vote4ram.cpp] *)

Definition setparams (max_authority_depth : Z) : SC () :=
  require_auth e (self e) ;;
  st_assert (3 <=? max_authority_depth) "max_authority_depth should be at least 3"%string ;;
  send (RParams max_authority_depth).

Definition newaccount (new_name vid : Z) : SC () :=
  s ← get_st;
  st_assert (negb (bool_decide (is_Some (userres s !! new_name)))) "db: object already exists"%string ;;
  modify_st (fun s => set_userres (<[new_name := mk_user_res asset0 asset0 0]> (userres s)) s) ;;
  send (RResourceLimits new_name 0 0 0) ;;
  st_assert (negb (bool_decide (is_Some (vids s !! vid)))) "vid has been used"%string ;;
  modify_st (fun s => set_vids (<[vid := new_name]> (vids s)) s) ;;
  modify_st (fun s =>
    let curr := env_block_num e in
    match vid_stats s !! curr with
    | None => set_vid_stats (<[curr := (1, [(vid, new_name)])]> (vid_stats s)) s
    | Some (c, l) => set_vid_stats (<[curr := (u32 (c + 1), l ++ [(vid, new_name)])]> (vid_stats s)) s
    end).

Definition openbp (producer : Z) : SC () :=
  require_auth e (self e) ;;
  s ← get_st;
  st_assert (negb (bool_decide (producer ∈ bpopened s))) "producer has into opened list"%string ;;
  put_st (set_bpopened ({[producer]} ∪ bpopened s) s).

Definition banbp (producer : Z) : SC () :=
  require_auth e (self e) ;;
  st_assert (negb (is_genesis_init_bp producer)) "cannot ban genesis bp"%string ;;
  s ← get_st;
  st_assert (bool_decide (producer ∈ bpopened s)) "producer not in opened list"%string ;;
  put_st (set_bpopened (bpopened s ∖ {[producer]}) s).

Definition set_pawn (p : asset) (b : bp_info) : bp_info :=
  mk_bp (b_invite b) (b_key b) (b_total_staked b) (b_rewards_pool b) (b_rewards_block b)
    (b_total_voteage b) (b_voteage_update_height b) (b_url_size b) p (b_emergency b) (b_isactive b).

Definition bppawn (bpname : Z) (pawn : asset) : SC () :=
  require_auth e bpname ;;
  st_assert (negb (is_genesis_init_bp bpname)) "genesis bp cannot bppawn"%string ;;
  pos ← lift (gtb pawn asset0);
  st_assert pos "pawn should > 0"%string ;;
  s ← get_st;
  b ← table_get (bps s) bpname "block producer not reg"%string;
  p ← lift (add_assign (b_pawn b) pawn);
  put_st (set_bps (<[bpname := set_pawn p b]> (bps s)) s) ;;
  send (RTransfer bpname bp_pawn_account_name pawn).

Definition bpredeem (bpname : Z) : SC () :=
  require_auth e bpname ;;
  s ← get_st;
  st_assert (negb (is_genesis_init_bp bpname)) "genesis bp cannot bpredeem"%string ;;
  b ← table_get (bps s) bpname "block producer not reg"%string;
  st_assert (b_total_staked b <=? 0) "bp total staked should be zero"%string ;;
  send (RTransfer bp_pawn_account_name bpname (b_pawn b)) ;;
  modify_st (fun s => set_bps (<[bpname := set_pawn asset0 b]> (bps s)) s).

(** [send_token_inline]: nothing is sent for a quantity that is not positive. *)
Definition send_token_inline (from to : Z) (quantity : asset) : SC () :=
  none ← lift (leb quantity asset0);
  if (none : bool) then mret () else send (RTransfer from to quantity).

Definition bpclaim (bpname : Z) : SC () :=
  require_auth e bpname ;;
  s ← get_st;
  b ← table_get (bps s) bpname "block producer not reg"%string;
  ok ← lift (geb (b_rewards_block b) (mk_asset (500 * 10000) Symbol.CORE_SYMBOL));
  st_assert ok "bp reward max >= 500.0000 BACC"%string ;;
  f ← lift (add_assign (b_rewards_block b) (mk_asset 50 Symbol.CORE_SYMBOL));
  fee ← lift (div_assign f 100);
  reward ← lift (sub_assign (b_rewards_block b) fee);
  send_token_inline config.system_account_name bpname reward ;;
  send_token_inline config.system_account_name ecosystem_account_name fee ;;
  modify_st (fun s => set_bps (<[bpname :=
    mk_bp (b_invite b) (b_key b) (b_total_staked b) (b_rewards_pool b) asset0
      (b_total_voteage b) (b_voteage_update_height b) (b_url_size b) (b_pawn b) (b_emergency b)
      (b_isactive b)]> (bps s)) s).

Definition setvidparam (coefficient : Z) (reward_per_vid : asset) : SC () :=
  require_auth e (self e) ;;
  modify_st (fun s => set_vidparam (<[vid_params_name := mk_vid_params coefficient reward_per_vid]> (vidparam s)) s).

Definition vote4ram (voter : Z) : SC () :=
  require_auth e voter ;;
  send (RCheckRam voter).

Definition setram (account : Z) (stake : asset) : SC () :=
  require_auth e (self e) ;;
  modify_st (fun s => set_vote4ramsum (<[account := stake]> (vote4ramsum s)) s) ;;
  send (RCheckRam account).

End Producing.

(** *** [delegate_bandwidth.cpp] *)

Section Bandwidth.
Context (e : action_env).

Definition is_zero (a : asset) : result string bool := eqb a asset0.

(** The first block of [changebw]: the stake delegated from [from] to [receiver]. *)
Definition change_delegated (from receiver : Z) (net cpu : asset) : SC () :=
  s ← get_st;
  d ← lift (match delband s !! (from, receiver) with
            | None => mret (mk_delband net cpu)
            | Some d =>
                n ← add_assign (db_net d) net;
                c ← add_assign (db_cpu d) cpu;
                mret (mk_delband n c)
            end);
  ok ← lift (leb asset0 (db_net d));
  st_assert ok "insufficient staked net bandwidth"%string ;;
  ok ← lift (leb asset0 (db_cpu d));
  st_assert ok "insufficient staked cpu bandwidth"%string ;;
  zn ← lift (is_zero (db_net d));
  zc ← lift (is_zero (db_cpu d));
  put_st (set_delband (put_row ((zn : bool) && (zc : bool)) (from, receiver) d (delband s)) s).

(** The second block: the totals of [receiver], and its resource limits. *)
Definition change_totals (receiver : Z) (net cpu : asset) : SC () :=
  s ← get_st;
  t ← lift (match userres s !! receiver with
            | None => mret (mk_user_res net cpu 0)
            | Some t =>
                n ← add_assign (ur_net t) net;
                c ← add_assign (ur_cpu t) cpu;
                mret (mk_user_res n c (ur_ram t))
            end);
  ok ← lift (leb asset0 (ur_net t));
  st_assert ok "insufficient staked total net bandwidth"%string ;;
  ok ← lift (leb asset0 (ur_cpu t));
  st_assert ok "insufficient staked total cpu bandwidth"%string ;;
  send (RResourceLimits receiver (ur_ram t) (amount (ur_net t)) (amount (ur_cpu t))) ;;
  zn ← lift (is_zero (ur_net t));
  zc ← lift (is_zero (ur_cpu t));
  modify_st (fun s => set_userres (put_row ((zn : bool) && (zc : bool) && (ur_ram t =? 0)) receiver t (userres s)) s).

(** One resource of an existing refund: the new refund and what is left to pay. *)
Definition settle (refund balance : asset) : result string (asset * asset) :=
  r ← sub_assign refund balance;
  neg ← ltb r asset0;
  mret (if (neg : bool) then (asset0, opp r) else (r, asset0)).

(** One resource of a new refund. *)
Definition start_refund (balance : asset) : result string (asset * asset) :=
  neg ← ltb balance asset0;
  mret (if (neg : bool) then (opp balance, asset0) else (asset0, balance)).

(** The third block: the refund of [from], and what it still has to transfer. *)
Definition change_refund (from : Z) (net cpu : asset) : SC (asset * asset) :=
  s ← get_st;
  neg_net ← lift (ltb net asset0);
  neg_cpu ← lift (ltb cpu asset0);
  match refunds s !! from with
  | Some r =>
      let t := if (neg_net : bool) || (neg_cpu : bool) then env_now e else rf_time r in
      '(rn, bn) ← lift (settle (rf_net r) net);
      '(rc, bc) ← lift (settle (rf_cpu r) cpu);
      ok ← lift (leb asset0 rn);
      st_assert ok "negative net refund amount"%string ;;
      ok ← lift (leb asset0 rc);
      st_assert ok "negative cpu refund amount"%string ;;
      zn ← lift (is_zero rn);
      zc ← lift (is_zero rc);
      put_st (set_refunds (put_row ((zn : bool) && (zc : bool)) from (mk_refund t rn rc) (refunds s)) s) ;;
      mret (bn, bc)
  | None =>
      if (neg_net : bool) || (neg_cpu : bool) then
        '(rn, bn) ← lift (start_refund net);
        '(rc, bc) ← lift (start_refund cpu);
        put_st (set_refunds (<[from := mk_refund (env_now e) rn rc]> (refunds s)) s) ;;
        mret (bn, bc)
      else mret (net, cpu)
  end.

Definition changebw (from receiver : Z) (net cpu : asset) (transfer : bool) : SC () :=
  require_auth e from ;;
  zn ← lift (is_zero net);
  zc ← lift (is_zero cpu);
  st_assert (negb zn || negb zc) "should stake non-zero amount"%string ;;
  sum ← lift (add_assign net cpu);
  st_assert (Z.max (Z.abs (amount net)) (Z.abs (amount cpu)) <=? Z.abs (amount sum))
    "net and cpu deltas cannot be opposite signs"%string ;;
  let source_stake_from := from in
  let from := if transfer then receiver else from in
  change_delegated from receiver net cpu ;;
  change_totals receiver net cpu ;;
  if negb (config.system_account_name =? source_stake_from) then
    let is_undelegating := i64 (amount net + amount cpu) <? 0 in
    let is_delegating_to_self := negb transfer && (from =? receiver) in
    '(bn, bc) ← (if is_delegating_to_self || is_undelegating then change_refund from net cpu
                 else mret (net, cpu));
    total ← lift (add_assign bn bc);
    pos ← lift (ltb asset0 total);
    if (pos : bool) then send (RTransfer source_stake_from config.system_account_name total) else mret ()
  else mret ().

Definition delegatebw (from receiver : Z) (net cpu : asset) (transfer : bool) : SC () :=
  ok ← lift (geb cpu asset0);
  st_assert ok "must stake a positive amount"%string ;;
  ok ← lift (geb net asset0);
  st_assert ok "must stake a positive amount"%string ;;
  sum ← lift (add_assign net cpu);
  ok ← lift (gtb sum asset0);
  st_assert ok "must stake a positive amount"%string ;;
  st_assert (negb transfer || negb (from =? receiver)) "cannot use transfer flag if delegating to self"%string ;;
  changebw from receiver net cpu transfer.

Definition undelegatebw (from receiver : Z) (net cpu : asset) : SC () :=
  ok ← lift (leb asset0 cpu);
  st_assert ok "must unstake a positive amount"%string ;;
  ok ← lift (leb asset0 net);
  st_assert ok "must unstake a positive amount"%string ;;
  sum ← lift (add_assign cpu net);
  ok ← lift (ltb asset0 sum);
  st_assert ok "must unstake a positive amount"%string ;;
  changebw from receiver (opp net) (opp cpu) false.

Definition refund (owner : Z) : SC () :=
  require_auth e owner ;;
  s ← get_st;
  r ← table_get (refunds s) owner "refund request not found"%string;
  st_assert (u32 (rf_time r + refund_delay) <=? env_now e) "refund is not available yet"%string ;;
  total ← lift (add_assign (rf_net r) (rf_cpu r));
  send (RTransfer config.system_account_name owner total) ;;
  modify_st (fun s => set_refunds (delete owner (refunds s)) s).

End Bandwidth.
End System.
