(* ===== verification/Voting.v ===== *)
(** * Freezing and voting: what the system contract holds back

    The rows of [freezed] and [voterinfo] that the token contract subtracts from
    a balance: they stay in range, and [voteall] always covers the votes of the
    voter.  This discharges the assumption [locks_ok] of the token contract. *)

From S2P Require Import Prelude Exceptions Name BlockHeader EosLib Token SystemContract.
Import Asset System.

Module Voting.

(** An amount of the core token that can be held. *)
Definition held (a : asset) : Prop := symbol a = Symbol.CORE_SYMBOL ∧ 0 ≤ amount a ≤ max_amount.

(** A non-negative amount of the core token. *)
Definition counted (a : asset) : Prop := symbol a = Symbol.CORE_SYMBOL ∧ 0 ≤ amount a.

Definition sum_static (l : list vote_info_item) : Z := foldr (fun i z => amount (iv_vote i) + z) 0 l.
#[local] Arguments sum_static : simpl never.
Definition vote_held (v : vote_info) : Z := amount (v_vote v) + sum_static (v_static_votes v).

Definition votes_of (m : gmap (Z * Z) vote_info) (voter : Z) : gmap (Z * Z) vote_info :=
  filter (fun kv => kv.1.1 = voter) m.

(** What a voter has voted with, over all producers. *)
Definition voted (m : gmap (Z * Z) vote_info) (voter : Z) : Z := map_sum vote_held (votes_of m voter).

Definition staked_of (s : sys_state) (o : Z) : Z :=
  match freezes s !! o with Some f => amount (f_staked f) | None => 0 end.
Definition unstaking_of (s : sys_state) (o : Z) : Z :=
  match freezes s !! o with Some f => amount (f_unstaking f) | None => 0 end.
Definition voteall_of (s : sys_state) (o : Z) : Z :=
  match voters s !! o with Some v => amount (voteall v) | None => 0 end.
Definition held_at (m : gmap (Z * Z) vote_info) (k : Z * Z) : Z :=
  match m !! k with Some v => vote_held v | None => 0 end.

Definition vote_ok (v : vote_info) : Prop :=
  counted (v_vote v) ∧ Forall (fun i => counted (iv_vote i)) (v_static_votes v).

Record locks_wf (s : sys_state) : Prop := mk_locks_wf
  { lw_freezes : ∀ o f, freezes s !! o = Some f → held (f_staked f) ∧ held (f_unstaking f);
    lw_voters : ∀ o v, voters s !! o = Some v → held (voteall v);
    lw_votes : ∀ k v, votes s !! k = Some v → vote_ok v;
    lw_covered : ∀ o, voted (votes s) o ≤ voteall_of s o }.

(** The rows as the token contract reads them. *)
Definition locks_of (s : sys_state) : Token.locks :=
  Token.mk_locks ((fun f => (f_staked f, f_unstaking f)) <$> freezes s) (voteall <$> voters s).

Lemma locks_wf_ok s : locks_wf s → Token.locks_ok (locks_of s).
Proof.
  intros [Hf Hv _ _]. split; cbn.
  - intros o st un H. rewrite lookup_fmap in H. destruct (freezes s !! o) eqn:E; simplify_eq/=.
    destruct (Hf _ _ E) as [[_ ?] [_ ?]]. done.
  - intros o v H. rewrite lookup_fmap in H. destruct (voters s !! o) eqn:E; simplify_eq/=.
    destruct (Hv _ _ E) as [_ ?]. done.
Qed.

(** ** Sums of votes *)

Lemma sum_static_app l1 l2 : sum_static (l1 ++ l2) = sum_static l1 + sum_static l2.
Proof. induction l1 as [|i l1 IH]; [done|]. unfold sum_static in *. cbn. lia. Qed.

Lemma sum_static_nonneg l : Forall (fun i => counted (iv_vote i)) l → 0 ≤ sum_static l.
Proof. induction 1 as [|i l [_ Hi] _ IH]; [done|]. unfold sum_static in *. cbn. lia. Qed.

Lemma vote_held_nonneg v : vote_ok v → 0 ≤ amount (v_vote v) ≤ vote_held v.
Proof. intros [[_ Hv] Hs]. unfold vote_held. pose proof (sum_static_nonneg _ Hs). lia. Qed.

Lemma voted_insert m o b v o' :
  voted (<[(o, b) := v]> m) o' = voted m o' + (if decide (o = o') then vote_held v - held_at m (o, b) else 0).
Proof.
  unfold voted, votes_of, held_at. case_decide as Ho.
  - subst o'. rewrite map_filter_insert_True by done.
    destruct (m !! (o, b)) as [old|] eqn:E.
    + rewrite (map_sum_update _ _ _ old); [lia|]. by apply map_lookup_filter_Some_2.
    + rewrite map_sum_insert; [lia|]. apply map_lookup_filter_None. by left.
  - rewrite map_filter_insert_False by done. rewrite map_filter_delete.
    rewrite delete_id; [lia|]. apply map_lookup_filter_None. right. intros x _. cbn. congruence.
Qed.

Lemma held_at_le s o b : locks_wf s → 0 ≤ held_at (votes s) (o, b) ≤ voteall_of s o.
Proof.
  intros Hw. unfold held_at. pose proof (lw_covered _ Hw o) as Hc.
  assert (∀ k a, votes_of (votes s) o !! k = Some a → 0 ≤ vote_held a) as Hnn.
  { intros k a [Hk _]%map_lookup_filter_Some. pose proof (vote_held_nonneg a (lw_votes _ Hw _ _ Hk)). lia. }
  destruct (votes s !! (o, b)) as [v|] eqn:E.
  - pose proof (vote_held_nonneg v (lw_votes _ Hw _ _ E)). split; [lia|].
    transitivity (voted (votes s) o); [|done]. unfold voted.
    eapply map_sum_ge_elem; [done|]. by apply map_lookup_filter_Some_2.
  - pose proof (map_sum_nonneg vote_held _ Hnn). unfold voted in Hc. lia.
Qed.

Lemma voteall_range s o : locks_wf s → 0 ≤ voteall_of s o ≤ max_amount.
Proof.
  intros Hw. unfold voteall_of. destruct (voters s !! o) eqn:E; [by apply (lw_voters _ Hw) in E as [_ ?]|done].
Qed.

(** One voter's freeze, total and vote rows change together. *)
Lemma locks_update s s' o b f w v :
  locks_wf s →
  freezes s' = f → (∀ o f', f !! o = Some f' → held (f_staked f') ∧ held (f_unstaking f')) →
  voters s' = <[o := mk_voter w]> (voters s) → held w →
  votes s' = <[(o, b) := v]> (votes s) → vote_ok v →
  vote_held v - held_at (votes s) (o, b) ≤ amount w - voteall_of s o →
  locks_wf s'.
Proof.
  intros Hw <- Hf Hvs Hh Hvv Hok Hle. split.
  - done.
  - rewrite Hvs. intros o' v' [[<- <-]|[_ H]]%lookup_insert_Some; [done|by eapply lw_voters].
  - rewrite Hvv. intros k v' [[<- <-]|[_ H]]%lookup_insert_Some; [done|by eapply lw_votes].
  - intros o'. rewrite Hvv, voted_insert. pose proof (lw_covered _ Hw o') as Hc.
    unfold voteall_of in *. rewrite Hvs. case_decide as Ho.
    + subst o'. rewrite lookup_insert_eq. cbn. lia.
    + rewrite lookup_insert_ne by done. lia.
Qed.

(** A vote row changes without growing. *)
Lemma locks_update_votes s s' o b v :
  locks_wf s → freezes s' = freezes s → voters s' = voters s →
  votes s' = <[(o, b) := v]> (votes s) → vote_ok v → vote_held v ≤ held_at (votes s) (o, b) →
  locks_wf s'.
Proof.
  intros Hw Hf Hvs Hvv Hok Hle. split.
  - rewrite Hf. apply (lw_freezes _ Hw).
  - rewrite Hvs. apply (lw_voters _ Hw).
  - rewrite Hvv. intros k v' [[<- <-]|[_ H]]%lookup_insert_Some; [done|by eapply lw_votes].
  - intros o'. rewrite Hvv, voted_insert. pose proof (lw_covered _ Hw o') as Hc.
    unfold voteall_of in *. rewrite Hvs. case_decide; lia.
Qed.

(** ** The shared steps *)

Lemma held_range a : held a → in_range a.
Proof. unfold held, in_range. lia. Qed.
Lemma range_fits a : in_range a → fits a.
Proof. unfold in_range, fits, max_amount, i64_min, i64_max. lia. Qed.
#[local] Hint Resolve held_range range_fits : chain.

Definition freezes_ok (m : gmap Z freeze_info) : Prop :=
  ∀ o f, m !! o = Some f → held (f_staked f) ∧ held (f_unstaking f).

Lemma spend_stake_spec voter q s u s' :
  freezes_ok (freezes s) → 0 ≤ amount q → spend_stake voter q s = (Ok u, s') →
  symbol q = Symbol.CORE_SYMBOL ∧ amount q ≤ max_amount ∧
  freezes_ok (freezes s') ∧ staked_of s' voter = staked_of s voter - amount q ∧
  unstaking_of s' voter = unstaking_of s voter ∧
  (∀ o, o ≠ voter → freezes s' !! o = freezes s !! o) ∧ s' = set_freezes (freezes s') s.
Proof.
  intros Hf Hq H. unfold spend_stake in H. apply st_bind_ok in H as (s0 & s1 & Hg & H). simpl_ok.
  destruct (freezes s !! voter) as [f|] eqn:E; [|simpl_ok]. simpl_ok. destruct (Hf _ _ E) as [Hst Hun].
  match goal with H : geb _ _ = Ok _ |- _ => apply compare_ok in H as [Hs ->] end.
  match goal with H : (_ >=? _) = true |- _ => apply Z.geb_le in H; rename H into Hge end.
  destruct Hst as [Hs1 Hs2].
  match goal with H : sub_assign _ _ = Ok _ |- _ =>
    apply sub_assign_ok in H as (_ & -> & _); [|unfold in_range; lia..] end.
  split_and!; [congruence|lia| | | | |done].
  - intros o f'. cbn. intros [[<- <-]|[_ Ho]]%lookup_insert_Some; [|by apply (Hf o)].
    cbn. split; [|done]. split; cbn; [done|lia].
  - unfold staked_of. cbn. rewrite lookup_insert_eq, E. done.
  - unfold unstaking_of. cbn. rewrite lookup_insert_eq, E. done.
  - intros o Ho. cbn. by rewrite lookup_insert_ne.
Qed.
Lemma restake_spec voter back curr s u s' :
  freezes_ok (freezes s) → held back → restake voter back curr s = (Ok u, s') →
  freezes_ok (freezes s') ∧ staked_of s' voter = staked_of s voter + amount back ∧
  unstaking_of s' voter = unstaking_of s voter ∧
  (∀ o, o ≠ voter → freezes s' !! o = freezes s !! o) ∧ s' = set_freezes (freezes s') s.
Proof.
  intros Hf Hb H. unfold restake in H. apply st_bind_ok in H as (s0 & s1 & Hg & H). simpl_ok.
  assert (∃ f', s' = set_freezes (<[voter := f']> (freezes s)) s ∧ held (f_staked f') ∧ held (f_unstaking f') ∧
    amount (f_staked f') = staked_of s voter + amount back ∧ amount (f_unstaking f') = unstaking_of s voter)
    as (f' & -> & Hst & Hun & Hs & Hu).
  { unfold staked_of, unstaking_of. destruct (freezes s !! voter) as [f|] eqn:E; simpl_ok.
    - destruct (Hf _ _ E) as [Hst Hun].
      match goal with H : add_assign _ _ = Ok _ |- _ =>
        apply add_assign_ok in H as (? & -> & Hr); [|auto with chain..] end.
      eexists. split; [done|]. destruct Hst, Hb. unfold in_range in Hr. cbn in *. split_and!; try done.
      split; cbn; [done|lia].
    - eexists. split; [done|]. cbn. split_and!; try done; lia. }
  split_and!; cbn; [| | | |done].
  - intros o f. intros [[<- <-]|[_ Ho]]%lookup_insert_Some; [done|by apply (Hf o)].
  - unfold staked_of at 1. cbn. by rewrite lookup_insert_eq.
  - unfold unstaking_of at 1. cbn. by rewrite lookup_insert_eq.
  - intros o Ho. by rewrite lookup_insert_ne.
Qed.

Lemma update_voter_info_spec voter change s u s' :
  (∀ o v, voters s !! o = Some v → held (voteall v)) →
  in_range change → symbol change = Symbol.CORE_SYMBOL → 0 ≤ voteall_of s voter + amount change →
  update_voter_info voter change s = (Ok u, s') →
  ∃ w, s' = set_voters (<[voter := mk_voter w]> (voters s)) s ∧ held w ∧
    amount w = voteall_of s voter + amount change.
Proof.
  intros Hv Hr Hs Hp H. unfold update_voter_info in H. apply st_bind_ok in H as (s0 & s1 & Hg & H). simpl_ok.
  unfold voteall_of in *. destruct (voters s !! voter) as [vt|] eqn:E; simpl_ok.
  - destruct (Hv _ _ E) as [Hvs Hvr].
    match goal with H : add_assign _ _ = Ok _ |- _ =>
      apply add_assign_ok in H as (? & -> & Hr'); [|unfold in_range in *; lia..] end.
    eexists. split; [done|]. unfold in_range in Hr'. cbn in *. split; [|done]. split; cbn; [done|lia].
  - exists change. split; [done|]. unfold in_range in Hr. split; [|lia]. split; [done|lia].
Qed.

Lemma modify_bp_vote_spec bpname stake curr s u s' :
  modify_bp_vote bpname stake curr s = (Ok u, s') → s' = set_bps (bps s') s.
Proof. intros H. unfold modify_bp_vote, table_get in H. simpl_ok. done. Qed.

Lemma pay_reward_spec bpname reward total age curr s u s' :
  pay_reward bpname reward total age curr s = (Ok u, s') → s' = set_bps (bps s') s.
Proof. intros H. unfold pay_reward, table_get in H. simpl_ok. done. Qed.

(** ** The actions of a voter *)

Section Actions.
Context (e : action_env).

(** The vote row of [vote]: it changes by [change], and a negative change comes
    back to the stake. *)
Lemma record_vote_spec voter bpname stake power curr s change s' :
  locks_wf s → fits stake → counted stake → record_vote voter bpname stake power curr s = (Ok change, s') →
  symbol change = Symbol.CORE_SYMBOL ∧
  amount change = amount stake - match votes s !! (voter, bpname) with Some v => amount (v_vote v) | None => 0 end ∧
  (in_range change ∨ change = stake) ∧
  freezes_ok (freezes s') ∧ voters s' = voters s ∧
  staked_of s' voter = staked_of s voter - Z.min 0 (amount change) ∧
  unstaking_of s' voter = unstaking_of s voter ∧
  ∃ v, votes s' = <[(voter, bpname) := v]> (votes s) ∧ v_vote v = stake ∧ vote_ok v ∧
    vote_held v - held_at (votes s) (voter, bpname) = amount change.
Proof.
  intros Hw Hfit [Hsy Hp] H. unfold record_vote in H. apply st_bind_ok in H as (s0 & s1 & Hg & H). simpl_ok.
  unfold held_at. destruct (votes s !! (voter, bpname)) as [v|] eqn:E; simpl_ok; cbn.
  - pose proof (lw_votes _ Hw _ _ E) as Hvo. pose proof (held_at_le s voter bpname Hw) as Hle.
    pose proof (voteall_range s voter Hw) as Hva. unfold held_at in Hle. rewrite E in Hle.
    pose proof (vote_held_nonneg v Hvo) as Hvn.
    match goal with H : sub_assign _ _ = Ok _ |- _ =>
      apply sub_assign_exact in H as (Hss & -> & Hr); [|done|unfold in_range; lia] end.
    match goal with H : ltb _ _ = Ok _ |- _ => apply compare_ok in H as [_ ->] end. cbn in *.
    set (d := amount stake - amount (v_vote v)) in *. unfold in_range in Hr. cbn in Hr.
    assert (∀ s2, (if d <? 0 then restake voter (opp (mk_asset d (symbol stake))) curr else mret ()) s = (Ok tt, s2) →
      freezes_ok (freezes s2) ∧ voters s2 = voters s ∧ votes s2 = votes s ∧
      staked_of s2 voter = staked_of s voter - Z.min 0 d ∧ unstaking_of s2 voter = unstaking_of s voter) as Hback.
    { intros s2 Hs2. destruct (Z.ltb_spec d 0) as [Hd|Hd].
      - assert (amount (opp (mk_asset d (symbol stake))) = - d) as Ho.
        { unfold opp. cbn. apply i64_small. unfold i64_min, i64_max, max_amount in *. lia. }
        apply restake_spec in Hs2 as (? & ? & ? & ? & Heq); [|exact (lw_freezes _ Hw)|split; [done|lia]].
        split_and!; [done|by rewrite Heq|by rewrite Heq|lia|done].
      - simpl_ok. split_and!; [exact (lw_freezes _ Hw)|done|done|lia|done]. }
    match goal with u : (), H : (if _ then _ else _) _ = _ |- _ => destruct u; apply Hback in H as (? & ? & Hvv & ? & ?) end.
    split_and!; try done; [by left|]. rewrite Hvv. eexists. split; [done|]. cbn. split_and!; [done| |].
    + split; cbn; [done|apply Hvo].
    + unfold vote_held. cbn [v_vote v_static_votes]. unfold d. lia.
  - split_and!; try done; [lia|by right|exact (lw_freezes _ Hw)|unfold staked_of; cbn; lia|].
    eexists. split; [done|]. cbn. split_and!; [done|by split|]. unfold vote_held, sum_static. cbn. lia.
Qed.

(** A vote moves tokens between the stake and the votes of the voter. *)
Lemma vote_spec voter bpname stake s u s' :
  locks_wf s → fits stake → vote e voter bpname stake s = (Ok u, s') →
  locks_wf s' ∧
  staked_of s' voter + voteall_of s' voter = staked_of s voter + voteall_of s voter ∧
  unstaking_of s' voter = unstaking_of s voter ∧
  voteall_of s' voter - voteall_of s voter = held_at (votes s') (voter, bpname) - held_at (votes s) (voter, bpname) ∧
  (v_vote <$> votes s' !! (voter, bpname)) = Some stake.
Proof.
  intros Hw Hfit H. unfold vote, require_auth, table_get in H. simpl_ok. to_prop.
  match goal with H : core stake = true |- _ => apply Z.eqb_eq in H; rename H into Hcore end.
  match goal with H : _ || (amount stake =? 0) = true |- _ => rename H into Hst end.
  assert (100000 ≤ amount stake ∨ amount stake = 0) as Hamt.
  { apply orb_prop in Hst as [Hst|Hst]; to_prop; lia. }
  match goal with H : record_vote _ _ _ _ _ _ = (Ok ?c, ?y) |- _ => rename H into Hrec; rename c into change; rename y into s1 end.
  apply record_vote_spec in Hrec as (Hcs & Hca & Hcr & Hf1 & Hv1 & Hs1 & Hu1 & v & Hvs1 & Hvv & Hvo & Hvh);
    [|done|done|split; [done|lia]].
  match goal with H : gtb change _ = Ok _ |- _ => apply compare_ok in H as [_ ->] end. cbn in *.
  match goal with H : (if _ then _ else _) _ = (Ok _, ?y) |- _ => rename H into Hsp; rename y into s2 end.
  assert (freezes_ok (freezes s2) ∧ voters s2 = voters s ∧ votes s2 = votes s1 ∧
    staked_of s2 voter = staked_of s voter - amount change ∧ unstaking_of s2 voter = unstaking_of s voter ∧
    in_range change) as (Hf2 & Hv2 & Hvs2 & Hs2 & Hu2 & Hcr2).
  { destruct (Z.gtb_spec (amount change) 0) as [Hpos|Hpos]; simpl_ok.
    - match goal with H : spend_stake _ _ _ = _ |- _ =>
        apply spend_stake_spec in H as (? & ? & ? & ? & ? & ? & Heq); [|done|lia] end.
      split_and!; [done|by rewrite Heq|by rewrite Heq|lia|lia|unfold in_range, max_amount in *; lia].
    - split_and!; try done; [lia|]. destruct Hcr as [?| ->]; [done|].
      unfold in_range, max_amount. lia. }
  pose proof (held_at_le s voter bpname Hw) as Hle. pose proof (vote_held_nonneg v Hvo) as Hvn.
  match goal with H : update_voter_info _ _ _ = _ |- _ =>
    apply update_voter_info_spec in H as (w & -> & Hwh & Hwa);
      [|rewrite Hv2; exact (lw_voters _ Hw)|done|done|unfold voteall_of in *; rewrite Hv2; lia] end.
  apply modify_bp_vote_spec in H. unfold voteall_of in Hwa. rewrite Hv2 in Hwa. fold (voteall_of s voter) in Hwa.
  rewrite H. cbn. unfold staked_of, unstaking_of, voteall_of, held_at in *. cbn.
  rewrite Hvs2, Hvs1, !lookup_insert_eq. cbn. rewrite Hvv. split_and!; try lia; try done.
  eapply (locks_update s _ voter bpname); cbn; try done; [by rewrite Hv2|by rewrite Hvs2|].
  unfold voteall_of, held_at. lia.
Qed.

Lemma sum_static_update l i sv sv' : l !! i = Some sv →
  sum_static (<[i := sv']> l) = sum_static l - amount (iv_vote sv) + amount (iv_vote sv').
Proof.
  revert i. induction l as [|x l IH]; intros [|i] Hi; simplify_eq/=.
  - unfold sum_static. cbn. lia.
  - specialize (IH _ Hi). unfold sum_static in *. cbn. lia.
Qed.

Lemma sum_static_ge l i sv : Forall (fun i => counted (iv_vote i)) l → l !! i = Some sv →
  0 ≤ amount (iv_vote sv) ≤ sum_static l.
Proof.
  intros Hl. revert i. induction Hl as [|x l [_ Hx] Hl IH]; intros [|i] Hi; simplify_eq/=.
  - pose proof (sum_static_nonneg _ Hl). unfold sum_static in *. cbn. lia.
  - specialize (IH _ Hi). unfold sum_static in *. cbn. lia.
Qed.

(** Resetting ages and dropping votes that were quitted does not add votes. *)
Lemma reset_static_votes_spec curr l : Forall (fun i => counted (iv_vote i)) l →
  Forall (fun i => counted (iv_vote i)) (reset_static_votes curr l) ∧
  sum_static (reset_static_votes curr l) ≤ sum_static l.
Proof.
  intros Hl. unfold reset_static_votes.
  set (f := fun sv => mk_item _ _ 0 curr _ _ _). cbn zeta.
  assert (Forall (fun i => counted (iv_vote i)) (f <$> l) ∧ sum_static (f <$> l) = sum_static l) as [Hf He].
  { split; [by apply Forall_fmap|]. induction Hl as [|x l _ _ IH]; [done|]. unfold sum_static in *. cbn. lia. }
  destruct (existsb _ _); [|split; [done|lia]]. rewrite <- He. clear He Hl.
  induction Hf as [|x m Hx Hm [IH1 IH2]]; cbn; [done|]. destruct Hx as [Hx1 Hx2].
  destruct (negb _); split; unfold sum_static in *; cbn; [by constructor|lia|done|lia].
Qed.

Lemma append_static_vote_spec stake power lock curr v v' :
  vote_ok v → counted stake → append_static_vote stake power lock curr v = Ok v' →
  vote_ok v' ∧ vote_held v' = vote_held v + amount stake.
Proof.
  intros [Hv Hs] Hc H. unfold append_static_vote in H. simpl_ok. split; [split; cbn; [done|]|].
  - apply Forall_app. split; [done|]. by constructor.
  - unfold vote_held. cbn [v_vote v_static_votes]. rewrite sum_static_app. unfold sum_static. cbn. lia.
Qed.

Lemma votestatic_spec voter bpname stake typ s u s' :
  locks_wf s → votestatic e voter bpname stake typ s = (Ok u, s') →
  locks_wf s' ∧
  staked_of s' voter + voteall_of s' voter = staked_of s voter + voteall_of s voter ∧
  held_at (votes s') (voter, bpname) = held_at (votes s) (voter, bpname) + amount stake.
Proof.
  intros Hw H. unfold votestatic, require_auth, table_get in H. simpl_ok.
  match goal with H : (let '(_, _) := ?p in _) _ = _ |- _ => destruct p as [days power] end.
  simpl_ok. to_prop.
  match goal with H : core stake = true |- _ => apply Z.eqb_eq in H; rename H into Hcore end.
  match goal with H : spend_stake _ _ _ = (Ok _, ?y) |- _ =>
    apply spend_stake_spec in H as (_ & Hmax & Hf1 & Hs1 & Hu1 & _ & Heq); [|exact (lw_freezes _ Hw)|done];
    rename y into s1 end.
  match goal with H : append_static_vote _ _ _ _ _ = Ok ?y |- _ => rename H into Happ; rename y into v' end.
  set (v0 := default vote_info0 (votes s !! (voter, bpname))) in *.
  assert (vote_ok v0 ∧ vote_held v0 = held_at (votes s) (voter, bpname)) as [Hv0 Hv0h].
  { unfold v0, held_at. destruct (votes s !! _) eqn:E; cbn; [split; [by eapply lw_votes|done]|].
    split; [|done]. split; [|constructor]. done. }
  apply append_static_vote_spec in Happ as [Hvo Hvh]; [|done|by split].
  match goal with H : update_voter_info _ _ _ = _ |- _ =>
    apply update_voter_info_spec in H as (w & -> & Hwh & Hwa);
      [|rewrite Heq; exact (lw_voters _ Hw)|unfold in_range, max_amount in *; lia|done|
       unfold voteall_of; rewrite Heq; cbn; fold (voteall_of s voter); pose proof (voteall_range s voter Hw); lia] end.
  apply modify_bp_vote_spec in H. rewrite H. rewrite Heq in Hwa |- *. cbn in *.
  unfold staked_of, voteall_of, held_at in *. cbn in *. rewrite !lookup_insert_eq. cbn.
  split_and!; [|lia|lia].
  eapply (locks_update s _ voter bpname); cbn; try done. unfold voteall_of, held_at. lia.
Qed.

(** Quitting a static vote puts its tokens back into the stake but leaves
    [voteall] as it was: the row [vote_token] refers to was zeroed before. *)
Lemma quitsvote_spec voter bpname idx s u s' :
  locks_wf s → quitsvote e voter bpname idx s = (Ok u, s') →
  locks_wf s' ∧ ∃ v sv, votes s !! (voter, bpname) = Some v ∧ v_static_votes v !! Z.to_nat idx = Some sv ∧
    staked_of s' voter = staked_of s voter + amount (iv_vote sv) ∧
    voteall_of s' voter = voteall_of s voter ∧
    held_at (votes s') (voter, bpname) = held_at (votes s) (voter, bpname) - amount (iv_vote sv).
Proof.
  intros Hw H. unfold quitsvote, require_auth, table_get in H. simpl_ok. to_prop.
  match goal with H : votes s !! _ = Some ?a, K : v_static_votes _ !! _ = Some ?b |- _ =>
    rename a into v; rename b into sv; rename H into Hv; rename K into Hsv end.
  destruct (lw_votes _ Hw _ _ Hv) as [Hvc Hst].
  pose proof (sum_static_ge _ _ _ Hst Hsv) as Hge. pose proof (proj1 (Forall_lookup _ _) Hst _ _ Hsv) as [Hss _].
  pose proof (held_at_le s voter bpname Hw) as Hle. pose proof (voteall_range s voter Hw) as Hvr.
  assert (vote_held v = held_at (votes s) (voter, bpname)) as Hvh by (unfold held_at; by rewrite Hv).
  unfold vote_held in Hvh.
  match goal with H : restake _ _ _ _ = (Ok _, ?y) |- _ =>
    apply restake_spec in H as (Hf1 & Hs1 & Hu1 & _ & Heq1); [|exact (lw_freezes _ Hw)|split; [done|destruct Hvc; lia]];
    rename y into s1 end.
  match goal with H : modify_bp_vote _ _ _ s1 = (Ok _, ?y) |- _ =>
    apply modify_bp_vote_spec in H as Heq2; rename y into s2 end.
  match type of H with update_voter_info _ _ (set_votes (<[_ := ?y]> _) _) = _ => set (v' := y) in * end.
  change (opp _) with asset0 in H.
  apply update_voter_info_spec in H as (w & -> & Hwh & Hwa);
    [|rewrite Heq2, Heq1; exact (lw_voters _ Hw)|done|done|
      unfold voteall_of in *; rewrite Heq2, Heq1; cbn in *; lia].
  rewrite Heq2, Heq1 in Hwa |- *. cbn in Hwa.
  assert (vote_ok v' ∧ vote_held v' = vote_held v - amount (iv_vote sv)) as [Hvo' Hvh'].
  { split; [split; cbn; [done|by apply Forall_insert]|]. unfold vote_held, v'. cbn [v_vote v_static_votes].
    rewrite (sum_static_update _ _ sv) by done. cbn. lia. }
  split; [|exists v, sv; split_and!; [done|done| | |]].
  - eapply (locks_update s _ voter bpname); cbn; try done.
    unfold voteall_of, vote_held in *. cbn in *. lia.
  - exact Hs1.
  - unfold voteall_of in *. cbn in *. rewrite lookup_insert_eq. cbn. lia.
  - unfold held_at at 1. cbn. rewrite lookup_insert_eq. unfold vote_held in *. lia.
Qed.

Lemma claimable_spec bp v curr reward total age : claimable bp v curr = Ok (reward, total, age) →
  held reward ∧ 0 < amount reward ≤ amount (b_rewards_pool bp).
Proof.
  intros H. unfold claimable in H. simpl_ok. unfold core_asset, asset_of in *. simpl_ok. to_prop.
  match goal with H : is_amount_within_range _ = true |- _ => apply within_range_spec in H; unfold in_range in H end.
  match goal with H : ltb _ _ = Ok _ |- _ => apply compare_ok in H as [_ ->] end.
  match goal with H : leb _ _ = Ok _ |- _ => apply compare_ok in H as [_ ->] end.
  to_prop. cbn in *. split; [|lia]. split; cbn; [done|lia].
Qed.

Lemma votebyreward_spec voter bpname s u s' :
  locks_wf s → votebyreward e voter bpname s = (Ok u, s') → locks_wf s' ∧ staked_of s' voter = staked_of s voter.
Proof.
  intros Hw H. unfold votebyreward, require_auth, table_get in H. simpl_ok.
  match goal with H : (let '(_, _) := ?p in _) _ = _ |- _ => destruct p as [[reward total] age] end.
  simpl_ok. to_prop.
  match goal with H : claimable _ _ _ = _ |- _ => apply claimable_spec in H as [Hr Hp] end.
  match goal with H : core_asset _ = Ok ?a |- _ => rename H into Hca; rename a into all end.
  match goal with H : votes s !! _ = Some ?a |- _ => rename a into v; rename H into Hv end.
  unfold core_asset, asset_of in Hca. simpl_ok.
  assert (0 ≤ amount reward - Z.rem (amount reward) 100000 ≤ max_amount) as Hrm.
  { pose proof (Z.rem_bound_pos (amount reward) 100000). pose proof (Z.rem_le (amount reward) 100000).
    destruct Hr. unfold max_amount in *. lia. }
  rewrite i64_small in * by (unfold i64_min, i64_max, max_amount in *; lia).
  set (all := mk_asset _ Symbol.CORE_SYMBOL) in *.
  destruct (lw_votes _ Hw _ _ Hv) as [[Hvs Hvp] Hst]. pose proof (sum_static_nonneg _ Hst) as Hnn.
  pose proof (held_at_le s voter bpname Hw) as Hle. pose proof (voteall_range s voter Hw) as Hvr.
  assert (vote_held v = held_at (votes s) (voter, bpname)) as Hvh by (unfold held_at; by rewrite Hv).
  unfold vote_held in Hvh.
  match goal with H : add_assign (v_vote v) _ = Ok _ |- _ =>
    apply add_assign_ok in H as (_ & -> & _); [|unfold in_range; cbn; unfold max_amount in *; lia..] end.
  match goal with H : pay_reward _ _ _ _ _ _ = (Ok _, ?y) |- _ => apply pay_reward_spec in H as Heq1; rename y into s1 end.
  match goal with H : update_voter_info _ _ _ = _ |- _ =>
    apply update_voter_info_spec in H as (w & -> & Hwh & Hwa);
    [|rewrite Heq1; exact (lw_voters _ Hw)|unfold in_range; cbn; unfold max_amount in *; lia|done|
      unfold voteall_of in *; rewrite Heq1; cbn in *; lia] end.
  apply modify_bp_vote_spec in H. rewrite H. rewrite Heq1 in Hwa |- *. split; [|done].
  destruct (reset_static_votes_spec (env_block_num e) _ Hst) as [Hst' Hle'].
  eapply (locks_update s _ voter bpname); cbn; try done; [exact (lw_freezes _ Hw)|split; cbn; [split; cbn; [done|lia]|done]|].
  unfold voteall_of, vote_held in *. cbn in *. lia.
Qed.

Lemma claim_spec voter bpname s u s' :
  locks_wf s → claim e voter bpname s = (Ok u, s') → locks_wf s'.
Proof.
  intros Hw H. unfold claim, require_auth, table_get, send in H. simpl_ok.
  match goal with H : (let '(_, _) := ?p in _) _ = _ |- _ => destruct p as [[reward total] age] end.
  simpl_ok.
  match goal with H : votes s !! _ = Some ?a |- _ => rename a into v; rename H into Hv end.
  destruct (lw_votes _ Hw _ _ Hv) as [Hvs Hst].
  destruct (reset_static_votes_spec (env_block_num e) _ Hst) as [Hst' Hle'].
  apply pay_reward_spec in H. rewrite H. eapply (locks_update_votes s _ voter bpname); cbn; try done.
  unfold held_at. rewrite Hv. unfold vote_held. cbn [v_vote v_static_votes]. lia.
Qed.

(** The row [freeze] writes: lowering the stake starts to unstake the rest. *)
Lemma freeze_spec balance voter stake s u s' :
  locks_wf s → fits stake → (∀ b, balance = Some b → in_range b) →
  freeze e balance voter stake s = (Ok u, s') →
  locks_wf s' ∧ voters s' = voters s ∧ votes s' = votes s ∧
  staked_of s' voter = amount stake ∧
  unstaking_of s' voter = unstaking_of s voter + Z.max 0 (staked_of s voter - amount stake) ∧
  ∃ b, balance = Some b ∧ staked_of s' voter + unstaking_of s' voter + voteall_of s' voter ≤ amount b.
Proof.
  intros Hw Hfit Hbal H. unfold freeze, require_auth in H. simpl_ok. to_prop.
  match goal with H : core stake = true |- _ => apply Z.eqb_eq in H; rename H into Hcore end.
  match goal with H : balance = Some ?b |- _ => rename H into Hb; rename b into ac end.
  specialize (Hbal _ Hb).
  match goal with H : match voters s !! voter with _ => _ end = Ok ?t |- _ =>
    assert (fits t ∧ symbol t = symbol stake ∧ amount t = amount stake + voteall_of s voter) as (Ht & Hts & Hta);
    [|clear H; rename t into tobe] end.
  { unfold voteall_of. destruct (voters s !! voter) as [vt|] eqn:E; simpl_ok; [|split_and!; try done; lia].
    destruct (lw_voters _ Hw _ _ E).
    match goal with H : add_assign _ _ = Ok _ |- _ =>
      apply add_assign_exact in H as (_ & -> & Hr); [|done|unfold in_range; lia] end.
    split_and!; [by apply range_fits|done|done]. }
  match goal with H : geb ac ?t = Ok _ |- _ => apply compare_ok in H as [_ ->]; rename t into all end.
  match goal with H : (_ >=? _) = true |- _ => apply Z.geb_le in H; rename H into Hge end.
  pose proof (voteall_range s voter Hw) as Hvr.
  match goal with H : match freezes s !! voter with _ => _ end _ = (_, ?y) |- _ => rename H into Hf; rename y into s' end.
  assert (∃ f', s' = set_freezes (<[voter := f']> (freezes s)) s ∧ f_staked f' = stake ∧ held (f_unstaking f') ∧
    amount (f_unstaking f') = unstaking_of s voter + Z.max 0 (staked_of s voter - amount stake) ∧
    amount all = amount tobe + amount (f_unstaking f')) as (f' & -> & Hst & Hun & Hua & Hall).
  { unfold unstaking_of, staked_of. destruct (freezes s !! voter) as [f|] eqn:E; simpl_ok.
    - destruct (lw_freezes _ Hw _ _ E) as [[Hs1 Hs2] [Hu1 Hu2]].
      match goal with H : sub_assign _ _ = Ok _ |- _ =>
        apply sub_assign_exact in H as (_ & -> & Hr); [|done|unfold in_range; lia] end.
      match goal with H : ltb _ _ = Ok _ |- _ => apply compare_ok in H as [_ ->] end. cbn [amount] in *.
      unfold in_range in Hr. cbn in Hr.
      match goal with H : (if _ then _ else _) s = (Ok ?x, ?y) |- _ => rename H into Hif; rename x into f'; rename y into s1 end.
      assert (s1 = s ∧ f_staked f' = stake ∧ held (f_unstaking f') ∧
        amount (f_unstaking f') = amount (f_unstaking f) + Z.max 0 (amount (f_staked f) - amount stake))
        as (-> & Hst & [Hh1 Hh2] & Ha).
      { change (amount asset0) with 0 in Hif.
        destruct (Z.ltb_spec (amount stake - amount (f_staked f)) 0); simpl_ok; cbn [f_staked f_unstaking].
        - match goal with H : add_assign (f_unstaking f) _ = Ok _ |- _ => rename H into Hadd end.
          assert (amount (opp (mk_asset (amount stake - amount (f_staked f)) (symbol stake))) = amount (f_staked f) - amount stake) as Ho.
          { unfold opp. cbn. rewrite i64_small by (unfold i64_min, i64_max, max_amount in *; lia). lia. }
          apply add_assign_ok in Hadd as (_ & -> & Hr2); [|unfold in_range; lia..].
          unfold in_range in Hr2. cbn [amount symbol] in *. split_and!; try done; [split; cbn [amount symbol]; [done|lia]|lia].
        - split_and!; try done. lia. }
      match goal with H : add_assign tobe _ = Ok _ |- _ =>
        apply add_assign_exact in H as (_ & -> & _); [|done|unfold in_range; lia] end.
      exists f'. split_and!; try done.
    - eexists. split; [done|]. cbn. split_and!; try done; lia. }
  set (s' := set_freezes _ s).
  assert (staked_of s' voter = amount stake ∧ unstaking_of s' voter = amount (f_unstaking f')) as [-> ->].
  { unfold staked_of, unstaking_of. cbn. by rewrite lookup_insert_eq, Hst. }
  split_and!; try done.
  - split; cbn; [|apply Hw..]. intros o f [[<- <-]|[_ Ho]]%lookup_insert_Some; [|by apply (lw_freezes _ Hw o)].
    split; [|done]. rewrite Hst. split; [done|]. destruct Hun. unfold in_range in Hbal. lia.
  - exists ac. split; [done|]. unfold voteall_of in *. cbn. lia.
Qed.

Lemma unfreeze_spec voter s s' : unfreeze e voter s = (Ok tt, s') ↔
  ∃ f, freezes s !! voter = Some f ∧ voter ∈ authorized e ∧
    u32 (f_unstake_height f + FROZEN_DELAY) < env_block_num e ∧ 0 < amount (f_unstaking f) ∧
    s' = add_request (RTransfer config.system_account_name voter (f_unstaking f)) s.
Proof.
  unfold unfreeze, require_auth, table_get, send. split.
  - intros H. simpl_ok. to_prop. eauto 10.
  - intros (f & Hf & Ha & Hh & Hp & ->).
    unfold mbind, st_bind, get_st, st_assert, lift, modify_st, eos_assert.
    rewrite bool_decide_eq_true_2 by done. rewrite Hf. cbn.
    by rewrite (proj2 (Z.ltb_lt _ _)), (proj2 (Z.ltb_lt _ _)) by done.
Qed.
End Actions.

(** ** All actions of the contract *)

Inductive sys_action : Type :=
| SFreeze (voter : Z) (stake : asset)
| SVote (voter bpname : Z) (stake : asset)
| SVoteStatic (voter bpname : Z) (stake : asset) (typ : Z)
| SQuitSVote (voter bpname idx : Z)
| SVoteByReward (voter bpname : Z)
| SClaim (voter bpname : Z)
| SUnfreeze (voter : Z)
| SOnBlock (bpname schedule_version : Z)
| SUpdateBp (bpname invite key url_size : Z)
| SRemoveBp (bpname : Z)
| SSetParams (max_authority_depth : Z)
| SNewAccount (new_name vid : Z)
| SOpenBp (producer : Z)
| SBanBp (producer : Z)
| SBpPawn (bpname : Z) (pawn : asset)
| SBpRedeem (bpname : Z)
| SBpClaim (bpname : Z)
| SSetVidParam (coefficient : Z) (reward_per_vid : asset)
| SVote4Ram (voter : Z)
| SSetRam (account : Z) (stake : asset)
| SDelegate (from receiver : Z) (net cpu : asset) (transfer : bool)
| SUndelegate (from receiver : Z) (net cpu : asset)
| SRefund (owner : Z).

(** What the compiler, the C++ library and the token contract decide. *)
Record world : Type := mk_world
  { w_env : action_env;
    w_balance : Z → option asset;
    w_spare : nat → Z;
    w_sort_stakes : list (Z * Z * Z) → list (Z * Z * Z);
    w_sort_names : list (Z * Z) → list (Z * Z) }.

Definition step (w : world) (a : sys_action) : SC () :=
  let e := w_env w in
  match a with
  | SFreeze v q => freeze e (w_balance w v) v q
  | SVote v b q => vote e v b q
  | SVoteStatic v b q t => votestatic e v b q t
  | SQuitSVote v b i => quitsvote e v b i
  | SVoteByReward v b => votebyreward e v b
  | SClaim v b => claim e v b
  | SUnfreeze v => unfreeze e v
  | SOnBlock b n => onblock e (w_spare w) (w_sort_stakes w) (w_sort_names w) b n
  | SUpdateBp b i k u => updatebp e b i k u
  | SRemoveBp b => removebp e b
  | SSetParams d => setparams e d
  | SNewAccount n v => newaccount e n v
  | SOpenBp p => openbp e p
  | SBanBp p => banbp e p
  | SBpPawn b q => bppawn e b q
  | SBpRedeem b => bpredeem e b
  | SBpClaim b => bpclaim e b
  | SSetVidParam c r => setvidparam e c r
  | SVote4Ram v => vote4ram e v
  | SSetRam a q => setram e a q
  | SDelegate f r n c t => delegatebw e f r n c t
  | SUndelegate f r n c => undelegatebw e f r n c
  | SRefund o => refund e o
  end.

(** The amounts of an action fit their type. *)
Definition action_fits (a : sys_action) : Prop :=
  match a with
  | SFreeze _ q | SVote _ _ q => fits q
  | _ => True
  end.

Lemma locks_same s s' : locks_wf s → freezes s' = freezes s → voters s' = voters s → votes s' = votes s → locks_wf s'.
Proof.
  intros [H1 H2 H3 H4] Hf Hv Hvv. split; unfold voteall_of in *; rewrite ?Hf, ?Hv, ?Hvv; done.
Qed.

Ltac same_locks :=
  cbn beta; repeat case_match; first [done|eapply locks_same; [eassumption|reflexivity..]].

(** The actions that do not vote leave the three tables alone. *)
Lemma other_actions_keep w a :
  match a with
  | SFreeze _ _ | SVote _ _ _ | SVoteStatic _ _ _ _ | SQuitSVote _ _ _ | SVoteByReward _ _ | SClaim _ _ => True
  | _ => keeps locks_wf (step w a)
  end.
Proof.
  destruct a; try done; cbn [step].
  all: unfold unfreeze, onblock, updatebp, removebp, setparams, newaccount, openbp, banbp, bppawn, bpredeem,
    bpclaim, setvidparam, vote4ram, setram, delegatebw, undelegatebw, refund, changebw, change_delegated,
    change_totals, change_refund, send_token_inline, pay_vids, share_reward, note_schedule, reward_bps_and_user, credit_bp,
    update_elected_bps, send, require_auth, table_get.
  all: keep same_locks.
Qed.

(** One action keeps the invariant. *)
Lemma step_locks w a s u s' :
  (∀ o b, w_balance w o = Some b → in_range b) → action_fits a →
  locks_wf s → step w a s = (Ok u, s') → locks_wf s'.
Proof.
  intros Hb Ha Hw H. pose proof (other_actions_keep w a) as Hk. destruct a; cbn in Ha.
  1: by eapply freeze_spec in H as [? _]; eauto.
  1: by eapply vote_spec in H as [? _].
  1: by eapply votestatic_spec in H as [? _].
  1: by eapply quitsvote_spec in H as [? _].
  1: by eapply votebyreward_spec in H as [? _].
  1: by eapply claim_spec in H.
  all: specialize (Hk s Hw); by rewrite H in Hk.
Qed.

Definition run_steps (s : sys_state) (l : list (world * sys_action)) : result string sys_state :=
  fold_result (fun s wa => run (step wa.1 wa.2) s) s l.

Lemma run_steps_locks l s s' :
  Forall (fun wa => (∀ o b, w_balance wa.1 o = Some b → in_range b) ∧ action_fits wa.2) l →
  locks_wf s → run_steps s l = Ok s' → locks_wf s'.
Proof.
  intros Hl. revert s. unfold run_steps. induction Hl as [|[w a] l [Hb Ha] Hl IH]; intros s Hw H; cbn in H.
  - by injection H as <-.
  - apply bind_ok in H as (s1 & H1 & H). apply Token.run_ok in H1 as [u H1].
    eapply IH; [|exact H]. by eapply step_locks.
Qed.

Definition empty_state : sys_state := mk_sys ∅ ∅ ∅ ∅ ∅ ∅ ∅ ∅ ∅ ∅ ∅ ∅ ∅ [].

Lemma empty_state_wf : locks_wf empty_state.
Proof.
  split; cbn; [intros ? ? H; by rewrite lookup_empty in H..|]. intros o. unfold voted, votes_of, voteall_of.
  cbn. rewrite map_filter_empty, map_sum_empty, lookup_empty. done.
Qed.

(** ** What the actions guarantee *)

(** C31: whatever actions of the system contract are executed from the genesis
    state, the rows the token contract reads stay sound: staked, unstaking and
    voted amounts are amounts of the core token between zero and the maximum, as
    the token contract assumes, and [voteall] of a voter is never less than the
    sum of all its votes. *)
Theorem system_locks_sound (l : list (world * sys_action)) (s : sys_state) :
  Forall (fun wa => (∀ o b, w_balance wa.1 o = Some b → in_range b) ∧ action_fits wa.2) l →
  run_steps empty_state l = Ok s →
  Token.locks_ok (locks_of s) ∧ ∀ o, 0 ≤ voted (votes s) o ≤ voteall_of s o.
Proof.
  intros Hl H. pose proof (run_steps_locks l _ _ Hl empty_state_wf H) as Hw.
  split; [by apply locks_wf_ok|]. intros o. split; [|apply (lw_covered _ Hw)].
  unfold voted. apply map_sum_nonneg. intros k a [Hk _]%map_lookup_filter_Some.
  pose proof (vote_held_nonneg a (lw_votes _ Hw _ _ Hk)). lia.
Qed.

(** Voting moves tokens between the stake of the voter and its votes and
    does not create any: after [vote] the recorded vote is the one asked for, and
    stake and [voteall] together are what they were. *)
Theorem vote_conserves_stake (e : action_env) (voter bpname : Z) (stake : asset) (s s' : sys_state) :
  locks_wf s → fits stake → run (vote e voter bpname stake) s = Ok s' →
  staked_of s' voter + voteall_of s' voter = staked_of s voter + voteall_of s voter ∧
  (v_vote <$> votes s' !! (voter, bpname)) = Some stake ∧
  voteall_of s' voter - voteall_of s voter = held_at (votes s') (voter, bpname) - held_at (votes s) (voter, bpname).
Proof.
  intros Hw Hf [u H]%Token.run_ok. by apply vote_spec in H as (_ & ? & _ & ? & ?).
Qed.

(** [freeze] sets the stake to the amount asked for, moves what is taken
    off the stake to [unstaking], and succeeds only if the balance covers all
    that is then held back. *)
Theorem freeze_is_covered (e : action_env) (balance : option asset) (voter : Z) (stake : asset) (s s' : sys_state) :
  locks_wf s → fits stake → (∀ b, balance = Some b → in_range b) → run (freeze e balance voter stake) s = Ok s' →
  staked_of s' voter = amount stake ∧
  unstaking_of s' voter = unstaking_of s voter + Z.max 0 (staked_of s voter - amount stake) ∧
  ∃ b, balance = Some b ∧ staked_of s' voter + unstaking_of s' voter + voteall_of s' voter ≤ amount b.
Proof.
  intros Hw Hf Hb [u H]%Token.run_ok. apply freeze_spec in H as (_ & _ & _ & ? & ? & ?); eauto.
Qed.

(** [unfreeze] pays out [unstaking] and changes no table, so the same
    amount can be claimed again by the next [unfreeze]: two calls in a row ask
    for the transfer twice. *)
Theorem unfreeze_pays_again (e : action_env) (voter : Z) (s s' : sys_state) :
  run (unfreeze e voter) s = Ok s' →
  ∃ f, freezes s !! voter = Some f ∧ freezes s' = freezes s ∧
    requests s' = requests s ++ [RTransfer config.system_account_name voter (f_unstaking f)] ∧
    ∃ s'', run (unfreeze e voter) s' = Ok s'' ∧
      requests s'' = requests s' ++ [RTransfer config.system_account_name voter (f_unstaking f)].
Proof.
  intros [[] H]%Token.run_ok. apply unfreeze_spec in H as (f & Hf & Ha & Hh & Hp & ->).
  exists f. split_and!; try done. exists (add_request (RTransfer config.system_account_name voter (f_unstaking f))
    (add_request (RTransfer config.system_account_name voter (f_unstaking f)) s)).
  split; [|done]. apply Token.run_ok. exists tt. apply unfreeze_spec. by exists f.
Qed.

(** Quitting a static vote returns its tokens to the stake while [voteall]
    keeps counting them: what is held back grows by the vote. *)
Theorem quitsvote_counts_twice (e : action_env) (voter bpname idx : Z) (s s' : sys_state) :
  locks_wf s → run (quitsvote e voter bpname idx) s = Ok s' →
  ∃ v sv, votes s !! (voter, bpname) = Some v ∧ v_static_votes v !! Z.to_nat idx = Some sv ∧
    voteall_of s' voter = voteall_of s voter ∧
    staked_of s' voter + voteall_of s' voter = staked_of s voter + voteall_of s voter + amount (iv_vote sv).
Proof.
  intros Hw [u H]%Token.run_ok. apply quitsvote_spec in H as (_ & v & sv & ? & ? & ? & ? & _); [|done].
  exists v, sv. split_and!; try done. lia.
Qed.

(** ** One voter and one producer *)
Module VotingDemo.
Definition core_amount (z : Z) : asset := mk_asset (z * 10000) Symbol.CORE_SYMBOL.
Definition voter : Z := 77.
Definition bp : Z := 1000.
Definition at_block (n : Z) : world :=
  mk_world (mk_env config.system_account_name {[config.system_account_name; voter; bp]} n (n * 3) (fun _ => true) [bp])
    (fun _ => Some (core_amount 100000)) (fun _ => 0) Datatypes.id Datatypes.id.

Definition setup : list (world * sys_action) :=
  (fun a => (at_block 10, a)) <$>
  [SOpenBp bp; SUpdateBp bp 0 5 10; SBpPawn bp (core_amount 30000); SFreeze voter (core_amount 900);
   SVote voter bp (core_amount 200); SVoteStatic voter bp (core_amount 100) 0; SFreeze voter (core_amount 500)].

Definition after (l : list (world * sys_action)) : sys_state :=
  match run_steps empty_state l with Ok s => s | Err _ => empty_state end.

Definition ready : sys_state := Eval vm_compute in after setup.

Lemma ready_runs : run_steps empty_state setup = Ok ready.
Proof. vm_compute. reflexivity. Qed.

Lemma balances_in_range n o b : w_balance (at_block n) o = Some b → in_range b.
Proof. cbn. intros [= <-]. vm_compute. split; discriminate. Qed.

Lemma fits_amount z : - 2 ^ 40 ≤ z ≤ 2 ^ 40 → fits (core_amount z).
Proof. unfold fits, core_amount, i64_min, i64_max. cbn. lia. Qed.

Lemma setup_fits : Forall (fun wa => (∀ o b, w_balance wa.1 o = Some b → in_range b) ∧ action_fits wa.2) setup.
Proof.
  unfold setup. cbn [fmap list_fmap].
  repeat (apply Forall_cons; split; [split; [apply balances_in_range|try done; apply fits_amount; lia]|]).
  apply Forall_nil_2.
Qed.

Lemma ready_wf : locks_wf ready.
Proof. exact (run_steps_locks setup _ _ setup_fits empty_state_wf ready_runs). Qed.

Definition next (n : Z) (a : sys_action) : sys_state :=
  match run (step (at_block n) a) ready with Ok s => s | Err _ => empty_state end.
End VotingDemo.

Lemma system_locks_sound_witness :
  Token.locks_ok (locks_of VotingDemo.ready) ∧ voteall_of VotingDemo.ready VotingDemo.voter = 3000000.
Proof.
  split; [|vm_compute; reflexivity].
  exact (proj1 (system_locks_sound VotingDemo.setup VotingDemo.ready VotingDemo.setup_fits VotingDemo.ready_runs)).
Defined.

Lemma vote_conserves_stake_witness :
  staked_of VotingDemo.ready VotingDemo.voter = 5000000 ∧
  staked_of (VotingDemo.next 20 (SVote VotingDemo.voter VotingDemo.bp (VotingDemo.core_amount 100))) VotingDemo.voter
  + voteall_of (VotingDemo.next 20 (SVote VotingDemo.voter VotingDemo.bp (VotingDemo.core_amount 100))) VotingDemo.voter
  = staked_of VotingDemo.ready VotingDemo.voter + voteall_of VotingDemo.ready VotingDemo.voter.
Proof.
  split; [vm_compute; reflexivity|].
  refine (proj1 (vote_conserves_stake (w_env (VotingDemo.at_block 20)) VotingDemo.voter VotingDemo.bp
    (VotingDemo.core_amount 100) VotingDemo.ready _ VotingDemo.ready_wf _ _)).
  - apply VotingDemo.fits_amount. lia.
  - vm_compute. reflexivity.
Defined.

Lemma freeze_is_covered_witness :
  unstaking_of (VotingDemo.next 20 (SFreeze VotingDemo.voter (VotingDemo.core_amount 450))) VotingDemo.voter
  = unstaking_of VotingDemo.ready VotingDemo.voter
    + Z.max 0 (staked_of VotingDemo.ready VotingDemo.voter - amount (VotingDemo.core_amount 450)).
Proof.
  refine (proj1 (proj2 (freeze_is_covered (w_env (VotingDemo.at_block 20)) (Some (VotingDemo.core_amount 100000))
    VotingDemo.voter (VotingDemo.core_amount 450) VotingDemo.ready _ VotingDemo.ready_wf _ _ _))).
  - apply VotingDemo.fits_amount. lia.
  - apply (VotingDemo.balances_in_range 20 0).
  - vm_compute. reflexivity.
Defined.

Lemma unfreeze_pays_again_witness :
  ∃ f, freezes VotingDemo.ready !! VotingDemo.voter = Some f ∧
    freezes (VotingDemo.next 300000 (SUnfreeze VotingDemo.voter)) = freezes VotingDemo.ready.
Proof.
  edestruct (unfreeze_pays_again (w_env (VotingDemo.at_block 300000)) VotingDemo.voter VotingDemo.ready
    (VotingDemo.next 300000 (SUnfreeze VotingDemo.voter))) as (f & Hf & He & _).
  - vm_compute. reflexivity.
  - exists f. split; [exact Hf|exact He].
Defined.

Lemma quitsvote_counts_twice_witness :
  voteall_of (VotingDemo.next 6000000 (SQuitSVote VotingDemo.voter VotingDemo.bp 0)) VotingDemo.voter
  = voteall_of VotingDemo.ready VotingDemo.voter.
Proof.
  edestruct (quitsvote_counts_twice (w_env (VotingDemo.at_block 6000000)) VotingDemo.voter VotingDemo.bp 0
    VotingDemo.ready (VotingDemo.next 6000000 (SQuitSVote VotingDemo.voter VotingDemo.bp 0)))
    as (v & sv & _ & _ & Hv & _).
  - exact VotingDemo.ready_wf.
  - vm_compute. reflexivity.
  - exact Hv.
Defined.
End Voting.
