(* ===== verification/Bandwidth.v ===== *)
(** * Delegated bandwidth

    [delegate_bandwidth.cpp]: what is delegated to a receiver is what its
    resources are set to, and no token is lost between stakes, refunds and the
    transfers to and from the system account. *)

From S2P Require Import Prelude Exceptions Name BlockHeader EosLib Token SystemContract Voting.
Import Asset System Voting.

Module Bandwidth.

Definition del_net (d : delegated_bandwidth) : Z := amount (db_net d).
Definition del_cpu (d : delegated_bandwidth) : Z := amount (db_cpu d).
Definition res_net (t : user_resources) : Z := amount (ur_net t).
Definition res_cpu (t : user_resources) : Z := amount (ur_cpu t).

(** What all accounts together delegate to [receiver]. *)
Definition delegated_to (f : delegated_bandwidth → Z) (m : gmap (Z * Z) delegated_bandwidth) (receiver : Z) : Z :=
  map_sum f (filter (fun kv => kv.1.2 = receiver) m).

Definition total_delegated (s : sys_state) : Z := map_sum (fun d => del_net d + del_cpu d) (delband s).
Definition total_refunds (s : sys_state) : Z := map_sum (fun r => amount (rf_net r) + amount (rf_cpu r)) (refunds s).

Record bw_wf (s : sys_state) : Prop := mk_bw_wf
  { bw_delband : ∀ k d, delband s !! k = Some d → held (db_net d) ∧ held (db_cpu d);
    bw_userres : ∀ k t, userres s !! k = Some t → held (ur_net t) ∧ held (ur_cpu t);
    bw_refunds : ∀ k r, refunds s !! k = Some r → held (rf_net r) ∧ held (rf_cpu r);
    bw_net : ∀ r, at_row res_net (userres s) r = delegated_to del_net (delband s) r;
    bw_cpu : ∀ r, at_row res_cpu (userres s) r = delegated_to del_cpu (delband s) r }.

Lemma delegated_to_put f zero from receiver d m r : (zero = true → f d = 0) →
  delegated_to f (put_row zero (from, receiver) d m) r
  = delegated_to f m r + if decide (r = receiver) then f d - at_row f m (from, receiver) else 0.
Proof.
  intros Hz. unfold delegated_to.
  pose proof (filter_put (fun k : Z * Z => k.2 = r) zero m (from, receiver) d) as Hf. cbn in Hf.
  rewrite Hf. destruct (decide (r = receiver)) as [->|Hr].
  - rewrite decide_True by done. rewrite map_sum_put by done.
    pose proof (at_row_filter f (fun k : Z * Z => k.2 = receiver) m (from, receiver) eq_refl) as Ha. cbn in Ha.
    rewrite Ha. lia.
  - rewrite decide_False by congruence. lia.
Qed.

(** ** The steps of [changebw] *)

(** A change of a stake: both parts of the core token, in range, of one sign. *)
Definition change_ok (net cpu : asset) : Prop :=
  symbol net = Symbol.CORE_SYMBOL ∧ symbol cpu = Symbol.CORE_SYMBOL ∧ in_range net ∧ in_range cpu ∧
  (0 ≤ amount net ∧ 0 ≤ amount cpu ∨ amount net ≤ 0 ∧ amount cpu ≤ 0).

(** Adding a change to a held amount, when the result is not negative. *)
Lemma add_held a b c ok : held a → in_range b → add_assign a b = Ok c → leb asset0 c = Ok ok → ok = true →
  held c ∧ amount c = amount a + amount b.
Proof.
  intros [Hs Ha] Hb H Hok ->. apply add_assign_ok in H as (_ & -> & Hr); [|unfold in_range; lia|done].
  apply compare_ok in Hok as [_ Hp]. unfold in_range in Hr. cbn in *. symmetry in Hp. apply Z.leb_le in Hp.
  split; [split; cbn; [done|lia]|done].
Qed.

Lemma held_new a ok : symbol a = Symbol.CORE_SYMBOL → in_range a → leb asset0 a = Ok ok → ok = true → held a.
Proof.
  intros Hs Hr Hok ->. apply compare_ok in Hok as [_ Hp]. symmetry in Hp. cbn in Hp. apply Z.leb_le in Hp.
  unfold in_range in Hr. split; [done|lia].
Qed.

Lemma held0 : held asset0.
Proof. done. Qed.
#[local] Hint Resolve held0 : core.

Lemma is_zero_spec a z : is_zero a = Ok z → z = (amount a =? 0).
Proof. intros H. by apply compare_ok in H as [_ ->]. Qed.

Lemma change_delegated_spec from receiver net cpu s u s' :
  bw_wf s → change_ok net cpu → change_delegated from receiver net cpu s = (Ok u, s') →
  ∃ d zero, s' = set_delband (put_row zero (from, receiver) d (delband s)) s ∧
    held (db_net d) ∧ held (db_cpu d) ∧ (zero = true → del_net d = 0 ∧ del_cpu d = 0) ∧
    del_net d = at_row del_net (delband s) (from, receiver) + amount net ∧
    del_cpu d = at_row del_cpu (delband s) (from, receiver) + amount cpu.
Proof.
  intros Hw (Hn & Hc & Hnr & Hcr & _) H. unfold change_delegated in H. simpl_ok.
  match goal with H : match _ with _ => _ end = Ok ?x |- _ => rename H into Hd; rename x into d end.
  assert (held (db_net d) ∧ held (db_cpu d) ∧
    del_net d = at_row del_net (delband s) (from, receiver) + amount net ∧
    del_cpu d = at_row del_cpu (delband s) (from, receiver) + amount cpu) as (H1' & H2' & H3' & H4').
  { unfold at_row. destruct (delband s !! (from, receiver)) as [o|] eqn:E; simpl_ok.
    - destruct (bw_delband _ Hw _ _ E) as [Ho1 Ho2].
      repeat match goal with Ha : add_assign _ _ = Ok ?c, Hb : leb asset0 ?x = Ok _ |- _ =>
        change x with c in Hb; apply (add_held _ _ _ _) with (4 := Hb) in Ha as [? ?]; [|done..]; clear Hb end.
      unfold del_net, del_cpu. done.
    - repeat match goal with Hb : leb asset0 ?x = Ok _ |- _ => apply held_new in Hb; [|done..] end.
      unfold del_net, del_cpu. cbn. split_and!; try done; lia. }
  do 2 eexists. split; [reflexivity|]. split_and!; try done.
  intros [Hz1 Hz2]%andb_prop. repeat match goal with H : is_zero _ = Ok _ |- _ => apply is_zero_spec in H end.
  subst. unfold del_net, del_cpu. to_prop. done.
Qed.

Lemma change_totals_spec receiver net cpu s u s' :
  (∀ k t, userres s !! k = Some t → held (ur_net t) ∧ held (ur_cpu t)) → change_ok net cpu →
  change_totals receiver net cpu s = (Ok u, s') →
  ∃ t zero, s' = add_request (RResourceLimits receiver (ur_ram t) (res_net t) (res_cpu t))
                   (set_userres (put_row zero receiver t (userres s)) s) ∧
    held (ur_net t) ∧ held (ur_cpu t) ∧ (zero = true → res_net t = 0 ∧ res_cpu t = 0) ∧
    res_net t = at_row res_net (userres s) receiver + amount net ∧
    res_cpu t = at_row res_cpu (userres s) receiver + amount cpu.
Proof.
  intros Hw (Hn & Hc & Hnr & Hcr & _) H. unfold change_totals, send in H. simpl_ok.
  match goal with H : match _ with _ => _ end = Ok ?x |- _ => rename H into Hd; rename x into t end.
  assert (held (ur_net t) ∧ held (ur_cpu t) ∧
    res_net t = at_row res_net (userres s) receiver + amount net ∧
    res_cpu t = at_row res_cpu (userres s) receiver + amount cpu) as (H1' & H2' & H3' & H4').
  { unfold at_row. destruct (userres s !! receiver) as [o|] eqn:E; simpl_ok.
    - destruct (Hw _ _ E) as [Ho1 Ho2].
      repeat match goal with Ha : add_assign _ _ = Ok ?c, Hb : leb asset0 ?x = Ok _ |- _ =>
        change x with c in Hb; apply (add_held _ _ _ _) with (4 := Hb) in Ha as [? ?]; [|done..]; clear Hb end.
      unfold res_net, res_cpu. done.
    - repeat match goal with Hb : leb asset0 ?x = Ok _ |- _ => apply held_new in Hb; [|done..] end.
      unfold res_net, res_cpu. cbn. split_and!; try done; lia. }
  do 2 eexists. split; [reflexivity|]. split_and!; try done.
  intros [[Hz1 Hz2]%andb_prop _]%andb_prop. repeat match goal with H : is_zero _ = Ok _ |- _ => apply is_zero_spec in H end.
  subst. unfold res_net, res_cpu. to_prop. done.
Qed.

(** One resource: what is not refunded has to be paid. *)
Lemma settle_spec r b r' b' : held r → symbol b = Symbol.CORE_SYMBOL → in_range b → settle r b = Ok (r', b') →
  held r' ∧ held b' ∧ amount b = amount b' - (amount r' - amount r) ∧ (amount b ≤ 0 → amount b' = 0).
Proof.
  intros [Hs Hr] Hb Hbr H. unfold settle in H. simpl_ok.
  match goal with H : sub_assign _ _ = Ok _ |- _ =>
    apply sub_assign_ok in H as (_ & -> & Hx); [|unfold in_range; lia|done] end.
  match goal with H : ltb _ _ = Ok _ |- _ => apply compare_ok in H as [_ ->] end.
  unfold in_range in *. cbn [amount symbol] in *. change (amount asset0) with 0 in *.
  destruct (Z.ltb_spec (amount r - amount b) 0); injection H as <- <-.
  - assert (amount (opp (mk_asset (amount r - amount b) (symbol r))) = amount b - amount r) as Ho.
    { unfold opp. cbn. rewrite i64_small by (unfold i64_min, i64_max, max_amount in *; lia). lia. }
    split_and!; [done|split; [exact Hs|lia]|rewrite Ho; cbn; lia|lia].
  - split_and!; [split; cbn; [done|lia]|done|cbn; lia|done].
Qed.

Lemma start_refund_spec b r' b' : symbol b = Symbol.CORE_SYMBOL → in_range b → start_refund b = Ok (r', b') →
  held r' ∧ held b' ∧ amount b = amount b' - amount r' ∧ (amount b ≤ 0 → amount b' = 0).
Proof.
  intros Hb Hbr H. unfold start_refund in H. simpl_ok.
  match goal with H : ltb _ _ = Ok _ |- _ => apply compare_ok in H as [_ ->] end.
  unfold in_range in *. change (amount asset0) with 0 in *.
  destruct (Z.ltb_spec (amount b) 0); injection H as <- <-.
  - assert (amount (opp b) = - amount b) as Ho.
    { unfold opp. cbn. apply i64_small. unfold i64_min, i64_max, max_amount in *; lia. }
    split_and!; [split; [exact Hb|lia]|done|rewrite Ho; cbn; lia|done].
  - split_and!; [done|split; [done|lia]|cbn; lia|lia].
Qed.

Definition refund_amount (r : refund_request) : Z := amount (rf_net r) + amount (rf_cpu r).

Lemma change_refund_spec e from net cpu s bn bc s' :
  bw_wf s → change_ok net cpu → change_refund e from net cpu s = (Ok (bn, bc), s') →
  held bn ∧ held bc ∧ s' = set_refunds (refunds s') s ∧
  (∀ k r, refunds s' !! k = Some r → held (rf_net r) ∧ held (rf_cpu r)) ∧
  amount net + amount cpu = amount bn + amount bc - (total_refunds s' - total_refunds s) ∧
  (amount net ≤ 0 → amount cpu ≤ 0 → amount bn + amount bc = 0).
Proof.
  intros Hw (Hn & Hc & Hnr & Hcr & Hsign) H. unfold change_refund in H. simpl_ok.
  repeat match goal with H : ltb _ _ = Ok _ |- _ => apply compare_ok in H as [_ ->] end.
  change (amount asset0) with 0 in *. destruct (refunds s !! from) as [r|] eqn:E; simpl_ok.
  - destruct (bw_refunds _ Hw _ _ E) as [Hrn Hrc].
    match goal with H : (let '(_, _) := ?p in _) _ = _ |- _ => destruct p as [rn bn'] end. simpl_ok.
    match goal with H : (let '(_, _) := ?p in _) _ = _ |- _ => destruct p as [rc bc'] end. simpl_ok. simplify_eq.
    repeat match goal with H : settle _ _ = Ok _ |- _ => apply settle_spec in H as (? & ? & ? & ?); [|done..] end.
    split_and!; [done|done|done| | |lia].
    + intros k x. cbn. apply (put_row_forall (fun r => held (rf_net r) ∧ held (rf_cpu r))); [apply (bw_refunds _ Hw)|done].
    + unfold total_refunds. cbn. rewrite map_sum_put.
      * unfold at_row. rewrite E. cbn. lia.
      * intros [Hz1 Hz2]%andb_prop. repeat match goal with H : is_zero _ = Ok _ |- _ => apply is_zero_spec in H end.
        subst. to_prop. cbn. lia.
  - destruct (_ || _) eqn:Eneg.
    + simpl_ok. match goal with H : (let '(_, _) := ?p in _) _ = _ |- _ => destruct p as [rn bn'] end. simpl_ok.
      match goal with H : (let '(_, _) := ?p in _) _ = _ |- _ => destruct p as [rc bc'] end. simpl_ok. simplify_eq.
      repeat match goal with H : start_refund _ = Ok _ |- _ => apply start_refund_spec in H as (? & ? & ? & ?); [|done..] end.
      split_and!; [done|done|done| | |lia].
      * intros k x. cbn. intros [[_ <-]|[_ ?]]%lookup_insert_Some; [done|by eapply (bw_refunds _ Hw)].
      * unfold total_refunds. cbn. rewrite map_sum_insert by done. cbn. lia.
    + simpl_ok. simplify_eq. to_prop. unfold in_range in *.
      split_and!; [split; [done|lia]|split; [done|lia]|by destruct s'|apply (bw_refunds _ Hw)|lia|lia].
Qed.

(** The first two blocks keep the totals equal to what is delegated. *)
Lemma change_stakes_spec from receiver net cpu s u1 s1 u2 s2 :
  bw_wf s → change_ok net cpu →
  change_delegated from receiver net cpu s = (Ok u1, s1) → change_totals receiver net cpu s1 = (Ok u2, s2) →
  bw_wf s2 ∧ refunds s2 = refunds s ∧
  total_delegated s2 = total_delegated s + amount net + amount cpu ∧
  ∃ ram, requests s2 = requests s ++
    [RResourceLimits receiver ram (at_row res_net (userres s2) receiver) (at_row res_cpu (userres s2) receiver)].
Proof.
  intros Hw Hch Hd Ht.
  apply change_delegated_spec in Hd as (d & zd & -> & Hd1 & Hd2 & Hdz & Hdn & Hdc); [|done..].
  apply change_totals_spec in Ht as (t & zt & -> & Ht1 & Ht2 & Htz & Htn & Htc); [|exact (bw_userres _ Hw)|done].
  cbn in *. split_and!; [split; cbn| | |exists (ur_ram t)].
  - apply (put_row_forall (fun d => held (db_net d) ∧ held (db_cpu d))); [apply (bw_delband _ Hw)|done].
  - apply (put_row_forall (fun t => held (ur_net t) ∧ held (ur_cpu t))); [apply (bw_userres _ Hw)|done].
  - apply (bw_refunds _ Hw).
  - intros r. rewrite at_row_put, delegated_to_put, <- (bw_net _ Hw) by naive_solver. case_decide; [subst|]; lia.
  - intros r. rewrite at_row_put, delegated_to_put, <- (bw_cpu _ Hw) by naive_solver. case_decide; [subst|]; lia.
  - done.
  - unfold total_delegated. cbn. rewrite map_sum_put by (intros Hz; destruct (Hdz Hz); lia).
    assert (at_row (fun d => del_net d + del_cpu d) (delband s) (from, receiver)
            = at_row del_net (delband s) (from, receiver) + at_row del_cpu (delband s) (from, receiver)) as ->.
    { unfold at_row. by destruct (delband s !! _). }
    lia.
  - rewrite !at_row_put by naive_solver. by rewrite !decide_True.
Qed.

Lemma changebw_spec e from receiver net cpu transfer s u s' :
  bw_wf s → change_ok net cpu → changebw e from receiver net cpu transfer s = (Ok u, s') →
  bw_wf s' ∧ from ∈ authorized e ∧
  ∃ ram paid, 0 ≤ paid ∧
    requests s' = requests s ++
      RResourceLimits receiver ram (at_row res_net (userres s') receiver) (at_row res_cpu (userres s') receiver)
      :: (if 0 <? paid then [RTransfer from config.system_account_name (mk_asset paid Symbol.CORE_SYMBOL)] else []) ∧
    total_delegated s' = total_delegated s + amount net + amount cpu ∧
    (amount net + amount cpu < 0 → paid = 0) ∧
    (from ≠ config.system_account_name →
     total_delegated s' + total_refunds s' = total_delegated s + total_refunds s + paid).
Proof.
  intros Hw Hch H. unfold changebw, require_auth in H. simpl_ok. to_prop.
  match goal with H1 : change_delegated ?f _ _ _ _ = _, H2 : change_totals _ _ _ _ = (_, ?y) |- _ =>
    destruct (change_stakes_spec _ _ _ _ _ _ _ _ _ Hw Hch H1 H2) as (Hw2 & Hrf & Htd & ram & Hreq);
    set (owner := f) in *; rename y into s2; clear H1 H2 end.
  destruct (Z.eqb_spec config.system_account_name from) as [Hsys|Hsys]; cbn in H; simpl_ok.
  { split_and!; [done|done|]. exists ram, 0. split_and!; [done|by rewrite Hreq|done|done|done]. }
  match goal with H : (if _ then _ else _) _ = (Ok ?x, ?y) |- _ => rename H into Hb; destruct x as [bn bc]; rename y into s3 end.
  assert (held bn ∧ held bc ∧ bw_wf s3 ∧ requests s3 = requests s2 ∧ userres s3 = userres s2 ∧
    total_delegated s3 = total_delegated s2 ∧
    amount net + amount cpu = amount bn + amount bc - (total_refunds s3 - total_refunds s2) ∧
    (amount net + amount cpu < 0 → amount bn + amount bc = 0))
    as (Hbn & Hbc & Hw3 & Hreq3 & Hur3 & Htd3 & Hpay & Hzero).
  { destruct Hch as (Hn & Hc & Hnr & Hcr & Hsign). destruct (_ || (i64 _ <? 0)) eqn:Ec.
    - apply change_refund_spec in Hb as (? & ? & Heq & Hrr & ? & ?); [|done|by split_and!].
      split_and!; try done; [|by rewrite Heq..|lia].
      destruct Hw2. split; rewrite Heq; done.
    - injection Hb as <- <- <-. to_prop.
      match goal with H : 0 ≤ i64 _ |- _ =>
        rewrite i64_small in H by (unfold in_range, max_amount, i64_min, i64_max in *; lia) end.
      unfold in_range in *. split_and!; try done; [split; [done|lia]..|lia|lia]. }
  simpl_ok.
  match goal with H : add_assign bn bc = Ok _ |- _ =>
    apply add_assign_ok in H as (_ & -> & _); [|by apply held_range..] end.
  match goal with H : ltb _ _ = Ok _ |- _ => apply compare_ok in H as [_ ->] end.
  cbn [amount] in H. change (amount asset0) with 0 in H. destruct Hbn as [Hbs Hbn], Hbc as [_ Hbc].
  assert (bw_wf s' ∧ userres s' = userres s2 ∧ total_delegated s' = total_delegated s2 ∧ total_refunds s' = total_refunds s3 ∧
    requests s' = requests s2 ++ (if 0 <? amount bn + amount bc
      then [RTransfer from config.system_account_name (mk_asset (amount bn + amount bc) Symbol.CORE_SYMBOL)] else []))
    as (Hw' & Hur & Htd' & Htr' & Hreq').
  { rewrite <- Hbs. destruct (0 <? _); unfold send in H; simpl_ok.
    - split_and!; try done; [destruct Hw3; by split|cbn; by rewrite Hreq3].
    - rewrite app_nil_r. done. }
  assert (total_refunds s2 = total_refunds s) as Htr by (unfold total_refunds; by rewrite Hrf).
  split_and!; [done|done|]. exists ram, (amount bn + amount bc). rewrite Hur, Hreq', Hreq, <- app_assoc.
  split_and!; [lia|done|lia|done|lia].
Qed.

(** ** The actions *)

(** Two amounts that are not negative and whose sum is positive as a 64-bit word
    did not wrap. *)
Lemma positive_sum a b c : fits a → fits b → 0 ≤ amount a → 0 ≤ amount b → add_assign a b = Ok c →
  0 < amount c → in_range a ∧ in_range b.
Proof.
  unfold fits, in_range. intros Hfa Hfb Ha Hb H Hc. unfold add_assign in H. simpl_ok. to_prop. cbn in Hc.
  assert (i64 (amount a + amount b) = amount a + amount b) as E; [|unfold max_amount in *; lia].
  apply i64_small. split; [unfold i64_min; lia|]. unfold i64, wraps in Hc.
  destruct (Z.le_gt_cases (amount a + amount b) i64_max) as [|Hgt]; [done|]. exfalso.
  unfold i64_max in *. change (2 ^ (64 - 1)) with (2 ^ 63) in *.
  replace (amount a + amount b + 2 ^ 63) with (amount a + amount b - 2 ^ 63 + 1 * 2 ^ 64) in Hc by lia.
  rewrite Z.mod_add, Z.mod_small in Hc by lia. lia.
Qed.

Lemma delegate_change net cpu ok1 ok2 ok3 sum : fits net → fits cpu →
  geb cpu asset0 = Ok ok1 → ok1 = true → geb net asset0 = Ok ok2 → ok2 = true →
  add_assign net cpu = Ok sum → gtb sum asset0 = Ok ok3 → ok3 = true → change_ok net cpu.
Proof.
  intros Hn Hc H1 -> H2 -> H3 H4 ->. apply compare_ok in H1 as [Hs1 H1], H2 as [Hs2 H2], H4 as [_ H4].
  symmetry in H1, H2, H4. rewrite Z.geb_leb, Z.leb_le in H1, H2. rewrite Z.gtb_ltb, Z.ltb_lt in H4. cbn in *.
  destruct (positive_sum _ _ _ Hn Hc H2 H1 H3 H4). split_and!; try done. by left.
Qed.

Lemma opp_range a : in_range a → in_range (opp a) ∧ amount (opp a) = - amount a.
Proof.
  unfold in_range, opp, max_amount. intros Ha. cbn. rewrite i64_small by (unfold i64_min, i64_max; lia). lia.
Qed.

Lemma undelegate_change net cpu ok1 ok2 ok3 sum : fits net → fits cpu →
  leb asset0 cpu = Ok ok1 → ok1 = true → leb asset0 net = Ok ok2 → ok2 = true →
  add_assign cpu net = Ok sum → ltb asset0 sum = Ok ok3 → ok3 = true →
  change_ok (opp net) (opp cpu) ∧ amount (opp net) = - amount net ∧ amount (opp cpu) = - amount cpu ∧
  0 < amount net + amount cpu.
Proof.
  intros Hn Hc H1 -> H2 -> H3 H4 ->. apply compare_ok in H1 as [Hs1 H1], H2 as [Hs2 H2], H4 as [_ H4].
  symmetry in H1, H2, H4. apply Z.leb_le in H1, H2. apply Z.ltb_lt in H4. cbn in H1, H2, H4.
  destruct (positive_sum _ _ _ Hc Hn H1 H2 H3 H4) as [Hrc Hrn].
  apply add_assign_ok in H3 as (_ & -> & _); [|done..]. cbn in H4.
  destruct (opp_range _ Hrc) as [? E1], (opp_range _ Hrn) as [? E2].
  split; [|split_and!; [done|done|lia]]. split_and!; try done. right. lia.
Qed.

(** Delegating bandwidth loses no token: the receiver's resource limits are
    set to its new totals, and what is then delegated or waiting to be refunded
    has grown by exactly what is transferred to the system account. *)
Theorem delegatebw_conserves (e : action_env) (from receiver : Z) (net cpu : asset) (transfer : bool) (s s' : sys_state) :
  bw_wf s → fits net → fits cpu → from ≠ config.system_account_name →
  run (delegatebw e from receiver net cpu transfer) s = Ok s' →
  bw_wf s' ∧ from ∈ authorized e ∧
  ∃ ram paid, 0 ≤ paid ∧
    requests s' = requests s ++
      RResourceLimits receiver ram (delegated_to del_net (delband s') receiver) (delegated_to del_cpu (delband s') receiver)
      :: (if 0 <? paid then [RTransfer from config.system_account_name (mk_asset paid Symbol.CORE_SYMBOL)] else []) ∧
    total_delegated s' + total_refunds s' = total_delegated s + total_refunds s + paid.
Proof.
  intros Hw Hn Hc Hf [u H]%Token.run_ok. unfold delegatebw in H. simpl_ok.
  assert (change_ok net cpu) as Hch by (eapply delegate_change; eauto).
  apply changebw_spec in H as (Hw' & Ha & ram & paid & Hp & Hreq & Hdel & Hz & Htot); [|done..].
  rewrite <- (bw_net _ Hw'), <- (bw_cpu _ Hw'). split_and!; [done|done|]. exists ram, paid. auto.
Qed.

(** Undelegating pays nothing out at once: exactly the amount asked for
    moves from the stakes to the refunds, the receiver's limits are lowered to
    its new totals, and no transfer is sent. *)
Theorem undelegatebw_refunds (e : action_env) (from receiver : Z) (net cpu : asset) (s s' : sys_state) :
  bw_wf s → fits net → fits cpu → from ≠ config.system_account_name →
  run (undelegatebw e from receiver net cpu) s = Ok s' →
  bw_wf s' ∧ from ∈ authorized e ∧
  total_delegated s' = total_delegated s - (amount net + amount cpu) ∧
  total_refunds s' = total_refunds s + (amount net + amount cpu) ∧
  ∃ ram, requests s' = requests s ++
    [RResourceLimits receiver ram (delegated_to del_net (delband s') receiver) (delegated_to del_cpu (delband s') receiver)].
Proof.
  intros Hw Hn Hc Hf [u H]%Token.run_ok. unfold undelegatebw in H. simpl_ok.
  assert (change_ok (opp net) (opp cpu) ∧ amount (opp net) = - amount net ∧ amount (opp cpu) = - amount cpu ∧
    0 < amount net + amount cpu) as (Hch & En & Ec & Hpos) by (eapply undelegate_change; eauto).
  apply changebw_spec in H as (Hw' & Ha & ram & paid & Hp & Hreq & Hdel & Hz & Htot); [|done..].
  assert (paid = 0) as -> by (apply Hz; lia). specialize (Htot Hf).
  rewrite <- (bw_net _ Hw'), <- (bw_cpu _ Hw'). split_and!; [done|done|lia|lia|]. exists ram. done.
Qed.

Lemma bw_same s s' : bw_wf s → delband s' = delband s → userres s' = userres s → refunds s' = refunds s → bw_wf s'.
Proof. intros [B1 B2 B3 B4 B5] Hd Hu Hr. split; rewrite ?Hd, ?Hu, ?Hr; done. Qed.

Ltac same_bw := cbn beta; repeat case_match; first [done|eapply bw_same; [eassumption|reflexivity..]].

Lemma other_actions_keep_bw w a :
  match a with
  | SNewAccount _ _ | SDelegate _ _ _ _ _ | SUndelegate _ _ _ _ | SRefund _ => True
  | _ => keeps bw_wf (step w a)
  end.
Proof.
  destruct a; try done; cbn [step].
  all: unfold freeze, vote, record_vote, votestatic, quitsvote, votebyreward, claim, unfreeze, onblock, updatebp,
    removebp, setparams, openbp, banbp, bppawn, bpredeem, bpclaim, setvidparam, vote4ram, setram,
    send_token_inline, pay_vids, share_reward, note_schedule, reward_bps_and_user, credit_bp, update_elected_bps, pay_reward,
    modify_bp_vote, update_voter_info, restake, spend_stake, send, require_auth, table_get.
  all: keep same_bw.
Qed.

Lemma refund_spec e owner s u s' : bw_wf s → refund e owner s = (Ok u, s') →
  bw_wf s' ∧ ∃ r, refunds s !! owner = Some r ∧ refunds s' = delete owner (refunds s) ∧ delband s' = delband s ∧
    u32 (rf_time r + refund_delay) ≤ env_now e ∧
    requests s' = requests s ++ [RTransfer config.system_account_name owner (mk_asset (refund_amount r) Symbol.CORE_SYMBOL)].
Proof.
  intros Hw H. unfold refund, require_auth, table_get, send in H. simpl_ok. to_prop.
  match goal with H : refunds s !! _ = Some ?x |- _ => rename H into Hr; rename x into r end.
  destruct (bw_refunds _ Hw _ _ Hr) as [Hn Hc].
  match goal with H : add_assign _ _ = Ok _ |- _ => apply add_assign_ok in H as (_ & -> & _); [|by apply held_range..] end.
  split; [|exists r; split_and!; try done; cbn; unfold refund_amount; by rewrite (proj1 Hn)].
  destruct Hw as [B1 B2 B3 B4 B5]. split; cbn; try done. intros k y [_ Hk]%lookup_delete_Some. eauto.
Qed.

Lemma newaccount_bw e n v s u s' : bw_wf s → newaccount e n v s = (Ok u, s') → bw_wf s'.
Proof.
  intros Hw H. unfold newaccount, send in H. simpl_ok. to_prop.
  match goal with H : ¬ is_Some (userres s !! _) |- _ => apply eq_None_not_Some in H; rename H into Hn end.
  enough (∀ t, delband t = delband s → refunds t = refunds s →
    userres t = <[n := mk_user_res asset0 asset0 0]> (userres s) → bw_wf t) as Hall.
  { apply Hall; repeat case_match; done. }
  intros t Hd Hr Hu.
  destruct Hw as [B1 B2 B3 B4 B5]. split; rewrite ?Hd, ?Hr, ?Hu; try done.
  - intros k y [[_ <-]|[_ Hk]]%lookup_insert_Some; [done|eauto].
  - intros r. rewrite <- B4. unfold at_row. destruct (decide (r = n)) as [->|];
      [by rewrite lookup_insert_eq, Hn|by rewrite lookup_insert_ne].
  - intros r. rewrite <- B5. unfold at_row. destruct (decide (r = n)) as [->|];
      [by rewrite lookup_insert_eq, Hn|by rewrite lookup_insert_ne].
Qed.

Definition stake_fits (a : sys_action) : Prop :=
  match a with
  | SDelegate _ _ n c _ | SUndelegate _ _ n c => fits n ∧ fits c
  | _ => True
  end.

Lemma step_bw w a s u s' : stake_fits a → bw_wf s → step w a s = (Ok u, s') → bw_wf s'.
Proof.
  intros Ha Hw H. pose proof (other_actions_keep_bw w a) as Hk.
  destruct a; cbn in Ha; try (specialize (Hk s Hw); by rewrite H in Hk); cbn [step] in H.
  - by eapply newaccount_bw.
  - unfold delegatebw in H. simpl_ok. destruct Ha.
    apply changebw_spec in H as [? _]; [done|done|]. eapply delegate_change; eauto.
  - unfold undelegatebw in H. simpl_ok. destruct Ha.
    apply changebw_spec in H as [? _]; [done|done|]. eapply undelegate_change; eauto.
  - by apply refund_spec in H as [? _].
Qed.

Lemma empty_state_bw : bw_wf empty_state.
Proof. split; cbn; try (intros ? ? H; by rewrite lookup_empty in H); done. Qed.

Lemma run_steps_bw l s s' :
  Forall (fun wa => stake_fits wa.2) l → bw_wf s → run_steps s l = Ok s' → bw_wf s'.
Proof.
  intros Hl. revert s. unfold run_steps. induction Hl as [|[w a] l Ha Hl IH]; intros s Hw H; cbn in H.
  - by injection H as <-.
  - apply bind_ok in H as (s1 & H1 & H). apply Token.run_ok in H1 as [u H1].
    eapply IH; [|exact H]. by eapply step_bw.
Qed.

(** C33: in every state the system contract can reach, the bandwidth recorded for
    an account is exactly what all accounts together have delegated to it, and
    none of these amounts is negative. *)
Theorem bandwidth_totals_agree (l : list (world * sys_action)) (s : sys_state) :
  Forall (fun wa => stake_fits wa.2) l → run_steps empty_state l = Ok s →
  (∀ r, at_row res_net (userres s) r = delegated_to del_net (delband s) r ∧
        at_row res_cpu (userres s) r = delegated_to del_cpu (delband s) r) ∧
  ∀ k d, delband s !! k = Some d → 0 ≤ del_net d ∧ 0 ≤ del_cpu d.
Proof.
  intros Hl H. pose proof (run_steps_bw l _ _ Hl empty_state_bw H) as Hw. split.
  - intros r. split; [apply (bw_net _ Hw)|apply (bw_cpu _ Hw)].
  - intros k d Hk. destruct (bw_delband _ Hw _ _ Hk) as [[_ ?] [_ ?]]. unfold del_net, del_cpu. lia.
Qed.

(** A refund is paid once, after the delay: it transfers what was waiting,
    and the request is gone, so that refunding again fails. *)
Theorem refund_pays_once (e : action_env) (owner : Z) (s s' : sys_state) :
  bw_wf s → run (refund e owner) s = Ok s' →
  ∃ r, refunds s !! owner = Some r ∧ u32 (rf_time r + refund_delay) ≤ env_now e ∧
    requests s' = requests s ++ [RTransfer config.system_account_name owner (mk_asset (refund_amount r) Symbol.CORE_SYMBOL)] ∧
    total_delegated s' + total_refunds s' = total_delegated s + total_refunds s - refund_amount r ∧
    run (refund e owner) s' = Err "refund request not found"%string.
Proof.
  intros Hw [u H]%Token.run_ok. assert (owner ∈ authorized e) as Ha.
  { unfold refund, require_auth in H. simpl_ok. by to_prop. }
  apply refund_spec in H as (_ & r & Hr & Hd & Hdb & Ht & Hreq); [|done].
  exists r. split_and!; try done.
  - unfold total_delegated, total_refunds. rewrite Hdb, Hd.
    rewrite (map_sum_delete _ (refunds s) owner r Hr). unfold refund_amount. lia.
  - unfold run, refund, require_auth, table_get, mbind, st_bind, get_st, st_assert, lift, eos_assert.
    rewrite bool_decide_eq_true_2 by done. by rewrite Hd, lookup_delete_eq.
Qed.

(** ** Two accounts *)
Module BandwidthDemo.
Import VotingDemo.

(** [alice] stakes for [bob] and herself, and takes some of it back. *)
Definition alice : Z := voter.
Definition bob : Z := 78.

Definition stakes : list (world * sys_action) :=
  (fun a => (at_block 10, a)) <$>
  [SNewAccount bob 900; SDelegate alice bob (core_amount 30) (core_amount 40) false;
   SDelegate alice alice (core_amount 10) (core_amount 0) false;
   SUndelegate alice bob (core_amount 5) (core_amount 10)].

Definition staked : sys_state := Eval vm_compute in after stakes.

Lemma staked_runs : run_steps empty_state stakes = Ok staked.
Proof. vm_compute. reflexivity. Qed.

Lemma stakes_fit : Forall (fun wa => stake_fits wa.2) stakes.
Proof.
  unfold stakes. cbn [fmap list_fmap].
  repeat (apply Forall_cons; split; [first [exact I|split; apply fits_amount; lia]|]). apply Forall_nil_2.
Qed.

Lemma staked_bw : bw_wf staked.
Proof. exact (run_steps_bw stakes _ _ stakes_fit empty_state_bw staked_runs). Qed.

Definition then_do (n : Z) (a : sys_action) : sys_state :=
  match run (step (at_block n) a) staked with Ok s => s | Err _ => empty_state end.

Definition delegated : sys_state := then_do 20 (SDelegate alice bob (core_amount 1) (core_amount 2) false).
Definition undelegated : sys_state := then_do 20 (SUndelegate alice bob (core_amount 1) (core_amount 2)).
Definition refunded : sys_state := then_do 900000 (SRefund alice).
End BandwidthDemo.

Lemma delegatebw_conserves_witness :
  total_delegated BandwidthDemo.staked = 650000 ∧ bw_wf BandwidthDemo.delegated.
Proof.
  split; [vm_compute; reflexivity|].
  refine (proj1 (delegatebw_conserves (w_env (VotingDemo.at_block 20)) BandwidthDemo.alice BandwidthDemo.bob
    (VotingDemo.core_amount 1) (VotingDemo.core_amount 2) false BandwidthDemo.staked _ BandwidthDemo.staked_bw _ _ _ _)).
  - apply VotingDemo.fits_amount. lia.
  - apply VotingDemo.fits_amount. lia.
  - vm_compute. discriminate.
  - vm_compute. reflexivity.
Defined.

Lemma undelegatebw_refunds_witness :
  total_refunds BandwidthDemo.undelegated
  = total_refunds BandwidthDemo.staked + (amount (VotingDemo.core_amount 1) + amount (VotingDemo.core_amount 2)).
Proof.
  refine (proj1 (proj2 (proj2 (proj2 (undelegatebw_refunds (w_env (VotingDemo.at_block 20)) BandwidthDemo.alice
    BandwidthDemo.bob (VotingDemo.core_amount 1) (VotingDemo.core_amount 2) BandwidthDemo.staked
    BandwidthDemo.undelegated BandwidthDemo.staked_bw _ _ _ _))))).
  - apply VotingDemo.fits_amount. lia.
  - apply VotingDemo.fits_amount. lia.
  - vm_compute. discriminate.
  - vm_compute. reflexivity.
Defined.

Lemma bandwidth_totals_agree_witness :
  at_row res_net (userres BandwidthDemo.staked) BandwidthDemo.bob = 250000 ∧
  at_row res_net (userres BandwidthDemo.staked) BandwidthDemo.bob
  = delegated_to del_net (delband BandwidthDemo.staked) BandwidthDemo.bob.
Proof.
  split; [vm_compute; reflexivity|].
  exact (proj1 (proj1 (bandwidth_totals_agree BandwidthDemo.stakes BandwidthDemo.staked BandwidthDemo.stakes_fit
    BandwidthDemo.staked_runs) BandwidthDemo.bob)).
Defined.

Lemma refund_pays_once_witness :
  run (refund (w_env (VotingDemo.at_block 900000)) BandwidthDemo.alice) BandwidthDemo.refunded
  = Err "refund request not found"%string.
Proof.
  edestruct (refund_pays_once (w_env (VotingDemo.at_block 900000)) BandwidthDemo.alice BandwidthDemo.staked
    BandwidthDemo.refunded BandwidthDemo.staked_bw) as (r & _ & _ & _ & _ & H).
  - vm_compute. reflexivity.
  - exact H.
Defined.
End Bandwidth.
