(* ===== verification/Election.v ===== *)
(** * Block rewards and the election of producers

    [producer.cpp]: the reward of a block, its split, and the insertion loop of
    [update_elected_bps] against sorting all producers by stake. *)

From S2P Require Import Prelude Exceptions Name BlockHeader EosLib Token SystemContract Voting.
Import Asset System.

Module Election.

(** ** The reward of a block *)

(** Fourteen halvings take the reward below the threshold. *)
Lemma reward_cases n : 0 ≤ n →
  calc_reward_by_block n =
  if 13 <? n / reward_attenuation_cycle then asset0
  else mk_asset (5000 / 2 ^ (n / reward_attenuation_cycle)) Symbol.CORE_SYMBOL.
Proof.
  intros Hn. unfold calc_reward_by_block. set (c := n / reward_attenuation_cycle).
  assert (0 ≤ c) as Hc by (apply Z.div_pos; [done|unfold reward_attenuation_cycle; lia]).
  destruct (Z.ltb_spec 13 c) as [H13|H13].
  - destruct (Z.ltb_spec 100 c); [done|].
    assert (2 ^ 14 ≤ 2 ^ c) by (apply Z.pow_le_mono_r; lia).
    destruct (Z.ltb_spec 10000 (2 ^ c)); [done|lia].
  - destruct (Z.ltb_spec 100 c); [lia|].
    assert (2 ^ c ≤ 2 ^ 13) by (apply Z.pow_le_mono_r; lia).
    destruct (Z.ltb_spec 10000 (2 ^ c)); [lia|done].
Qed.

(** The reward of a block is at most half a token, never rises from one
    block to a later one, and stops after fourteen attenuation cycles. *)
Theorem reward_attenuates (n m : Z) :
  0 ≤ n ≤ m →
  0 ≤ amount (calc_reward_by_block m) ≤ amount (calc_reward_by_block n) ∧
  amount (calc_reward_by_block n) ≤ 5000 ∧
  (14 * reward_attenuation_cycle ≤ n → calc_reward_by_block n = asset0).
Proof.
  intros Hnm. rewrite !reward_cases by lia.
  set (c := n / reward_attenuation_cycle). set (d := m / reward_attenuation_cycle).
  assert (0 ≤ c ≤ d) as Hc.
  { split; [apply Z.div_pos|apply Z.div_le_mono]; unfold reward_attenuation_cycle; lia. }
  assert (0 < 2 ^ c) as Hpc by (apply Z.pow_pos_nonneg; lia).
  assert (2 ^ c ≤ 2 ^ d) as Hle by (apply Z.pow_le_mono_r; lia).
  assert (0 ≤ 5000 / 2 ^ c ≤ 5000) as Hrc.
  { split; [apply Z.div_pos; lia|]. apply Z.div_le_upper_bound; nia. }
  assert (0 ≤ 5000 / 2 ^ d ≤ 5000 / 2 ^ c) as Hrd.
  { split; [apply Z.div_pos; lia|]. apply Z.div_le_compat_l; lia. }
  split; [|split].
  - destruct (Z.ltb_spec 13 c), (Z.ltb_spec 13 d); cbn; lia.
  - destruct (Z.ltb_spec 13 c); cbn; lia.
  - intros H14. assert (14 ≤ c) as Hc14.
    { apply Z.div_le_lower_bound; unfold reward_attenuation_cycle in *; lia. }
    destruct (Z.ltb_spec 13 c); [done|lia].
Qed.

Lemma reward_attenuates_witness :
  0 ≤ 100 ≤ 40000000 ∧ amount (calc_reward_by_block 40000000) ≤ amount (calc_reward_by_block 100).
Proof. split; [lia|]. apply (reward_attenuates 100 40000000). lia. Defined.

(** ** The insertion loop *)

Abbreviation candidate := (Z * Z * Z)%type.

(** Insertion in front of the first entry that does not have more. *)
Fixpoint insert_desc (x : candidate) (l : list candidate) : list candidate :=
  match l with
  | [] => [x]
  | y :: l' => if y.2 <=? x.2 then x :: y :: l' else y :: insert_desc x l'
  end.

Lemma insert_desc_perm x l : insert_desc x l ≡ₚ x :: l.
Proof.
  induction l as [|y l IH]; cbn; [done|]. destruct (_ <=? _); [done|]. rewrite IH. apply Permutation_swap.
Qed.

Lemma insert_desc_sorted x l : StronglySorted by_stake l → StronglySorted by_stake (insert_desc x l).
Proof.
  induction 1 as [|y l Hl IH Hy]; cbn; [repeat constructor|].
  destruct (Z.leb_spec y.2 x.2) as [Hle|Hgt].
  - constructor; [by constructor|]. constructor; [done|]. eapply Forall_impl; [exact Hy|].
    unfold by_stake. intros z Hz. cbn in *. lia.
  - constructor; [done|]. rewrite insert_desc_perm. constructor; [unfold by_stake; lia|done].
Qed.

Lemma take_insert_desc n x l : take n (insert_desc x (take n l)) = take n (insert_desc x l).
Proof.
  revert l. induction n as [|n IH]; intros [|y l]; cbn; try done.
  destruct (_ <=? _).
  - cbn. f_equal. destruct n; [done|]. cbn. f_equal. rewrite take_take. f_equal. lia.
  - cbn. f_equal. apply IH.
Qed.

Lemma insert_desc_split x l1 l2 : Forall (fun y : candidate => x.2 < y.2) l1 →
  insert_desc x (l1 ++ l2) = l1 ++ insert_desc x l2.
Proof.
  induction 1 as [|y l1 Hy _ IH]; cbn; [done|]. destruct (Z.leb_spec y.2 x.2); [lia|]. by rewrite IH.
Qed.

(** The loop stops at the first entry that does not have more, or at the first
    free place if what it reads there is not more either. *)
Lemma insert_vote_desc spare n x i l :
  (∀ i, spare i ≤ x.2) → (i ≤ length l)%nat →
  (length l < i + n)%nat ∨ length l = (i + n)%nat ∧ (∃ y, last l = Some y ∧ y.2 ≤ x.2) →
  Forall (fun y : candidate => x.2 < y.2) (take i l) →
  insert_vote spare i n x l = take NUM_OF_TOP_BPS (insert_desc x l).
Proof.
  intros Hsp. revert i. induction n as [|n IH]; intros i Hi Hlen Hpre.
  { destruct Hlen as [|[Hlen (y & Hy & Hle)]]; [lia|]. rewrite take_ge in Hpre by lia.
    apply last_Some_elem_of in Hy. pose proof (proj1 (Forall_forall _ _) Hpre y Hy). cbn in *. lia. }
  cbn [insert_vote].
  destruct (l !! i) as [y|] eqn:E.
  - destruct (Z.leb_spec y.2 x.2) as [Hle|Hgt].
    + f_equal. rewrite <- (take_drop i l) at 3. rewrite insert_desc_split by done.
      rewrite (drop_S l y i) by done. cbn. by rewrite (proj2 (Z.leb_le _ _)).
    + apply lookup_lt_Some in E as Hlt. apply IH; [lia|destruct Hlen as [|[]]; [left; lia|right; split; [lia|done]]|].
      rewrite (take_S_r l i y) by done. apply Forall_app. split; [done|by constructor].
  - rewrite (proj2 (Z.leb_le _ _)) by apply Hsp. apply lookup_ge_None in E.
    f_equal. rewrite (take_ge l i), (drop_ge l i) by lia.
    rewrite (take_ge l i) in Hpre by lia. rewrite <- (app_nil_r l) at 2.
    by rewrite insert_desc_split.
Qed.

(** The rows that compete in the ordinary way, and those of the genesis. *)
Definition row_of (r : Z * bp_info) : candidate := (r.1, b_key r.2, b_total_staked r.2).
Definition is_boot (genesis : bool) (r : Z * bp_info) : bool := genesis && is_genesis_init_bp r.1.

(** All candidates, sorted by falling stake. *)
Definition ranking (genesis : bool) (rows : list (Z * bp_info)) : list candidate :=
  foldl (fun l r => insert_desc (row_of r) l) [] (List.filter (fun r => negb (is_boot genesis r)) rows).

Lemma elect_one_spec spare genesis L boot r :
  (∀ i, spare i ≤ b_total_staked r.2) → StronglySorted by_stake L →
  elect_one spare genesis (take NUM_OF_TOP_BPS L, boot) r =
  if is_boot genesis r then (take NUM_OF_TOP_BPS L, boot ++ [row_of r])
  else (take NUM_OF_TOP_BPS (insert_desc (row_of r) L), boot).
Proof.
  intros Hsp HL. unfold elect_one, is_boot. destruct (_ && _) eqn:Eb; [done|].
  set (T := take NUM_OF_TOP_BPS L). assert (length T ≤ NUM_OF_TOP_BPS)%nat as HT by (unfold T; rewrite length_take; lia).
  assert (insert_vote spare 0 NUM_OF_TOP_BPS (row_of r) T = take NUM_OF_TOP_BPS (insert_desc (row_of r) L) ↔
          insert_vote spare 0 NUM_OF_TOP_BPS (row_of r) T = take NUM_OF_TOP_BPS (insert_desc (row_of r) T)) as Hins.
  { unfold T. by rewrite take_insert_desc. }
  destruct (last T) as [y|] eqn:El.
  - destruct (bool_decide _ && _) eqn:Ec.
    + apply andb_prop in Ec as [Hfull Hlt]. apply bool_decide_eq_true in Hfull. apply Z.ltb_lt in Hlt.
      f_equal. rewrite <- take_insert_desc. fold T.
      assert (Forall (fun z : candidate => (row_of r).2 < z.2) T) as Hall.
      { apply last_Some in El as [T' HT']. assert (StronglySorted by_stake T) as HsT.
        { unfold T. rewrite <- (take_drop NUM_OF_TOP_BPS L) in HL. by apply StronglySorted_app_1_l in HL. }
        rewrite HT' in HsT |- *. apply Forall_app. split; [|by constructor].
        apply Forall_forall. intros z Hz.
        assert (by_stake z y) as Hzy by (eapply (StronglySorted_app_1_elem_of by_stake T' [y]); [done|done|by left]).
        unfold by_stake in Hzy. cbn. lia. }
      rewrite <- (app_nil_r T) at 2. rewrite insert_desc_split by done. rewrite take_app_le by lia.
      by rewrite take_ge by lia.
    + f_equal. apply Hins. apply insert_vote_desc; [done|lia| |constructor].
      apply andb_false_iff in Ec as [Ec|Ec].
      * apply bool_decide_eq_false in Ec. left. lia.
      * apply Z.ltb_ge in Ec. destruct (decide (length T < NUM_OF_TOP_BPS)%nat); [left; lia|right].
        split; [lia|]. by exists y.
  - f_equal. apply Hins. apply insert_vote_desc; [done|lia| |constructor].
    apply last_None in El. rewrite El. left. unfold NUM_OF_TOP_BPS. cbn. lia.
Qed.

Lemma foldl_insert_sorted rs L :
  StronglySorted by_stake L → StronglySorted by_stake (foldl (fun l r => insert_desc (row_of r) l) L rs).
Proof. revert L. induction rs as [|r rs IH]; intros L HL; cbn; [done|]. apply IH. by apply insert_desc_sorted. Qed.

Lemma foldl_insert_perm rs L :
  foldl (fun l r => insert_desc (row_of r) l) L rs ≡ₚ L ++ (row_of <$> rs).
Proof.
  revert L. induction rs as [|r rs IH]; intros L; cbn; [by rewrite app_nil_r|].
  rewrite IH, insert_desc_perm. cbn. apply Permutation_middle.
Qed.

(** The loop over the producers keeps the head of the ranking. *)
Lemma elect_fold spare genesis rows :
  (∀ r i, r ∈ rows → spare i ≤ b_total_staked r.2) →
  foldl (elect_one spare genesis) ([], []) rows
  = (take NUM_OF_TOP_BPS (ranking genesis rows), row_of <$> List.filter (is_boot genesis) rows).
Proof.
  intros Hsp. unfold ranking.
  enough (∀ L boot, StronglySorted by_stake L →
    foldl (elect_one spare genesis) (take NUM_OF_TOP_BPS L, boot) rows
    = (take NUM_OF_TOP_BPS (foldl (fun l r => insert_desc (row_of r) l) L
         (List.filter (fun r => negb (is_boot genesis r)) rows)),
       boot ++ (row_of <$> List.filter (is_boot genesis) rows))) as H.
  { specialize (H [] [] (SSorted_nil _)). by rewrite take_nil in H. }
  induction rows as [|r rows IH]; intros L boot HL; cbn [foldl List.filter]; [by rewrite app_nil_r|].
  rewrite elect_one_spec by (auto; intros; apply Hsp; by left).
  destruct (is_boot genesis r) eqn:E; cbn [negb].
  - rewrite IH by (auto; intros; apply Hsp; by right). cbn. by rewrite <- app_assoc.
  - cbn [foldl]. apply IH; [intros; apply Hsp; by right|]. by apply insert_desc_sorted.
Qed.

Lemma filter_all {A} (f : A → bool) l : (∀ x, f x = true) → List.filter f l = l.
Proof. intros Hf. induction l as [|x l IH]; cbn; [done|]. by rewrite Hf, IH. Qed.

(** After the genesis period the election takes the producers with the
    most stake: there is a ranking of all registered producers by falling stake
    whose first seventeen are the elected ones.  The loop also compares with
    vector memory it never wrote; this holds when that memory does not hold more
    than any stake. *)
Theorem election_takes_top (spare : nat → Z) (sort_stakes : list candidate → list candidate)
    (s : sys_state) (block : Z) :
  genesis_boot_end_block_num < block →
  (∀ name b i, bps s !! name = Some b → spare i ≤ b_total_staked b) →
  ∃ L, L ≡ₚ (row_of <$> map_to_list (bps s)) ∧ StronglySorted by_stake L ∧
    elected spare sort_stakes s block = fst <$> take NUM_OF_TOP_BPS L.
Proof.
  intros Hb Hsp. exists (ranking false (ascending (bps s))).
  assert (List.filter (fun r => negb (is_boot false r)) (ascending (bps s)) = ascending (bps s)) as Hall.
  { by apply filter_all. }
  split_and!.
  - unfold ranking. rewrite Hall, foldl_insert_perm. cbn. by rewrite ascending_perm.
  - unfold ranking. apply foldl_insert_sorted. constructor.
  - unfold elected. rewrite (proj2 (Z.leb_gt _ _)) by done.
    rewrite elect_fold.
    + cbn. by rewrite take_take.
    + intros [n b] i Hr. apply elem_of_ascending in Hr. by eapply Hsp.
Qed.

(** ** Examples *)
Module ElectionDemo.
Definition bp (staked : Z) : bp_info := mk_bp 0 0 staked asset0 asset0 0 0 0 asset0 false true.
Definition some_bps : sys_state := set_bps {[1000 := bp 5; 1001 := bp 9; 1002 := bp 7]} Voting.empty_state.
Definition late : Z := genesis_boot_end_block_num + 1.
Definition after_late : genesis_boot_end_block_num < late := eq_refl.
Definition no_active : action_env := mk_env config.system_account_name ∅ 10 30 (fun _ => true) [].
End ElectionDemo.

Lemma election_takes_top_witness :
  elected (fun _ => 0) Datatypes.id ElectionDemo.some_bps ElectionDemo.late = [(1001, 0); (1002, 0); (1000, 0)] ∧
  ∃ L, L ≡ₚ (row_of <$> map_to_list (bps ElectionDemo.some_bps)) ∧ StronglySorted by_stake L ∧
    elected (fun _ => 0) Datatypes.id ElectionDemo.some_bps ElectionDemo.late = fst <$> take NUM_OF_TOP_BPS L.
Proof.
  split; [vm_compute; reflexivity|].
  apply (election_takes_top (fun _ => 0) Datatypes.id ElectionDemo.some_bps ElectionDemo.late ElectionDemo.after_late).
  intros name b i H. cbn in H.
  repeat (apply lookup_insert_Some in H as [[_ <-]|[_ H]]; [done|]).
  by apply lookup_singleton_Some in H as [_ <-].
Defined.

(** The comparison past the end of [vote_schedule] matters: with larger
    values left in that memory no producer is elected although three are registered
    with stake. *)
Theorem election_reads_past_end :
  elected (fun _ => 1000) Datatypes.id ElectionDemo.some_bps ElectionDemo.late = [] ∧
  elected (fun _ => 0) Datatypes.id ElectionDemo.some_bps ElectionDemo.late = [(1001, 0); (1002, 0); (1000, 0)].
Proof. vm_compute. done. Qed.

(** ** The reward split *)

Ltac still_asked := cbn beta; repeat case_match; try done; cbn; by apply elem_of_app; left.

(** The steps after the first issue only add to the requests. *)
Lemma later_steps_ask e spare sort_stakes sort_names bpname reward n r :
  keeps (fun s => r ∈ requests s)
    (share_reward e bpname reward ;;
     if n mod UPDATE_CYCLE =? 0 then update_elected_bps spare sort_stakes sort_names n else mret ()).
Proof.
  unfold share_reward, reward_bps_and_user, credit_bp, update_elected_bps, send, table_get. keep still_asked.
Qed.

(** When the reward for new accounts exceeds the block reward, [onblock]
    asks the token contract to issue a zero amount, which that contract refuses
    whatever its state: the whole action fails. *)
Theorem vid_shortfall_fails (e : action_env) spare sort_stakes sort_names (bpname version : Z) (s s' : sys_state)
    (v : asset) :
  vid_reward e s = Ok v → amount (calc_reward_by_block (env_block_num e)) < amount v → 0 < amount v →
  run (onblock e spare sort_stakes sort_names bpname version) s = Ok s' →
  RIssue vid_pool_account_name asset0 ∈ requests s' ∧
  ∀ te to memo t, is_ok (run (Token.issue te to asset0 memo) t) = false.
Proof.
  intros Hv Hlt Hpos [u H]%Token.run_ok. split.
  - unfold onblock in H. apply st_bind_ok in H as (u1 & s1 & Hn & H).
    assert (vid_reward e s1 = Ok v) as Hv1.
    { unfold note_schedule, modify_st in Hn. injection Hn as _ <-. by destruct (schedules s !! version). }
    apply st_bind_ok in H as (rest & s2 & Hp & H).
    assert (RIssue vid_pool_account_name asset0 ∈ requests s2) as Hin.
    { unfold pay_vids, send in Hp. apply st_bind_ok in Hp as (s3 & s4 & Hg & Hp). simpl_ok.
      rewrite Hv1 in *. simplify_eq.
      match goal with H : gtb _ _ = Ok _ |- _ => apply compare_ok in H as [_ ->] end.
      rewrite Z.gtb_ltb, (proj2 (Z.ltb_lt _ _)) in Hp by done. simpl_ok.
      match goal with H : ltb _ _ = Ok _ |- _ => apply compare_ok in H as [_ ->] end.
      rewrite (proj2 (Z.ltb_lt _ _)) in Hp by done. simpl_ok. cbn. apply elem_of_app. right. by left. }
    pose proof (later_steps_ask e spare sort_stakes sort_names bpname rest (env_block_num e) _ s2 Hin) as Hk.
    by rewrite H in Hk.
  - intros te to memo t. destruct (run _ _) eqn:Er; [|done]. apply Token.run_ok in Er as [x Hx].
    unfold Token.issue in Hx. simpl_ok. to_prop. cbn in *. lia.
Qed.

Module RewardDemo.
Definition env : action_env := mk_env config.system_account_name ∅ 10 30 (fun _ => true) [].
Definition vids_waiting : sys_state :=
  set_vidparam {[vid_params_name := mk_vid_params 1 (mk_asset 10000 Symbol.CORE_SYMBOL)]}
    (set_vid_stats {[9 := (1, [(5, 6)])]} Voting.empty_state).
Definition after_block : sys_state :=
  match run (onblock env (fun _ => 0) Datatypes.id Datatypes.id 1000 0) vids_waiting with
  | Ok s => s | Err _ => Voting.empty_state end.
End RewardDemo.

Lemma vid_shortfall_fails_witness :
  amount (calc_reward_by_block 10) = 5000 ∧
  RIssue vid_pool_account_name asset0 ∈ requests RewardDemo.after_block.
Proof.
  split; [vm_compute; reflexivity|].
  refine (proj1 (vid_shortfall_fails RewardDemo.env (fun _ => 0) Datatypes.id Datatypes.id 1000 0
    RewardDemo.vids_waiting RewardDemo.after_block (mk_asset 10000 Symbol.CORE_SYMBOL) _ _ _ _)).
  - vm_compute. reflexivity.
  - vm_compute. reflexivity.
  - vm_compute. reflexivity.
  - vm_compute. reflexivity.
Defined.
End Election.
